(* ===== verification/_CoqProject ===== *)
-Q . S2P
Prelude.v
SetsString.v
WorkQueue.v
ThreadSafeStore.v
Store.v
Heap.v
TimedQueue.v
Endpoints.v
Fifo.v
DeltaFifo.v
Reflector.v
Informer.v
Validation.v
Float.v
Strconv.v
InfDec.v
Quantity.v
Quota.v
IntStr.v
Labels.v
LabelsParse.v
Expectations.v
Pods.v
ExpirationCache.v
Listers.v
Nodes.v
Predicates.v
DeploymentUtil.v
Deployment.v
Rollout.v
Revisions.v
ReplicaSet.v
EndpointsController.v
NodeController.v
Job.v
Daemon.v
PodGC.v
MetricsClient.v
Autoscaler.v
