(* ===== verification/Prelude.v ===== *)
(** * Verification of the core of kube-controller-manager

    The repository benchmarks the Go compiler on three programs that it carries
    whole: kube-controller-manager (under [src/kube/src/k8s.io/kubernetes],
    to which the paths below are relative), jujud and gogs.  This development
    models the machinery on which every controller of the first one is built, the
    controllers of replica sets, deployments, endpoints, jobs, daemon sets, nodes,
    autoscaling and the collection of terminated pods on top of it, and the arithmetic of
    resource quantities.

    ** How the program works

    A controller keeps a local copy of the objects of the API server and acts on
    the differences between what they ask for and what there is.  A reflector
    lists and watches a resource and feeds a delta FIFO; the informer's loop pops
    the deltas of one object at a time, applies them to an indexed store (the
    local copy) and calls the handlers; the handlers find the controller object
    concerned, by labels and selectors, and put its key on a work queue; a
    worker takes the key, reads both objects and dependants from the local
    copies, and calls the API server.  Because the local copy lags, a controller
    keeps expectations: the creations and deletions that it has made and not yet
    observed.

    ** Files

    - [Prelude]: Go errors, panics and map iteration; sorting; machine integers;
      lemmas on lists, sets and maps; tactics.
    - [SetsString]: [pkg/util/sets/string.go], every method of [sets.String].
    - [WorkQueue]: [pkg/util/workqueue/queue.go], every method of [Type], with the
      goroutines that wait in [Get]; [Queue] is the code's state, [spec] the
      specification that it refines.
    - [ThreadSafeStore]: [pkg/client/cache/thread_safe_store.go], the indexed map
      under every store; every method.
    - [Store]: [pkg/client/cache/store.go], [index.go], [undelta_store.go]: the
      class [Store] with its laws [StoreLaws], [cache], which implements it, and
      [UndeltaStore], a client of it.
    - [Fifo], [DeltaFifo]: [pkg/client/cache/fifo.go], [delta_fifo.go].
    - [Reflector]: [pkg/client/cache/reflector.go], against the interface of the
      store it fills.
    - [Informer]: [pkg/controller/framework/controller.go], the processing loop
      between the delta FIFO, the local copy and the handlers.
    - [Validation]: [pkg/util/validation/validation.go]; [Float], [Strconv]: the
      parts of float64 and of strconv, strings and math/big that the others need,
      models of the language's library; [Labels] and [LabelsParse]:
      [pkg/labels/labels.go] and [selector.go], with the lexer and parser.
    - [Expectations], [Pods]: [pkg/controller/controller_utils.go] (with the pod
      helpers of [pkg/api/resource_helpers.go]).
    - [ExpirationCache]: [pkg/client/cache/expiration_cache.go].
    - [Listers]: [LabelSelectorAsSelector] of [pkg/api/unversioned/helpers.go], the
      listers of [pkg/client/cache/listers.go] that the replica set controller
      uses, and [pkg/controller/lookup_cache.go].
    - [ReplicaSet]: [pkg/controller/replicaset]: the handlers, the worker,
      [syncReplicaSet], [manageReplicas] and the status update.
    - [EndpointsController]: [pkg/controller/endpoint/endpoints_controller.go], with
      [GetPodServices] of the listers and [FindPort] of [pkg/api/pod]; [Endpoints]:
      [pkg/api/endpoints/util.go], the canonical form in which endpoints are written.
    - [Job]: [pkg/controller/job/controller.go], with [GetPodJobs] of the listers.
    - [Heap]: the standard library's container/heap; [TimedQueue]:
      [pkg/controller/node/rate_limited_queue.go], the queue of evictions;
      [NodeController]: [pkg/controller/node/nodecontroller.go], which monitors the
      nodes and fills and works off two such queues.
    - [Nodes]: nodes and their lister; [Predicates]: the CPU and memory that pods request,
      of [plugin/pkg/scheduler/algorithm/predicates/predicates.go], and the host ports they
      take, of [pkg/api/validation]; [Daemon]: [pkg/controller/daemon/controller.go]: the
      handlers, [manage], the status update and [syncDaemonSet].
    - [PodGC]: [pkg/controller/gc/gc_controller.go]; [MetricsClient], [Autoscaler]:
      [pkg/controller/podautoscaler]: the interface to the metrics and its implementation,
      and the client of it, which reconciles the autoscalers.
    - [InfDec]: the arbitrary-precision decimals of the vendored inf package;
      [Quantity]: [pkg/api/resource]; [Quota]: [pkg/quota/resources.go].
    - [IntStr]: [pkg/util/intstr/intstr.go], numbers or percentages.
    - [DeploymentUtil]: [pkg/util/deployment/deployment.go], [pkg/util/labels], the
      heap of replica sets, the monad in which the controller runs and its
      logic [wp]; [Deployment]: the operations of
      [pkg/controller/deployment/deployment_controller.go]; [Rollout] and
      [Revisions]: the theorems about them.

    ** How code becomes definitions

    A struct is a [Record] with the source's fields, and a method a function on
    it that returns the new state, and the error or the result; names are the
    source's, with a prefix or a final underscore where two methods of one file
    clash.  A method that runs under its object's lock is one step; interleaving
    is a list of steps or an inductive step relation.  Objects that are shared
    through pointers and changed in place (the expectations, the UID sets, the
    replica sets of a deployment) live in an explicit heap.  The deployment
    controller, whose functions read, write and fail in turn, is written in a
    state and error monad.  Iteration over a Go map follows an arbitrary
    permutation, the class [RangeOrder]; [sort.Sort] is an arbitrary sort, the
    classes [Sorts] and [KeySort]: theorems hold for every order the runtime may
    pick.  The clock and the answers of the API server are arguments.  A Go panic
    is a value ([Panics], [OutOfRange]).  Integers that can wrap are wrapped
    ([int64]); lengths are natural numbers.

    ** What the theorems show

    - Informers: once drained, the local copy is the server's state
      ([informer_converges]) unless a deletion overtook a queued addition
      ([delete_overtakes_add]), which a relist repairs ([relist_repairs]), and
      the handler hears exactly the changes ([notifications_tell_client]).
    - Replica sets: whatever the interleaving, the pods of a replica set never
      exceed its replicas ([never_overshoots]); one sync moves by at most a burst
      in the right direction and gives up the right pods
      ([manageReplicas_spec]); a pod finds its owner ([getPodReplicaSet_spec]).
    - Jobs: whatever the interleaving, the running pods of a job never exceed its
      parallelism, nor those that run or have succeeded its completions
      ([job_never_overshoots]); what a sync creates and deletes ([manageJob_spec])
      and reports ([syncJob_reports]), and two errors of the code
      ([deadline_not_retried], [invalid_selector_panics]).
    - Endpoints: packing is canonical ([RepackSubsets_canonical],
      [RepackSubsets_same_offers]) and keeps what is offered
      ([RepackSubsets_keeps_offers]); the endpoints of a service are exactly its pods
      ([endpoints_are_the_pods]); a sync writes them ([syncService_writes_endpoints])
      and leaves nothing for the next one, unless pods that share an address publish
      different host names ([sync_settles]); the events of a pod queue the services that
      gain, keep or lose it, but for a deletion that arrives as a tombstone
      ([pod_events_reach_services]).
    - The timed queue: the heap and the set together implement a map from values to
      times ([unique_queue_refines_map]); [Try] ends and acts on what is due
      ([Try_processes_due]), and may lose a value that is added while its action runs
      ([addition_during_action_lost]).
    - Daemon sets: whatever the interleaving, a node never gets a second daemon pod of a
      daemon set that keeps its selector ([one_daemon_per_node]), but it may when the
      daemon set is deleted and added again ([recreated_overshoots]); which nodes should run one
      ([nodeShouldRunDaemonPod_spec]), what a sync creates and deletes ([manage_spec]) and
      reports ([updateDaemonSetStatus_spec]); host ports are unique exactly when the
      keys that are accumulated are ([AccumulateUniqueHostPorts_ok]); two errors of the
      code ([invalid_selector_creates_again], [namesake_not_counted]).
    - Autoscaling: what is written is within the bounds and outside of the windows
      and panics only if the metrics client does ([reconcile_safe]), however reconciliations follow each other ([rescales_apart]); the
      replicas that float64 gives against the exact ones
      ([computeReplicasForCPUUtilization_spec]); the utilization that is reported, and its
      errors ([averageFunction_spec], [GetCPUUtilization_spec], [utilization_panics]).
      The collection of terminated pods takes the oldest ones ([gc_spec]).
    - Nodes: every node that is queued for eviction was gone from the list, or was not
      heard of, or not ready, for the whole timeout, or its status had lost its
      condition, in the versions of it that the monitor looked at, those that it reads again
      after a failed update included ([evictions_justified]); a pass forgets the nodes that are gone and
      cancels the eviction of those that are back ([monitor_pass_effects]); which pods
      an eviction deletes ([deletePods_spec]) and when they are killed
      ([terminatePods_spec]); ranges of addresses are not given twice
      ([cidrs_unique]); two errors of the code ([missing_condition_resets],
      [exhausted_retries_ignored]).
    - Deployments: a sync of a rolling update, whatever updates the server refuses, as
      long as no replica set is shown with more available pods than its size, changes only sizes, respects the surge, and takes from the old replica sets no more
      than it may ([rollingUpdate_safe]); on a cluster that keeps up, syncs are
      the moves of an abstract roll-out ([rollingUpdate_refines_roll]), which
      reaches the desired state in a known number of steps and stays within the
      surge and the minimum available ([rolling_update_converges]); a rollback
      restores the template ([rollback_restores_template]); how revisions are
      stamped and which replica sets are old.
    - Quantities: parsing gives the value that the text denotes
      ([ParseQuantity_value]), rounded up and capped ([ParseQuantity_bounded]);
      printing is canonical ([Canonicalize_spec]) and parses back to the same
      quantity ([String_ParseQuantity_roundtrip]); sums, differences and
      comparisons are those of the numbers ([arithmetic_exact]), also on lists of
      resources ([resource_lists_arithmetic]); conversions to int64, with what
      happens when they do not fit ([ScaledValue_spec]); percentages are exact
      although computed in float64 ([GetValueFromIntOrPercent_exact]).
    - Expectations: the pointers and counters implement a map
      ([expectations_refine_map]); each deletion is counted once
      ([deletions_counted_once]); a controller waits exactly until what it
      expects was observed or five minutes passed ([waits_until_observed]).
    - The work queue refines a set of pending keys ([steps_refine_spec]): no key
      is processed twice at once, no key is lost, keys come in order, and a
      shut-down queue drains.
    - Stores: the indices agree with the items ([indices_ok_preserved]) and find
      them exactly; [cache] keeps the laws of a store; the queues keep every
      item queued, return each once, and de-duplicate without changing meaning.
    - Labels: parsing terminates on every input ([Parse_total]) and inverts
      printing ([Parse_String_roundtrip]); selectors match what they describe.
    - Errors and divergences of the code from its comments are theorems too:
      [delete_overtakes_add], [HasSynced_stuck_after_duplicate],
      [HasSynced_stuck_after_relist], [pop_order_after_delete],
      [Add_drops_index_error], [Parse_rejects_trailing_empty],
      [GetPodReplicaSets_spec], [stale_owner_after_recreation],
      [deployment_revision_not_retried], [setNewReplicaSetAnnotations_spec],
      [old_replica_sets_spec], [ScaledValue_spec], [String_loses_scale].

    ** Bounds and fuel

    The lexer and the parser run on fuel: the length of the input plus a
    constant, which [Parse_total] proves to be enough.  So do two loops of
    [Canonicalize]: [removeFactors], with the number of bits of the amount, which
    bounds the factors it has, and [alignExponent], with 3, the distance to a
    multiple of three; [Canonicalize_spec] is about their results.  [Try] of the
    timed queue loops while the action asks for it: its fuel, one round more than
    there are values that are due, is enough while the clock stands
    ([Try_processes_due]).  A round of evictions is a call of [Try] whose environment is a
    list of instants with the server's answers, one per attempt, so one more than its
    length is enough.  The heap's loops run on its length.  The clients'
    loops over retries follow the source's constant.  The theorems about replica
    sets assume that [Replicas] and the burst are not negative and fit 63 bits, as
    the API validates; those about rolling updates, that the sizes of a
    deployment's replica sets together are at most 2^60, and that a list of pods
    has at most 2^30; those about jobs, that parallelism, completions and the number of
    pods fit 63 bits; those about daemon sets, that the burst, the requests of a
    pod and what a node can allocate do ([moderate], [measurable]); those about the
    replicas of an autoscaler, that utilization and replicas are below 2^20 and the target
    is below 2^10 per cent.  Packing endpoints assumes of the hash of the printed addresses
    that different ones have different hashes ([collision_free]), which a printer
    satisfies.  Those about quantities are for scales within 30 bits, where
    the 32-bit arithmetic of the decimals does not wrap.

    ** What is not modelled

    Network and process I/O, the decoding of objects, logging, events and the
    controllers' own metrics; the goroutines that only start others ([Run]);
    [time.Sleep].  In [ReplicaSet], [Job], [Daemon], [EndpointsController] and [Autoscaler]
    one sync is one step: the handlers that run on other goroutines come before or after
    it; so is a pass of the node monitor, which runs at one instant.  Of the listers those
    of pods, replica sets, daemon sets, services, jobs and nodes are modelled.  Of the
    deployment controller, the handlers that map replica sets and pods to deployments are
    not, nor is the labelling of replica sets and pods with the hash of their template,
    whose result is an argument ([HashSync]).  Of the scheduler's predicates only those
    that the daemon set controller calls are modelled.  Not modelled are the replication
    manager, which repeats the replica set controller for another type; the controllers of
    volumes, service accounts, namespaces and quotas, which are further clients of the
    machinery above; the conversion, serialization and REST layers, most of which is
    generated; and jujud and gogs,
    of which the benchmark only compiles the source. *)

From Stdlib Require Export ZArith Lia Ascii.
From stdpp Require Export base gmap strings list sets sorting fin_maps.

(** ** Go errors

    A Go function that returns [(T, error)] becomes a function into
    [result E T]; a method that returns only [error] becomes a function that
    returns the new state and an [option E], [None] being Go's [nil]. *)

Inductive result (E A : Type) : Type :=
| Ok (a : A)
| Err (e : E).
Arguments Ok {E A} a.
Arguments Err {E A} e.

#[export] Instance result_ret {E} : MRet (result E) := λ A a, Ok a.
#[export] Instance result_bind {E} : MBind (result E) := λ A B f r,
  match r with Ok a => f a | Err e => Err e end.
#[export] Instance result_fmap {E} : FMap (result E) := λ A B f r,
  match r with Ok a => Ok (f a) | Err e => Err e end.

#[export] Instance result_eq_dec {E A} `{EqDecision E, EqDecision A} :
  EqDecision (result E A).
Proof. solve_decision. Defined.

Definition is_Ok {E A} (r : result E A) : Prop := ∃ a, r = Ok a.

#[export] Instance is_Ok_dec {E A} (r : result E A) : Decision (is_Ok r).
Proof.
  refine (match r with Ok _ => left _ | Err _ => right _ end);
    unfold is_Ok; naive_solver.
Defined.

Lemma bind_Ok {E A B} (r : result E A) (f : A → result E B) b :
  r ≫= f = Ok b ↔ ∃ a, r = Ok a ∧ f a = Ok b.
Proof. destruct r; split; naive_solver. Qed.

(** A Go call that may panic: the state and value it leaves, or a panic. *)
Inductive outcome (A : Type) : Type :=
| Returns (a : A)
| Panics.
Arguments Returns {A} a.
Arguments Panics {A}.

#[export] Instance outcome_ret : MRet outcome := λ A a, Returns a.
#[export] Instance outcome_bind : MBind outcome := λ A B f o,
  match o with Returns a => f a | Panics => Panics end.
#[export] Instance outcome_fmap : FMap outcome := λ A B f o,
  match o with Returns a => Returns (f a) | Panics => Panics end.

(** A loop whose body may panic. *)
Fixpoint foldM {A B} (f : A → B → outcome A) (l : list B) (a : A) : outcome A :=
  match l with
  | [] => Returns a
  | x :: l => a ← f a x; foldM f l a
  end.

(** An invariant of such a loop, over what is left to visit. *)
Lemma foldM_inv {A B} (P : A → list B → Prop) (f : A → B → outcome A) l a :
  P a l → (∀ a x l, P a (x :: l) → ∃ a', f a x = Returns a' ∧ P a' l) →
  ∃ a', foldM f l a = Returns a' ∧ P a' [].
Proof.
  intros Ha Hf. revert a Ha. induction l as [|x l IH]; intros a Ha; cbn; [by eauto|].
  destruct (Hf a x l Ha) as (a' & -> & Ha'). by apply IH.
Qed.

(** ** Ranging over Go maps

    [for k, v := range m] visits every entry once, in an order Go leaves
    unspecified.  [RangeOrder] is such an order: operations that range over a
    map take one as an argument, and their theorems hold for every one. *)

Class RangeOrder : Type := {
  range_map : ∀ {V : Type}, gmap string V → list (string * V);
  range_map_perm : ∀ {V : Type} (m : gmap string V), range_map m ≡ₚ map_to_list m;
}.

(** The order of stdpp's [map_to_list], used by concrete examples. *)
Definition canonical_order : RangeOrder := {|
  range_map := λ V m, map_to_list m;
  range_map_perm := λ V m, reflexivity _;
|}.

Section range.
Context `{R : RangeOrder} {V : Type}.
Implicit Types m : gmap string V.

Definition range_keys (m : gmap string V) : list string := (range_map m).*1.
Definition range_values (m : gmap string V) : list V := (range_map m).*2.

Lemma elem_of_range_map m k v : (k, v) ∈ range_map m ↔ m !! k = Some v.
Proof. by rewrite range_map_perm, elem_of_map_to_list. Qed.

Lemma range_keys_perm m : range_keys m ≡ₚ (map_to_list m).*1.
Proof. unfold range_keys. by rewrite range_map_perm. Qed.

Lemma NoDup_range_keys m : NoDup (range_keys m).
Proof. rewrite range_keys_perm. apply NoDup_fst_map_to_list. Qed.

Lemma elem_of_range_keys m k : k ∈ range_keys m ↔ is_Some (m !! k).
Proof.
  unfold range_keys. rewrite list_elem_of_fmap. split.
  - intros ([k' v] & -> & H%elem_of_range_map). eauto.
  - intros [v Hv]. exists (k, v). by rewrite elem_of_range_map.
Qed.

Lemma elem_of_range_values m v : v ∈ range_values m ↔ ∃ k, m !! k = Some v.
Proof.
  unfold range_values. rewrite list_elem_of_fmap. split.
  - intros ([k v'] & -> & H%elem_of_range_map). eauto.
  - intros [k Hk]. exists (k, v). by rewrite elem_of_range_map.
Qed.

Lemma length_range_map m : length (range_map m) = size m.
Proof. by rewrite range_map_perm, length_map_to_list. Qed.

(** Counting the values of a map. *)
Lemma length_filter_range_values m (P : V → Prop) `{∀ v, Decision (P v)} :
  length (filter P (range_values m)) = size (filter (λ kv, P kv.2) m).
Proof.
  unfold range_values. rewrite range_map_perm.
  induction m as [|k v m Hk IH] using map_ind.
  { rewrite map_to_list_empty, map_filter_empty, map_size_empty. done. }
  rewrite map_to_list_insert by done. cbn [fmap list_fmap].
  destruct (decide (P v)) as [Hp|Hp].
  - rewrite filter_cons_True, map_filter_insert_True by done. cbn. rewrite IH.
    rewrite map_size_insert_None; [done|]. apply map_lookup_filter_None. by left.
  - rewrite filter_cons_False, map_filter_insert_False, delete_id by done. done.
Qed.

(** How the count of values changes with one entry. *)
Lemma size_filter_insert_le m (P : V → Prop) `{∀ v, Decision (P v)} k v :
  size (filter (λ kv, P kv.2) (<[k:=v]> m)) ≤ S (size (filter (λ kv, P kv.2) m)) ∧
  ((P v → ∃ v', m !! k = Some v' ∧ P v') →
   size (filter (λ kv, P kv.2) (<[k:=v]> m)) ≤ size (filter (λ kv, P kv.2) m)).
Proof.
  rewrite <- !size_dom. set (d := dom (filter _ m)).
  assert (∀ k', k' ∈ dom (filter (λ kv, P kv.2) (<[k:=v]> m)) → k' ∈ d ∨ k' = k ∧ P v) as Hd.
  { intros k' [v' [Hl Hp]%map_lookup_filter_Some]%elem_of_dom. cbn in Hp.
    apply lookup_insert_Some in Hl as [[-> ->]|[_ Hl]]; [by right|left].
    apply elem_of_dom. exists v'. by apply map_lookup_filter_Some. }
  split.
  - transitivity (size ({[k]} ∪ d)); [apply subseteq_size; set_solver|].
    rewrite size_union_alt, size_singleton. apply le_n_S, subseteq_size. set_solver.
  - intros Hold. apply subseteq_size. intros k' [?|[-> (v' & Hl & Hp)%Hold]]%Hd; [done|].
    apply elem_of_dom. exists v'. by apply map_lookup_filter_Some.
Qed.

Lemma size_filter_delete_le m (P : V → Prop) `{∀ v, Decision (P v)} k :
  size (filter (λ kv, P kv.2) (delete k m)) ≤ size (filter (λ kv, P kv.2) m).
Proof.
  rewrite <- !size_dom. apply subseteq_size. intros k' [v' [Hl Hp]%map_lookup_filter_Some]%elem_of_dom.
  apply lookup_delete_Some in Hl as [_ Hl]. apply elem_of_dom. exists v'. by apply map_lookup_filter_Some.
Qed.
End range.

(** A Go [map[string]struct{}] is a [gset string]; ranging over it visits its
    elements in the order of the map. *)
Section range_set.
Context `{R : RangeOrder}.
Implicit Types s : gset string.

Definition range_set (s : gset string) : list string :=
  range_keys (gset_to_gmap () s).

Lemma elem_of_range_set s k : k ∈ range_set s ↔ k ∈ s.
Proof.
  unfold range_set. rewrite elem_of_range_keys, lookup_gset_to_gmap.
  destruct (decide (k ∈ s)).
  - rewrite option_guard_True by done. split; eauto.
  - rewrite option_guard_False by done. split; [intros [? [=]]|done].
Qed.

Lemma NoDup_range_set s : NoDup (range_set s).
Proof. apply NoDup_range_keys. Qed.

Lemma range_set_perm s : range_set s ≡ₚ elements s.
Proof.
  apply NoDup_Permutation; [apply NoDup_range_set|apply NoDup_elements|].
  intros k. by rewrite elem_of_range_set, elem_of_elements.
Qed.

Lemma list_to_set_range_set s : list_to_set (range_set s) = s.
Proof. apply set_eq. intros k. by rewrite elem_of_list_to_set, elem_of_range_set. Qed.

Lemma length_range_set s : length (range_set s) = size s.
Proof. by rewrite range_set_perm. Qed.
End range_set.

(** The same for maps with other keys.  Go takes a new order for every loop: the first
    argument says which loop it is. *)
Class KeyRange (K : Type) `{Countable K} : Type := {
  range_of : ∀ {V : Type}, positive → gmap K V → list (K * V);
  range_of_perm : ∀ {V : Type} (tag : positive) (m : gmap K V), range_of tag m ≡ₚ map_to_list m;
}.
#[global] Arguments range_of {K EqDecision0 H _ V} tag m.

Definition canonical_range (K : Type) `{Countable K} : KeyRange K := {|
  range_of := λ V tag m, map_to_list m;
  range_of_perm := λ V tag m, reflexivity _;
|}.

(** ** Sorting

    [sort.Sort] gives a permutation in which no element is [less] than an
    earlier one; the order of equal elements is not specified.  [Sorts less] is
    such a sort. *)

Class Sorts {A : Type} (less : A → A → bool) : Type := {
  sort : list A → list A;
  sort_perm l : sort l ≡ₚ l;
  sort_sorted l : StronglySorted (λ a b, less b a = false) (sort l);
}.
Arguments sort {A} less {_} l.

(** A list that is sorted when it has two elements or more starts with a least one. *)
Lemma sort_head {A} (less : A → A → bool) `{!Sorts less} l x l' :
  (if Nat.ltb 1 (length l) then sort less l else l) = x :: l' → x ∈ l ∧ ∀ y, y ∈ l → y = x ∨ less y x = false.
Proof.
  destruct (Nat.ltb_spec 1 (length l)) as [Hlen|Hlen]; intros E.
  - assert (x :: l' ≡ₚ l) as Hp by (rewrite <- E; apply sort_perm).
    pose proof (sort_sorted (less := less) l) as Hs. rewrite E in Hs. apply StronglySorted_inv in Hs as [_ Hs].
    split; [rewrite <- Hp; left|]. intros y. rewrite <- Hp. intros [->|Hy]%elem_of_cons; [by left|right].
    by eapply Forall_forall in Hs.
  - subst l. destruct l'; [|cbn in Hlen; lia]. split; [left|]. intros y ->%list_elem_of_singleton. by left.
Qed.

(** A sort for concrete examples: [less] is a strict weak order. *)
Lemma merge_Sorts {A} (less : A → A → bool) :
  (∀ a, less a a = false) →
  (∀ a b c, less a b = true → less b c = true → less a c = true) →
  (∀ a b c, less a c = true → less a b = true ∨ less b c = true) → Sorts less.
Proof.
  intros Hirr Htrans Hsplit.
  assert (Total (λ a b, less b a = false)).
  { intros a b. destruct (less b a) eqn:Hba; [|by left]. right.
    destruct (less a b) eqn:Hab; [|done]. by rewrite <- (Hirr a), (Htrans a b a). }
  assert (Transitive (λ a b, less b a = false)).
  { intros a b c Hba Hcb. apply not_true_is_false. intros Hca.
    destruct (Hsplit c b a Hca); congruence. }
  refine {| sort := merge_sort (λ a b, less b a = false) |}.
  - intros l. apply merge_sort_Permutation.
  - intros l. apply (StronglySorted_merge_sort _).
Defined.

(** Where [less] tells the elements apart, all sorts agree. *)
Lemma sorts_agree {A} (less : A → A → bool) (S1 S2 : Sorts less) l1 l2 : l1 ≡ₚ l2 →
  (∀ a b, a ∈ l1 → b ∈ l1 → less a b = false → less b a = false → a = b) →
  @sort _ less S1 l1 = @sort _ less S2 l2.
Proof.
  intros Hp Htot. eapply StronglySorted_unique_strong; [|apply sort_sorted..|].
  - intros x y Hx Hy Hyx Hxy. rewrite (sort_perm (Sorts := S1)) in Hx. rewrite (sort_perm (Sorts := S2)), <- Hp in Hy.
    by apply Htot.
  - by rewrite !sort_perm.
Qed.

(** The order of strings, and of byte slices ([bytes.Compare]). *)
Definition string_lt (a b : string) : bool := bool_decide (String.le a b ∧ a ≠ b).

Lemma string_lt_true a b : string_lt a b = true ↔ String.le a b ∧ a ≠ b.
Proof. apply bool_decide_eq_true. Qed.

Lemma string_lt_irrefl a : string_lt a a = false.
Proof. apply bool_decide_eq_false. by intros [_ ?]. Qed.

Lemma string_lt_trans a b c : string_lt a b = true → string_lt b c = true → string_lt a c = true.
Proof.
  rewrite !string_lt_true. intros [Hab Hne] [Hbc _]. split; [by trans b|]. intros E. rewrite <- E in Hbc.
  by apply Hne, (anti_symm String.le).
Qed.

Lemma string_lt_total a b : string_lt a b = false → string_lt b a = false → a = b.
Proof.
  intros Hab Hba. apply bool_decide_eq_false in Hab, Hba. apply dec_stable. intros Hne.
  destruct (base.total String.le a b); naive_solver.
Qed.

Lemma string_lt_split a b c : string_lt a c = true → string_lt a b = true ∨ string_lt b c = true.
Proof.
  intros Hac. destruct (string_lt a b) eqn:Hab; [by left|right]. destruct (string_lt b a) eqn:Hba.
  - by apply (string_lt_trans b a c).
  - by rewrite <- (string_lt_total a b).
Qed.

(** ** Lists and folds *)

Lemma foldl_snoc {A B} (f : A → B → A) l x a :
  foldl f a (l ++ [x]) = f (foldl f a l) x.
Proof. by rewrite foldl_app. Qed.

(** An invariant of the loop [for x in l { acc = f(acc, x) }]. *)
(** Sums of integers. *)
Definition sumZ (l : list Z) : Z := foldr Z.add 0%Z l.

Lemma sumZ_cons x l : sumZ (x :: l) = (x + sumZ l)%Z.
Proof. done. Qed.

#[export] Instance sumZ_perm : Proper ((≡ₚ) ==> eq) sumZ.
Proof. induction 1; rewrite ?sumZ_cons; lia. Qed.

Lemma foldl_append {A} (l r : list A) : foldl (λ result x, result ++ [x]) r l = r ++ l.
Proof. revert r. induction l as [|x l IH]; intros r; cbn; [by rewrite app_nil_r|]. by rewrite IH, <- app_assoc. Qed.

Lemma foldl_inv {A B} (P : A → Prop) (f : A → B → A) l a :
  P a → (∀ a x, x ∈ l → P a → P (f a x)) → P (foldl f a l).
Proof.
  revert a. induction l as [|x l IH]; intros a Ha Hf; cbn; [done|].
  apply IH; [apply Hf; [left|done]|]. intros; apply Hf; [by right|done].
Qed.

(** Inserting keys into a set one by one is union with the keys' set. *)
Lemma foldl_union_singleton (l : list string) (s : gset string) :
  foldl (λ s x, {[x]} ∪ s) s l = list_to_set l ∪ s.
Proof.
  revert s. induction l as [|x l IH]; intros s; cbn; [set_solver|].
  rewrite IH. set_solver.
Qed.

Lemma foldl_difference_singleton (l : list string) (s : gset string) :
  foldl (λ s x, s ∖ {[x]}) s l = s ∖ list_to_set l.
Proof.
  revert s. induction l as [|x l IH]; intros s; cbn; [set_solver|].
  rewrite IH. set_solver.
Qed.

(** Removing an element makes a set smaller by one. *)
Lemma size_delete_elem {A} `{Countable A} (X : gset A) x :
  x ∈ X → size X = S (size (X ∖ {[x]})).
Proof.
  intros Hx. rewrite (union_difference_singleton_L x X Hx) at 1.
  rewrite size_union by set_solver. by rewrite size_singleton.
Qed.

Lemma size_list_to_set_le {A} `{Countable A} (l : list A) :
  size (list_to_set l : gset A) ≤ length l.
Proof.
  induction l as [|x l IH]; cbn; [by rewrite size_empty|].
  rewrite size_union_alt, size_singleton.
  assert (size ((list_to_set l : gset A) ∖ {[x]}) ≤ size (list_to_set l : gset A)); [|lia].
  apply subseteq_size. set_solver.
Qed.

Lemma list_to_set_empty_iff {A} `{Countable A} (l : list A) : (list_to_set l : gset A) = ∅ ↔ l = [].
Proof. destruct l as [|x l]; cbn; [done|]. split; [set_solver|done]. Qed.

(** Appending a fresh element keeps a list free of repetitions. *)
Lemma NoDup_snoc {A} (l : list A) x : NoDup l → x ∉ l → NoDup (l ++ [x]).
Proof. intros. apply NoDup_app. split_and!; [done|set_solver|apply NoDup_singleton]. Qed.

(** ** Machine integers *)

(** The value of a Go [int64] (or a 64-bit [int]) that holds [z] modulo 2^64. *)
Definition int64 (z : Z) : Z := (z + 2 ^ 63) mod 2 ^ 64 - 2 ^ 63.

Lemma int64_id z : (- 2 ^ 63 <= z < 2 ^ 63)%Z → int64 z = z.
Proof. intros Hz. unfold int64. rewrite Z.mod_small; lia. Qed.

(** Wrapping in the middle of a sum does not matter. *)
Lemma int64_add_l x y : int64 (int64 x + y) = int64 (x + y).
Proof.
  unfold int64. f_equal.
  replace ((x + 2 ^ 63) mod 2 ^ 64 - 2 ^ 63 + y + 2 ^ 63)%Z
    with ((x + 2 ^ 63) mod 2 ^ 64 + y)%Z by lia.
  rewrite Zplus_mod_idemp_l. f_equal. lia.
Qed.

Lemma int64_add_r x y : int64 (x + int64 y) = int64 (x + y).
Proof. by rewrite Z.add_comm, int64_add_l, Z.add_comm. Qed.

Lemma int64_mul_l x y : int64 (int64 x * y) = int64 (x * y).
Proof.
  assert (int64 x = x + ((x + 2 ^ 63) / 2 ^ 64) * - 2 ^ 64)%Z as ->.
  { unfold int64. rewrite Z.mod_eq by lia. lia. }
  unfold int64. f_equal.
  replace ((x + (x + 2 ^ 63) / 2 ^ 64 * - 2 ^ 64) * y + 2 ^ 63)%Z
    with (x * y + 2 ^ 63 + (- ((x + 2 ^ 63) / 2 ^ 64) * y) * 2 ^ 64)%Z by ring.
  by rewrite Z.mod_add.
Qed.

(** The same for an [int32]. *)
Definition int32 (z : Z) : Z := (z + 2 ^ 31) mod 2 ^ 32 - 2 ^ 31.

Lemma int32_id z : (- 2 ^ 31 <= z < 2 ^ 31)%Z → int32 z = z.
Proof. intros Hz. unfold int32. rewrite Z.mod_small; lia. Qed.

Lemma int32_range z : (- 2 ^ 31 <= int32 z < 2 ^ 31)%Z.
Proof. unfold int32. pose proof (Z.mod_pos_bound (z + 2 ^ 31) (2 ^ 32)). lia. Qed.

Lemma int64_range z : (- 2 ^ 63 <= int64 z < 2 ^ 63)%Z.
Proof. unfold int64. pose proof (Z.mod_pos_bound (z + 2 ^ 63) (2 ^ 64)). lia. Qed.

(** [if x > burst { x = burst }] *)
Lemma if_ltb_min burst x : (if (burst <? x)%Z then burst else x) = Z.min burst x.
Proof. destruct (Z.ltb_spec burst x); lia. Qed.

(** ** Tactics *)

(** Case analysis on every [match] and [if] of the goal and hypotheses,
    keeping the equations. *)
Ltac case_all :=
  repeat (case_match || case_decide); simplify_eq/=; try done.

(** Case analysis on boolean [Z] comparisons. *)
Ltac zcases :=
  repeat match goal with
  | H : context [Z.ltb ?a ?b] |- _ => destruct (Z.ltb_spec a b)
  | |- context [Z.ltb ?a ?b] => destruct (Z.ltb_spec a b)
  | H : context [Z.leb ?a ?b] |- _ => destruct (Z.leb_spec a b)
  | |- context [Z.leb ?a ?b] => destruct (Z.leb_spec a b)
  | H : context [Z.eqb ?a ?b] |- _ => destruct (Z.eqb_spec a b)
  | |- context [Z.eqb ?a ?b] => destruct (Z.eqb_spec a b)
  end.

(** The order by age, with the names to break ties, is a strict weak order. *)
Lemma age_order {A} (time : A → Z) (name : A → string) :
  let less a b := if (time a =? time b)%Z then string_lt (name a) (name b) else (time a <? time b)%Z in
  (∀ a, less a a = false) ∧
  (∀ a b c, less a b = true → less b c = true → less a c = true) ∧
  (∀ a b c, less a c = true → less a b = true ∨ less b c = true).
Proof.
  split_and!; intros *; zcases; try lia.
  - apply string_lt_irrefl.
  - apply string_lt_trans.
  - apply string_lt_split.
Qed.

(** ** Hints shared by the components *)

Create HintDb range.
#[export] Hint Resolve NoDup_range_keys NoDup_range_set : range.
