(* ===== verification/SetsString.v ===== *)
(** * sets.String: sets of strings

    Models [pkg/util/sets/string.go], the set every controller component uses.
    A Go [sets.String] is a [map[string]Empty], here a [gset string]; the methods
    that update the receiver return the new set, and the loops over a set take
    the order of iteration as an argument.  The theorems say that every method
    computes the set operation it is named after, whatever the order, and that
    [List] is the unique sorted enumeration. *)

From S2P Require Import Prelude.

(** ** Operations *)
Section operations.
Context `{R : RangeOrder}.

Definition Insert (s : gset string) (items : list string) : gset string :=
  foldl (λ s item, {[item]} ∪ s) s items.

Definition NewString (items : list string) : gset string := Insert ∅ items.

Definition StringKeySet {V} (theMap : gmap string V) : gset string :=
  foldl (λ ret keyValue, Insert ret [keyValue]) ∅ (range_keys theMap).

Definition Delete (s : gset string) (items : list string) : gset string :=
  foldl (λ s item, s ∖ {[item]}) s items.

Definition Has (s : gset string) (item : string) : bool := bool_decide (item ∈ s).

Fixpoint HasAll (s : gset string) (items : list string) : bool :=
  match items with
  | [] => true
  | item :: items => if negb (Has s item) then false else HasAll s items
  end.

Fixpoint HasAny (s : gset string) (items : list string) : bool :=
  match items with
  | [] => false
  | item :: items => if Has s item then true else HasAny s items
  end.

Definition Len (s : gset string) : nat := size s.

Definition Difference (s s2 : gset string) : gset string :=
  foldl (λ result key, if negb (Has s2 key) then Insert result [key] else result)
    (NewString []) (range_set s).

Definition Union (s1 s2 : gset string) : gset string :=
  foldl (λ result key, Insert result [key])
    (foldl (λ result key, Insert result [key]) (NewString []) (range_set s1))
    (range_set s2).

Definition Intersection (s1 s2 : gset string) : gset string :=
  let '(walk, other) := if Nat.ltb (Len s1) (Len s2) then (s1, s2) else (s2, s1) in
  foldl (λ result key, if Has other key then Insert result [key] else result)
    (NewString []) (range_set walk).

(** The loop of [IsSuperset] returns at the first missing element, which is
    the loop of [HasAll] over the elements of [s2]. *)
Definition IsSuperset (s1 s2 : gset string) : bool := HasAll s1 (range_set s2).

Definition Equal (s1 s2 : gset string) : bool :=
  Nat.eqb (size s1) (size s2) && IsSuperset s1 s2.

(** [sort.Sort] on the strings, by byte-wise comparison. *)
Definition List (s : gset string) : list string := merge_sort String.le (range_set s).

Definition PopAny (s : gset string) : (string * bool) * gset string :=
  match range_set s with
  | key :: _ => ((key, true), Delete s [key])
  | [] => (("", false), s)
  end.
End operations.

#[global] Arguments Insert : simpl never.
#[global] Arguments Delete : simpl never.

(** ** Characterisation by membership *)
Section facts.
Context `{R : RangeOrder}.
Implicit Types (s : gset string) (items : list string) (x : string).

Lemma Insert_union s items : Insert s items = list_to_set items ∪ s.
Proof. apply foldl_union_singleton. Qed.

Lemma NewString_list_to_set items : NewString items = list_to_set items.
Proof. unfold NewString. rewrite Insert_union. set_solver. Qed.

Lemma Delete_difference s items : Delete s items = s ∖ list_to_set items.
Proof. apply foldl_difference_singleton. Qed.

Lemma Has_true s x : Has s x = true ↔ x ∈ s.
Proof. apply bool_decide_eq_true. Qed.

Lemma Has_false s x : Has s x = false ↔ x ∉ s.
Proof. apply bool_decide_eq_false. Qed.

Lemma HasAll_true s items : HasAll s items = true ↔ ∀ x, x ∈ items → x ∈ s.
Proof.
  induction items as [|y items IH]; cbn; [set_solver|].
  destruct (Has s y) eqn:E; cbn.
  - apply Has_true in E. rewrite IH. set_solver.
  - apply Has_false in E. set_solver.
Qed.

Lemma HasAny_true s items : HasAny s items = true ↔ ∃ x, x ∈ items ∧ x ∈ s.
Proof.
  induction items as [|y items IH]; cbn; [set_solver|].
  destruct (Has s y) eqn:E; [apply Has_true in E|apply Has_false in E; rewrite IH];
    set_solver.
Qed.

(** The loop [for key in l { if f(key) { result.Insert(key) } }]. *)
Lemma filter_loop (f : string → bool) (l : list string) s x :
  x ∈ foldl (λ result key, if f key then Insert result [key] else result) s l
  ↔ x ∈ s ∨ (x ∈ l ∧ f x = true).
Proof.
  revert s. induction l as [|y l IH]; intros s; cbn; [set_solver|].
  rewrite IH, elem_of_cons. destruct (f y) eqn:E.
  - rewrite Insert_union. set_solver.
  - split; [naive_solver|]. intros [?|[[->|?] ?]]; [auto|congruence|auto].
Qed.

Lemma insert_loop (l : list string) s :
  foldl (λ result key, Insert result [key]) s l = list_to_set l ∪ s.
Proof.
  revert s. induction l as [|y l IH]; intros s; cbn; [set_solver|].
  rewrite IH, Insert_union. set_solver.
Qed.

Lemma StringKeySet_dom {V} (m : gmap string V) : StringKeySet m = dom m.
Proof.
  unfold StringKeySet. rewrite insert_loop. apply set_eq. intros x.
  rewrite elem_of_union, elem_of_list_to_set, elem_of_range_keys, elem_of_dom.
  set_solver.
Qed.

Lemma Difference_difference s1 s2 : Difference s1 s2 = s1 ∖ s2.
Proof.
  apply set_eq. intros x. unfold Difference.
  rewrite filter_loop, NewString_list_to_set, elem_of_range_set, negb_true_iff, Has_false.
  set_solver.
Qed.

Lemma Union_union s1 s2 : Union s1 s2 = s1 ∪ s2.
Proof.
  unfold Union.
  rewrite !insert_loop, !list_to_set_range_set, NewString_list_to_set. set_solver.
Qed.

(** Whichever operand is walked, the result is the intersection. *)
Lemma Intersection_intersection s1 s2 : Intersection s1 s2 = s1 ∩ s2.
Proof.
  apply set_eq. intros x. unfold Intersection.
  destruct (Nat.ltb _ _);
    rewrite filter_loop, NewString_list_to_set, elem_of_range_set, Has_true; set_solver.
Qed.

Lemma IsSuperset_subseteq s1 s2 : IsSuperset s1 s2 = true ↔ s2 ⊆ s1.
Proof.
  unfold IsSuperset. rewrite HasAll_true. setoid_rewrite elem_of_range_set. set_solver.
Qed.

(** Comparing lengths and testing one inclusion decides equality. *)
Lemma Equal_eq s1 s2 : Equal s1 s2 = true ↔ s1 = s2.
Proof.
  unfold Equal. rewrite andb_true_iff, Nat.eqb_eq, IsSuperset_subseteq. split.
  - intros [Hsize Hsub]. symmetry. apply leibniz_equiv.
    apply set_subseteq_size_equiv; [done|lia].
  - intros ->. done.
Qed.

Lemma List_perm s : List s ≡ₚ elements s.
Proof. unfold List. by rewrite merge_sort_Permutation, range_set_perm. Qed.

Lemma elem_of_List s x : x ∈ List s ↔ x ∈ s.
Proof. by rewrite List_perm, elem_of_elements. Qed.

Lemma List_NoDup s : NoDup (List s).
Proof. rewrite List_perm. apply NoDup_elements. Qed.

Lemma List_sorted s : StronglySorted String.le (List s).
Proof. apply Sorted_StronglySorted; [apply _|]. apply Sorted_merge_sort, _. Qed.

Lemma list_to_set_List s : list_to_set (List s) = s.
Proof. apply set_eq. intros x. by rewrite elem_of_list_to_set, elem_of_List. Qed.
End facts.

(** The order of iteration does not show in the sorted list. *)
Lemma List_order_irrelevant (R1 R2 : RangeOrder) (s : gset string) :
  List (R := R1) s = List (R := R2) s.
Proof.
  apply (StronglySorted_unique String.le); [apply List_sorted..|].
  by rewrite !List_perm.
Qed.

(** ** Properties *)

(** Two sets are [Equal] exactly when they have the same elements, the
    combining methods agree with set difference, union and intersection, and
    [IsSuperset] with inclusion, for every order of iteration. *)
Theorem set_methods_correct (R : RangeOrder) (s1 s2 : gset string) :
  (Equal s1 s2 = true ↔ s1 = s2) ∧
  (IsSuperset s1 s2 = true ↔ s2 ⊆ s1) ∧
  Difference s1 s2 = s1 ∖ s2 ∧ Union s1 s2 = s1 ∪ s2 ∧ Intersection s1 s2 = s1 ∩ s2.
Proof.
  split; [apply Equal_eq|]. split; [apply IsSuperset_subseteq|].
  split; [apply Difference_difference|].
  split; [apply Union_union|apply Intersection_intersection].
Qed.

(** [List] enumerates the set once, in increasing order, and any sorted
    enumeration without repetitions of the same elements is the list it
    returns: the result does not depend on the order of iteration. *)
Theorem List_sorted_enumeration (R : RangeOrder) (s : gset string) (l : list string) :
  l = List s ↔ StronglySorted String.le l ∧ NoDup l ∧ list_to_set l = s.
Proof.
  split.
  - intros ->. auto using List_sorted, List_NoDup, list_to_set_List.
  - intros (Hl & Hnd & Hset).
    apply (StronglySorted_unique String.le); [done|apply List_sorted|].
    apply NoDup_Permutation; [done|apply List_NoDup|]. intros x.
    by rewrite elem_of_List, <- Hset, elem_of_list_to_set.
Qed.

(** [PopAny] removes one element of a non-empty set and reports it; on
    the empty set it returns the zero value and leaves the set. *)
Theorem PopAny_spec (R : RangeOrder) (s : gset string) :
  match PopAny s with
  | ((key, true), s') => key ∈ s ∧ (key ∉ s') ∧ s = {[key]} ∪ s' ∧ Len s = S (Len s')
  | ((key, false), s') => key = "" ∧ s = ∅ ∧ s' = s
  end.
Proof.
  unfold PopAny, Len. destruct (range_set s) as [|key l] eqn:E.
  - split_and!; [done| |done]. rewrite <- (list_to_set_range_set s), E. done.
  - assert (Hin : key ∈ s) by (rewrite <- elem_of_range_set, E; left).
    rewrite Delete_difference. cbn.
    split_and!; [done|set_solver| |].
    + apply set_eq. intros x. destruct (decide (x = key)); set_solver.
    + rewrite (union_empty_r_L {[key]}). by apply size_delete_elem.
Qed.
