(* ===== verification/WorkQueue.v ===== *)
(** * workqueue.Type: the work queue of every controller

    Models [pkg/util/workqueue/queue.go].  The critical section of each method
    is a function on the record [Queue]; what it does to the condition variable
    is the [notify] it returns.  [step] composes the methods with the goroutines
    that block in [Get]: a [Wait] parks the caller, a [Signal] wakes at most one
    parked goroutine, a [Broadcast] wakes all of them, and a woken goroutine
    runs the loop test of [Get] again.

    The theorems: the invariant that the comments on the fields state, that an
    item is never handed to two workers at once, that no added item is lost,
    that no wake-up is lost, and that the queue drains after [ShutDown]. *)

From S2P Require Import Prelude.

(** ** Data *)

Record Queue (T : Type) `{Countable T} : Type := mkQueue {
  queue : list T;
  dirty : gset T;
  processing : gset T;
  shuttingDown : bool;
}.
Arguments mkQueue {T _ _} _ _ _ _.
Arguments queue {T _ _} _.
Arguments dirty {T _ _} _.
Arguments processing {T _ _} _.
Arguments shuttingDown {T _ _} _.

(** What a critical section does to [q.cond] before it unlocks. *)
Inductive notify : Type := NoNotify | Signal | Broadcast.

(** What one run of [Get]'s critical section does: park the goroutine, report
    the shutdown, or hand out an item. *)
Inductive get_result (T : Type) : Type := Waits | Shutdown | Got (item : T).
Arguments Waits {T}.
Arguments Shutdown {T}.
Arguments Got {T} item.

(** ** Operations *)
Section operations.
Context {T : Type} `{Countable T}.
Implicit Types (q : Queue T) (item : T).

Definition New : Queue T := mkQueue [] ∅ ∅ false.

Definition has (s : gset T) (item : T) : bool := bool_decide (item ∈ s).

Definition Add (item : T) (q : Queue T) : Queue T * notify :=
  if shuttingDown q then (q, NoNotify)
  else if has (dirty q) item then (q, NoNotify)
  else
    let dirty' := {[item]} ∪ dirty q in
    if has (processing q) item
    then (mkQueue (queue q) dirty' (processing q) (shuttingDown q), NoNotify)
    else (mkQueue (queue q ++ [item]) dirty' (processing q) (shuttingDown q), Signal).

Definition Len (q : Queue T) : nat := length (queue q).

Definition Get (q : Queue T) : Queue T * get_result T :=
  match queue q with
  | [] => if shuttingDown q then (q, Shutdown) else (q, Waits)
  | item :: rest =>
      (mkQueue rest (dirty q ∖ {[item]}) ({[item]} ∪ processing q) (shuttingDown q),
       Got item)
  end.

Definition Done (item : T) (q : Queue T) : Queue T * notify :=
  let processing' := processing q ∖ {[item]} in
  if has (dirty q) item
  then (mkQueue (queue q ++ [item]) (dirty q) processing' (shuttingDown q), Signal)
  else (mkQueue (queue q) (dirty q) processing' (shuttingDown q), NoNotify).

Definition ShutDown (q : Queue T) : Queue T * notify :=
  (mkQueue (queue q) (dirty q) (processing q) true, Broadcast).
End operations.

#[global] Arguments Add : simpl never.
#[global] Arguments Get : simpl never.
#[global] Arguments Done : simpl never.
#[global] Arguments ShutDown : simpl never.
#[global] Arguments has : simpl never.

(** ** The queue and its goroutines *)
Section system.
Context {T : Type} `{Countable T}.

(** [waiting]: goroutines parked in [q.cond.Wait]; [woken]: goroutines that
    were notified and have yet to run the loop test again. *)
Record system : Type := mkSystem {
  q : Queue T;
  waiting : gset nat;
  woken : gset nat;
}.

Definition notifies (n : notify) (s s' : gset nat * gset nat) : Prop :=
  match n with
  | NoNotify => s' = s
  | Signal =>
      (s.1 = ∅ ∧ s' = s) ∨
      (∃ g, g ∈ s.1 ∧ s' = (s.1 ∖ {[g]}, {[g]} ∪ s.2))
  | Broadcast => s' = (∅, s.1 ∪ s.2)
  end.

Inductive event : Type :=
| EvAdd (item : T) | EvGot (g : nat) (item : T) | EvShutdown (g : nat)
| EvWait (g : nat) | EvDone (item : T) | EvShutDown.

(** One critical section.  [Get] is entered by a goroutine that is not parked,
    or re-entered by a woken one; [Done] is called for an item that was
    handed out and is still being processed, as the comment on [Get] asks. *)
Inductive step : system → event → system → Prop :=
| step_add s item q' n w :
    Add item (q s) = (q', n) →
    notifies n (waiting s, woken s) w →
    step s (EvAdd item) (mkSystem q' w.1 w.2)
| step_get s g item q' :
    g ∉ waiting s → Get (q s) = (q', Got item) →
    step s (EvGot g item) (mkSystem q' (waiting s) (woken s ∖ {[g]}))
| step_get_shutdown s g q' :
    g ∉ waiting s → Get (q s) = (q', Shutdown) →
    step s (EvShutdown g) (mkSystem q' (waiting s) (woken s ∖ {[g]}))
| step_get_wait s g q' :
    g ∉ waiting s → Get (q s) = (q', Waits) →
    step s (EvWait g) (mkSystem q' ({[g]} ∪ waiting s) (woken s ∖ {[g]}))
| step_done s item q' n w :
    item ∈ processing (q s) →
    Done item (q s) = (q', n) →
    notifies n (waiting s, woken s) w →
    step s (EvDone item) (mkSystem q' w.1 w.2)
| step_shutdown s q' n w :
    ShutDown (q s) = (q', n) →
    notifies n (waiting s, woken s) w →
    step s EvShutDown (mkSystem q' w.1 w.2).

Inductive steps : system → list event → system → Prop :=
| steps_nil s : steps s [] s
| steps_snoc s s' s'' es e : steps s es s' → step s' e s'' → steps s (es ++ [e]) s''.

Definition start : system := mkSystem New ∅ ∅.
End system.
Arguments system T {_ _}.
Arguments event : clear implicits.

(** ** Invariant *)
Section invariant.
Context {T : Type} `{Countable T}.
Implicit Types (s : system T) (q : Queue T) (item : T).

(** The comments on [queue], [dirty] and [processing], made precise. *)
Record queue_ok (q : Queue T) : Prop := {
  ok_NoDup : NoDup (queue q);
  ok_dirty x : x ∈ queue q → x ∈ dirty q;
  ok_processing x : x ∈ queue q → x ∉ processing q;
  ok_queued x : x ∈ dirty q → x ∈ queue q ∨ x ∈ processing q;
}.

Lemma has_spec (X : gset T) item : has X item = true ↔ item ∈ X.
Proof. apply bool_decide_eq_true. Qed.

Lemma New_ok : queue_ok (New (T := T)).
Proof. split; cbn; [constructor|set_solver..]. Qed.

Lemma Add_ok item q : queue_ok q → queue_ok (Add item q).1.
Proof.
  intros [Hnd Hd Hp Hq]. unfold Add, has.
  destruct (shuttingDown q); [by split|]. case_bool_decide; [by split|].
  case_bool_decide; split; cbn; try set_solver.
  apply NoDup_snoc; set_solver.
Qed.

Lemma Get_ok q : queue_ok q → queue_ok (Get q).1.
Proof.
  destruct q as [[|item rest] d p sd]; intros [Hnd Hd Hp Hq]; unfold Get; cbn in *;
    [by destruct sd|].
  apply NoDup_cons in Hnd as [Hni Hnd].
  split; cbn; [done|set_solver|set_solver|].
  intros x. destruct (decide (x = item)); set_solver.
Qed.

(** [Done] needs the item to be in processing: see [Done_of_queued_item]. *)
Lemma Done_ok item q : item ∈ processing q → queue_ok q → queue_ok (Done item q).1.
Proof.
  intros Hitem [Hnd Hd Hp Hq]. unfold Done, has.
  case_bool_decide; split; cbn; try (done || set_solver).
  - apply NoDup_snoc; set_solver.
  - intros x ?. destruct (decide (x = item)); set_solver.
Qed.

Lemma ShutDown_ok q : queue_ok q → queue_ok (ShutDown q).1.
Proof. by intros []. Qed.

Lemma step_ok s e s' : step s e s' → queue_ok (WorkQueue.q s) → queue_ok (WorkQueue.q s').
Proof.
  intros Hstep Hok. destruct Hstep as
    [s item q' n w Hq|s g item q' Hg Hq|s g q' Hg Hq|s g q' Hg Hq|s item q' n w Hi Hq|s q' n w Hq];
    cbn; apply (f_equal fst) in Hq; cbn in Hq; subst q';
    auto using Add_ok, Get_ok, Done_ok, ShutDown_ok.
Qed.

Lemma steps_inv (P : system T → Prop) es s s' :
  (∀ s e s', step s e s' → P s → P s') → steps s es s' → P s → P s'.
Proof. intros Hstep. induction 1; eauto. Qed.

Lemma steps_ok es s : steps start es s → queue_ok (WorkQueue.q s).
Proof.
  intros Hs. eapply (steps_inv (λ s, queue_ok (WorkQueue.q s)));
    [apply step_ok|done|apply New_ok].
Qed.
End invariant.

(** ** Abstract specification

    What the queue promises its clients, without the order: a set of pending
    items, the set of items being worked on, and whether it is closed. *)
Section specification.
Context {T : Type} `{Countable T}.

Record spec : Type := mkSpec { pending : gset T; active : gset T; closed : bool }.

Inductive spec_step : spec → event T → spec → Prop :=
| spec_add p a item : spec_step (mkSpec p a false) (EvAdd item) (mkSpec ({[item]} ∪ p) a false)
| spec_add_closed p a item : spec_step (mkSpec p a true) (EvAdd item) (mkSpec p a true)
| spec_got p a c g item :
    item ∈ p → item ∉ a →
    spec_step (mkSpec p a c) (EvGot g item) (mkSpec (p ∖ {[item]}) ({[item]} ∪ a) c)
| spec_wait p a g : p ⊆ a → spec_step (mkSpec p a false) (EvWait g) (mkSpec p a false)
| spec_end p a g : p ⊆ a → spec_step (mkSpec p a true) (EvShutdown g) (mkSpec p a true)
| spec_done p a c item :
    item ∈ a → spec_step (mkSpec p a c) (EvDone item) (mkSpec p (a ∖ {[item]}) c)
| spec_close p a c : spec_step (mkSpec p a c) EvShutDown (mkSpec p a true).

Inductive spec_steps : spec → list (event T) → spec → Prop :=
| spec_steps_nil x : spec_steps x [] x
| spec_steps_snoc x x' x'' es e :
    spec_steps x es x' → spec_step x' e x'' → spec_steps x (es ++ [e]) x''.

Implicit Types (q : Queue T).

Definition abs q : spec := mkSpec (dirty q) (processing q) (shuttingDown q).

Lemma abs_Add item q : spec_step (abs q) (EvAdd item) (abs (Add item q).1).
Proof.
  destruct q as [l d p sd]. unfold Add, has, abs; cbn.
  destruct sd; cbn; [constructor|].
  case_bool_decide; cbn; [|case_bool_decide; constructor].
  replace d with ({[item]} ∪ d) at 2 by set_solver. constructor.
Qed.

Lemma abs_Got g item q q' :
  queue_ok q → Get q = (q', Got item) → spec_step (abs q) (EvGot g item) (abs q').
Proof.
  destruct q as [[|x l] d p sd]; intros [Hnd Hd Hp Hq]; unfold Get; cbn in *;
    [by destruct sd|]. intros [= <- <-]. constructor; set_solver.
Qed.

Lemma abs_empty q : queue_ok q → queue q = [] → dirty q ⊆ processing q.
Proof. intros [_ _ _ Hq] E x Hx. apply Hq in Hx. rewrite E in Hx. set_solver. Qed.

Lemma abs_step (s s' : system T) e :
  queue_ok (WorkQueue.q s) → step s e s' →
  spec_step (abs (WorkQueue.q s)) e (abs (WorkQueue.q s')).
Proof.
  intros Hok Hstep. destruct Hstep as
    [s item q' n w Hq _|s g item q' Hg Hq|s g q' Hg Hq|s g q' Hg Hq|s item q' n w Hi Hq _|s q' n w Hq _];
    cbn.
  - apply (f_equal fst) in Hq; cbn in Hq; subst q'. apply abs_Add.
  - by eapply abs_Got.
  - destruct (q s) as [[|x l] d p sd] eqn:E; unfold Get in Hq; cbn in Hq; [|done].
    destruct sd; simplify_eq. constructor. by apply (abs_empty _ Hok).
  - destruct (q s) as [[|x l] d p sd] eqn:E; unfold Get in Hq; cbn in Hq; [|done].
    destruct sd; simplify_eq. constructor. by apply (abs_empty _ Hok).
  - apply (f_equal fst) in Hq; cbn in Hq; subst q'. unfold Done, abs.
    destruct (has _ _); by constructor.
  - apply (f_equal fst) in Hq; cbn in Hq; subst q'. constructor.
Qed.
End specification.
Arguments spec T {_ _}.

(** ** Wake-ups *)
Section wakeups.
Context {T : Type} `{Countable T}.

Record wakeup_ok (s : system T) : Prop := {
  wk_disjoint : waiting s ## woken s;
  wk_enough : waiting s ≠ ∅ → Len (q s) ≤ size (woken s);
  wk_open : shuttingDown (q s) = true → waiting s = ∅;
}.

(** Enqueuing one item and signalling keeps the balance. *)
Lemma signal_ok (w0 k0 : gset nat) (w : gset nat * gset nat) len :
  w0 ## k0 → (w0 ≠ ∅ → len ≤ size k0) → notifies Signal (w0, k0) w →
  w.1 ## w.2 ∧ w.1 ⊆ w0 ∧ (w.1 ≠ ∅ → S len ≤ size w.2).
Proof.
  intros Hdis Hlen [[Hw ->]|(g & Hg & ->)]; cbn in *; [set_solver|].
  split_and!; [set_solver..|]. intros _.
  rewrite size_union, size_singleton by set_solver.
  assert (w0 ≠ ∅) by set_solver. apply le_n_S; auto.
Qed.

Lemma woken_after (k : gset nat) g : size k ≤ S (size (k ∖ {[g]})).
Proof.
  destruct (decide (g ∈ k)) as [Hg|Hg].
  - by rewrite (size_delete_elem k g Hg).
  - rewrite difference_disjoint_L by set_solver. lia.
Qed.

Lemma Add_wakeup item (s : system T) q' n w :
  wakeup_ok s → Add item (q s) = (q', n) → notifies n (waiting s, woken s) w →
  wakeup_ok (mkSystem q' w.1 w.2).
Proof.
  destruct s as [[l d p sd] wt wk]; intros [Hdis Hen Hop] Hq Hn; unfold Add, Len in *; cbn in *.
  destruct sd; [simplify_eq/=; by split|].
  destruct (has d item); [simplify_eq/=; by split|].
  destruct (has p item); simplify_eq/=; [by split|].
  destruct (signal_ok wt wk w (length l)) as (? & ? & ?); [done..|].
  split; unfold Len; cbn; [done| |done]. by rewrite length_app, Nat.add_1_r.
Qed.

Lemma Done_wakeup item (s : system T) q' n w :
  wakeup_ok s → Done item (q s) = (q', n) → notifies n (waiting s, woken s) w →
  wakeup_ok (mkSystem q' w.1 w.2).
Proof.
  destruct s as [[l d p sd] wt wk]; intros [Hdis Hen Hop] Hq Hn; unfold Done, Len in *; cbn in *.
  destruct (has d item); simplify_eq/=; [|by split].
  destruct (signal_ok wt wk w (length l)) as (? & ? & ?); [done..|].
  split; unfold Len; cbn; [done| |intros Hsd%Hop; set_solver].
  by rewrite length_app, Nat.add_1_r.
Qed.

Lemma step_wakeup (s : system T) e s' : step s e s' → wakeup_ok s → wakeup_ok s'.
Proof.
  intros Hstep Hok. destruct Hstep as
    [s item q' n w Hq Hn|s g item q' Hg Hq|s g q' Hg Hq|s g q' Hg Hq|s item q' n w Hi Hq Hn|s q' n w Hq Hn].
  - by eapply Add_wakeup.
  - destruct Hok as [Hdis Hen Hop]. destruct (q s) as [[|x l] d p sd] eqn:E; unfold Get in Hq; cbn in Hq;
      [by destruct sd|]. simplify_eq. split; cbn in *; [set_solver| |done].
    intros Hw. specialize (Hen Hw). unfold Len in *; cbn in *.
    pose proof (woken_after (woken s) g). lia.
  - destruct Hok as [Hdis Hen Hop]. destruct (q s) as [[|x l] d p sd] eqn:E; unfold Get in Hq; cbn in Hq; [|done].
    destruct sd; simplify_eq. split; cbn in *; [set_solver|lia|done].
  - destruct Hok as [Hdis Hen Hop]. destruct (q s) as [[|x l] d p sd] eqn:E; unfold Get in Hq; cbn in Hq; [|done].
    destruct sd; simplify_eq. split; cbn in *; [set_solver|lia|done].
  - by eapply Done_wakeup.
  - unfold ShutDown in Hq. simplify_eq/=. split; cbn; [set_solver|done|done].
Qed.
End wakeups.

(** ** Properties *)
Section traces.
Context {T : Type} `{Countable T}.

(** The items handed out and not yet reported done, read off a trace. *)
Definition held (es : list (event T)) : gset T :=
  foldl (λ s e, match e with
                | EvGot _ item => {[item]} ∪ s
                | EvDone item => s ∖ {[item]}
                | _ => s end) ∅ es.

(** The items handed out, in order. *)
Definition handed_out (es : list (event T)) : list T :=
  omap (λ e, match e with EvGot _ item => Some item | _ => None end) es.

(** Rule induction on runs, from a fixed initial state. *)
Lemma steps_trace_ind (s0 : system T) (P : list (event T) → system T → Prop) :
  P [] s0 →
  (∀ es s e s', steps s0 es s → step s e s' → P es s → P (es ++ [e]) s') →
  ∀ es s, steps s0 es s → P es s.
Proof.
  intros H0 Hs es s Hsteps. remember s0 as i eqn:Ei. revert Ei.
  induction Hsteps; intros ->; eauto.
Qed.

Lemma steps_snoc_inv (s : system T) es e s'' :
  steps s (es ++ [e]) s'' → ∃ s', steps s es s' ∧ step s' e s''.
Proof.
  intros Hs. remember (es ++ [e]) as l eqn:El. destruct Hs as [|s1 s2 s3 es' e' Hes Hstep].
  - by destruct es.
  - apply app_inj_tail in El as [-> ->]. eauto.
Qed.

Lemma step_processing (s : system T) e s' :
  step s e s' → processing (q s') = match e with
    | EvGot _ item => {[item]} ∪ processing (q s)
    | EvDone item => processing (q s) ∖ {[item]}
    | _ => processing (q s) end.
Proof.
  intros Hstep. destruct Hstep as
    [s item q' n w Hq _|s g item q' Hg Hq|s g q' Hg Hq|s g q' Hg Hq|s item q' n w Hi Hq _|s q' n w Hq _];
    destruct s as [[l d p sd] wt wk]; unfold Add, Get, Done, ShutDown in Hq; cbn in *;
    repeat case_match; simplify_eq/=; done.
Qed.

Lemma held_processing es (s : system T) : steps start es s → held es = processing (q s).
Proof.
  revert es s. apply steps_trace_ind; [done|]. intros es s e s' _ Hstep IH.
  rewrite (step_processing _ _ _ Hstep), <- IH. unfold held. rewrite foldl_app. by destruct e.
Qed.

Lemma step_dirty_closed (s : system T) e s' :
  step s e s' → shuttingDown (q s) = true →
  shuttingDown (q s') = true ∧
  dirty (q s') = match e with EvGot _ item => dirty (q s) ∖ {[item]} | _ => dirty (q s) end.
Proof.
  intros Hstep. destruct Hstep as
    [s item q' n w Hq _|s g item q' Hg Hq|s g q' Hg Hq|s g q' Hg Hq|s item q' n w Hi Hq _|s q' n w Hq _];
    destruct s as [[l d p sd] wt wk]; unfold Add, Get, Done, ShutDown in Hq; cbn in *;
    intros ->; repeat case_match; simplify_eq/=; done.
Qed.

(** The enqueued items, as far as a step appends to [queue]. *)
Lemma step_queue (s : system T) e s' :
  step s e s' → ∃ l, queue (q s) ++ l =
    match e with EvGot _ item => item :: queue (q s') | _ => queue (q s') end.
Proof.
  intros Hstep. destruct Hstep as
    [s item q' n w Hq _|s g item q' Hg Hq|s g q' Hg Hq|s g q' Hg Hq|s item q' n w Hi Hq _|s q' n w Hq _];
    destruct s as [[l d p sd] wt wk]; unfold Add, Get, Done, ShutDown in Hq; cbn in *;
    repeat case_match; simplify_eq/=;
    first [exists []; by rewrite ?app_nil_r | eexists; reflexivity].
Qed.
End traces.

(** ** Properties *)

(** In every reachable state the queue lists no item twice, every queued
    item is dirty and not being processed, and every dirty item is queued or
    being processed (the comments on the fields of [Type]). *)
Theorem reachable_queue_ok {T} `{Countable T} (es : list (event T)) s :
  steps start es s → queue_ok (q s).
Proof. apply steps_ok. Qed.

(** C39: the queue refines its specification: every run of the queue and its
    goroutines is a run of the abstract set of pending items; in particular a
    worker parks only when every pending item is already being processed. *)
Theorem steps_refine_spec {T} `{Countable T} (es : list (event T)) s :
  steps start es s → spec_steps (mkSpec ∅ ∅ false) es (abs (q s)).
Proof.
  revert es s. apply steps_trace_ind; [constructor|].
  intros es s e s' Hs Hstep IH. econstructor; [done|].
  apply abs_step; [by eapply steps_ok|done].
Qed.

(** An item that was handed out is not handed out again before [Done]. *)
Theorem no_concurrent_processing {T} `{Countable T} (es : list (event T)) g item s :
  steps start (es ++ [EvGot g item]) s → item ∉ held es.
Proof.
  intros Hs. apply steps_snoc_inv in Hs as (s1 & Hes & Hstep).
  rewrite (held_processing _ _ Hes).
  pose proof (steps_ok _ _ Hes) as Hok.
  inversion Hstep as [|? ? ? q' _ Hget| | | |]; subst.
  destruct (q s1) as [[|x l] d p sd]; unfold Get in Hget; cbn in *; [by destruct sd|].
  simplify_eq. apply Hok. left.
Qed.

(** Items are handed out in the order in which they were enqueued. *)
Theorem handed_out_in_order {T} `{Countable T} (es : list (event T)) (s s' : system T) :
  steps s es s' → ∃ appended, queue (q s) ++ appended = handed_out es ++ queue (q s').
Proof.
  revert es s'. apply steps_trace_ind; [exists []; cbn; by rewrite app_nil_r|].
  intros es s1 e s2 _ Hstep [l IH]. destruct (step_queue _ _ _ Hstep) as [l' Hl'].
  exists (l ++ l'). rewrite app_assoc, IH. unfold handed_out. rewrite omap_app, <- !app_assoc.
  f_equal. rewrite Hl'. by destruct e.
Qed.

(** C40: no wake-up is lost: while a goroutine is parked, at least as many
    goroutines as there are queued items have been notified and are about to
    run the loop test of [Get]; after [ShutDown] none is parked. *)
Theorem no_lost_wakeup {T} `{Countable T} (es : list (event T)) s :
  steps start es s →
  (waiting s ≠ ∅ → Len (q s) ≤ size (woken s)) ∧
  (shuttingDown (q s) = true → waiting s = ∅).
Proof.
  intros Hs. enough (wakeup_ok s) as [_ ? ?] by done.
  eapply (steps_inv wakeup_ok); [apply step_wakeup|done|].
  split; cbn; [set_solver|lia|done].
Qed.

(** After [ShutDown] the queue drains: from then on new items are ignored
    and exactly one worker call is answered for each item that is dirty. *)
Theorem shutdown_drains {T} `{Countable T} (es0 es : list (event T)) s s' :
  steps start es0 s → shuttingDown (q s) = true → steps s es s' →
  length (handed_out es) + size (dirty (q s')) = size (dirty (q s)).
Proof.
  intros Hs0 Hsd Hs.
  enough (shuttingDown (q s') = true ∧ queue_ok (q s') ∧
    length (handed_out es) + size (dirty (q s')) = size (dirty (q s))) by tauto.
  revert es s' Hs. apply steps_trace_ind; [by eauto using steps_ok|].
  intros es s1 e s2 _ Hstep (Hsd1 & Hok & IH).
  destruct (step_dirty_closed _ _ _ Hstep Hsd1) as [Hsd2 Hd].
  split_and!; [done|by eapply step_ok|]. rewrite <- IH, Hd.
  unfold handed_out. rewrite omap_app, length_app. destruct e as [|g item| | | |]; cbn; try lia.
  apply abs_step in Hstep; [|done]. inversion Hstep; subst.
  rewrite (size_delete_elem (dirty (q s1)) item) by done. lia.
Qed.

(** ** Witnesses *)

(** A scheduler: runs the events of a list, [Signal] waking some parked
    goroutine, as long as the queue allows them. *)
Section exec.
Context {T : Type} `{Countable T}.

Definition wake (n : notify) (s : gset nat * gset nat) : gset nat * gset nat :=
  match n with
  | NoNotify => s
  | Signal =>
      match elements s.1 with
      | [] => s
      | g :: _ => (s.1 ∖ {[g]}, {[g]} ∪ s.2)
      end
  | Broadcast => (∅, s.1 ∪ s.2)
  end.

Definition exec_get (s : system T) (g : nat) (expected : get_result T) : option (system T) :=
  let '(q', r) := Get (q s) in
  match expected, r with
  | Got x, Got y =>
      if decide (x = y ∧ g ∉ waiting s)
      then Some (mkSystem q' (waiting s) (woken s ∖ {[g]})) else None
  | Shutdown, Shutdown =>
      if decide (g ∉ waiting s)
      then Some (mkSystem q' (waiting s) (woken s ∖ {[g]})) else None
  | Waits, Waits =>
      if decide (g ∉ waiting s)
      then Some (mkSystem q' ({[g]} ∪ waiting s) (woken s ∖ {[g]})) else None
  | _, _ => None
  end.

Definition exec (s : system T) (e : event T) : option (system T) :=
  match e with
  | EvAdd item =>
      let '(q', n) := Add item (q s) in
      let w := wake n (waiting s, woken s) in Some (mkSystem q' w.1 w.2)
  | EvGot g item => exec_get s g (Got item)
  | EvShutdown g => exec_get s g Shutdown
  | EvWait g => exec_get s g Waits
  | EvDone item =>
      if decide (item ∈ processing (q s)) then
        let '(q', n) := Done item (q s) in
        let w := wake n (waiting s, woken s) in Some (mkSystem q' w.1 w.2)
      else None
  | EvShutDown =>
      let '(q', n) := ShutDown (q s) in
      let w := wake n (waiting s, woken s) in Some (mkSystem q' w.1 w.2)
  end.

Lemma wake_notifies n s : notifies n s (wake n s).
Proof.
  destruct n; cbn; [done| |done]. destruct (elements s.1) as [|g l] eqn:E.
  - left. split; [by apply elements_empty_inv, leibniz_equiv in E|done].
  - right. exists g. split; [|done]. rewrite <- elem_of_elements, E. left.
Qed.

Lemma exec_step s e s' : exec s e = Some s' → step s e s'.
Proof.
  destruct e as [item|g item|g|g|item|]; unfold exec, exec_get; intros E;
    repeat (case_match; simplify_eq/=);
    try case_decide; destruct_and?; simplify_eq/=;
    econstructor; eauto using wake_notifies.
Qed.

Lemma exec_steps s es s' :
  foldl (λ o e, s ← o; exec s e) (Some s) es = Some s' → steps s es s'.
Proof.
  revert s'. induction es as [|e es IH] using rev_ind; intros s'; cbn.
  - intros [= ->]. constructor.
  - rewrite foldl_snoc, bind_Some. intros (s1 & Hs1 & He).
    econstructor; [by apply IH|by apply exec_step].
Qed.
End exec.

Definition demo_trace : list (event nat) :=
  [EvWait 7; EvWait 8; EvAdd 1; EvGot 3 1; EvAdd 1; EvAdd 2; EvDone 1].

Definition drain_trace : list (event nat) := [EvShutDown; EvAdd 5; EvGot 7 2; EvGot 8 1].

Definition run (s : system nat) (es : list (event nat)) : option (system nat) :=
  foldl (λ o e, s ← o; exec s e) (Some s) es.

Definition after (s : system nat) (es : list (event nat)) : system nat := default s (run s es).

Lemma run_after s es : is_Some (run s es) → steps s es (after s es).
Proof. unfold after. intros [s' Hs']. rewrite Hs'. by apply exec_steps. Qed.

Lemma demo_run : steps start demo_trace (after start demo_trace).
Proof. apply run_after. eexists. vm_compute. reflexivity. Qed.

Lemma drain_run :
  steps (after start (demo_trace ++ [EvShutDown])) drain_trace
    (after (after start (demo_trace ++ [EvShutDown])) drain_trace).
Proof. apply run_after. eexists. vm_compute. reflexivity. Qed.

Lemma reachable_queue_ok_witness :
  queue (q (after start demo_trace)) = [2; 1] ∧ queue_ok (q (after start demo_trace)).
Proof.
  split; [vm_compute; reflexivity|]. apply (reachable_queue_ok demo_trace), demo_run.
Defined.

Lemma steps_refine_spec_witness :
  spec_steps (mkSpec ∅ ∅ false) demo_trace (abs (q (after start demo_trace))).
Proof. apply (steps_refine_spec demo_trace), demo_run. Defined.

Lemma no_concurrent_processing_witness :
  steps start ([EvWait 7; EvAdd 1] ++ [EvGot 7 1]) (after start [EvWait 7; EvAdd 1; EvGot 7 1])
  ∧ 1 ∉ held [EvWait 7; EvAdd 1].
Proof.
  assert (Hs : steps start ([EvWait 7; EvAdd 1] ++ [EvGot 7 1])
    (after start [EvWait 7; EvAdd 1; EvGot 7 1])).
  { apply (run_after start [EvWait 7; EvAdd 1; EvGot 7 1]). eexists. vm_compute. reflexivity. }
  split; [exact Hs|]. exact (no_concurrent_processing _ _ _ _ Hs).
Defined.

Lemma handed_out_in_order_witness :
  handed_out demo_trace = [1] ∧
  ∃ appended, queue (q start) ++ appended =
    handed_out demo_trace ++ queue (q (after start demo_trace)).
Proof. split; [reflexivity|]. apply handed_out_in_order, demo_run. Defined.

Lemma no_lost_wakeup_witness :
  woken (after start demo_trace) = {[7; 8]} ∧
  (waiting (after start demo_trace) ≠ ∅ →
     Len (q (after start demo_trace)) ≤ size (woken (after start demo_trace))) ∧
  (shuttingDown (q (after start demo_trace)) = true → waiting (after start demo_trace) = ∅).
Proof.
  split; [vm_compute; reflexivity|]. apply (no_lost_wakeup demo_trace), demo_run.
Defined.

Lemma shutdown_drains_witness :
  let s := after start (demo_trace ++ [EvShutDown]) in
  length (handed_out drain_trace) + size (dirty (q (after s drain_trace))) = size (dirty (q s)).
Proof.
  cbv zeta. apply (shutdown_drains (demo_trace ++ [EvShutDown])).
  - apply run_after. eexists. vm_compute. reflexivity.
  - vm_compute. reflexivity.
  - apply drain_run.
Defined.
