(* ===== verification/ThreadSafeStore.v ===== *)
(** * threadSafeMap: the indexed map under every store

    Models [pkg/client/cache/thread_safe_store.go] (and the types of
    [index.go]).  Every method runs under the map's lock, so each is one
    function on the record [threadSafeMap].  [updateIndices] and
    [deleteFromIndices] are loops over the index functions that stop at the
    first error; their callers discard that error, as the code does.

    The theorems: the secondary indices always agree with the items as long as
    the index functions succeed, [ByIndex] and [Index] then return exactly the
    matching items, each once, and what happens when an index function fails. *)

From S2P Require Import Prelude.
From S2P Require Import SetsString.

(** ** Data *)

Abbreviation Index := (gmap string (gset string)).
Abbreviation Indices := (gmap string (gmap string (gset string))).

Section data.
Context {V : Type}.

(** An index function gives the values an object is listed under, or fails. *)
Definition IndexFunc : Type := V → result string (list string).

Record threadSafeMap : Type := mkThreadSafeMap {
  items : gmap string V;
  indexers : gmap string IndexFunc;
  indices : Indices;
}.

Definition NewThreadSafeStore (indexers : gmap string IndexFunc) (indices : Indices) : threadSafeMap :=
  mkThreadSafeMap ∅ indexers indices.
End data.
Arguments IndexFunc : clear implicits.
Arguments threadSafeMap : clear implicits.

(** ** Operations *)
Section operations.
Context `{R : RangeOrder} {V : Type}.
Implicit Types (c : threadSafeMap V) (obj : V) (key : string).

(** [set.Insert(key)] on [index[indexValue]], created when missing. *)
Definition indexInsert (key : string) (index : Index) (indexValue : string) : Index :=
  <[indexValue := SetsString.Insert (default ∅ (index !! indexValue)) [key]]> index.

(** [set.Delete(key)] on [index[indexValue]], when that set exists. *)
Definition indexDelete (key : string) (index : Index) (indexValue : string) : Index :=
  alter (λ set, SetsString.Delete set [key]) indexValue index.

(** The loop of [updateIndices] over the indexers that remain. *)
Fixpoint updateLoop (newObj : V) (key : string) (fs : list (string * IndexFunc V))
    (ix : Indices) : Indices * option string :=
  match fs with
  | [] => (ix, None)
  | (name, indexFunc) :: fs =>
      match indexFunc newObj with
      | Err err => (ix, Some err)
      | Ok indexValues =>
          let index := default ∅ (ix !! name) in
          updateLoop newObj key fs (<[name := foldl (indexInsert key) index indexValues]> ix)
      end
  end.

(** The loop of [deleteFromIndices]. *)
Fixpoint deleteLoop (obj : V) (key : string) (fs : list (string * IndexFunc V))
    (ix : Indices) : Indices * option string :=
  match fs with
  | [] => (ix, None)
  | (name, indexFunc) :: fs =>
      match indexFunc obj with
      | Err err => (ix, Some err)
      | Ok indexValues =>
          deleteLoop obj key fs (alter (λ index, foldl (indexDelete key) index indexValues) name ix)
      end
  end.

Definition deleteFromIndices (obj : V) (key : string) c : threadSafeMap V * option string :=
  let '(ix, err) := deleteLoop obj key (range_map (indexers c)) (indices c) in
  (mkThreadSafeMap (items c) (indexers c) ix, err).

Definition updateIndices (oldObj : option V) (newObj : V) (key : string) c :
    threadSafeMap V * option string :=
  let c := match oldObj with
           | Some oldObj => (deleteFromIndices oldObj key c).1
           | None => c
           end in
  let '(ix, err) := updateLoop newObj key (range_map (indexers c)) (indices c) in
  (mkThreadSafeMap (items c) (indexers c) ix, err).

Definition Add (key : string) (obj : V) c : threadSafeMap V :=
  let oldObject := items c !! key in
  let c := mkThreadSafeMap (<[key := obj]> (items c)) (indexers c) (indices c) in
  (updateIndices oldObject obj key c).1.

Definition Update (key : string) (obj : V) c : threadSafeMap V :=
  let oldObject := items c !! key in
  let c := mkThreadSafeMap (<[key := obj]> (items c)) (indexers c) (indices c) in
  (updateIndices oldObject obj key c).1.

Definition Delete (key : string) c : threadSafeMap V :=
  match items c !! key with
  | Some obj =>
      let c := (deleteFromIndices obj key c).1 in
      mkThreadSafeMap (delete key (items c)) (indexers c) (indices c)
  | None => c
  end.

(** [None] is Go's [nil, false]. *)
Definition Get (key : string) c : option V := items c !! key.

Definition List c : list V := range_values (items c).

Definition ListKeys c : list string := range_keys (items c).

Definition Replace (new_items : gmap string V) c : threadSafeMap V :=
  foldl (λ c '(key, item), (updateIndices None item key c).1)
    (mkThreadSafeMap new_items (indexers c) ∅) (range_map new_items).

(** The entries of the result are [c.items[key]]: [None] is [nil]. *)
Definition Index_ (indexName : string) (obj : V) c : result string (list (option V)) :=
  match indexers c !! indexName with
  | None => Err "Index with name does not exist"
  | Some indexFunc =>
      indexKeys ← indexFunc obj;
      let index := default ∅ (indices c !! indexName) in
      let returnKeySet :=
        foldl (λ returnKeySet indexKey,
          foldl (λ returnKeySet key, SetsString.Insert returnKeySet [key])
            returnKeySet (SetsString.List (default ∅ (index !! indexKey))))
          ∅ indexKeys in
      Ok ((λ absoluteKey, items c !! absoluteKey) <$> range_set returnKeySet)
  end.

Definition ByIndex (indexName indexKey : string) c : result string (list (option V)) :=
  match indexers c !! indexName with
  | None => Err "Index with name does not exist"
  | Some _ =>
      let index := default ∅ (indices c !! indexName) in
      let set := default ∅ (index !! indexKey) in
      Ok ((λ key, items c !! key) <$> SetsString.List set)
  end.

Definition ListIndexFuncValues (indexName : string) c : list string :=
  range_keys (default ∅ (indices c !! indexName)).
End operations.

(** ** The index invariant *)

(** The keys listed under [v] in the index [name]. *)
Definition posting (ix : Indices) (name v : string) : gset string :=
  default ∅ (default ∅ (ix !! name) !! v).

(** Whether an index function lists an object under [v]. *)
Definition lists_under {V} (f : IndexFunc V) (v : string) (o : V) : bool :=
  match f o with Ok vs => bool_decide (v ∈ vs) | Err _ => false end.

(** The indices list a key exactly under the values of the item it stores. *)
Definition indices_ok {V} (c : threadSafeMap V) : Prop :=
  ∀ name f, indexers c !! name = Some f → ∀ v k,
    k ∈ posting (indices c) name v ↔ ∃ o, items c !! k = Some o ∧ lists_under f v o = true.

(** Every index function succeeds on every object. *)
Definition indexers_total {V} (fs : gmap string (IndexFunc V)) : Prop :=
  ∀ name f o, fs !! name = Some f → is_Ok (f o).

Section facts.
Context `{R : RangeOrder} {V : Type}.
Implicit Types (c : threadSafeMap V) (obj : V) (ix : Indices) (index : Index).

Lemma foldl_indexInsert key vs index v k :
  k ∈ default ∅ (foldl (indexInsert key) index vs !! v) ↔
  k ∈ default ∅ (index !! v) ∨ (k = key ∧ v ∈ vs).
Proof.
  revert index. induction vs as [|w vs IH]; intros index; cbn; [set_solver|].
  rewrite IH. unfold indexInsert. destruct (decide (w = v)) as [->|].
  - rewrite lookup_insert_eq, Insert_union. cbn. set_solver.
  - rewrite lookup_insert_ne by done. set_solver.
Qed.

Lemma foldl_indexDelete key vs index v k :
  k ∈ default ∅ (foldl (indexDelete key) index vs !! v) ↔
  k ∈ default ∅ (index !! v) ∧ ¬ (k = key ∧ v ∈ vs).
Proof.
  revert index. induction vs as [|w vs IH]; intros index; cbn; [set_solver|].
  rewrite IH. unfold indexDelete. rewrite lookup_alter.
  case_decide as Hw; [subst w|set_solver].
  destruct (index !! v); cbn; [rewrite Delete_difference; cbn|]; set_solver.
Qed.

Lemma posting_insert ix name index name' v :
  posting (<[name := index]> ix) name' v =
  if decide (name = name') then default ∅ (index !! v) else posting ix name' v.
Proof. unfold posting. rewrite lookup_insert. by case_decide. Qed.

Lemma lists_under_Ok (f : IndexFunc V) v obj vs :
  f obj = Ok vs → lists_under f v obj = true ↔ v ∈ vs.
Proof. unfold lists_under. intros ->. apply bool_decide_eq_true. Qed.

(** An object is listed under [v] by one of the functions named [name]. *)
Definition listed (fs : list (string * IndexFunc V)) name v obj : Prop :=
  ∃ f, (name, f) ∈ fs ∧ lists_under f v obj = true.

Lemma listed_cons n f fs name v obj :
  listed ((n, f) :: fs) name v obj ↔
  (n = name ∧ lists_under f v obj = true) ∨ listed fs name v obj.
Proof.
  unfold listed. setoid_rewrite elem_of_cons. split.
  - intros (g & [[= -> ->]|?] & ?); eauto.
  - intros [[-> ?]|(g & ? & ?)]; eauto.
Qed.

Lemma updateLoop_spec obj key fs ix :
  (∀ name f, (name, f) ∈ fs → is_Ok (f obj)) →
  ∀ name v k, k ∈ posting (updateLoop obj key fs ix).1 name v ↔
    k ∈ posting ix name v ∨ (k = key ∧ listed fs name v obj).
Proof.
  revert ix. induction fs as [|[n f] fs IH]; intros ix Hok name v k.
  { cbn. split; [by left|]. intros [?|(_ & f & Hf%elem_of_nil & _)]; done. }
  destruct (Hok n f) as [vs Hvs]; [left|]. cbn. rewrite Hvs, IH, listed_cons
    by (intros; apply (Hok name0); by right).
  rewrite posting_insert, (lists_under_Ok f v obj vs) by done.
  case_decide as Hn; [subst n; rewrite foldl_indexInsert|]; tauto.
Qed.

Lemma deleteLoop_spec obj key fs ix :
  (∀ name f, (name, f) ∈ fs → is_Ok (f obj)) →
  ∀ name v k, k ∈ posting (deleteLoop obj key fs ix).1 name v ↔
    k ∈ posting ix name v ∧ ¬ (k = key ∧ listed fs name v obj).
Proof.
  revert ix. induction fs as [|[n f] fs IH]; intros ix Hok name v k.
  { cbn. split; [|by intros []]. intros ?. split; [done|].
    intros (_ & f & Hf%elem_of_nil & _); done. }
  destruct (Hok n f) as [vs Hvs]; [left|]. cbn. rewrite Hvs, IH, listed_cons
    by (intros; apply (Hok name0); by right).
  rewrite (lists_under_Ok f v obj vs) by done.
  unfold posting. rewrite lookup_alter. case_decide as Hn; [subst n|tauto].
  destruct (ix !! name) as [index|]; cbn; [|set_solver].
  rewrite foldl_indexDelete. tauto.
Qed.

Lemma listed_range fs name v obj :
  listed (range_map fs) name v obj ↔ ∃ f, fs !! name = Some f ∧ lists_under f v obj = true.
Proof. unfold listed. by setoid_rewrite elem_of_range_map. Qed.

Lemma range_map_total fs obj :
  indexers_total fs → ∀ name f, (name, f) ∈ range_map fs → is_Ok (f obj).
Proof. intros Ht name f Hf%elem_of_range_map. by eapply Ht. Qed.

(** [updateIndices] makes [key] listed under the values of the new object only. *)
Lemma updateIndices_spec old obj key c :
  indexers_total (indexers c) →
  (∀ name f v, indexers c !! name = Some f →
     key ∈ posting (indices c) name v ↔ ∃ o, old = Some o ∧ lists_under f v o = true) →
  let c' := (updateIndices old obj key c).1 in
  items c' = items c ∧ indexers c' = indexers c ∧
  ∀ name f v k, indexers c !! name = Some f →
    k ∈ posting (indices c') name v ↔
    if decide (k = key) then lists_under f v obj = true else k ∈ posting (indices c) name v.
Proof.
  intros Ht Hold. unfold updateIndices, deleteFromIndices.
  destruct old as [o|]; cbn;
    [destruct (deleteLoop o key _ _) as [ix e] eqn:Hd; cbn|];
    destruct (updateLoop obj key _ _) as [ix' e'] eqn:Hu; cbn;
    (split_and!; [done..|]); intros name f v k Hf;
    apply (f_equal fst) in Hu; cbn in Hu; subst ix';
    rewrite updateLoop_spec, listed_range, Hf by (by apply range_map_total);
    [apply (f_equal fst) in Hd; cbn in Hd; subst ix;
     rewrite deleteLoop_spec, listed_range, Hf by (by apply range_map_total)|];
    specialize (Hold _ _ v Hf); case_decide; subst; naive_solver.
Qed.

Lemma indices_ok_delete key c :
  indexers_total (indexers c) → indices_ok c →
  indices_ok (Delete key c).
Proof.
  intros Ht Hok. unfold Delete. destruct (items c !! key) as [o|] eqn:Ho; [|done].
  unfold deleteFromIndices. destruct (deleteLoop _ _ _ _) as [ix e] eqn:Hd. cbn.
  apply (f_equal fst) in Hd; cbn in Hd; subst ix.
  intros name f Hf v k. cbn in *.
  rewrite deleteLoop_spec, listed_range, Hf, (Hok _ _ Hf) by (by apply range_map_total).
  destruct (decide (k = key)) as [->|]; [rewrite lookup_delete_eq|rewrite lookup_delete_ne by done];
    naive_solver.
Qed.

Lemma indices_ok_add key obj c :
  indexers_total (indexers c) → indices_ok c → indices_ok (Add key obj c).
Proof.
  intros Ht Hok. unfold Add.
  destruct (updateIndices_spec (items c !! key) obj key
    (mkThreadSafeMap (<[key := obj]> (items c)) (indexers c) (indices c)))
    as (Hi & Hx & Hp); cbn in *; [done|by intros; apply Hok|].
  intros name f Hf v k. rewrite Hx in Hf. rewrite (Hp _ _ _ _ Hf), Hi, lookup_insert.
  case_decide; case_decide; subst; try done; [naive_solver|by apply Hok].
Qed.
End facts.

Section replace.
Context `{R : RangeOrder} {V : Type}.
Implicit Types (c : threadSafeMap V).

(** The loop of [Replace] over the entries still to be indexed: the indices
    list exactly the entries already visited. *)
Lemma replace_loop (l : list (string * V)) c :
  indexers_total (indexers c) → NoDup l.*1 →
  (∀ name f v k, indexers c !! name = Some f → k ∈ l.*1 → k ∉ posting (indices c) name v) →
  let c' := foldl (λ c '(key, item), (updateIndices None item key c).1) c l in
  items c' = items c ∧ indexers c' = indexers c ∧
  ∀ name f v k, indexers c !! name = Some f →
    k ∈ posting (indices c') name v ↔
    k ∈ posting (indices c) name v ∨ ∃ o, (k, o) ∈ l ∧ lists_under f v o = true.
Proof.
  revert c. induction l as [|[key o] l IH]; intros c Ht Hnd Hfresh; cbn.
  { split_and!; [done..|]. intros. split; [by left|]. intros [?|(? & ?%elem_of_nil & _)]; done. }
  apply NoDup_cons in Hnd as [Hkey Hnd].
  destruct (updateIndices_spec None o key c) as (Hi & Hx & Hp); [done| |].
  { intros name f v Hf. specialize (Hfresh name f v key Hf). set_solver. }
  destruct (IH (updateIndices None o key c).1) as (Hi' & Hx' & Hp'); [by rewrite Hx|done| |].
  { intros name f v k Hf Hk. rewrite Hx in Hf. rewrite (Hp _ _ _ _ Hf).
    case_decide; [by subst|]. apply (Hfresh _ _ _ _ Hf). by right. }
  rewrite Hi', Hx'. split_and!; [done..|]. intros name f v k Hf.
  rewrite Hp' by by rewrite Hx. rewrite (Hp _ _ _ _ Hf). setoid_rewrite elem_of_cons.
  specialize (Hfresh name f v key Hf). split.
  - case_decide; [subst|]; naive_solver.
  - intros [?|(o' & [[= -> ->]|?] & ?)].
    + left. rewrite decide_False; [done|]. intros ->. apply Hfresh; [left|done].
    + left. by rewrite decide_True.
    + eauto.
Qed.

Lemma Replace_spec new_items c :
  indexers_total (indexers c) →
  items (Replace new_items c) = new_items ∧ indexers (Replace new_items c) = indexers c ∧
  indices_ok (Replace new_items c).
Proof.
  intros Ht. unfold Replace.
  destruct (replace_loop (range_map new_items) (mkThreadSafeMap new_items (indexers c) ∅))
    as (Hi & Hx & Hp); cbn in *; [done|apply NoDup_range_keys| |].
  { intros name f v k _ _. unfold posting. rewrite lookup_empty. cbn. rewrite lookup_empty. set_solver. }
  split_and!; [done..|]. intros name f Hf v k. rewrite Hx in Hf. rewrite (Hp _ _ _ _ Hf), Hi.
  unfold posting. rewrite lookup_empty. cbn. rewrite lookup_empty.
  setoid_rewrite elem_of_range_map. cbn. set_solver.
Qed.

(** The items field of every operation, with no hypothesis on the indexers. *)
Lemma items_updateIndices old obj key c : items (updateIndices old obj key c).1 = items c.
Proof.
  unfold updateIndices, deleteFromIndices.
  destruct old; cbn; [destruct (deleteLoop _ _ _ _); cbn|]; by destruct (updateLoop _ _ _ _).
Qed.

Lemma indexers_updateIndices old obj key c : indexers (updateIndices old obj key c).1 = indexers c.
Proof.
  unfold updateIndices, deleteFromIndices.
  destruct old; cbn; [destruct (deleteLoop _ _ _ _); cbn|]; by destruct (updateLoop _ _ _ _).
Qed.

Lemma items_Add key obj c : items (Add key obj c) = <[key := obj]> (items c).
Proof. unfold Add. by rewrite items_updateIndices. Qed.

Lemma indexers_Add key obj c : indexers (Add key obj c) = indexers c.
Proof. unfold Add. by rewrite indexers_updateIndices. Qed.

Lemma items_Delete key c : items (Delete key c) = delete key (items c).
Proof.
  unfold Delete, deleteFromIndices. destruct (items c !! key) eqn:E.
  - by destruct (deleteLoop _ _ _ _).
  - by rewrite delete_id.
Qed.

Lemma indexers_Delete key c : indexers (Delete key c) = indexers c.
Proof.
  unfold Delete, deleteFromIndices. destruct (items c !! key); [|done].
  by destruct (deleteLoop _ _ _ _).
Qed.

Lemma items_Replace new_items c : items (Replace new_items c) = new_items.
Proof.
  unfold Replace. apply (foldl_inv (λ c, items c = new_items)); [done|].
  intros c' [k o] _ <-. apply items_updateIndices.
Qed.

Lemma indexers_Replace new_items c : indexers (Replace new_items c) = indexers c.
Proof.
  unfold Replace. apply (foldl_inv (λ c', indexers c' = indexers c)); [done|].
  intros c' [k o] _ <-. apply indexers_updateIndices.
Qed.

Lemma Update_Add key obj c : Update key obj c = Add key obj c.
Proof. done. Qed.
End replace.

#[global] Arguments Add : simpl never.
#[global] Arguments Update : simpl never.
#[global] Arguments Delete : simpl never.
#[global] Arguments Replace : simpl never.

(** ** Looking up by index *)
Section lookups.
Context `{R : RangeOrder} {V : Type}.
Implicit Types (c : threadSafeMap V) (P : V → bool).

(** The stored objects that satisfy a test, each once. *)
Definition selected P c : list V :=
  (map_to_list (filter (λ kv, P kv.2 = true) (items c))).*2.

Lemma fmap_lookup_selected P c (keys : list string) :
  NoDup keys → (∀ k, k ∈ keys ↔ ∃ o, items c !! k = Some o ∧ P o = true) →
  (λ k, items c !! k) <$> keys ≡ₚ Some <$> selected P c.
Proof.
  intros Hnd Hkeys. unfold selected.
  set (m := filter (λ kv, P kv.2 = true) (items c)).
  transitivity ((λ k, items c !! k) <$> (map_to_list m).*1).
  - apply fmap_Permutation, NoDup_Permutation; [done|apply NoDup_fst_map_to_list|].
    intros k. rewrite Hkeys, list_elem_of_fmap. split.
    + intros (o & Ho & HP). exists (k, o). split; [done|].
      by apply elem_of_map_to_list, map_lookup_filter_Some.
    + intros ([k' o] & -> & [Ho HP]%elem_of_map_to_list%map_lookup_filter_Some). by exists o.
  - rewrite <- !list_fmap_compose. apply Permutation_refl', list_fmap_ext.
    intros i [k o] Hi%list_elem_of_lookup_2%elem_of_map_to_list.
    by apply map_lookup_filter_Some in Hi as [??].
Qed.

Lemma ByIndex_selected name v f c :
  indexers c !! name = Some f → indices_ok c →
  ∃ l, ByIndex name v c = Ok l ∧ l ≡ₚ Some <$> selected (lists_under f v) c.
Proof.
  intros Hf Hok. unfold ByIndex. rewrite Hf. eexists; split; [done|].
  apply fmap_lookup_selected; [apply List_NoDup|]. intros k.
  rewrite elem_of_List. apply (Hok _ _ Hf).
Qed.

(** The keys [Index_] collects: the union of the postings of the index keys. *)
Lemma elem_of_returnKeySet (ix : Indices) name (keys : list string) s k :
  k ∈ foldl (λ acc indexKey,
        foldl (λ acc key, SetsString.Insert acc [key]) acc
          (SetsString.List (default ∅ (default ∅ (ix !! name) !! indexKey)))) s keys
  ↔ k ∈ s ∨ ∃ v, v ∈ keys ∧ k ∈ posting ix name v.
Proof.
  revert s. induction keys as [|w keys IH]; intros s; cbn; [set_solver|].
  rewrite IH, insert_loop, list_to_set_List. unfold posting. set_solver.
Qed.

Lemma Index_selected name obj f keys c :
  indexers c !! name = Some f → f obj = Ok keys → indices_ok c →
  ∃ l, Index_ name obj c = Ok l ∧
    l ≡ₚ Some <$> selected (λ o, existsb (λ v, lists_under f v o) keys) c.
Proof.
  intros Hf Hkeys Hok. unfold Index_. rewrite Hf. cbn. rewrite Hkeys. eexists; split; [done|].
  apply fmap_lookup_selected; [apply NoDup_range_set|]. intros k.
  rewrite elem_of_range_set, elem_of_returnKeySet. split.
  - intros [[]%not_elem_of_empty|(v & Hv & Hk)].
    apply (Hok _ _ Hf) in Hk as (o & ? & ?). exists o. split; [done|].
    apply existsb_exists. exists v. by rewrite <- list_elem_of_In.
  - intros (o & Ho & (v & Hv & Hl)%existsb_exists). right. exists v.
    split; [by apply list_elem_of_In|]. apply (Hok _ _ Hf). eauto.
Qed.
End lookups.

(** ** Properties *)

(** C26: the indices list a key exactly under the values of the object stored
    there, and [Add], [Update], [Delete] and [Replace] keep it so, provided the
    index functions succeed. *)
Theorem indices_ok_preserved (R : RangeOrder) (V : Type) (c : threadSafeMap V) key obj new_items :
  indexers_total (indexers c) → indices_ok c →
  indices_ok (Add key obj c) ∧ indices_ok (Update key obj c) ∧
  indices_ok (Delete key c) ∧ indices_ok (Replace new_items c).
Proof.
  intros Ht Hok. change (Update key obj c) with (Add key obj c).
  split_and!; [by apply indices_ok_add..|by apply indices_ok_delete|by apply Replace_spec].
Qed.

(** Whatever sequence of updates led to a store with consistent indices,
    [ByIndex] returns the objects its index function lists under the value and
    [Index] those that share an index value with the given object: each such
    object once, and no other. *)
Theorem index_lookups_exact (R : RangeOrder) (V : Type) (c : threadSafeMap V) name f :
  indexers c !! name = Some f → indices_ok c →
  (∀ v, ∃ l, ByIndex name v c = Ok l ∧ l ≡ₚ Some <$> selected (lists_under f v) c) ∧
  (∀ obj keys, f obj = Ok keys → ∃ l, Index_ name obj c = Ok l ∧
     l ≡ₚ Some <$> selected (λ o, existsb (λ v, lists_under f v o) keys) c).
Proof.
  intros Hf Hok. split; intros; [by eapply ByIndex_selected|by eapply Index_selected].
Qed.

(** An index that fails on objects that start with ["!"] and one that never fails. *)
Definition failing_index : IndexFunc string := λ o,
  if String.prefix "!" o then Err "no index" else Ok [o].
Definition total_index : IndexFunc string := λ o, Ok ["all"].
Definition two_indexers : gmap string (IndexFunc string) :=
  {["failing" := failing_index; "total" := total_index]}.

(** [Add] discards the error of [updateIndices].  When an index function
    fails on the object, the object is stored but the functions visited later
    do not list it: there is an order of iteration for which a store holds an
    object that [Get] returns and an index function lists, and [ByIndex] does
    not return. *)
Theorem Add_drops_index_error :
  ∃ (R : RangeOrder) (c : threadSafeMap string),
    c = Add "k" "!x" (NewThreadSafeStore two_indexers ∅) ∧
    Get "k" c = Some "!x" ∧ lists_under total_index "all" "!x" = true ∧
    indexers c !! "total" = Some total_index ∧ ByIndex "total" "all" c = Ok [].
Proof.
  exists canonical_order. eexists; split; [reflexivity|].
  split_and!; vm_compute; reflexivity.
Qed.

(** ** Witnesses *)

(** Objects ["a1"], ["a2"], ["b1"] indexed by their first letter. *)
Definition first_letter : IndexFunc string := λ o, Ok [String.substring 0 1 o].
Definition letter_store : threadSafeMap string :=
  let R := canonical_order in
  Delete "3" (Add "4" "b2" (Add "3" "a3" (Add "2" "b1" (Add "1" "a1"
    (NewThreadSafeStore {["letter" := first_letter]} ∅))))).

Lemma letter_total : indexers_total {["letter" := first_letter]}.
Proof. intros name f o [<- <-]%lookup_singleton_Some. by eexists. Qed.

Lemma letter_store_ok : indices_ok letter_store.
Proof.
  unfold letter_store. cbv zeta.
  apply indices_ok_delete; rewrite ?indexers_Add; [apply letter_total|].
  repeat (apply indices_ok_add; rewrite ?indexers_Add; [apply letter_total|]).
  intros name f _ v k. unfold posting. cbn. rewrite !lookup_empty. cbn. rewrite lookup_empty.
  set_solver.
Qed.

Lemma indices_ok_preserved_witness :
  let R := canonical_order in
  indices_ok (Add "5" "c1" letter_store) ∧ indices_ok (Update "5" "c1" letter_store) ∧
  indices_ok (Delete "5" letter_store) ∧ indices_ok (Replace {["7" := "d1"]} letter_store).
Proof.
  apply (indices_ok_preserved canonical_order);
    [change (indexers letter_store) with (indexers letter_store);
     unfold letter_store; rewrite indexers_Delete, !indexers_Add; apply letter_total
    |apply letter_store_ok].
Defined.

Lemma index_lookups_exact_witness :
  let R := canonical_order in
  ByIndex "letter" "b" letter_store = Ok [Some "b1"; Some "b2"] ∧
  (∀ v, ∃ l, ByIndex "letter" v letter_store = Ok l ∧
     l ≡ₚ Some <$> selected (lists_under first_letter v) letter_store) ∧
  (∀ obj keys, first_letter obj = Ok keys → ∃ l, Index_ "letter" obj letter_store = Ok l ∧
     l ≡ₚ Some <$> selected (λ o, existsb (λ v, lists_under first_letter v o) keys) letter_store).
Proof.
  cbv zeta. split; [vm_compute; reflexivity|].
  apply (index_lookups_exact canonical_order); [|apply letter_store_ok].
  unfold letter_store. by rewrite indexers_Delete, !indexers_Add.
Defined.
