(* ===== verification/Store.v ===== *)
(** * cache.Store: keyed stores of API objects

    Models [pkg/client/cache/store.go], the key and index functions of
    [index.go], and [undelta_store.go].  A Go [interface{}] held by a store is
    an [iface]: an API object, an explicit key, a tombstone, or a list of
    deltas, the cases the package distinguishes by type assertion; [nil] is an
    absent option.  The interface [Store] is a class; [StoreLaws] states what a
    store promises its clients about its contents, [cache] discharges it, and
    [UndeltaStore] is verified against the laws alone. *)

From S2P Require Import Prelude.
From S2P Require Import SetsString.
From S2P Require Import ThreadSafeStore.

(** ** Values *)

(** The accessors of [meta.Interface] that the package uses. *)
Class ObjectMeta (A : Type) : Type := {
  GetNamespace : A → string;
  GetName : A → string;
  GetResourceVersion : A → string;
}.

Inductive DeltaType : Type := Added | Updated | Deleted | Sync.

#[export] Instance DeltaType_eq_dec : EqDecision DeltaType.
Proof. solve_decision. Defined.

(** The values behind [interface{}]; [Delta] is the struct of [delta_fifo.go]. *)
Inductive iface (A : Type) : Type :=
| IObj (o : A)
| IExplicitKey (key : string)
| IDeletedFinalStateUnknown (Key : string) (Obj : option (iface A))
| IDeltas (ds : list (Delta A))
with Delta (A : Type) : Type :=
| mkDelta (Type_ : DeltaType) (Object : iface A).
Arguments IObj {A} o.
Arguments IExplicitKey {A} key.
Arguments IDeletedFinalStateUnknown {A} Key Obj.
Arguments IDeltas {A} ds.
Arguments mkDelta {A} Type_ Object.

(** A Go error of this package; [KeyError] keeps the object at fault. *)
Inductive error (V : Type) : Type :=
| Errorf (msg : string)
| KeyError (Obj : V) (Err : error V).
Arguments Errorf {V} msg.
Arguments KeyError {V} Obj Err.

Definition KeyFunc (V : Type) : Type := V → result (error V) string.

(** ** Key functions *)

(** [strings.Split(s, sep)] for a separator of one byte. *)
Fixpoint Split (sep : ascii) (s : string) : list string :=
  match s with
  | EmptyString => [""]
  | String c s =>
      if decide (c = sep) then "" :: Split sep s
      else match Split sep s with
           | part :: parts => String c part :: parts
           | [] => [String c ""]
           end
  end.

Definition slash : ascii := "/"%char.

Definition SplitMetaNamespaceKey (key : string) : result string (string * string) :=
  match Split slash key with
  | [name] => Ok ("", name)
  | [namespace; name] => Ok (namespace, name)
  | _ => Err "unexpected key format"
  end.

Section keys.
Context {A : Type} `{ObjectMeta A}.

Definition MetaNamespaceKeyFunc : KeyFunc (iface A) := λ obj,
  match obj with
  | IExplicitKey key => Ok key
  | IObj o =>
      if Nat.ltb 0 (String.length (GetNamespace o))
      then Ok (GetNamespace o +:+ "/" +:+ GetName o)
      else Ok (GetName o)
  | _ => Err (Errorf "object has no meta")
  end.

Definition MetaNamespaceIndexFunc : IndexFunc (iface A) := λ obj,
  match obj with
  | IObj o => Ok [GetNamespace o]
  | _ => Err "object has no meta"
  end.

End keys.

(** The adapter indexes the list it gets: no value at all is a panic. *)
Definition IndexFuncToKeyFuncAdapter {V} (indexFunc : IndexFunc V) (obj : V) :
    outcome (result string string) :=
  match indexFunc obj with
  | Err err => Returns (Err err)
  | Ok indexKeys =>
      if Nat.ltb 1 (length indexKeys) then Returns (Err "too many keys")
      else match indexKeys with
           | key :: _ => Returns (Ok key)
           | [] => Panics
           end
  end.

(** ** The interface *)

(** Methods that read also return the store: some purge it on the way. *)
Class Store (S V : Type) : Type := {
  store_Add : V → S → S * option (error V);
  store_Update : V → S → S * option (error V);
  store_Delete : V → S → S * option (error V);
  store_List : S → S * list V;
  store_ListKeys : S → S * list string;
  store_Get : V → S → S * result (error V) (option V);
  store_GetByKey : string → S → S * result (error V) (option V);
  store_Replace : list V → string → S → S * option (error V);
}.

(** The keyed items of a list, as [Replace] builds them; the first object
    without a key stops it. *)
Fixpoint keyed_items {V} (kf : KeyFunc V) (list : list V) (items : gmap string V) :
    result (error V) (gmap string V) :=
  match list with
  | [] => Ok items
  | item :: list =>
      match kf item with
      | Err err => Err (KeyError item err)
      | Ok key => keyed_items kf list (<[key := item]> items)
      end
  end.

(** What a store promises: it is the map [contents], keyed by [store_key]. *)
Class StoreLaws (S V : Type) `{Store S V} : Type := {
  store_key : S → KeyFunc V;
  contents : S → gmap string V;
  law_key_Add v s : store_key (store_Add v s).1 = store_key s;
  law_key_Delete v s : store_key (store_Delete v s).1 = store_key s;
  law_key_Replace l rv s : store_key (store_Replace l rv s).1 = store_key s;
  law_Add v s : match store_key s v with
    | Ok k => (store_Add v s).2 = None ∧ contents (store_Add v s).1 = <[k := v]> (contents s)
    | Err e => (store_Add v s).2 = Some (KeyError v e) ∧ contents (store_Add v s).1 = contents s
    end;
  law_Update v s : store_Update v s = store_Add v s;
  law_Delete v s : match store_key s v with
    | Ok k => (store_Delete v s).2 = None ∧ contents (store_Delete v s).1 = delete k (contents s)
    | Err e => (store_Delete v s).2 = Some (KeyError v e) ∧
               contents (store_Delete v s).1 = contents s
    end;
  law_Replace l rv s : match keyed_items (store_key s) l ∅ with
    | Ok m => (store_Replace l rv s).2 = None ∧ contents (store_Replace l rv s).1 = m
    | Err e => (store_Replace l rv s).2 = Some e ∧
               contents (store_Replace l rv s).1 = contents s
    end;
  law_List s : (store_List s).1 = s ∧ (store_List s).2 ≡ₚ (map_to_list (contents s)).*2;
  law_ListKeys s : (store_ListKeys s).1 = s ∧ (store_ListKeys s).2 ≡ₚ (map_to_list (contents s)).*1;
  law_Get v s : store_Get v s = match store_key s v with
    | Ok k => (s, Ok (contents s !! k))
    | Err e => (s, Err (KeyError v e))
    end;
  law_GetByKey k s : store_GetByKey k s = (s, Ok (contents s !! k));
}.

(** ** cache *)

Record cache (V : Type) : Type := mkCache {
  cacheStorage : threadSafeMap V;
  keyFunc : KeyFunc V;
}.
Arguments mkCache {V} _ _.
Arguments cacheStorage {V} _.
Arguments keyFunc {V} _.

Section cache.
Context `{R : RangeOrder} {V : Type}.
Implicit Types (c : cache V) (obj : V).

Definition NewStore (keyFunc : KeyFunc V) : cache V :=
  mkCache (NewThreadSafeStore ∅ ∅) keyFunc.

Definition NewIndexer (keyFunc : KeyFunc V) (indexers : gmap string (IndexFunc V)) : cache V :=
  mkCache (NewThreadSafeStore indexers ∅) keyFunc.

Definition Add obj c : cache V * option (error V) :=
  match keyFunc c obj with
  | Err err => (c, Some (KeyError obj err))
  | Ok key => (mkCache (ThreadSafeStore.Add key obj (cacheStorage c)) (keyFunc c), None)
  end.

Definition Update obj c : cache V * option (error V) :=
  match keyFunc c obj with
  | Err err => (c, Some (KeyError obj err))
  | Ok key => (mkCache (ThreadSafeStore.Update key obj (cacheStorage c)) (keyFunc c), None)
  end.

Definition Delete obj c : cache V * option (error V) :=
  match keyFunc c obj with
  | Err err => (c, Some (KeyError obj err))
  | Ok key => (mkCache (ThreadSafeStore.Delete key (cacheStorage c)) (keyFunc c), None)
  end.

Definition List c : list V := ThreadSafeStore.List (cacheStorage c).

Definition ListKeys c : list string := ThreadSafeStore.ListKeys (cacheStorage c).

Definition Index_ (indexName : string) obj c : result string (list (option V)) :=
  ThreadSafeStore.Index_ indexName obj (cacheStorage c).

Definition ListIndexFuncValues (indexName : string) c : list string :=
  ThreadSafeStore.ListIndexFuncValues indexName (cacheStorage c).

Definition ByIndex (indexName indexKey : string) c : result string (list (option V)) :=
  ThreadSafeStore.ByIndex indexName indexKey (cacheStorage c).

Definition GetByKey (key : string) c : result (error V) (option V) :=
  Ok (ThreadSafeStore.Get key (cacheStorage c)).

Definition Get obj c : result (error V) (option V) :=
  match keyFunc c obj with
  | Err err => Err (KeyError obj err)
  | Ok key => GetByKey key c
  end.

Definition Replace (list : list V) (resourceVersion : string) c : cache V * option (error V) :=
  match keyed_items (keyFunc c) list ∅ with
  | Err err => (c, Some err)
  | Ok items => (mkCache (ThreadSafeStore.Replace items (cacheStorage c)) (keyFunc c), None)
  end.
End cache.

#[export] Instance cache_store `{RangeOrder} {V} : Store (cache V) V := {|
  store_Add := Add;
  store_Update := Update;
  store_Delete := Delete;
  store_List := λ c, (c, List c);
  store_ListKeys := λ c, (c, ListKeys c);
  store_Get := λ obj c, (c, Get obj c);
  store_GetByKey := λ key c, (c, GetByKey key c);
  store_Replace := Replace;
|}.

(** ** UndeltaStore *)

(** The store under an [UndeltaStore] and the lists its [PushFunc] was called
    with, oldest first. *)
Record UndeltaStore (S V : Type) : Type := mkUndeltaStore {
  inner : S;
  pushed : list (list V);
}.
Arguments mkUndeltaStore {S V} _ _.
Arguments inner {S V} _.
Arguments pushed {S V} _.

Section undelta.
Context {S V : Type} `{Store S V}.
Implicit Types (u : UndeltaStore S V).

(** [u.PushFunc(u.Store.List())]. *)
Definition push u : UndeltaStore S V :=
  let '(s, l) := store_List (inner u) in mkUndeltaStore s (pushed u ++ [l]).

(** Run a method of the store; on success push the complete state. *)
Definition push_on_success (r : S * option (error V)) u : UndeltaStore S V * option (error V) :=
  match r with
  | (s, Some err) => (mkUndeltaStore s (pushed u), Some err)
  | (s, None) => (push (mkUndeltaStore s (pushed u)), None)
  end.

Definition undelta_Add (obj : V) u := push_on_success (store_Add obj (inner u)) u.
Definition undelta_Update (obj : V) u := push_on_success (store_Update obj (inner u)) u.
Definition undelta_Delete (obj : V) u := push_on_success (store_Delete obj (inner u)) u.
Definition undelta_Replace (list : list V) (resourceVersion : string) u :=
  push_on_success (store_Replace list resourceVersion (inner u)) u.
End undelta.

Definition NewUndeltaStore {V} (keyFunc : KeyFunc V) : UndeltaStore (cache V) V :=
  mkUndeltaStore (NewStore keyFunc) [].

(** ** Facts *)
Section facts.
Context `{R : RangeOrder} {V : Type}.

#[export] Program Instance cache_store_laws : StoreLaws (cache V) V := {|
  store_key := keyFunc;
  contents := λ c, items (cacheStorage c);
|}.
Next Obligation. intros v s. cbn. unfold Add. by destruct (keyFunc s v). Qed.
Next Obligation. intros v s. cbn. unfold Delete. by destruct (keyFunc s v). Qed.
Next Obligation. intros l rv s. cbn. unfold Replace. by destruct (keyed_items _ _ _). Qed.
Next Obligation.
  intros v s. cbn. unfold Add. destruct (keyFunc s v); cbn; [|done]. by rewrite items_Add.
Qed.
Next Obligation. done. Qed.
Next Obligation.
  intros v s. cbn. unfold Delete. destruct (keyFunc s v); cbn; [|done]. by rewrite items_Delete.
Qed.
Next Obligation.
  intros l rv s. cbn. unfold Replace. destruct (keyed_items _ _ _); cbn; [|done].
  by rewrite items_Replace.
Qed.
Next Obligation. intros s. cbn. split; [done|]. apply fmap_Permutation, range_map_perm. Qed.
Next Obligation. intros s. cbn. split; [done|]. apply range_keys_perm. Qed.
Next Obligation. intros v s. cbn. unfold Get. by destruct (keyFunc s v). Qed.
Next Obligation. done. Qed.
End facts.

(** [Split] undoes joining parts that hold no separator. *)
Definition free_of (sep : ascii) (s : string) : Prop := sep ∉ String.list_ascii_of_string s.

Lemma Split_free sep s : free_of sep s → Split sep s = [s].
Proof.
  unfold free_of. induction s as [|c s IH]; [done|]. cbn.
  rewrite not_elem_of_cons. intros [Hc Hs]. rewrite decide_False by done. by rewrite IH.
Qed.

Lemma Split_app sep s t : free_of sep s → Split sep (s +:+ String sep t) = s :: Split sep t.
Proof.
  unfold free_of. induction s as [|c s IH].
  - intros _. change ("" +:+ String sep t) with (String sep t). cbn. by rewrite decide_True.
  - cbn. rewrite not_elem_of_cons. intros [Hc Hs].
    change (String c s +:+ String sep t) with (String c (s +:+ String sep t)). cbn.
    rewrite decide_False by done. by rewrite IH.
Qed.

(** ** Properties *)

(** For an object whose namespace and name hold no ["/"],
    [SplitMetaNamespaceKey] recovers both from the key that
    [MetaNamespaceKeyFunc] makes, an empty namespace included. *)
Theorem SplitMetaNamespaceKey_roundtrip {A} `{ObjectMeta A} (o : A) key :
  free_of slash (GetNamespace o) → free_of slash (GetName o) →
  MetaNamespaceKeyFunc (IObj o) = Ok key →
  SplitMetaNamespaceKey key = Ok (GetNamespace o, GetName o).
Proof.
  intros Hns Hn. unfold MetaNamespaceKeyFunc, SplitMetaNamespaceKey.
  destruct (GetNamespace o) as [|c ns] eqn:E; cbn [String.length Nat.ltb Nat.leb]; intros [= <-].
  - by rewrite Split_free.
  - change ("/" +:+ GetName o) with (String slash (GetName o)).
    by rewrite Split_app, Split_free.
Qed.

(** The cache keeps the promises of a store: it is a map from keys to
    objects, [Replace] included, and an object without a key changes nothing
    and is reported. *)
Theorem cache_is_a_store (R : RangeOrder) (V : Type) (c : cache V) (v : V) (l : list V) rv :
  match keyFunc c v with
  | Ok k =>
      (Add v c).2 = None ∧ items (cacheStorage (Add v c).1) = <[k := v]> (items (cacheStorage c)) ∧
      (Delete v c).2 = None ∧ items (cacheStorage (Delete v c).1) = delete k (items (cacheStorage c)) ∧
      Get v (Add v c).1 = Ok (Some v) ∧ Get v (Delete v c).1 = Ok None
  | Err e =>
      Add v c = (c, Some (KeyError v e)) ∧ Delete v c = (c, Some (KeyError v e)) ∧
      Get v c = Err (KeyError v e)
  end ∧
  match keyed_items (keyFunc c) l ∅ with
  | Ok m => (Replace l rv c).2 = None ∧ items (cacheStorage (Replace l rv c).1) = m ∧
            List (Replace l rv c).1 ≡ₚ (map_to_list m).*2
  | Err e => Replace l rv c = (c, Some e)
  end.
Proof.
  unfold Add, Delete, Get, Replace, GetByKey, ThreadSafeStore.Get, List, ThreadSafeStore.List. split.
  - destruct (keyFunc c v) eqn:E; cbn; [|done].
    rewrite E, items_Add, items_Delete, lookup_insert_eq, lookup_delete_eq. done.
  - destruct (keyed_items _ _ _) as [m|e]; cbn; [|done].
    rewrite items_Replace. split_and!; [done..|]. apply fmap_Permutation, range_map_perm.
Qed.

(** Over any lawful store, every successful change of an [UndeltaStore]
    makes exactly one call of [PushFunc], with the complete state after the
    change, and a failed change makes none. *)
Theorem undelta_pushes_complete_state (S V : Type) `{StoreLaws S V}
    (u : UndeltaStore S V) (v : V) (l : list V) rv :
  ∀ u' err,
    (u', err) ∈ [undelta_Add v u; undelta_Update v u; undelta_Delete v u; undelta_Replace l rv u] →
  match err with
  | None => ∃ l', pushed u' = pushed u ++ [l'] ∧ l' ≡ₚ (map_to_list (contents (inner u'))).*2
  | Some _ => pushed u' = pushed u
  end.
Proof.
  assert (Hpush : ∀ r, let '(u', err) := push_on_success r u in
    match err with
    | None => ∃ l', pushed u' = pushed u ++ [l'] ∧ l' ≡ₚ (map_to_list (contents (inner u'))).*2
    | Some _ => pushed u' = pushed u
    end).
  { intros [s [e|]]; cbn; [done|]. unfold push; cbn.
    destruct (law_List s) as [Hs Hl]. destruct (store_List s) as [s' l']. cbn in *. subst s'.
    by exists l'. }
  intros u' err Hin. rewrite !elem_of_cons, elem_of_nil in Hin.
  destruct Hin as [E|[E|[E|[E|[]]]]];
    [specialize (Hpush (store_Add v (inner u)))|specialize (Hpush (store_Update v (inner u)))
    |specialize (Hpush (store_Delete v (inner u)))|specialize (Hpush (store_Replace l rv (inner u)))];
    [change (push_on_success (store_Add v (inner u)) u) with (undelta_Add v u) in Hpush
    |change (push_on_success (store_Update v (inner u)) u) with (undelta_Update v u) in Hpush
    |change (push_on_success (store_Delete v (inner u)) u) with (undelta_Delete v u) in Hpush
    |change (push_on_success (store_Replace l rv (inner u)) u) with (undelta_Replace l rv u) in Hpush];
    by rewrite <- E in Hpush.
Qed.

(** ** Witnesses *)

(** A plain API object for the examples. *)
Record demo_object : Type := mkDemo { demo_ns : string; demo_name : string; demo_body : string }.

#[export] Instance demo_meta : ObjectMeta demo_object := {|
  GetNamespace := demo_ns; GetName := demo_name; GetResourceVersion := demo_body |}.

Definition demo_pod : demo_object := mkDemo "kube-system" "dns-1" "v1".

Lemma SplitMetaNamespaceKey_roundtrip_witness :
  SplitMetaNamespaceKey "kube-system/dns-1" = Ok ("kube-system", "dns-1").
Proof.
  change (SplitMetaNamespaceKey "kube-system/dns-1" = Ok (GetNamespace demo_pod, GetName demo_pod)).
  apply (SplitMetaNamespaceKey_roundtrip demo_pod "kube-system/dns-1");
    [unfold free_of; apply (bool_decide_unpack _); vm_compute; exact I..|reflexivity].
Defined.

Lemma undelta_pushes_complete_state_witness :
  let R := canonical_order in
  let u := (undelta_Add (IObj demo_pod) (NewUndeltaStore MetaNamespaceKeyFunc)).1 in
  pushed u = [[IObj demo_pod]] ∧
  ∃ l', pushed u = [] ++ [l'] ∧ l' ≡ₚ (map_to_list (contents (inner u))).*2.
Proof.
  cbv zeta. split; [vm_compute; reflexivity|].
  apply (undelta_pushes_complete_state _ _
    (NewUndeltaStore (MetaNamespaceKeyFunc (A := demo_object))) (IObj demo_pod) [] "" _ None).
  apply elem_of_cons. left. vm_compute. reflexivity.
Defined.
