(* ===== verification/Heap.v ===== *)
(** * Go's container/heap

    The library routines that a priority queue of the program is made of: [up] and
    [down] restore the order of a binary heap in an array, in which the parent of
    position [i] is at [(i - 1) / 2].  The element type comes with a [key]; [Less]
    compares keys.

    The facts: every operation keeps the heap, permutes the elements, and [Pop]
    gives a least one. *)

From S2P Require Import Prelude.

Section heap.
Context {A : Type} (key : A → Z).
Implicit Types (h : list A) (i j n : nat) (x : A).

(** [h.Less(i, j)], for positions in the heap. *)
Definition less_at h i j : bool :=
  match h !! i, h !! j with
  | Some a, Some b => (key a <? key b)%Z
  | _, _ => false
  end.

Definition swap h i j : list A :=
  match h !! i, h !! j with
  | Some a, Some b => <[j := a]> (<[i := b]> h)
  | _, _ => h
  end.

Definition parent i : nat := (i - 1) / 2.

(** The loops move towards the root, or towards the leaves before [n]. *)
Fixpoint up (fuel : nat) h j : list A :=
  match fuel with
  | O => h
  | S fuel =>
      let i := parent j in
      if Nat.eqb i j || negb (less_at h j i) then h else up fuel (swap h i j) i
  end.

Fixpoint down (fuel : nat) h i n : list A :=
  match fuel with
  | O => h
  | S fuel =>
      let j1 := 2 * i + 1 in
      if Nat.leb n j1 then h
      else
        let j2 := j1 + 1 in
        let j := if Nat.ltb j2 n && negb (less_at h j1 j2) then j2 else j1 in
        if negb (less_at h j i) then h else down fuel (swap h i j) j n
  end.

Definition Push x h : list A := up (S (length h)) (h ++ [x]) (length h).

(** The last element, and the others: the element type's own [Pop]. *)
Definition take_last h : option (A * list A) :=
  match last h with Some x => Some (x, take (length h - 1) h) | None => None end.

(** [None] where the code would index out of range. *)
Definition Pop h : option (A * list A) :=
  let n := length h - 1 in take_last (down (S n) (swap h 0 n) 0 n).

Definition Remove i h : option (A * list A) :=
  let n := length h - 1 in
  take_last (if negb (Nat.eqb n i) then up (S i) (down (S n) (swap h i n) i n) i else h).

(** ** Facts *)

Definition at_ h i : Z := from_option key 0%Z (h !! i).

(** The heap order at one position, and everywhere before [n]. *)
Definition ordered h i : Prop := (at_ h (parent i) <= at_ h i)%Z.
Definition heap_upto n h : Prop := ∀ i, 0 < i < n → ordered h i.
Definition heap_ok h : Prop := heap_upto (length h) h.

(** Children of [j] are at least the parent of [j]. *)
Definition bridged n h j : Prop := 0 < j → ∀ c, c < n → parent c = j → 0 < c → (at_ h (parent j) <= at_ h c)%Z.

(** A heap but for the order between [j] and its parent, or its children. *)
Definition up_inv n h j : Prop := (∀ c, 0 < c < n → c ≠ j → ordered h c) ∧ bridged n h j.
Definition down_inv n h i : Prop := (∀ c, 0 < c < n → c ≠ i → parent c ≠ i → ordered h c) ∧ bridged n h i.

Lemma parent_lt i : 0 < i → parent i < i.
Proof. intros. unfold parent. apply Nat.Div0.div_lt_upper_bound. lia. Qed.

Lemma parent_children c i : 0 < c → parent c = i → c = 2 * i + 1 ∨ c = 2 * i + 2.
Proof.
  unfold parent. intros Hc <-. pose proof (Nat.div_mod_eq (c - 1) 2). pose proof (Nat.mod_upper_bound (c - 1) 2). lia.
Qed.

Lemma parent_left i : parent (2 * i + 1) = i.
Proof. unfold parent. replace (2 * i + 1 - 1) with (i * 2) by lia. apply Nat.div_mul. lia. Qed.

Lemma parent_right i : parent (2 * i + 2) = i.
Proof. unfold parent. replace (2 * i + 2 - 1) with (1 + i * 2) by lia. by rewrite Nat.div_add. Qed.

Lemma at_lookup h i x : h !! i = Some x → at_ h i = key x.
Proof. unfold at_. by intros ->. Qed.

Lemma less_at_spec h i j : i < length h → j < length h → less_at h i j = (at_ h i <? at_ h j)%Z.
Proof.
  intros [a Ha]%lookup_lt_is_Some_2 [b Hb]%lookup_lt_is_Some_2. unfold less_at, at_. by rewrite Ha, Hb.
Qed.

Lemma length_swap h i j : length (swap h i j) = length h.
Proof. unfold swap. destruct (h !! i), (h !! j); by rewrite ?length_insert. Qed.

Lemma swap_perm h i j : swap h i j ≡ₚ h.
Proof.
  unfold swap. destruct (h !! i) as [a|] eqn:Hi, (h !! j) as [b|] eqn:Hj; try done.
  by apply Permutation_insert_swap.
Qed.

Lemma at_swap h i j k : i < length h → j < length h →
  at_ (swap h i j) k = if decide (k = i) then at_ h j else if decide (k = j) then at_ h i else at_ h k.
Proof.
  intros [a Ha]%lookup_lt_is_Some_2 [b Hb]%lookup_lt_is_Some_2. unfold swap, at_. rewrite Ha, Hb.
  pose proof (lookup_lt_Some _ _ _ Ha). pose proof (lookup_lt_Some _ _ _ Hb).
  destruct (decide (k = j)) as [->|Hj].
  - rewrite list_lookup_insert_eq by (rewrite length_insert; lia). destruct (decide (j = i)) as [->|]; [|done].
    rewrite Hb in Ha. by injection Ha as ->.
  - rewrite list_lookup_insert_ne by done. destruct (decide (k = i)) as [->|Hi].
    + by rewrite list_lookup_insert_eq by lia.
    + by rewrite list_lookup_insert_ne by done.
Qed.

(** Going up ends the only disorder. *)
Lemma up_ok n fuel : ∀ h j, j < fuel → j < n → n <= length h → up_inv n h j →
  length (up fuel h j) = length h ∧ up fuel h j ≡ₚ h ∧ heap_upto n (up fuel h j) ∧
  ∀ k, j < k → up fuel h j !! k = h !! k.
Proof.
  induction fuel as [|fuel IH]; intros h j Hf Hj Hn [Hother Hbr]; [lia|]. cbn [up].
  destruct (decide (j = 0)) as [->|Hj0].
  { cbn. split_and!; try done. intros c Hc. apply Hother; lia. }
  pose proof (parent_lt j ltac:(lia)) as Hp. rewrite (proj2 (Nat.eqb_neq _ _)) by lia. cbn [orb].
  rewrite less_at_spec by lia. destruct (Z.ltb_spec (at_ h j) (at_ h (parent j))) as [Hlt|Hge]; cbn [negb].
  2: { split_and!; try done. intros c Hc. destruct (decide (c = j)) as [->|]; [done|by apply Hother]. }
  assert (∀ k, at_ (swap h (parent j) j) k = if decide (k = parent j) then at_ h j
    else if decide (k = j) then at_ h (parent j) else at_ h k) as Hat by (intros k; apply at_swap; lia).
  rewrite <- (length_swap h (parent j) j) in Hn |- *.
  destruct (IH (swap h (parent j) j) (parent j)) as (Hl & Hperm & Hheap & Htail); [lia|lia|lia| |].
  - split.
    + intros c Hc Hne. unfold ordered. rewrite !Hat. rewrite (decide_False (P := c = parent j)) by done.
      destruct (decide (c = j)) as [->|Hcj]; [rewrite decide_True by done; lia|].
      destruct (decide (parent c = parent j)) as [E|E].
      * specialize (Hother c Hc Hcj). unfold ordered in Hother. rewrite E in Hother. lia.
      * destruct (decide (parent c = j)) as [E'|E']; [|by apply Hother].
        apply (Hbr ltac:(lia) c); lia.
    + intros Hpos c Hc Hpc Hc0. rewrite !Hat. pose proof (parent_lt (parent j) Hpos).
      rewrite (decide_False (P := parent (parent j) = _)), (decide_False (P := parent (parent j) = j)) by lia.
      pose proof (parent_lt c Hc0). rewrite (decide_False (P := c = parent j)) by lia.
      assert (at_ h (parent (parent j)) <= at_ h (parent j))%Z by (apply (Hother (parent j)); lia).
      destruct (decide (c = j)) as [->|Hcj]; [done|]. specialize (Hother c ltac:(lia) Hcj). unfold ordered in Hother.
      rewrite Hpc in Hother. lia.
  - split_and!; [done| |done|].
    + rewrite Hperm. apply swap_perm.
    + intros k Hk. rewrite Htail by lia. unfold swap. destruct (h !! parent j), (h !! j); try done.
      by rewrite !list_lookup_insert_ne by lia.
Qed.

(** Going down leaves at most the disorder with the parent of where it began. *)
Lemma down_ok n fuel : ∀ h i, n - i < fuel → n <= length h → down_inv n h i →
  length (down fuel h i n) = length h ∧ down fuel h i n ≡ₚ h ∧ up_inv n (down fuel h i n) i ∧
  ((0 < i → ordered h i) → heap_upto n (down fuel h i n)) ∧ ∀ k, k < i ∨ n <= k → down fuel h i n !! k = h !! k.
Proof.
  induction fuel as [|fuel IH]; intros h i Hf Hn [Hother Hbr]; [lia|]. cbn [down].
  assert (∀ h', h' = h → (∀ c, 0 < c < n → parent c = i → ordered h c) →
    length h' = length h ∧ h' ≡ₚ h ∧ up_inv n h' i ∧ ((0 < i → ordered h i) → heap_upto n h') ∧
    ∀ k, k < i ∨ n <= k → h' !! k = h !! k) as Hstop.
  { intros h' -> Hch. split_and!; try done.
    - split; [|done]. intros c Hc Hne. destruct (decide (parent c = i)); [by apply Hch|by apply Hother].
    - intros Hi c Hc. destruct (decide (c = i)) as [->|]; [apply Hi; lia|].
      destruct (decide (parent c = i)); [by apply Hch|by apply Hother]. }
  set (j1 := 2 * i + 1). destruct (Nat.leb_spec n j1) as [Hleaf|Hj1].
  { apply Hstop; [done|]. intros c Hc Hpc. apply parent_children in Hpc; lia. }
  set (j := if (j1 + 1 <? n) && negb (less_at h j1 (j1 + 1)) then j1 + 1 else j1).
  assert (j < n ∧ parent j = i ∧ 0 < j ∧ i < j ∧ ∀ c, 0 < c < n → parent c = i → (at_ h j <= at_ h c)%Z)
    as (Hj & Hpj & Hj0 & Hij & Hmin).
  { subst j. destruct (Nat.ltb_spec (j1 + 1) n) as [Hj2|Hj2]; cbn [andb].
    - rewrite less_at_spec by lia. subst j1. destruct (Z.ltb_spec (at_ h (2 * i + 1)) (at_ h (2 * i + 1 + 1))); cbn [negb].
      + split_and!; [lia|apply parent_left|lia|lia|]. intros c Hc [-> | ->]%parent_children; [lia| |lia].
        replace (2 * i + 2) with (2 * i + 1 + 1) by lia. lia.
      + split_and!; [lia| |lia|lia|].
        * replace (2 * i + 1 + 1) with (2 * i + 2) by lia. apply parent_right.
        * intros c Hc [-> | ->]%parent_children; [lia| |lia]. replace (2 * i + 2) with (2 * i + 1 + 1) by lia. lia.
    - split_and!; [lia|apply parent_left|lia|lia|]. intros c Hc [-> | ->]%parent_children; subst j1; lia. }
  clearbody j. rewrite less_at_spec by lia. destruct (Z.ltb_spec (at_ h j) (at_ h i)) as [Hlt|Hge]; cbn [negb].
  2: { apply Hstop; [done|]. intros c Hc Hpc. unfold ordered. rewrite Hpc. specialize (Hmin c Hc Hpc). lia. }
  assert (∀ k, at_ (swap h i j) k = if decide (k = i) then at_ h j else if decide (k = j) then at_ h i else at_ h k)
    as Hat by (intros k; apply at_swap; lia).
  destruct (IH (swap h i j) j) as (Hl & Hperm & _ & Hheap & Hrest); [lia|by rewrite length_swap| |].
  - split.
    + intros c Hc Hcj Hpcj. unfold ordered. rewrite !Hat. destruct (decide (parent c = i)) as [E|E].
      * rewrite (decide_False (P := c = j)) by done. pose proof (parent_lt c ltac:(lia)).
        rewrite decide_False by lia. by apply Hmin.
      * rewrite (decide_False (P := parent c = j)), (decide_False (P := c = j)) by done.
        destruct (decide (c = i)) as [->|]; [|by apply Hother].
        apply (Hbr ltac:(lia) j); lia.
    + intros _ c Hc Hpc Hc0. rewrite !Hat, Hpj. rewrite decide_True by done. pose proof (parent_lt c Hc0).
      rewrite !decide_False by lia. specialize (Hother c ltac:(lia) ltac:(lia) ltac:(lia)). unfold ordered in Hother.
      by rewrite Hpc in Hother.
  - assert (heap_upto n (down fuel (swap h i j) j n)) as Hfin.
    { apply Hheap. intros _. unfold ordered. rewrite !Hat, Hpj, decide_True, decide_False, decide_True by lia. lia. }
    rewrite length_swap in Hl. split_and!; [done| | |done|].
    + rewrite Hperm. apply swap_perm.
    + split; [intros c Hc _; by apply Hfin|]. intros Hi c Hc Hpc Hc0.
      pose proof (Hfin c ltac:(lia)) as H1. pose proof (parent_lt c Hc0). pose proof (Hfin i ltac:(lia)) as H2.
      unfold ordered in H1, H2. rewrite Hpc in H1. lia.
    + intros k Hk. rewrite Hrest by lia. unfold swap. destruct (h !! i), (h !! j); try done.
      by rewrite !list_lookup_insert_ne by lia.
Qed.

(** The first element is a least one. *)
Lemma root_least h x : heap_ok h → h !! 0 = Some x → ∀ y, y ∈ h → (key x <= key y)%Z.
Proof.
  intros Hh H0 y (i & Hi)%list_elem_of_lookup. rewrite <- (at_lookup h 0 x H0), <- (at_lookup h i y Hi).
  apply lookup_lt_Some in Hi. clear y H0. induction i as [i IH] using lt_wf_ind.
  destruct (decide (i = 0)) as [->|Hne]; [lia|]. pose proof (parent_lt i ltac:(lia)).
  specialize (IH (parent i) ltac:(lia) ltac:(lia)). pose proof (Hh i ltac:(lia)) as Ho. unfold ordered in Ho. lia.
Qed.

Lemma heap_take n h : n <= length h → heap_upto n h → heap_ok (take n h).
Proof.
  intros Hn Hh i Hi. rewrite length_take in Hi. pose proof (parent_lt i ltac:(lia)). unfold ordered, at_.
  rewrite !lookup_take_lt by lia. apply Hh. lia.
Qed.

Lemma take_last_spec h n x : length h = S n → h !! n = Some x → take_last h = Some (x, take n h) ∧ h ≡ₚ x :: take n h.
Proof.
  intros Hl Hx. unfold take_last. rewrite last_lookup, Hl. cbn. rewrite Hx, Nat.sub_0_r. split; [done|].
  rewrite <- (take_drop_middle h n x Hx) at 1. rewrite (drop_ge h (S n)) by lia. by rewrite Permutation_app_comm.
Qed.

(** Everything but the last position, which is taken off. *)
Lemma take_last_heap h n x : length h = S n → heap_upto n h → h !! n = Some x →
  ∃ h', take_last h = Some (x, h') ∧ h ≡ₚ x :: h' ∧ heap_ok h'.
Proof.
  intros Hl Hh Hx. destruct (take_last_spec h n x Hl Hx) as [-> Hp]. exists (take n h). split_and!; [done..|].
  apply heap_take; [lia|done].
Qed.

(** Positions that a swap leaves alone. *)
Lemma ordered_swap h i n c : i < length h → n < length h → c ≠ i → c ≠ n → parent c ≠ i → parent c ≠ n →
  ordered h c → ordered (swap h i n) c.
Proof. intros Hi Hn ? ? ? ? Ho. unfold ordered. by rewrite !at_swap, !decide_False by done. Qed.

Lemma swap_lookup h i j x : i < length h → h !! j = Some x → swap h j i !! i = Some x.
Proof.
  intros [b Hb]%lookup_lt_is_Some_2 Hx. unfold swap. rewrite Hb, Hx. pose proof (lookup_lt_Some _ _ _ Hb).
  apply list_lookup_insert_eq. by rewrite length_insert.
Qed.

Lemma Push_ok x h : heap_ok h → heap_ok (Push x h) ∧ Push x h ≡ₚ x :: h.
Proof.
  intros Hh. unfold Push.
  assert (∀ k, k < length h → at_ (h ++ [x]) k = at_ h k) as Hat by (intros k Hk; unfold at_; by rewrite lookup_app_l).
  destruct (up_ok (S (length h)) (S (length h)) (h ++ [x]) (length h)) as (Hl & Hp & Hu & _); [lia|lia|rewrite length_app; cbn; lia| |].
  - split.
    + intros c Hc Hne. pose proof (parent_lt c ltac:(lia)). unfold ordered. rewrite !Hat by lia. apply Hh. lia.
    + intros _ c Hc Hpc Hc0. pose proof (parent_lt c Hc0). lia.
  - split; [|rewrite Hp; by rewrite Permutation_app_comm]. unfold heap_ok. rewrite Hl, length_app. cbn.
    by rewrite Nat.add_1_r.
Qed.

Lemma Pop_ok h : heap_ok h → h ≠ [] → ∃ x h', Pop h = Some (x, h') ∧ h ≡ₚ x :: h' ∧ heap_ok h' ∧
  h !! 0 = Some x ∧ ∀ y, y ∈ h → (key x <= key y)%Z.
Proof.
  intros Hh Hne. destruct h as [|x h0]; [done|]. clear Hne. set (h := x :: h0) in *. unfold Pop. set (n := length h - 1).
  assert (length h = S n) as Hlen by (subst n h; cbn; lia). assert (h !! 0 = Some x) as H0 by done. clearbody h n.
  destruct (down_ok n (S n) (swap h 0 n) 0) as (Hl & Hp & _ & Hu & Hrest); [lia|rewrite length_swap; lia| |].
  - split; [|intros ?; lia]. intros c Hc Hne Hpc. pose proof (parent_lt c ltac:(lia)).
    apply ordered_swap; try lia. apply Hh. lia.
  - rewrite length_swap in Hl. destruct (take_last_heap (down (S n) (swap h 0 n) 0 n) n x) as (h' & Ht & Hp' & Hh').
    + lia.
    + apply Hu. lia.
    + rewrite Hrest by lia. apply swap_lookup; [lia|done].
    + exists x, h'. split_and!; [done| |done|done|by apply root_least]. rewrite <- Hp', Hp. symmetry. apply swap_perm.
Qed.

Lemma Remove_ok h i x : heap_ok h → h !! i = Some x →
  ∃ h', Remove i h = Some (x, h') ∧ h ≡ₚ x :: h' ∧ heap_ok h'.
Proof.
  intros Hh Hi. pose proof (lookup_lt_Some _ _ _ Hi) as Hlt. unfold Remove. set (n := length h - 1).
  assert (length h = S n) as Hlen by (subst n; lia). clearbody n. destruct (Nat.eqb_spec n i) as [->|Hne]; cbn [negb].
  { apply (take_last_heap h i x); [done| |done]. intros c Hc. apply Hh. lia. }
  destruct (down_ok n (S n) (swap h i n) i) as (Hl & Hp & Hu & _ & Hrest); [lia|rewrite length_swap; lia| |].
  - split.
    + intros c Hc Hci Hpc. pose proof (parent_lt c ltac:(lia)). apply ordered_swap; try lia. apply Hh. lia.
    + intros Hi0 c Hc Hpc Hc0. pose proof (parent_lt i Hi0). pose proof (parent_lt c Hc0).
      rewrite !at_swap, !decide_False by lia. pose proof (Hh i ltac:(lia)) as H1. pose proof (Hh c ltac:(lia)) as H2.
      unfold ordered in H1, H2. rewrite Hpc in H2. lia.
  - rewrite length_swap in Hl. destruct (up_ok n (S i) (down (S n) (swap h i n) i n) i) as (Hl' & Hp' & Hu' & Hrest'); [lia|lia|lia|done|].
    destruct (take_last_heap (up (S i) (down (S n) (swap h i n) i n) i) n x) as (h' & Ht & Hp'' & Hh').
    + lia.
    + done.
    + rewrite Hrest', Hrest by lia. apply swap_lookup; [lia|done].
    + exists h'. split_and!; [done| |done]. rewrite <- Hp'', Hp', Hp. symmetry. apply swap_perm.
Qed.
End heap.
