(* ===== verification/TimedQueue.v ===== *)
(** * The rate limited queue of the node controller

    [pkg/controller/node/rate_limited_queue.go]: a priority queue of values that are
    to be processed at a time, in which a value is at most once, and the loop that
    processes the values that are due.

    A time is a number of nanoseconds since the zero time, and [time.Before] the
    order of numbers; a duration is an int64.  The operations of [UniqueQueue] hold its
    lock, so each is one step; [Try] does not, and what happens between its steps is
    part of its environment.  The rate limiter is an interface ([pkg/util/throttle.go]
    builds it from a third-party token bucket).  [None] is an index out of range, or
    a loop that runs out of fuel. *)

From S2P Require Import Prelude SetsString Heap.
#[local] Open Scope Z_scope.

Record TimedValue := mkTimedValue { Value : string; AddedAt : Z; ProcessAt : Z }.

#[export] Instance TimedValue_eq_dec : EqDecision TimedValue.
Proof. solve_decision. Defined.

(** The zero value of the type. *)
Definition zeroTimedValue : TimedValue := mkTimedValue "" 0 0.

(** The heap compares [ProcessAt] (the methods [Less], [Swap], [Push] and [Pop] of
    [TimedQueue] are the ones of [Heap]). *)
#[local] Abbreviation TimedQueue := (list TimedValue).
Definition heap_Push (x : TimedValue) (h : TimedQueue) : TimedQueue := Heap.Push ProcessAt x h.
Definition heap_Pop (h : TimedQueue) : option (TimedValue * TimedQueue) := Heap.Pop ProcessAt h.
Definition heap_Remove (i : nat) (h : TimedQueue) : option (TimedValue * TimedQueue) := Heap.Remove ProcessAt i h.

Record UniqueQueue := mkUniqueQueue { queue : TimedQueue; set : gset string }.

Definition uq_Add (value : TimedValue) (q : UniqueQueue) : bool * UniqueQueue :=
  if Has (set q) (Value value) then (false, q)
  else (true, mkUniqueQueue (heap_Push value (queue q)) (Insert (set q) [Value value])).

(** The first index with the value, as the loops of [Replace] and [Remove] find it. *)
Definition indexOf (v : string) (h : TimedQueue) : option nat := fst <$> list_find (λ x, Value x = v) h.

Definition uq_Replace (value : TimedValue) (q : UniqueQueue) : option (bool * UniqueQueue) :=
  match indexOf (Value value) (queue q) with
  | None => Some (false, q)
  | Some i =>
      match heap_Remove i (queue q) with
      | Some (_, h) => Some (true, mkUniqueQueue (heap_Push value h) (set q))
      | None => None
      end
  end.

Definition uq_Remove (value : string) (q : UniqueQueue) : option (bool * UniqueQueue) :=
  let set' := SetsString.Delete (set q) [value] in
  match indexOf value (queue q) with
  | None => Some (false, mkUniqueQueue (queue q) set')
  | Some i =>
      match heap_Remove i (queue q) with
      | Some (_, h) => Some (true, mkUniqueQueue h set')
      | None => None
      end
  end.

Definition uq_Get (q : UniqueQueue) : option ((TimedValue * bool) * UniqueQueue) :=
  if (length (queue q) =? 0)%nat then Some ((zeroTimedValue, false), q)
  else
    match heap_Pop (queue q) with
    | Some (result, h) => Some ((result, true), mkUniqueQueue h (SetsString.Delete (set q) [Value result]))
    | None => None
    end.

Definition uq_Head (q : UniqueQueue) : TimedValue * bool :=
  match queue q with [] => (zeroTimedValue, false) | result :: _ => (result, true) end.

(** The queue of [NewRateLimitedTimedQueue]; the limiter is in the environment. *)
Definition NewRateLimitedTimedQueue : UniqueQueue := mkUniqueQueue [] (NewString []).

(** ** The loop

    The world [W] holds the state of the limiter, of the clock and of everything that
    the action reaches.  The action runs without the lock: the queue that it leaves has
    the effects of the action and of the other goroutines since [Head]; [others] are
    the ones between the end of a round and the next [Head]. *)

Class TryEnvironment (W : Type) := {
  TryAccept : W → bool * W;
  now : W → Z * W;
  action : TimedValue → UniqueQueue → W → (bool * Z) * (UniqueQueue * W);
  others : UniqueQueue → W → UniqueQueue * W;
}.

Section try.
Context {W : Type} `{TryEnvironment W}.

Fixpoint tryLoop (fuel : nat) (val : TimedValue) (ok : bool) (q : UniqueQueue) (w : W) : option (UniqueQueue * W) :=
  match fuel with
  | O => None
  | S fuel =>
      if negb ok then Some (q, w)
      else
        let '(accepted, w) := TryAccept w in
        if negb accepted then Some (q, w)
        else
          let '(n, w) := now w in
          if n <? ProcessAt val then Some (q, w)
          else
            let '((ok, wait), (q, w)) := action val q w in
            match (if negb ok
                   then uq_Replace (mkTimedValue (Value val) (AddedAt val) (n + int64 (wait + 1))) q
                   else uq_Remove (Value val) q) with
            | None => None
            | Some (_, q) =>
                let '(q, w) := others q w in
                let '(val, ok) := uq_Head q in
                tryLoop fuel val ok q w
            end
  end.

Definition Try (fuel : nat) (q : UniqueQueue) (w : W) : option (UniqueQueue * W) :=
  let '(val, ok) := uq_Head q in tryLoop fuel val ok q w.

Definition Add (value : string) (q : UniqueQueue) (w : W) : bool * (UniqueQueue * W) :=
  let '(n, w) := now w in
  let '(r, q) := uq_Add (mkTimedValue value n n) q in
  (r, (q, w)).
End try.

Definition Remove (value : string) (q : UniqueQueue) : option (bool * UniqueQueue) := uq_Remove value q.

(** ** The specification: a map from values to entries *)

Definition entries (h : TimedQueue) : gmap string TimedValue := list_to_map ((λ x, (Value x, x)) <$> h).

(** What holds of every queue: the heap order, no value twice, and the set of the
    values that are in the heap. *)
Definition unique_ok (q : UniqueQueue) : Prop :=
  heap_ok ProcessAt (queue q) ∧ NoDup (Value <$> queue q) ∧ set q = list_to_set (Value <$> queue q).

Inductive queue_op :=
  | OpAdd (x : TimedValue) | OpReplace (x : TimedValue) | OpRemove (v : string) | OpGet | OpHead.

Inductive queue_answer := Answer (b : bool) | Item (x : TimedValue) (b : bool).

Definition run_op (o : queue_op) (q : UniqueQueue) : option (queue_answer * UniqueQueue) :=
  match o with
  | OpAdd x => let '(b, q) := uq_Add x q in Some (Answer b, q)
  | OpReplace x => match uq_Replace x q with Some (b, q) => Some (Answer b, q) | None => None end
  | OpRemove v => match uq_Remove v q with Some (b, q) => Some (Answer b, q) | None => None end
  | OpGet => match uq_Get q with Some ((x, b), q) => Some (Item x b, q) | None => None end
  | OpHead => let '(x, b) := uq_Head q in Some (Item x b, q)
  end.

Fixpoint run_ops (os : list queue_op) (q : UniqueQueue) : option (list queue_answer * UniqueQueue) :=
  match os with
  | [] => Some ([], q)
  | o :: os =>
      match run_op o q with
      | None => None
      | Some (r, q) => match run_ops os q with Some (rs, q) => Some (r :: rs, q) | None => None end
      end
  end.

(** The first entry: one with the least time, or nothing in an empty queue. *)
Definition spec_first (m : gmap string TimedValue) (r : queue_answer) : Prop :=
  (m = ∅ ∧ r = Item zeroTimedValue false) ∨
  ∃ x, m !! Value x = Some x ∧ r = Item x true ∧ ∀ v y, m !! v = Some y → ProcessAt x <= ProcessAt y.

Definition spec_op (o : queue_op) (m : gmap string TimedValue) (r : queue_answer) (m' : gmap string TimedValue) : Prop :=
  match o with
  | OpAdd x => r = Answer (bool_decide (m !! Value x = None)) ∧
      m' = (if decide (m !! Value x = None) then <[Value x := x]> m else m)
  | OpReplace x => r = Answer (bool_decide (is_Some (m !! Value x))) ∧
      m' = (if decide (is_Some (m !! Value x)) then <[Value x := x]> m else m)
  | OpRemove v => r = Answer (bool_decide (is_Some (m !! v))) ∧ m' = delete v m
  | OpGet => spec_first m r ∧ m' = match r with Item x true => delete (Value x) m | _ => m end
  | OpHead => spec_first m r ∧ m' = m
  end.

Inductive spec_ops : list queue_op → gmap string TimedValue → list queue_answer → gmap string TimedValue → Prop :=
  | spec_ops_nil m : spec_ops [] m [] m
  | spec_ops_cons o os m1 r m2 rs m3 : spec_op o m1 r m2 → spec_ops os m2 rs m3 → spec_ops (o :: os) m1 (r :: rs) m3.

(** ** Every operation refines the specification *)
Section facts.
Implicit Types (h : TimedQueue) (q : UniqueQueue) (x y : TimedValue) (v : string).

Lemma entries_cons x h : entries (x :: h) = <[Value x := x]> (entries h).
Proof. done. Qed.

Lemma entries_None h v : entries h !! v = None ↔ v ∉ (Value <$> h).
Proof.
  unfold entries. rewrite <- not_elem_of_list_to_map. rewrite <- list_fmap_compose. done.
Qed.

Lemma entries_Some h v x : NoDup (Value <$> h) → (entries h !! v = Some x ↔ x ∈ h ∧ Value x = v).
Proof.
  intros Hnd. unfold entries. rewrite <- elem_of_list_to_map by (by rewrite <- list_fmap_compose).
  rewrite list_elem_of_fmap. naive_solver.
Qed.

Lemma entries_is_Some h v : is_Some (entries h !! v) ↔ v ∈ (Value <$> h).
Proof.
  rewrite <- not_eq_None_Some, entries_None. split; [|tauto]. intros. by apply dec_stable.
Qed.

Lemma entries_perm h h' : NoDup (Value <$> h) → h ≡ₚ h' → entries h = entries h'.
Proof.
  intros Hnd Hp. apply list_to_map_proper; [by rewrite <- list_fmap_compose|]. by rewrite Hp.
Qed.

Lemma entries_inj h h' : NoDup (Value <$> h) → NoDup (Value <$> h') → entries h = entries h' → h ≡ₚ h'.
Proof.
  assert (∀ l, NoDup (Value <$> l) → l ≡ₚ (map_to_list (entries l)).*2) as Hl.
  { intros l Hnd. unfold entries. rewrite map_to_list_to_map by (by rewrite <- list_fmap_compose).
    rewrite <- list_fmap_compose. by rewrite list_fmap_id. }
  intros H1 H2 E. by rewrite (Hl h), (Hl h'), E by done.
Qed.

(** Taking one element out of a heap without duplicates. *)
Lemma entries_without h x h' : NoDup (Value <$> h) → h ≡ₚ x :: h' →
  NoDup (Value <$> h') ∧ (Value x ∉ (Value <$> h')) ∧ entries h' = delete (Value x) (entries h) ∧
  (list_to_set (Value <$> h') : gset string) = list_to_set (Value <$> h) ∖ {[Value x]}.
Proof.
  intros Hnd Hp. assert (NoDup (Value <$> x :: h')) as Hnd' by (by rewrite <- Hp).
  rewrite (entries_perm _ _ Hnd Hp), entries_cons. rewrite fmap_cons in Hnd'. apply NoDup_cons in Hnd' as [Hx Hnd'].
  split_and!; [done|done| |].
  - by rewrite delete_insert_id by (by apply entries_None).
  - rewrite Hp. cbn. set_solver.
Qed.

Lemma unique_ok_new : unique_ok NewRateLimitedTimedQueue.
Proof. split_and!; [intros i Hi; cbn in Hi; lia|constructor|done]. Qed.

Lemma indexOf_Some v h i : indexOf v h = Some i → ∃ x, h !! i = Some x ∧ Value x = v.
Proof.
  unfold indexOf. destruct (list_find _ h) as [[j x]|] eqn:E; [|done]. intros [= <-].
  apply list_find_Some in E as (? & ? & _). eauto.
Qed.

Lemma indexOf_None v h : indexOf v h = None → v ∉ (Value <$> h).
Proof.
  unfold indexOf. destruct (list_find _ h) as [[j x]|] eqn:E; [done|]. intros _.
  apply list_find_None in E. rewrite list_elem_of_fmap. intros (x & -> & Hx). by apply (proj1 (Forall_forall _ h) E x Hx).
Qed.

(** What [Replace] and [Remove] do first. *)
Lemma remove_found v q i : unique_ok q → indexOf v (queue q) = Some i →
  ∃ x h, heap_Remove i (queue q) = Some (x, h) ∧ heap_ok ProcessAt h ∧ NoDup (Value <$> h) ∧ (v ∉ (Value <$> h)) ∧
    is_Some (entries (queue q) !! v) ∧ entries h = delete v (entries (queue q)) ∧
    (list_to_set (Value <$> h) : gset string) = set q ∖ {[v]}.
Proof.
  intros (Hh & Hnd & Hset) (x & Hi & <-)%indexOf_Some.
  destruct (Remove_ok ProcessAt (queue q) i x Hh Hi) as (h & Hr & Hp & Hh').
  destruct (entries_without _ _ _ Hnd Hp) as (? & ? & ? & ?). exists x, h. rewrite Hset. split_and!; try done.
  apply entries_is_Some, list_elem_of_fmap_2. by eapply list_elem_of_lookup_2.
Qed.

Lemma push_fresh x h : heap_ok ProcessAt h → NoDup (Value <$> h) → Value x ∉ (Value <$> h) →
  unique_ok (mkUniqueQueue (heap_Push x h) ({[Value x]} ∪ list_to_set (Value <$> h))) ∧
  entries (heap_Push x h) = <[Value x := x]> (entries h).
Proof.
  intros Hh Hnd Hx. destruct (Push_ok ProcessAt x h Hh) as [Hh' Hp].
  assert (NoDup (Value <$> heap_Push x h)) as Hnd'.
  { unfold heap_Push. rewrite Hp. by apply NoDup_cons. }
  split; [split_and!; [done|done|]|].
  - cbn. unfold heap_Push. by rewrite Hp.
  - by rewrite (entries_perm _ _ Hnd' Hp).
Qed.

Lemma uq_Add_spec x q : unique_ok q → ∃ q', uq_Add x q = (bool_decide (entries (queue q) !! Value x = None), q') ∧
  unique_ok q' ∧ entries (queue q') =
    (if decide (entries (queue q) !! Value x = None) then <[Value x := x]> (entries (queue q)) else entries (queue q)).
Proof.
  intros Hok. pose proof Hok as (Hh & Hnd & Hset). unfold uq_Add. destruct (Has (set q) (Value x)) eqn:E.
  - apply Has_true in E. rewrite Hset in E. apply elem_of_list_to_set, entries_is_Some in E as [y E].
    rewrite E. exists q. by rewrite decide_False, bool_decide_eq_false_2 by done.
  - apply Has_false in E. rewrite Hset in E. rewrite elem_of_list_to_set in E.
    rewrite decide_True, bool_decide_eq_true_2 by (by apply entries_None).
    destruct (push_fresh x (queue q) Hh Hnd E) as [? ?]. eexists. split; [done|]. split; [|done].
    rewrite Insert_union, Hset. cbn. by rewrite union_empty_r_L.
Qed.

Lemma uq_Replace_spec x q : unique_ok q → ∃ q', uq_Replace x q = Some (bool_decide (is_Some (entries (queue q) !! Value x)), q') ∧
  unique_ok q' ∧ entries (queue q') =
    (if decide (is_Some (entries (queue q) !! Value x)) then <[Value x := x]> (entries (queue q)) else entries (queue q)).
Proof.
  intros Hok. unfold uq_Replace. destruct (indexOf (Value x) (queue q)) as [i|] eqn:E.
  - destruct (remove_found _ _ _ Hok E) as (y & h & -> & Hh & Hnd & Hx & Hin & Hent & Hset).
    rewrite decide_True, bool_decide_eq_true_2 by done. destruct (push_fresh x h Hh Hnd Hx) as [Hok' Hent'].
    eexists. split; [done|]. split.
    + replace (set q) with ({[Value x]} ∪ list_to_set (Value <$> h) : gset string); [done|].
      rewrite Hset. destruct Hok as (_ & _ & ->). apply entries_is_Some in Hin. rewrite <- union_difference_singleton_L; [done|].
      by apply elem_of_list_to_set.
    + cbn [queue]. by rewrite Hent', Hent, insert_delete_eq.
  - apply indexOf_None in E. rewrite decide_False, bool_decide_eq_false_2 by (by rewrite entries_is_Some).
    by exists q.
Qed.

Lemma uq_Remove_spec v q : unique_ok q → ∃ q', uq_Remove v q = Some (bool_decide (is_Some (entries (queue q) !! v)), q') ∧
  unique_ok q' ∧ entries (queue q') = delete v (entries (queue q)).
Proof.
  intros Hok. unfold uq_Remove. rewrite Delete_difference. cbn [list_to_set]. rewrite union_empty_r_L.
  destruct (indexOf v (queue q)) as [i|] eqn:E.
  - destruct (remove_found _ _ _ Hok E) as (y & h & -> & Hh & Hnd & Hx & Hin & Hent & Hset).
    rewrite bool_decide_eq_true_2 by done. eexists. split_and!; [done..|]. by cbn.
  - apply indexOf_None in E. rewrite bool_decide_eq_false_2 by (by rewrite entries_is_Some).
    destruct Hok as (? & ? & Hset). eexists. split_and!; [done|split_and!; [done..|]|].
    + cbn. rewrite Hset. apply difference_disjoint_L. intros z Hz. rewrite elem_of_list_to_set in Hz. set_solver.
    + cbn. symmetry. apply delete_id. by apply entries_None.
Qed.

(** What [Head] returns, and [Get] takes out. *)
Lemma uq_Head_spec q : unique_ok q → let '(x, b) := uq_Head q in spec_first (entries (queue q)) (Item x b).
Proof.
  intros (Hh & Hnd & _). unfold uq_Head. destruct (queue q) as [|x h] eqn:E; [by left|]. right. exists x.
  split_and!; [by rewrite entries_Some by done; split; [left|]|done|].
  intros v y [Hy _]%entries_Some; [|done]. by apply (root_least ProcessAt (x :: h) x Hh).
Qed.

Lemma uq_Get_spec q : unique_ok q → ∃ x b q', uq_Get q = Some ((x, b), q') ∧ unique_ok q' ∧
  spec_first (entries (queue q)) (Item x b) ∧
  entries (queue q') = (if b then delete (Value x) (entries (queue q)) else entries (queue q)).
Proof.
  intros (Hh & Hnd & Hset). unfold uq_Get. destruct (queue q) as [|x0 h0] eqn:E.
  { exists zeroTimedValue, false, q. rewrite E. split_and!; [done|by split_and!; rewrite ?E|by left|done]. }
  rewrite <- E in *. assert (queue q ≠ []) as Hne by congruence. clear E.
  replace (length (queue q) =? 0)%nat with false by (symmetry; apply Nat.eqb_neq; by destruct (queue q)).
  destruct (Pop_ok ProcessAt (queue q) Hh Hne) as (x & h & Hpop & Hp & Hh' & H0 & Hleast).
  unfold heap_Pop. rewrite Hpop. destruct (entries_without _ _ _ Hnd Hp) as (? & ? & ? & Hset').
  exists x, true. eexists. split_and!; [done|split_and!; [done..|]| |done].
  - cbn. rewrite Delete_difference, Hset. cbn. rewrite Hset'. set_solver.
  - right. exists x. split_and!; [|done|].
    + apply entries_Some; [done|]. split; [|done]. by eapply list_elem_of_lookup_2.
    + intros v y [Hy _]%entries_Some; [|done]. by apply Hleast.
Qed.

Lemma run_op_refines o q : unique_ok q →
  ∃ r q', run_op o q = Some (r, q') ∧ unique_ok q' ∧ spec_op o (entries (queue q)) r (entries (queue q')).
Proof.
  intros Hok. destruct o as [x|x|v| |]; cbn [run_op spec_op].
  - destruct (uq_Add_spec x q Hok) as (q' & -> & ? & ?). eauto 10.
  - destruct (uq_Replace_spec x q Hok) as (q' & -> & ? & ?). eauto 10.
  - destruct (uq_Remove_spec v q Hok) as (q' & -> & ? & ?). eauto 10.
  - destruct (uq_Get_spec q Hok) as (x & b & q' & -> & ? & ? & ?). eexists _, _. split_and!; [done..|]. by destruct b.
  - pose proof (uq_Head_spec q Hok). destruct (uq_Head q) as [x b]. eauto 10.
Qed.

Lemma run_ops_refines os q : unique_ok q →
  ∃ rs q', run_ops os q = Some (rs, q') ∧ unique_ok q' ∧ spec_ops os (entries (queue q)) rs (entries (queue q')).
Proof.
  revert q. induction os as [|o os IH]; intros q Hok; cbn [run_ops].
  { eexists _, _. split_and!; [done..|constructor]. }
  destruct (run_op_refines o q Hok) as (r & q1 & -> & Hok1 & H1). destruct (IH q1 Hok1) as (rs & q2 & -> & Hok2 & H2).
  eexists _, _. split_and!; [done..|]. by econstructor.
Qed.
End facts.

(** C31: from the new queue on, any sequence of operations runs without an index out
    of range, keeps the heap order, the uniqueness of the values and the set of values,
    and gives the answers of a map from values to entries, in which [Get] and [Head]
    choose an entry with the least time. *)
Theorem unique_queue_refines_map (os : list queue_op) :
  ∃ rs q, run_ops os NewRateLimitedTimedQueue = Some (rs, q) ∧ unique_ok q ∧ spec_ops os ∅ rs (entries (queue q)).
Proof. apply (run_ops_refines os _ unique_ok_new). Qed.

(** ** Try, when nothing interferes

    The clock stands at [t], the limiter allows everything, the action answers by
    the value, and the world is the list of the values that it was called with. *)
Section undisturbed.
Context (t : Z) (answer : TimedValue → bool * Z).

Definition undisturbed : TryEnvironment (list TimedValue) := {|
  TryAccept := λ calls, (true, calls);
  now := λ calls, (t, calls);
  action := λ x q calls, (answer x, (q, calls ++ [x]));
  others := λ q calls, (q, calls);
|}.
#[local] Existing Instance undisturbed.

Definition due (x : TimedValue) : Prop := ProcessAt x <= t.

#[global] Instance due_dec x : Decision (due x).
Proof. unfold due. apply _. Defined.

(** The entry of a value after it was processed: none, or a later one. *)
Definition retry (x : TimedValue) : TimedValue :=
  mkTimedValue (Value x) (AddedAt x) (t + int64 ((answer x).2 + 1)).
Definition settle (x : TimedValue) : option TimedValue :=
  if decide (due x) then if (answer x).1 then None else Some (retry x) else Some x.

Context (waits : ∀ x, (answer x).1 = false → 0 <= (answer x).2 < 2 ^ 63 - 1).

Lemma retry_later x : (answer x).1 = false → ¬ due (retry x).
Proof. intros Hx%waits. unfold due, retry. cbn. rewrite int64_id by lia. lia. Qed.

(** One round on a due head [x]. *)
Lemma round_spec fuel x h s calls : unique_ok (mkUniqueQueue (x :: h) s) → due x →
  ∃ q, Try (S fuel) (mkUniqueQueue (x :: h) s) calls = Try fuel q (calls ++ [x]) ∧ unique_ok q ∧
    queue q ≡ₚ if (answer x).1 then h else retry x :: h.
Proof.
  intros Hok Hdue. pose proof Hok as (_ & Hnd & _). cbn [queue] in Hnd. rewrite fmap_cons in Hnd.
  apply NoDup_cons in Hnd as [Hx Hnd]. unfold Try at 1. cbn [uq_Head queue tryLoop negb].
  cbn [TryAccept now action others undisturbed].
  destruct (Z.ltb_spec t (ProcessAt x)) as [Hlt|_]; [unfold due in Hdue; lia|].
  destruct (answer x) as [b wait] eqn:Ea.
  assert (mkTimedValue (Value x) (AddedAt x) (t + int64 (wait + 1)) = retry x) as -> by (unfold retry; by rewrite Ea).
  destruct b; cbn [negb fst].
  - destruct (uq_Remove_spec (Value x) _ Hok) as (q & -> & Hok' & Hent). exists q. split_and!; [done|done|].
    apply entries_inj; [by destruct Hok' as (_ & ? & _)|done|]. rewrite Hent. cbn [queue].
    rewrite entries_cons. apply delete_insert_id. by apply entries_None.
  - destruct (uq_Replace_spec (retry x) _ Hok) as (q & -> & Hok' & Hent). exists q. split_and!; [done|done|].
    apply entries_inj; [by destruct Hok' as (_ & ? & _)|by apply NoDup_cons|].
    rewrite Hent. cbn [queue]. rewrite !entries_cons. change (Value (retry x)) with (Value x).
    rewrite lookup_insert_eq, decide_True by done.
    by rewrite insert_insert_eq.
Qed.

(** A head that is not due ends the loop, and then nothing is due. *)
Lemma no_round fuel x h s calls : ¬ due x → Try (S fuel) (mkUniqueQueue (x :: h) s) calls = Some (mkUniqueQueue (x :: h) s, calls).
Proof.
  unfold due. intros Hx. unfold Try. cbn [uq_Head queue tryLoop negb]. cbn [TryAccept now undisturbed].
  destruct (Z.ltb_spec t (ProcessAt x)) as [_|Hge]; [done|lia].
Qed.

Lemma head_least x h s : unique_ok (mkUniqueQueue (x :: h) s) → ∀ y, y ∈ x :: h → ProcessAt x <= ProcessAt y.
Proof. intros (Hh & _). by apply (root_least ProcessAt (x :: h)). Qed.

Lemma settle_none_due h : (∀ y, y ∈ h → ¬ due y) → filter due h = [] ∧ omap settle h = h.
Proof.
  induction h as [|y h IH]; intros Hh; [done|]. destruct IH as [IH1 IH2]; [intros z Hz; apply Hh; by right|].
  assert (¬ due y) as Hy by (apply Hh; by left). rewrite filter_cons_False by done. cbn. unfold settle at 1.
  rewrite decide_False by done. split; [done|]. by f_equal.
Qed.

Lemma rounds_spec fuel : ∀ q calls, unique_ok q → (length (filter due (queue q)) < fuel)%nat →
  ∃ q' log, Try fuel q calls = Some (q', calls ++ log) ∧ unique_ok q' ∧ log ≡ₚ filter due (queue q) ∧
    StronglySorted (λ x y, ProcessAt x <= ProcessAt y) log ∧ queue q' ≡ₚ omap settle (queue q).
Proof.
  induction fuel as [|fuel IH]; intros [[|x h] s] calls Hok Hf; [lia..| |]; cbn [queue] in *.
  { eexists _, []. rewrite app_nil_r. split_and!; [done..|constructor|done]. }
  destruct (decide (due x)) as [Hdue|Hnot].
  2: { destruct (settle_none_due (x :: h)) as [-> ->].
       { intros y Hy Hd. apply Hnot. pose proof (head_least _ _ _ Hok y Hy). unfold due in *. lia. }
       eexists _, []. rewrite no_round, app_nil_r by done. split_and!; [done..|constructor|done]. }
  rewrite filter_cons_True in Hf |- * by done. cbn [length] in Hf.
  destruct (round_spec fuel x h s calls Hok Hdue) as (q1 & -> & Hok1 & Hq1).
  assert (filter due (queue q1) ≡ₚ filter due h ∧ omap settle (queue q1) ≡ₚ omap settle (x :: h)) as [Hd1 Ho1].
  { pose proof (retry_later x) as Hl. rewrite Hq1. cbn [omap list_omap]. assert (settle x =
      if (answer x).1 then None else Some (retry x)) as -> by (unfold settle; by rewrite decide_True by done).
    destruct (answer x).1; [done|]. specialize (Hl eq_refl). rewrite filter_cons_False by done. cbn [omap list_omap].
    assert (settle (retry x) = Some (retry x)) as -> by (unfold settle; by rewrite decide_False by done). done. }
  destruct (IH q1 (calls ++ [x]) Hok1) as (q2 & log & -> & Hok2 & Hlog & Hs & Hq2); [rewrite Hd1; lia|].
  exists q2, (x :: log). split_and!; [by rewrite <- app_assoc|done|by rewrite Hlog, Hd1| |by rewrite Hq2].
  constructor; [done|]. apply Forall_forall. intros y. rewrite Hlog, Hd1, list_elem_of_filter. intros [_ Hy].
  apply (head_least _ _ _ Hok). by right.
Qed.

(** C32: with the clock standing and nothing else running, [Try] ends after one round more
    than there are due values; it calls the action once on each of these, in the order
    of their times, and leaves the values that are not due, those that were processed
    being gone and the others to be retried after the time that was asked for.  The
    durations must leave room for the nanosecond that is added to them. *)
Theorem Try_processes_due q : unique_ok q →
  ∃ q' log, Try (S (length (filter due (queue q)))) q [] = Some (q', log) ∧ unique_ok q' ∧
    log ≡ₚ filter due (queue q) ∧ StronglySorted (λ x y, ProcessAt x <= ProcessAt y) log ∧
    queue q' ≡ₚ omap settle (queue q).
Proof. intros Hok. apply (rounds_spec _ q [] Hok). lia. Qed.
End undisturbed.

(** ** Try, in any environment *)
Section anywhere.
Context {W : Type} `{TryEnvironment W}.

(** The environment keeps the queues in order (it uses their operations), and the
    limiter stops accepting: [budget] bounds how often it still does. *)
Context (budget : W → nat).
Context (accept_spends : ∀ w w', TryAccept w = (true, w') → (budget w' < budget w)%nat).
Context (now_keeps : ∀ w, (budget (now w).2 <= budget w)%nat).
Context (action_keeps : ∀ x q w r q' w', unique_ok q → action x q w = (r, (q', w')) →
  unique_ok q' ∧ (budget w' <= budget w)%nat).
Context (others_keep : ∀ q w q' w', unique_ok q → others q w = (q', w') → unique_ok q' ∧ (budget w' <= budget w)%nat).

Lemma tryLoop_limited fuel : ∀ val ok q w, unique_ok q → (budget w < fuel)%nat →
  ∃ q' w', tryLoop fuel val ok q w = Some (q', w') ∧ unique_ok q'.
Proof.
  induction fuel as [|fuel IH]; intros val ok q w Hok Hf; [lia|]. cbn [tryLoop].
  destruct ok; cbn [negb]; [|by eauto].
  destruct (TryAccept w) as [[] w1] eqn:Ha; cbn [negb]; [|by eauto]. apply accept_spends in Ha.
  pose proof (now_keeps w1) as Hn. destruct (now w1) as [n w2]. cbn [snd] in Hn.
  destruct (n <? ProcessAt val); [by eauto|].
  destruct (action val q w2) as [[ok wait] [q1 w3]] eqn:Hact. apply action_keeps in Hact as [Hok1 Hw3]; [|done].
  assert (∃ b q2, (if negb ok then uq_Replace (mkTimedValue (Value val) (AddedAt val) (n + int64 (wait + 1))) q1
    else uq_Remove (Value val) q1) = Some (b, q2) ∧ unique_ok q2) as (b & q2 & -> & Hok2).
  { destruct ok; cbn [negb].
    - destruct (uq_Remove_spec (Value val) q1 Hok1) as (q2 & -> & ? & _). eauto.
    - destruct (uq_Replace_spec (mkTimedValue (Value val) (AddedAt val) (n + int64 (wait + 1))) q1 Hok1) as (q2 & -> & ? & _). eauto. }
  destruct (others q2 w3) as [q3 w4] eqn:Ho. apply others_keep in Ho as [Hok3 Hw4]; [|done].
  destruct (uq_Head q3) as [val' ok']. apply IH; [done|lia].
Qed.

(** Whatever the action and the other goroutines do to the queue through its operations,
    and however the clock moves, [Try] has no index out of range, keeps the queue in
    order, and ends after as many rounds as the limiter accepts. *)
Theorem Try_limited q w : unique_ok q →
  ∃ q' w', Try (S (budget w)) q w = Some (q', w') ∧ unique_ok q'.
Proof.
  intros Hok. unfold Try. destruct (uq_Head q) as [val ok]. apply tryLoop_limited; [done|lia].
Qed.
End anywhere.

(** ** Try, when its queue is left alone

    The action and the other goroutines do not touch the queue (its user holds a lock);
    they keep an invariant of the world. *)
Section left_alone.
Context {W : Type} `{TryEnvironment W} (I : W → Prop) (P : string → Z → Prop).
Context (accept_keeps : ∀ w, I w → I (TryAccept w).2).
Context (now_keeps : ∀ w, I w → I (now w).2).
Context (action_keeps : ∀ x q w r q' w', I w → action x q w = (r, (q', w')) → q' = q ∧ I w').
Context (others_keep : ∀ q w q' w', I w → others q w = (q', w') → q' = q ∧ I w').

Definition added_at (q : UniqueQueue) : Prop := ∀ v x, entries (queue q) !! v = Some x → P v (AddedAt x).

(** The entries keep the times when they were added. *)
Lemma Try_keeps_added fuel : ∀ q w q' w', unique_ok q → added_at q → I w → Try fuel q w = Some (q', w') →
  unique_ok q' ∧ added_at q' ∧ I w'.
Proof.
  induction fuel as [|fuel IH]; intros q w q' w' Hok Hq Hw; unfold Try; destruct (uq_Head q) as [val ok] eqn:Hhead; cbn [tryLoop]; [done|].
  destruct ok; cbn [negb]; [|by intros [= <- <-]].
  specialize (accept_keeps w Hw). destruct (TryAccept w) as [[] w1]; cbn [negb fst snd] in *; [|by intros [= <- <-]].
  specialize (now_keeps w1 accept_keeps). destruct (now w1) as [n w2]. cbn [snd] in now_keeps.
  destruct (n <? ProcessAt val); [by intros [= <- <-]|].
  destruct (action val q w2) as [[ok wait] [q1 w3]] eqn:Hact. apply action_keeps in Hact as [-> Hw3]; [|done].
  assert (entries (queue q) !! Value val = Some val) as Hval.
  { pose proof (uq_Head_spec q Hok) as Hs. rewrite Hhead in Hs. destruct Hs as [[_ ?]|(x & Hx & [= ->] & _)]; done. }
  assert (∃ b q2, (if negb ok then uq_Replace (mkTimedValue (Value val) (AddedAt val) (n + int64 (wait + 1))) q
    else uq_Remove (Value val) q) = Some (b, q2) ∧ unique_ok q2 ∧ added_at q2) as (b & q2 & -> & Hok2 & Hq2).
  { destruct ok; cbn [negb].
    - destruct (uq_Remove_spec (Value val) q Hok) as (q2 & -> & ? & He). eexists _, q2. split_and!; [done..|].
      intros v x. rewrite He, lookup_delete_Some. intros [_ ?]. by eapply Hq.
    - destruct (uq_Replace_spec (mkTimedValue (Value val) (AddedAt val) (n + int64 (wait + 1))) q Hok) as (q2 & -> & ? & He).
      eexists _, q2. split_and!; [done..|]. intros v x. rewrite He. case_decide; [|by apply Hq].
      rewrite lookup_insert_Some. intros [[<- <-]|[_ ?]]; [by apply (Hq _ val)|by eapply Hq]. }
  destruct (others q2 w3) as [q3 w4] eqn:Ho. apply others_keep in Ho as [-> Hw4]; [|done].
  intros Hrun. apply (IH q2 w4); [done..|]. exact Hrun.
Qed.
End left_alone.

(** A value that is removed and added again while its action runs is taken out when
    the action succeeds: the new addition, which was reported as made, is lost. *)
Theorem addition_during_action_lost {W} `{TryEnvironment W} fuel x q w w1 n w2 y q0 q1 wait w3 :
  unique_ok q → uq_Head q = (x, true) → TryAccept w = (true, w1) → now w1 = (n, w2) → ProcessAt x <= n →
  uq_Remove (Value x) q = Some (true, q0) → Value y = Value x → uq_Add y q0 = (true, q1) →
  action x q w2 = ((true, wait), (q1, w3)) →
  ∃ q2, Try (S fuel) q w = (let '(q2, w4) := others q2 w3 in Try fuel q2 w4) ∧ entries (queue q2) !! Value y = None.
Proof.
  intros Hok Hhead Hacc Hnow Hdue Hrem Hy Hadd Hact.
  destruct (uq_Remove_spec (Value x) q Hok) as (q0' & E & Hok0 & _). rewrite Hrem in E. injection E as _ <-.
  destruct (uq_Add_spec y q0 Hok0) as (q1' & E & Hok1 & _). rewrite Hadd in E. injection E as _ <-.
  destruct (uq_Remove_spec (Value x) q1 Hok1) as (q2 & E2 & _ & Hent).
  exists q2. split; [|by rewrite Hent, Hy, lookup_delete_eq].
  unfold Try at 1. rewrite Hhead. cbn [tryLoop negb]. rewrite Hacc. cbn [negb]. rewrite Hnow.
  destruct (Z.ltb_spec n (ProcessAt x)) as [|_]; [lia|]. rewrite Hact. cbn [negb]. rewrite E2.
  destruct (others q2 w3) as [q3 w4]. done.
Qed.

(** ** A concrete queue *)
Module Demo.
Definition a : TimedValue := mkTimedValue "a" 1 3.
Definition b : TimedValue := mkTimedValue "b" 1 7.
Definition c : TimedValue := mkTimedValue "c" 1 20.
Definition q : UniqueQueue := mkUniqueQueue [a; c; b] (NewString ["a"; "b"; "c"]).

Lemma q_ok : unique_ok q.
Proof.
  split_and!; [|apply (bool_decide_unpack _); by vm_compute|apply (bool_decide_unpack _); by vm_compute].
  intros [|[|[|i]]] Hi; cbn in Hi; try lia; by vm_compute.
Defined.

(** [b] is to be retried five nanoseconds later. *)
Definition answer (x : TimedValue) : bool * Z := if decide (x = b) then (false, 5) else (true, 0).

(** A world that counts what the limiter still accepts; the action adds a value,
    and fails. *)
Definition env : TryEnvironment nat := {|
  TryAccept := λ n, match n with O => (false, O) | S n => (true, n) end;
  now := λ n, (30, n);
  action := λ x q n, ((false, 1), ((uq_Add (mkTimedValue "d" 1 1) q).2, n));
  others := λ q n, (q, n);
|}.

(** The action's value is removed and added again while it runs. *)
Definition readd : TryEnvironment unit := {|
  TryAccept := λ w, (true, w);
  now := λ w, (4, w);
  action := λ x q w, ((true, 0), (match uq_Remove "a" q with Some (_, q) => (uq_Add a q).2 | None => q end, w));
  others := λ q w, (q, w);
|}.
End Demo.

Example Try_demo : match @Try _ (undisturbed 10 Demo.answer) 3 Demo.q [] with
  | Some (q, log) => (queue q, log) = ([mkTimedValue "b" 1 16; Demo.c], [Demo.a; Demo.b])
  | None => False
  end.
Proof. by vm_compute. Qed.

Lemma Try_processes_due_witness :
  ∃ q' log, @Try _ (undisturbed 10 Demo.answer) (S (length (filter (due 10) (queue Demo.q)))) Demo.q [] = Some (q', log) ∧
    unique_ok q' ∧ log ≡ₚ filter (due 10) (queue Demo.q) ∧ StronglySorted (λ x y, ProcessAt x <= ProcessAt y) log ∧
    queue q' ≡ₚ omap (settle 10 Demo.answer) (queue Demo.q).
Proof.
  apply (Try_processes_due 10 Demo.answer); [|exact Demo.q_ok].
  intros x. unfold Demo.answer. destruct (decide (x = Demo.b)); cbn; lia.
Defined.

Lemma Try_limited_witness : ∃ q' w', @Try _ Demo.env 3 Demo.q 2%nat = Some (q', w') ∧ unique_ok q'.
Proof.
  apply (@Try_limited nat Demo.env (λ n, n)); [| | | |exact Demo.q_ok].
  - intros [|n] w' [= <-]. lia.
  - intros n. cbn. lia.
  - intros x q w r q' w' Hok [= _ <- <-]. split; [|lia].
    destruct (uq_Add_spec (mkTimedValue "d" 1 1) q Hok) as (q2 & -> & ? & _). done.
  - intros q w q' w' Hok [= <- <-]. split; [done|lia].
Defined.

Lemma addition_during_action_lost_witness :
  ∃ q2, @Try _ Demo.readd 2 Demo.q tt = @Try _ Demo.readd 1 q2 tt ∧ entries (queue q2) !! "a" = None.
Proof.
  apply (@addition_during_action_lost unit Demo.readd 1 Demo.a Demo.q tt tt 4 tt Demo.a
    (mkUniqueQueue [Demo.b; Demo.c] (NewString ["b"; "c"]))
    (mkUniqueQueue [Demo.a; Demo.c; Demo.b] (NewString ["a"; "b"; "c"])) 0 tt Demo.q_ok); by vm_compute.
Defined.
