(* ===== verification/Endpoints.v ===== *)
(** * The canonical form of endpoints

    [pkg/api/endpoints/util.go]: [RepackSubsets] expands a list of subsets (addresses
    times ports) and packs it again, each port once, with the ports of the same
    addresses together, in an order fixed by hashes.

    A pointer to an address that the code allocates is its position [loc] in the
    allocated addresses [mem]; the inputs are only read and are values.  Ranging over a
    map takes an order per loop ([KeyRange]), and sorting takes a sort.  The hashes
    (md5 of the spew printer's output, third-party) are the class [EndpointHash]. *)

From S2P Require Import Prelude.

Record ObjectReference := mkRef {
  ref_Kind : string;
  ref_Namespace : string;
  ref_Name : string;
  ref_UID : string;
  ref_APIVersion : string;
  ref_ResourceVersion : string;
  ref_FieldPath : string;
}.

Record EndpointAddress := mkAddress { IP : string; TargetRef : option ObjectReference }.

Record EndpointPort := mkPort { port_Name : string; port_Port : Z; port_Protocol : string }.

(** A nil slice is an empty one here: the code only ranges over them. *)
Record EndpointSubset := mkSubset {
  Addresses : list EndpointAddress;
  NotReadyAddresses : list EndpointAddress;
  Ports : list EndpointPort;
}.

(** The set of hosts is keyed by IP and UID. *)
Record addressKey := mkKey { key_ip : string; key_uid : string }.

#[export] Instance ObjectReference_eq_dec : EqDecision ObjectReference.
Proof. solve_decision. Defined.
#[export] Instance EndpointAddress_eq_dec : EqDecision EndpointAddress.
Proof. solve_decision. Defined.
#[export] Instance EndpointPort_eq_dec : EqDecision EndpointPort.
Proof. solve_decision. Defined.
#[export] Instance EndpointSubset_eq_dec : EqDecision EndpointSubset.
Proof. solve_decision. Defined.
#[export] Instance addressKey_eq_dec : EqDecision addressKey.
Proof. solve_decision. Defined.

#[export] Instance EndpointPort_countable : Countable EndpointPort.
Proof.
  apply (inj_countable' (λ p, (port_Name p, port_Port p, port_Protocol p)) (λ '(n, p, r), mkPort n p r)).
  by intros [].
Defined.
#[export] Instance addressKey_countable : Countable addressKey.
Proof. apply (inj_countable' (λ k, (key_ip k, key_uid k)) (λ '(i, u), mkKey i u)). by intros []. Defined.

Abbreviation loc := nat.

(** [hash_addresses] is of the sorted slice of address pointers (which the printer
    follows) with their readiness; the others are of the object itself. *)
Class EndpointHash := {
  hash_addresses : list (EndpointAddress * bool) → string;
  hash_port : EndpointPort → string;
  hash_subset : EndpointSubset → string;
}.

(** ** Orders *)

Definition LessEndpointAddress (a b : EndpointAddress) : bool :=
  if bool_decide (IP a ≠ IP b) then string_lt (IP a) (IP b)
  else
    match TargetRef b, TargetRef a with
    | None, _ => false
    | Some _, None => true
    | Some rb, Some ra => string_lt (ref_UID ra) (ref_UID rb)
    end.

Section orders.
Context `{EndpointHash}.

Definition subsetsByHash_Less (a b : EndpointSubset) : bool := string_lt (hash_subset a) (hash_subset b).
Definition portsByHash_Less (a b : EndpointPort) : bool := string_lt (hash_port a) (hash_port b).
End orders.

(** The object behind a pointer; the code's pointers are never nil. *)
Definition deref (mem : list EndpointAddress) (l : loc) : EndpointAddress := default (mkAddress "" None) (mem !! l).

(** [lessAddrReady]: the readiness does not count. *)
Definition lessAddrReady (mem : list EndpointAddress) (a b : loc * bool) : bool :=
  LessEndpointAddress (deref mem a.1) (deref mem b.1).

Class EndpointSorts `{EndpointHash} := {
  sort_addresses :: Sorts LessEndpointAddress;
  sort_addrReady :: ∀ mem, Sorts (lessAddrReady mem);
  sort_ports :: Sorts portsByHash_Less;
  sort_subsets :: Sorts subsetsByHash_Less;
}.

(** ** Packing *)

Definition addressKey_of (addr : EndpointAddress) : addressKey :=
  mkKey (IP addr) (match TargetRef addr with Some ref => ref_UID ref | None => "" end).

Record packing := mkPacking {
  mem : list EndpointAddress;
  allAddrs : gmap addressKey loc;
  portToAddrReadyMap : gmap EndpointPort (gmap loc bool);
}.

Definition mapAddressByPort (addr : EndpointAddress) (port : EndpointPort) (ready : bool) (st : packing) : loc * packing :=
  let key := addressKey_of addr in
  let '(existingAddress, st) :=
    match allAddrs st !! key with
    | Some l => (l, st)
    | None =>
        let l := length (mem st) in
        (l, mkPacking (mem st ++ [addr]) (<[key := l]> (allAddrs st)) (portToAddrReadyMap st))
    end in
  let addrs := match portToAddrReadyMap st !! port with Some addrs => addrs | None => ∅ end in
  let addrs :=
    match addrs !! existingAddress with
    | Some false => addrs
    | _ => <[existingAddress := ready]> addrs
    end in
  (existingAddress, mkPacking (mem st) (allAddrs st) (<[port := addrs]> (portToAddrReadyMap st))).

(** The loops over the subsets, their ports and their addresses. *)
Definition mapAddresses (addrs : list EndpointAddress) (port : EndpointPort) (ready : bool) (st : packing) : packing :=
  foldl (λ st addr, (mapAddressByPort addr port ready st).2) st addrs.

Definition mapSubsets (subsets : list EndpointSubset) : packing :=
  foldl (λ st subset,
    foldl (λ st port, mapAddresses (NotReadyAddresses subset) port false (mapAddresses (Addresses subset) port true st))
      st (Ports subset))
    (mkPacking [] ∅ ∅) subsets.

Section packing.
Context `{R : RangeOrder} `{KP : !KeyRange EndpointPort} `{KL : !KeyRange loc} `{H : EndpointHash} `{!EndpointSorts}.

(** [tag] stands for the loop over [addrs]. *)
Definition hashAddresses (tag : positive) (mem : list EndpointAddress) (addrs : gmap loc bool) : string :=
  let slice := sort (lessAddrReady mem) (range_of tag addrs) in
  hash_addresses ((λ '(l, ready), (deref mem l, ready)) <$> slice).

(** [keyToAddrReadyMap] and [addrReadyMapKeyToPorts] *)
Definition groupPorts (st : packing) : gmap string (gmap loc bool) * gmap string (list EndpointPort) :=
  foldl (λ '(keyToAddrs, keyToPorts) '(port, addrs),
    let key := hashAddresses (encode port) (mem st) addrs in
    (<[key := addrs]> keyToAddrs,
     <[key := default [] (keyToPorts !! key) ++ [port]]> keyToPorts))
    (∅, ∅) (range_of 1 (portToAddrReadyMap st)).

(** The subset of one key: the loop over its addresses. *)
Definition buildSubset (tag : positive) (mem : list EndpointAddress) (addrs : gmap loc bool) (ports : list EndpointPort) : EndpointSubset :=
  let '(readyAddrs, notReadyAddrs) :=
    foldl (λ '(readyAddrs, notReadyAddrs) '(addr, ready),
      if ready : bool then (readyAddrs ++ [deref mem addr], notReadyAddrs)
      else (readyAddrs, notReadyAddrs ++ [deref mem addr]))
      ([], []) (range_of tag addrs) in
  mkSubset readyAddrs notReadyAddrs ports.

(** The body of the loop of [SortSubsets], in place in the code. *)
Definition sortSubset (ss : EndpointSubset) : EndpointSubset :=
  mkSubset (sort LessEndpointAddress (Addresses ss)) (sort LessEndpointAddress (NotReadyAddresses ss))
    (sort portsByHash_Less (Ports ss)).

Definition SortSubsets (subsets : list EndpointSubset) : list EndpointSubset :=
  sort subsetsByHash_Less (sortSubset <$> subsets).

Definition RepackSubsets (subsets : list EndpointSubset) : list EndpointSubset :=
  let st := mapSubsets subsets in
  let '(keyToAddrs, keyToPorts) := groupPorts st in
  SortSubsets
    (foldl (λ final '(key, ports),
       final ++ [buildSubset (encode key) (mem st) (default ∅ (keyToAddrs !! key)) ports])
       [] (range_map keyToPorts)).
End packing.

(** ** The reference definition

    What a list of subsets offers: a port at an address, ready or not. *)
Definition offer : Type := EndpointPort * EndpointAddress * bool.

Definition offers (subsets : list EndpointSubset) : list offer :=
  ss ← subsets; p ← Ports ss; ((λ a, (p, a, true)) <$> Addresses ss) ++ ((λ a, (p, a, false)) <$> NotReadyAddresses ss).

(** Not ready trumps ready. *)
Definition status (os : list offer) (p : EndpointPort) (a : EndpointAddress) : option bool :=
  if decide ((p, a, false) ∈ os) then Some false
  else if decide ((p, a, true) ∈ os) then Some true else None.

(** Addresses with the same IP and UID are the same; otherwise the first one wins. *)
Definition consistent (os : list offer) : Prop :=
  ∀ p a r p' a' r', (p, a, r) ∈ os → (p', a', r') ∈ os → addressKey_of a = addressKey_of a' → a = a'.

Section reference.
Context `{H : EndpointHash} `{!EndpointSorts}.

Definition offered_ports (os : list offer) : list EndpointPort := remove_dups ((λ o, o.1.1) <$> os).
Definition offered_addresses (os : list offer) : list EndpointAddress := remove_dups ((λ o, o.1.2) <$> os).

(** The ports that offer the same as [p], with the addresses that it is offered at. *)
Definition subset_of (os : list offer) (p : EndpointPort) : EndpointSubset :=
  mkSubset
    (sort LessEndpointAddress (filter (λ a, status os p a = Some true) (offered_addresses os)))
    (sort LessEndpointAddress (filter (λ a, status os p a = Some false) (offered_addresses os)))
    (sort portsByHash_Less
       (filter (λ p', Forall (λ a, status os p' a = status os p a) (offered_addresses os)) (offered_ports os))).

Definition canonical (os : list offer) : list EndpointSubset :=
  sort subsetsByHash_Less (remove_dups (subset_of os <$> offered_ports os)).
End reference.

(** The hashes do not collide. *)
Record collision_free `{EndpointHash} : Prop := {
  hash_addresses_inj :: Inj (=) (=) hash_addresses;
  hash_port_inj :: Inj (=) (=) hash_port;
  hash_subset_inj :: Inj (=) (=) hash_subset;
}.

(** ** Orders tell addresses apart *)

Lemma LessEndpointAddress_total a b :
  LessEndpointAddress a b = false → LessEndpointAddress b a = false → addressKey_of a = addressKey_of b.
Proof.
  unfold LessEndpointAddress, addressKey_of. destruct (decide (IP a = IP b)) as [E|E].
  - rewrite !bool_decide_eq_false_2 by congruence. rewrite E.
    destruct (TargetRef a), (TargetRef b); try done. intros. f_equal. by apply string_lt_total.
  - rewrite !bool_decide_eq_true_2 by congruence. intros. exfalso. by apply E, string_lt_total.
Qed.

Lemma portsByHash_total `{EndpointHash} (C : collision_free) a b :
  portsByHash_Less a b = false → portsByHash_Less b a = false → a = b.
Proof. intros ??. apply (hash_port_inj C). by apply string_lt_total. Qed.

Lemma subsetsByHash_total `{EndpointHash} (C : collision_free) a b :
  subsetsByHash_Less a b = false → subsetsByHash_Less b a = false → a = b.
Proof. intros ??. apply (hash_subset_inj C). by apply string_lt_total. Qed.

(** Sorting what the order tells apart, whatever the two lists' order. *)
Lemma sort_same_elements {A} (less : A → A → bool) (S1 S2 : Sorts less) l1 l2 :
  NoDup l1 → NoDup l2 → (∀ x, x ∈ l1 ↔ x ∈ l2) →
  (∀ a b, a ∈ l1 → b ∈ l1 → less a b = false → less b a = false → a = b) →
  @sort _ less S1 l1 = @sort _ less S2 l2.
Proof. intros ????. apply sorts_agree; [by apply NoDup_Permutation|done]. Qed.

(** ** Offers *)

Lemma status_true os p a : status os p a = Some true ↔ (p, a, true) ∈ os ∧ (p, a, false) ∉ os.
Proof. unfold status. repeat case_decide; naive_solver. Qed.

Lemma status_false os p a : status os p a = Some false ↔ (p, a, false) ∈ os.
Proof. unfold status. repeat case_decide; naive_solver. Qed.

Lemma status_None os p a : status os p a = None ↔ ∀ r, (p, a, r) ∉ os.
Proof. unfold status. repeat case_decide; split; try naive_solver. intros _ []; done. Qed.

Lemma status_offered os p a r : status os p a = Some r → (p, a, r) ∈ os.
Proof. destruct r; [rewrite status_true|rewrite status_false]; tauto. Qed.

Lemma status_is_Some os p a : is_Some (status os p a) ↔ ∃ r, (p, a, r) ∈ os.
Proof.
  split; [intros [r Hr%status_offered]; eauto|]. intros [r Hr]. apply not_eq_None_Some. rewrite status_None. naive_solver.
Qed.

(** One more offer. *)
Lemma status_snoc os p a r p' a' :
  status (os ++ [(p, a, r)]) p' a' =
  if decide (p' = p ∧ a' = a) then Some (match status os p a with Some false => false | _ => r end) else status os p' a'.
Proof.
  destruct (decide (p' = p ∧ a' = a)) as [[-> ->]|Hne].
  - destruct (status os p a) as [[]|] eqn:E.
    + apply status_true in E as [E1 E2]. destruct r; [apply status_true|apply status_false]; set_solver.
    + apply status_false in E. apply status_false. set_solver.
    + rewrite status_None in E. destruct r; [apply status_true|apply status_false]; [|set_solver].
      rewrite !elem_of_app. specialize (E false). set_solver.
  - unfold status. assert (∀ b, (p', a', b) ∈ os ++ [(p, a, r)] ↔ (p', a', b) ∈ os) as Hin.
    { intros b. rewrite elem_of_app, list_elem_of_singleton. naive_solver. }
    repeat case_decide; naive_solver.
Qed.

Lemma elem_of_offered_ports os p : p ∈ offered_ports os ↔ ∃ a r, (p, a, r) ∈ os.
Proof.
  unfold offered_ports. rewrite elem_of_remove_dups, list_elem_of_fmap. split.
  - intros ([[p' a] r] & -> & ?). eauto.
  - intros (a & r & ?). by exists (p, a, r).
Qed.

Lemma elem_of_offered_addresses os a : a ∈ offered_addresses os ↔ ∃ p r, (p, a, r) ∈ os.
Proof.
  unfold offered_addresses. rewrite elem_of_remove_dups, list_elem_of_fmap. split.
  - intros ([[p a'] r] & -> & ?). eauto.
  - intros (p & r & ?). by exists (p, a, r).
Qed.

Lemma elem_of_offers subsets p a r : (p, a, r) ∈ offers subsets ↔
  ∃ ss, ss ∈ subsets ∧ p ∈ Ports ss ∧ a ∈ (if r : bool then Addresses ss else NotReadyAddresses ss).
Proof.
  unfold offers. rewrite list_elem_of_bind. split.
  - intros (ss & Hin & Hss). apply list_elem_of_bind in Hin as (p' & Hin & Hp).
    rewrite elem_of_app, !list_elem_of_fmap in Hin. exists ss. naive_solver.
  - intros (ss & Hss & Hp & Ha). exists ss. split; [|done]. apply list_elem_of_bind. exists p. split; [|done].
    rewrite elem_of_app, !list_elem_of_fmap. destruct r; [left|right]; eauto.
Qed.

(** ** The maps after the first loops *)

Lemma foldl_bind {A B S} (f : S → B → S) (g : A → list B) l s :
  foldl f s (l ≫= g) = foldl (λ s x, foldl f s (g x)) s l.
Proof. revert s. induction l as [|x l IH]; intros s; cbn; [done|]. by rewrite foldl_app, IH. Qed.

Lemma foldl_map {A B S} (f : S → B → S) (g : A → B) l s : foldl f s (g <$> l) = foldl (λ s x, f s (g x)) s l.
Proof. revert s. induction l as [|x l IH]; intros s; cbn; [done|]. by rewrite IH. Qed.

Definition map_offer (st : packing) (o : offer) : packing :=
  let '(p, a, r) := o in (mapAddressByPort a p r st).2.

Lemma mapSubsets_offers subsets : mapSubsets subsets = foldl map_offer (mkPacking [] ∅ ∅) (offers subsets).
Proof.
  unfold mapSubsets, offers. rewrite foldl_bind. generalize (mkPacking [] ∅ ∅). induction subsets as [|ss l IH]; intros st; [done|].
  cbn [foldl]. rewrite foldl_bind, IH. f_equal. generalize (Ports ss). clear. intros ps. revert st.
  induction ps as [|p ps IH]; intros st; [done|]. cbn [foldl]. rewrite IH. f_equal. unfold mapAddresses.
  by rewrite foldl_app, !foldl_map.
Qed.

(** What the maps hold of the offers so far. *)
Record packs (os : list offer) (st : packing) : Prop := {
  packs_keys k l : allAddrs st !! k = Some l ↔ ∃ a, mem st !! l = Some a ∧ addressKey_of a = k;
  packs_mem a : a ∈ mem st ↔ ∃ p r, (p, a, r) ∈ os;
  packs_status p l : portToAddrReadyMap st !! p ≫= (.!! l) = mem st !! l ≫= status os p;
  packs_ports p : is_Some (portToAddrReadyMap st !! p) ↔ ∃ a r, (p, a, r) ∈ os;
}.

Lemma packs_init : packs [] (mkPacking [] ∅ ∅).
Proof.
  split; cbn [mem allAddrs portToAddrReadyMap].
  - intros k l. rewrite lookup_empty. split; [done|]. intros (a & [=] & _).
  - set_solver.
  - done.
  - intros p. rewrite lookup_empty. split; [intros [? [=]]|set_solver].
Qed.

(** Pointers are unique: one per key. *)
Lemma packs_inj os st l l' a a' : packs os st → mem st !! l = Some a → mem st !! l' = Some a' →
  addressKey_of a = addressKey_of a' → l = l'.
Proof.
  intros P Hl Hl' E. assert (allAddrs st !! addressKey_of a = Some l) as H1 by (apply (packs_keys _ _ P); eauto).
  assert (allAddrs st !! addressKey_of a = Some l') as H2 by (apply (packs_keys _ _ P); eauto). congruence.
Qed.

(** Writing the readiness of one port at one pointer. *)
Lemma status_write os st p a r l (mem' : list EndpointAddress) : packs os st → mem' !! l = Some a →
  (∀ l', l' ≠ l → mem' !! l' = mem st !! l') → (mem st !! l = Some a ∨ mem st !! l = None ∧ ∀ p r, (p, a, r) ∉ os) →
  (∀ l', mem' !! l' = Some a → l' = l) →
  let addrs := match portToAddrReadyMap st !! p with Some addrs => addrs | None => ∅ end in
  let addrs' := match addrs !! l with Some false => addrs | _ => <[l := r]> addrs end in
  ∀ p' l', <[p := addrs']> (portToAddrReadyMap st) !! p' ≫= (.!! l') = mem' !! l' ≫= status (os ++ [(p, a, r)]) p'.
Proof.
  intros P Hl Hother Hold Huniq addrs addrs' p' l'.
  assert (addrs !! l' = portToAddrReadyMap st !! p ≫= (.!! l')) as Haddrs.
  { subst addrs. by destruct (portToAddrReadyMap st !! p). }
  assert (addrs !! l = status os p a) as Hst.
  { assert (addrs !! l = portToAddrReadyMap st !! p ≫= (.!! l)) as ->.
    { subst addrs. by destruct (portToAddrReadyMap st !! p). }
    rewrite (packs_status _ _ P). destruct Hold as [-> | [-> Hnone]]; [done|]. cbn. symmetry. apply status_None. eauto. }
  assert (l' ≠ l → addrs' !! l' = addrs !! l') as Hne.
  { intros Hl'. subst addrs'. destruct (addrs !! l) as [[]|]; rewrite ?lookup_insert_ne by done; done. }
  destruct (decide (p' = p)) as [->|Hp]; [rewrite lookup_insert_eq|rewrite lookup_insert_ne by done; rewrite (packs_status _ _ P)]; cbn.
  - destruct (decide (l' = l)) as [->|Hl'].
    + rewrite Hl. cbn. rewrite status_snoc, decide_True by done. rewrite <- Hst. subst addrs'.
      destruct (addrs !! l) as [[]|] eqn:E; [by rewrite lookup_insert_eq|done|by rewrite lookup_insert_eq].
    + rewrite Hne, Haddrs, (packs_status _ _ P), <- Hother by done. destruct (mem' !! l') as [a'|] eqn:E; [|done]. cbn.
      rewrite status_snoc, decide_False; [done|]. intros [_ ->]. by apply Hl', Huniq.
  - destruct (decide (l' = l)) as [->|Hl'].
    + rewrite Hl. cbn. rewrite status_snoc, decide_False by naive_solver. destruct Hold as [-> | [-> Hnone]]; [done|].
      cbn. symmetry. apply status_None. eauto.
    + rewrite Hother by done. destruct (mem st !! l') as [a'|]; [|done]. cbn. by rewrite status_snoc, decide_False by naive_solver.
Qed.

Lemma packs_step os st p a r : packs os st →
  (∀ p' a' r', (p', a', r') ∈ os → addressKey_of a' = addressKey_of a → a' = a) →
  packs (os ++ [(p, a, r)]) (map_offer st (p, a, r)).
Proof.
  intros P Hcons. unfold map_offer, mapAddressByPort.
  assert (∀ s p', is_Some (<[p := s]> (portToAddrReadyMap st) !! p') ↔ ∃ a' r', (p', a', r') ∈ os ++ [(p, a, r)]) as Hports.
  { intros s p'. rewrite lookup_insert_is_Some, (packs_ports _ _ P). setoid_rewrite elem_of_app. setoid_rewrite list_elem_of_singleton.
    split; [intros [-> |[_ (a' & r' & ?)]]; eauto|]. destruct (decide (p = p')); naive_solver. }
  assert (∀ m : list EndpointAddress, (∀ a', a' ∈ m ↔ a' ∈ mem st ∨ a' = a) → ∀ a', a' ∈ m ↔ ∃ p' r', (p', a', r') ∈ os ++ [(p, a, r)]) as Hmem.
  { intros m Hm a'. rewrite Hm, (packs_mem _ _ P). setoid_rewrite elem_of_app. setoid_rewrite list_elem_of_singleton. naive_solver. }
  destruct (allAddrs st !! addressKey_of a) as [l|] eqn:Hkey.
  - apply (packs_keys _ _ P) in Hkey as Hl. destruct Hl as (a0 & Hl & Hk).
    assert (a0 = a) as ->.
    { apply list_elem_of_lookup_2 in Hl. apply (packs_mem _ _ P) in Hl as (p0 & r0 & Hin). by eapply Hcons. }
    cbn [snd]. split; cbn [mem allAddrs portToAddrReadyMap]; [apply P| |apply (status_write _ _ _ _ _ _ _ P Hl); [done|by left|]|apply Hports].
    + apply Hmem. intros a'. split; [by left|]. intros [?| ->]; [done|]. by eapply list_elem_of_lookup_2.
    + intros l' Hl'. by apply (packs_inj _ _ _ _ _ _ P Hl' Hl).
  - assert (∀ p r, (p, a, r) ∉ os) as Hnew.
    { intros p0 r0 Hin. assert (a ∈ mem st) as [l Hl]%list_elem_of_lookup by (apply (packs_mem _ _ P); eauto).
      assert (allAddrs st !! addressKey_of a = Some l) by (apply (packs_keys _ _ P); eauto). congruence. }
    assert (mem st !! length (mem st) = None) as Hend by (by apply lookup_ge_None).
    cbn [snd]. split; cbn [mem allAddrs portToAddrReadyMap]; [| |apply (status_write _ _ _ _ _ _ _ P)|apply Hports].
    + intros k l. destruct (decide (l = length (mem st))) as [->|Hne].
      * rewrite lookup_app_r, Nat.sub_diag by done. cbn. split.
        -- destruct (decide (k = addressKey_of a)) as [->|Hk]; [eauto|]. rewrite lookup_insert_ne by done.
           intros (? & ? & _)%(packs_keys _ _ P). congruence.
        -- intros (? & [= <-] & <-). apply lookup_insert_eq.
      * assert ((mem st ++ [a]) !! l = mem st !! l) as ->.
        { destruct (decide (l < length (mem st))%nat); [by rewrite lookup_app_l|]. rewrite !(proj2 (lookup_ge_None _ _)); [done|lia|rewrite length_app; cbn; lia]. }
        rewrite <- (packs_keys _ _ P). destruct (decide (k = addressKey_of a)) as [->|Hk]; [|by rewrite lookup_insert_ne].
        rewrite lookup_insert_eq, Hkey. naive_solver.
    + apply Hmem. intros a'. rewrite elem_of_app, list_elem_of_singleton. done.
    + rewrite lookup_app_r, Nat.sub_diag by done. done.
    + intros l' Hl'. destruct (decide (l' < length (mem st))%nat); [by rewrite lookup_app_l|].
      rewrite !(proj2 (lookup_ge_None _ _)); [done|lia|rewrite length_app; cbn; lia].
    + by right.
    + intros l' Hl'. apply lookup_app_Some in Hl' as [Hl'|[Hge Hl']].
      * apply list_elem_of_lookup_2 in Hl'. apply (packs_mem _ _ P) in Hl' as (p0 & r0 & Hin). by apply Hnew in Hin.
      * pose proof (lookup_lt_Some _ _ _ Hl') as Hlt. cbn in Hlt. lia.
Qed.

Lemma packs_mapSubsets subsets : consistent (offers subsets) → packs (offers subsets) (mapSubsets subsets).
Proof.
  rewrite mapSubsets_offers. generalize (offers subsets) as os. intros os Hcons.
  induction os as [|[[p a] r] os IH] using rev_ind; [apply packs_init|]. rewrite foldl_snoc. apply packs_step.
  - apply IH. intros p1 a1 r1 p2 a2 r2 H1 H2. apply (Hcons p1 a1 r1 p2 a2 r2); apply elem_of_app; by left.
  - intros p' a' r' Hin. apply (Hcons p' a' r' p a r); apply elem_of_app; [by left|right; by left].
Qed.

(** ** Packing again *)
Section packing_facts.
Context {os : list offer} {st : packing} (P : packs os st).

Lemma entry_pointer p s l r : portToAddrReadyMap st !! p = Some s → s !! l = Some r →
  ∃ a, mem st !! l = Some a ∧ deref (mem st) l = a ∧ status os p a = Some r.
Proof.
  intros Hs Hl. pose proof (packs_status _ _ P p l) as E. rewrite Hs in E. cbn in E. rewrite Hl in E.
  destruct (mem st !! l) as [a|] eqn:Hm; [|done]. exists a. unfold deref. by rewrite Hm.
Qed.

Lemma pointer_entry p s a r : portToAddrReadyMap st !! p = Some s → status os p a = Some r →
  ∃ l, mem st !! l = Some a ∧ deref (mem st) l = a ∧ s !! l = Some r.
Proof.
  intros Hs Ha. assert (a ∈ mem st) as [l Hl]%list_elem_of_lookup.
  { apply (packs_mem _ _ P). exists p, r. by apply status_offered. }
  exists l. pose proof (packs_status _ _ P p l) as E. rewrite Hs, Hl in E. cbn in E. unfold deref. by rewrite Hl, E.
Qed.

(** The slice before it is sorted. *)
Definition slice_of (s : gmap loc bool) : list (EndpointAddress * bool) :=
  (λ '(l, r), (deref (mem st) l, r)) <$> map_to_list s.

Lemma elem_of_slice p s a r : portToAddrReadyMap st !! p = Some s → ((a, r) ∈ slice_of s ↔ status os p a = Some r).
Proof.
  intros Hs. unfold slice_of. rewrite list_elem_of_fmap. split.
  - intros ([l r'] & [= -> ->] & Hin%elem_of_map_to_list). destruct (entry_pointer _ _ _ _ Hs Hin) as (a' & _ & -> & ?). done.
  - intros Ha. destruct (pointer_entry _ _ _ _ Hs Ha) as (l & _ & E & Hl). exists (l, r). rewrite E. split; [done|].
    by apply elem_of_map_to_list.
Qed.

(** Different pointers of a port have different addresses. *)
Lemma deref_inj p s l r l' r' : portToAddrReadyMap st !! p = Some s → s !! l = Some r → s !! l' = Some r' →
  addressKey_of (deref (mem st) l) = addressKey_of (deref (mem st) l') → l = l' ∧ r = r'.
Proof.
  intros Hs Hl Hl' E. destruct (entry_pointer _ _ _ _ Hs Hl) as (a & Hm & Ha & _).
  destruct (entry_pointer _ _ _ _ Hs Hl') as (a' & Hm' & Ha' & _). rewrite Ha, Ha' in E.
  pose proof (packs_inj _ _ _ _ _ _ P Hm Hm' E) as <-. split; congruence.
Qed.

Context `{R : RangeOrder} `{KP : !KeyRange EndpointPort} `{KL : !KeyRange loc} `{H : EndpointHash} `{ES : !EndpointSorts}.

(** The loop's order does not matter, because the slice is sorted. *)
Lemma sorted_slice p s tag tag' : portToAddrReadyMap st !! p = Some s →
  sort (lessAddrReady (mem st)) (range_of tag s) = sort (lessAddrReady (mem st)) (range_of tag' s).
Proof.
  intros Hs. apply sorts_agree; [by rewrite !range_of_perm|]. intros [l r] [l' r'] Hin Hin' H1 H2.
  rewrite range_of_perm, elem_of_map_to_list in Hin, Hin'. f_equal;
    eapply (deref_inj p s); try done; by apply LessEndpointAddress_total.
Qed.

Definition same_status (p q : EndpointPort) : Prop := ∀ a, status os p a = status os q a.

(** The keys tell apart exactly the ports that offer different addresses. *)
Lemma hashAddresses_same (C : collision_free) p s q s' tag tag' :
  portToAddrReadyMap st !! p = Some s → portToAddrReadyMap st !! q = Some s' →
  (hashAddresses tag (mem st) s = hashAddresses tag' (mem st) s' ↔ same_status p q).
Proof.
  intros Hs Hs'. unfold hashAddresses. split.
  - intros E%(hash_addresses_inj C).
    assert (slice_of s ≡ₚ slice_of s') as Hp.
    { unfold slice_of. by rewrite <- (range_of_perm tag s), <- (sort_perm (less := lessAddrReady (mem st))), E, sort_perm, range_of_perm. }
    intros a. apply option_eq. intros r. by rewrite <- (elem_of_slice p s a r Hs), <- (elem_of_slice q s' a r Hs'), Hp.
  - intros Hsame. assert (s = s') as <-.
    { apply map_eq. intros l. pose proof (packs_status _ _ P p l) as E. pose proof (packs_status _ _ P q l) as E'.
      rewrite Hs in E. rewrite Hs' in E'. cbn in E, E'. rewrite E, E'. destruct (mem st !! l); cbn; [apply Hsame|done]. }
    do 2 f_equal. by apply (sorted_slice p).
Qed.
End packing_facts.

(** ** Grouping by key *)

Lemma group_loop {K A B} `{Countable K} (key : A → K) (port : A → B) (addrs : A → gmap loc bool) (L : list A) :
  let '(toAddrs, toPorts) :=
    foldl (λ '(toAddrs, toPorts) x, (<[key x := addrs x]> toAddrs, <[key x := default [] (toPorts !! key x) ++ [port x]]> toPorts))
      (∅ : gmap K (gmap loc bool), ∅ : gmap K (list B)) L in
  (∀ k, toPorts !! k = match filter (λ x, key x = k) L with [] => None | l => Some (port <$> l) end) ∧
  (∀ k s, toAddrs !! k = Some s → ∃ x, x ∈ L ∧ key x = k ∧ s = addrs x) ∧
  (∀ x, x ∈ L → is_Some (toAddrs !! key x)).
Proof.
  induction L as [|x L IH] using rev_ind; [cbn; split_and!; [done..|set_solver]|].
  rewrite foldl_snoc. destruct (foldl _ _ L) as [toAddrs toPorts]. destruct IH as (IH1 & IH2 & IH3). split_and!.
  - intros k. rewrite filter_app. destruct (decide (key x = k)) as [<-|Hne].
    + rewrite lookup_insert_eq, IH1. rewrite filter_cons_True, filter_nil by done. cbn.
      destruct (filter _ L); cbn; [done|]. by rewrite fmap_app.
    + rewrite lookup_insert_ne, filter_cons_False, filter_nil, app_nil_r by done. apply IH1.
  - intros k s [[<- <-]|[Hne Hs]]%lookup_insert_Some; [exists x; split_and!; [apply elem_of_app; right; by left|done..]|].
    destruct (IH2 k s Hs) as (y & ? & ? & ?). exists y. split_and!; [apply elem_of_app; by left|done..].
  - intros y [Hy|Hy%list_elem_of_singleton]%elem_of_app; rewrite lookup_insert_is_Some; [|by subst; left].
    destruct (decide (key x = key y)); [by left|right]. split; [done|by apply IH3].
Qed.

(** ** The result *)
Section result.
Context {os : list offer} {st : packing} (P : packs os st) (Hcons : consistent os).
Context `{R : RangeOrder} `{KP : !KeyRange EndpointPort} `{KL : !KeyRange loc} `{H : EndpointHash} `{ES : !EndpointSorts}.
Context (C : collision_free).

Lemma offered_key_inj a a' : a ∈ offered_addresses os → a' ∈ offered_addresses os →
  addressKey_of a = addressKey_of a' → a = a'.
Proof. intros (p & r & Hin)%elem_of_offered_addresses (p' & r' & Hin')%elem_of_offered_addresses. by apply (Hcons p _ r p' _ r'). Qed.

(** The addresses of one readiness, sorted. *)
Lemma sorted_addresses (S1 S2 : Sorts LessEndpointAddress) p s tag b : portToAddrReadyMap st !! p = Some s →
  @sort _ _ S1 ((λ x, deref (mem st) x.1) <$> filter (λ x, x.2 = b) (range_of tag s)) =
  @sort _ _ S2 (filter (λ a, status os p a = Some b) (offered_addresses os)).
Proof.
  intros Hs. assert (∀ x, x ∈ filter (λ x, x.2 = b) (range_of tag s) ↔ s !! x.1 = Some b ∧ x.2 = b) as Hin.
  { intros [l r]. rewrite list_elem_of_filter, range_of_perm, elem_of_map_to_list. cbn. naive_solver. }
  assert (∀ a, a ∈ (λ x, deref (mem st) x.1) <$> filter (λ x, x.2 = b) (range_of tag s) ↔
    a ∈ filter (λ a, status os p a = Some b) (offered_addresses os)) as Hsame.
  { intros a. rewrite list_elem_of_fmap, list_elem_of_filter. split.
    - intros ([l r] & -> & [Hl Hr]%Hin). cbn in *. destruct (entry_pointer P _ _ _ _ Hs Hl) as (a & _ & -> & Ha).
      split; [done|]. apply elem_of_offered_addresses. exists p, b. by apply status_offered.
    - intros [Ha _]. destruct (pointer_entry P _ _ _ _ Hs Ha) as (l & _ & E & Hl). exists (l, b). split; [done|by apply Hin]. }
  apply sort_same_elements; [|apply NoDup_filter, NoDup_remove_dups|done|].
  - apply NoDup_fmap_2_strong.
    + intros [l r] [l' r'] [Hl Hr]%Hin [Hl' Hr']%Hin E. cbn in *. subst.
      destruct (deref_inj P p s l b l' b Hs Hl Hl') as [-> _]; [by rewrite E|done].
    + apply NoDup_filter. rewrite range_of_perm. apply NoDup_map_to_list.
  - intros a a' [_ Ha]%Hsame%list_elem_of_filter [_ Ha']%Hsame%list_elem_of_filter H1 H2.
    apply offered_key_inj; [done..|]. by apply LessEndpointAddress_total.
Qed.

Lemma buildSubset_lists tag s ports : buildSubset tag (mem st) s ports =
  mkSubset ((λ x, deref (mem st) x.1) <$> filter (λ x, x.2 = true) (range_of tag s))
    ((λ x, deref (mem st) x.1) <$> filter (λ x, x.2 = false) (range_of tag s)) ports.
Proof.
  unfold buildSubset. generalize (range_of tag s) as L. intros L.
  assert (∀ r n, foldl (λ '(readyAddrs, notReadyAddrs) '(addr, ready),
      if ready : bool then (readyAddrs ++ [deref (mem st) addr], notReadyAddrs)
      else (readyAddrs, notReadyAddrs ++ [deref (mem st) addr])) (r, n) L =
    (r ++ ((λ x, deref (mem st) x.1) <$> filter (λ x, x.2 = true) L),
     n ++ ((λ x, deref (mem st) x.1) <$> filter (λ x, x.2 = false) L))) as ->; [|done].
  induction L as [|[l []] L IH]; intros r n; cbn [foldl]; [by rewrite !app_nil_r|..]; rewrite IH.
  - rewrite filter_cons_True, filter_cons_False by done. cbn. by rewrite <- app_assoc.
  - rewrite filter_cons_False, filter_cons_True by done. cbn. by rewrite <- app_assoc.
Qed.

Lemma same_status_Forall p q :
  Forall (λ a, status os q a = status os p a) (offered_addresses os) ↔ same_status (os := os) q p.
Proof.
  rewrite Forall_forall. split; [|by intros Hs a _]. intros Hs a. destruct (decide (a ∈ offered_addresses os)) as [|Hn]; [by apply Hs|].
  assert (∀ p', status os p' a = None) as E; [|by rewrite !E].
  intros p'. apply status_None. intros r Hr. apply Hn, elem_of_offered_addresses. eauto.
Qed.

Lemma sortSubset_of p s tag ports : portToAddrReadyMap st !! p = Some s → NoDup ports →
  (∀ q, q ∈ ports ↔ q ∈ offered_ports os ∧ same_status (os := os) q p) →
  sortSubset (buildSubset tag (mem st) s ports) = subset_of os p.
Proof.
  intros Hs Hnd Hports. rewrite buildSubset_lists. unfold sortSubset, subset_of. cbn [Addresses NotReadyAddresses Ports].
  f_equal; [by apply sorted_addresses..|]. apply sort_same_elements; [done|apply NoDup_filter, NoDup_remove_dups| |].
  - intros q. rewrite Hports, list_elem_of_filter, same_status_Forall. tauto.
  - intros a b _ _. by apply portsByHash_total.
Qed.

Definition port_key (x : EndpointPort * gmap loc bool) : string := hashAddresses (encode x.1) (mem st) x.2.

(** The groups of ports, by key. *)
Lemma groupPorts_spec : let '(toAddrs, toPorts) := groupPorts st in
  (∀ p s, portToAddrReadyMap st !! p = Some s → is_Some (toPorts !! port_key (p, s))) ∧
  ∀ k ports, toPorts !! k = Some ports →
    ∃ p s, p ∈ ports ∧ portToAddrReadyMap st !! p = Some s ∧ toAddrs !! k = Some s ∧ port_key (p, s) = k ∧
      NoDup ports ∧ ∀ q, q ∈ ports ↔ q ∈ offered_ports os ∧ same_status (os := os) q p.
Proof.
  pose proof (group_loop port_key fst snd (range_of 1 (portToAddrReadyMap st))) as G.
  assert (groupPorts st = foldl (λ '(toAddrs, toPorts) x,
    (<[port_key x := x.2]> toAddrs, <[port_key x := default [] (toPorts !! port_key x) ++ [x.1]]> toPorts)) (∅, ∅)
    (range_of 1 (portToAddrReadyMap st))) as ->.
  { unfold groupPorts. generalize (range_of 1 (portToAddrReadyMap st)) as L.
    generalize (∅ : gmap string (list EndpointPort)), (∅ : gmap string (gmap loc bool)). intros m1 m2 L. revert m1 m2.
    induction L as [|[p s] L IH]; intros m1 m2; [done|]. cbn [foldl]. by rewrite IH. }
  destruct (foldl _ _ _) as [toAddrs toPorts]. destruct G as (G1 & G2 & G3).
  assert (∀ x, x ∈ range_of 1 (portToAddrReadyMap st) ↔ portToAddrReadyMap st !! x.1 = Some x.2) as Hin.
  { intros [p s]. by rewrite range_of_perm, elem_of_map_to_list. }
  split.
  { intros p s Hs. rewrite G1. destruct (filter _ _) eqn:E; [|done]. exfalso. apply (not_elem_of_nil (p, s)). rewrite <- E.
    apply list_elem_of_filter. split; [done|by apply Hin]. }
  intros k ports Hk.
  rewrite G1 in Hk. assert (ports = fst <$> filter (λ x, port_key x = k) (range_of 1 (portToAddrReadyMap st)) ∧
    filter (λ x, port_key x = k) (range_of 1 (portToAddrReadyMap st)) ≠ []) as [-> Hne].
  { destruct (filter _ _); [done|]. by injection Hk as <-. }
  clear Hk. assert (∃ x, x ∈ filter (λ x, port_key x = k) (range_of 1 (portToAddrReadyMap st))) as [x Hx].
  { destruct (filter _ _) as [|x ?]; [done|]. exists x. by left. }
  apply list_elem_of_filter in Hx as [Hxk Hx]. destruct (G3 x Hx) as [s Hs]. rewrite Hxk in Hs.
  destruct (G2 k s Hs) as ([p s'] & Hp & Hpk & ->). cbn [snd] in *. apply Hin in Hp as Hps. cbn in Hps. exists p, s'.
  split_and!; [|done..| |].
  - apply list_elem_of_fmap. exists (p, s'). split; [done|]. by apply list_elem_of_filter.
  - apply NoDup_fmap_2_strong.
    + intros [q t] [q' t'] [_ Hq]%list_elem_of_filter [_ Hq']%list_elem_of_filter E. apply Hin in Hq, Hq'. cbn in *. congruence.
    + apply NoDup_filter. rewrite range_of_perm. apply NoDup_map_to_list.
  - intros q. rewrite list_elem_of_fmap. rewrite elem_of_offered_ports, <- (packs_ports _ _ P). split.
    + intros ([q' t] & -> & [Hqk Hq]%list_elem_of_filter). apply Hin in Hq. cbn in *. split; [by eexists|].
      rewrite <- Hpk in Hqk. unfold port_key in Hqk. cbn in Hqk. by apply (hashAddresses_same P C q' t p s' _ _ Hq Hps) in Hqk.
    + intros [[t Hq] Hsame]. exists (q, t). split; [done|]. apply list_elem_of_filter. split; [|by apply Hin].
      rewrite <- Hpk. unfold port_key. cbn. by apply (hashAddresses_same P C q t p s').
Qed.

Lemma offered_port p s : portToAddrReadyMap st !! p = Some s → p ∈ offered_ports os.
Proof. intros Hs. apply elem_of_offered_ports, (packs_ports _ _ P). by eexists. Qed.

Lemma subset_of_same p q : same_status (os := os) p q → subset_of os p = subset_of os q.
Proof.
  intros Hs. unfold subset_of. f_equal; f_equal; apply list_filter_iff; intros x; rewrite ?Hs; [done..|].
  rewrite !same_status_Forall. split; intros E a; by rewrite E, Hs.
Qed.

Lemma subset_of_inj p q : p ∈ offered_ports os → subset_of os p = subset_of os q → same_status (os := os) p q.
Proof.
  intros Hp E. apply same_status_Forall. assert (p ∈ Ports (subset_of os p)) as Hin.
  { cbn. rewrite sort_perm. apply list_elem_of_filter. split; [by apply same_status_Forall|done]. }
  rewrite E in Hin. cbn in Hin. rewrite sort_perm in Hin. by apply list_elem_of_filter in Hin as [? _].
Qed.

(** The loop that builds the subsets, each sorted. *)
Lemma built_subsets (L : list (string * list EndpointPort)) (toAddrs : gmap string (gmap loc bool)) final :
  foldl (λ final '(key, ports), final ++ [buildSubset (encode key) (mem st) (default ∅ (toAddrs !! key)) ports]) final L =
  final ++ ((λ x, buildSubset (encode x.1) (mem st) (default ∅ (toAddrs !! x.1)) x.2) <$> L).
Proof.
  revert final. induction L as [|[k ports] L IH]; intros final; cbn; [by rewrite app_nil_r|]. by rewrite IH, <- app_assoc.
Qed.

Lemma packed_subsets :
  (let '(keyToAddrs, keyToPorts) := groupPorts st in
   SortSubsets (foldl (λ final '(key, ports),
     final ++ [buildSubset (encode key) (mem st) (default ∅ (keyToAddrs !! key)) ports]) [] (range_map keyToPorts))) =
  canonical os.
Proof.
  pose proof groupPorts_spec as G. destruct (groupPorts st) as [toAddrs toPorts]. destruct G as [Hall G].
  rewrite built_subsets. cbn [app]. unfold SortSubsets, canonical. rewrite <- list_fmap_compose. set (f := compose _ _).
  assert (∀ x, x ∈ range_map toPorts → ∃ p s, portToAddrReadyMap st !! p = Some s ∧
    port_key (p, s) = x.1 ∧ f x = subset_of os p) as Hf.
  { intros [k ports] Hin%elem_of_range_map. destruct (G k ports Hin) as (p & s & Hp & Hs & Ha & Hk & Hnd & Hq).
    exists p, s. split_and!; [done..|]. subst f. cbn. rewrite Ha. cbn. by apply sortSubset_of. }
  apply sort_same_elements; [|apply NoDup_remove_dups| |intros a b _ _; by apply subsetsByHash_total].
  - apply NoDup_fmap_2_strong; [|apply (NoDup_fmap_1 fst), NoDup_range_keys].
    intros x x' Hx Hx' E. destruct (Hf x Hx) as (p & s & Hs & Hk & Hfx), (Hf x' Hx') as (p' & s' & Hs' & Hk' & Hfx').
    rewrite Hfx, Hfx' in E. assert (x.1 = x'.1) as Ek.
    { rewrite <- Hk, <- Hk'. apply (hashAddresses_same P C p s p' s'); [done..|]. by apply subset_of_inj; [apply (offered_port p s)|]. }
    destruct x as [k ports], x' as [k' ports']. cbn in Ek. subst k'. apply elem_of_range_map in Hx, Hx'. congruence.
  - intros ss. rewrite elem_of_remove_dups, !list_elem_of_fmap. split.
    + intros (x & -> & Hx). destruct (Hf x Hx) as (p & s & Hs & _ & ->). exists p. split; [done|]. by apply (offered_port p s).
    + intros (p & -> & Hp). apply elem_of_offered_ports, (packs_ports _ _ P) in Hp as [s Hs]. destruct (Hall p s Hs) as [ports Hports].
      apply elem_of_range_map in Hports. destruct (Hf _ Hports) as (q & t & Ht & Hk & Hfq). eexists. split; [|exact Hports].
      rewrite Hfq. apply subset_of_same. by apply (hashAddresses_same P C p s q t (encode p) (encode q)).
Qed.
End result.

(** ** Properties *)

(** Lists of subsets that offer the same. *)
Definition same_offers (os os' : list offer) : Prop := ∀ p a, status os p a = status os' p a.

#[export] Instance same_offers_equivalence : Equivalence same_offers.
Proof.
  split; [by intros os p a|by intros os os' E p a; rewrite E|by intros o1 o2 o3 E1 E2 p a; rewrite E1, E2].
Qed.

#[export] Instance status_proper : Proper (same_offers ==> eq ==> eq ==> eq) status.
Proof. intros os os' E p _ <- a _ <-. apply E. Qed.

Lemma same_offers_ports os os' p : same_offers os os' → p ∈ offered_ports os → p ∈ offered_ports os'.
Proof.
  intros E. rewrite !elem_of_offered_ports. intros (a & Ha%status_is_Some). exists a. apply status_is_Some. by rewrite <- E.
Qed.

Lemma same_offers_addresses os os' a : same_offers os os' → a ∈ offered_addresses os → a ∈ offered_addresses os'.
Proof.
  intros E. rewrite !elem_of_offered_addresses. intros (p & Ha%status_is_Some). exists p. apply status_is_Some. by rewrite <- E.
Qed.

Section canonical.
Context `{H : EndpointHash} (C : collision_free).

Lemma canonical_same_offers (E1 E2 : EndpointSorts) os os' : consistent os → same_offers os os' →
  @canonical _ E1 os = @canonical _ E2 os'.
Proof.
  intros Hcons E. assert (∀ p, p ∈ offered_ports os ↔ p ∈ offered_ports os') as Hports.
  { intros p. split; by apply same_offers_ports. }
  assert (∀ a, a ∈ offered_addresses os ↔ a ∈ offered_addresses os') as Haddrs.
  { intros a. split; by apply same_offers_addresses. }
  assert (∀ p b, @sort _ _ (@sort_addresses _ E1) (filter (λ a, status os p a = Some b) (offered_addresses os)) =
    @sort _ _ (@sort_addresses _ E2) (filter (λ a, status os' p a = Some b) (offered_addresses os'))) as Hsort.
  { intros p b. apply sort_same_elements; [apply NoDup_filter, NoDup_remove_dups..| |].
    - intros a. rewrite !list_elem_of_filter, E, Haddrs. done.
    - intros a a' [_ Ha]%list_elem_of_filter [_ Ha']%list_elem_of_filter ? ?.
      apply (offered_key_inj Hcons); [done..|]. by apply LessEndpointAddress_total. }
  assert (∀ p, @subset_of _ E1 os p = @subset_of _ E2 os' p) as Hsub.
  { intros p. unfold subset_of. f_equal; [apply Hsort..|].
    apply sort_same_elements; [apply NoDup_filter, NoDup_remove_dups..| |intros ? ? _ _; by apply portsByHash_total].
    intros q. rewrite !list_elem_of_filter, !same_status_Forall, Hports. unfold same_status. by setoid_rewrite E. }
  unfold canonical. apply sort_same_elements; [apply NoDup_remove_dups..| |intros ? ? _ _; by apply subsetsByHash_total].
  intros ss. rewrite !elem_of_remove_dups, !list_elem_of_fmap. setoid_rewrite Hsub. by setoid_rewrite Hports.
Qed.

Context `{E1 : !EndpointSorts}.

Lemma elem_of_canonical os ss : ss ∈ canonical os ↔ ∃ q, ss = subset_of os q ∧ q ∈ offered_ports os.
Proof. unfold canonical. by rewrite sort_perm, elem_of_remove_dups, list_elem_of_fmap. Qed.

(** The canonical form offers what the list did, and nothing twice. *)
Lemma canonical_offers os p a r : (p, a, r) ∈ offers (canonical os) ↔ status os p a = Some r.
Proof.
  rewrite elem_of_offers. split.
  - intros (ss & (q & -> & _)%elem_of_canonical & Hp & Ha). cbn in Hp, Ha.
    rewrite sort_perm, list_elem_of_filter, same_status_Forall in Hp. destruct Hp as [Hp _]. rewrite Hp.
    destruct r; rewrite sort_perm, list_elem_of_filter in Ha; tauto.
  - intros Hst. assert (p ∈ offered_ports os) as Hp.
    { apply elem_of_offered_ports. exists a, r. by apply status_offered. }
    exists (subset_of os p). split_and!; [apply elem_of_canonical; eauto| |].
    + cbn. rewrite sort_perm, list_elem_of_filter, same_status_Forall. done.
    + assert (a ∈ offered_addresses os) by (apply elem_of_offered_addresses; exists p, r; by apply status_offered).
      destruct r; cbn; by rewrite sort_perm, list_elem_of_filter.
Qed.

Lemma canonical_same os : same_offers (offers (canonical os)) os.
Proof.
  intros p a. apply option_eq. intros r. destruct r.
  - rewrite status_true, !canonical_offers. split; [tauto|]. intros E. rewrite E. by split.
  - by rewrite status_false, canonical_offers.
Qed.

Lemma canonical_consistent os : consistent os → consistent (offers (canonical os)).
Proof.
  intros Hc p a r p' a' r' H1%canonical_offers%status_offered H2%canonical_offers%status_offered. by eapply Hc.
Qed.

Lemma canonical_ports_once os ss ss' p : ss ∈ canonical os → ss' ∈ canonical os → p ∈ Ports ss → p ∈ Ports ss' → ss = ss'.
Proof.
  intros (q & -> & _)%elem_of_canonical (q' & -> & _)%elem_of_canonical Hp Hp'. cbn in Hp, Hp'.
  rewrite sort_perm, list_elem_of_filter, same_status_Forall in Hp, Hp'. destruct Hp as [Hp _], Hp' as [Hp' _].
  apply subset_of_same. intros a. by rewrite <- Hp, <- Hp'.
Qed.
End canonical.

Section properties.
Context `{R : RangeOrder} `{KP : !KeyRange EndpointPort} `{KL : !KeyRange loc} `{H : EndpointHash} `{E1 : !EndpointSorts}.

Lemma repacked subsets : consistent (offers subsets) → collision_free → RepackSubsets subsets = canonical (offers subsets).
Proof. intros Hc C. exact (packed_subsets (packs_mapSubsets _ Hc) Hc C). Qed.

(** The loops over maps of pointers and of hashes compute the reference definition:
    a subset for every set of ports that offer the same addresses, in the order of
    the hashes, whatever the orders in which the maps are ranged over. *)
Theorem RepackSubsets_canonical subsets : consistent (offers subsets) → collision_free →
  RepackSubsets subsets = canonical (offers subsets).
Proof. apply repacked. Qed.

(** Packing again keeps what is offered at which address, ready or not (not ready wins
    where both were), gives no port twice, and does not change its own result. *)
Theorem RepackSubsets_keeps_offers subsets : consistent (offers subsets) → collision_free →
  same_offers (offers (RepackSubsets subsets)) (offers subsets) ∧
  (∀ ss ss' p, ss ∈ RepackSubsets subsets → ss' ∈ RepackSubsets subsets → p ∈ Ports ss → p ∈ Ports ss' → ss = ss') ∧
  RepackSubsets (RepackSubsets subsets) = RepackSubsets subsets.
Proof.
  intros Hc C. rewrite !(repacked subsets) by done. split_and!.
  - apply canonical_same.
  - apply canonical_ports_once.
  - rewrite repacked by (by apply canonical_consistent || done).
    apply canonical_same_offers; [done|by apply canonical_consistent|apply canonical_same].
Qed.

(** A subset without ports offers nothing: its addresses are dropped. *)
Lemma portless_subsets_dropped subsets : Forall (λ ss, Ports ss = []) subsets → RepackSubsets subsets = [].
Proof.
  intros Hp. unfold RepackSubsets. assert (mapSubsets subsets = mkPacking [] ∅ ∅) as ->.
  { rewrite mapSubsets_offers. assert (offers subsets = []) as ->; [|done]. unfold offers.
    induction Hp as [|ss l Hss _ IH]; cbn; [done|]. by rewrite Hss, IH. }
  unfold groupPorts. cbn [portToAddrReadyMap]. assert (range_of 1 (∅ : gmap EndpointPort (gmap loc bool)) = []) as ->.
  { apply Permutation_nil_r. by rewrite range_of_perm, map_to_list_empty. }
  cbn [foldl]. assert (range_map (∅ : gmap string (list EndpointPort)) = []) as ->.
  { apply Permutation_nil_r. by rewrite range_map_perm, map_to_list_empty. }
  cbn. unfold SortSubsets. cbn. apply Permutation_nil_r. by rewrite sort_perm.
Qed.
End properties.

(** C30: as long as the hash of the address lists has no collisions, two lists that offer the
    same are packed to equal subsets, in whatever orders the two runs range over their maps
    and sort: equality of the packed form decides whether the offers are the same. *)
Theorem RepackSubsets_same_offers `{EndpointHash} (R1 R2 : RangeOrder) (KP1 KP2 : KeyRange EndpointPort) (KL1 KL2 : KeyRange loc)
    (S1 S2 : EndpointSorts) subsets subsets' :
  collision_free → consistent (offers subsets) → consistent (offers subsets') →
  (@RepackSubsets R1 KP1 KL1 _ S1 subsets = @RepackSubsets R2 KP2 KL2 _ S2 subsets' ↔
   same_offers (offers subsets) (offers subsets')).
Proof.
  intros C Hc Hc'. rewrite !repacked by done. split.
  - intros E. transitivity (offers (@canonical _ S1 (offers subsets))); [symmetry; apply canonical_same|].
    rewrite E. apply canonical_same.
  - by apply canonical_same_offers.
Qed.

(** ** Concrete orders and hashes *)

Lemma consistent_check os :
  Forall (λ o, Forall (λ o', addressKey_of o.1.2 = addressKey_of o'.1.2 → o.1.2 = o'.1.2) os) os → consistent os.
Proof.
  intros Hf p a r p' a' r' H1 H2. rewrite Forall_forall in Hf. specialize (Hf _ H1). rewrite Forall_forall in Hf.
  by apply (Hf _ H2).
Defined.

Definition string_order_Sorts {A} (h : A → string) : Sorts (λ a b, string_lt (h a) (h b)).
Proof.
  apply merge_Sorts; intros *; [apply string_lt_irrefl|apply string_lt_trans|apply string_lt_split].
Defined.

Lemma LessEndpointAddress_order :
  (∀ a, LessEndpointAddress a a = false) ∧
  (∀ a b c, LessEndpointAddress a b = true → LessEndpointAddress b c = true → LessEndpointAddress a c = true) ∧
  (∀ a b c, LessEndpointAddress a c = true → LessEndpointAddress a b = true ∨ LessEndpointAddress b c = true).
Proof.
  assert (∀ a b, LessEndpointAddress a b = true ↔ string_lt (IP a) (IP b) = true ∨ IP a = IP b ∧
    match TargetRef b, TargetRef a with None, _ => False | Some _, None => True
    | Some rb, Some ra => string_lt (ref_UID ra) (ref_UID rb) = true end) as Hless.
  { intros a b. unfold LessEndpointAddress. destruct (decide (IP a = IP b)) as [E|E].
    - rewrite bool_decide_eq_false_2 by congruence. rewrite E, string_lt_irrefl. destruct (TargetRef a), (TargetRef b); naive_solver.
    - rewrite bool_decide_eq_true_2 by congruence. naive_solver. }
  split_and!.
  - intros a. apply not_true_is_false. rewrite Hless, string_lt_irrefl. destruct (TargetRef a); [|naive_solver].
    rewrite string_lt_irrefl. naive_solver.
  - intros a b c. rewrite !Hless. intros [H1|[-> H1]] [H2|[E H2]]; [left; by eapply string_lt_trans|left; by rewrite <- E|by left|].
    right. split; [done|]. destruct (TargetRef a), (TargetRef b), (TargetRef c); try done. by eapply string_lt_trans.
  - intros a b c. rewrite !Hless. intros [H1|[E H1]].
    + destruct (string_lt_split _ (IP b) _ H1); [left|right]; by left.
    + destruct (string_lt (IP a) (IP b)) eqn:Hab; [by left; left|]. destruct (string_lt (IP b) (IP c)) eqn:Hbc; [by right; left|].
      rewrite <- E in Hbc. assert (IP a = IP b) as Eab by (by apply string_lt_total). rewrite <- Eab, <- E.
      destruct (TargetRef a), (TargetRef b), (TargetRef c); try (by auto).
      destruct (string_lt_split _ (ref_UID o0) _ H1); auto.
Qed.

Module Demo.
(** A hash without collisions: a printer from whose output the object can be read
    back.  A printer prepends to the rest of the output. *)
Definition printer (A : Type) : Type := A → string → string.
Definition readable {A} (f : printer A) : Prop := ∀ a a' r r', f a r = f a' r' → a = a' ∧ r = r'.

Fixpoint print_string (s : string) (r : string) : string :=
  match s with EmptyString => String "0" r | String c s => String "1" (String c (print_string s r)) end.
Definition print_bool (b : bool) (r : string) : string := String (if b then "1" else "0") r.
Fixpoint print_positive (p : positive) (r : string) : string :=
  match p with xH => String "." r | xO p => String "0" (print_positive p r) | xI p => String "1" (print_positive p r) end.
Definition print_Z (z : Z) (r : string) : string :=
  match z with Z0 => String "0" r | Zpos p => String "+" (print_positive p r) | Zneg p => String "-" (print_positive p r) end.
Fixpoint print_list {A} (f : printer A) (l : list A) (r : string) : string :=
  match l with [] => String "0" r | x :: l => String "1" (f x (print_list f l r)) end.
Definition print_option {A} (f : printer A) (o : option A) : string → string :=
  print_list f (match o with Some x => [x] | None => [] end).

Lemma print_string_readable : readable print_string.
Proof.
  intros s. induction s as [|c s IH]; intros [|c' s'] r r'; cbn; try done; [by intros [= ->]|].
  intros [= -> E]. by destruct (IH _ _ _ E) as [-> ->].
Qed.

Lemma print_positive_readable : readable print_positive.
Proof.
  intros p. induction p as [p IH|p IH|]; intros [q|q|] r r'; cbn; try done; intros [= E]; [..|done];
    by destruct (IH _ _ _ E) as [-> ->].
Qed.

Lemma print_Z_readable : readable print_Z.
Proof.
  intros [|p|p] [|q|q] r r'; cbn; try done; intros [= E]; [done|..]; by destruct (print_positive_readable _ _ _ _ E) as [-> ->].
Qed.

Lemma print_bool_readable : readable print_bool.
Proof. intros [] [] r r' [= ->]; done. Qed.

Lemma print_list_readable {A} (f : printer A) : readable f → readable (print_list f).
Proof.
  intros Hf l. induction l as [|x l IH]; intros [|x' l'] r r'; cbn; try done; [by intros [= ->]|].
  intros [= E]. destruct (Hf _ _ _ _ E) as [-> E']. by destruct (IH _ _ _ E') as [-> ->].
Qed.

Lemma print_option_readable {A} (f : printer A) : readable f → readable (print_option f).
Proof. intros Hf [x|] [x'|] r r' [E ->]%(print_list_readable f Hf); try done. by injection E as ->. Qed.

Definition print_ref : printer ObjectReference := λ o r,
  print_string (ref_Kind o) (print_string (ref_Namespace o) (print_string (ref_Name o) (print_string (ref_UID o)
    (print_string (ref_APIVersion o) (print_string (ref_ResourceVersion o) (print_string (ref_FieldPath o) r)))))).
Definition print_address : printer EndpointAddress := λ a r, print_string (IP a) (print_option print_ref (TargetRef a) r).
Definition print_port : printer EndpointPort := λ p r,
  print_string (port_Name p) (print_Z (port_Port p) (print_string (port_Protocol p) r)).
Definition print_entry : printer (EndpointAddress * bool) := λ x r, print_address x.1 (print_bool x.2 r).
Definition print_subset : printer EndpointSubset := λ s r,
  print_list print_address (Addresses s) (print_list print_address (NotReadyAddresses s) (print_list print_port (Ports s) r)).

Lemma print_ref_readable : readable print_ref.
Proof.
  intros [] [] r r'. unfold print_ref. cbn. intros E.
  repeat (apply print_string_readable in E as [-> E]). by subst.
Qed.

Lemma print_address_readable : readable print_address.
Proof.
  intros [] [] r r' E. apply print_string_readable in E as [E1 E]. apply (print_option_readable _ print_ref_readable) in E as [E2 E].
  cbn in *. by subst.
Qed.

Lemma print_port_readable : readable print_port.
Proof.
  intros [] [] r r' E. apply print_string_readable in E as [E1 E]. apply print_Z_readable in E as [E2 E].
  apply print_string_readable in E as [E3 E]. cbn in *. by subst.
Qed.

Lemma print_entry_readable : readable print_entry.
Proof.
  intros [] [] r r' E. apply print_address_readable in E as [E1 E]. apply print_bool_readable in E as [E2 E]. cbn in *. by subst.
Qed.

Lemma print_subset_readable : readable print_subset.
Proof.
  intros [] [] r r' E. apply (print_list_readable _ print_address_readable) in E as [E1 E].
  apply (print_list_readable _ print_address_readable) in E as [E2 E]. apply (print_list_readable _ print_port_readable) in E as [E3 E].
  cbn in *. by subst.
Qed.

#[export] Instance hashes : EndpointHash := {|
  hash_addresses := λ l, print_list print_entry l "";
  hash_port := λ p, print_port p "";
  hash_subset := λ s, print_subset s "";
|}.

Lemma no_collisions : collision_free.
Proof.
  split; intros x y E; [by apply (print_list_readable _ print_entry_readable) in E as [-> _]|
    by apply print_port_readable in E as [-> _]|by apply print_subset_readable in E as [-> _]].
Qed.

#[export] Instance sorts : EndpointSorts.
Proof.
  split.
  - apply merge_Sorts; apply LessEndpointAddress_order.
  - intros mem. apply merge_Sorts; intros *; apply LessEndpointAddress_order.
  - apply string_order_Sorts.
  - apply string_order_Sorts.
Defined.

#[export] Instance port_range : KeyRange EndpointPort := canonical_range _.
#[export] Instance loc_range : KeyRange loc := canonical_range _.

Definition ref (uid : string) : ObjectReference := mkRef "Pod" "ns" ("pod-" +:+ uid) uid "" "1" "".
Definition a1 : EndpointAddress := mkAddress "10.0.0.1" (Some (ref "1")).
Definition a2 : EndpointAddress := mkAddress "10.0.0.2" (Some (ref "2")).
Definition http : EndpointPort := mkPort "http" 80 "TCP".
Definition https : EndpointPort := mkPort "https" 443 "TCP".

(** One subset per pod and port, as the endpoints controller makes them; [a1] at
    [https] is reported twice. *)
Definition subsets : list EndpointSubset :=
  [mkSubset [a2] [] [http]; mkSubset [a1] [] [http]; mkSubset [a1] [] [https]; mkSubset [] [a1] [https]].
Definition shuffled : list EndpointSubset :=
  [mkSubset [] [a1] [https]; mkSubset [a1; a2] [] [http]; mkSubset [] [a1] [https]].

Lemma subsets_consistent : consistent (offers subsets).
Proof. apply consistent_check. apply (bool_decide_unpack _). by vm_compute. Defined.

Lemma shuffled_consistent : consistent (offers shuffled).
Proof. apply consistent_check. apply (bool_decide_unpack _). by vm_compute. Defined.
End Demo.

#[local] Existing Instance canonical_order.
#[local] Existing Instances Demo.hashes Demo.sorts Demo.port_range Demo.loc_range.

Example Repack_demo : RepackSubsets Demo.subsets =
  [mkSubset [] [Demo.a1] [Demo.https]; mkSubset [Demo.a1; Demo.a2] [] [Demo.http]].
Proof. by vm_compute. Qed.

Lemma RepackSubsets_canonical_witness : RepackSubsets Demo.subsets = canonical (offers Demo.subsets).
Proof. apply RepackSubsets_canonical; [exact Demo.subsets_consistent|exact Demo.no_collisions]. Defined.

Lemma RepackSubsets_keeps_offers_witness :
  same_offers (offers (RepackSubsets Demo.subsets)) (offers Demo.subsets) ∧
  (∀ ss ss' p, ss ∈ RepackSubsets Demo.subsets → ss' ∈ RepackSubsets Demo.subsets → p ∈ Ports ss → p ∈ Ports ss' → ss = ss') ∧
  RepackSubsets (RepackSubsets Demo.subsets) = RepackSubsets Demo.subsets.
Proof. apply RepackSubsets_keeps_offers; [exact Demo.subsets_consistent|exact Demo.no_collisions]. Defined.

Lemma RepackSubsets_same_offers_witness :
  (RepackSubsets Demo.subsets = RepackSubsets Demo.shuffled ↔ same_offers (offers Demo.subsets) (offers Demo.shuffled)) ∧
  RepackSubsets Demo.subsets = RepackSubsets Demo.shuffled.
Proof.
  split; [|by vm_compute].
  apply (RepackSubsets_same_offers canonical_order canonical_order Demo.port_range Demo.port_range Demo.loc_range Demo.loc_range
    Demo.sorts Demo.sorts); [exact Demo.no_collisions|exact Demo.subsets_consistent|exact Demo.shuffled_consistent].
Defined.
