(* ===== verification/Fifo.v ===== *)
(** * cache.FIFO: the producer-consumer queue of objects

    Models [pkg/client/cache/fifo.go].  Each method runs under the queue's lock
    and is one function on the record [FIFO]; [Pop], which waits on a condition
    variable, is [pop_attempt] (one run of its inner loop, from the moment the
    lock is held until it returns an item or finds the queue empty and waits)
    and the broadcasts of the other methods are their only effect left out.

    The theorems: every item is queued; a popped item is the most recent
    version of its object; [FIFO] keeps the laws of a store; and how the stale
    identifiers that [Delete] leaves in the queue show in the order of [Pop]. *)

From S2P Require Import Prelude.
From S2P Require Import Store.

(** ** Data *)

Record FIFO (V : Type) : Type := mkFIFO {
  items : gmap string V;
  queue : list string;
  populated : bool;
  initialPopulationCount : nat;
  keyFunc : KeyFunc V;
}.
Arguments mkFIFO {V} _ _ _ _ _.
Arguments items {V} _.
Arguments queue {V} _.
Arguments populated {V} _.
Arguments initialPopulationCount {V} _.
Arguments keyFunc {V} _.

(** ** Operations *)
Section operations.
Context `{R : RangeOrder} {V : Type}.
Implicit Types (f : FIFO V) (obj : V).

Definition NewFIFO (keyFunc : KeyFunc V) : FIFO V := mkFIFO ∅ [] false 0 keyFunc.

Definition HasSynced f : bool := populated f && Nat.eqb (initialPopulationCount f) 0.

Definition Add obj f : FIFO V * option (error V) :=
  match keyFunc f obj with
  | Err err => (f, Some (KeyError obj err))
  | Ok id =>
      let queue' := match items f !! id with
                    | Some _ => queue f
                    | None => queue f ++ [id]
                    end in
      (mkFIFO (<[id := obj]> (items f)) queue' true (initialPopulationCount f) (keyFunc f), None)
  end.

Definition AddIfNotPresent obj f : FIFO V * option (error V) :=
  match keyFunc f obj with
  | Err err => (f, Some (KeyError obj err))
  | Ok id =>
      match items f !! id with
      | Some _ =>
          (mkFIFO (items f) (queue f) true (initialPopulationCount f) (keyFunc f), None)
      | None =>
          (mkFIFO (<[id := obj]> (items f)) (queue f ++ [id]) true
             (initialPopulationCount f) (keyFunc f), None)
      end
  end.

Definition Update obj f : FIFO V * option (error V) := Add obj f.

(** The identifier stays in the queue. *)
Definition Delete obj f : FIFO V * option (error V) :=
  match keyFunc f obj with
  | Err err => (f, Some (KeyError obj err))
  | Ok id =>
      (mkFIFO (delete id (items f)) (queue f) true (initialPopulationCount f) (keyFunc f), None)
  end.

Definition List f : list V := range_values (items f).

Definition ListKeys f : list string := range_keys (items f).

Definition GetByKey (key : string) f : result (error V) (option V) := Ok (items f !! key).

Definition Get obj f : result (error V) (option V) :=
  match keyFunc f obj with
  | Err err => Err (KeyError obj err)
  | Ok key => GetByKey key f
  end.

(** The loop of [Pop] on the queue [q]: drop the identifiers whose item is
    gone, count each one off the initial population, return the first item.
    [None]: the queue ran empty and the caller waits. *)
Fixpoint popLoop (q : list string) (items : gmap string V) (count : nat) :
    option V * (gmap string V * list string * nat) :=
  match q with
  | [] => (None, (items, [], count))
  | id :: q =>
      let count := if Nat.ltb 0 count then count - 1 else count in
      match items !! id with
      | None => popLoop q items count
      | Some item => (Some item, (delete id items, q, count))
      end
  end.

Definition pop_attempt f : FIFO V * option V :=
  let '(r, (items, queue, count)) := popLoop (queue f) (items f) (initialPopulationCount f) in
  (mkFIFO items queue (populated f) count (keyFunc f), r).

Definition Replace (list : list V) (resourceVersion : string) f : FIFO V * option (error V) :=
  match keyed_items (keyFunc f) list ∅ with
  | Err err => (f, Some err)
  | Ok items =>
      let count := if negb (populated f) then size items else initialPopulationCount f in
      (mkFIFO items (range_keys items) true count (keyFunc f), None)
  end.
End operations.

#[global] Arguments Add : simpl never.
#[global] Arguments AddIfNotPresent : simpl never.
#[global] Arguments Delete : simpl never.
#[global] Arguments Replace : simpl never.
#[global] Arguments pop_attempt : simpl never.

#[export] Instance fifo_store `{RangeOrder} {V} : Store (FIFO V) V := {|
  store_Add := Add;
  store_Update := Update;
  store_Delete := Delete;
  store_List := λ f, (f, List f);
  store_ListKeys := λ f, (f, ListKeys f);
  store_Get := λ obj f, (f, Get obj f);
  store_GetByKey := λ key f, (f, GetByKey key f);
  store_Replace := Replace;
|}.

(** ** Facts *)
Section facts.
Context `{R : RangeOrder} {V : Type}.
Implicit Types (f : FIFO V) (obj : V).

#[export] Program Instance fifo_store_laws : StoreLaws (FIFO V) V := {|
  store_key := keyFunc;
  contents := items;
|}.
Next Obligation. intros v s. cbn. unfold Add. by destruct (keyFunc s v). Qed.
Next Obligation. intros v s. cbn. unfold Delete. by destruct (keyFunc s v). Qed.
Next Obligation. intros l rv s. cbn. unfold Replace. by destruct (keyed_items _ _ _). Qed.
Next Obligation. intros v s. cbn. unfold Add. by destruct (keyFunc s v). Qed.
Next Obligation. done. Qed.
Next Obligation. intros v s. cbn. unfold Delete. by destruct (keyFunc s v). Qed.
Next Obligation. intros l rv s. cbn. unfold Replace. by destruct (keyed_items _ _ _). Qed.
Next Obligation. intros s. cbn. split; [done|]. apply fmap_Permutation, range_map_perm. Qed.
Next Obligation. intros s. cbn. split; [done|]. apply range_keys_perm. Qed.
Next Obligation. intros v s. cbn. unfold Get. by destruct (keyFunc s v). Qed.
Next Obligation. done. Qed.

Lemma Add_keyed obj f id : keyFunc f obj = Ok id → (Add obj f).1 =
  mkFIFO (<[id := obj]> (items f))
    (match items f !! id with Some _ => queue f | None => queue f ++ [id] end)
    true (initialPopulationCount f) (keyFunc f).
Proof. unfold Add. by intros ->. Qed.

Lemma Delete_keyed obj f id : keyFunc f obj = Ok id → (Delete obj f).1 =
  mkFIFO (delete id (items f)) (queue f) true (initialPopulationCount f) (keyFunc f).
Proof. unfold Delete. by intros ->. Qed.

Lemma Replace_keyed l rv f m : keyed_items (keyFunc f) l ∅ = Ok m → (Replace l rv f).1 =
  mkFIFO m (range_keys m) true
    (if negb (populated f) then size m else initialPopulationCount f) (keyFunc f).
Proof. unfold Replace. by intros ->. Qed.

(** What [FIFO] relies on: every item's identifier is queued. *)
Definition fifo_ok f : Prop := ∀ id, is_Some (items f !! id) → id ∈ queue f.

(** The other direction, and that no identifier is queued twice: broken by
    [Delete], kept by everything else. *)
Definition fifo_tight f : Prop :=
  NoDup (queue f) ∧ ∀ id, id ∈ queue f → is_Some (items f !! id).

Lemma fifo_ok_New (kf : KeyFunc V) : fifo_ok (NewFIFO kf).
Proof. intros id [x Hx]. cbn in Hx. by apply lookup_empty_Some in Hx. Qed.

Lemma fifo_ok_Add obj f : fifo_ok f → fifo_ok (Add obj f).1.
Proof.
  intros Hok. unfold Add. destruct (keyFunc f obj) as [id|]; [|done].
  intros id'. cbn. rewrite lookup_insert. specialize (Hok id').
  destruct (items f !! id) eqn:E; case_decide; subst; rewrite ?elem_of_app, ?elem_of_cons;
    intros; try (apply Hok; eauto; fail); auto.
Qed.

Lemma fifo_ok_AddIfNotPresent obj f : fifo_ok f → fifo_ok (AddIfNotPresent obj f).1.
Proof.
  intros Hok. unfold AddIfNotPresent. destruct (keyFunc f obj) as [id|]; [|done].
  destruct (items f !! id) eqn:E; [done|]. intros id'. cbn. rewrite lookup_insert.
  specialize (Hok id'). case_decide; subst; rewrite elem_of_app, elem_of_cons; auto.
Qed.

Lemma fifo_ok_Delete obj f : fifo_ok f → fifo_ok (Delete obj f).1.
Proof.
  intros Hok. unfold Delete. destruct (keyFunc f obj) as [id|]; [|done].
  intros id'. cbn. rewrite lookup_delete. case_decide; [by intros []|apply Hok].
Qed.

Lemma fifo_ok_Replace l rv f : fifo_ok f → fifo_ok (Replace l rv f).1.
Proof.
  intros Hok. unfold Replace. destruct (keyed_items _ _ _); [|done].
  intros id'. cbn. by rewrite elem_of_range_keys.
Qed.

(** The loop of [Pop]: it skips exactly the identifiers without an item. *)
Lemma popLoop_spec q (m : gmap string V) n :
  match popLoop q m n with
  | (None, (m', q', n')) => m' = m ∧ q' = [] ∧ n' = n - length q ∧ (∀ id, id ∈ q → m !! id = None)
  | (Some item, (m', q', n')) => ∃ stale id,
      q = stale ++ id :: q' ∧ (∀ id', id' ∈ stale → m !! id' = None) ∧
      m !! id = Some item ∧ m' = delete id m ∧ n' = n - S (length stale)
  end.
Proof.
  revert n. induction q as [|id q IH]; intros n; cbn.
  { split_and!; [done..|lia|]. by intros id ?%elem_of_nil. }
  destruct (m !! id) as [item|] eqn:E.
  - exists [], id. split_and!; [done| |done|done|destruct n; cbn; lia]. by intros ? ?%elem_of_nil.
  - specialize (IH (if Nat.ltb 0 n then n - 1 else n)).
    destruct (popLoop q m _) as [[item|] [[m' q'] n']].
    + destruct IH as (stale & id' & -> & Hst & Hid & -> & ->). exists (id :: stale), id'.
      split_and!; [done| |done|done|destruct n; cbn; lia].
      intros x [->|Hx]%elem_of_cons; auto.
    + destruct IH as (-> & -> & -> & Hq). split_and!; [done..|destruct n; cbn; lia|].
      intros x [->|Hx]%elem_of_cons; auto.
Qed.

Lemma fifo_ok_pop f : fifo_ok f → fifo_ok (pop_attempt f).1.
Proof.
  intros Hok. unfold pop_attempt.
  pose proof (popLoop_spec (queue f) (items f) (initialPopulationCount f)) as Hs.
  destruct (popLoop _ _ _) as [[item|] [[m' q'] n']]; intros id'; cbn.
  - destruct Hs as (stale & id & Hq & Hst & Hid & -> & _). rewrite lookup_delete.
    case_decide; [by intros []|]. intros Hsome. pose proof (Hok id' Hsome) as Hin.
    rewrite Hq, elem_of_app, elem_of_cons in Hin. destruct Hin as [Hin|[->|Hin]]; [|done|done].
    apply Hst in Hin. rewrite Hin in Hsome. by destruct Hsome.
  - destruct Hs as (-> & -> & _ & Hnone). intros Hsome.
    rewrite Hnone in Hsome by by apply Hok. by destruct Hsome.
Qed.
End facts.

(** ** Runs *)

(** The calls a producer and a consumer make; [OpPop] is a [Pop] that gives up
    when the queue is empty. *)
Inductive op (V : Type) : Type :=
| OpAdd (obj : V) | OpAddIfNotPresent (obj : V) | OpDelete (obj : V)
| OpReplace (list : list V) (resourceVersion : string) | OpPop.
Arguments OpAdd {V} obj.
Arguments OpAddIfNotPresent {V} obj.
Arguments OpDelete {V} obj.
Arguments OpReplace {V} list resourceVersion.
Arguments OpPop {V}.

Section runs.
Context `{R : RangeOrder} {V : Type}.
Implicit Types (f : FIFO V) (ops : list (op V)).

Definition apply f (o : op V) : FIFO V :=
  match o with
  | OpAdd obj => (Add obj f).1
  | OpAddIfNotPresent obj => (AddIfNotPresent obj f).1
  | OpDelete obj => (Delete obj f).1
  | OpReplace l rv => (Replace l rv f).1
  | OpPop => (pop_attempt f).1
  end.

Definition run f ops : FIFO V := foldl apply f ops.

Lemma fifo_ok_apply f o : fifo_ok f → fifo_ok (apply f o).
Proof.
  destruct o; cbn; eauto using fifo_ok_Add, fifo_ok_AddIfNotPresent, fifo_ok_Delete,
    fifo_ok_Replace, fifo_ok_pop.
Qed.

Lemma fifo_ok_run f ops : fifo_ok f → fifo_ok (run f ops).
Proof.
  intros Hf. unfold run. apply (foldl_inv fifo_ok); [done|]. eauto using fifo_ok_apply.
Qed.

(** [n] calls of [Pop], the items they return. *)
Fixpoint pop_n (n : nat) f : FIFO V * list V :=
  match n with
  | 0 => (f, [])
  | S n =>
      match pop_attempt f with
      | (f', Some item) => let '(f'', l) := pop_n n f' in (f'', item :: l)
      | (f', None) => (f', [])
      end
  end.

Lemma pop_attempt_Some f f' item :
  pop_attempt f = (f', Some item) →
  ∃ stale id, queue f = stale ++ id :: queue f' ∧
    (∀ id', id' ∈ stale → items f !! id' = None) ∧
    items f !! id = Some item ∧ items f' = delete id (items f) ∧ populated f' = populated f ∧
    keyFunc f' = keyFunc f ∧
    initialPopulationCount f' = initialPopulationCount f - S (length stale).
Proof.
  unfold pop_attempt. pose proof (popLoop_spec (queue f) (items f) (initialPopulationCount f)) as Hs.
  destruct (popLoop _ _ _) as [[i|] [[m q] n]]; intros [= <- ]; subst; cbn.
  destruct Hs as (stale & id & ? & ? & ? & ? & ?). by exists stale, id.
Qed.

Lemma pop_attempt_None f f' :
  pop_attempt f = (f', None) →
  queue f' = [] ∧ items f' = items f ∧ populated f' = populated f ∧ keyFunc f' = keyFunc f ∧
  initialPopulationCount f' = initialPopulationCount f - length (queue f) ∧
  (∀ id, id ∈ queue f → items f !! id = None).
Proof.
  unfold pop_attempt. pose proof (popLoop_spec (queue f) (items f) (initialPopulationCount f)) as Hs.
  destruct (popLoop _ _ _) as [[i|] [[m q] n]]; intros [= <-]; subst; cbn.
  by destruct Hs as (-> & -> & -> & ?).
Qed.

(** A consumer waits only when there is nothing to return. *)
Lemma pop_blocks_iff_empty f : fifo_ok f → (pop_attempt f).2 = None ↔ items f = ∅.
Proof.
  intros Hok. destruct (pop_attempt f) as [f' [item|]] eqn:E; cbn.
  - apply pop_attempt_Some in E as (stale & id & _ & _ & Hid & _). split; [done|].
    intros Hm. by rewrite Hm, lookup_empty in Hid.
  - apply pop_attempt_None in E as (_ & _ & _ & _ & _ & Hnone). split; [|done]. intros _.
    apply map_eq. intros id. rewrite lookup_empty. destruct (items f !! id) eqn:Hi; [|done].
    rewrite <- Hi. apply Hnone, Hok. eauto.
Qed.

Lemma drain f n : fifo_ok f → size (items f) = n →
  items (pop_n n f).1 = ∅ ∧ (pop_n n f).2 ≡ₚ (map_to_list (items f)).*2.
Proof.
  revert f. induction n as [|n IH]; intros f Hok Hn; cbn.
  { apply map_size_empty_inv in Hn. rewrite Hn. split; [done|]. by rewrite map_to_list_empty. }
  pose proof (fifo_ok_pop f Hok) as Hok'. pose proof (pop_blocks_iff_empty f Hok) as Hb.
  destruct (pop_attempt f) as [f' [item|]] eqn:E; cbn in *.
  - apply pop_attempt_Some in E as (stale & id & _ & _ & Hid & Hm & _).
    destruct (IH f') as [He Hp]; [done| |].
    { rewrite Hm, map_size_delete_Some by eauto. lia. }
    destruct (pop_n n f') as [f'' l]; cbn in *. split; [done|].
    by rewrite Hp, Hm, <- (map_to_list_delete (items f) id item Hid).
  - destruct Hb as [Hb _]. rewrite Hb in Hn by done. by rewrite map_size_empty in Hn.
Qed.
End runs.

(** ** Properties *)

(** After any calls of a new FIFO's methods, every stored item has its
    identifier in the queue, so [Pop] waits exactly when nothing is stored. *)
Theorem pop_waits_iff_empty (R : RangeOrder) (V : Type) (kf : KeyFunc V) (ops : list (op V)) :
  let f := run (NewFIFO kf) ops in
  fifo_ok f ∧ ((pop_attempt f).2 = None ↔ items f = ∅).
Proof.
  cbv zeta. assert (fifo_ok (run (NewFIFO kf) ops)) as Hok.
  { apply fifo_ok_run. apply fifo_ok_New. }
  split; [done|]. by apply pop_blocks_iff_empty.
Qed.

(** After any calls of a new FIFO's methods, as many calls of [Pop] as
    there are items return every stored object once, in its latest version,
    and empty the queue. *)
Theorem pops_return_each_item_once (R : RangeOrder) (V : Type) (kf : KeyFunc V) (ops : list (op V)) :
  let f := run (NewFIFO kf) ops in
  items (pop_n (size (items f)) f).1 = ∅ ∧
  (pop_n (size (items f)) f).2 ≡ₚ (map_to_list (items f)).*2.
Proof.
  cbv zeta. apply drain; [|done]. apply fifo_ok_run. apply fifo_ok_New.
Qed.

(** *** Order *)

(** The calls after which the queue enumerates the items without repetition:
    everything but [Delete]. *)
Definition keeps_order {V} (o : op V) : Prop :=
  match o with OpDelete _ => False | _ => True end.

Section order.
Context `{R : RangeOrder} {V : Type}.
Implicit Types (f : FIFO V) (ops : list (op V)).

Lemma tight_enqueue f id obj n :
  fifo_tight f → items f !! id = None →
  fifo_tight (mkFIFO (<[id := obj]> (items f)) (queue f ++ [id]) true n (keyFunc f)).
Proof.
  intros [Hnd Hq] Hid. split; cbn.
  - apply NoDup_snoc; [done|]. intros Hin%Hq. rewrite Hid in Hin. by destruct Hin.
  - intros id'. rewrite elem_of_app, list_elem_of_singleton, lookup_insert_is_Some.
    intros [?| ->]; [|by left]. destruct (decide (id = id')); [by left|right]. auto.
Qed.

Lemma tight_apply f o : keeps_order o → fifo_tight f → fifo_tight (apply f o).
Proof.
  intros Ho Ht. destruct o as [obj|obj|obj|l rv|]; cbn in *; [..|done| |].
  - unfold Add. destruct (keyFunc f obj) as [id|]; [|done]. cbn.
    destruct (items f !! id) eqn:E; [|by apply tight_enqueue].
    destruct Ht as [Hnd Hq]. split; cbn; [done|]. intros id' Hin.
    rewrite lookup_insert_is_Some. destruct (decide (id = id')); auto.
  - unfold AddIfNotPresent. destruct (keyFunc f obj) as [id|]; [|done].
    destruct (items f !! id) eqn:E; cbn; [by destruct Ht|by apply tight_enqueue].
  - unfold Replace. destruct (keyed_items _ _ _); [|done].
    split; cbn; [apply NoDup_range_keys|]. intros id. by rewrite elem_of_range_keys.
  - destruct Ht as [Hnd Hq]. destruct (pop_attempt f) as [f' [item|]] eqn:E; cbn.
    + apply pop_attempt_Some in E as (stale & id & Hqf & Hst & Hid & Hm & _).
      rewrite Hqf in Hnd, Hq. apply NoDup_app in Hnd as (_ & _ & [Hni Hnd]%NoDup_cons).
      split; [done|]. intros id' Hin. rewrite Hm, lookup_delete_ne by set_solver.
      apply Hq. set_solver.
    + apply pop_attempt_None in E as (Hq' & _). split; rewrite Hq'; [constructor|].
      by intros ? ?%elem_of_nil.
Qed.

(** Under the invariant [Pop] returns the item at the head of the queue. *)
Lemma pop_tight f id q :
  fifo_tight f → queue f = id :: q → (pop_attempt f).2 = items f !! id ∧ queue (pop_attempt f).1 = q.
Proof.
  intros [_ Hq] E. unfold pop_attempt. rewrite E. cbn.
  destruct (Hq id) as [item ->]; [rewrite E; left|]. done.
Qed.
End order.

(** As long as [Delete] is not called, the queue lists the identifiers of
    the items, each once, and [Pop] returns the one that has been there
    longest: the stated order of [Pop]. *)
Theorem pop_order_without_delete (R : RangeOrder) (V : Type) (kf : KeyFunc V) (ops : list (op V)) id q :
  Forall keeps_order ops → queue (run (NewFIFO kf) ops) = id :: q →
  let f := run (NewFIFO kf) ops in
  NoDup (queue f) ∧ (∀ id, id ∈ queue f ↔ is_Some (items f !! id)) ∧
  (pop_attempt f).2 = items f !! id ∧ queue (pop_attempt f).1 = q.
Proof.
  cbv zeta. intros Hops Hq.
  assert (fifo_tight (run (NewFIFO kf) ops)) as Ht.
  { unfold run. apply (foldl_inv fifo_tight).
    - split; [constructor|]. by intros ? ?%elem_of_nil.
    - intros f o Ho. apply tight_apply. rewrite Forall_forall in Hops. by apply Hops. }
  destruct (pop_tight _ id q Ht Hq) as [Hp1 Hp2].
  destruct (pop_waits_iff_empty R V kf ops) as [Hok _].
  split_and!; [apply Ht| |done..]. intros id'. split; [apply Ht|apply Hok].
Qed.

(** [Delete] leaves its identifier in the queue, so an object that is
    deleted and added again keeps its old place: it is returned before an
    object that was added before it.  This contradicts the comment on [Pop],
    which says items are returned in the order in which they were added. *)
Theorem pop_order_after_delete (R : RangeOrder) (V : Type) (kf : KeyFunc V) (a a' b : V) ka kb :
  kf a = Ok ka → kf a' = Ok ka → kf b = Ok kb → ka ≠ kb →
  let f := run (NewFIFO kf) [OpAdd a; OpAdd b; OpDelete a; OpAdd a'] in
  (pop_attempt f).2 = Some a' ∧ queue f = [ka; kb; ka] ∧ ¬ fifo_tight f.
Proof.
  intros Ha Ha' Hb Hne. cbv zeta. unfold run. cbn [foldl apply].
  rewrite (Add_keyed a _ ka) by done. cbn. rewrite lookup_empty.
  rewrite (Add_keyed b _ kb) by done. cbn. rewrite (lookup_insert_ne _ ka kb), lookup_empty by done.
  rewrite (Delete_keyed a _ ka) by done. cbn.
  rewrite (Add_keyed a' _ ka) by done. cbn. rewrite lookup_delete_eq. cbn.
  unfold pop_attempt. cbn. rewrite lookup_insert_eq. cbn.
  split_and!; [done..|]. intros [Hnd _]. cbn in Hnd.
  apply NoDup_cons in Hnd as [Hni _]. apply Hni. set_solver.
Qed.

(** *** The initial population *)
Section synced.
Context `{R : RangeOrder} {V : Type}.
Implicit Types (f : FIFO V) (ops : list (op V)).

(** The queue is what is left of the first batch, then later arrivals, and the
    counter is the length of what is left. *)
Definition batch_inv (batch : list string) f : Prop :=
  populated f = true ∧ ∃ rest later, rest `suffix_of` batch ∧ queue f = rest ++ later ∧
    initialPopulationCount f = length rest.

Definition no_replace (o : op V) : Prop :=
  match o with OpReplace _ _ => False | _ => True end.

Lemma batch_enqueue batch f m b id :
  batch_inv batch f →
  batch_inv batch (mkFIFO m (queue f ++ b) true (initialPopulationCount f) id).
Proof.
  intros [Hp (rest & later & Hs & Hq & Hn)]. split; [done|].
  exists rest, (later ++ b). cbn. by rewrite Hq, <- app_assoc.
Qed.

Lemma batch_keep batch f m id :
  batch_inv batch f → batch_inv batch (mkFIFO m (queue f) true (initialPopulationCount f) id).
Proof. intros H. rewrite <- (app_nil_r (queue f)). by apply batch_enqueue. Qed.

Lemma batch_drop batch f q m n p kf k :
  batch_inv batch f → queue f = k ++ q → n = initialPopulationCount f - length k → p = true →
  batch_inv batch (mkFIFO m q p n kf).
Proof.
  intros [_ (rest & later & Hs & Hq & Hn)] Hk -> ->. split; [done|]. cbn.
  exists (drop (length k) rest), (drop (length k - length rest) later). split_and!.
  - etrans; [|done]. apply suffix_drop.
  - rewrite Hk in Hq. apply (f_equal (drop (length k))) in Hq.
    by rewrite drop_app_length, drop_app in Hq.
  - by rewrite length_drop, Hn.
Qed.

Lemma batch_apply batch f o : no_replace o → batch_inv batch f → batch_inv batch (apply f o).
Proof.
  intros Ho Hi. destruct o as [obj|obj|obj|l rv|]; cbn in *; [..|done|].
  - unfold Add. destruct (keyFunc f obj); [|done]. cbn.
    destruct (items f !! _); [by apply batch_keep|by apply batch_enqueue].
  - unfold AddIfNotPresent. destruct (keyFunc f obj); [|done].
    destruct (items f !! _); [by apply batch_keep|by apply batch_enqueue].
  - unfold Delete. destruct (keyFunc f obj); [|done]. by apply batch_keep.
  - pose proof Hi as [Hp _]. destruct (pop_attempt f) as [[m q p n kf] [item|]] eqn:E; cbn.
    + apply pop_attempt_Some in E as (stale & id & Hq & _ & _ & _ & Hp' & _ & Hn). cbn in *.
      apply (batch_drop batch f q m n p kf (stale ++ [id])); [done| | |congruence].
      * by rewrite <- app_assoc.
      * rewrite length_app. cbn. lia.
    + apply pop_attempt_None in E as (Hq & _ & Hp' & _ & Hn & _). cbn in *. subst q.
      apply (batch_drop batch f [] m n p kf (queue f)); [done|by rewrite app_nil_r|done|congruence].
Qed.
End synced.

(** When the first call on a new FIFO is a [Replace] and no other [Replace]
    follows, [HasSynced] is false until the last identifier of that batch has
    left the queue and true from then on. *)
Theorem HasSynced_after_first_batch (R : RangeOrder) (V : Type) (kf : KeyFunc V)
    (l : list V) rv m (ops : list (op V)) :
  keyed_items kf l ∅ = Ok m → Forall no_replace ops →
  let f := run (NewFIFO kf) (OpReplace l rv :: ops) in
  ∃ rest later, rest `suffix_of` range_keys m ∧ queue f = rest ++ later ∧
    (HasSynced f = true ↔ rest = []).
Proof.
  intros Hm Hops. cbv zeta.
  assert (batch_inv (range_keys m) (run (NewFIFO kf) (OpReplace l rv :: ops))) as Hi.
  { unfold run. cbn [foldl apply]. rewrite (Replace_keyed l rv _ m) by done. cbn.
    apply (foldl_inv (batch_inv (range_keys m))).
    - split; [done|]. exists (range_keys m), []. cbn. rewrite app_nil_r. split_and!; [done..|].
      unfold range_keys. by rewrite length_fmap, length_range_map.
    - intros f o Ho. apply batch_apply. rewrite Forall_forall in Hops. by apply Hops. }
  destruct Hi as [Hp (rest & later & Hs & Hq & Hn)]. exists rest, later. split_and!; [done..|].
  unfold HasSynced. rewrite Hp, Hn. cbn. rewrite Nat.eqb_eq, length_zero_iff_nil. done.
Qed.

(** A second [Replace] shortens the queue but not the counter: a FIFO that
    was replaced by one object and then emptied reports that it has not
    synced, although the queue is empty. *)
Theorem HasSynced_stuck_after_relist (R : RangeOrder) (V : Type) (kf : KeyFunc V) (a b : V) ka kb :
  kf a = Ok ka → kf b = Ok kb → ka ≠ kb →
  let f := run (NewFIFO kf) [OpReplace [a; b] "1"; OpReplace [a] "2"; OpPop] in
  queue f = [] ∧ items f = ∅ ∧ HasSynced f = false.
Proof.
  intros Ha Hb Hne. cbv zeta. unfold run. cbn [foldl apply].
  rewrite (Replace_keyed [a; b] "1" _ (<[kb := b]> {[ka := a]})) by (cbn; by rewrite Ha, Hb). cbn.
  rewrite (Replace_keyed [a] "2" _ {[ka := a]}) by (cbn; by rewrite Ha). cbn.
  assert (range_keys ({[ka := a]} : gmap string V) = [ka]) as Hk.
  { apply Permutation_singleton_r. by rewrite range_keys_perm, map_to_list_singleton. }
  rewrite Hk. unfold pop_attempt. cbn. rewrite lookup_singleton_eq. cbn.
  rewrite delete_singleton_eq. split_and!; [done..|].
  unfold HasSynced. cbn. rewrite map_size_insert_None, map_size_singleton; [done|].
  by apply lookup_singleton_None.
Qed.

(** ** Witnesses *)

(** Strings that are their own key. *)
Definition self_key : KeyFunc string := λ s, Ok s.
(** Strings keyed by their first letter. *)
Definition letter_key : KeyFunc string := λ s, Ok (String.substring 0 1 s).

Lemma pop_order_without_delete_witness :
  let R := canonical_order in
  let f := run (NewFIFO self_key) [OpAdd "a"; OpAdd "b"; OpAdd "c"; OpPop; OpAdd "b"] in
  queue f = ["b"; "c"] ∧
  NoDup (queue f) ∧ (∀ id, id ∈ queue f ↔ is_Some (items f !! id)) ∧
  (pop_attempt f).2 = items f !! "b" ∧ queue (pop_attempt f).1 = ["c"].
Proof.
  cbv zeta. split; [vm_compute; reflexivity|].
  apply (pop_order_without_delete canonical_order string self_key
    [OpAdd "a"; OpAdd "b"; OpAdd "c"; OpPop; OpAdd "b"] "b" ["c"]).
  - repeat constructor.
  - vm_compute. reflexivity.
Defined.

Lemma pop_order_after_delete_witness :
  let R := canonical_order in
  let f := run (NewFIFO letter_key) [OpAdd "a1"; OpAdd "b1"; OpDelete "a1"; OpAdd "a2"] in
  (pop_attempt f).2 = Some "a2" ∧ queue f = ["a"; "b"; "a"] ∧ ¬ fifo_tight f.
Proof.
  apply (pop_order_after_delete canonical_order string letter_key "a1" "a2" "b1" "a" "b");
    [reflexivity..|done].
Defined.

Lemma HasSynced_after_first_batch_witness :
  let R := canonical_order in
  let f := run (NewFIFO self_key) [OpReplace ["a"; "b"] "7"; OpDelete "a"; OpPop; OpAdd "c"] in
  ∃ rest later, rest `suffix_of` range_keys (<["b" := "b"]> {["a" := "a"]} : gmap string string) ∧
    queue f = rest ++ later ∧ (HasSynced f = true ↔ rest = []).
Proof.
  apply (HasSynced_after_first_batch canonical_order string self_key ["a"; "b"] "7"
    (<["b" := "b"]> {["a" := "a"]}) [OpDelete "a"; OpPop; OpAdd "c"]).
  - reflexivity.
  - repeat constructor.
Defined.

Lemma HasSynced_stuck_after_relist_witness :
  let R := canonical_order in
  let f := run (NewFIFO self_key) [OpReplace ["a"; "b"] "1"; OpReplace ["a"] "2"; OpPop] in
  queue f = [] ∧ items f = ∅ ∧ HasSynced f = false.
Proof.
  apply (HasSynced_stuck_after_relist canonical_order string self_key "a" "b" "a" "b");
    [reflexivity..|done].
Defined.
