(* ===== verification/DeltaFifo.v ===== *)
(** * cache.DeltaFIFO: the queue of changes between a reflector and a controller

    Models [pkg/client/cache/delta_fifo.go].  The queue keeps, for each key, the
    list of changes ([Delta]s) not yet popped.  [knownObjects], which belongs to
    the consumer and changes on its own, is an argument of the methods that
    read it, through the interface [KeyListerGetter]; the optional compressor is
    a field.  [AddIfNotPresent] and [List] dereference [Newest()], so they can
    panic; the other methods return the new state and an error.

    The theorems: the relation between queue and items, with and without a
    compressor; what a delta list says about the object it is for
    ([replay]) and that queueing an action and de-duplicating never change it;
    and which deltas [Replace] produces. *)

From S2P Require Import Prelude.
From S2P Require Import SetsString.
From S2P Require Import ThreadSafeStore.
From S2P Require Import Store.
From S2P Require Import Fifo.

(** ** Data *)

Abbreviation Deltas A := (list (Delta A)).

(** [DeltaCompressor], also the adapter [DeltaCompressorFunc]. *)
Definition DeltaCompressor (A : Type) : Type := Deltas A → Deltas A.

Record DeltaFIFO (A : Type) : Type := mkDeltaFIFO {
  items : gmap string (Deltas A);
  queue : list string;
  populated : bool;
  initialPopulationCount : nat;
  keyFunc : KeyFunc (iface A);
  deltaCompressor : option (DeltaCompressor A);
}.
Arguments mkDeltaFIFO {A} _ _ _ _ _ _.
Arguments items {A} _.
Arguments queue {A} _.
Arguments populated {A} _.
Arguments initialPopulationCount {A} _.
Arguments keyFunc {A} _.
Arguments deltaCompressor {A} _.

(** What [knownObjects] offers the queue. *)
Class KeyListerGetter (K A : Type) : Type := {
  known_ListKeys : K → list string;
  known_GetByKey : string → K → result (error (iface A)) (option (iface A));
}.

(** ** Deltas *)
Section deltas.
Context {A : Type}.
Implicit Types (d : Delta A) (ds : Deltas A).

Definition Type_ d : DeltaType := let '(mkDelta t _) := d in t.
Definition Object d : iface A := let '(mkDelta _ o) := d in o.

Definition Oldest ds : option (Delta A) := head ds.
Definition Newest ds : option (Delta A) := last ds.

(** Keep the one with the most information if both are deletions. *)
Definition isDeletionDup (a b : Delta A) : option (Delta A) :=
  if negb (bool_decide (Type_ b = Deleted)) || negb (bool_decide (Type_ a = Deleted)) then None
  else match Object b with
       | IDeletedFinalStateUnknown _ _ => Some a
       | _ => Some b
       end.

Definition isDup (a b : Delta A) : option (Delta A) :=
  match isDeletionDup a b with Some out => Some out | None => None end.

Definition dedupDeltas ds : Deltas A :=
  let n := length ds in
  if Nat.ltb n 2 then ds
  else match ds !! (n - 1), ds !! (n - 2) with
       | Some a, Some b =>
           match isDup a b with
           | Some out => take (n - 2) ds ++ [out]
           | None => ds
           end
       | _, _ => ds
       end.

(** [make] and [copy]: the same deltas in a slice of their own. *)
Definition copyDeltas ds : Deltas A := ds.
End deltas.

(** ** Operations *)
Section operations.
Context `{R : RangeOrder} {A : Type}.
Implicit Types (f : DeltaFIFO A) (obj : iface A).

Definition NewDeltaFIFO (keyFunc : KeyFunc (iface A)) (compressor : option (DeltaCompressor A)) :
    DeltaFIFO A :=
  mkDeltaFIFO ∅ [] false 0 keyFunc compressor.

Definition ErrZeroLengthDeltasObject : error (iface A) :=
  Errorf "0 length Deltas object; can't get key".

Definition KeyOf f obj : result (error (iface A)) string :=
  match obj with
  | IDeltas d =>
      match Newest d with
      | None => Err (KeyError obj ErrZeroLengthDeltasObject)
      | Some newest =>
          match Object newest with
          | IDeletedFinalStateUnknown Key _ => Ok Key
          | obj => keyFunc f obj
          end
      end
  | IDeletedFinalStateUnknown Key _ => Ok Key
  | obj => keyFunc f obj
  end.

Definition HasSynced f : bool := populated f && Nat.eqb (initialPopulationCount f) 0.

Definition setPopulated f : DeltaFIFO A :=
  mkDeltaFIFO (items f) (queue f) true (initialPopulationCount f) (keyFunc f) (deltaCompressor f).

Definition queueActionLocked (actionType : DeltaType) obj f :
    DeltaFIFO A * option (error (iface A)) :=
  match KeyOf f obj with
  | Err err => (f, Some (KeyError obj err))
  | Ok id =>
      let newDeltas := default [] (items f !! id) ++ [mkDelta actionType obj] in
      let newDeltas := dedupDeltas newDeltas in
      let newDeltas := match deltaCompressor f with
                       | Some compress => compress newDeltas
                       | None => newDeltas
                       end in
      let exists_ := bool_decide (is_Some (items f !! id)) in
      if Nat.ltb 0 (length newDeltas) then
        let queue' := if negb exists_ then queue f ++ [id] else queue f in
        (mkDeltaFIFO (<[id := newDeltas]> (items f)) queue' (populated f)
           (initialPopulationCount f) (keyFunc f) (deltaCompressor f), None)
      else if exists_ then
        (mkDeltaFIFO (delete id (items f)) (queue f) (populated f)
           (initialPopulationCount f) (keyFunc f) (deltaCompressor f), None)
      else (f, None)
  end.

Definition Add obj f := queueActionLocked Added obj (setPopulated f).

Definition Update obj f := queueActionLocked Updated obj (setPopulated f).

Definition Delete `{KeyListerGetter K A} (knownObjects : option K) obj f :
    DeltaFIFO A * option (error (iface A)) :=
  match KeyOf f obj with
  | Err err => (f, Some (KeyError obj err))
  | Ok id =>
      let f := setPopulated f in
      match knownObjects with
      | None =>
          match items f !! id with
          | None => (f, None)
          | Some _ => queueActionLocked Deleted obj f
          end
      | Some known =>
          match known_GetByKey id known with
          | Ok None => (f, None)
          | _ => queueActionLocked Deleted obj f
          end
      end
  end.

Definition AddIfNotPresent obj f : outcome (DeltaFIFO A * option (error (iface A))) :=
  match obj with
  | IDeltas deltas =>
      match Newest deltas with
      | None => Panics
      | Some newest =>
          match KeyOf f (Object newest) with
          | Err err => Returns (f, Some (KeyError obj err))
          | Ok id =>
              let f := setPopulated f in
              match items f !! id with
              | Some _ => Returns (f, None)
              | None =>
                  Returns (mkDeltaFIFO (<[id := deltas]> (items f)) (queue f ++ [id]) true
                    (initialPopulationCount f) (keyFunc f) (deltaCompressor f), None)
              end
          end
      end
  | _ => Returns (f, Some (Errorf "object must be of type deltas"))
  end.

(** The objects of the most recent deltas; an empty list panics. *)
Definition List f : outcome (list (iface A)) :=
  match mapM (λ item, Object <$> Newest (copyDeltas item)) (range_values (items f)) with
  | Some list => Returns list
  | None => Panics
  end.

Definition ListKeys f : list string := range_keys (items f).

Definition GetByKey (key : string) f : option (Deltas A) := copyDeltas <$> items f !! key.

Definition Get obj f : result (error (iface A)) (option (Deltas A)) :=
  match KeyOf f obj with
  | Err err => Err (KeyError obj err)
  | Ok key => Ok (GetByKey key f)
  end.

(** The loop of [Pop] is the one of [FIFO.Pop], on deltas. *)
Definition pop_attempt f : DeltaFIFO A * option (Deltas A) :=
  let '(r, (items, queue, count)) := popLoop (queue f) (items f) (initialPopulationCount f) in
  (mkDeltaFIFO items queue (populated f) count (keyFunc f) (deltaCompressor f), r).

(** The first loop of [Replace]: queue a [Sync] for every listed object. *)
Fixpoint syncLoop (list : list (iface A)) (keys : gset string) f :
    DeltaFIFO A * result (error (iface A)) (gset string) :=
  match list with
  | [] => (f, Ok keys)
  | item :: list =>
      match KeyOf f item with
      | Err err => (f, Err (KeyError item err))
      | Ok key =>
          match queueActionLocked Sync item f with
          | (f, Some err) => (f, Err (Errorf "couldn't enqueue object"))
          | (f, None) => syncLoop list (SetsString.Insert keys [key]) f
          end
      end
  end.

(** The loop over our own items, when no [knownObjects] was given. *)
Fixpoint ownDeletions (keys : gset string) (l : list (string * Deltas A)) f :
    DeltaFIFO A * option (error (iface A)) :=
  match l with
  | [] => (f, None)
  | (k, oldItem) :: l =>
      if Has keys k then ownDeletions keys l f
      else
        let deletedObj := Object <$> Newest oldItem in
        match queueActionLocked Deleted (IDeletedFinalStateUnknown k deletedObj) f with
        | (f, Some err) => (f, Some err)
        | (f, None) => ownDeletions keys l f
        end
  end.

(** The loop over the known keys. *)
Fixpoint knownDeletions `{KeyListerGetter K A} (known : K) (keys : gset string)
    (knownKeys : list string) f : DeltaFIFO A * option (error (iface A)) :=
  match knownKeys with
  | [] => (f, None)
  | k :: knownKeys =>
      if Has keys k then knownDeletions known keys knownKeys f
      else
        let deletedObj := match known_GetByKey k known with
                          | Err _ => None
                          | Ok None => None
                          | Ok (Some obj) => Some obj
                          end in
        match queueActionLocked Deleted (IDeletedFinalStateUnknown k deletedObj) f with
        | (f, Some err) => (f, Some err)
        | (f, None) => knownDeletions known keys knownKeys f
        end
  end.

Definition Replace `{KeyListerGetter K A} (knownObjects : option K) (list : list (iface A))
    (resourceVersion : string) f : DeltaFIFO A * option (error (iface A)) :=
  let count := if negb (populated f) then length list else initialPopulationCount f in
  let f := mkDeltaFIFO (items f) (queue f) true count (keyFunc f) (deltaCompressor f) in
  match syncLoop list ∅ f with
  | (f, Err err) => (f, Some err)
  | (f, Ok keys) =>
      match knownObjects with
      | None => ownDeletions keys (range_map (items f)) f
      | Some known => knownDeletions known keys (known_ListKeys known) f
      end
  end.
End operations.

#[global] Arguments queueActionLocked : simpl never.
#[global] Arguments KeyOf : simpl never.
#[global] Arguments Delete : simpl never.
#[global] Arguments pop_attempt : simpl never.
#[global] Arguments dedupDeltas : simpl never.

(** A [cache] of API objects can be a [knownObjects]. *)
#[export] Instance cache_lister `{RangeOrder} {A} : KeyListerGetter (cache (iface A)) A := {|
  known_ListKeys := Store.ListKeys;
  known_GetByKey := Store.GetByKey;
|}.

(** What the queue assumes of [knownObjects]: it is a map. *)
Class KeyListerLaws (K A : Type) `{KeyListerGetter K A} : Type := {
  known_contents : K → gmap string (iface A);
  law_known_ListKeys k : known_ListKeys k ≡ₚ (map_to_list (known_contents k)).*1;
  law_known_GetByKey key k : known_GetByKey key k = Ok (known_contents k !! key);
}.

#[export] Program Instance cache_lister_laws `{RangeOrder} {A} :
    KeyListerLaws (cache (iface A)) A := {|
  known_contents := λ c, ThreadSafeStore.items (cacheStorage c);
|}.
Next Obligation. intros. apply range_keys_perm. Qed.
Next Obligation. done. Qed.

(** ** What a list of deltas says *)

(** The object after the deltas, from the one before: [None] is no object. *)
Definition replay {A} (base : option (iface A)) (ds : Deltas A) : option (iface A) :=
  foldl (λ s d, match Type_ d with Deleted => None | _ => Some (Object d) end) base ds.

(** No two deletions in a row. *)
Fixpoint no_repeated_deletion {A} (ds : Deltas A) : Prop :=
  match ds with
  | d1 :: ((d2 :: _) as ds) =>
      ¬ (Type_ d1 = Deleted ∧ Type_ d2 = Deleted) ∧ no_repeated_deletion ds
  | _ => True
  end.

Section replay.
Context {A : Type}.
Implicit Types (d a b : Delta A) (ds l : Deltas A).

Lemma replay_snoc base ds d :
  replay base (ds ++ [d]) = match Type_ d with Deleted => None | _ => Some (Object d) end.
Proof. unfold replay. by rewrite foldl_snoc. Qed.

Lemma replay_cons base d ds :
  replay base (d :: ds) = replay (match Type_ d with Deleted => None | _ => Some (Object d) end) ds.
Proof. done. Qed.

Lemma dedup_two l b a :
  dedupDeltas (l ++ [b; a]) =
  match isDup a b with Some out => l ++ [out] | None => l ++ [b; a] end.
Proof.
  unfold dedupDeltas. rewrite length_app. cbn [length].
  replace (Nat.ltb (length l + 2) 2) with false by (symmetry; apply Nat.ltb_ge; lia).
  replace (length l + 2 - 1) with (length l + 1) by lia.
  replace (length l + 2 - 2) with (length l) by lia.
  rewrite !lookup_app_r by lia.
  replace (length l + 1 - length l) with 1 by lia. rewrite Nat.sub_diag. cbn.
  by rewrite take_app_length.
Qed.

Lemma isDup_spec a b :
  match isDup a b with
  | Some out => Type_ a = Deleted ∧ Type_ b = Deleted ∧ (out = a ∨ out = b)
  | None => ¬ (Type_ b = Deleted ∧ Type_ a = Deleted)
  end.
Proof.
  unfold isDup, isDeletionDup.
  destruct (bool_decide_reflect (Type_ b = Deleted)); cbn; [|tauto].
  destruct (bool_decide_reflect (Type_ a = Deleted)); cbn; [|tauto].
  destruct (Object b); auto.
Qed.

(** The shape of a list: empty, one delta, or a last pair. *)
Lemma deltas_cases ds : ds = [] ∨ (∃ d, ds = [d]) ∨ ∃ l b a, ds = l ++ [b; a].
Proof.
  destruct ds as [|a ds _] using rev_ind; [by left|right].
  destruct ds as [|b l _] using rev_ind; [left; by exists a|right].
  exists l, b, a. by rewrite <- app_assoc.
Qed.

Lemma dedup_replay base ds : replay base (dedupDeltas ds) = replay base ds.
Proof.
  destruct (deltas_cases ds) as [->|[[d ->]|(l & b & a & ->)]]; [done..|].
  rewrite dedup_two. pose proof (isDup_spec a b) as Hs. destruct (isDup a b) as [out|]; [|done].
  change (l ++ [b; a]) with (l ++ [b] ++ [a]). rewrite app_assoc, !replay_snoc.
  destruct Hs as (Ha & Hb & [-> | ->]); by rewrite ?Ha, ?Hb.
Qed.

Lemma dedup_nonempty ds : ds ≠ [] → dedupDeltas ds ≠ [].
Proof.
  destruct (deltas_cases ds) as [->|[[d ->]|(l & b & a & ->)]]; [done..|].
  intros _. rewrite dedup_two. destruct (isDup a b); by destruct l.
Qed.

Lemma no_repeated_snoc l d :
  no_repeated_deletion l →
  (∀ e, last l = Some e → ¬ (Type_ e = Deleted ∧ Type_ d = Deleted)) →
  no_repeated_deletion (l ++ [d]).
Proof.
  induction l as [|x l IH]; [done|]. intros Hl Hlast.
  destruct l as [|y l]; cbn; [split; [by apply Hlast|done]|].
  destruct Hl as [Hxy Hl]. split; [done|]. by apply IH.
Qed.

Lemma no_repeated_prefix l k : no_repeated_deletion (l ++ k) → no_repeated_deletion l.
Proof.
  induction l as [|x l IH]; [done|]. destruct l as [|y l]; [done|].
  cbn. intros [? H]. split; [done|]. by apply IH.
Qed.

Lemma no_repeated_last l b : no_repeated_deletion (l ++ [b]) →
  ∀ e, last l = Some e → ¬ (Type_ e = Deleted ∧ Type_ b = Deleted).
Proof.
  induction l as [|x l IH]; [done|]. destruct l as [|y l]; cbn.
  - intros [H _] e [= <-]. done.
  - intros [_ H]. by apply IH.
Qed.

Lemma dedup_no_repeated ds d :
  no_repeated_deletion ds → no_repeated_deletion (dedupDeltas (ds ++ [d])).
Proof.
  destruct ds as [|b l _] using rev_ind; [done|]. intros Hl.
  rewrite <- app_assoc. cbn. rewrite dedup_two. pose proof (isDup_spec d b) as Hs.
  destruct (isDup d b) as [out|].
  - destruct Hs as (Hd & Hb & Hout). apply no_repeated_snoc; [by eapply no_repeated_prefix|].
    intros e He [He1 He2]. eapply no_repeated_last; [exact Hl|done|done].
  - change [b; d] with ([b] ++ [d]). rewrite app_assoc. apply no_repeated_snoc; [done|].
    intros e. rewrite last_snoc. by intros [= <-].
Qed.

Lemma dedup_Forall (P : Delta A → Prop) ds : Forall P ds → Forall P (dedupDeltas ds).
Proof.
  destruct (deltas_cases ds) as [->|[[d ->]|(l & b & a & ->)]]; [done..|].
  rewrite dedup_two. pose proof (isDup_spec a b) as Hs. destruct (isDup a b) as [out|]; [|done].
  rewrite !Forall_app, !Forall_cons. intros (Hl & Hb & Ha & _).
  split_and!; [done| |done]. by destruct Hs as (_ & _ & [-> | ->]).
Qed.

(** De-duplication only ever drops a deletion. *)
Lemma dedup_keeps_changes ds :
  filter (λ d, Type_ d ≠ Deleted) (dedupDeltas ds) = filter (λ d, Type_ d ≠ Deleted) ds.
Proof.
  destruct (deltas_cases ds) as [->|[[d ->]|(l & b & a & ->)]]; [done..|].
  rewrite dedup_two. pose proof (isDup_spec a b) as Hs. destruct (isDup a b) as [out|]; [|done].
  rewrite !filter_app. f_equal. destruct Hs as (Ha & Hb & Hout).
  rewrite !filter_cons_False, filter_nil; [done|naive_solver..].
Qed.
End replay.

#[global] Arguments replay : simpl never.

(** ** Invariants *)
Section invariants.
Context `{R : RangeOrder} {A : Type}.
Implicit Types (f : DeltaFIFO A) (obj : iface A).

(** With any compressor: every item is queued and holds at least one delta. *)
Definition delta_ok f : Prop :=
  ∀ id ds, items f !! id = Some ds → id ∈ queue f ∧ ds ≠ [].

(** Without one: moreover the queue lists every item once and nothing else. *)
Definition delta_tight f : Prop :=
  NoDup (queue f) ∧ (∀ id, id ∈ queue f ↔ is_Some (items f !! id)) ∧
  (∀ id ds, items f !! id = Some ds → ds ≠ [] ∧ no_repeated_deletion ds).

(** The deltas waiting for a key. *)
Definition pending f (id : string) : Deltas A := default [] (items f !! id).

Lemma pending_eq f id ds : items f !! id = Some ds → pending f id = ds.
Proof. unfold pending. by intros ->. Qed.

Lemma KeyOf_same f f' obj : keyFunc f = keyFunc f' → KeyOf f obj = KeyOf f' obj.
Proof. unfold KeyOf. by intros ->. Qed.

Lemma KeyOf_tombstone f k o : KeyOf f (IDeletedFinalStateUnknown k o) = Ok k.
Proof. done. Qed.

Lemma queueAction_ok ty obj f : delta_ok f → delta_ok (queueActionLocked ty obj f).1.
Proof.
  intros Hok. unfold queueActionLocked. destruct (KeyOf f obj) as [id|]; [|done].
  set (nd := match deltaCompressor f with Some c => _ | None => _ end).
  destruct (Nat.ltb_spec 0 (length nd)) as [Hl|Hl]; cbn.
  - intros id' ds. cbn. rewrite lookup_insert. case_decide; subst.
    + intros [= <-]. split; [|intros E; rewrite E in Hl; cbn in Hl; lia].
      destruct (bool_decide_reflect (is_Some (items f !! id'))) as [[ds' Hds]|]; cbn; [|set_solver].
      by eapply Hok.
    + intros Hds. destruct (Hok _ _ Hds). split; [|done].
      destruct (bool_decide _); cbn; set_solver.
  - case_bool_decide; [|done]. intros id' ds. cbn. rewrite lookup_delete.
    case_decide; [done|]. apply Hok.
Qed.

(** What queueing an action does when there is no compressor. *)
Lemma queueAction_eq ty obj f id :
  deltaCompressor f = None → KeyOf f obj = Ok id →
  queueActionLocked ty obj f =
    (mkDeltaFIFO (<[id := dedupDeltas (pending f id ++ [mkDelta ty obj])]> (items f))
       (if bool_decide (is_Some (items f !! id)) then queue f else queue f ++ [id])
       (populated f) (initialPopulationCount f) (keyFunc f) None, None).
Proof.
  intros Hc Hid. unfold queueActionLocked, pending. rewrite Hid, Hc.
  assert (dedupDeltas (default [] (items f !! id) ++ [mkDelta ty obj]) ≠ []) as Hne.
  { apply dedup_nonempty. by destruct (default [] (items f !! id)). }
  destruct (dedupDeltas _) as [|d ds]; [done|]. cbn. by destruct (bool_decide _).
Qed.

Lemma queueAction_conf ty obj f :
  let f' := (queueActionLocked ty obj f).1 in
  keyFunc f' = keyFunc f ∧ deltaCompressor f' = deltaCompressor f ∧
  populated f' = populated f ∧ initialPopulationCount f' = initialPopulationCount f.
Proof.
  cbv zeta. unfold queueActionLocked. destruct (KeyOf f obj); [|done].
  destruct (Nat.ltb _ _); [done|]. by destruct (bool_decide _).
Qed.

Lemma queueAction_tight ty obj f :
  deltaCompressor f = None → delta_tight f → delta_tight (queueActionLocked ty obj f).1.
Proof.
  intros Hc Ht. destruct (KeyOf f obj) as [id|e] eqn:Hid;
    [|unfold queueActionLocked; by rewrite Hid].
  rewrite (queueAction_eq ty obj f id) by done. destruct Ht as (Hnd & Hq & Hne).
  split; [|split]; cbn.
  - case_bool_decide as Hs; [done|]. apply NoDup_snoc; [done|]. by rewrite Hq.
  - intros id'. rewrite lookup_insert. case_decide; subst.
    + split; [by eauto|]. intros _. case_bool_decide; [by apply Hq|set_solver].
    + specialize (Hq id'). case_bool_decide; set_solver.
  - intros id' ds. rewrite lookup_insert. case_decide; [|apply Hne]. intros [= <-]. split.
    + apply dedup_nonempty. by destruct (pending f id).
    + apply dedup_no_repeated. unfold pending.
      destruct (items f !! id) eqn:E; [by eapply Hne|done].
Qed.

(** Queueing an action for [id] makes its deltas say the action; others stay. *)
Lemma queueAction_items ty obj f id k :
  deltaCompressor f = None → KeyOf f obj = Ok id → k ≠ id →
  items (queueActionLocked ty obj f).1 !! k = items f !! k.
Proof. intros Hc Hid Hk. rewrite (queueAction_eq ty obj f id) by done. cbn. by rewrite lookup_insert_ne. Qed.

Lemma queueAction_replay ty obj f id base :
  deltaCompressor f = None → KeyOf f obj = Ok id →
  replay base (pending (queueActionLocked ty obj f).1 id) =
    match ty with Deleted => None | _ => Some obj end.
Proof.
  intros Hc Hid. rewrite (queueAction_eq ty obj f id), (pending_eq _ id _ (lookup_insert_eq _ _ _))
    by done.
  by rewrite dedup_replay, replay_snoc.
Qed.

Lemma pending_ext f f' k : items f !! k = items f' !! k → pending f k = pending f' k.
Proof. unfold pending. by intros ->. Qed.

Lemma setPopulated_tight f : delta_tight f → delta_tight (setPopulated f).
Proof. done. Qed.

(** *** The loops of [Replace] *)

Definition same_conf f f' : Prop :=
  keyFunc f' = keyFunc f ∧ deltaCompressor f' = deltaCompressor f ∧
  populated f' = populated f ∧ initialPopulationCount f' = initialPopulationCount f.

Lemma syncLoop_spec l : ∀ f m0 m,
  deltaCompressor f = None → keyed_items (KeyOf f) l m0 = Ok m →
  (∀ k it, m0 !! k = Some it → ∀ base, replay base (pending f k) = Some it) →
  ∃ f', syncLoop l (dom m0) f = (f', Ok (dom m)) ∧ same_conf f f' ∧
    (delta_tight f → delta_tight f') ∧
    (∀ k it, m !! k = Some it → ∀ base, replay base (pending f' k) = Some it) ∧
    (∀ k, m !! k = None → items f' !! k = items f !! k ∧ m0 !! k = None).
Proof.
  induction l as [|item l IH]; intros f m0 m Hc Hm Hsync; cbn in *.
  { simplify_eq. by exists f. }
  destruct (KeyOf f item) as [key|e] eqn:Hkey; [|done].
  pose proof (queueAction_conf Sync item f) as Hconf.
  pose proof (queueAction_tight Sync item f Hc) as Htight.
  pose proof (λ k, queueAction_items Sync item f key k Hc Hkey) as Hother.
  pose proof (λ base, queueAction_replay Sync item f key base Hc Hkey) as Hthis.
  assert (Herr : (queueActionLocked Sync item f).2 = None) by by rewrite (queueAction_eq Sync item f key).
  destruct (queueActionLocked Sync item f) as [f1 err]. cbn in *. subst err.
  destruct Hconf as (Hk1 & Hc1 & Hp1 & Hn1).
  destruct (IH f1 (<[key := item]> m0) m) as (f' & Hrun & Hconf' & Ht' & Hsync' & Hrest).
  - congruence.
  - rewrite <- Hm. f_equal.
    clear -Hk1. revert Hk1. unfold KeyOf. by intros ->.
  - intros k it. rewrite lookup_insert. case_decide as Hkk; subst.
    + intros [= <-]. apply Hthis.
    + intros Hk base. rewrite (pending_ext f1 f) by (by apply Hother). by apply Hsync.
  - exists f'. split_and!.
    + rewrite Insert_union. cbn. by rewrite <- Hrun, dom_insert_L, (union_empty_r_L {[key]}).
    + destruct Hconf' as (? & ? & ? & ?). split_and!; congruence.
    + auto.
    + done.
    + intros k Hk. destruct (Hrest k Hk) as [Hi Hm0]. rewrite lookup_insert in Hm0.
      case_decide; [done|]. split; [|done]. rewrite Hi. by apply Hother.
Qed.

(** Both deletion loops: a tombstone for every visited key that was not listed. *)
Lemma knownDeletions_spec `{KeyListerGetter K A} (known : K) keys ks : ∀ f,
  deltaCompressor f = None →
  ∃ f', knownDeletions known keys ks f = (f', None) ∧ same_conf f f' ∧
    (delta_tight f → delta_tight f') ∧
    ∀ k, if decide (k ∈ ks ∧ k ∉ keys)
         then ∀ base, replay base (pending f' k) = None
         else items f' !! k = items f !! k.
Proof.
  induction ks as [|key ks IH]; intros f Hc; cbn.
  { exists f. split_and!; [done..|]. intros k. rewrite decide_False; [done|]. set_solver. }
  destruct (Has keys key) eqn:Hhas.
  { destruct (IH f Hc) as (f' & Hrun & Hconf & Ht & Hk). exists f'. split_and!; [done..|].
    apply Has_true in Hhas. intros k. specialize (Hk k). repeat case_decide; set_solver. }
  apply Has_false in Hhas.
  set (obj := IDeletedFinalStateUnknown key _).
  pose proof (queueAction_conf Deleted obj f) as (Hk1 & Hc1 & Hp1 & Hn1).
  pose proof (queueAction_tight Deleted obj f Hc) as Htight.
  pose proof (λ k, queueAction_items Deleted obj f key k Hc eq_refl) as Hother.
  pose proof (λ base, queueAction_replay Deleted obj f key base Hc eq_refl) as Hthis.
  assert (Herr : (queueActionLocked Deleted obj f).2 = None) by by rewrite (queueAction_eq Deleted obj f key).
  destruct (queueActionLocked Deleted obj f) as [f1 err]. cbn in *. subst err.
  destruct (IH f1) as (f' & Hrun & (? & ? & ? & ?) & Ht' & Hk); [congruence|].
  exists f'. split_and!; [done|split_and!; congruence|auto|]. intros k. specialize (Hk k).
  destruct (decide (k ∈ key :: ks ∧ k ∉ keys)) as [[Hin Hni]|Hno];
    destruct (decide (k ∈ ks ∧ k ∉ keys)) as [Hyes|Hno']; [done| | |].
  - assert (k = key) as -> by set_solver. intros base.
    rewrite (pending_ext f' f1) by done. apply Hthis.
  - set_solver.
  - rewrite Hk. apply Hother. set_solver.
Qed.

Lemma Replace_known_spec `{KeyListerLaws K A} (known : K) l rv f m :
  deltaCompressor f = None → keyed_items (KeyOf f) l ∅ = Ok m →
  let r := Replace (Some known) l rv f in
  r.2 = None ∧ keyFunc r.1 = keyFunc f ∧ deltaCompressor r.1 = None ∧
  (delta_tight f → delta_tight r.1) ∧
  ∀ k, match m !! k with
       | Some it => ∀ base, replay base (pending r.1 k) = Some it
       | None =>
           if decide (is_Some (known_contents known !! k))
           then ∀ base, replay base (pending r.1 k) = None
           else items r.1 !! k = items f !! k
       end.
Proof.
  intros Hc Hm. unfold Replace.
  set (f0 := mkDeltaFIFO (items f) (queue f) true _ (keyFunc f) (deltaCompressor f)).
  destruct (syncLoop_spec l f0 ∅ m) as (f1 & Hrun & (Hk1 & Hc1 & _) & Ht1 & Hsync & Hrest);
    [done|done|by intros ? ? ?%lookup_empty_Some|].
  rewrite dom_empty_L in Hrun. rewrite Hrun.
  destruct (knownDeletions_spec known (dom m) (known_ListKeys known) f1)
    as (f2 & -> & (Hk2 & Hc2 & _) & Ht2 & Hdel); [by rewrite Hc1|]. cbn.
  split_and!; [done|by rewrite Hk2, Hk1|by rewrite Hc2, Hc1|by auto|]. intros k. specialize (Hdel k).
  assert (Hin : k ∈ known_ListKeys known ↔ is_Some (known_contents known !! k)).
  { rewrite law_known_ListKeys, list_elem_of_fmap. split.
    - intros ([k' v] & -> & Hv%elem_of_map_to_list). eauto.
    - intros [v Hv]. exists (k, v). by rewrite elem_of_map_to_list. }
  assert (Hdom : k ∉ dom m ↔ m !! k = None) by by rewrite not_elem_of_dom.
  destruct (m !! k) as [it|] eqn:Hmk.
  - rewrite decide_False in Hdel by naive_solver.
    intros base. rewrite (pending_ext f2 f1) by done. by apply Hsync.
  - destruct (decide (is_Some (known_contents known !! k))) as [Hs|Hs].
    + rewrite decide_True in Hdel by tauto. done.
    + rewrite decide_False in Hdel by tauto. rewrite Hdel. by apply Hrest.
Qed.
End invariants.

(** ** Runs *)

(** The calls of a producer and a consumer; the [known] objects are those at
    the time of the call. *)
Inductive op (K A : Type) : Type :=
| OpAdd (obj : iface A) | OpUpdate (obj : iface A)
| OpDelete (known : option K) (obj : iface A)
| OpAddIfNotPresent (obj : iface A)
| OpReplace (known : option K) (list : list (iface A)) (resourceVersion : string)
| OpPop.
Arguments OpAdd {K A} obj.
Arguments OpUpdate {K A} obj.
Arguments OpDelete {K A} known obj.
Arguments OpAddIfNotPresent {K A} obj.
Arguments OpReplace {K A} known list resourceVersion.
Arguments OpPop {K A}.

Section runs.
Context `{R : RangeOrder} {K A : Type} `{KeyListerGetter K A}.
Implicit Types (f : DeltaFIFO A) (ops : list (op K A)).

(** [None]: the call panicked. *)
Definition apply f (o : op K A) : option (DeltaFIFO A) :=
  match o with
  | OpAdd obj => Some (Add obj f).1
  | OpUpdate obj => Some (Update obj f).1
  | OpDelete known obj => Some (Delete known obj f).1
  | OpAddIfNotPresent obj =>
      match AddIfNotPresent obj f with Returns (f, _) => Some f | Panics => None end
  | OpReplace known l rv => Some (Replace known l rv f).1
  | OpPop => Some (pop_attempt f).1
  end.

Definition run f ops : option (DeltaFIFO A) := foldl (λ o c, f ← o; apply f c) (Some f) ops.

(** What queueing an action on an object in [Q] keeps, tombstones included, is
    kept by the loops of [Replace]. *)
Section loops.
Context (P : DeltaFIFO A → Prop) (Q : iface A → Prop).
Hypothesis P_queueAction : ∀ ty obj f, Q obj → P f → P (queueActionLocked ty obj f).1.
Hypothesis Q_tombstone : ∀ k o, Q (IDeletedFinalStateUnknown k o).

Lemma kept_syncLoop l : Forall Q l → ∀ keys f, P f → P (syncLoop l keys f).1.
Proof.
  induction 1 as [|it l Hit Hl IH]; intros keys f Hf; cbn; [done|].
  destruct (KeyOf f it); [|done]. pose proof (P_queueAction Sync it f Hit Hf).
  destruct (queueActionLocked Sync it f) as [f1 [e|]]; cbn in *; [done|by apply IH].
Qed.

Lemma kept_ownDeletions keys l : ∀ f, P f → P (ownDeletions keys l f).1.
Proof.
  induction l as [|[k it] l IH]; intros f Hf; cbn; [done|].
  destruct (Has keys k); [by apply IH|].
  set (obj := IDeletedFinalStateUnknown k _).
  pose proof (P_queueAction Deleted obj f (Q_tombstone _ _) Hf).
  destruct (queueActionLocked Deleted obj f) as [f1 [e|]]; cbn in *; [done|by apply IH].
Qed.

Lemma kept_knownDeletions (known : K) keys l : ∀ f, P f → P (knownDeletions known keys l f).1.
Proof.
  induction l as [|k l IH]; intros f Hf; cbn; [done|].
  destruct (Has keys k); [by apply IH|].
  set (obj := IDeletedFinalStateUnknown k _).
  pose proof (P_queueAction Deleted obj f (Q_tombstone _ _) Hf).
  destruct (queueActionLocked Deleted obj f) as [f1 [e|]]; cbn in *; [done|by apply IH].
Qed.

Lemma kept_Replace (known : option K) l rv f :
  (∀ f p n, P f → P (mkDeltaFIFO (items f) (queue f) p n (keyFunc f) (deltaCompressor f))) →
  Forall Q l → P f → P (Replace known l rv f).1.
Proof.
  intros Hpop Hl Hf. unfold Replace. set (f0 := mkDeltaFIFO _ _ _ _ _ _).
  pose proof (kept_syncLoop l Hl ∅ f0 (Hpop _ _ _ Hf)) as Hs.
  destruct (syncLoop l ∅ f0) as [f1 [keys|e]]; cbn in *; [|done].
  destruct known; [by apply kept_knownDeletions|by apply kept_ownDeletions].
Qed.
End loops.

(** What holds of a queue and is kept by queueing actions and by popping is
    kept by every call. *)
Section kept.
Context (P : DeltaFIFO A → Prop).
Hypothesis P_queueAction : ∀ ty obj f, P f → P (queueActionLocked ty obj f).1.
Hypothesis P_populated : ∀ f p n, P f →
  P (mkDeltaFIFO (items f) (queue f) p n (keyFunc f) (deltaCompressor f)).
Hypothesis P_requeue : ∀ f id ds, P f → ds ≠ [] → items f !! id = None →
  P (mkDeltaFIFO (<[id := ds]> (items f)) (queue f ++ [id]) true
       (initialPopulationCount f) (keyFunc f) (deltaCompressor f)).
Hypothesis P_pop : ∀ f, P f → P (pop_attempt f).1.

Lemma kept_apply f o f' : P f → apply f o = Some f' → P f'.
Proof.
  intros Hf. destruct o as [obj|obj|known obj|obj|known l rv|]; cbn; intros E; simplify_eq.
  - by apply P_queueAction, P_populated.
  - by apply P_queueAction, P_populated.
  - unfold Delete. destruct (KeyOf f obj); [|done].
    destruct known as [known|].
    + destruct (known_GetByKey _ known) as [[?|]|?]; [|by apply P_populated|];
        by apply P_queueAction, P_populated.
    + destruct (items (setPopulated f) !! _); [by apply P_queueAction, P_populated|by apply P_populated].
  - unfold AddIfNotPresent in E. destruct obj as [| | |ds]; simplify_eq; [done..|].
    destruct (Newest ds) as [d|] eqn:Hn; [|done]. destruct (KeyOf f (Object d)); simplify_eq; [|done].
    change (items (setPopulated f)) with (items f) in E.
    destruct (items f !! a) eqn:Hi; simplify_eq; [by apply P_populated|].
    apply (P_requeue f a ds); [done|by intros ->|done].
  - apply (kept_Replace P (λ _, True)); [by eauto|done|done|by apply Forall_true|done].
  - by apply P_pop.
Qed.

Lemma kept_run ops f f' : P f → run f ops = Some f' → P f'.
Proof.
  intros Hf. revert f'. induction ops as [|o ops IH] using rev_ind; intros f'; cbn; [by intros [= <-]|].
  unfold run. rewrite foldl_snoc, bind_Some. intros (f1 & Hf1 & Ho). eauto using kept_apply.
Qed.
End kept.

Lemma delta_pop_Some f f' ds :
  pop_attempt f = (f', Some ds) →
  ∃ stale id, queue f = stale ++ id :: queue f' ∧ (∀ x, x ∈ stale → items f !! x = None) ∧
    items f !! id = Some ds ∧ items f' = delete id (items f) ∧
    keyFunc f' = keyFunc f ∧ deltaCompressor f' = deltaCompressor f ∧ populated f' = populated f ∧
    initialPopulationCount f' = initialPopulationCount f - S (length stale).
Proof.
  unfold pop_attempt. pose proof (popLoop_spec (queue f) (items f) (initialPopulationCount f)) as Hs.
  destruct (popLoop _ _ _) as [[i|] [[m q] n]]; intros [= <- ]; subst; cbn.
  destruct Hs as (stale & id & ? & ? & ? & ? & ?). by exists stale, id.
Qed.

Lemma delta_pop_None f f' :
  pop_attempt f = (f', None) →
  queue f' = [] ∧ items f' = items f ∧ keyFunc f' = keyFunc f ∧
  deltaCompressor f' = deltaCompressor f ∧ (∀ id, id ∈ queue f → items f !! id = None).
Proof.
  unfold pop_attempt. pose proof (popLoop_spec (queue f) (items f) (initialPopulationCount f)) as Hs.
  destruct (popLoop _ _ _) as [[i|] [[m q] n]]; intros [= <-]; subst; cbn.
  by destruct Hs as (-> & -> & -> & ?).
Qed.

Lemma delta_pop_ok f : delta_ok f → delta_ok (pop_attempt f).1.
Proof.
  intros Hok id ds. destruct (pop_attempt f) as [f' [ds'|]] eqn:E; cbn.
  - apply delta_pop_Some in E as (stale & x & Hq & Hst & Hx & -> & _).
    rewrite lookup_delete. case_decide; [done|]. intros Hid.
    destruct (Hok _ _ Hid) as [Hin Hne]. split; [|done].
    rewrite Hq, elem_of_app, elem_of_cons in Hin. destruct Hin as [Hin|[Hin|Hin]]; [|done|done].
    apply Hst in Hin. congruence.
  - apply delta_pop_None in E as (_ & -> & _ & _ & Hnone). intros Hid.
    destruct (Hok _ _ Hid) as [Hin _]. apply Hnone in Hin. congruence.
Qed.

Lemma delta_pop_tight f : delta_tight f → delta_tight (pop_attempt f).1.
Proof.
  intros (Hnd & Hq & Hne). destruct (pop_attempt f) as [f' [ds'|]] eqn:E; cbn.
  - apply delta_pop_Some in E as (stale & x & Hqf & Hst & Hx & Hi & _).
    destruct stale as [|y stale].
    2: { specialize (Hst y ltac:(left)). assert (y ∈ queue f) as Hy by (rewrite Hqf; left).
         apply Hq in Hy. rewrite Hst in Hy. by destruct Hy. }
    cbn in Hqf. rewrite Hqf in Hnd. apply NoDup_cons in Hnd as [Hni Hnd].
    split_and!; [done| |].
    + intros id. rewrite Hi. specialize (Hq id). rewrite Hqf, elem_of_cons in Hq.
      rewrite lookup_delete. case_decide; subst; [|naive_solver].
      split; [done|by intros []].
    + intros id ds. rewrite Hi, lookup_delete. case_decide; [done|]. apply Hne.
  - apply delta_pop_None in E as (Hq' & Hi & _ & _ & Hnone). split_and!.
    + rewrite Hq'. constructor.
    + intros id. rewrite Hq', Hi. split; [by intros ?%elem_of_nil|]. intros Hs.
      apply Hq in Hs as Hin. rewrite (Hnone _ Hin) in Hs. by destruct Hs.
    + rewrite Hi. done.
Qed.

(** The deltas a consumer gives back are ones [Pop] returned. *)
Definition tight_requeue (o : op K A) : Prop :=
  match o with
  | OpAddIfNotPresent (IDeltas ds) => no_repeated_deletion ds
  | _ => True
  end.

Lemma delta_ok_run (kf : KeyFunc (iface A)) compressor ops f :
  run (NewDeltaFIFO kf compressor) ops = Some f → delta_ok f.
Proof.
  intros Hrun. eapply (kept_run delta_ok); [..|exact Hrun].
  - intros. by apply queueAction_ok.
  - done.
  - intros f0 id ds Hf Hds Hid id' ds'. cbn. rewrite lookup_insert. case_decide.
    + intros [= <-]. set_solver.
    + intros Hi. destruct (Hf _ _ Hi). set_solver.
  - apply delta_pop_ok.
  - intros id ds Hid. cbn in Hid. by apply lookup_empty_Some in Hid.
Qed.
End runs.

(** ** Properties *)

(** C29: whatever compressor is plugged in and whatever calls are made, every
    item of a [DeltaFIFO] is queued and holds at least one delta; so [List]
    never dereferences a missing delta, and [Pop] returns at least one. *)
Theorem delta_items_queued (R : RangeOrder) (K A : Type) `{KeyListerGetter K A}
    (kf : KeyFunc (iface A)) compressor (ops : list (op K A)) f :
  run (NewDeltaFIFO kf compressor) ops = Some f →
  delta_ok f ∧ (∃ l, List f = Returns l ∧ length l = size (items f)) ∧
  (∀ f' ds, pop_attempt f = (f', Some ds) → ds ≠ []).
Proof.
  intros Hrun. pose proof (delta_ok_run _ _ _ _ Hrun) as Hok. split; [done|]. split.
  - unfold List, copyDeltas.
    assert (is_Some (mapM (λ item : Deltas A, Object <$> Newest item) (range_values (items f)))) as [l Hl].
    { apply mapM_is_Some, Forall_forall. intros ds [k Hk]%elem_of_range_values.
      destruct (Hok _ _ Hk) as [_ Hne]. change (is_Some (Object <$> last ds)).
      destruct (last ds) eqn:E; [by eexists|]. by apply last_None in E. }
    rewrite Hl. exists l. split; [done|]. apply length_mapM in Hl. rewrite <- Hl.
    unfold range_values. by rewrite length_fmap, length_range_map.
  - intros f' ds E. apply delta_pop_Some in E as (_ & id & _ & _ & Hid & _). by apply (Hok id).
Qed.

(** De-duplication merges repeated deletions and nothing else: after
    another delta is queued there are still no two deletions in a row, the
    deltas that are not deletions are all kept in order, and the state they
    lead to is the one before de-duplication. *)
Theorem dedup_correct (A : Type) (ds : Deltas A) (d : Delta A) base :
  no_repeated_deletion ds →
  no_repeated_deletion (dedupDeltas (ds ++ [d])) ∧
  filter (λ d, Type_ d ≠ Deleted) (dedupDeltas (ds ++ [d])) =
    filter (λ d, Type_ d ≠ Deleted) (ds ++ [d]) ∧
  replay base (dedupDeltas (ds ++ [d])) =
    match Type_ d with Deleted => None | _ => Some (Object d) end.
Proof.
  intros Hds. split; [by apply dedup_no_repeated|]. split; [apply dedup_keeps_changes|].
  by rewrite dedup_replay, replay_snoc.
Qed.

(** [AddIfNotPresent] on every branch: it panics exactly on an empty list
    of deltas, refuses a value that is not a list of deltas, leaves newer
    deltas of the same key alone, and otherwise queues the list as it is. *)
Theorem AddIfNotPresent_spec (A : Type) (f : DeltaFIFO A) (obj : iface A) :
  match AddIfNotPresent obj f with
  | Panics => obj = IDeltas []
  | Returns (f', Some err) =>
      f' = f ∧ ((∀ ds, obj ≠ IDeltas ds) ∨ ∃ ds d e, obj = IDeltas (ds ++ [d]) ∧
                KeyOf f (Object d) = Err e ∧ err = KeyError obj e)
  | Returns (f', None) =>
      populated f' = true ∧ ∃ ds d id, obj = IDeltas (ds ++ [d]) ∧ KeyOf f (Object d) = Ok id ∧
        if bool_decide (is_Some (items f !! id))
        then items f' = items f ∧ queue f' = queue f
        else items f' = <[id := ds ++ [d]]> (items f) ∧ queue f' = queue f ++ [id]
  end.
Proof.
  unfold AddIfNotPresent. destruct obj as [| | |ds]; [by split; [|left]..|].
  destruct ds as [|d ds _] using rev_ind; [done|].
  unfold Newest. rewrite last_snoc. destruct (KeyOf f (Object d)) as [id|e] eqn:Hk.
  - change (items (setPopulated f)) with (items f).
    destruct (items f !! id) eqn:Hi; cbn; (split; [done|]); exists ds, d, id; rewrite Hi; done.
  - split; [done|right]. by exists ds, d, e.
Qed.

(** The counter behind [HasSynced] is set to the length of the listed
    objects, but the queue holds one entry per key: after a first [Replace]
    with two objects of the same key, a drained queue reports that it has not
    synced. *)
Theorem HasSynced_stuck_after_duplicate (R : RangeOrder) (K A : Type) `{KeyListerGetter K A}
    (kf : KeyFunc (iface A)) (a b : A) key :
  kf (IObj a) = Ok key → kf (IObj b) = Ok key →
  let f := (Replace (K := K) None [IObj a; IObj b] "1" (NewDeltaFIFO kf None)).1 in
  let r := pop_attempt f in
  queue f = [key] ∧ r.2 = Some [mkDelta Sync (IObj a); mkDelta Sync (IObj b)] ∧
  queue r.1 = [] ∧ items r.1 = ∅ ∧ HasSynced r.1 = false.
Proof.
  intros Ha Hb. set (ds := [mkDelta Sync (IObj a); mkDelta Sync (IObj b)]).
  assert ((Replace (K := K) None [IObj a; IObj b] "1" (NewDeltaFIFO kf None)).1 =
    mkDeltaFIFO {[key := ds]} [key] true 2 kf None) as ->.
  { unfold Replace. cbn. unfold KeyOf at 1. cbn. rewrite Ha.
    rewrite (queueAction_eq Sync (IObj a) _ key) by done. cbn.
    unfold KeyOf at 1. cbn. rewrite Hb.
    rewrite (queueAction_eq Sync (IObj b) _ key) by done. cbn.
    unfold pending. cbn. rewrite lookup_empty. cbn. rewrite lookup_insert_eq, insert_insert_eq.
    change (dedupDeltas (default [] _ ++ _)) with ds.
    assert (range_map (<[key := ds]> ∅ : gmap string (Deltas A)) = [(key, ds)]) as ->.
    { apply Permutation_singleton_r. by rewrite range_map_perm, map_to_list_insert, map_to_list_empty by apply lookup_empty. }
    cbn. replace (Has _ key) with true; [done|]. symmetry. apply Has_true.
    rewrite !Insert_union. set_solver. }
  unfold pop_attempt. cbn. rewrite lookup_singleton_eq. cbn. by rewrite delete_singleton_eq.
Qed.

(** ** Witnesses *)

#[local] Existing Instance canonical_order.

Definition known_none : option (cache (iface demo_object)) := None.

Definition demo_pod2 : demo_object := mkDemo "kube-system" "dns-1" "v2".

Definition demo_delta_ops : list (op (cache (iface demo_object)) demo_object) :=
  [OpReplace known_none [IObj demo_pod] "1"; OpUpdate (IObj demo_pod2);
   OpDelete known_none (IObj demo_pod2); OpPop; OpAdd (IObj demo_pod)].

Definition demo_delta_fifo : DeltaFIFO demo_object :=
  default (NewDeltaFIFO MetaNamespaceKeyFunc None)
    (run (NewDeltaFIFO MetaNamespaceKeyFunc None) demo_delta_ops).

Lemma delta_items_queued_witness :
  queue demo_delta_fifo = ["kube-system/dns-1"] ∧
  (delta_ok demo_delta_fifo ∧
   (∃ l, List demo_delta_fifo = Returns l ∧ length l = size (items demo_delta_fifo)) ∧
   (∀ f' ds, pop_attempt demo_delta_fifo = (f', Some ds) → ds ≠ [])).
Proof.
  split; [vm_compute; reflexivity|].
  apply (delta_items_queued canonical_order _ _ MetaNamespaceKeyFunc None demo_delta_ops).
  vm_compute. reflexivity.
Defined.

Lemma dedup_correct_witness :
  let ds := [mkDelta Updated (IObj demo_pod); mkDelta Deleted (IObj demo_pod)] in
  let d := mkDelta Deleted (IDeletedFinalStateUnknown "kube-system/dns-1" None) in
  dedupDeltas (ds ++ [d]) = ds ∧
  (no_repeated_deletion (dedupDeltas (ds ++ [d])) ∧
   filter (λ d, Type_ d ≠ Deleted) (dedupDeltas (ds ++ [d])) =
     filter (λ d, Type_ d ≠ Deleted) (ds ++ [d]) ∧
   replay None (dedupDeltas (ds ++ [d])) =
     match Type_ d with Deleted => None | _ => Some (Object d) end).
Proof.
  cbv zeta. split; [reflexivity|]. apply (dedup_correct demo_object). cbn. split; [|done].
  by intros [? ?].
Defined.

Lemma HasSynced_stuck_after_duplicate_witness :
  let f := (Replace known_none [IObj demo_pod; IObj demo_pod2] "1"
              (NewDeltaFIFO MetaNamespaceKeyFunc None)).1 in
  let r := pop_attempt f in
  queue f = ["kube-system/dns-1"] ∧
  r.2 = Some [mkDelta Sync (IObj demo_pod); mkDelta Sync (IObj demo_pod2)] ∧
  queue r.1 = [] ∧ items r.1 = ∅ ∧ HasSynced r.1 = false.
Proof.
  apply (HasSynced_stuck_after_duplicate canonical_order (cache (iface demo_object)) demo_object
    MetaNamespaceKeyFunc demo_pod demo_pod2 "kube-system/dns-1"); reflexivity.
Defined.
