(* ===== verification/Reflector.v ===== *)
(** * cache.Reflector: listing and watching a resource into a store

    Models [ListAndWatch], [syncWith] and [watchHandler] of
    [pkg/client/cache/reflector.go].  What arrives on the three channels of the
    [select] is a list of [input]s, what the API server answers is data, and
    clock readings are arguments; the network and the decoding of objects are
    outside.  A reflector uses four methods of its store, the class
    [ReflectorStore]; any [Store] has them.

    The theorems: over every store that keeps the laws of [Store], the contents
    follow the listed objects and then the watch events, and the resource
    version to resume from is that of the last object handled. *)

From S2P Require Import Prelude.
From S2P Require Import Store.
From S2P Require Import Fifo.

(** The methods of its store that a reflector calls. *)
Class ReflectorStore (S V : Type) : Type := {
  rs_Add : V → S → S * option (error V);
  rs_Update : V → S → S * option (error V);
  rs_Delete : V → S → S * option (error V);
  rs_Replace : list V → string → S → S * option (error V);
}.

#[export] Instance store_reflector_store {S V} `{Store S V} : ReflectorStore S V := {|
  rs_Add := store_Add;
  rs_Update := store_Update;
  rs_Delete := store_Delete;
  rs_Replace := store_Replace;
|}.

(** ** Watch events *)

(** [watch.EventType]; [WOther] is any value the switch does not name. *)
Inductive EventType : Type := WAdded | WModified | WDeleted | WError | WOther.

Record Event (A : Type) : Type := mkEvent { event_Type : EventType; event_Object : iface A }.
Arguments mkEvent {A} _ _.
Arguments event_Type {A} _.
Arguments event_Object {A} _.

(** What the [select] of [watchHandler] receives. *)
Inductive input (A : Type) : Type :=
| Stop | Resync | Received (e : Event A) | Closed.
Arguments Stop {A}.
Arguments Resync {A}.
Arguments Received {A} e.
Arguments Closed {A}.

(** How [watchHandler] ends; [Running] when the inputs seen so far leave it in
    the loop. *)
Inductive watch_end : Type :=
| errorStopRequested | errorResyncRequested | apiError | veryShortWatch | watchClosed | Running.

Record Reflector (S : Type) : Type := mkReflector {
  store : S;
  lastSyncResourceVersion : string;
}.
Arguments mkReflector {S} _ _.
Arguments store {S} _.
Arguments lastSyncResourceVersion {S} _.

Section reflector.
Context {S A : Type} `{ObjectMeta A} `{ReflectorStore S (iface A)}.
(** [reflect.TypeOf(obj) == r.expectedType], or no expected type. *)
Context (expected : iface A → bool).
Implicit Types (r : Reflector S).

(** The switch on the type of an event; errors of the store are dropped. *)
Definition storeEvent (e : Event A) (s : S) : S :=
  match event_Type e with
  | WAdded => (rs_Add (event_Object e) s).1
  | WModified => (rs_Update (event_Object e) s).1
  | WDeleted => (rs_Delete (event_Object e) s).1
  | _ => s
  end.

(** [meta.Accessor]: only API objects have metadata. *)
Definition accessor (obj : iface A) : option A :=
  match obj with IObj o => Some o | _ => None end.

(** The body of the loop for one event: whether it was counted. *)
Definition handleEvent (e : Event A) r (resourceVersion : string) (eventCount : nat) :
    Reflector S * string * nat :=
  if negb (expected (event_Object e)) then (r, resourceVersion, eventCount)
  else match accessor (event_Object e) with
       | None => (r, resourceVersion, eventCount)
       | Some o =>
           let newResourceVersion := GetResourceVersion o in
           (mkReflector (storeEvent e (store r)) newResourceVersion, newResourceVersion,
            eventCount + 1)
       end.

Fixpoint watchLoop (inputs : list (input A)) r (resourceVersion : string) (eventCount : nat) :
    Reflector S * string * nat * watch_end :=
  match inputs with
  | [] => (r, resourceVersion, eventCount, Running)
  | Stop :: _ => (r, resourceVersion, eventCount, errorStopRequested)
  | Resync :: _ => (r, resourceVersion, eventCount, errorResyncRequested)
  | Closed :: _ => (r, resourceVersion, eventCount, watchClosed)
  | Received e :: inputs =>
      match event_Type e with
      | WError => (r, resourceVersion, eventCount, apiError)
      | _ =>
          let '(r, resourceVersion, eventCount) := handleEvent e r resourceVersion eventCount in
          watchLoop inputs r resourceVersion eventCount
      end
  end.

(** [watchDuration] in nanoseconds. *)
Definition watchHandler (inputs : list (input A)) (watchDuration : Z) r (resourceVersion : string) :
    Reflector S * string * watch_end :=
  let '(r, resourceVersion, eventCount, e) := watchLoop inputs r resourceVersion 0 in
  match e with
  | watchClosed =>
      if (watchDuration <? 1000000000)%Z && Nat.eqb eventCount 0
      then (r, resourceVersion, veryShortWatch)
      else (r, resourceVersion, watchClosed)
  | _ => (r, resourceVersion, e)
  end.

Definition syncWith (items : list (iface A)) (resourceVersion : string) r :
    Reflector S * option (error (iface A)) :=
  let '(s, err) := rs_Replace items resourceVersion (store r) in
  (mkReflector s (lastSyncResourceVersion r), err).

(** One turn of the loop of [ListAndWatch]: the watch request fails, or the
    watch runs; [forceResync] is the answer of [canForceResyncNow]. *)
Inductive attempt : Type :=
| WatchFails (connectionRefused : bool)
| WatchRuns (inputs : list (input A)) (watchDuration : Z) (forceResync : bool).

Fixpoint watchRepeatedly (attempts : list attempt) r (resourceVersion : string) :
    Reflector S * string :=
  match attempts with
  | [] => (r, resourceVersion)
  | WatchFails connectionRefused :: attempts =>
      if connectionRefused then watchRepeatedly attempts r resourceVersion
      else (r, resourceVersion)
  | WatchRuns inputs watchDuration forceResync :: attempts =>
      match watchHandler inputs watchDuration r resourceVersion with
      | (r, resourceVersion, watchClosed) =>
          if forceResync then (r, resourceVersion)
          else watchRepeatedly attempts r resourceVersion
      | (r, resourceVersion, _) => (r, resourceVersion)
      end
  end.

(** The answer to the list request, and the watches that follow it. *)
Definition ListAndWatch (listed : result string (list (iface A) * string))
    (attempts : list attempt) r : Reflector S * option string :=
  match listed with
  | Err err => (r, Some err)
  | Ok (items, resourceVersion) =>
      match syncWith items resourceVersion r with
      | (r, Some _) => (r, Some "Unable to sync list result")
      | (r, None) =>
          let r := mkReflector (store r) resourceVersion in
          ((watchRepeatedly attempts r resourceVersion).1, None)
      end
  end.
End reflector.

(** ** What a store should hold *)
Section reference.
Context {A : Type} `{ObjectMeta A}.

(** The map of objects after an event, by the key function [kf]. *)
Definition eventMap (kf : KeyFunc (iface A)) (expected : iface A → bool) (e : Event A)
    (m : gmap string (iface A)) : gmap string (iface A) :=
  if negb (expected (event_Object e)) then m
  else match accessor (event_Object e), kf (event_Object e) with
       | Some _, Ok k =>
           match event_Type e with
           | WAdded | WModified => <[k := event_Object e]> m
           | WDeleted => delete k m
           | _ => m
           end
       | _, _ => m
       end.

(** The events the loop handles: those before the first input that ends it. *)
Fixpoint handled (inputs : list (input A)) : list (Event A) :=
  match inputs with
  | Received e :: inputs =>
      match event_Type e with WError => [] | _ => e :: handled inputs end
  | _ => []
  end.

Definition eventVersion (expected : iface A → bool) (e : Event A) (rv : string) : string :=
  if negb (expected (event_Object e)) then rv
  else match accessor (event_Object e) with Some o => GetResourceVersion o | None => rv end.
End reference.

Section facts.
Context {S A : Type} `{ObjectMeta A} `{StoreLaws S (iface A)}.
Context (expected : iface A → bool).
Implicit Types (r : Reflector S).

Lemma handleEvent_contents e r rv n :
  let '(r', rv', n') := handleEvent expected e r rv n in
  contents (store r') = eventMap (store_key (store r)) expected e (contents (store r)) ∧
  store_key (store r') = store_key (store r) ∧
  rv' = eventVersion expected e rv ∧
  (lastSyncResourceVersion r = rv → lastSyncResourceVersion r' = rv').
Proof.
  unfold handleEvent, eventMap, eventVersion.
  destruct (negb _); [done|]. destruct (accessor _) as [o|]; [|done]. cbn.
  unfold storeEvent. destruct (event_Type e); cbn.
  all: rewrite ?law_Update.
  all: pose proof (law_Add (event_Object e) (store r)) as Ha;
    pose proof (law_Delete (event_Object e) (store r)) as Hd;
    destruct (store_key (store r) (event_Object e)) eqn:Hk;
    destruct Ha as [_ Ha], Hd as [_ Hd]; rewrite ?Ha, ?Hd, ?law_key_Add, ?law_key_Delete; done.
Qed.

Lemma watchLoop_contents inputs r rv n :
  let '(r', rv', _, _) := watchLoop expected inputs r rv n in
  contents (store r') =
    foldl (λ m e, eventMap (store_key (store r)) expected e m) (contents (store r)) (handled inputs) ∧
  store_key (store r') = store_key (store r) ∧
  rv' = foldl (λ rv e, eventVersion expected e rv) rv (handled inputs) ∧
  (lastSyncResourceVersion r = rv → lastSyncResourceVersion r' = rv').
Proof.
  revert r rv n. induction inputs as [|i inputs IH]; intros r rv n; cbn; [done|].
  destruct i as [| |e|]; [done..| |done].
  pose proof (handleEvent_contents e r rv n) as He.
  destruct (handleEvent expected e r rv n) as [[r1 rv1] n1].
  destruct He as (Hc1 & Hk1 & Hv1 & Hl1). specialize (IH r1 rv1 n1).
  destruct (event_Type e); [..|done|];
    destruct (watchLoop expected inputs r1 rv1 n1) as [[[r' rv'] n'] we]; cbn;
    destruct IH as (Hc & Hk & Hv & Hl); rewrite Hc, Hk, Hk1, Hc1, Hv, Hv1; split_and!; auto;
    intros; rewrite <- Hv1 in *; rewrite Hl; auto; by rewrite <- Hv1.
Qed.
End facts.

(** ** Properties *)

(** Over a store that keeps the laws of [Store] — the plain cache and the
    FIFO queue do — a watch leaves the contents that result from applying the
    handled events in order to the contents before it, skips objects of
    another type, and reports the resource version of the last object handled,
    however the watch ends. *)
Theorem watchHandler_tracks_events (S A : Type) `{ObjectMeta A} `{StoreLaws S (iface A)}
    (expected : iface A → bool) (inputs : list (input A)) duration (r : Reflector S) rv :
  lastSyncResourceVersion r = rv →
  let '(r', rv', _) := watchHandler expected inputs duration r rv in
  contents (store r') =
    foldl (λ m e, eventMap (store_key (store r)) expected e m) (contents (store r)) (handled inputs) ∧
  rv' = foldl (λ rv e, eventVersion expected e rv) rv (handled inputs) ∧
  lastSyncResourceVersion r' = rv'.
Proof.
  intros Hrv. unfold watchHandler. pose proof (watchLoop_contents expected inputs r rv 0) as Hw.
  destruct (watchLoop expected inputs r rv 0) as [[[r' rv'] n] e].
  destruct Hw as (Hc & _ & Hv & Hl). destruct e; try (split_and!; auto).
  destruct (_ && _); split_and!; auto.
Qed.

(** A [ListAndWatch] whose list succeeds makes the store hold exactly the
    listed objects, by key, before it watches; when the list fails, or an
    object has no key, the store is left as it was. *)
Theorem ListAndWatch_syncs_list (S A : Type) `{ObjectMeta A} `{StoreLaws S (iface A)}
    (expected : iface A → bool) listed (r : Reflector S) :
  match listed with
  | Err e => ListAndWatch expected listed [] r = (r, Some e)
  | Ok (items, rv) =>
      match keyed_items (store_key (store r)) items ∅ with
      | Ok m =>
          contents (store (ListAndWatch expected listed [] r).1) = m ∧
          lastSyncResourceVersion (ListAndWatch expected listed [] r).1 = rv ∧
          (ListAndWatch expected listed [] r).2 = None
      | Err _ =>
          contents (store (ListAndWatch expected listed [] r).1) = contents (store r) ∧
          is_Some (ListAndWatch expected listed [] r).2
      end
  end.
Proof.
  destruct listed as [[items rv]|e]; [|done]. unfold ListAndWatch, syncWith; cbn.
  pose proof (law_Replace items rv (store r)) as Hl.
  destruct (keyed_items _ _ _) as [m|e]; destruct (store_Replace items rv (store r)) as [s err];
    cbn in *; destruct Hl as [-> Hc]; cbn; eauto.
Qed.

(** ** Witnesses *)

Definition demo_reflector : Reflector (FIFO (iface demo_object)) :=
  mkReflector (NewFIFO MetaNamespaceKeyFunc) "".

Definition demo_inputs : list (input demo_object) :=
  [Received (mkEvent WAdded (IObj (mkDemo "a" "x" "11")));
   Received (mkEvent WAdded (IObj (mkDemo "a" "y" "12")));
   Received (mkEvent WModified (IObj (mkDemo "a" "y" "13")));
   Received (mkEvent WDeleted (IObj (mkDemo "a" "x" "14"))); Closed].

#[local] Existing Instance canonical_order.

Lemma watchHandler_tracks_events_witness :
  contents (store (watchHandler (λ _, true) demo_inputs 0 demo_reflector "").1.1) =
    {["a/y" := IObj (mkDemo "a" "y" "13")]} ∧
  let '(r', rv', _) := watchHandler (λ _, true) demo_inputs 0 demo_reflector "" in
  contents (store r') =
    foldl (λ m e, eventMap (store_key (store demo_reflector)) (λ _, true) e m)
      (contents (store demo_reflector)) (handled demo_inputs) ∧
  rv' = foldl (λ rv e, eventVersion (λ _, true) e rv) "" (handled demo_inputs) ∧
  lastSyncResourceVersion r' = rv'.
Proof.
  split; [vm_compute; reflexivity|].
  apply (watchHandler_tracks_events (FIFO (iface demo_object)) demo_object (λ _, true)
    demo_inputs 0 demo_reflector ""). reflexivity.
Defined.
