(* ===== verification/Informer.v ===== *)
(** * framework.Informer: from watch events to a local copy of the cluster

    Models [pkg/controller/framework/controller.go]: the [Process] function of
    [NewInformer] and [NewIndexerInformer] (the same body), the processing loop,
    and the key function they share.  An informer is a [DeltaFIFO] filled by a
    reflector, whose known objects are the informer's own store [clientState];
    popping an item applies its deltas to [clientState] and notifies the
    handler.  A [step] is one call on the reflector's side (a list, an event)
    or one turn of the processing loop, in any interleaving.

    The theorems: the pending deltas of a key always lead from the local copy
    to the state of the server, so a drained informer holds exactly the
    server's objects, and the handler is told exactly the changes of the local
    copy; [Delete] and [Replace] break this for an object that was queued but
    not processed yet, and a relist of a drained informer repairs it. *)

From S2P Require Import Prelude.
From S2P Require Import ThreadSafeStore.
From S2P Require Import Store.
From S2P Require Import Fifo.
From S2P Require Import DeltaFifo.
From S2P Require Import Reflector.

(** ** Definitions *)

(** The calls of the [ResourceEventHandler]. *)
Inductive notification (A : Type) : Type :=
| OnAdd (obj : iface A)
| OnUpdate (oldObj newObj : iface A)
| OnDelete (obj : iface A).
Arguments OnAdd {A} obj.
Arguments OnUpdate {A} oldObj newObj.
Arguments OnDelete {A} obj.

Section informer.
Context `{R : RangeOrder} {A : Type} `{ObjectMeta A}.

Definition DeletionHandlingMetaNamespaceKeyFunc : KeyFunc (iface A) := λ obj,
  match obj with
  | IDeletedFinalStateUnknown Key _ => Ok Key
  | obj => MetaNamespaceKeyFunc obj
  end.

(** The key of an object. *)
Definition keyOf (o : A) : string :=
  if Nat.ltb 0 (String.length (GetNamespace o)) then GetNamespace o +:+ "/" +:+ GetName o else GetName o.

Lemma keyOf_key (o : A) : DeletionHandlingMetaNamespaceKeyFunc (IObj o) = Ok (keyOf o).
Proof. unfold DeletionHandlingMetaNamespaceKeyFunc, MetaNamespaceKeyFunc, keyOf. by destruct (Nat.ltb _ _). Qed.

(** [Config.Process]: apply the deltas, oldest first, and notify. *)
Fixpoint processDeltas (ds : Deltas A) (clientState : cache (iface A))
    (h : list (notification A)) :
    cache (iface A) * list (notification A) * option (error (iface A)) :=
  match ds with
  | [] => (clientState, h, None)
  | d :: ds =>
      match Type_ d with
      | Sync | Added | Updated =>
          match Store.Get (Object d) clientState with
          | Ok (Some old) =>
              match Store.Update (Object d) clientState with
              | (clientState, Some err) => (clientState, h, Some err)
              | (clientState, None) =>
                  processDeltas ds clientState (h ++ [OnUpdate old (Object d)])
              end
          | _ =>
              match Store.Add (Object d) clientState with
              | (clientState, Some err) => (clientState, h, Some err)
              | (clientState, None) => processDeltas ds clientState (h ++ [OnAdd (Object d)])
              end
          end
      | Deleted =>
          match Store.Delete (Object d) clientState with
          | (clientState, Some err) => (clientState, h, Some err)
          | (clientState, None) => processDeltas ds clientState (h ++ [OnDelete (Object d)])
          end
      end
  end.

(** The queue, the local copy, and the notifications so far. *)
Record informer : Type := mkInformer {
  fifo : DeltaFIFO A;
  clientState : cache (iface A);
  notified : list (notification A);
}.

Definition NewIndexerInformer (indexers : gmap string (IndexFunc (iface A))) : informer :=
  mkInformer (NewDeltaFIFO MetaNamespaceKeyFunc None)
    (NewIndexer DeletionHandlingMetaNamespaceKeyFunc indexers) [].

Definition NewInformer : informer :=
  mkInformer (NewDeltaFIFO MetaNamespaceKeyFunc None)
    (NewStore DeletionHandlingMetaNamespaceKeyFunc) [].

Definition HasSynced (i : informer) : bool := DeltaFifo.HasSynced (fifo i).

(** [Controller.Requeue]. *)
Definition Requeue (obj : iface A) (i : informer) :
    outcome (informer * option (error (iface A))) :=
  match AddIfNotPresent (IDeltas [mkDelta Sync obj]) (fifo i) with
  | Returns (f, err) => Returns (mkInformer f (clientState i) (notified i), err)
  | Panics => Panics
  end.

(** One turn of [processLoop]; informers set [RetryOnError] to false, and an
    empty queue makes [Pop] wait. *)
Definition processOne (i : informer) : informer :=
  match pop_attempt (fifo i) with
  | (f, None) => mkInformer f (clientState i) (notified i)
  | (f, Some obj) =>
      let '(c, h, _) := processDeltas obj (clientState i) (notified i) in mkInformer f c h
  end.

Definition on_fifo (r : DeltaFIFO A * option (error (iface A))) (i : informer) :
    informer * option (error (iface A)) :=
  (mkInformer r.1 (clientState i) (notified i), r.2).

(** The queue as the reflector's store; its known objects are [clientState]. *)
#[export] Instance informer_reflector_store : ReflectorStore informer (iface A) := {|
  rs_Add := λ obj i, on_fifo (DeltaFifo.Add obj (fifo i)) i;
  rs_Update := λ obj i, on_fifo (DeltaFifo.Update obj (fifo i)) i;
  rs_Delete := λ obj i, on_fifo (DeltaFifo.Delete (Some (clientState i)) obj (fifo i)) i;
  rs_Replace := λ l rv i, on_fifo (DeltaFifo.Replace (Some (clientState i)) l rv (fifo i)) i;
|}.

(** ** Steps *)

(** The reflector lists the server's objects or receives an event about one;
    the processing loop makes a turn. *)
Inductive istep : Type :=
| SList (list : list A) (resourceVersion : string)
| SEvent (t : EventType) (o : A)
| SProcess.

Definition stepInformer (i : informer) (s : istep) : informer :=
  match s with
  | SList l rv => (rs_Replace (IObj <$> l) rv i).1
  | SEvent t o => storeEvent (mkEvent t (IObj o)) i
  | SProcess => processOne i
  end.

Definition runInformer (i : informer) (ss : list istep) : informer := foldl stepInformer i ss.

(** The key of an API object. *)
Definition objectKey (o : A) : string :=
  if Nat.ltb 0 (String.length (GetNamespace o))
  then GetNamespace o +:+ "/" +:+ GetName o else GetName o.

(** The server's objects, as the list and the events report them. *)
Definition stepServer (m : gmap string (iface A)) (s : istep) : gmap string (iface A) :=
  match s with
  | SList l rv => list_to_map (reverse ((λ o, (objectKey o, IObj o)) <$> l))
  | SEvent WAdded o | SEvent WModified o => <[objectKey o := IObj o]> m
  | SEvent WDeleted o => delete (objectKey o) m
  | SEvent _ _ | SProcess => m
  end.

(** A deletion that overtakes the processing of the object: the object is
    queued, and the local copy does not have it. *)
Definition overtaken (i : informer) (k : string) : Prop :=
  ThreadSafeStore.items (cacheStorage (clientState i)) !! k = None ∧ pending (fifo i) k ≠ [].

Definition no_race (i : informer) (s : istep) : Prop :=
  match s with
  | SEvent WDeleted o => ¬ overtaken i (objectKey o)
  | SList l rv => ∀ k, overtaken i k → k ∈ objectKey <$> l
  | _ => True
  end.

Fixpoint race_free (i : informer) (ss : list istep) : Prop :=
  match ss with
  | [] => True
  | s :: ss => no_race i s ∧ race_free (stepInformer i s) ss
  end.

(** The notifications [h] are true, one after the other, of a local copy that
    is [m] at first and [m'] at the end: what is added was not known, what is
    updated was known as [oldObj]. *)
Fixpoint tells (m : gmap string (iface A)) (h : list (notification A))
    (m' : gmap string (iface A)) : Prop :=
  match h with
  | [] => m' = m
  | OnAdd obj :: h =>
      ∃ k, DeletionHandlingMetaNamespaceKeyFunc obj = Ok k ∧ m !! k = None ∧ tells (<[k := obj]> m) h m'
  | OnUpdate oldObj obj :: h =>
      ∃ k, DeletionHandlingMetaNamespaceKeyFunc obj = Ok k ∧ m !! k = Some oldObj ∧
        tells (<[k := obj]> m) h m'
  | OnDelete obj :: h =>
      ∃ k, DeletionHandlingMetaNamespaceKeyFunc obj = Ok k ∧ tells (delete k m) h m'
  end.
End informer.
Arguments informer : clear implicits.
Arguments istep : clear implicits.

(** ** Facts *)
Section facts.
Context `{R : RangeOrder} {A : Type} `{ObjectMeta A}.
Implicit Types (i : informer A) (ds : Deltas A).

Abbreviation clientKey := (DeletionHandlingMetaNamespaceKeyFunc (A := A)).
Abbreviation client i := (ThreadSafeStore.items (cacheStorage (clientState i))).

Lemma clientKey_obj (o : A) : clientKey (IObj o) = Ok (objectKey o).
Proof.
  unfold objectKey, DeletionHandlingMetaNamespaceKeyFunc, MetaNamespaceKeyFunc.
  by destruct (Nat.ltb 0 _).
Qed.

Lemma tells_app h h' : ∀ m m1 m2 : gmap string (iface A),
  tells m h m1 → tells m1 h' m2 → tells m (h ++ h') m2.
Proof.
  induction h as [|[obj|old obj|obj] h IH]; intros m m1 m2; cbn; [by intros ->|..].
  - intros (k & Hk & Hm & Ht) Ht'. exists k. split_and!; [done..|]. by eapply IH.
  - intros (k & Hk & Hm & Ht) Ht'. exists k. split_and!; [done..|]. by eapply IH.
  - intros (k & Hk & Ht) Ht'. exists k. split; [done|]. by eapply IH.
Qed.

(** Deltas that are all about the object with key [k]. *)
Definition about (k : string) ds : Prop := Forall (λ d, clientKey (Object d) = Ok k) ds.

(** [Process] on the deltas of one key: no error; the local copy of that key
    becomes what the deltas say; the notifications tell how it changes. *)
Lemma processDeltas_spec k ds : ∀ c h,
  Store.keyFunc c = clientKey → about k ds →
  ∃ c' h', processDeltas ds c h = (c', h ++ h', None) ∧ Store.keyFunc c' = clientKey ∧
    ThreadSafeStore.items (cacheStorage c') =
      match replay (ThreadSafeStore.items (cacheStorage c) !! k) ds with
      | Some o => <[k := o]> (ThreadSafeStore.items (cacheStorage c))
      | None => delete k (ThreadSafeStore.items (cacheStorage c))
      end ∧
    tells (ThreadSafeStore.items (cacheStorage c)) h' (ThreadSafeStore.items (cacheStorage c')).
Proof.
  induction ds as [|d ds IH]; intros c h Hkf Hds; cbn.
  { exists c, []. split_and!; [by rewrite app_nil_r|done| |done].
    unfold replay. cbn.
    destruct (ThreadSafeStore.items (cacheStorage c) !! k) eqn:E; [by rewrite insert_id|by rewrite delete_id]. }
  apply Forall_cons in Hds as [Hd Hds].
  assert (Hset : ∀ n,
    (∀ h' m', tells (<[k := Object d]> (ThreadSafeStore.items (cacheStorage c))) h' m' →
      tells (ThreadSafeStore.items (cacheStorage c)) (n :: h') m') →
    let c1 := mkCache (ThreadSafeStore.Add k (Object d) (cacheStorage c)) (Store.keyFunc c) in
    ∃ c' h', processDeltas ds c1 (h ++ [n]) = (c', h ++ h', None) ∧ Store.keyFunc c' = clientKey ∧
      ThreadSafeStore.items (cacheStorage c') =
        match replay (Some (Object d)) ds with
        | Some o => <[k := o]> (ThreadSafeStore.items (cacheStorage c))
        | None => delete k (ThreadSafeStore.items (cacheStorage c))
        end ∧
      tells (ThreadSafeStore.items (cacheStorage c)) h' (ThreadSafeStore.items (cacheStorage c'))).
  { intros n Hn. cbv zeta. destruct (IH (mkCache (ThreadSafeStore.Add k (Object d) (cacheStorage c)) (Store.keyFunc c)) (h ++ [n]))
      as (c' & h' & -> & Hkf' & Hi & Hr); [done..|]. cbn in Hi, Hr.
    rewrite items_Add, lookup_insert_eq in Hi. rewrite items_Add in Hr.
    exists c', (n :: h'). split_and!; [by rewrite <- app_assoc|done| |by apply Hn].
    rewrite Hi. destruct (replay _ ds); [by rewrite insert_insert_eq|].
    by rewrite delete_insert_eq. }
  assert (Hget : Store.Get (Object d) c = Ok (ThreadSafeStore.items (cacheStorage c) !! k)).
  { unfold Store.Get. by rewrite Hkf, Hd. }
  assert (Hadd : Store.Add (Object d) c = (mkCache (ThreadSafeStore.Add k (Object d) (cacheStorage c)) (Store.keyFunc c), None)).
  { unfold Store.Add. by rewrite Hkf, Hd. }
  assert (Hupd : Store.Update (Object d) c = (mkCache (ThreadSafeStore.Add k (Object d) (cacheStorage c)) (Store.keyFunc c), None)).
  { unfold Store.Update. by rewrite Hkf, Hd. }
  rewrite Hget, Hadd, Hupd, replay_cons.
  destruct (Type_ d).
  1, 2, 4: destruct (ThreadSafeStore.items (cacheStorage c) !! k) eqn:E; apply Hset; by exists k.
  unfold Store.Delete. rewrite Hkf, Hd.
  destruct (IH (mkCache (ThreadSafeStore.Delete k (cacheStorage c)) clientKey) (h ++ [OnDelete (Object d)]))
    as (c' & h' & -> & Hkf' & Hi & Hr); [done..|]. cbn in Hi, Hr.
  rewrite items_Delete, lookup_delete_eq in Hi. rewrite items_Delete in Hr.
  exists c', (OnDelete (Object d) :: h'). split_and!; [by rewrite <- app_assoc|done| |].
  - rewrite Hi. destruct (replay None ds); [by rewrite insert_delete_eq|by rewrite delete_delete_eq].
  - by exists k.
Qed.

Lemma processDeltas_added (o : A) c :
  Store.keyFunc c = clientKey → ThreadSafeStore.items (cacheStorage c) = ∅ →
  processDeltas [mkDelta Added (IObj o)] c [] =
    (mkCache (ThreadSafeStore.Add (objectKey o) (IObj o) (cacheStorage c)) clientKey,
     [OnAdd (IObj o)], None).
Proof.
  intros Hkf Hem. cbn [processDeltas Type_ Object]. unfold Store.Get, Store.Add.
  rewrite Hkf, clientKey_obj. cbn. unfold ThreadSafeStore.Get.
  by rewrite Hem, lookup_empty.
Qed.

(** What the calls keep, whatever the server does. *)
Record informer_wf i : Prop := {
  wf_compressor : deltaCompressor (fifo i) = None;
  wf_fifoKey : keyFunc (fifo i) = MetaNamespaceKeyFunc;
  wf_clientKey : Store.keyFunc (clientState i) = clientKey;
  wf_tight : delta_tight (fifo i);
  wf_about k : about k (pending (fifo i) k);
}.

(** The pending deltas lead from the local copy to the server's objects. *)
Definition agrees i (server : gmap string (iface A)) : Prop :=
  ∀ k, replay (client i !! k) (pending (fifo i) k) = server !! k.

(** The part of [informer_wf] about the queue. *)
Definition fifo_wf (f : DeltaFIFO A) : Prop :=
  deltaCompressor f = None ∧ keyFunc f = MetaNamespaceKeyFunc ∧ delta_tight f ∧
  ∀ k, about k (pending f k).

Lemma informer_wf_fifo f i h :
  informer_wf i → fifo_wf f → informer_wf (mkInformer f (clientState i) h).
Proof. intros [? ? ? ? ?] (? & ? & ? & ?). by split. Qed.

Lemma informer_fifo_wf i : informer_wf i → fifo_wf (fifo i).
Proof. by intros [? ? ? ? ?]. Qed.

(** API objects and tombstones: the queue and the local copy give them the
    same key. *)
Definition plain (obj : iface A) : Prop :=
  match obj with IObj _ | IDeletedFinalStateUnknown _ _ => True | _ => False end.

Lemma plain_key f obj : keyFunc f = MetaNamespaceKeyFunc → plain obj → KeyOf f obj = clientKey obj.
Proof. intros Hk Hp. unfold KeyOf. rewrite Hk. by destruct obj. Qed.

Lemma KeyOf_obj f o : keyFunc f = MetaNamespaceKeyFunc → KeyOf f (IObj o) = Ok (objectKey o).
Proof. intros Hk. rewrite plain_key by done. apply clientKey_obj. Qed.

Lemma fifo_wf_queueAction ty obj f : plain obj → fifo_wf f → fifo_wf (queueActionLocked ty obj f).1.
Proof.
  intros Hp (Hc & Hk & Ht & Ha). pose proof (queueAction_conf ty obj f) as (Hk' & Hc' & _).
  split_and!; [congruence..|by apply queueAction_tight|].
  destruct (KeyOf f obj) as [id|e] eqn:Hid; [|unfold queueActionLocked; by rewrite Hid].
  intros k. destruct (decide (k = id)) as [->|Hne].
  - rewrite (queueAction_eq ty obj f id), (pending_eq _ id _ (lookup_insert_eq _ _ _)) by done.
    apply dedup_Forall, Forall_app. split; [apply Ha|]. repeat constructor. cbn.
    by rewrite <- (plain_key f).
  - rewrite (pending_ext _ f k); [apply Ha|by eapply queueAction_items].
Qed.

Lemma fifo_wf_populated (f : DeltaFIFO A) p n :
  fifo_wf f → fifo_wf (mkDeltaFIFO (items f) (queue f) p n (keyFunc f) (deltaCompressor f)).
Proof. done. Qed.

Lemma fifo_wf_Replace (c : cache (iface A)) (l : list A) rv f :
  fifo_wf f → fifo_wf (DeltaFifo.Replace (Some c) (IObj <$> l) rv f).1.
Proof.
  intros Hf. apply (kept_Replace fifo_wf plain); [apply fifo_wf_queueAction|done| | |done].
  - apply fifo_wf_populated.
  - apply Forall_fmap, Forall_true. done.
Qed.

Lemma fifo_wf_Delete (c : cache (iface A)) o f :
  fifo_wf f → fifo_wf (DeltaFifo.Delete (Some c) (IObj o) f).1.
Proof.
  intros Hf. unfold DeltaFifo.Delete. destruct (KeyOf f (IObj o)); [|done].
  destruct (known_GetByKey _ c) as [[?|]|?]; [|done|];
    by apply fifo_wf_queueAction, fifo_wf_populated.
Qed.

Lemma pop_spec i : informer_wf i →
  match pop_attempt (fifo i) with
  | (f, Some ds) => ∃ k, queue (fifo i) = k :: queue f ∧ pending (fifo i) k = ds ∧
      fifo_wf f ∧ pending f k = [] ∧ ∀ k', k' ≠ k → pending f k' = pending (fifo i) k'
  | (f, None) => queue (fifo i) = [] ∧ fifo_wf f ∧ ∀ k, pending f k = []
  end.
Proof.
  intros Hwf. pose proof (informer_fifo_wf i Hwf) as (Hc & Hk & Ht & Ha).
  pose proof (delta_pop_tight (fifo i) Ht) as Ht'. destruct Ht as (Hnd & Hq & Hne).
  destruct (pop_attempt (fifo i)) as [f [ds|]] eqn:E.
  - apply delta_pop_Some in E as (stale & k & Hqf & Hst & Hi & Hm & Hkf & Hcf & _).
    assert (stale = []) as ->.
    { destruct stale as [|y stale]; [done|]. specialize (Hst y ltac:(left)).
      assert (y ∈ queue (fifo i)) as Hy%Hq by (rewrite Hqf; left).
      rewrite Hst in Hy. by destruct Hy. }
    exists k. assert (Hoth : ∀ k', k' ≠ k → pending f k' = pending (fifo i) k').
    { intros k' Hne'. apply pending_ext. rewrite Hm. by rewrite lookup_delete_ne. }
    assert (Hself : pending f k = []) by (unfold pending; by rewrite Hm, lookup_delete_eq).
    split_and!; [done|by apply pending_eq| |done|done].
    split_and!; [congruence..|done|]. intros k'.
    destruct (decide (k' = k)) as [->|]; [rewrite Hself; constructor|by rewrite Hoth].
  - apply delta_pop_None in E as (Hqf & Hm & Hkf & Hcf & Hnone).
    assert (Hq0 : queue (fifo i) = []).
    { destruct (queue (fifo i)) as [|y q] eqn:E; [done|].
      assert (y ∈ y :: q) as Hy by left. pose proof (Hnone y Hy) as Hy'.
      apply Hq in Hy. rewrite Hy' in Hy. by destruct Hy. }
    assert (Hp : ∀ k, pending f k = []).
    { intros k. unfold pending. rewrite Hm. destruct (items (fifo i) !! k) eqn:Ek; [|done].
      assert (k ∈ queue (fifo i)) as Hin by (apply Hq; eauto). rewrite Hq0 in Hin.
      by apply elem_of_nil in Hin. }
    split_and!; [done| |done]. split_and!; [congruence..|done|]. intros k. rewrite Hp. constructor.
Qed.

(** One turn of the processing loop. *)
Lemma processOne_spec i : informer_wf i →
  informer_wf (processOne i) ∧
  queue (fifo (processOne i)) = tail (queue (fifo i)) ∧
  (∀ k, replay (client (processOne i) !! k) (pending (fifo (processOne i)) k) =
        replay (client i !! k) (pending (fifo i) k)) ∧
  ∃ h, notified (processOne i) = notified i ++ h ∧
       tells (client i) h (client (processOne i)).
Proof.
  intros Hwf. pose proof (pop_spec i Hwf) as Hpop. unfold processOne.
  destruct (pop_attempt (fifo i)) as [f [ds|]] eqn:E.
  - destruct Hpop as (k & Hq & Hds & Hf & Hself & Hoth).
    destruct (processDeltas_spec k ds (clientState i) (notified i))
      as (c & h & -> & Hkf & Hc & Hr); [apply Hwf|rewrite <- Hds; apply Hwf|].
    cbn. split_and!.
    + destruct Hf as (? & ? & ? & ?). by split.
    + by rewrite Hq.
    + intros k'. destruct (decide (k' = k)) as [->|Hne].
      * rewrite Hself, Hc, Hds. unfold replay at 1. cbn.
        destruct (replay _ ds); [by rewrite lookup_insert_eq|by rewrite lookup_delete_eq].
      * rewrite (Hoth _ Hne), Hc.
        destruct (replay _ ds); [by rewrite lookup_insert_ne|by rewrite lookup_delete_ne].
    + by exists h.
  - destruct Hpop as (Hq & Hf & Hnone). cbn. split_and!.
    + by apply informer_wf_fifo.
    + apply delta_pop_None in E as (-> & _). by rewrite Hq.
    + intros k. rewrite Hnone. f_equal. pose proof (wf_tight i Hwf) as (_ & Hqi & _).
      unfold pending. destruct (items (fifo i) !! k) eqn:Ek; [|done].
      assert (k ∈ queue (fifo i)) as Hin by (apply Hqi; eauto). rewrite Hq in Hin.
      by apply elem_of_nil in Hin.
    + exists []. by rewrite app_nil_r.
Qed.
End facts.

(** ** Steps *)
Section steps.
Context `{R : RangeOrder} {A : Type} `{ObjectMeta A}.
Implicit Types (i : informer A) (m : gmap string (iface A)).

Abbreviation client i := (ThreadSafeStore.items (cacheStorage (clientState i))).

Definition listedMap (l : list A) : gmap string (iface A) :=
  list_to_map (reverse ((λ o, (objectKey o, IObj o)) <$> l)).

Lemma keyed_items_listed kf (l : list A) : ∀ m,
  (∀ o, kf (IObj o) = Ok (objectKey o)) →
  keyed_items kf (IObj <$> l) m = Ok (listedMap l ∪ m).
Proof.
  unfold listedMap. induction l as [|o l IH]; intros m Hkf; [cbn; by rewrite map_empty_union|].
  rewrite !fmap_cons. cbn [keyed_items]. rewrite Hkf, IH by done. f_equal.
  rewrite reverse_cons, list_to_map_app, <- map_union_assoc. f_equal. cbn.
  by rewrite insert_empty, insert_union_singleton_l.
Qed.

Lemma listedMap_None l k : listedMap l !! k = None ↔ k ∉ objectKey <$> l.
Proof.
  unfold listedMap. rewrite <- not_elem_of_list_to_map, fmap_reverse, elem_of_reverse.
  by rewrite <- list_fmap_compose.
Qed.

(** After a list, whatever was queued before, the pending deltas lead to the
    listed objects, unless an unlisted object was overtaken. *)
Lemma list_agrees i l rv :
  informer_wf i → no_race i (SList l rv) → agrees (stepInformer i (SList l rv)) (listedMap l).
Proof.
  intros Hwf Hrace k. cbn. destruct Hwf as [Hc Hkf Hck Ht Ha].
  assert (keyed_items (KeyOf (fifo i)) (IObj <$> l) ∅ = Ok (listedMap l)) as Hl.
  { rewrite keyed_items_listed by (intros; by apply KeyOf_obj). by rewrite map_union_empty. }
  destruct (Replace_known_spec (clientState i) (IObj <$> l) rv (fifo i) (listedMap l) Hc Hl)
    as (_ & _ & _ & _ & Hk). specialize (Hk k).
  destruct (listedMap l !! k) as [it|] eqn:Hm; [by apply Hk|].
  change (known_contents (clientState i)) with (client i) in Hk.
  destruct (decide (is_Some (client i !! k))) as [Hs|Hs]; [by apply Hk|].
  apply eq_None_not_Some in Hs. rewrite (pending_ext _ (fifo i)) by done. rewrite Hs.
  destruct (decide (pending (fifo i) k = [])) as [->|Hne]; [done|].
  apply listedMap_None in Hm. destruct Hm. apply Hrace. by split.
Qed.

Lemma event_agrees i m ty o :
  informer_wf i → ty ≠ Deleted → agrees i m → ∀ h,
  agrees (mkInformer (queueActionLocked ty (IObj o) (setPopulated (fifo i))).1 (clientState i) h)
    (<[objectKey o := IObj o]> m).
Proof.
  intros Hwf Hty Hag h k. cbn. pose proof (wf_fifoKey i Hwf) as Hkf.
  set (f := setPopulated (fifo i)).
  assert (KeyOf f (IObj o) = Ok (objectKey o)) as Hid by by apply KeyOf_obj.
  rewrite lookup_insert. case_decide as Hk; [subst k|].
  - rewrite (queueAction_replay ty (IObj o) f) by (done || apply Hwf). by destruct ty.
  - rewrite (pending_ext _ (fifo i)); [apply Hag|].
    rewrite (queueAction_items ty (IObj o) f (objectKey o)) by (done || apply Hwf). done.
Qed.

Lemma delete_agrees i m o :
  informer_wf i → no_race i (SEvent WDeleted o) → agrees i m → ∀ h,
  agrees (mkInformer (DeltaFifo.Delete (Some (clientState i)) (IObj o) (fifo i)).1 (clientState i) h)
    (delete (objectKey o) m).
Proof.
  intros Hwf Hrace Hag h k. cbn. pose proof (wf_fifoKey i Hwf) as Hkf.
  unfold DeltaFifo.Delete. rewrite KeyOf_obj by done. cbn.
  unfold Store.GetByKey, ThreadSafeStore.Get.
  set (f := setPopulated (fifo i)).
  assert (KeyOf f (IObj o) = Ok (objectKey o)) as Hid by by apply KeyOf_obj.
  rewrite lookup_delete. destruct (client i !! objectKey o) as [old|] eqn:Hold; cbn.
  - case_decide as Hk; [subst k|].
    + by rewrite (queueAction_replay Deleted (IObj o) f) by (done || apply Hwf).
    + rewrite (pending_ext _ (fifo i)); [apply Hag|].
      rewrite (queueAction_items Deleted (IObj o) f (objectKey o)) by (done || apply Hwf). done.
  - change (pending f k) with (pending (fifo i) k). case_decide as Hk; [subst k|apply Hag].
    rewrite Hold. destruct (decide (pending (fifo i) (objectKey o) = [])) as [->|Hne]; [done|].
    destruct Hrace. by split.
Qed.

Lemma step_wf i s : informer_wf i → informer_wf (stepInformer i s).
Proof.
  intros Hwf. pose proof (informer_fifo_wf i Hwf) as Hf. destruct s as [l rv|t o|]; cbn.
  - by apply informer_wf_fifo, fifo_wf_Replace.
  - unfold storeEvent. destruct t; cbn; [..|done|done]; apply informer_wf_fifo; try done.
    + by apply fifo_wf_queueAction, fifo_wf_populated.
    + by apply fifo_wf_queueAction, fifo_wf_populated.
    + by apply fifo_wf_Delete.
  - by apply processOne_spec.
Qed.

Lemma step_agrees i m s :
  informer_wf i → no_race i s → agrees i m → agrees (stepInformer i s) (stepServer m s).
Proof.
  intros Hwf Hrace Hag. destruct s as [l rv|t o|].
  - by apply list_agrees.
  - destruct t; cbn; [by apply event_agrees..|by apply delete_agrees|done|done].
  - intros k. cbn. destruct (processOne_spec i Hwf) as (_ & _ & -> & _). apply Hag.
Qed.

Lemma run_snoc i ss s : runInformer i (ss ++ [s]) = stepInformer (runInformer i ss) s.
Proof. apply foldl_snoc. Qed.

Lemma run_app i ss ss' : runInformer i (ss ++ ss') = runInformer (runInformer i ss) ss'.
Proof. apply foldl_app. Qed.

Lemma run_wf i ss : informer_wf i → informer_wf (runInformer i ss).
Proof. intros. apply (foldl_inv informer_wf); [done|]. intros. by apply step_wf. Qed.

Lemma NewInformer_wf : informer_wf (NewInformer (A := A)).
Proof.
  split; [done..| |].
  - split; [constructor|]. split.
    + intros id. cbn. rewrite lookup_empty. split; [by intros ?%elem_of_nil|by intros []].
    + intros id ds. cbn. by rewrite lookup_empty.
  - intros k. unfold pending. cbn. rewrite lookup_empty. constructor.
Qed.

Lemma run_agrees ss : ∀ i m,
  informer_wf i → race_free i ss → agrees i m → agrees (runInformer i ss) (foldl stepServer m ss).
Proof.
  induction ss as [|s ss IH]; intros i m Hwf Hrf Hag; [done|].
  destruct Hrf as [Hr Hrf]. apply IH; [by apply step_wf|done|by apply step_agrees].
Qed.

(** A drained queue has nothing pending. *)
Lemma drained_pending i k : informer_wf i → queue (fifo i) = [] → pending (fifo i) k = [].
Proof.
  intros Hwf Hq. pose proof (wf_tight i Hwf) as (_ & Hqi & _).
  unfold pending. destruct (items (fifo i) !! k) eqn:Ek; [|done].
  assert (k ∈ queue (fifo i)) as Hin by (apply Hqi; eauto). rewrite Hq in Hin.
  by apply elem_of_nil in Hin.
Qed.

Lemma drained_agrees i m : informer_wf i → agrees i m → queue (fifo i) = [] → client i = m.
Proof.
  intros Hwf Hag Hq. apply map_eq. intros k. rewrite <- Hag.
  by rewrite (drained_pending i k Hwf Hq).
Qed.

Lemma process_n n : ∀ i, informer_wf i →
  let j := runInformer i (replicate n SProcess) in
  queue (fifo j) = drop n (queue (fifo i)) ∧
  ∀ k, replay (client j !! k) (pending (fifo j) k) = replay (client i !! k) (pending (fifo i) k).
Proof.
  induction n as [|n IH]; intros i Hwf j; [done|].
  destruct (processOne_spec i Hwf) as (Hwf' & Hq & Hr & _).
  destruct (IH (processOne i) Hwf') as [Hq' Hr'].
  change (runInformer (processOne i) (replicate n SProcess)) with j in Hq', Hr'.
  split; [rewrite Hq', Hq; by destruct (queue (fifo i)), n|]. intros k. by rewrite Hr', Hr.
Qed.
End steps.

(** ** Properties *)

(** C1: if no deletion overtakes the processing of an object, the local copy
    and the pending deltas together always describe the server's objects, in
    every interleaving of lists, events and processing; and processing what is
    queued then leaves exactly the server's objects in the local copy. *)
Theorem informer_converges (R : RangeOrder) (A : Type) `{ObjectMeta A} (ss : list (istep A)) :
  race_free NewInformer ss →
  let i := runInformer NewInformer ss in
  let server := foldl stepServer ∅ ss in
  let j := runInformer i (replicate (length (queue (fifo i))) SProcess) in
  agrees i server ∧ queue (fifo j) = [] ∧
  ThreadSafeStore.items (cacheStorage (clientState j)) = server.
Proof.
  intros Hrf. cbv zeta. set (i := runInformer NewInformer ss).
  assert (informer_wf i) as Hwf by apply run_wf, NewInformer_wf.
  assert (agrees i (foldl stepServer ∅ ss)) as Hag.
  { apply run_agrees; [apply NewInformer_wf|done|]. intros k. unfold pending. cbn.
    by rewrite !lookup_empty. }
  destruct (process_n (length (queue (fifo i))) i Hwf) as [Hq Hr].
  rewrite drop_all in Hq. split_and!; [done|done|].
  apply drained_agrees; [by apply run_wf| |done]. intros k. rewrite Hr. apply Hag.
Qed.

(** A relist repairs everything: from any state with an empty queue,
    however wrong the local copy is, listing the server and processing what
    that queues leaves exactly the listed objects in the local copy. *)
Theorem relist_repairs (R : RangeOrder) (A : Type) `{ObjectMeta A} (ss : list (istep A)) l rv :
  let i := runInformer NewInformer ss in
  queue (fifo i) = [] →
  let i' := stepInformer i (SList l rv) in
  let j := runInformer i' (replicate (length (queue (fifo i'))) SProcess) in
  queue (fifo j) = [] ∧
  ThreadSafeStore.items (cacheStorage (clientState j)) = stepServer ∅ (SList l rv).
Proof.
  cbv zeta. set (i := runInformer NewInformer ss). intros Hq.
  assert (informer_wf i) as Hwf by apply run_wf, NewInformer_wf.
  assert (informer_wf (stepInformer i (SList l rv))) as Hwf' by by apply step_wf.
  assert (agrees (stepInformer i (SList l rv)) (listedMap l)) as Hag.
  { apply list_agrees; [done|]. intros k [_ Hne]. by rewrite drained_pending in Hne. }
  destruct (process_n (length (queue (fifo (stepInformer i (SList l rv))))) _ Hwf') as [Hqj Hr].
  rewrite drop_all in Hqj. split; [done|].
  apply drained_agrees; [by apply run_wf| |done]. intros k. rewrite Hr. apply Hag.
Qed.

(** C25: the handler is told exactly the changes of the local copy, races
    included: an addition of what it did not know, an update of what it knew
    as the old object, and deletions; together they give the local copy. *)
Theorem notifications_tell_client (R : RangeOrder) (A : Type) `{ObjectMeta A}
    (ss : list (istep A)) :
  let i := runInformer NewInformer ss in
  tells ∅ (notified i) (ThreadSafeStore.items (cacheStorage (clientState i))).
Proof.
  cbv zeta. induction ss as [|s ss IH] using rev_ind; [done|].
  rewrite run_snoc. pose proof (run_wf NewInformer ss NewInformer_wf) as Hwf.
  destruct s as [l rv|t o|]; cbn.
  - done.
  - by destruct t.
  - destruct (processOne_spec _ Hwf) as (_ & _ & _ & h & -> & Hh).
    by apply (tells_app _ _ _ _ _ IH).
Qed.

(** [DeltaFIFO.Delete] drops the deletion of an object its known objects
    do not have, even if the queue holds it: an object that is added and
    deleted before the processing loop takes its turn stays in the drained
    informer, whose handler was told of its addition only. *)
Theorem delete_overtakes_add (R : RangeOrder) (A : Type) `{ObjectMeta A} (o : A) :
  let ss := [SEvent WAdded o; SEvent WDeleted o; SProcess] in
  let i := runInformer NewInformer ss in
  foldl stepServer ∅ ss = ∅ ∧ queue (fifo i) = [] ∧
  ThreadSafeStore.items (cacheStorage (clientState i)) = {[objectKey o := IObj o]} ∧
  notified i = [OnAdd (IObj o)].
Proof.
  cbv zeta. split; [cbn; by rewrite delete_insert_eq, delete_empty|].
  set (i1 := runInformer NewInformer [SEvent WAdded o]).
  assert (fifo i1 = mkDeltaFIFO {[objectKey o := [mkDelta Added (IObj o)]]} [objectKey o] true 0
            MetaNamespaceKeyFunc None) as Hf1.
  { subst i1. cbn. unfold DeltaFifo.Add. rewrite (queueAction_eq Added (IObj o) _ (objectKey o))
      by (done || by apply KeyOf_obj). done. }
  assert (fifo (stepInformer i1 (SEvent WDeleted o)) = fifo i1) as Hf2.
  { change (fifo (stepInformer i1 (SEvent WDeleted o)))
      with (DeltaFifo.Delete (Some (clientState (NewInformer (A := A)))) (IObj o) (fifo i1)).1.
    unfold DeltaFifo.Delete. rewrite Hf1, KeyOf_obj by done. done. }
  change (runInformer NewInformer [SEvent WAdded o; SEvent WDeleted o; SProcess])
    with (processOne (stepInformer i1 (SEvent WDeleted o))).
  unfold processOne. rewrite Hf2, Hf1. unfold pop_attempt. cbn. rewrite lookup_singleton_eq.
  change (clientState (stepInformer i1 (SEvent WDeleted o)))
    with (NewStore (V := iface A) DeletionHandlingMetaNamespaceKeyFunc).
  change (notified (stepInformer i1 (SEvent WDeleted o))) with (@nil (notification A)).
  rewrite (processDeltas_added o (NewStore DeletionHandlingMetaNamespaceKeyFunc)) by done.
  cbn. by rewrite items_Add.
Qed.

(** ** Witnesses *)
#[local] Existing Instance canonical_order.

Definition demo_steps : list (istep demo_object) :=
  [SList [mkDemo "a" "x" "1"; mkDemo "a" "y" "2"] "5"; SProcess; SProcess;
   SEvent WDeleted (mkDemo "a" "x" "6"); SEvent WAdded (mkDemo "b" "z" "7");
   SEvent WModified (mkDemo "a" "y" "8"); SProcess].

Lemma demo_race_free : race_free NewInformer demo_steps.
Proof.
  repeat split; try (by intros [_ Hne]; apply Hne; vm_compute).
  - intros k [_ Hne]. destruct Hne. unfold pending. cbn. by rewrite lookup_empty.
Qed.

Lemma informer_converges_witness :
  let i := runInformer NewInformer demo_steps in
  let server := foldl stepServer ∅ demo_steps in
  let j := runInformer i (replicate (length (queue (fifo i))) SProcess) in
  length (queue (fifo i)) = 2 ∧
  (agrees i server ∧ queue (fifo j) = [] ∧
   ThreadSafeStore.items (cacheStorage (clientState j)) = server).
Proof.
  cbv zeta. split; [vm_compute; reflexivity|].
  apply (informer_converges canonical_order demo_object demo_steps), demo_race_free.
Defined.

Lemma relist_repairs_witness :
  let o := mkDemo "a" "x" "1" in
  let i := runInformer NewInformer [SEvent WAdded o; SEvent WDeleted o; SProcess] in
  let i' := stepInformer i (SList [mkDemo "b" "z" "9"] "9") in
  let j := runInformer i' (replicate (length (queue (fifo i'))) SProcess) in
  queue (fifo j) = [] ∧
  ThreadSafeStore.items (cacheStorage (clientState j)) =
    stepServer ∅ (SList [mkDemo "b" "z" "9"] "9").
Proof.
  cbv zeta.
  apply (relist_repairs canonical_order demo_object
    [SEvent WAdded (mkDemo "a" "x" "1"); SEvent WDeleted (mkDemo "a" "x" "1"); SProcess]).
  vm_compute. reflexivity.
Defined.
