(* ===== verification/Validation.v ===== *)
(** * util/validation: the syntax of names and values

    Models the string checks of [pkg/util/validation/validation.go].  They are
    Go regular expressions, anchored at both ends; [regex] is the syntax those
    expressions use, [MatchString] decides it by derivatives, and
    [MatchString_matches] shows that it decides the usual meaning.  Each format
    constant is then the source's expression, and the theorems say which
    strings it admits.  A string is its bytes: the classes are ASCII, and [.]
    is any byte but the newline. *)

From S2P Require Import Prelude.
From S2P Require Import SetsString.
From S2P Require Import ThreadSafeStore.
From S2P Require Import Store.

(** ** Regular expressions *)

Inductive regex : Type :=
| Nil
| Eps
| Chr (f : ascii → bool)
| Cat (r1 r2 : regex)
| Alt (r1 r2 : regex)
| Star (r : regex).

(** [r?] and [r+] *)
Definition Opt (r : regex) : regex := Alt Eps r.
Definition Plus (r : regex) : regex := Cat r (Star r).

Fixpoint nullable (r : regex) : bool :=
  match r with
  | Nil | Chr _ => false
  | Eps | Star _ => true
  | Cat r1 r2 => nullable r1 && nullable r2
  | Alt r1 r2 => nullable r1 || nullable r2
  end.

(** What is left to match of [r] after the byte [c]. *)
Fixpoint deriv (c : ascii) (r : regex) : regex :=
  match r with
  | Nil | Eps => Nil
  | Chr f => if f c then Eps else Nil
  | Cat r1 r2 =>
      if nullable r1 then Alt (Cat (deriv c r1) r2) (deriv c r2) else Cat (deriv c r1) r2
  | Alt r1 r2 => Alt (deriv c r1) (deriv c r2)
  | Star r => Cat (deriv c r) (Star r)
  end.

(** [regexp.MustCompile("^" + r + "$").MatchString(s)] *)
Fixpoint MatchString (r : regex) (s : string) : bool :=
  match s with
  | EmptyString => nullable r
  | String c s => MatchString (deriv c r) s
  end.

(** The language of an expression. *)
Inductive matches : regex → string → Prop :=
| m_eps : matches Eps ""
| m_chr f c : f c = true → matches (Chr f) (String c "")
| m_cat r1 r2 s1 s2 : matches r1 s1 → matches r2 s2 → matches (Cat r1 r2) (s1 +:+ s2)
| m_alt_l r1 r2 s : matches r1 s → matches (Alt r1 r2) s
| m_alt_r r1 r2 s : matches r2 s → matches (Alt r1 r2) s
| m_star_nil r : matches (Star r) ""
| m_star_cons r s1 s2 : matches r s1 → matches (Star r) s2 → matches (Star r) (s1 +:+ s2).

(** Character classes. *)
Definition in_range (lo hi c : ascii) : bool :=
  (N_of_ascii lo <=? N_of_ascii c)%N && (N_of_ascii c <=? N_of_ascii hi)%N.
Definition is_lower : ascii → bool := in_range "a" "z".
Definition is_upper : ascii → bool := in_range "A" "Z".
Definition is_digit : ascii → bool := in_range "0" "9".
Definition is_char (d c : ascii) : bool := bool_decide (c = d).
Definition is_lnum (c : ascii) : bool := is_lower c || is_digit c.
Definition is_alnum (c : ascii) : bool := is_upper c || is_lower c || is_digit c.
Definition is_ext (c : ascii) : bool :=
  is_char "-" c || is_alnum c || is_char "_" c || is_char "." c.
Definition is_lnum_hyphen (c : ascii) : bool := is_char "-" c || is_lnum c.
Definition newline : ascii := "010"%char.
Definition is_any (c : ascii) : bool := negb (is_char newline c).

(** ** The checks *)

Definition qnameCharFmt : regex := Chr is_alnum.
Definition qnameExtCharFmt : regex := Chr is_ext.
Definition QualifiedNameFmt : regex :=
  Cat (Opt (Cat qnameCharFmt (Star qnameExtCharFmt))) qnameCharFmt.
Definition QualifiedNameMaxLength : nat := 63.

Definition DNS1123LabelFmt : regex :=
  Cat (Chr is_lnum) (Opt (Cat (Star (Chr is_lnum_hyphen)) (Chr is_lnum))).
Definition DNS1123LabelMaxLength : nat := 63.

Definition IsDNS1123Label (value : string) : bool :=
  (String.length value <=? DNS1123LabelMaxLength) && MatchString DNS1123LabelFmt value.

Definition DNS1123SubdomainFmt : regex :=
  Cat DNS1123LabelFmt (Star (Cat (Chr (is_char ".")) DNS1123LabelFmt)).
Definition DNS1123SubdomainMaxLength : nat := 253.

Definition IsDNS1123Subdomain (value : string) : bool :=
  (String.length value <=? DNS1123SubdomainMaxLength) && MatchString DNS1123SubdomainFmt value.

Definition IsQualifiedName (value : string) : bool :=
  let check name :=
    bool_decide (name ≠ "") && (String.length name <=? QualifiedNameMaxLength) &&
    MatchString QualifiedNameFmt name in
  match Split slash value with
  | [name] => check name
  | [prefix; name] =>
      if bool_decide (prefix = "") || negb (IsDNS1123Subdomain prefix) then false
      else check name
  | _ => false
  end.

Definition LabelValueFmt : regex := Opt QualifiedNameFmt.
Definition LabelValueMaxLength : nat := 63.

Definition IsValidLabelValue (value : string) : bool :=
  (String.length value <=? LabelValueMaxLength) && MatchString LabelValueFmt value.

Definition DNS952LabelFmt : regex :=
  Cat (Chr is_lower) (Opt (Cat (Star (Chr is_lnum_hyphen)) (Chr is_lnum))).
Definition DNS952LabelMaxLength : nat := 24.

Definition IsDNS952Label (value : string) : bool :=
  (String.length value <=? DNS952LabelMaxLength) && MatchString DNS952LabelFmt value.

Definition CIdentifierFmt : regex :=
  Cat (Chr (λ c, is_upper c || is_lower c || is_char "_" c))
      (Star (Chr (λ c, is_alnum c || is_char "_" c))).

Definition IsCIdentifier (value : string) : bool := MatchString CIdentifierFmt value.

Definition IsValidPortNum (port : Z) : bool := (0 <? port)%Z && (port <? 65536)%Z.

(** [math.MaxInt32] *)
Definition maxID : Z := 2 ^ 31 - 1.
Definition IsValidGroupId (gid : Z) : bool := (0 <=? gid)%Z && (gid <=? maxID)%Z.
Definition IsValidUserId (uid : Z) : bool := (0 <=? uid)%Z && (uid <=? maxID)%Z.

Definition doubleHyphensFmt : regex :=
  Cat (Star (Chr is_any))
    (Cat (Cat (Chr (is_char "-")) (Chr (is_char "-"))) (Star (Chr is_any))).
Definition IdentifierNoHyphensBeginEndFmt : regex :=
  Cat (Chr is_lnum) (Star (Cat (Star (Chr is_lnum_hyphen)) (Chr is_lnum))).
Definition atLeastOneLetterFmt : regex :=
  Cat (Star (Chr is_any)) (Cat (Chr is_lower) (Star (Chr is_any))).

Definition IsValidPortName (port : string) : bool :=
  if (String.length port <? 1) || (15 <? String.length port) then false
  else if MatchString doubleHyphensFmt port then false
  else if MatchString IdentifierNoHyphensBeginEndFmt port &&
          MatchString atLeastOneLetterFmt port then true
  else false.

Definition percentFmt : regex := Cat (Plus (Chr is_digit)) (Chr (is_char "%")).
Definition IsValidPercent (percent : string) : bool := MatchString percentFmt percent.

Definition HTTPHeaderNameFmt : regex := Plus (Chr (λ c, is_char "-" c || is_alnum c)).
Definition IsHTTPHeaderName (value : string) : bool := MatchString HTTPHeaderNameFmt value.

(** ** The matcher *)

Lemma str_cons_app c s t : String c s +:+ t = String c (s +:+ t).
Proof. done. Qed.

Lemma str_nil_app t : "" +:+ t = t.
Proof. done. Qed.

Lemma str_app_nil_inv s t : s +:+ t = "" → s = "" ∧ t = "".
Proof. destruct s; [done|]. by rewrite str_cons_app. Qed.

Lemma nullable_matches r : nullable r = true ↔ matches r "".
Proof.
  split.
  - induction r; cbn; intros Hn; try done; [constructor| | |constructor].
    + apply andb_prop in Hn as [H1 H2]. rewrite <- (str_nil_app ""). constructor; auto.
    + apply orb_prop in Hn as [H1|H2]; [apply m_alt_l|apply m_alt_r]; auto.
  - intros Hm. remember "" as s. induction Hm; subst; try done; cbn.
    + apply str_app_nil_inv in Heqs as [-> ->]. by rewrite IHHm1, IHHm2.
    + by rewrite IHHm.
    + rewrite IHHm by done. by rewrite orb_true_r.
Qed.

Lemma deriv_sound c r : ∀ s, matches (deriv c r) s → matches r (String c s).
Proof.
  induction r; cbn; intros s Hm; try by inversion Hm.
  - destruct (f c) eqn:Hf; inversion Hm; subst. by constructor.
  - assert (matches (Cat (deriv c r1) r2) s → matches (Cat r1 r2) (String c s)) as Hl.
    { intros Hc. inversion Hc; subst. rewrite <- str_cons_app. constructor; auto. }
    destruct (nullable r1) eqn:Hn; [|by apply Hl]. inversion Hm; subst; [by apply Hl|].
    rewrite <- (str_nil_app (String c s)). constructor; [by apply nullable_matches|auto].
  - inversion Hm; subst; [apply m_alt_l|apply m_alt_r]; auto.
  - inversion Hm; subst. rewrite <- str_cons_app. constructor; auto.
Qed.

Lemma deriv_complete c r s' : matches r s' → ∀ s, s' = String c s → matches (deriv c r) s.
Proof.
  induction 1 as [|f d Hf|r1 r2 s1 s2 H1 IH1 H2 IH2|r1 r2 s1 H1 IH1|r1 r2 s1 H1 IH1| |r s1 s2 H1 IH1 H2 IH2];
    intros s Hs; cbn; try done.
  - injection Hs as -> <-. rewrite Hf. constructor.
  - destruct s1 as [|d s1].
    + apply nullable_matches in H1. rewrite H1. apply m_alt_r, IH2. done.
    + rewrite str_cons_app in Hs. injection Hs as -> <-.
      assert (matches (Cat (deriv c r1) r2) (s1 +:+ s2)) by (constructor; auto).
      destruct (nullable r1); [by apply m_alt_l|done].
  - apply m_alt_l. auto.
  - apply m_alt_r. auto.
  - destruct s1 as [|d s1]; [auto|].
    rewrite str_cons_app in Hs. injection Hs as -> <-. constructor; auto.
Qed.

Lemma MatchString_matches r s : MatchString r s = true ↔ matches r s.
Proof.
  revert r. induction s as [|c s IH]; intros r; cbn; [apply nullable_matches|].
  rewrite IH. split; [apply deriv_sound|]. intros Hm. by eapply deriv_complete.
Qed.

(** ** Languages of the formats *)

Abbreviation bytes := String.list_ascii_of_string.

Lemma bytes_app s t : bytes (s +:+ t) = bytes s ++ bytes t.
Proof. induction s as [|c s IH]; [done|]. rewrite str_cons_app. cbn. by rewrite IH. Qed.

Lemma bytes_inj s t : bytes s = bytes t → s = t.
Proof.
  intros Hb. apply (f_equal String.string_of_list_ascii) in Hb.
  by rewrite !String.string_of_list_ascii_of_string in Hb.
Qed.

Lemma bytes_onto l : ∃ s, bytes s = l.
Proof. exists (String.string_of_list_ascii l). apply String.list_ascii_of_string_of_list_ascii. Qed.

Lemma length_bytes s : length (bytes s) = String.length s.
Proof. induction s; cbn; auto. Qed.

(** What the matching of each operator says about bytes. *)
Lemma matches_Chr f s : matches (Chr f) s ↔ ∃ c, bytes s = [c] ∧ f c = true.
Proof.
  split; [inversion 1; subst; eauto|]. intros (c & Hs & Hf).
  destruct s as [|d [|]]; simplify_eq/=. by constructor.
Qed.

Lemma matches_Cat r1 r2 s :
  matches (Cat r1 r2) s ↔ ∃ s1 s2, bytes s = bytes s1 ++ bytes s2 ∧ matches r1 s1 ∧ matches r2 s2.
Proof.
  split.
  - inversion 1; subst. eexists _, _. split_and!; [apply bytes_app|done..].
  - intros (s1 & s2 & Hs & H1 & H2). rewrite <- bytes_app in Hs. apply bytes_inj in Hs as ->.
    by constructor.
Qed.

Lemma matches_Opt r s : matches (Opt r) s ↔ s = "" ∨ matches r s.
Proof.
  split.
  - inversion 1 as [| | |? ? ? He| | |]; subst; [inversion He; auto|auto].
  - intros [->|Hr]; [apply m_alt_l; constructor|by apply m_alt_r].
Qed.

Lemma matches_Star_Chr f s : matches (Star (Chr f)) s ↔ Forall (λ c, f c = true) (bytes s).
Proof.
  split.
  - intros Hm. remember (Star (Chr f)) as r. induction Hm as [| | | | | |r s1 s2 H1 IH1 H2 IH2];
      simplify_eq; [constructor|].
    apply matches_Chr in H1 as (c & Hs & Hf). rewrite bytes_app, Hs.
    constructor; [done|by apply IH2].
  - induction s as [|c s IH]; cbn; intros Hs; [constructor|].
    apply Forall_cons in Hs as [Hc Hs]. change (String c s) with (String c "" +:+ s).
    constructor; [by constructor|auto].
Qed.

(** A word that begins and ends with a class [f] and is of class [g]. *)
Definition framed (f g : ascii → bool) (l : list ascii) : Prop :=
  Forall (λ c, g c = true) l ∧
  (∃ c, head l = Some c ∧ f c = true) ∧ (∃ c, last l = Some c ∧ f c = true).

Section framed.
Context (f g : ascii → bool) (Hfg : ∀ c, f c = true → g c = true).

Lemma framed_single c : f c = true → framed f g [c].
Proof using Hfg. intros Hc. split_and!; [auto|by exists c|by exists c]. Qed.

Lemma framed_between c l d :
  f c = true → Forall (λ c, g c = true) l → f d = true → framed f g (c :: l ++ [d]).
Proof using Hfg.
  intros Hc Hl Hd. split_and!.
  - constructor; [auto|]. apply Forall_app. auto.
  - by exists c.
  - exists d. by rewrite app_comm_cons, last_snoc.
Qed.

Lemma framed_cases l :
  framed f g l → (∃ c, l = [c] ∧ f c = true) ∨
    ∃ c l' d, l = c :: l' ++ [d] ∧ f c = true ∧ Forall (λ c, g c = true) l' ∧ f d = true.
Proof using.
  intros (Hl & (c & Hc & Hfc) & (d & Hd & Hfd)). destruct l as [|c' l]; simplify_eq/=.
  destruct l as [|e l] using rev_ind; [left; eauto|right].
  rewrite app_comm_cons, last_snoc in Hd. simplify_eq.
  apply Forall_cons in Hl as [_ [Hl _]%Forall_app]. eauto 8.
Qed.

(** [f], then optionally any number of [g] and an [f]. *)
Lemma matches_label s :
  matches (Cat (Chr f) (Opt (Cat (Star (Chr g)) (Chr f)))) s ↔ framed f g (bytes s).
Proof using Hfg.
  rewrite matches_Cat. split.
  - intros (s1 & s2 & -> & (c & -> & Hc)%matches_Chr & [->|H2]%matches_Opt);
      [by apply framed_single|].
    apply matches_Cat in H2 as (s3 & s4 & -> & Hg%matches_Star_Chr & (d & -> & Hd)%matches_Chr).
    by apply framed_between.
  - intros [(c & Hs & Hc)|(c & l & d & Hs & Hc & Hl & Hd)]%framed_cases; exists (String c "").
    + exists "". split_and!; [done|by constructor|]. apply matches_Opt. auto.
    + destruct (bytes_onto l) as [t Ht]. exists (t +:+ String d "").
      split_and!; [by rewrite bytes_app, Hs, Ht|by constructor|].
      apply matches_Opt. right. constructor; [|by constructor].
      apply matches_Star_Chr. by rewrite Ht.
Qed.

(** An optional [f] followed by any number of [g], then [f]. *)
Lemma matches_qualified s :
  matches (Cat (Opt (Cat (Chr f) (Star (Chr g)))) (Chr f)) s ↔ framed f g (bytes s).
Proof using Hfg.
  rewrite matches_Cat. split.
  - intros (s1 & s2 & -> & [->|H1]%matches_Opt & (d & -> & Hd)%matches_Chr);
      [by apply framed_single|].
    apply matches_Cat in H1 as (s3 & s4 & -> & (c & -> & Hc)%matches_Chr & Hg%matches_Star_Chr).
    by apply framed_between.
  - intros [(c & Hs & Hc)|(c & l & d & Hs & Hc & Hl & Hd)]%framed_cases.
    + exists "", (String c ""). split_and!; [done| |by constructor]. apply matches_Opt. auto.
    + destruct (bytes_onto l) as [t Ht]. exists (String c t), (String d "").
      split_and!; [by cbn; rewrite Hs, Ht| |by constructor].
      apply matches_Opt. right. change (String c t) with (String c "" +:+ t).
      constructor; [by constructor|]. apply matches_Star_Chr. by rewrite Ht.
Qed.
End framed.

(** [f], then any number of pieces, each any number of [g] and an [f]. *)
Lemma matches_pieces (f g : ascii → bool) s : (∀ c, f c = true → g c = true) →
  matches (Cat (Chr f) (Star (Cat (Star (Chr g)) (Chr f)))) s ↔ framed f g (bytes s).
Proof.
  intros Hfg. split.
  - intros (s1 & s2 & -> & (c & -> & Hc)%matches_Chr & H2)%matches_Cat.
    assert (s2 = "" ∨ ∃ l d, bytes s2 = l ++ [d] ∧ Forall (λ c, g c = true) l ∧ f d = true)
      as [->|(l & d & -> & Hl & Hd)]; [|by apply framed_single|by apply framed_between].
    remember (Star _) as r in H2. induction H2 as [| | | | | |r s1' s2 H1 _ H2 IH2]; simplify_eq; [by left|].
    right. apply matches_Cat in H1 as (s3 & s4 & Hs & Hg%matches_Star_Chr & (d & Hd & Hfd)%matches_Chr).
    rewrite bytes_app, Hs, Hd. destruct IH2 as [->|(l & e & -> & Hl & He)]; [done|..].
    + exists (bytes s3), d. cbn. rewrite app_nil_r. auto.
    + exists ((bytes s3 ++ [d]) ++ l), e. split_and!; [by rewrite !app_assoc| |done].
      rewrite !Forall_app. split_and!; auto.
  - intros Hf. apply matches_label in Hf; [|done].
    apply matches_Cat in Hf as (s1 & s2 & Hs & H1 & [->|H2]%matches_Opt); apply matches_Cat;
      exists s1; [exists ""|exists s2]; split_and!; try done; [constructor|].
    rewrite <- (str_nil_app s2). replace ("" +:+ s2) with (s2 +:+ "");
      [by repeat constructor|]. apply bytes_inj. by rewrite !bytes_app, app_nil_r.
Qed.

Lemma any_of_lnum_hyphen c : is_lnum_hyphen c = true → is_any c = true.
Proof. destruct c as [[] [] [] [] [] [] [] []]; by vm_compute. Qed.

Lemma lnum_hyphen_of_lnum c : is_lnum c = true → is_lnum_hyphen c = true.
Proof. unfold is_lnum_hyphen. intros ->. by rewrite orb_true_r. Qed.

Lemma ext_of_alnum c : is_alnum c = true → is_ext c = true.
Proof. unfold is_ext. intros ->. by rewrite orb_true_r. Qed.

(** A word [mid] somewhere in a string of bytes other than the newline. *)
Lemma matches_inside r s :
  matches (Cat (Star (Chr is_any)) (Cat r (Star (Chr is_any)))) s ↔
  ∃ a m b, bytes s = a ++ bytes m ++ b ∧ matches r m ∧
    Forall (λ c, is_any c = true) a ∧ Forall (λ c, is_any c = true) b.
Proof.
  split.
  - intros (s1 & s2 & Hs & Ha%matches_Star_Chr & H2)%matches_Cat.
    apply matches_Cat in H2 as (s3 & s4 & Hs2 & Hm & Hb%matches_Star_Chr).
    exists (bytes s1), s3, (bytes s4). by rewrite <- Hs2.
  - intros (a & m & b & Hs & Hm & Ha & Hb).
    destruct (bytes_onto a) as [s1 <-], (bytes_onto b) as [s2 <-].
    rewrite <- !bytes_app in Hs. apply bytes_inj in Hs as ->.
    constructor; [by apply matches_Star_Chr|]. constructor; [done|by apply matches_Star_Chr].
Qed.

Lemma matches_two_hyphens s :
  matches (Cat (Chr (is_char "-")) (Chr (is_char "-"))) s ↔ s = "--".
Proof.
  rewrite matches_Cat. unfold is_char. setoid_rewrite matches_Chr.
  setoid_rewrite bool_decide_eq_true. split; [|intros ->; exists "-", "-"; naive_solver].
  intros (s1 & s2 & Hs & (c & H1 & ->) & (d & H2 & ->)). apply bytes_inj. by rewrite Hs, H1, H2.
Qed.

(** A separator-free piece, then any number of separated pieces, is a list of
    pieces joined by the separator. *)
Lemma matches_separated sep r s :
  (∀ s, matches r s → free_of sep s) →
  matches (Cat r (Star (Cat (Chr (is_char sep)) r))) s ↔ Forall (matches r) (Split sep s).
Proof.
  intros Hfree. split.
  - intros (s1 & s2 & Hs & H1 & H2)%matches_Cat. rewrite <- bytes_app in Hs.
    apply bytes_inj in Hs as ->. revert s1 H1. remember (Star _) as r' in H2.
    induction H2 as [| | | | | |r' t1 t2 Ht _ _ IH]; try discriminate; injection Heqr' as ->;
      intros s0 H0.
    + replace (s0 +:+ "") with s0 by (apply bytes_inj; by rewrite bytes_app, app_nil_r).
      rewrite Split_free by auto. auto.
    + apply matches_Cat in Ht as (t3 & t4 & Ht1 & (c & Hc & Hsep)%matches_Chr & Ht4).
      apply bool_decide_eq_true in Hsep as ->.
      assert (t1 = String sep t4) as -> by (apply bytes_inj; by rewrite Ht1, Hc).
      rewrite str_cons_app, Split_app by auto. auto.
  - intros Hall. remember (Split sep s) as parts eqn:Hp. revert s Hp.
    induction Hall as [|p parts Hm Hall IH]; intros s Hp.
    { exfalso. destruct s as [|c s]; cbn in Hp; [done|]. case_decide; [done|].
      by destruct (Split sep s). }
    destruct (decide (sep ∈ bytes s)) as [Hin|Hout].
    + apply list_elem_of_split_l in Hin as (l1 & l2 & Hs & Hl1).
      destruct (bytes_onto l1) as [a <-], (bytes_onto l2) as [b <-].
      assert (s = a +:+ String sep b) as -> by (apply bytes_inj; by rewrite Hs, bytes_app).
      rewrite Split_app in Hp by done. injection Hp as -> ->.
      destruct (proj1 (matches_Cat _ _ _) (IH b eq_refl)) as (t1 & t2 & Hb & H1 & H2).
      rewrite <- bytes_app in Hb. apply bytes_inj in Hb as ->.
      constructor; [done|]. rewrite <- str_cons_app. constructor; [|done].
      change (String sep t1) with (String sep "" +:+ t1). constructor; [|done].
      constructor. by apply bool_decide_eq_true.
    + rewrite Split_free in Hp by done. injection Hp as -> ->.
      apply matches_Cat. exists s, "". split_and!; [by rewrite app_nil_r|done|constructor].
Qed.

Abbreviation dns_label := (framed is_lnum is_lnum_hyphen).
Abbreviation name_word := (framed is_alnum is_ext).

Lemma label_language s : matches DNS1123LabelFmt s ↔ dns_label (bytes s).
Proof. apply matches_label, lnum_hyphen_of_lnum. Qed.

Lemma qualified_language s : matches QualifiedNameFmt s ↔ name_word (bytes s).
Proof. apply matches_qualified, ext_of_alnum. Qed.

Lemma subdomain_language s :
  matches DNS1123SubdomainFmt s ↔ Forall (λ p, dns_label (bytes p)) (Split "." s).
Proof.
  unfold DNS1123SubdomainFmt. rewrite matches_separated.
  - split; intros; eapply Forall_impl; try done; intros ?; apply label_language.
  - intros p (Hp & _)%label_language Hin. rewrite Forall_forall in Hp. by apply Hp in Hin.
Qed.

Lemma IsValidLabelValue_spec v :
  IsValidLabelValue v = true ↔ String.length v ≤ LabelValueMaxLength ∧ (v = "" ∨ name_word (bytes v)).
Proof.
  unfold IsValidLabelValue. rewrite andb_true_iff, Nat.leb_le, MatchString_matches.
  unfold LabelValueFmt. by rewrite matches_Opt, qualified_language.
Qed.

Lemma Split_cases sep s :
  (free_of sep s ∧ Split sep s = [s]) ∨
  ∃ a b, s = a +:+ String sep b ∧ free_of sep a ∧ Split sep s = a :: Split sep b.
Proof.
  destruct (decide (sep ∈ bytes s)) as [Hin|Hout]; [right|left; split; [done|by apply Split_free]].
  apply list_elem_of_split_l in Hin as (l1 & l2 & Hs & Hl1).
  destruct (bytes_onto l1) as [a <-], (bytes_onto l2) as [b <-]. exists a, b.
  assert (s = a +:+ String sep b) as -> by (apply bytes_inj; by rewrite Hs, bytes_app).
  by rewrite Split_app.
Qed.

Lemma Split_nonnil sep s : Split sep s ≠ [].
Proof. by destruct (Split_cases sep s) as [[_ ->]|(? & ? & _ & _ & ->)]. Qed.

(** The characters of a word with an excluded byte. *)
Lemma framed_free f g l c : framed f g l → g c = false → c ∉ l.
Proof. intros (Hl & _) Hc Hin. rewrite Forall_forall in Hl. apply Hl in Hin. congruence. Qed.

Lemma dns_part_free p c : dns_label (bytes p) → is_lnum_hyphen c = false → free_of c p.
Proof. intros Hp Hc. by eapply framed_free. Qed.

(** Whatever separates them, the parts hold no other forbidden byte. *)
Lemma subdomain_free s c :
  Forall (λ p, dns_label (bytes p)) (Split "." s) → c ≠ "."%char → is_lnum_hyphen c = false →
  free_of c s.
Proof.
  intros Hall Hne Hc. remember (Split "." s) as parts eqn:Hp. revert s Hp.
  induction Hall as [|p parts Hp' Hall IH]; intros s Hp; [by destruct (Split_nonnil "." s)|].
  destruct (Split_cases "." s) as [[_ Hs]|(a & b & -> & _ & Hs)]; rewrite Hs in Hp; simplify_eq.
  - by apply dns_part_free.
  - unfold free_of. rewrite bytes_app. cbn. rewrite not_elem_of_app, not_elem_of_cons.
    split_and!; [by apply dns_part_free|done|by apply IH].
Qed.

Lemma subdomain_bytes p : Forall (λ p, dns_label (bytes p)) (Split "." p) →
  Forall (λ c, is_lnum_hyphen c || is_char "." c = true) (bytes p).
Proof.
  remember (Split "." p) as parts eqn:Hp. intros Hall. revert p Hp.
  induction Hall as [|x parts (Hx & _) Hall IH]; intros p Hp; [by destruct (Split_nonnil "." p)|].
  assert (Forall (λ c, is_lnum_hyphen c || is_char "." c = true) (bytes x)).
  { eapply Forall_impl; [exact Hx|]. intros c Hc. cbn in Hc. by rewrite Hc. }
  destruct (Split_cases "." p) as [[_ Hs]|(a & b & -> & _ & Hs)]; rewrite Hs in Hp; simplify_eq; [done|].
  rewrite bytes_app. apply Forall_app. split; [done|]. cbn. constructor; [done|]. by apply IH.
Qed.

Lemma name_word_nonempty s : name_word (bytes s) → s ≠ "".
Proof. by intros (_ & (c & Hc & _) & _) ->. Qed.

(** ** Properties *)

(** [IsQualifiedName] admits exactly a name of 1 to 63 bytes, alphanumeric
    at both ends with [-], [_] and [.] between, optionally after a prefix and a
    ["/"], the prefix of at most 253 bytes whose parts between dots are DNS
    labels. *)
Theorem IsQualifiedName_spec (k : string) :
  IsQualifiedName k = true ↔
  ∃ name, name_word (bytes name) ∧ String.length name ≤ QualifiedNameMaxLength ∧
    (k = name ∨
     ∃ prefix, k = prefix +:+ "/" +:+ name ∧ String.length prefix ≤ DNS1123SubdomainMaxLength ∧
       Forall (λ p, dns_label (bytes p)) (Split "." prefix)).
Proof.
  assert (Hname : ∀ n, bool_decide (n ≠ "") && (String.length n <=? QualifiedNameMaxLength) &&
      MatchString QualifiedNameFmt n = true ↔
      name_word (bytes n) ∧ String.length n ≤ QualifiedNameMaxLength).
  { intros n. rewrite !andb_true_iff, bool_decide_eq_true, Nat.leb_le, MatchString_matches.
    rewrite qualified_language. pose proof (name_word_nonempty n). naive_solver. }
  assert (Hfree : ∀ n, name_word (bytes n) → free_of slash n)
    by (intros n Hn; by eapply framed_free).
  assert (Hpre : ∀ p, bool_decide (p = "") || negb (IsDNS1123Subdomain p) = false ↔
      String.length p ≤ DNS1123SubdomainMaxLength ∧
      Forall (λ p, dns_label (bytes p)) (Split "." p)).
  { intros p. rewrite orb_false_iff, negb_false_iff, bool_decide_eq_false.
    unfold IsDNS1123Subdomain. rewrite andb_true_iff, Nat.leb_le, MatchString_matches.
    rewrite subdomain_language. split; [naive_solver|]. intros [? Hp]. split; [|done].
    intros ->. apply Forall_cons in Hp as [(_ & (c & Hc & _) & _) _]. done. }
  unfold IsQualifiedName. split.
  - destruct (Split_cases slash k) as [[_ ->]|(a & b & -> & _ & ->)].
    { intros Hk%Hname. exists k. tauto. }
    destruct (Split_cases slash b) as [[_ ->]|(a' & b' & _ & _ & ->)].
    + destruct (_ || _) eqn:Hp; [done|]. apply Hpre in Hp. intros Hb%Hname.
      exists b. split_and!; [tauto..|]. right. by exists a.
    + pose proof (Split_nonnil slash b'). by destruct (Split slash b').
  - intros (name & Hn & Hlen & [->|(prefix & -> & Hp)]).
    + rewrite Split_free by auto. by apply Hname.
    + assert (free_of slash prefix) by (by eapply subdomain_free; [apply Hp|..]).
      change ("/" +:+ name) with (String slash name).
      rewrite Split_app, Split_free by auto. rewrite (proj2 (Hpre prefix)) by done.
      by apply Hname.
Qed.

(** [IsValidPortName] admits exactly the names its comment describes: 1 to
    15 bytes of lower-case letters, digits and hyphens, at least one letter, no
    hyphen at either end, no two adjacent. *)
Theorem IsValidPortName_spec (port : string) :
  IsValidPortName port = true ↔
  1 ≤ String.length port ≤ 15 ∧ dns_label (bytes port) ∧
  (∃ c, c ∈ bytes port ∧ is_lower c = true) ∧
  ¬ ∃ a b, bytes port = a ++ ["-"; "-"]%char ++ b.
Proof.
  unfold IsValidPortName.
  destruct (_ || _) eqn:Hlen.
  { rewrite orb_true_iff, !Nat.ltb_lt in Hlen. split; [done|lia]. }
  rewrite orb_false_iff, !Nat.ltb_ge in Hlen.
  assert (Hid : MatchString IdentifierNoHyphensBeginEndFmt port = true ↔ dns_label (bytes port)).
  { rewrite MatchString_matches. apply matches_pieces, lnum_hyphen_of_lnum. }
  assert (Hany : dns_label (bytes port) → Forall (λ c, is_any c = true) (bytes port)).
  { intros (Hl & _). eapply Forall_impl; [done|]. apply any_of_lnum_hyphen. }
  destruct (MatchString doubleHyphensFmt port) eqn:Hdd.
  { split; [done|]. intros (_ & _ & _ & []).
    apply MatchString_matches, matches_inside in Hdd as (a & m & b & Hs & Hm & _).
    apply matches_two_hyphens in Hm as ->. by exists a, b. }
  destruct (_ && _) eqn:Hb.
  - split; [intros _|done]. apply andb_true_iff in Hb as [Hb%Hid Hletter].
    apply MatchString_matches, matches_inside in Hletter as (a & m & b & Hs & (c & Hm & Hc)%matches_Chr & _).
    split_and!; [lia..|done| |].
    + exists c. split; [|done]. rewrite Hs, Hm. set_solver.
    + intros (a' & b' & Hs'). apply not_true_iff_false in Hdd. apply Hdd.
      apply MatchString_matches, matches_inside. exists a', "--", b'.
      specialize (Hany Hb). rewrite Hs', !Forall_app in Hany.
      split_and!; [done|by apply matches_two_hyphens|tauto..].
  - split; [done|]. intros (_ & Hl & (c & Hin & Hc) & _). exfalso.
    apply not_true_iff_false in Hb. apply Hb, andb_true_iff. split; [by apply Hid|]. apply MatchString_matches, matches_inside.
    apply list_elem_of_split in Hin as (a & b & Hs). exists a, (String c ""), b.
    specialize (Hany Hl). rewrite Hs, Forall_app, Forall_cons in Hany.
    split_and!; [done|by constructor|tauto..].
Qed.
