(* ===== verification/Float.v ===== *)
(** * strconv.ParseFloat

    The part of Go's [strconv] that label selectors use: [ParseFloat(s, 64)] and
    the comparisons of float64.  A finite float64 is an integer multiple of
    [2^-1074], and is represented by that integer; the sign of zero, which no
    comparison sees, is dropped.  The syntax is the one of the Go releases this
    code was built with (decimal, [Inf], [NaN]); the value is the exact decimal
    rounded to the nearest float64, ties to even.

    Below it, the arithmetic of finite float64 that percentages use.  The theorems:
    integers and products below 2^53 are exact, and the ceiling and the floor of
    a quotient by 100 are those of the exact quotient. *)

From S2P Require Import Prelude.
From S2P Require Import Validation.

Inductive float64 : Type :=
| Fin (units : Z)
| Inf (negative : bool)
| NaN.

(** [a < b] on float64; [a > b] is [flt b a]. *)
Definition flt (a b : float64) : bool :=
  match a, b with
  | NaN, _ | _, NaN => false
  | Fin x, Fin y => (x <? y)%Z
  | Inf true, Inf true => false
  | Inf true, _ => true
  | _, Inf false => match a with Inf false => false | _ => true end
  | _, _ => false
  end.

(** The quotient [n / d] rounded to an integer, ties to even. *)
Definition round_even (n d : Z) : Z :=
  let q := (n / d)%Z in
  let r := (n mod d)%Z in
  if (2 * r <? d)%Z then q
  else if (d <? 2 * r)%Z then (q + 1)%Z
  else if Z.even q then q else (q + 1)%Z.

(** The float64 nearest to [n / d], in units of [2^-1074]; [None] on overflow. *)
Definition round_float (n d : Z) : option Z :=
  let n := (n * 2 ^ 1074)%Z in
  let u := (2 ^ Z.max 0 (Z.log2 (n / d) - 52))%Z in
  let v := (round_even n (d * u) * u)%Z in
  if (2 ^ 2098 <=? v)%Z then None else Some v.

Definition digit_value (c : ascii) : Z := Z.of_N (N_of_ascii c) - 48.

(** The digits and dot of the mantissa: the digits as a number, how many follow
    the dot, whether a digit was seen, and the rest; a second dot is an error. *)
Fixpoint readMantissa (s : string) (sawdot sawdigits : bool) (mant : Z) (frac : nat) :
    option (Z * nat * bool * string) :=
  match s with
  | String c s' =>
      if decide (c = "."%char) then
        if sawdot then None else readMantissa s' true sawdigits mant frac
      else if is_digit c then
        readMantissa s' sawdot true (mant * 10 + digit_value c) (if sawdot then S frac else frac)
      else Some (mant, frac, sawdigits, s)
  | EmptyString => Some (mant, frac, sawdigits, s)
  end.

(** The digits of the exponent, which stop to count at 10000. *)
Fixpoint readExponent (s : string) (e : Z) : Z * string :=
  match s with
  | String c s' =>
      if is_digit c
      then readExponent s' (if (e <? 10000)%Z then (e * 10 + digit_value c)%Z else e)
      else (e, s)
  | EmptyString => (e, s)
  end.

(** [(e|E)[+-]digits] or nothing, up to the end of the string. *)
Definition exponentPart (s : string) : option Z :=
  let digits (sign : Z) s :=
    match s with
    | String c _ =>
        if is_digit c then
          let '(e, rest) := readExponent s 0 in
          if decide (rest = "") then Some (sign * e)%Z else None
        else None
    | EmptyString => None
    end in
  match s with
  | EmptyString => Some 0%Z
  | String c s =>
      if is_char "e" c || is_char "E" c then
        match s with
        | String c' s' =>
            if is_char "+" c' then digits 1%Z s'
            else if is_char "-" c' then digits (-1)%Z s' else digits 1%Z s
        | EmptyString => None
        end
      else None
  end.

Definition to_lower (c : ascii) : ascii :=
  if is_upper c then ascii_of_N (N_of_ascii c + 32) else c.

Fixpoint lowercase (s : string) : string :=
  match s with String c s => String (to_lower c) (lowercase s) | EmptyString => "" end.

(** The named values, in any case. *)
Definition special (s : string) : option float64 :=
  let l := lowercase s in
  if bool_decide (l ∈ ["inf"; "infinity"; "+inf"; "+infinity"]) then Some (Inf false)
  else if bool_decide (l ∈ ["-inf"; "-infinity"]) then Some (Inf true)
  else if bool_decide (l = "nan") then Some NaN
  else None.

Definition ParseFloat (s : string) : result string float64 :=
  match special s with
  | Some f => Ok f
  | None =>
      let '(neg, t) :=
        match s with
        | String c t => if is_char "+" c then (false, t) else if is_char "-" c then (true, t) else (false, s)
        | EmptyString => (false, s)
        end in
      match readMantissa t false false 0 0 with
      | Some (mant, frac, true, rest) =>
          match exponentPart rest with
          | Some e =>
              let e := (e - Z.of_nat frac)%Z in
              match round_float (mant * 10 ^ Z.max 0 e) (10 ^ Z.max 0 (- e)) with
              | Some units => Ok (Fin (if neg then - units else units))
              | None => Err "value out of range"
              end
          | None => Err "invalid syntax"
          end
      | _ => Err "invalid syntax"
      end
  end.

(** ** Examples *)
Example ParseFloat_quarter : ParseFloat "-2.5e-1" = Ok (Fin (- 2 ^ 1072)).
Proof. vm_compute. reflexivity. Qed.
Example ParseFloat_even : ParseFloat "9007199254740993" = ParseFloat "9007199254740992".
Proof. vm_compute. reflexivity. Qed.
Example ParseFloat_range : ParseFloat "1e309" = Err "value out of range".
Proof. vm_compute. reflexivity. Qed.
Example ParseFloat_syntax : ParseFloat "1.2.3" = Err "invalid syntax".
Proof. vm_compute. reflexivity. Qed.

(** ** Arithmetic

    Finite float64 in units of [2^-1074]; [None] is an overflow. *)

Local Open Scope Z_scope.

(** [round_float] for both signs. *)
Definition round_units (n d : Z) : option Z :=
  if n <? 0 then Z.opp <$> round_float (- n) d else round_float n d.

Definition unit_one : Z := 2 ^ 1074.

Definition float_of_int (z : Z) : option Z := round_units z 1.
Definition float_mul (a b : Z) : option Z := round_units (a * b) (unit_one * unit_one).
Definition float_div (a b : Z) : option Z := round_units a b.

(** [math.Ceil] and [math.Floor], as integers. *)
Definition float_ceil (a : Z) : Z := - (- a / unit_one).
Definition float_floor (a : Z) : Z := a / unit_one.

(** The operations on every float64.  The sign of a zero is dropped, so that a divisor
    that is zero is a positive zero. *)
Definition finite_or (negative : bool) (r : option Z) : float64 :=
  match r with Some units => Fin units | None => Inf negative end.

Definition fint (z : Z) : float64 := finite_or (z <? 0) (float_of_int z).

Definition fneg (a : float64) : float64 :=
  match a with Fin x => Fin (- x) | Inf s => Inf (negb s) | NaN => NaN end.

Definition fabs (a : float64) : float64 :=
  match a with Fin x => Fin (Z.abs x) | Inf _ => Inf false | NaN => NaN end.

Definition fadd (a b : float64) : float64 :=
  match a, b with
  | NaN, _ | _, NaN => NaN
  | Fin x, Fin y => finite_or (x + y <? 0) (round_units (x + y) unit_one)
  | Inf s, Inf s' => if Bool.eqb s s' then Inf s else NaN
  | Inf s, Fin _ | Fin _, Inf s => Inf s
  end.

Definition fsub (a b : float64) : float64 := fadd a (fneg b).

Definition fmul (a b : float64) : float64 :=
  match a, b with
  | NaN, _ | _, NaN => NaN
  | Fin x, Fin y => finite_or (x * y <? 0) (float_mul x y)
  | Inf s, Fin y | Fin y, Inf s => if y =? 0 then NaN else Inf (xorb s (y <? 0))
  | Inf s, Inf s' => Inf (xorb s s')
  end.

Definition fdiv (a b : float64) : float64 :=
  match a, b with
  | NaN, _ | _, NaN => NaN
  | Fin x, Fin y =>
      if y =? 0 then if x =? 0 then NaN else Inf (x <? 0)
      else finite_or (xorb (x <? 0) (y <? 0)) (float_div (x * Z.sgn y) (Z.abs y))
  | Inf s, Fin y => Inf (xorb s (y <? 0))
  | Fin _, Inf _ => Fin 0
  | Inf _, Inf _ => NaN
  end.

(** The integer that [math.Ceil] gives, and the one that a conversion to an integer keeps;
    [None] for what is none. *)
Definition fceil (a : float64) : option Z := match a with Fin x => Some (float_ceil x) | _ => None end.
Definition ftrunc (a : float64) : option Z := match a with Fin x => Some (Z.quot x unit_one) | _ => None end.

(** A constant of the source, the float64 nearest to [n / d]. *)
Definition fconst (n d : Z) : float64 := finite_or (n <? 0) (round_units n d).

Example fconst_decimal : ParseFloat "0.1" = Ok (fconst 1 10).
Proof. vm_compute. reflexivity. Qed.

(** ** Facts *)

Lemma round_even_bound n d : 0 < d → - d <= 2 * (round_even n d * d - n) <= d.
Proof.
  intros Hd. unfold round_even. pose proof (Z.div_mod n d ltac:(lia)) as Hn.
  pose proof (Z.mod_pos_bound n d Hd). set (q := n / d) in *. set (r := n mod d) in *.
  destruct (Z.ltb_spec (2 * r) d); [|destruct (Z.ltb_spec d (2 * r)); [|destruct (Z.even q)]]; nia.
Qed.

Lemma round_even_exact q d : 0 < d → round_even (q * d) d = q.
Proof. intros Hd. pose proof (round_even_bound (q * d) d Hd). nia. Qed.

Definition round_unit (n d : Z) : Z := 2 ^ Z.max 0 (Z.log2 (n * unit_one / d) - 52).

Lemma round_float_unfold n d :
  round_float n d =
    let v := round_even (n * unit_one) (d * round_unit n d) * round_unit n d in
    if 2 ^ 2098 <=? v then None else Some v.
Proof. done. Qed.

Lemma round_unit_pos n d : 0 < round_unit n d.
Proof. apply Z.pow_pos_nonneg; lia. Qed.

(** The rounded quotient is near, and stays between multiples of its unit. *)
Lemma round_between n d : 0 < d →
  let u := round_unit n d in
  let v := round_even (n * unit_one) (d * u) * u in
  - (d * u) <= 2 * (v * d - n * unit_one) <= d * u ∧
  (∀ lo, lo * (d * u) <= n * unit_one → lo * u <= v) ∧ (∀ hi, n * unit_one <= hi * (d * u) → v <= hi * u).
Proof.
  intros Hd u v. pose proof (round_unit_pos n d) as Hu. fold u in Hu.
  pose proof (round_even_bound (n * unit_one) (d * u) ltac:(nia)) as Hb. unfold v.
  set (q := round_even _ _) in *. set (N := n * unit_one) in *. split; [nia|].
  assert (0 < d * u) as Hdu by nia. set (D := d * u) in *. split; intros c Hc.
  - assert (c <= q) by nia. nia.
  - assert (q <= c) by nia. nia.
Qed.

(** The unit divides the unit of the integers, for small quotients. *)
Lemma round_unit_small n d x e : 0 < d → 0 <= n → 0 <= e <= 1074 → n <= x * d → 0 < x → Z.log2 x + 1022 <= e →
  round_unit n d * 2 ^ (1074 - e) <= unit_one ∧ ∃ w, unit_one = w * round_unit n d.
Proof.
  intros Hd Hn He Hx Hx0 Hl. unfold round_unit. set (m := Z.max 0 _).
  assert (0 <= m <= e) as Hm.
  { unfold m. split; [lia|]. apply Z.max_lub; [lia|].
    assert (Z.log2 (n * unit_one / d) <= Z.log2 (x * unit_one)) as Hle.
    { apply Z.log2_le_mono, Z.div_le_upper_bound; [done|]. unfold unit_one. nia. }
    unfold unit_one in Hle at 2. rewrite Z.log2_mul_pow2 in Hle by lia. lia. }
  split.
  - rewrite <- Z.pow_add_r by lia. apply Z.pow_le_mono_r; lia.
  - exists (2 ^ (1074 - m)). rewrite <- Z.pow_add_r by lia. unfold unit_one. f_equal. lia.
Qed.

Lemma unit_one_pos : 0 < unit_one.
Proof. by apply Z.pow_pos_nonneg. Qed.

Lemma round_float_some n d hi : 0 < d → n <= hi * d → hi < 2 ^ 53 → ∀ w, unit_one = w * round_unit n d →
  round_float n d = Some (round_even (n * unit_one) (d * round_unit n d) * round_unit n d).
Proof.
  intros Hd Hn Hhi w Hw. rewrite round_float_unfold. cbv zeta. rewrite (proj2 (Z.leb_gt _ _)); [done|].
  destruct (round_between n d Hd) as (_ & _ & Hup). eapply Z.le_lt_trans.
  - apply (Hup (hi * w)). pose proof unit_one_pos. rewrite Hw at 1. nia.
  - rewrite <- Z.mul_assoc, <- Hw. unfold unit_one.
    apply Z.lt_le_trans with (2 ^ 53 * 2 ^ 1074); [|by apply Z.leb_le].
    apply Z.mul_lt_mono_pos_r; [by apply Z.pow_pos_nonneg|done].
Qed.

(** Integers below 2^53 are exact. *)
Lemma round_float_exact x d : 0 <= x < 2 ^ 53 → 0 < d → round_float (x * d) d = Some (x * unit_one).
Proof.
  intros Hx Hd. destruct (Z.eq_dec x 0) as [->|Hx0].
  { rewrite Z.mul_0_l, round_float_unfold. cbv zeta. rewrite Z.mul_0_l.
    replace (round_even 0 (d * round_unit 0 d)) with 0; [done|]. pose proof (round_unit_pos 0 d).
    by rewrite <- (round_even_exact 0 (d * round_unit 0 d)) at 1 by nia. }
  assert (Z.log2 x < 53) by (apply Z.log2_lt_pow2; lia).
  destruct (round_unit_small (x * d) d x 1074) as [_ [w Hw]]; try lia; try nia.
  rewrite (round_float_some _ _ x Hd) with (w := w) by (done || lia). f_equal.
  rewrite Hw at 1. replace (x * d * (w * round_unit (x * d) d)) with (x * w * (d * round_unit (x * d) d)) by ring.
  rewrite round_even_exact by (pose proof (round_unit_pos (x * d) d); nia). rewrite Hw. ring.
Qed.

(** The ceiling and the floor of a quotient by 100 are exact. *)
Lemma float_div_100 x : 0 <= x < 2 ^ 53 →
  ∃ v, float_div (x * unit_one) (100 * unit_one) = Some v ∧
    float_floor v = x / 100 ∧ float_ceil v = - (- x / 100).
Proof.
  intros Hx. pose proof unit_one_pos as HO. unfold float_div, round_units.
  rewrite (proj2 (Z.ltb_ge _ _)) by nia. set (n := x * unit_one). set (d := 100 * unit_one).
  assert (0 < d) as Hd by (unfold d; lia). pose proof (Z.div_mod x 100 ltac:(lia)) as Hdm.
  pose proof (Z.mod_pos_bound x 100 ltac:(lia)) as Hmod. set (k := x / 100) in *.
  assert (0 <= k < 2 ^ 47 - 1) as Hk.
  { unfold k. split; [apply Z.div_pos; lia|]. apply Z.div_lt_upper_bound; lia. }
  assert (Z.log2 (k + 1) < 47) by (apply Z.log2_lt_pow2; lia).
  destruct (round_unit_small n d (k + 1) 1068) as [Hsmall [w Hw]]; try lia; [unfold n, d; nia|].
  rewrite (round_float_some n d (k + 1) Hd) with (w := w); [|unfold n, d; nia|lia|done].
  destruct (round_between n d Hd) as (Hnear & Hlo & Hhi). set (u := round_unit n d) in *.
  set (v := round_even _ _ * u) in *. change (2 ^ (1074 - 1068)) with 64 in Hsmall.
  pose proof (round_unit_pos n d) as Hu. fold u in Hu.
  assert (∀ c, c * w * (d * u) = c * 100 * (unit_one * unit_one)) as Hc.
  { intros c. unfold d. transitivity (c * (w * u) * (100 * unit_one)); [ring|]. rewrite <- Hw. ring. }
  assert (n * unit_one = x * (unit_one * unit_one)) as Hn by (unfold n; ring).
  assert (k * unit_one <= v) as Hlov.
  { replace (k * unit_one) with (k * w * u) by (rewrite Hw at 1; ring). apply Hlo. rewrite Hc, Hn. nia. }
  assert (∀ c, x <= c * 100 → v <= c * unit_one) as Hhiv.
  { intros c Hxc. replace (c * unit_one) with (c * w * u) by (rewrite Hw at 1; ring). apply Hhi. rewrite Hc, Hn. nia. }
  assert (- (100 * u) <= 2 * (100 * v - x * unit_one) <= 100 * u) as Hnear'.
  { rewrite Hn in Hnear. unfold d in Hnear. clear -Hnear HO.
    replace (2 * (v * (100 * unit_one) - x * (unit_one * unit_one))) with (unit_one * (2 * (100 * v - x * unit_one)))
      in Hnear by ring. replace (100 * unit_one * u) with (unit_one * (100 * u)) in Hnear by ring. nia. }
  clear Hnear Hlo Hhi Hc Hn. exists v. split; [done|]. unfold float_floor, float_ceil.
  destruct (Z.eq_dec (x mod 100) 0) as [E|E].
  - assert (v = k * unit_one) as -> by (pose proof (Hhiv k); lia).
    rewrite Z.div_mul by lia. split; [done|]. rewrite <- Z.mul_opp_l, Z.div_mul by lia.
    replace (- x) with (- k * 100) by lia. by rewrite Z.div_mul.
  - assert (k * unit_one < v) by nia. assert (v < (k + 1) * unit_one) by nia.
    assert (- x / 100 = - k - 1) as -> by (symmetry; apply (Z.div_unique _ _ _ (100 - x mod 100)); lia).
    split; symmetry; [apply (Z.div_unique _ _ _ (v - k * unit_one)); lia|].
    f_equal. apply (Z.div_unique _ _ _ ((k + 1) * unit_one - v)); lia.
Qed.

Lemma float_of_int_exact z : 0 <= z < 2 ^ 53 → float_of_int z = Some (z * unit_one).
Proof.
  intros Hz. unfold float_of_int, round_units. rewrite (proj2 (Z.ltb_ge _ _)) by lia.
  rewrite <- (Z.mul_1_r z) at 1. by apply round_float_exact.
Qed.

Lemma float_mul_exact a b : 0 <= a * b < 2 ^ 53 → float_mul (a * unit_one) (b * unit_one) = Some (a * b * unit_one).
Proof.
  intros Hab. pose proof unit_one_pos. unfold float_mul, round_units.
  replace (a * unit_one * (b * unit_one)) with (a * b * (unit_one * unit_one)) by ring.
  rewrite (proj2 (Z.ltb_ge _ _)) by nia. apply round_float_exact; nia.
Qed.

(** The rounding of a quotient is near, in both signs: the closer, the smaller the quotient. *)
Lemma round_units_near n d X k : 0 < d → Z.abs n <= X * d → 0 < X < 2 ^ 52 → 1 <= k → Z.log2 X + k <= 53 →
  ∃ v, round_units n d = Some v ∧ 2 ^ k * Z.abs (v * d - n * unit_one) <= d * unit_one.
Proof.
  intros Hd Hn HX Hk HXk. pose proof (Z.log2_nonneg X).
  assert (∀ m, 0 <= m → m <= X * d → ∃ v, round_float m d = Some v ∧ 2 ^ k * Z.abs (v * d - m * unit_one) <= d * unit_one) as Hpos.
  { intros m Hm HmX. destruct (round_unit_small m d X (1075 - k)) as [Hu [w Hw]]; [lia..|].
    eexists. split; [apply (round_float_some m d X Hd HmX ltac:(lia) w Hw)|].
    destruct (round_between m d Hd) as [Hnear _]. set (v := round_even _ _ * _) in *. set (u := round_unit m d) in *.
    replace (1074 - (1075 - k)) with (k - 1) in Hu by lia.
    assert (2 ^ k = 2 * 2 ^ (k - 1)) as -> by (rewrite <- Z.pow_succ_r by lia; f_equal; lia).
    assert (0 < 2 ^ (k - 1)) by (apply Z.pow_pos_nonneg; lia). set (e := 2 ^ (k - 1)) in *.
    assert (2 * Z.abs (v * d - m * unit_one) <= d * u) as Habs by lia.
    transitivity (e * (d * u)); [nia|]. replace (e * (d * u)) with (d * (u * e)) by ring. nia. }
  unfold round_units. destruct (Z.ltb_spec n 0).
  - destruct (Hpos (- n)) as (v & -> & Hv); [lia..|]. exists (- v). split; [done|].
    replace (- v * d - n * unit_one) with (- (v * d - - n * unit_one)) by ring. by rewrite Z.abs_opp.
  - apply Hpos; lia.
Qed.
