(* ===== verification/Strconv.v ===== *)
(** * Numbers as strings

    The parts of Go's [strings], [strconv] and [math/big] that quantities and
    percentages use: [TrimSpace], [ParseInt] and [FormatInt] in base 10, and the
    decimal form of a [big.Int].  The theorems: parsing is the inverse of
    printing, and what is printed are digits after at most one sign. *)

From stdpp Require Export pretty.
From S2P Require Import Prelude.
From S2P Require Import Validation.

(** ** Spans *)

(** The longest prefix of bytes that satisfy [p], and the rest. *)
Fixpoint span (p : ascii → bool) (s : string) : string * string :=
  match s with
  | EmptyString => ("", "")
  | String c s' => if p c then (String c (span p s').1, (span p s').2) else ("", s)
  end.

Fixpoint all_bytes (p : ascii → bool) (s : string) : bool :=
  match s with
  | EmptyString => true
  | String c s => p c && all_bytes p s
  end.

(** The string is empty or starts with a byte that does not satisfy [p]. *)
Definition stops (p : ascii → bool) (s : string) : bool :=
  match s with
  | EmptyString => true
  | String c _ => negb (p c)
  end.

Lemma span_app p a b : all_bytes p a = true → stops p b = true → span p (a +:+ b) = (a, b).
Proof.
  intros Ha Hb. induction a as [|c a IH]; cbn in Ha |- *.
  - rewrite str_nil_app. destruct b as [|c b]; cbn in Hb |- *; [done|]. by destruct (p c).
  - apply andb_prop in Ha as [Hc Ha]. rewrite str_cons_app. cbn. by rewrite Hc, IH.
Qed.

Lemma span_spec p s : let '(a, b) := span p s in
  s = a +:+ b ∧ all_bytes p a = true ∧ stops p b = true.
Proof.
  induction s as [|c s IH]; cbn; [done|]. destruct (p c) eqn:Hc; cbn.
  - destruct (span p s) as [a b]. cbn in *. rewrite str_cons_app, Hc. destruct IH as (-> & ? & ?). done.
  - by rewrite str_nil_app, Hc.
Qed.

Lemma str_app_assoc' a b c : (a +:+ b) +:+ c = a +:+ (b +:+ c).
Proof. induction a as [|x a IH]; [by rewrite !str_nil_app|]. by rewrite !str_cons_app, IH. Qed.

Lemma str_app_nil_r s : s +:+ "" = s.
Proof. induction s as [|c s IH]; [done|]. by rewrite str_cons_app, IH. Qed.

Lemma all_bytes_app p a b : all_bytes p (a +:+ b) = all_bytes p a && all_bytes p b.
Proof.
  induction a as [|c a IH]; [by rewrite str_nil_app|]. rewrite str_cons_app. cbn.
  by rewrite IH, andb_assoc.
Qed.

Lemma all_bytes_weaken (p q : ascii → bool) s :
  (∀ c, p c = true → q c = true) → all_bytes p s = true → all_bytes q s = true.
Proof.
  intros Hpq. induction s as [|c s IH]; cbn; [done|]. intros [Hc Hs]%andb_prop.
  by rewrite (Hpq c Hc), IH.
Qed.

(** ** Digits *)

Definition digit (c : ascii) : Z := Z.of_N (N_of_ascii c) - 48.

(** The value of a string of digits after the digits of [acc]. *)
Fixpoint digits_value (acc : Z) (s : string) : Z :=
  match s with
  | EmptyString => acc
  | String c s => digits_value (acc * 10 + digit c) s
  end.

Definition all_digits : string → bool := all_bytes is_digit.

(** An optional sign, and digits: [big.Int.SetString(s, 10)]. *)
Definition unsigned (s : string) : option Z :=
  if bool_decide (s = "") || negb (all_digits s) then None else Some (digits_value 0 s).

Definition BigSetString (s : string) : option Z :=
  match s with
  | String c t =>
      if is_char "+" c then unsigned t
      else if is_char "-" c then Z.opp <$> unsigned t
      else unsigned s
  | EmptyString => None
  end.

(** [strconv.ParseInt(s, 10, 64)] *)
Definition ParseInt (s : string) : result string Z :=
  match BigSetString s with
  | None => Err "invalid syntax"
  | Some z => if (z <? - 2 ^ 63)%Z || (2 ^ 63 <=? z)%Z then Err "value out of range" else Ok z
  end.

(** [strconv.Atoi]: a number out of range is an error, and the nearest [int]. *)
Definition Atoi (s : string) : Z * option string :=
  match BigSetString s with
  | None => (0%Z, Some "invalid syntax")
  | Some z =>
      if (z <? - 2 ^ 63)%Z then ((- 2 ^ 63)%Z, Some "value out of range")
      else if (2 ^ 63 <=? z)%Z then ((2 ^ 63 - 1)%Z, Some "value out of range")
      else (z, None)
  end.

(** [strings.Replace(s, c, "", -1)] for a single byte. *)
Fixpoint remove_byte (c : ascii) (s : string) : string :=
  match s with
  | EmptyString => ""
  | String d s => if is_char c d then remove_byte c s else String d (remove_byte c s)
  end.

(** [strconv.FormatInt(z, 10)], and [big.Int.String]. *)
Definition FormatInt (z : Z) : string := pretty z.

(** ** White space *)

(** The encodings of the Unicode white space. *)
Definition utf8 (l : list N) : string := foldr (λ n s, String (ascii_of_N n) s) "" l.

Definition spaces : list string :=
  utf8 <$> ([[9]; [10]; [11]; [12]; [13]; [32]; [194; 133]; [194; 160]; [225; 154; 128]] ++
    ((λ n, [226; 128; n]) <$> [128; 129; 130; 131; 132; 133; 134; 135; 136; 137; 138; 168; 169; 175]) ++
    [[226; 129; 159]; [227; 128; 128]])%N.

Fixpoint strip_prefix (a s : string) : option string :=
  match a, s with
  | EmptyString, _ => Some s
  | String c a, String d s => if decide (c = d) then strip_prefix a s else None
  | String _ _, EmptyString => None
  end.

Fixpoint first_some {A B} (f : A → option B) (l : list A) : option B :=
  match l with
  | [] => None
  | x :: l => match f x with Some y => Some y | None => first_some f l end
  end.

Fixpoint trim_left (fuel : nat) (encodings : list string) (s : string) : string :=
  match fuel with
  | 0 => s
  | S fuel =>
      match first_some (λ a, strip_prefix a s) encodings with
      | Some s' => trim_left fuel encodings s'
      | None => s
      end
  end.

Definition TrimSpace (s : string) : string :=
  let s := trim_left (String.length s) spaces s in
  String.rev (trim_left (String.length s) (String.rev <$> spaces) (String.rev s)).

(** [strings.Trim] with a cutset of single bytes, those that satisfy [p]. *)
Definition Trim (p : ascii → bool) (s : string) : string :=
  String.rev (span p (String.rev (span p s).2)).2.

(** ** Facts *)

Lemma digits_value_pretty x : ∀ s, digits_value 0 (pretty_N_go x s) = digits_value (Z.of_N x) s.
Proof.
  induction (N.lt_wf_0 x) as [x _ IH]. intros s.
  destruct (decide (x = 0)%N) as [->|Hx]; [by rewrite pretty_N_go_0|].
  rewrite pretty_N_go_step, IH by first [lia|apply N.div_lt; lia]. cbn. f_equal.
  assert (x `mod` 10 < 10)%N by (apply N.mod_lt; lia).
  assert (digit (pretty_N_char (x `mod` 10)) = Z.of_N (x `mod` 10)) as ->.
  { destruct (x `mod` 10)%N as [|p]; [done|]. do 4 (destruct p as [p|p|]; try done; try lia). }
  rewrite (N.div_mod x 10) at 3 by lia. lia.
Qed.

Lemma all_digits_pretty x : ∀ s, all_digits (pretty_N_go x s) = all_digits s.
Proof.
  induction (N.lt_wf_0 x) as [x _ IH]. intros s.
  destruct (decide (x = 0)%N) as [->|Hx]; [by rewrite pretty_N_go_0|].
  rewrite pretty_N_go_step, IH by first [lia|apply N.div_lt; lia]. cbn.
  assert (is_digit (pretty_N_char (x `mod` 10)) = true) as ->; [|done].
  unfold pretty_N_char. repeat case_match; done.
Qed.

Lemma pretty_N_go_nonempty x s : (0 < x)%N → pretty_N_go x s ≠ "".
Proof.
  revert s. induction (N.lt_wf_0 x) as [x _ IH]. intros s Hx. rewrite pretty_N_go_step by done.
  destruct (decide (x `div` 10 = 0)%N) as [->|]; [by rewrite pretty_N_go_0|].
  apply IH; [by apply N.div_lt|by apply N.neq_0_lt_0].
Qed.

(** The digits of a natural number. *)
Lemma pretty_N_digits (x : N) :
  pretty x ≠ "" ∧ all_digits (pretty x) = true ∧ digits_value 0 (pretty x) = Z.of_N x.
Proof.
  unfold pretty, pretty_N. case_decide as Hx; [by subst|].
  rewrite all_digits_pretty, digits_value_pretty. split; [|done]. apply pretty_N_go_nonempty. lia.
Qed.

Lemma FormatInt_digits z : (0 <= z)%Z →
  FormatInt z ≠ "" ∧ all_digits (FormatInt z) = true ∧ digits_value 0 (FormatInt z) = z.
Proof. intros Hz. destruct z as [|p|p]; [done|apply (pretty_N_digits (Npos p))|lia]. Qed.

Lemma FormatInt_neg z : (z < 0)%Z → FormatInt z = "-" +:+ FormatInt (- z).
Proof. destruct z; try lia. done. Qed.

Lemma unsigned_FormatInt z : (0 <= z)%Z → unsigned (FormatInt z) = Some z.
Proof.
  intros Hz. destruct (FormatInt_digits z Hz) as (Hne & Hd & Hv). unfold unsigned.
  by rewrite bool_decide_eq_false_2, Hd, Hv.
Qed.

Lemma all_digits_head c s : all_digits (String c s) = true →
  is_char "+" c = false ∧ is_char "-" c = false.
Proof.
  unfold all_digits. cbn. intros [Hc _]%andb_prop.
  split; apply bool_decide_eq_false; by intros ->.
Qed.

(** Reading a printed integer. *)
Lemma BigSetString_FormatInt z : BigSetString (FormatInt z) = Some z.
Proof.
  destruct (Z.lt_ge_cases z 0) as [Hz|Hz].
  - rewrite FormatInt_neg by done. rewrite str_cons_app, str_nil_app. cbn.
    rewrite unsigned_FormatInt by lia. cbn. f_equal. lia.
  - pose proof (unsigned_FormatInt z Hz) as Hu. destruct (FormatInt_digits z Hz) as (Hne & Hd & _).
    destruct (FormatInt z) as [|c s]; [done|]. cbn. destruct (all_digits_head c s Hd) as [-> ->]. done.
Qed.

Lemma FormatInt_inj y z : FormatInt y = FormatInt z → y = z.
Proof. intros E%(f_equal BigSetString). rewrite !BigSetString_FormatInt in E. by injection E. Qed.

(** A number ends at a byte that is neither a digit nor a sign. *)
Lemma digits_sep sep s : is_digit sep = false → ∀ t x y, all_digits s = true → all_digits t = true →
  s +:+ String sep x = t +:+ String sep y → s = t ∧ x = y.
Proof.
  intros Hsep. assert (∀ c s, all_digits (String c s) = true → c ≠ sep ∧ all_digits s = true) as Hcons.
  { unfold all_digits. cbn. intros c s' [Hc ?]%andb_prop. split; [|done]. intros ->. congruence. }
  induction s as [|c s IH]; intros [|d t] x y Hs Ht; cbn.
  - by intros [= ->].
  - apply Hcons in Ht as [Hd _]. intros [= <- _]. done.
  - apply Hcons in Hs as [Hc _]. intros [= -> _]. done.
  - apply Hcons in Hs as [_ Hs], Ht as [_ Ht]. intros [= -> E]. by destruct (IH t x y Hs Ht E) as [-> ->].
Qed.

Lemma FormatInt_sep sep a b x y : is_digit sep = false → sep ≠ "-"%char →
  FormatInt a +:+ String sep x = FormatInt b +:+ String sep y → a = b ∧ x = y.
Proof.
  intros Hsep Hminus.
  assert (∀ a b x y, (0 <= a)%Z → (0 <= b)%Z → FormatInt a +:+ String sep x = FormatInt b +:+ String sep y → a = b ∧ x = y) as Hpos.
  { clear a b x y. intros a b x y Ha Hb. destruct (FormatInt_digits a Ha) as (_ & Hda & Hva), (FormatInt_digits b Hb) as (_ & Hdb & Hvb).
    intros [E ->]%digits_sep; [|done..]. split; [|done]. by rewrite <- Hva, <- Hvb, E. }
  assert (∀ a b x y, (0 <= a)%Z → (b < 0)%Z → FormatInt a +:+ String sep x ≠ FormatInt b +:+ String sep y) as Hmixed.
  { clear a b x y. intros a b x y Ha Hb. rewrite (FormatInt_neg b) by done. destruct (FormatInt_digits a Ha) as (Hne & Hda & _).
    destruct (FormatInt a) as [|c s]; [done|]. unfold all_digits in Hda. cbn in Hda. apply andb_prop in Hda as [Hc _].
    cbn. intros [= -> _]. done. }
  destruct (Z.lt_ge_cases a 0) as [Ha|Ha], (Z.lt_ge_cases b 0) as [Hb|Hb]; [|intros E|intros E|by apply Hpos].
  - rewrite (FormatInt_neg a), (FormatInt_neg b) by done. rewrite !str_cons_app, !str_nil_app. intros [= E].
    apply Hpos in E as [? ->]; [|lia..]. split; [lia|done].
  - symmetry in E. by apply Hmixed in E.
  - by apply Hmixed in E.
Qed.

Lemma ParseInt_FormatInt z : (- 2 ^ 63 <= z < 2 ^ 63)%Z → ParseInt (FormatInt z) = Ok z.
Proof.
  intros Hz. unfold ParseInt. rewrite BigSetString_FormatInt.
  by rewrite (proj2 (Z.ltb_ge _ _)), (proj2 (Z.leb_gt _ _)) by lia.
Qed.

Lemma Atoi_FormatInt z : (- 2 ^ 63 <= z < 2 ^ 63)%Z → Atoi (FormatInt z) = (z, None).
Proof.
  intros Hz. unfold Atoi. rewrite BigSetString_FormatInt.
  by rewrite (proj2 (Z.ltb_ge _ _)), (proj2 (Z.leb_gt _ _)) by lia.
Qed.

Lemma remove_byte_app c a b : remove_byte c (a +:+ b) = remove_byte c a +:+ remove_byte c b.
Proof.
  induction a as [|d a IH]; [by rewrite !str_nil_app|]. rewrite str_cons_app. cbn. rewrite IH.
  destruct (is_char c d); [done|]. by rewrite str_cons_app.
Qed.

Lemma remove_byte_none c s : all_bytes (λ d, negb (is_char c d)) s = true → remove_byte c s = s.
Proof.
  induction s as [|d s IH]; [done|]. cbn. intros [Hd Hs]%andb_prop. rewrite IH by done. by destruct (is_char c d).
Qed.

(** Printable ASCII is not trimmed. *)
Definition plain (c : ascii) : bool := (32 <? N_of_ascii c)%N && (N_of_ascii c <? 127)%N.

Lemma trim_left_plain fuel encodings c s :
  forallb (λ a, match a with String d _ => negb (plain d) | EmptyString => false end) encodings = true →
  plain c = true → trim_left fuel encodings (String c s) = String c s.
Proof.
  intros He Hc. destruct fuel as [|fuel]; [done|]. cbn.
  assert (first_some (λ a, strip_prefix a (String c s)) encodings = None) as ->; [|done].
  induction encodings as [|a l IH]; [done|]. cbn in He |- *. apply andb_prop in He as [Ha Hl].
  destruct a as [|d a]; [done|]. cbn. rewrite decide_False; [by apply IH|]. intros ->. by rewrite Hc in Ha.
Qed.

Lemma trim_left_nil fuel encodings :
  forallb (λ a, match a with EmptyString => false | _ => true end) encodings = true → trim_left fuel encodings "" = "".
Proof.
  intros He. destruct fuel as [|fuel]; [done|]. cbn.
  assert (first_some (λ a, strip_prefix a "") encodings = None) as ->; [|done].
  induction encodings as [|a l IH]; [done|]. cbn in He |- *. apply andb_prop in He as [Ha Hl].
  destruct a; [done|]. by apply IH.
Qed.

Lemma all_bytes_rev_app p s : ∀ t, all_bytes p (String.rev_app s t) = all_bytes p s && all_bytes p t.
Proof.
  induction s as [|c s IH]; intros t; cbn; [done|]. rewrite IH. cbn.
  destruct (p c), (all_bytes p s), (all_bytes p t); done.
Qed.

Lemma rev_app_involutive s : ∀ t u, String.rev_app (String.rev_app s t) u = String.rev_app t (s +:+ u).
Proof.
  induction s as [|c s IH]; intros t u; cbn; [by rewrite str_nil_app|].
  by rewrite IH, str_cons_app.
Qed.

Lemma TrimSpace_plain s : all_bytes plain s = true → TrimSpace s = s.
Proof.
  intros Hs. unfold TrimSpace.
  assert (trim_left (String.length s) spaces s = s) as ->.
  { destruct s as [|c s]; [done|]. cbn in Hs. apply andb_prop in Hs as [Hc _].
    apply trim_left_plain; [vm_compute; reflexivity|done]. }
  assert (all_bytes plain (String.rev s) = true) as Hr.
  { unfold String.rev. by rewrite all_bytes_rev_app, Hs. }
  assert (trim_left (String.length s) (String.rev <$> spaces) (String.rev s) = String.rev s) as ->.
  { destruct (String.rev s) as [|c t]; [by apply trim_left_nil; vm_compute|].
    cbn in Hr. apply andb_prop in Hr as [Hc _].
    apply trim_left_plain; [vm_compute; reflexivity|done]. }
  unfold String.rev. rewrite rev_app_involutive. cbn.
  induction s as [|c s IH]; [done|]. rewrite str_cons_app. f_equal. apply IH; cbn in Hs.
  - by apply andb_prop in Hs as [_ ?].
  - unfold String.rev. rewrite all_bytes_rev_app. cbn. by apply andb_prop in Hs as [_ ->].
Qed.

(** Digits are plain, and so is a printed number. *)
Lemma digits_plain s : all_digits s = true → all_bytes plain s = true.
Proof.
  apply all_bytes_weaken. intros c. unfold is_digit, in_range, plain. cbn.
  rewrite !andb_true_iff, !N.leb_le, !N.ltb_lt. lia.
Qed.

(** *** Trimming quotes *)

Lemma rev_involutive s : String.rev (String.rev s) = s.
Proof.
  unfold String.rev. rewrite rev_app_involutive. cbn. induction s as [|c s IH]; [done|].
  by rewrite str_cons_app, IH.
Qed.

Lemma rev_app_acc s : ∀ t, String.rev_app s t = String.rev_app s "" +:+ t.
Proof.
  induction s as [|c s IH]; intros t; [by rewrite str_nil_app|]. cbn. rewrite IH, (IH (String c "")).
  by rewrite str_app_assoc', str_cons_app, str_nil_app.
Qed.

Lemma rev_snoc s c : String.rev (s +:+ String c "") = String c (String.rev s).
Proof.
  unfold String.rev. induction s as [|d s IH]; [done|]. rewrite str_cons_app. cbn.
  by rewrite rev_app_acc, IH, str_cons_app, <- rev_app_acc.
Qed.

Lemma span_none p s : all_bytes (λ c, negb (p c)) s = true → (span p s).2 = s.
Proof. destruct s as [|c s]; [done|]. cbn. intros [Hc _]%andb_prop. by destruct (p c). Qed.

Lemma Trim_quoted p c s : p c = true → all_bytes (λ c, negb (p c)) s = true →
  Trim p (String c (s +:+ String c "")) = s.
Proof.
  intros Hc Hs. unfold Trim. cbn [span]. rewrite Hc. cbn [snd].
  destruct s as [|d s].
  { rewrite str_nil_app. cbn [span]. by rewrite Hc. }
  assert ((span p (String d s +:+ String c "")).2 = String d s +:+ String c "") as ->.
  { rewrite str_cons_app. cbn. cbn in Hs. apply andb_prop in Hs as [Hd _]. by destruct (p d). }
  rewrite rev_snoc. cbn [span]. rewrite Hc. cbn [snd].
  rewrite span_none; [apply rev_involutive|]. unfold String.rev. by rewrite all_bytes_rev_app, Hs.
Qed.
