(* ===== verification/InfDec.v ===== *)
(** * inf.Dec: decimals of any precision

    Models the operations of [speter.net/go/exp/math/dec/inf] (vendored under
    [Godeps/_workspace/src]) on which quantities are built.  A [Dec] is an integer
    and an [int32] scale: the number is [unscaled * 10^(-scale)].  Scales wrap
    around, and [exp10] of a negative scale is an index out of range: operations
    return an [outcome].  The receiver of a method is its result.

    The theorems compare decimals at a common scale: [at_scale d s] is the
    integer that [d] is with [s] decimal places. *)

From S2P Require Import Prelude.
From S2P Require Import Validation.
From S2P Require Import Strconv.

#[local] Open Scope Z_scope.

(** ** Data *)

Record Dec : Type := mkDec { unscaled : Z; scale : Z }.

#[export] Instance Dec_eq_dec : EqDecision Dec.
Proof. solve_decision. Defined.

(** The zero value. *)
Definition zeroDec : Dec := mkDec 0 0.

Definition NewDec (unscaled scale : Z) : Dec := mkDec unscaled scale.
Definition SetScale (scale : Z) (z : Dec) : Dec := mkDec (unscaled z) scale.
Definition SetUnscaled (unscaled : Z) (z : Dec) : Dec := mkDec unscaled (scale z).

(** [Unscaled]: the low 64 bits, and whether they are all. *)
Definition Unscaled (x : Dec) : Z * bool :=
  let u := int64 (unscaled x) in (u, bool_decide (u = unscaled x)).

Definition Sign (x : Dec) : Z := Z.sgn (unscaled x).
Definition Neg (x : Dec) : Dec := mkDec (- unscaled x) (scale x).
Definition Abs (x : Dec) : Dec := mkDec (Z.abs (unscaled x)) (scale x).

(** ** Scaling *)

Definition exp10 (x : Z) : outcome Z := if (x <? 0)%Z then Panics else Returns (10 ^ x)%Z.

Definition rescale (newScale : Z) (x : Dec) : outcome Dec :=
  let shift := int32 (newScale - scale x) in
  if (shift <? 0)%Z then
    e ← exp10 (int32 (- shift)); Returns (mkDec (Z.quot (unscaled x) e) newScale)
  else if (0 <? shift)%Z then
    e ← exp10 shift; Returns (mkDec (unscaled x * e) newScale)
  else Returns x.

Definition upscale (a b : Dec) : outcome (Dec * Dec) :=
  if Z.eqb (scale a) (scale b) then Returns (a, b)
  else if (scale b <? scale a)%Z then bb ← rescale (scale a) b; Returns (a, bb)
  else aa ← rescale (scale b) a; Returns (aa, b).

Definition Cmp (x y : Dec) : outcome comparison :=
  '(xx, yy) ← upscale x y; Returns (Z.compare (unscaled xx) (unscaled yy)).

Definition Add (x y : Dec) : outcome Dec :=
  '(xx, yy) ← upscale x y; Returns (mkDec (unscaled xx + unscaled yy) (scale xx)).

Definition Sub (x y : Dec) : outcome Dec :=
  '(xx, yy) ← upscale x y; Returns (mkDec (unscaled xx - unscaled yy) (scale xx)).

Definition Mul (x y : Dec) : Dec := mkDec (unscaled x * unscaled y) (int32 (scale x + scale y)).

(** ** Rounding *)

(** A rounder: the rounded quotient from the truncated one and the remainder,
    [None] when it refuses. *)
Inductive Rounder : Type :=
| RoundExact | RoundDown | RoundUp | RoundFloor | RoundCeil
| RoundHalfDown | RoundHalfUp | RoundHalfEven.

(** [roundHalf]: bit lengths stand in for a comparison with half of [rB]. *)
Definition bitLen (z : Z) : Z := if Z.eqb z 0 then 0 else Z.log2 (Z.abs z) + 1.

Definition roundHalf (f : comparison → bool → bool) (q : Dec) (rA rB : Z) : Dec :=
  let brA := bitLen rA in
  let brB := bitLen rB in
  if (brA <? brB - 1)%Z then q
  else
    let s := (Z.sgn rA * Z.sgn rB)%Z in
    let roundUp :=
      if Z.eqb brA (brB - 1) then
        let rA2 := Z.shiftl rA 1 in
        let rA2 := if (s <? 0)%Z then (- rA2)%Z else rA2 in
        let c := Z.compare rA2 rB in
        f (if (Z.sgn rB <? 0)%Z then CompOpp c else c) (Z.odd (unscaled q))
      else true in
    if roundUp then SetUnscaled (unscaled q + s) q else q.

Definition Rounder_Round (r : Rounder) (q : Dec) (rA rB : Z) : option Dec :=
  let s := (Z.sgn rA * Z.sgn rB)%Z in
  match r with
  | RoundExact => if Z.eqb (Z.sgn rA) 0 then Some q else None
  | RoundDown => Some q
  | RoundUp => Some (if Z.eqb (Z.sgn rA) 0 then q else SetUnscaled (unscaled q + s) q)
  | RoundFloor => Some (if (s <? 0)%Z then SetUnscaled (unscaled q - 1) q else q)
  | RoundCeil => Some (if (0 <? s)%Z then SetUnscaled (unscaled q + 1) q else q)
  | RoundHalfDown => Some (roundHalf (λ c _, bool_decide (c = Gt)) q rA rB)
  | RoundHalfUp => Some (roundHalf (λ c _, bool_decide (c ≠ Lt)) q rA rB)
  | RoundHalfEven =>
      Some (roundHalf (λ c odd, bool_decide (c = Gt) || bool_decide (c = Eq) && odd) q rA rB)
  end.

(** The quotient at scale [s], and the remainder as a fraction. *)
Definition quoRem (x y : Dec) (s : Z) : outcome (Dec * Z * Z) :=
  let shift := int32 (s - int32 (scale x - scale y)) in
  '(ix, iy) ←
    (if (0 <? shift)%Z then e ← exp10 shift; Returns (unscaled x * e, unscaled y)
     else if (shift <? 0)%Z then e ← exp10 (int32 (- shift)); Returns (unscaled x, unscaled y * e)
     else Returns (unscaled x, unscaled y))%Z;
  if Z.eqb iy 0 then Panics
  else Returns (mkDec (Z.quot ix iy) s, Z.rem ix iy, iy).

Definition QuoRound (x y : Dec) (s : Z) (r : Rounder) : outcome (option Dec) :=
  '(zz, rA, rB) ← quoRem x y s; Returns (Rounder_Round r zz rA rB).

Definition Round (x : Dec) (s : Z) (r : Rounder) : outcome (option Dec) :=
  QuoRound x (NewDec 1 0) s r.

(** ** Reading *)

(** The loop of [scan]: the sign and digits so far, where the dot and the first
    digit are, and what is left to read. *)
Fixpoint scanLoop (s unscaled : string) (dp dg : option nat) :
    string * string * option nat * option nat :=
  match s with
  | EmptyString => (s, unscaled, dp, dg)
  | String ch s' =>
      let len := String.length unscaled in
      if is_char "+" ch || is_char "-" ch then
        if Nat.ltb 0%nat len || bool_decide (is_Some dp) then (s, unscaled, dp, dg)
        else scanLoop s' (unscaled +:+ String ch "") dp dg
      else if is_char "." ch then
        match dp with
        | Some _ => (s, unscaled, dp, dg)
        | None => scanLoop s' unscaled (Some len) dg
        end
      else if is_digit ch then
        scanLoop s' (unscaled +:+ String ch "") dp
          (match dg with None => Some len | Some _ => dg end)
      else (s, unscaled, dp, dg)
  end.

Definition scan (s : string) : option (Dec * string) :=
  let '(rest, unscaled, dp, dg) := scanLoop s "" None None in
  match dg with
  | None => None
  | Some _ =>
      let scale :=
        match dp with
        | Some dp => int32 (Z.of_nat (String.length unscaled - dp))
        | None => 0%Z
        end in
      match BigSetString unscaled with
      | None => None
      | Some u => Some (mkDec u scale, rest)
      end
  end.

Definition SetString (s : string) : option Dec :=
  match scan s with
  | Some (z, rest) => if bool_decide (rest = "") then Some z else None
  | None => None
  end.

(** ** Facts *)

(** The decimal with [s] places. *)
Definition at_scale (d : Dec) (s : Z) : Z := unscaled d * 10 ^ (s - scale d).

(** Far from where scales wrap around. *)
Definition small (s : Z) : Prop := (- 2 ^ 30 < s < 2 ^ 30)%Z.

Lemma exp10_ok x : (0 <= x)%Z → exp10 x = Returns (10 ^ x)%Z.
Proof. intros Hx. unfold exp10. by rewrite (proj2 (Z.ltb_ge _ _)). Qed.

Lemma pow10_pos x : (0 <= x)%Z → (0 < 10 ^ x)%Z.
Proof. intros. by apply Z.pow_pos_nonneg. Qed.

Lemma at_scale_up d s s' : (scale d <= s <= s')%Z → at_scale d s' = (at_scale d s * 10 ^ (s' - s))%Z.
Proof.
  intros Hs. unfold at_scale. rewrite <- Z.mul_assoc, <- Z.pow_add_r by lia. do 2 f_equal. lia.
Qed.

Lemma at_scale_self d : at_scale d (scale d) = unscaled d.
Proof. unfold at_scale. rewrite Z.sub_diag, Z.pow_0_r. lia. Qed.

Lemma rescale_up newScale x : small newScale → small (scale x) → (scale x <= newScale)%Z →
  rescale newScale x = Returns (mkDec (at_scale x newScale) newScale).
Proof.
  unfold small. intros Hn Hx Hle. unfold rescale. rewrite int32_id by lia.
  rewrite (proj2 (Z.ltb_ge _ 0)) by lia. destruct (Z.ltb_spec 0 (newScale - scale x)).
  - by rewrite exp10_ok by lia.
  - assert (scale x = newScale) as <- by lia. rewrite at_scale_self. by destruct x.
Qed.

Lemma upscale_ok a b : small (scale a) → small (scale b) →
  let s := Z.max (scale a) (scale b) in
  upscale a b = Returns (mkDec (at_scale a s) s, mkDec (at_scale b s) s).
Proof.
  intros Ha Hb. unfold upscale. cbv zeta. destruct (Z.eqb_spec (scale a) (scale b)) as [E|Hne].
  - assert (at_scale b (scale a) = unscaled b) as Hb' by (rewrite E; apply at_scale_self).
    rewrite <- E, Z.max_id, at_scale_self, Hb'. destruct a, b. cbn in *. by subst.
  - destruct (Z.ltb_spec (scale b) (scale a)).
    + rewrite Z.max_l, rescale_up by (done || lia). cbn. rewrite at_scale_self. by destruct a.
    + rewrite Z.max_r, rescale_up by (done || lia). cbn. rewrite at_scale_self. by destruct b.
Qed.

(** Comparing at any scale gives the same. *)
Lemma compare_at_scale x y s s' : (scale x <= s)%Z → (scale y <= s)%Z → (s <= s')%Z →
  Z.compare (at_scale x s') (at_scale y s') = Z.compare (at_scale x s) (at_scale y s).
Proof.
  intros Hx Hy Hs. rewrite (at_scale_up x s s'), (at_scale_up y s s') by lia.
  symmetry. apply Zmult_compare_compat_r, Z.lt_gt, pow10_pos. lia.
Qed.

Lemma Cmp_ok x y s : small (scale x) → small (scale y) → (scale x <= s)%Z → (scale y <= s)%Z →
  Cmp x y = Returns (Z.compare (at_scale x s) (at_scale y s)).
Proof.
  intros Hx Hy Hxs Hys. unfold Cmp. rewrite upscale_ok by done. cbn. f_equal.
  symmetry. apply compare_at_scale; lia.
Qed.

Lemma dec_Add_ok x y : small (scale x) → small (scale y) →
  ∃ z, Add x y = Returns z ∧ scale z = Z.max (scale x) (scale y) ∧
    ∀ s, (scale z <= s)%Z → at_scale z s = (at_scale x s + at_scale y s)%Z.
Proof.
  intros Hx Hy. unfold Add. rewrite upscale_ok by done. eexists. split; [done|]. split; [done|].
  cbn. intros s Hs. rewrite (at_scale_up x (Z.max (scale x) (scale y)) s),
    (at_scale_up y (Z.max (scale x) (scale y)) s) by lia.
  unfold at_scale at 1. cbn. lia.
Qed.

Lemma Sub_ok x y : small (scale x) → small (scale y) →
  ∃ z, Sub x y = Returns z ∧ scale z = Z.max (scale x) (scale y) ∧
    ∀ s, (scale z <= s)%Z → at_scale z s = (at_scale x s - at_scale y s)%Z.
Proof.
  intros Hx Hy. unfold Sub. rewrite upscale_ok by done. eexists. split; [done|]. split; [done|].
  cbn. intros s Hs. rewrite (at_scale_up x (Z.max (scale x) (scale y)) s),
    (at_scale_up y (Z.max (scale x) (scale y)) s) by lia.
  unfold at_scale at 1. cbn. lia.
Qed.

Lemma Neg_ok x s : at_scale (Neg x) s = (- at_scale x s)%Z.
Proof. unfold at_scale. cbn. lia. Qed.

(** The quotient rounded away from zero. *)
Definition up_div (u e : Z) : Z := Z.sgn u * ((Z.abs u + e - 1) / e).

Lemma up_div_quot u e : (0 < e)%Z →
  up_div u e = (Z.quot u e + Z.sgn (Z.rem u e))%Z.
Proof.
  intros He. unfold up_div.
  assert (∀ v, (0 <= v)%Z → ((v + e - 1) / e = Z.quot v e + Z.sgn (Z.rem v e))%Z) as Hpos.
  { intros v Hv. rewrite Z.quot_div_nonneg, Z.rem_mod_nonneg by lia.
    pose proof (Z.div_mod v e) as Hdm. pose proof (Z.mod_pos_bound v e He).
    destruct (Z.eq_dec (v mod e) 0) as [Hm|Hm].
    - rewrite Hm. cbn. rewrite Z.add_0_r. symmetry. apply (Z.div_unique _ _ _ (e - 1)%Z); lia.
    - rewrite Z.sgn_pos by lia. symmetry. apply (Z.div_unique _ _ _ (v mod e - 1)%Z); lia. }
  destruct (Z.lt_ge_cases u 0) as [Hu|Hu].
  - rewrite Z.sgn_neg, Z.abs_neq, Hpos by lia. rewrite Z.quot_opp_l, Z.rem_opp_l by lia.
    rewrite Z.sgn_opp. lia.
  - rewrite Z.abs_eq, <- Hpos by lia. destruct (Z.eq_dec u 0) as [->|]; [|rewrite Z.sgn_pos; lia].
    cbn. symmetry. apply Z.div_small. lia.
Qed.

Lemma up_div_1 u : up_div u 1 = u.
Proof. rewrite up_div_quot by lia. by rewrite Z.quot_1_r, Z.rem_1_r, Z.add_0_r. Qed.

(** [RoundUp] at a scale: exact when it has the places, away from zero else. *)
Lemma Round_up_ok x s : small (scale x) → small s →
  Round x s RoundUp = Returns (Some (mkDec
    (if (scale x <=? s)%Z then at_scale x s else up_div (unscaled x) (10 ^ (scale x - s))) s)).
Proof.
  unfold small. intros Hx Hs. unfold Round, QuoRound, quoRem, NewDec. cbn [unscaled scale].
  rewrite Z.sub_0_r, (int32_id (scale x)), int32_id by lia.
  assert (∀ ix iy, (0 < iy)%Z →
    Rounder_Round RoundUp (mkDec (Z.quot ix iy) s) (Z.rem ix iy) iy = Some (mkDec (up_div ix iy) s)) as Hr.
  { intros ix iy Hiy. rewrite up_div_quot by done. unfold Rounder_Round, SetUnscaled. cbn.
    rewrite (Z.sgn_pos iy) by done. rewrite Z.mul_1_r.
    destruct (Z.eqb_spec (Z.sgn (Z.rem ix iy)) 0) as [->|]; [by rewrite Z.add_0_r|done]. }
  destruct (Z.ltb_spec 0 (s - scale x)); [|destruct (Z.ltb_spec (s - scale x) 0)].
  - rewrite (proj2 (Z.leb_le _ _)), exp10_ok by lia. cbn [mbind outcome_bind].
    rewrite (proj2 (Z.eqb_neq 1 0)) by lia. cbn [mbind outcome_bind].
    rewrite Hr by lia. by rewrite up_div_1.
  - rewrite (proj2 (Z.leb_gt _ _)), int32_id, exp10_ok by lia. cbn [mbind outcome_bind].
    replace (- (s - scale x)) with (scale x - s) by lia. pose proof (pow10_pos (scale x - s)).
    rewrite Z.mul_1_l, (proj2 (Z.eqb_neq _ 0)) by lia. cbn [mbind outcome_bind].
    by rewrite Hr by lia.
  - assert (s = scale x) as -> by lia. rewrite Z.leb_refl, at_scale_self. cbn [mbind outcome_bind].
    rewrite (proj2 (Z.eqb_neq 1 0)) by lia. cbn [mbind outcome_bind].
    rewrite Hr by lia. by rewrite up_div_1.
Qed.

(** ** Reading numbers *)

Lemma length_str_app a b : String.length (a +:+ b) = (String.length a + String.length b)%nat.
Proof. induction a as [|x a IH]; [by rewrite str_nil_app|]. rewrite str_cons_app. cbn. by rewrite IH. Qed.

(** Digits are collected. *)
Lemma scanLoop_digits i : ∀ rest uns dp dg, all_digits i = true →
  scanLoop (i +:+ rest) uns dp dg =
    scanLoop rest (uns +:+ i) dp
      (if bool_decide (i = "") then dg else match dg with None => Some (String.length uns) | _ => dg end).
Proof.
  induction i as [|c i IH]; intros rest uns dp dg.
  { intros _. rewrite str_nil_app. do 2 f_equal. symmetry. induction uns as [|x uns IHu]; [done|].
    rewrite str_cons_app. by rewrite IHu. }
  intros Hd. pose proof (all_digits_head c i Hd) as [Hp Hm]. unfold all_digits in Hd. cbn in Hd.
  apply andb_prop in Hd as [Hc Hi].
  assert (is_char "." c = false) as Hdot by (apply bool_decide_eq_false; by intros ->).
  rewrite str_cons_app. cbn [scanLoop]. rewrite Hp, Hm, Hdot, Hc. cbn [orb]. rewrite IH by done.
  rewrite str_app_assoc', str_cons_app, str_nil_app, (bool_decide_eq_false_2 (String c i = "")) by done.
  f_equal. destruct dg; by case_bool_decide.
Qed.

(** A sign, digits, and a dot with more digits. *)
Definition number (sign ip : string) (fp : option string) : string :=
  sign +:+ ip +:+ match fp with Some fp => "." +:+ fp | None => "" end.

Definition signed (sign : string) (z : Z) : Z := if decide (sign = "-") then - z else z.

Lemma BigSetString_signed sign ds : sign ∈ [""; "+"; "-"] → ds ≠ "" → all_digits ds = true →
  BigSetString (sign +:+ ds) = Some (signed sign (digits_value 0 ds)).
Proof.
  intros Hs Hne Hd. assert (unsigned ds = Some (digits_value 0 ds)) as Hu.
  { unfold unsigned. by rewrite bool_decide_eq_false_2, Hd. }
  unfold signed. rewrite !elem_of_cons, elem_of_nil in Hs.
  destruct Hs as [->|[->|[->|[]]]]; rewrite ?str_cons_app, ?str_nil_app; cbn; rewrite ?Hu; try done.
  destruct ds as [|c s]; [done|]. destruct (all_digits_head c s Hd) as [Hp Hm].
  cbn. by rewrite Hp, Hm.
Qed.

Lemma SetString_number sign ip fp : sign ∈ [""; "+"; "-"] →
  all_digits (ip +:+ default "" fp) = true → ip +:+ default "" fp ≠ "" →
  Z.of_nat (String.length (default "" fp)) < 2 ^ 31 →
  SetString (number sign ip fp) = Some (mkDec (signed sign (digits_value 0 (ip +:+ default "" fp)))
    (Z.of_nat (String.length (default "" fp)))).
Proof.
  intros Hs Hd Hne Hlen. unfold SetString, scan, number.
  assert (∃ dg, scanLoop (sign +:+ ip +:+ match fp with Some fp => "." +:+ fp | None => "" end) "" None None
    = ("", sign +:+ ip +:+ default "" fp, (λ _, String.length (sign +:+ ip)) <$> fp, Some dg)) as (dg & ->).
  { unfold all_digits in Hd. rewrite all_bytes_app in Hd. apply andb_prop in Hd as [Hi Hf].
    assert (scanLoop (sign +:+ ip +:+ match fp with Some fp => "." +:+ fp | None => "" end) "" None None =
      scanLoop (ip +:+ match fp with Some fp => "." +:+ fp | None => "" end) sign None None) as ->.
    { rewrite !elem_of_cons, elem_of_nil in Hs. destruct Hs as [->|[->|[->|[]]]];
        rewrite ?str_cons_app, ?str_nil_app; done. }
    rewrite scanLoop_digits by done. destruct fp as [fp|]; cbn [default fmap option_fmap option_map] in *.
    - rewrite str_cons_app, str_nil_app. cbn [scanLoop].
      change (is_char "+" "." || is_char "-" ".") with false. change (is_char "." ".") with true. cbn iota.
      unfold id in *. pose proof (λ uns dp dg, scanLoop_digits fp "" uns dp dg Hf) as Hfp.
      setoid_rewrite str_app_nil_r in Hfp. rewrite Hfp. cbn [scanLoop]. rewrite str_app_assoc'.
      destruct (decide (ip = "")) as [->|Hip].
      + rewrite bool_decide_eq_false_2; [by eexists|]. intros ->. by rewrite str_nil_app in Hne.
      + rewrite (bool_decide_eq_false_2 (ip = "")) by done. case_bool_decide; by eexists.
    - cbn [scanLoop]. rewrite str_app_nil_r in *. rewrite bool_decide_eq_false_2 by done. by eexists. }
  rewrite BigSetString_signed by done. rewrite bool_decide_eq_true_2 by done.
  do 2 f_equal. destruct fp as [fp|]; cbn [fmap option_fmap option_map default]; [|done].
  rewrite <- str_app_assoc', (length_str_app (sign +:+ ip)), Nat.add_comm, Nat.add_sub.
  apply int32_id. unfold id in *. cbn in Hlen. lia.
Qed.
