(* ===== verification/Quantity.v ===== *)
(** * resource.Quantity: fixed-point quantities with suffixes

    Models [pkg/api/resource/quantity.go], [suffix.go] and [scale_int.go]:
    parsing, the canonical form, arithmetic and scaled values.  A quantity has a
    pointer to its amount, [None] for nil; methods that change the receiver
    return the new quantity.  [splitRE] is [split]: [FindStringSubmatch] gives
    its first group the longest run that the expression allows.

    The theorems: a parsed quantity keeps the bounds; the canonical form denotes
    the quantity exactly, with the largest suffix, and parsing it gives the
    quantity back; what [ScaledValue] rounds and where it overflows; and how
    quantities outside the bounds lose their suffix. *)

From S2P Require Import Prelude.
From S2P Require Import Validation.
From S2P Require Import Strconv.
From S2P Require Import InfDec.

#[local] Open Scope Z_scope.

(** ** Data *)

(** [Format] is a string; [FormatOther] is one that is not among the constants. *)
Inductive Format : Type := DecimalExponent | BinarySI | DecimalSI | FormatOther (f : string).

#[export] Instance Format_eq_dec : EqDecision Format.
Proof. solve_decision. Defined.

Record Quantity : Type := mkQuantity { Amount : option Dec; format : Format }.

Inductive parseError : Type := ErrFormatWrong | ErrNumeric | ErrSuffix.

Definition Nano : Z := -9.
Definition Milli : Z := -3.
Definition Exa : Z := 18.

(** An [inf.Scale] is upside-down, and an [int32]. *)
Definition infScale (s : Z) : Z := int32 (- s).

Definition decOne : Dec := NewDec 1 0.
Definition dec1024 : Dec := NewDec 1024 0.
Definition decMinus1024 : Dec := NewDec (-1024) 0.
Definition maxAllowed : Dec := NewDec (2 ^ 63 - 1) 0.

(** ** Suffixes *)

Definition bePair : Type := Z * Z.

Record listSuffixer : Type := mkSuffixer {
  suffixToBE : gmap string bePair;
  beToSuffix : gmap bePair string;
}.

Definition addSuffix (s : string) (pair : bePair) (ls : listSuffixer) : listSuffixer :=
  mkSuffixer (<[s := pair]> (suffixToBE ls)) (<[pair := s]> (beToSuffix ls)).

Definition lookup_suffix (s : string) (ls : listSuffixer) : option bePair := suffixToBE ls !! s.

Definition list_construct (base exponent : Z) (ls : listSuffixer) : option string :=
  beToSuffix ls !! (base, exponent).

Record suffixHandler : Type := mkHandler { decSuffixes : listSuffixer; binSuffixes : listSuffixer }.

Definition newSuffixer : suffixHandler :=
  let add := foldl (λ ls '(s, be), addSuffix s be ls) in
  mkHandler
    (add (mkSuffixer ∅ ∅) [("", (2, 0)); ("n", (10, -9)); ("u", (10, -6)); ("m", (10, -3)); ("", (10, 0));
       ("k", (10, 3)); ("M", (10, 6)); ("G", (10, 9)); ("T", (10, 12)); ("P", (10, 15)); ("E", (10, 18))])
    (add (mkSuffixer ∅ ∅) [("Ki", (2, 10)); ("Mi", (2, 20)); ("Gi", (2, 30)); ("Ti", (2, 40));
       ("Pi", (2, 50)); ("Ei", (2, 60))]).

Definition quantitySuffixer : suffixHandler := newSuffixer.

Definition construct (base exponent : Z) (fmt : Format) : string * bool :=
  let found o := match o with Some s => (s, true) | None => ("", false) end in
  match fmt with
  | DecimalSI => found (list_construct base exponent (decSuffixes quantitySuffixer))
  | BinarySI => found (list_construct base exponent (binSuffixes quantitySuffixer))
  | DecimalExponent =>
      if negb (Z.eqb base 10) then ("", false)
      else if Z.eqb exponent 0 then ("", true)
      else ("e" +:+ FormatInt exponent, true)
  | FormatOther _ => ("", false)
  end.

(** The base, the exponent and the format of a suffix. *)
Definition interpret (suffix : string) : option (Z * Z * Format) :=
  match lookup_suffix suffix (decSuffixes quantitySuffixer) with
  | Some (b, e) => Some (b, e, DecimalSI)
  | None =>
      match lookup_suffix suffix (binSuffixes quantitySuffixer) with
      | Some (b, e) => Some (b, e, BinarySI)
      | None =>
          match suffix with
          | String c (String _ _ as digits) =>
              if is_char "E" c || is_char "e" c then
                match ParseInt digits with
                | Err _ => None
                | Ok parsed => Some (10, parsed, DecimalExponent)
                end
              else None
          | _ => None
          end
      end
  end.

(** ** Parsing *)

Definition is_number_byte (c : ascii) : bool := is_digit c || is_char "." c.
Definition is_suffix_letter (c : ascii) : bool := bool_decide (c ∈ String.list_ascii_of_string "eEinumkKMGTP").
Definition is_sign (c : ascii) : bool := is_char "+" c || is_char "-" c.

(** [splitRE.FindStringSubmatch] *)
Definition split (str : string) : option (string * string) :=
  let '(sign, str) :=
    match str with
    | String c s => if is_sign c then (String c "", s) else ("", str)
    | EmptyString => ("", str)
    end in
  let '(number, suffix) := span is_number_byte str in
  if bool_decide (number = "") then None
  else
    let rest := (span is_suffix_letter suffix).2 in
    let rest := match rest with String c s => if is_sign c then s else rest | EmptyString => rest end in
    if all_digits rest then Some (sign +:+ number, suffix) else None.

(** The suffix, applied to the amount. *)
Definition applySuffix (base exponent : Z) (amount : Dec) : Dec :=
  if Z.eqb base 10 then SetScale (int32 (scale amount + infScale exponent)) amount
  else if Z.eqb base 2 then mkDec (unscaled amount * Z.shiftl 1 exponent) (scale amount)
  else amount.

(** The rounding and the cap of a non-negative amount. *)
Definition capAmount (amount : Dec) : outcome Dec :=
  let '(v, ok) := Unscaled amount in
  amount ←
    (if negb (Z.eqb v 0) || negb ok then
       rounded ← Round amount (infScale Nano) RoundUp;
       match rounded with Some amount => Returns amount | None => Returns amount end
     else Returns amount);
  c ← InfDec.Cmp amount maxAllowed;
  Returns (if bool_decide (c = Gt) then maxAllowed else amount).

(** The amount and the format within the bounds. *)
Definition boundQuantity (amount : Dec) (fmt : Format) : outcome Quantity :=
  let sign := Sign amount in
  let amount := if Z.eqb sign (-1) then InfDec.Neg amount else amount in
  amount ← capAmount amount;
  below ← InfDec.Cmp amount decOne;
  above ← InfDec.Cmp amount zeroDec;
  let fmt :=
    if bool_decide (fmt = BinarySI) && bool_decide (below = Lt) && bool_decide (above = Gt)
    then DecimalSI else fmt in
  let amount := if Z.eqb sign (-1) then InfDec.Neg amount else amount in
  Returns (mkQuantity (Some amount) fmt).

Definition ParseQuantity (str : string) : outcome (result parseError Quantity) :=
  match split (TrimSpace str) with
  | None => Returns (Err ErrFormatWrong)
  | Some (number, suffix) =>
      match SetString number with
      | None => Returns (Err ErrNumeric)
      | Some amount =>
          match interpret suffix with
          | None => Returns (Err ErrSuffix)
          | Some (base, exponent, fmt) =>
              q ← boundQuantity (applySuffix base exponent amount) fmt; Returns (Ok q)
          end
      end
  end.

Definition MustParse (str : string) : outcome Quantity :=
  r ← ParseQuantity str;
  match r with Ok q => Returns q | Err _ => Panics end.

(** ** The canonical form *)

(** The loop of [removeFactors] runs while [d] is a multiple of [factor]. *)
Fixpoint removeFactors (fuel : nat) (d factor : Z) (times : Z) : Z * Z :=
  match fuel with
  | O => (d, times)
  | S fuel =>
      if Z.eqb d 0 then (d, times)
      else if negb (Z.eqb (d mod factor) 0) then (d, times)
      else removeFactors fuel (d / factor) factor (times + 1)
  end.

(** A number has at most as many factors as bits. *)
Definition factorFuel (d : Z) : nat := Z.to_nat (Z.log2 (Z.abs d) + 1).

(** [for exponent%3 != 0 { amount *= 10; exponent-- }] *)
Fixpoint alignExponent (fuel : nat) (amount exponent : Z) : Z * Z :=
  match fuel with
  | O => (amount, exponent)
  | S fuel =>
      if negb (Z.eqb (Z.rem exponent 3) 0) then alignExponent fuel (amount * 10) (exponent - 1)
      else (amount, exponent)
  end.

Definition canonicalDecimal (d : Dec) (fmt : Format) : string * string :=
  let '(amount, times) := removeFactors (factorFuel (unscaled d)) (unscaled d) 10 0 in
  let '(amount, exponent) := alignExponent 3 amount (int32 (- scale d) + times) in
  (FormatInt amount, (construct 10 exponent fmt).1).

Definition canonicalBinary (d : Dec) : outcome (string * string) :=
  tmp ← Round d 0 RoundUp;
  match tmp with
  | None => Returns ("0", "")
  | Some tmp =>
      let '(amount, exponent) := removeFactors (factorFuel (unscaled tmp)) (unscaled tmp) 1024 0 in
      Returns (FormatInt amount, (construct 2 (exponent * 10) BinarySI).1)
  end.

(** The format that [Canonicalize] settles on. *)
Definition chooseFormat (d : Dec) (fmt : Format) : outcome Format :=
  match fmt with
  | DecimalExponent | DecimalSI => Returns fmt
  | BinarySI =>
      above ← InfDec.Cmp d decMinus1024;
      below ← InfDec.Cmp d dec1024;
      if bool_decide (above = Gt) && bool_decide (below = Lt) then Returns DecimalSI
      else
        tmp ← Round d 0 RoundUp;
        match tmp with
        | None => Returns BinarySI
        | Some tmp =>
            c ← InfDec.Cmp tmp d;
            Returns (if bool_decide (c ≠ Eq) then DecimalSI else BinarySI)
        end
  | FormatOther _ => Returns DecimalExponent
  end.

Definition Canonicalize (q : Quantity) : outcome (string * string) :=
  match Amount q with
  | None => Returns ("0", "")
  | Some d =>
      c ← InfDec.Cmp d zeroDec;
      if bool_decide (c = Eq) then Returns ("0", "")
      else
        fmt ← chooseFormat d (format q);
        match fmt with
        | BinarySI => canonicalBinary d
        | _ => Returns (canonicalDecimal d fmt)
        end
  end.

Definition Quantity_String (q : Quantity) : outcome string :=
  '(number, suffix) ← Canonicalize q; Returns (number +:+ suffix).

(** [qFlag.Set] and [UnmarshalJSON] leave the receiver alone on an error. *)
Definition qFlag_Set (val : string) (dest : Quantity) : outcome (Quantity * option parseError) :=
  r ← ParseQuantity val;
  Returns match r with Ok q => (q, None) | Err e => (dest, Some e) end.

Definition quote : ascii := ascii_of_nat 34.

Definition MarshalJSON (q : Quantity) : outcome string :=
  s ← Quantity_String q; Returns (String quote (s +:+ String quote "")).

Definition UnmarshalJSON (value : string) (q : Quantity) : outcome (Quantity * option parseError) :=
  qFlag_Set (Trim (is_char quote) value) q.

(** ** Arithmetic *)

Definition Cmp (q y : Quantity) : outcome comparison :=
  match Amount q, Amount y with
  | None, None => Returns Eq
  | None, Some y => Returns (Z.compare (- Sign y) 0)
  | Some d, None => Returns (Z.compare (Sign d) 0)
  | Some d, Some y => InfDec.Cmp d y
  end.

(** [Add] and [Sub] on amounts: the format of a zero receiver gives way. *)
Definition combine (op : Dec → Dec → outcome Dec) (d : Dec) (fmt : Format) (yd : Dec) (yfmt : Format) :
    outcome Quantity :=
  c ← InfDec.Cmp d zeroDec;
  c' ← InfDec.Cmp yd zeroDec;
  let fmt := if bool_decide (c = Eq) && bool_decide (c' ≠ Eq) then yfmt else fmt in
  d ← op d yd;
  Returns (mkQuantity (Some d) fmt).

Definition Add (y q : Quantity) : outcome Quantity :=
  match Amount y with
  | None => Returns q
  | Some yd => combine InfDec.Add (default zeroDec (Amount q)) (format q) yd (format y)
  end.

Definition Sub (y q : Quantity) : outcome Quantity :=
  match Amount y with
  | None => Returns q
  | Some yd => combine InfDec.Sub (default zeroDec (Amount q)) (format q) yd (format y)
  end.

Definition Neg (y : Quantity) : Quantity :=
  match Amount y with
  | None => y
  | Some yd => mkQuantity (Some (InfDec.Neg yd)) (format y)
  end.

Definition NewQuantity (value : Z) (fmt : Format) : Quantity := mkQuantity (Some (NewDec value 0)) fmt.
Definition NewMilliQuantity (value : Z) (fmt : Format) : Quantity := mkQuantity (Some (NewDec value 3)) fmt.
Definition NewScaledQuantity (value scale : Z) : Quantity :=
  mkQuantity (Some (NewDec value (infScale scale))) DecimalSI.

Definition SetScaled (value scale : Z) (q : Quantity) : Quantity :=
  mkQuantity (Some (mkDec value (infScale scale))) (format q).
Definition Set_ (value : Z) (q : Quantity) : Quantity := SetScaled value 0 q.
Definition SetMilli (value : Z) (q : Quantity) : Quantity := SetScaled value Milli q.

Definition Copy (q : Quantity) : Quantity :=
  match Amount q with
  | None => NewQuantity 0 (format q)
  | Some d => mkQuantity (Some d) (format q)
  end.

(** ** Scaled values *)

(** [int64(math.Pow10(n))]: the conversion of a float64 that does not fit is left
    to the machine. *)
Class Pow10Conv : Type := {
  int64_Pow10 : Z → Z;
  int64_Pow10_exact n : 0 <= n <= 18 → int64_Pow10 n = 10 ^ n;
}.

Definition log10MaxInt64 : Z := 19.

Section scaled.
Context `{Pow10Conv}.

Definition scaledValue (unscaled scale newScale : Z) : Z :=
  let dif := int64 (scale - newScale) in
  if Z.eqb dif 0 then int64 unscaled
  else if dif <? 0 then int64 (int64 unscaled * int64_Pow10 (int64 (- dif)))
  else if (unscaled <? 2 ^ 63 - 1) && (dif <? log10MaxInt64) then
    let divide := int64_Pow10 dif in
    let result := Z.quot (int64 unscaled) divide in
    let mod_ := Z.rem (int64 unscaled) divide in
    if negb (Z.eqb mod_ 0) then int64 (result + 1) else result
  else
    let divisor := 10 ^ dif in
    let result := unscaled / divisor in
    let remainder := unscaled mod divisor in
    if negb (Z.eqb (Z.sgn remainder) 0) then int64 (int64 result + 1) else int64 result.

Definition ScaledValue (scale : Z) (q : Quantity) : Z :=
  match Amount q with
  | None => 0
  | Some d => scaledValue (unscaled d) (InfDec.scale d) (infScale scale)
  end.

Definition Value (q : Quantity) : Z := ScaledValue 0 q.
Definition MilliValue (q : Quantity) : Z := ScaledValue Milli q.
End scaled.

(** ** Facts *)

(** *** Suffixes *)

Lemma is_char_true c d : is_char c d = true → d = c.
Proof. apply bool_decide_eq_true. Qed.

(** The shape that [splitRE] demands of a suffix. *)
Definition suffix_shape (s : string) : bool :=
  stops is_number_byte s && all_bytes plain s &&
  let rest := (span is_suffix_letter s).2 in
  all_digits (match rest with String c s => if is_sign c then s else rest | EmptyString => rest end).

Lemma lookup_shape (m : gmap string bePair) s p :
  forallb (λ sp, suffix_shape sp.1) (map_to_list m) = true → m !! s = Some p → suffix_shape s = true.
Proof.
  intros Hall Hs. rewrite forallb_forall in Hall. apply (Hall (s, p)).
  by apply list_elem_of_In, elem_of_map_to_list.
Qed.

Lemma sign_cases c : is_sign c = true → c = "+"%char ∨ c = "-"%char.
Proof. unfold is_sign. intros [?%is_char_true|?%is_char_true]%orb_prop; auto. Qed.

Lemma digit_facts c : is_digit c = true →
  is_suffix_letter c = false ∧ is_sign c = false ∧ plain c = true ∧ is_number_byte c = true.
Proof.
  intros Hc. unfold is_number_byte. rewrite Hc. split_and!; [..|done].
  - apply bool_decide_eq_false. intros Hin. revert Hc. cbn in Hin.
    rewrite !elem_of_cons, elem_of_nil in Hin.
    repeat (destruct Hin as [->|Hin]; [done|]). done.
  - apply not_true_is_false. by intros [->| ->]%sign_cases.
  - revert Hc. unfold is_digit, in_range, plain. cbn. rewrite !andb_true_iff, !N.leb_le, !N.ltb_lt. lia.
Qed.

Lemma unsigned_digits t z : unsigned t = Some z → ∃ c s, t = String c s ∧ all_digits t = true.
Proof.
  unfold unsigned. case_bool_decide; [done|]. destruct (all_digits t) eqn:Hd; [|done].
  intros _. destruct t as [|c s]; [done|]. eauto.
Qed.

(** An exponent has the shape of one. *)
Lemma exponent_shape c digits z : is_char "E" c || is_char "e" c = true → ParseInt digits = Ok z →
  suffix_shape (String c digits) = true.
Proof.
  intros Hc Hp. unfold ParseInt in Hp. destruct (BigSetString digits) as [z'|] eqn:Hb; [|done].
  clear Hp. assert (∃ sgn t, digits = sgn +:+ t ∧ sgn ∈ [""; "+"; "-"] ∧ t ≠ "" ∧ all_digits t = true)
    as (sgn & t & -> & Hsgn & Hne & Ht).
  { destruct digits as [|d t]; [done|]. cbn in Hb. destruct (is_char "+" d) eqn:Hplus.
    { apply is_char_true in Hplus as ->. apply unsigned_digits in Hb as (? & ? & -> & Hd).
      exists "+", (String x x0). rewrite str_cons_app, str_nil_app. split_and!; [done|set_solver|done|done]. }
    destruct (is_char "-" d) eqn:Hminus.
    { apply is_char_true in Hminus as ->. apply fmap_Some in Hb as (w & Hb & _).
      apply unsigned_digits in Hb as (? & ? & -> & Hd).
      exists "-", (String x x0). rewrite str_cons_app, str_nil_app. split_and!; [done|set_solver|done|done]. }
    apply unsigned_digits in Hb as (? & ? & _ & Hd).
    exists "", (String d t). rewrite str_nil_app. split_and!; [done|set_solver|done|done]. }
  destruct t as [|d t]; [done|]. pose proof Ht as Ht'. unfold all_digits in Ht'. cbn in Ht'.
  apply andb_prop in Ht' as [Hd _]. destruct (digit_facts d Hd) as (Hl & Hsg & Hpl & _).
  assert (is_suffix_letter c = true ∧ plain c = true ∧ is_number_byte c = false) as (Hcl & Hcp & Hcn).
  { apply orb_prop in Hc as [->%is_char_true| ->%is_char_true]; done. }
  unfold suffix_shape. cbn [stops span all_bytes]. rewrite Hcl, Hcp, Hcn. cbn [negb andb snd].
  rewrite all_bytes_app, (digits_plain _ Ht).
  rewrite !elem_of_cons, elem_of_nil in Hsgn.
  destruct Hsgn as [->|[->|[->|[]]]]; rewrite ?str_cons_app, ?str_nil_app; cbn [span snd].
  - rewrite Hl. cbn. by rewrite Hsg, Ht.
  - change (is_suffix_letter "+") with false. cbn. change (is_sign "+") with true. cbn iota. by rewrite Ht.
  - change (is_suffix_letter "-") with false. cbn. change (is_sign "-") with true. cbn iota. by rewrite Ht.
Qed.

Lemma interpret_shape s r : interpret s = Some r → suffix_shape s = true.
Proof.
  unfold interpret, lookup_suffix. destruct (suffixToBE _ !! s) as [[b e]|] eqn:Hdec.
  { intros _. by eapply lookup_shape, Hdec; vm_compute. }
  clear Hdec. destruct (suffixToBE _ !! s) as [[b e]|] eqn:Hbin.
  { intros _. by eapply lookup_shape, Hbin; vm_compute. }
  clear Hbin. destruct s as [|c [|d s]]; [done..|].
  destruct (is_char "E" c || is_char "e" c) eqn:Hc; [|done].
  destruct (ParseInt (String d s)) as [z|] eqn:Hz; [|done]. intros _. by eapply exponent_shape.
Qed.

(** *** Splitting *)

Lemma number_bytes ip fp : all_digits (ip +:+ default "" fp) = true →
  all_bytes is_number_byte (number "" ip fp) = true ∧ all_bytes plain (number "" ip fp) = true.
Proof.
  unfold all_digits, number. rewrite all_bytes_app, str_nil_app. intros [Hi Hf]%andb_prop.
  assert (∀ s, all_bytes is_digit s = true →
    all_bytes is_number_byte s = true ∧ all_bytes plain s = true) as Hd.
  { intros s Hs. split; (eapply all_bytes_weaken; [|exact Hs]); intros c Hc;
      by destruct (digit_facts c Hc) as (? & ? & ? & ?). }
  destruct (Hd ip Hi) as [H1 H2]. destruct (Hd _ Hf) as [H3 H4].
  rewrite !all_bytes_app, H1, H2. destruct fp as [fp|]; cbn [default] in *; [|done].
  unfold id in *. rewrite str_cons_app, str_nil_app. cbn. by rewrite H3, H4.
Qed.

Lemma split_number sign ip fp suffix : sign ∈ [""; "+"; "-"] →
  all_digits (ip +:+ default "" fp) = true → ip +:+ default "" fp ≠ "" → suffix_shape suffix = true →
  split (TrimSpace (number sign ip fp +:+ suffix)) = Some (number sign ip fp, suffix).
Proof.
  intros Hs Hd Hne Hshape. destruct (number_bytes ip fp Hd) as [Hnb Hpl].
  unfold suffix_shape in Hshape. apply andb_prop in Hshape as [[Hst Hsp]%andb_prop Hrest].
  assert (number sign ip fp = sign +:+ number "" ip fp) as Hn by (unfold number; by rewrite str_nil_app).
  rewrite TrimSpace_plain.
  2: { rewrite Hn, !all_bytes_app, Hpl, Hsp, !andb_true_r.
       rewrite !elem_of_cons, elem_of_nil in Hs. by destruct Hs as [->|[->|[->|[]]]]. }
  assert (∃ c t, number "" ip fp = String c t ∧ is_sign c = false) as (c & t & Hct & Hc).
  { destruct (number "" ip fp) as [|c t] eqn:E.
    - exfalso. apply Hne. unfold number in E. rewrite str_nil_app in E.
      apply str_app_nil_inv in E as [-> E]. by destruct fp.
    - exists c, t. split; [done|]. cbn in Hnb. apply andb_prop in Hnb as [Hc _].
      apply not_true_is_false. by intros [->| ->]%sign_cases. }
  unfold split. rewrite Hn, str_app_assoc'.
  assert (match sign +:+ number "" ip fp +:+ suffix with
    | String c s => if is_sign c then (String c "", s) else ("", sign +:+ number "" ip fp +:+ suffix)
    | "" => ("", sign +:+ number "" ip fp +:+ suffix)
    end = (sign, number "" ip fp +:+ suffix)) as ->.
  { rewrite !elem_of_cons, elem_of_nil in Hs.
    destruct Hs as [->|[->|[->|[]]]]; rewrite ?str_cons_app, ?str_nil_app; [|done..].
    rewrite Hct, str_cons_app. cbn. by rewrite Hc. }
  rewrite span_app by done. rewrite bool_decide_eq_false_2 by (by rewrite Hct).
  by rewrite Hrest.
Qed.

(** Suffixes and numbers have no quotes. *)
Definition unquoted : string → bool := all_bytes (λ c, negb (is_char quote c)).

Lemma digits_unquoted s : all_digits s = true → unquoted s = true.
Proof.
  apply all_bytes_weaken. intros c Hc. apply negb_true_iff, not_true_is_false.
  by intros ->%is_char_true.
Qed.

Lemma FormatInt_unquoted z : unquoted (FormatInt z) = true.
Proof.
  destruct (Z.lt_ge_cases z 0).
  - rewrite FormatInt_neg by done. unfold unquoted. rewrite all_bytes_app.
    apply digits_unquoted, FormatInt_digits. lia.
  - by apply digits_unquoted, FormatInt_digits.
Qed.

Lemma construct_unquoted b e f s : construct b e f = (s, true) → unquoted s = true.
Proof.
  assert (∀ m : gmap bePair string, forallb (λ ps, unquoted ps.2) (map_to_list m) = true →
    ∀ p s, m !! p = Some s → unquoted s = true) as Hall.
  { intros m Hm p' s' Hp. rewrite forallb_forall in Hm. apply (Hm (p', s')).
    by apply list_elem_of_In, elem_of_map_to_list. }
  destruct f; cbn [construct]; unfold list_construct; intros Hs.
  - destruct (negb _); [done|]. destruct (Z.eqb e 0); injection Hs as <-; [done|].
    rewrite str_cons_app, str_nil_app. apply FormatInt_unquoted.
  - destruct (_ !! _) as [s'|] eqn:Hl; [|done]. injection Hs as <-. by eapply Hall, Hl; vm_compute.
  - destruct (_ !! _) as [s'|] eqn:Hl; [|done]. injection Hs as <-. by eapply Hall, Hl; vm_compute.
  - done.
Qed.

(** *** Bounds *)

(** A decimal in billionths, rounded away from zero. *)
Definition nanos (d : Dec) : Z :=
  if scale d <=? 9 then at_scale d 9 else up_div (unscaled d) (10 ^ (scale d - 9)).

Definition maxNanos : Z := (2 ^ 63 - 1) * 10 ^ 9.

Definition capped (z : Z) : Z := Z.max (- maxNanos) (Z.min maxNanos z).

(** Amounts below one are decimal. *)
Definition parsedFormat (fmt : Format) (z : Z) : Format :=
  if bool_decide (fmt = BinarySI) && (Z.abs z <? 10 ^ 9) && negb (Z.eqb z 0) then DecimalSI else fmt.

Lemma maxAllowed_nanos : at_scale maxAllowed 9 = maxNanos.
Proof. done. Qed.

Lemma up_div_sgn u e : 0 < e → (0 <= u → 0 <= up_div u e) ∧ up_div (- u) e = - up_div u e.
Proof.
  intros He. unfold up_div. split.
  - intros Hu. apply Z.mul_nonneg_nonneg; [lia|]. apply Z.div_pos; lia.
  - rewrite Z.sgn_opp, Z.abs_opp. lia.
Qed.

Lemma at_scale_nonneg d s : 0 <= unscaled d → 0 <= at_scale d s.
Proof. intros Hd. apply Z.mul_nonneg_nonneg; [done|]. apply Z.pow_nonneg. lia. Qed.

Lemma nanos_sgn d : (0 <= unscaled d → 0 <= nanos d) ∧ nanos (InfDec.Neg d) = - nanos d.
Proof.
  unfold nanos. cbn [InfDec.Neg scale unscaled]. destruct (Z.leb_spec (scale d) 9).
  - split; [apply at_scale_nonneg|apply Neg_ok].
  - apply up_div_sgn, pow10_pos. lia.
Qed.

Lemma nanos_exact d : scale d <= 9 → nanos d = at_scale d 9.
Proof. intros Hd. unfold nanos. by rewrite (proj2 (Z.leb_le _ _)). Qed.

Lemma nanos_zero d : unscaled d = 0 → nanos d = 0 ∧ ∀ s, at_scale d s = 0.
Proof.
  intros Hd. unfold nanos, at_scale, up_div. rewrite Hd. split; [|lia].
  destruct (_ <=? _); [lia|done].
Qed.

Lemma compare_zero z : bool_decide (Z.compare z 0 = Gt) = (0 <? z).
Proof. destruct z; done. Qed.

Lemma compare_lt x y : bool_decide (Z.compare x y = Lt) = (x <? y).
Proof. unfold Z.ltb. by destruct (Z.compare x y). Qed.

(** Amounts that are exact in billionths. *)
Definition exact (d : Dec) : Prop := small (scale d) ∧ (scale d <= 9 ∨ unscaled d = 0).

(** Amounts within the bounds, as every parsed one. *)
Definition bounded (d : Dec) : Prop := exact d ∧ Z.abs (nanos d) <= maxNanos.

Lemma exact_nanos d : exact d → at_scale d 9 = nanos d.
Proof. intros [_ [Hd|Hd]]; [by rewrite nanos_exact|]. by destruct (nanos_zero d Hd) as [-> ->]. Qed.

Lemma exact_at_scale d s : exact d → Z.max 9 (scale d) <= s → at_scale d s = nanos d * 10 ^ (s - 9).
Proof.
  intros [_ [Hd|Hd]] Hs; [|by destruct (nanos_zero d Hd) as [-> ->]].
  rewrite nanos_exact by done. apply at_scale_up. lia.
Qed.

Lemma Cmp_exact x y : exact x → exact y → InfDec.Cmp x y = Returns (Z.compare (nanos x) (nanos y)).
Proof.
  intros Hx Hy. set (s := Z.max 9 (Z.max (scale x) (scale y))).
  assert (Z.max 9 (scale x) <= s ∧ Z.max 9 (scale y) <= s ∧ 0 <= s - 9) as (Hxs & Hys & Hs) by (unfold s; lia).
  rewrite (Cmp_ok x y s) by (apply Hx || apply Hy || lia). f_equal.
  rewrite !exact_at_scale by done. symmetry. by apply Zmult_compare_compat_r, Z.lt_gt, pow10_pos.
Qed.

Lemma exact_const c : exact (NewDec c 0) ∧ nanos (NewDec c 0) = c * 10 ^ 9.
Proof. split; [|done]. split; cbn; [by split|by left]. Qed.

Lemma bounded_const c : Z.abs c <= 2 ^ 63 - 1 → bounded (NewDec c 0).
Proof.
  intros Hc. destruct (exact_const c) as [He Hn]. split; [done|]. rewrite Hn. unfold maxNanos. lia.
Qed.

Lemma Cmp_const d c : exact d → InfDec.Cmp d (NewDec c 0) = Returns (Z.compare (nanos d) (c * 10 ^ 9)).
Proof. intros Hd. destruct (exact_const c) as [Hc <-]. by apply Cmp_exact. Qed.

Lemma exact_neg d : exact d → exact (InfDec.Neg d).
Proof. intros [Hs [Hd|Hd]]; split; cbn; [done|by left|done|right]. lia. Qed.

Lemma capAmount_ok d : small (scale d) → 0 <= unscaled d →
  ∃ d', capAmount d = Returns d' ∧ exact d' ∧ nanos d' = Z.min maxNanos (nanos d).
Proof.
  intros Hs Hd. unfold capAmount, Unscaled.
  assert (∃ r, (if negb (Z.eqb (int64 (unscaled d)) 0) || negb (bool_decide (int64 (unscaled d) = unscaled d))
    then rounded ← Round d (infScale Nano) RoundUp;
         match rounded with Some amount => Returns amount | None => Returns d end
    else Returns d) = Returns r ∧ exact r ∧ nanos r = nanos d) as (r & -> & Hr & Hn).
  { destruct (negb _ || _) eqn:E.
    - change (infScale Nano) with 9. rewrite Round_up_ok by (done || by split). cbn.
      eexists. split; [done|]. split; [split; cbn; [by split|left; lia]|].
      rewrite (nanos_exact (mkDec _ 9)) by (cbn; lia). apply (at_scale_self (mkDec _ 9)).
    - exists d. split; [done|]. split; [|done]. split; [done|right].
      apply orb_false_elim in E as [E1%negb_false_iff%Z.eqb_eq E2%negb_false_iff%bool_decide_eq_true]. lia. }
  cbn [mbind outcome_bind]. unfold maxAllowed. rewrite Cmp_const by done. cbn [mbind outcome_bind].
  eexists. split; [done|]. rewrite Hn. fold maxNanos. case_bool_decide as Hc.
  - apply Z.compare_gt_iff in Hc. split; [split; cbn; [by split|left; lia]|]. rewrite Z.min_l by lia. done.
  - split; [done|]. rewrite Z.min_r; [done|]. apply Z.nlt_ge. intros ?. by apply Hc, Z.compare_gt_iff.
Qed.

(** Without an assumption on the scale: the bounds that a cap leaves. *)
Lemma quoRem_nonneg x y s : 0 <= unscaled x → 0 < unscaled y →
  match quoRem x y s with
  | Returns (q, rA, rB) => scale q = s ∧ 0 <= unscaled q ∧ 0 <= rA ∧ 0 < rB
  | Panics => True
  end.
Proof.
  intros Hx Hy. unfold quoRem, exp10. set (shift := int32 _).
  assert (∀ ix iy, 0 <= ix → 0 < iy →
    match (if Z.eqb iy 0 then Panics else Returns (mkDec (Z.quot ix iy) s, Z.rem ix iy, iy)) with
    | Returns (q, rA, rB) => scale q = s ∧ 0 <= unscaled q ∧ 0 <= rA ∧ 0 < rB
    | Panics => True
    end) as H.
  { intros ix iy Hix Hiy. rewrite (proj2 (Z.eqb_neq iy 0)) by lia. cbn.
    split_and!; [done|by apply Z.quot_pos|by apply Z.rem_nonneg; lia|done]. }
  assert (∀ x, 0 <= x → 0 <= 10 ^ x) as Hp by (intros; apply Z.pow_nonneg; lia).
  destruct (Z.ltb_spec 0 shift); [|destruct (Z.ltb_spec shift 0)].
  - rewrite (proj2 (Z.ltb_ge _ _)) by lia. cbn [mbind outcome_bind]. apply H; [|done].
    apply Z.mul_nonneg_nonneg; [done|]. apply Hp. lia.
  - destruct (Z.ltb_spec (int32 (- shift)) 0); [done|]. cbn [mbind outcome_bind]. apply H; [done|].
    apply Z.mul_pos_pos; [done|]. by apply pow10_pos.
  - by apply H.
Qed.

Lemma capAmount_bounded d d' : 0 <= unscaled d → capAmount d = Returns d' →
  unscaled d' = 0 ∨ bounded d' ∧ (scale d' = 9 ∨ d' = maxAllowed).
Proof.
  intros Hd. unfold capAmount, Unscaled.
  assert (∀ r, (unscaled r = 0 ∨ scale r = 9 ∧ 0 <= unscaled r) →
    (c ← InfDec.Cmp r maxAllowed; Returns (if bool_decide (c = Gt) then maxAllowed else r)) = Returns d' →
    unscaled d' = 0 ∨ bounded d' ∧ (scale d' = 9 ∨ d' = maxAllowed)) as Hcap.
  { intros r Hr. destruct (InfDec.Cmp r maxAllowed) as [c|] eqn:Hc; [|done].
    cbn [mbind outcome_bind]. intros [= <-]. case_bool_decide as Hgt.
    - right. split; [|by right]. split; [apply exact_const|done].
    - destruct Hr as [Hr|[Hr Hr']]; [by left|right]. split; [|by left].
      assert (exact r) as Hex by (split; [rewrite Hr; by split|left; lia]).
      split; [done|]. unfold maxAllowed in Hc. rewrite Cmp_const in Hc by done. injection Hc as <-.
      fold maxNanos in Hgt. rewrite Z.compare_gt_iff in Hgt.
      assert (0 <= nanos r) by by apply nanos_sgn. lia. }
  destruct (negb _ || _) eqn:E.
  - unfold Round, QuoRound. pose proof (quoRem_nonneg d (NewDec 1 0) (infScale Nano) Hd ltac:(done)) as Hq.
    destruct (quoRem _ _ _) as [[[q rA] rB]|]; [|done]. destruct Hq as (Hsc & Hq & HA & HB).
    cbn [mbind outcome_bind Rounder_Round]. apply Hcap. right.
    change (infScale Nano) with 9 in Hsc. destruct (Z.sgn rA =? 0); cbn; (split; [done|]); [done|].
    apply Z.add_nonneg_nonneg; [done|]. apply Z.mul_nonneg_nonneg; apply Z.sgn_nonneg; lia.
  - cbn [mbind outcome_bind]. apply Hcap. left.
    apply orb_false_elim in E as [E1%negb_false_iff%Z.eqb_eq E2%negb_false_iff%bool_decide_eq_true]. lia.
Qed.

Lemma boundQuantity_bounded d fmt q : boundQuantity d fmt = Returns q →
  ∃ d', Amount q = Some d' ∧
    (unscaled d' = 0 ∨ bounded d' ∧ (scale d' = 9 ∨ d' = maxAllowed ∨ d' = InfDec.Neg maxAllowed)).
Proof.
  unfold boundQuantity, Sign. set (d0 := if Z.eqb (Z.sgn (unscaled d)) (-1) then InfDec.Neg d else d).
  assert (0 <= unscaled d0) as Hd0.
  { unfold d0. destruct (Z.eqb_spec (Z.sgn (unscaled d)) (-1)); cbn; lia. }
  destruct (capAmount d0) as [c|] eqn:Hc; [|done]. apply capAmount_bounded in Hc; [|done]. cbn [mbind outcome_bind].
  destruct (InfDec.Cmp c decOne); [|done]. cbn [mbind outcome_bind].
  destruct (InfDec.Cmp c zeroDec); [|done]. cbn [mbind outcome_bind].
  intros [= <-]. cbn [Amount]. eexists. split; [done|].
  destruct (Z.eqb _ (-1)); [|naive_solver].
  destruct Hc as [Hc|[[Hex Hmax] Hc]]; [left; cbn; lia|right]. split.
  - split; [by apply exact_neg|]. by rewrite (proj2 (nanos_sgn c)), Z.abs_opp.
  - destruct Hc as [Hc| ->]; auto.
Qed.

(** What parsing makes of an amount. *)
Lemma boundQuantity_ok d fmt : small (scale d) →
  ∃ d', boundQuantity d fmt = Returns (mkQuantity (Some d') (parsedFormat fmt (nanos d'))) ∧
    exact d' ∧ nanos d' = capped (nanos d).
Proof.
  intros Hs. unfold boundQuantity, Sign.
  set (d0 := if Z.eqb (Z.sgn (unscaled d)) (-1) then InfDec.Neg d else d).
  assert (small (scale d0) ∧ 0 <= unscaled d0) as [Hs0 Hd0].
  { unfold d0. destruct (Z.eqb_spec (Z.sgn (unscaled d)) (-1)); cbn; split; try done; lia. }
  destruct (capAmount_ok d0 Hs0 Hd0) as (c & -> & Hc & Hn). cbn [mbind outcome_bind].
  unfold decOne. rewrite Cmp_const by done. change zeroDec with (NewDec 0 0). rewrite Cmp_const by done.
  cbn [mbind outcome_bind]. rewrite Z.mul_1_l, Z.mul_0_l, compare_zero.
  assert (0 <= nanos c) as Hc0.
  { rewrite Hn. apply Z.min_glb; [done|]. by apply nanos_sgn. }
  set (f := parsedFormat fmt (nanos c)).
  assert ((if bool_decide (fmt = BinarySI) && bool_decide (Z.compare (nanos c) (10 ^ 9) = Lt) && (0 <? nanos c)
    then DecimalSI else fmt) = f) as ->.
  { unfold f, parsedFormat. rewrite Z.abs_eq, compare_lt by done.
    by replace (0 <? nanos c) with (negb (nanos c =? 0)) by (zcases; cbn; lia). }
  unfold d0 in Hn. destruct (Z.eqb_spec (Z.sgn (unscaled d)) (-1)) as [Hneg|Hpos].
  - exists (InfDec.Neg c). split; [|split; [by apply exact_neg|]].
    + do 2 f_equal. unfold f, parsedFormat. rewrite (proj2 (nanos_sgn c)), Z.abs_opp. do 3 f_equal.
      destruct (Z.eqb_spec (nanos c) 0), (Z.eqb_spec (- nanos c) 0); try done; lia.
    + rewrite (proj2 (nanos_sgn c)), Hn, (proj2 (nanos_sgn d)). unfold capped.
      assert (0 <= nanos (InfDec.Neg d)) as Hd1 by (apply nanos_sgn; cbn; lia).
      rewrite (proj2 (nanos_sgn d)) in Hd1. unfold maxNanos. lia.
  - exists c. split; [done|]. split; [done|]. rewrite Hn. unfold capped.
    assert (0 <= nanos d) by (apply nanos_sgn; lia). unfold maxNanos. lia.
Qed.

(** *** Parsing *)

Lemma lookup_all (P : bePair → bool) (m : gmap string bePair) s p :
  forallb (λ sp, P sp.2) (map_to_list m) = true → m !! s = Some p → P p = true.
Proof.
  intros Hall Hs. rewrite forallb_forall in Hall. apply (Hall (s, p)).
  by apply list_elem_of_In, elem_of_map_to_list.
Qed.

Lemma interpret_base s b e f : interpret s = Some (b, e, f) → b = 10 ∨ b = 2 ∧ 0 <= e <= 60.
Proof.
  set (P := λ be : bePair, Z.eqb be.1 10 || Z.eqb be.1 2 && (0 <=? be.2) && (be.2 <=? 60)).
  assert (∀ be, P be = true → be.1 = 10 ∨ be.1 = 2 ∧ 0 <= be.2 <= 60) as HP.
  { intros [b' e']. unfold P. cbn. intros [H|H]%orb_prop; [left; by apply Z.eqb_eq|right].
    rewrite !andb_true_iff, Z.eqb_eq, !Z.leb_le in H. lia. }
  unfold interpret, lookup_suffix. destruct (suffixToBE _ !! s) as [be|] eqn:Hdec.
  { destruct be. intros [= -> -> _]. apply (HP (b, e)). by eapply (lookup_all P), Hdec; vm_compute. }
  clear Hdec. destruct (suffixToBE _ !! s) as [be|] eqn:Hbin.
  { destruct be. intros [= -> -> _]. apply (HP (b, e)). by eapply (lookup_all P), Hbin; vm_compute. }
  clear Hbin. destruct s as [|c [|d s]]; [done..|].
  destruct (_ || _); [|done]. destruct (ParseInt _); [|done]. intros [= <- <- <-]. by left.
Qed.

(** The decimal that a number with a suffix denotes. *)
Definition denoted (sign ip : string) (fp : option string) (base exponent : Z) : Dec :=
  let v := signed sign (digits_value 0 (ip +:+ default "" fp)) in
  let places := Z.of_nat (String.length (default "" fp)) in
  if Z.eqb base 10 then mkDec v (places - exponent) else mkDec (v * 2 ^ exponent) places.

Lemma ParseQuantity_ok sign ip fp suffix b e f : sign ∈ [""; "+"; "-"] →
  all_digits (ip +:+ default "" fp) = true → ip +:+ default "" fp ≠ "" →
  Z.of_nat (String.length (default "" fp)) < 2 ^ 29 → - 2 ^ 29 < e < 2 ^ 29 →
  interpret suffix = Some (b, e, f) →
  ∃ d, ParseQuantity (number sign ip fp +:+ suffix) =
      Returns (Ok (mkQuantity (Some d) (parsedFormat f (nanos d)))) ∧
    exact d ∧ nanos d = capped (nanos (denoted sign ip fp b e)).
Proof.
  intros Hs Hd Hne Hlen He Hint. pose proof (interpret_shape _ _ Hint) as Hshape.
  unfold ParseQuantity. rewrite split_number, SetString_number, Hint by (done || lia).
  assert (applySuffix b e (mkDec (signed sign (digits_value 0 (ip +:+ default "" fp)))
    (Z.of_nat (String.length (default "" fp)))) = denoted sign ip fp b e) as ->.
  { unfold applySuffix, denoted, SetScale, infScale. cbn [scale unscaled].
    destruct (Z.eqb_spec b 10) as [->|Hb].
    - rewrite (int32_id (- e)), int32_id by lia. f_equal.
    - destruct (interpret_base _ _ _ _ Hint) as [?|[-> ?]]; [done|]. rewrite Z.eqb_refl.
      by rewrite Z.shiftl_1_l. }
  destruct (boundQuantity_ok (denoted sign ip fp b e) f) as (d & -> & Hex & Hn).
  { unfold denoted, small. destruct (Z.eqb b 10); cbn [scale]; lia. }
  exists d. done.
Qed.

(** What the suffixes mean: powers of a thousand and of 1024 by their SI names, and decimal
    exponents. *)
Definition decimal_suffixes : list (string * Z) :=
  [("n", -9); ("u", -6); ("m", -3); ("", 0); ("k", 3); ("M", 6); ("G", 9); ("T", 12); ("P", 15); ("E", 18)].
Definition binary_suffixes : list (string * Z) :=
  [("Ki", 10); ("Mi", 20); ("Gi", 30); ("Ti", 40); ("Pi", 50); ("Ei", 60)].

Inductive suffix_means : string → Z → Z → Format → Prop :=
| means_decimal s x : (s, x) ∈ decimal_suffixes → suffix_means s 10 x DecimalSI
| means_binary s x : (s, x) ∈ binary_suffixes → suffix_means s 2 x BinarySI
| means_exponent e sign digits : e ∈ ["e"; "E"] → sign ∈ [""; "+"; "-"] → all_digits digits = true → digits ≠ "" →
    - 2 ^ 63 <= signed sign (digits_value 0 digits) < 2 ^ 63 →
    suffix_means (e +:+ sign +:+ digits) 10 (signed sign (digits_value 0 digits)) DecimalExponent.

(** An exponent is not among the SI suffixes. *)
Lemma exponent_not_listed c d s : c = "e"%char ∨ c = "E"%char → is_digit d || is_sign d = true →
  lookup_suffix (String c (String d s)) (decSuffixes quantitySuffixer) = None ∧
  lookup_suffix (String c (String d s)) (binSuffixes quantitySuffixer) = None.
Proof.
  intros Hc Hd. unfold lookup_suffix.
  assert (∀ m : gmap string bePair, forallb (λ sp, match sp.1 with String _ (String d' _) => negb (is_digit d' || is_sign d') | _ => true end)
    (map_to_list m) = true → m !! String c (String d s) = None) as Hnone.
  { intros m Hm. rewrite <- not_elem_of_dom. intros [p Hp]%elem_of_dom. rewrite forallb_forall in Hm.
    specialize (Hm (_, p) (proj1 (list_elem_of_In _ _) (proj2 (elem_of_map_to_list _ _ _) Hp))). cbn in Hm. by rewrite Hd in Hm. }
  split; apply Hnone; by vm_compute.
Qed.

Lemma suffix_means_interpret suffix b e f : suffix_means suffix b e f → interpret suffix = Some (b, e, f).
Proof.
  intros H. destruct H as [s x Hin|s x Hin|e sign digits He Hs Hd Hne Hr].
  - unfold decimal_suffixes in Hin. rewrite !elem_of_cons, elem_of_nil in Hin. by repeat (destruct Hin as [[= -> ->]|Hin]; [by vm_compute|]).
  - unfold binary_suffixes in Hin. rewrite !elem_of_cons, elem_of_nil in Hin. by repeat (destruct Hin as [[= -> ->]|Hin]; [by vm_compute|]).
  - assert (ParseInt (sign +:+ digits) = Ok (signed sign (digits_value 0 digits))) as Hp.
    { unfold ParseInt. rewrite BigSetString_signed by done.
      rewrite (proj2 (Z.ltb_ge _ _)), (proj2 (Z.leb_gt _ _)) by apply Hr. done. }
    assert (∃ c, e = String c "" ∧ (c = "e"%char ∨ c = "E"%char)) as (c & -> & Hc).
    { rewrite !elem_of_cons, elem_of_nil in He. destruct He as [->|[->|[]]]; eauto. }
    assert (∃ d s, sign +:+ digits = String d s ∧ is_digit d || is_sign d = true) as (d & s & E & Hds).
    { destruct digits as [|d digits]; [done|]. unfold all_digits in Hd. cbn in Hd. apply andb_prop in Hd as [Hd _].
      rewrite !elem_of_cons, elem_of_nil in Hs. destruct Hs as [->|[->|[->|[]]]]; do 2 eexists; (split; [done|]); [by rewrite Hd|done..]. }
    rewrite E in Hp |- *. rewrite str_cons_app, str_nil_app. destruct (exponent_not_listed c d s Hc Hds) as [H1 H2].
    unfold interpret. rewrite H1, H2, Hp. by destruct Hc as [-> | ->].
Qed.

(** A suffix is read back as it was written. *)
Lemma interpret_DecimalSI x : -9 <= x <= 18 → x mod 3 = 0 →
  ∃ s, construct 10 x DecimalSI = (s, true) ∧ interpret s = Some (10, x, DecimalSI).
Proof.
  intros Hx Hm. assert (x ∈ [-9; -6; -3; 0; 3; 6; 9; 12; 15; 18]) as Hin.
  { rewrite !elem_of_cons. pose proof (Z.div_mod x 3). assert (-3 <= x / 3 <= 6); [|lia].
    split; [apply Z.div_le_lower_bound; lia|]. apply Z.lt_succ_r, Z.div_lt_upper_bound; lia. }
  clear -Hin. rewrite !elem_of_cons, elem_of_nil in Hin.
  repeat (destruct Hin as [->|Hin]; [eexists; split; [vm_compute; reflexivity|vm_compute; reflexivity]|]). done.
Qed.

Lemma interpret_BinarySI k : 1 <= k <= 6 →
  ∃ s, construct 2 (k * 10) BinarySI = (s, true) ∧ interpret s = Some (2, k * 10, BinarySI).
Proof.
  intros Hk. assert (k ∈ [1; 2; 3; 4; 5; 6]) as Hin by (rewrite !elem_of_cons; lia).
  clear -Hin. rewrite !elem_of_cons, elem_of_nil in Hin.
  repeat (destruct Hin as [->|Hin]; [eexists; split; [vm_compute; reflexivity|vm_compute; reflexivity]|]). done.
Qed.

Lemma interpret_DecimalExponent x : - 2 ^ 63 <= x < 2 ^ 63 → x ≠ 0 →
  interpret ("e" +:+ FormatInt x) = Some (10, x, DecimalExponent).
Proof.
  intros Hx Hx0. rewrite str_cons_app, str_nil_app. unfold interpret, lookup_suffix.
  assert (∀ m : gmap string bePair,
    forallb (λ sp, match sp.1 with String "e" _ => false | _ => true end) (map_to_list m) = true →
    m !! String "e" (FormatInt x) = None) as Hnone.
  { intros m Hm. rewrite <- not_elem_of_dom. intros [p Hp]%elem_of_dom.
    rewrite forallb_forall in Hm. by specialize (Hm (_, p) (proj1 (list_elem_of_In _ _) (proj2 (elem_of_map_to_list _ _ _) Hp))). }
  rewrite !Hnone by by vm_compute. pose proof (ParseInt_FormatInt x Hx) as Hp.
  destruct (FormatInt x) as [|c s]; [done|]. cbn. by rewrite Hp.
Qed.

(** *** The canonical form *)

Lemma removeFactors_ok fuel : ∀ d f times, 2 <= f → d ≠ 0 → Z.abs d < 2 ^ Z.of_nat fuel →
  let '(r, t) := removeFactors fuel d f times in
  times <= t ∧ d = r * f ^ (t - times) ∧ r mod f ≠ 0.
Proof.
  induction fuel as [|fuel IH]; intros d f times Hf Hd Hlt; [cbn in Hlt; lia|].
  cbn [removeFactors]. rewrite (proj2 (Z.eqb_neq d 0)) by done.
  destruct (Z.eqb_spec (d mod f) 0) as [Hm|Hm]; cbn [negb].
  - apply Z.div_exact in Hm; [|lia].
    assert (d / f ≠ 0) as Hne by (intros E; rewrite E in Hm; lia).
    assert (Z.abs (d / f) < 2 ^ Z.of_nat fuel) as Hlt'.
    { rewrite Nat2Z.inj_succ, Z.pow_succ_r in Hlt by lia.
      assert (Z.abs d = f * Z.abs (d / f)) by (rewrite Hm at 1; rewrite Z.abs_mul; lia). nia. }
    specialize (IH (d / f) f (times + 1) Hf Hne Hlt').
    destruct (removeFactors fuel (d / f) f (times + 1)) as [r t]. destruct IH as (Ht & Hr & Hrm).
    split_and!; [lia| |done]. rewrite Hm, Hr. replace (t - times) with (Z.succ (t - (times + 1))) by lia.
    rewrite Z.pow_succ_r by lia. ring.
  - split_and!; [lia| |done]. rewrite Z.sub_diag, Z.pow_0_r. lia.
Qed.

Lemma factorFuel_enough d : Z.abs d < 2 ^ Z.of_nat (factorFuel d).
Proof.
  unfold factorFuel. rewrite Z2Nat.id by (pose proof (Z.log2_nonneg (Z.abs d)); lia).
  destruct (Z.eq_dec d 0) as [->|]; [done|]. apply Z.log2_spec. lia.
Qed.

Lemma rem3 x : Z.eqb (Z.rem x 3) 0 = Z.eqb (x mod 3) 0.
Proof.
  apply eq_iff_eq_true. rewrite !Z.eqb_eq. rewrite Z.rem_divide, Z.mod_divide by lia. done.
Qed.

Lemma alignExponent_ok a x :
  alignExponent 3 a x = (a * 10 ^ (x mod 3), x - x mod 3).
Proof.
  assert (∀ fuel a x, x mod 3 = 0 → alignExponent fuel a x = (a, x)) as Hstop.
  { intros fuel a' x' Hx. destruct fuel; cbn; [done|]. by rewrite rem3, Hx. }
  assert (∀ fuel a x, x mod 3 ≠ 0 → alignExponent (S fuel) a x = alignExponent fuel (a * 10) (x - 1)) as Hgo.
  { intros fuel a' x' Hx. cbn [alignExponent]. by rewrite rem3, (proj2 (Z.eqb_neq _ _)). }
  pose proof (Z.mod_pos_bound x 3). pose proof (Z.div_mod x 3).
  assert (∀ c, (x - c) mod 3 = (x mod 3 - c) mod 3) as Hc by (intros; by rewrite Zminus_mod_idemp_l).
  assert (x mod 3 = 0 ∨ x mod 3 = 1 ∨ x mod 3 = 2) as [E|[E|E]] by lia; rewrite E in Hc |- *.
  - rewrite Hstop by done. f_equal; lia.
  - rewrite Hgo, Hstop by (rewrite ?Hc, ?E; done). f_equal; lia.
  - rewrite Hgo, Hgo, Hstop by (rewrite <- ?Z.sub_add_distr, ?Hc, ?E; done). f_equal; lia.
Qed.

(** [a] with the exponent [x] is [n] billionths, and [x] is the largest such
    exponent among the multiples of three. *)
Record decimal (n a x : Z) : Prop := {
  decimal_value : n = a * 10 ^ (9 + x);
  decimal_range : -9 <= x <= 18;
  decimal_step : x mod 3 = 0;
  decimal_max a' x' : n = a' * 10 ^ (9 + x') → x' mod 3 = 0 → x' <= x;
}.

Lemma decimal_unique n a x a' x' : decimal n a x → decimal n a' x' → a = a' ∧ x = x'.
Proof.
  intros H H'. assert (x = x') as <-.
  { apply Z.le_antisymm; [eapply (decimal_max _ _ _ H')|eapply (decimal_max _ _ _ H)]; by first [apply H|apply H']. }
  split; [|done]. destruct H as [Hv Hr _ _], H' as [Hv' _ _ _]. rewrite Hv in Hv'.
  apply Z.mul_cancel_r in Hv'; [done|]. pose proof (pow10_pos (9 + x)). lia.
Qed.

(** The bounds keep exponents within the suffixes. *)
Lemma decimal_intro n a x : n ≠ 0 → Z.abs n <= maxNanos → n = a * 10 ^ (9 + x) → -9 <= x →
  x mod 3 = 0 → a mod 1000 ≠ 0 → decimal n a x.
Proof.
  intros Hn Hmax Hv Hx Hm Ha. split; [done| |done|].
  - split; [done|]. apply Z.lt_succ_r, Z.nle_gt. intros Hge.
    assert (a ≠ 0) as Ha0 by (intros ->; apply Hn; by rewrite Hv, Z.mul_0_l).
    assert (10 ^ 28 <= 10 ^ (9 + x)) as Hp by (apply Z.pow_le_mono_r; lia).
    assert (maxNanos < 10 ^ 28) as Hlt by done. clear -Hmax Hv Ha0 Hp Hlt. subst n. rewrite Z.abs_mul in Hmax.
    revert Hmax Hp Hlt. generalize (10 ^ (9 + x)) (10 ^ 28) maxNanos. intros. nia.
  - intros a' x' Hv' Hm'. apply Z.nlt_ge. intros Hlt. apply Ha.
    assert (x + 3 <= x') as Hle.
    { pose proof (Z.div_mod x 3 ltac:(lia)). pose proof (Z.div_mod x' 3 ltac:(lia)). lia. }
    rewrite Hv in Hv'. replace (9 + x') with (x' - x - 3 + 3 + (9 + x)) in Hv' by lia.
    rewrite (Z.pow_add_r 10 _ (9 + x)), (Z.pow_add_r 10 _ 3), !Z.mul_assoc in Hv' by lia.
    pose proof (pow10_pos (9 + x) ltac:(lia)).
    apply Z.mul_cancel_r in Hv'; [|lia]. rewrite Hv'. by apply Z.mod_mul.
Qed.

Lemma canonicalDecimal_ok d fmt : exact d → nanos d ≠ 0 → Z.abs (nanos d) <= maxNanos →
  ∃ a x, canonicalDecimal d fmt = (FormatInt a, (construct 10 x fmt).1) ∧ decimal (nanos d) a x.
Proof.
  intros [Hs Hd] Hn Hmax. assert (unscaled d ≠ 0) as Hu by (intros E; by destruct (nanos_zero d E)).
  destruct Hd as [Hd|]; [|done]. unfold canonicalDecimal.
  pose proof (removeFactors_ok _ (unscaled d) 10 0 ltac:(lia) Hu (factorFuel_enough _)) as Hr.
  destruct (removeFactors _ _ 10 0) as [r t]. destruct Hr as (Ht & Hr & Hrm). rewrite Z.sub_0_r in Hr.
  assert (int32 (- scale d) = - scale d) as -> by (apply int32_id; unfold small in Hs; lia).
  rewrite alignExponent_ok. set (y := - scale d + t). do 2 eexists. split; [done|].
  pose proof (Z.mod_pos_bound y 3 ltac:(lia)). pose proof (Z.div_mod y 3 ltac:(lia)).
  apply decimal_intro; [done|done| | | |].
  - rewrite nanos_exact by done. unfold at_scale. rewrite Hr.
    rewrite <- !Z.mul_assoc, <- !Z.pow_add_r by (unfold y in *; lia). do 2 f_equal. unfold y. lia.
  - unfold y in *. lia.
  - rewrite Zminus_mod_idemp_r, Z.sub_diag. done.
  - intros E. apply Hrm. apply Z.mod_divide in E; [|done]. destruct E as [c E].
    assert (y mod 3 = 0 ∨ y mod 3 = 1 ∨ y mod 3 = 2) as Hy by lia.
    apply Z.mod_divide; [done|].
    destruct Hy as [Hy|[Hy|Hy]]; rewrite Hy in E; [exists (c * 100)|exists (c * 10)|exists c]; lia.
Qed.

Lemma up_div_scale u e m : 0 < e → 0 < m → up_div (u * m) (e * m) = up_div u e.
Proof.
  intros He Hm. rewrite !up_div_quot by lia. rewrite Z.quot_mul_cancel_r, Z.mul_rem_distr_r by lia.
  by rewrite Z.sgn_mul, (Z.sgn_pos m), Z.mul_1_r.
Qed.

Lemma up_div_exact n m : 0 < m → (up_div n m * m = n ↔ n mod m = 0).
Proof.
  intros Hm. rewrite up_div_quot by done. pose proof (Z.quot_rem n m ltac:(lia)) as Hqr. split.
  - intros E. apply Z.mod_divide; [lia|]. eexists. by symmetry.
  - intros E%Z.mod_divide; [|lia]. apply Z.rem_divide in E; [|lia]. rewrite E in Hqr |- *. cbn. lia.
Qed.

(** An amount rounded to a whole number. *)
Lemma Round_whole d : exact d → nanos d ≠ 0 →
  Round d 0 RoundUp = Returns (Some (NewDec (up_div (nanos d) (10 ^ 9)) 0)).
Proof.
  intros [Hs [Hd|Hd]] Hn; [|by destruct (nanos_zero d Hd)]. rewrite Round_up_ok by (done || by split).
  do 3 f_equal. rewrite nanos_exact by done. destruct (Z.leb_spec (scale d) 0).
  - rewrite (at_scale_up d 0 9) by lia. rewrite <- (Z.mul_1_l (10 ^ 9)), up_div_scale, up_div_1 by done. done.
  - rewrite Z.sub_0_r. unfold at_scale. replace (10 ^ 9) with (10 ^ scale d * 10 ^ (9 - scale d)).
    + symmetry. apply up_div_scale; apply pow10_pos; lia.
    + rewrite <- Z.pow_add_r by lia. f_equal. lia.
Qed.

(** The format: decimal where binary would be small or not whole. *)
Definition chosen (fmt : Format) (n : Z) : Format :=
  match fmt with
  | DecimalExponent | DecimalSI => fmt
  | BinarySI => if (Z.abs n <? 1024 * 10 ^ 9) || negb (Z.eqb (n mod 10 ^ 9) 0) then DecimalSI else BinarySI
  | FormatOther _ => DecimalExponent
  end.

Lemma chooseFormat_ok d fmt : exact d → nanos d ≠ 0 → chooseFormat d fmt = Returns (chosen fmt (nanos d)).
Proof.
  intros Hd Hn. destruct fmt; [done| |done..]. unfold chooseFormat, dec1024, decMinus1024.
  rewrite !Cmp_const by done. cbn [mbind outcome_bind chosen].
  assert (bool_decide (Z.compare (nanos d) (-1024 * 10 ^ 9) = Gt) &&
    bool_decide (Z.compare (nanos d) (1024 * 10 ^ 9) = Lt) = (Z.abs (nanos d) <? 1024 * 10 ^ 9)) as ->.
  { rewrite compare_lt. apply eq_iff_eq_true.
    rewrite andb_true_iff, bool_decide_eq_true, Z.compare_gt_iff, !Z.ltb_lt. lia. }
  destruct (Z.abs (nanos d) <? 1024 * 10 ^ 9); cbn [orb]; [done|].
  rewrite Round_whole by done. cbn [mbind outcome_bind].
  destruct (exact_const (up_div (nanos d) (10 ^ 9))) as [Hc Hcn].
  rewrite Cmp_exact, Hcn by done. cbn [mbind outcome_bind]. f_equal.
  destruct (Z.eqb_spec (nanos d mod 10 ^ 9) 0) as [E|E]; cbn [negb].
  - apply up_div_exact in E as ->; [|done]. by rewrite Z.compare_refl.
  - rewrite bool_decide_eq_true_2; [done|]. intros Heq%Z.compare_eq_iff. apply E. by apply up_div_exact.
Qed.

(** [a] with the suffix of [1024^k] is [n] billionths, and [k] is the largest. *)
Record binary (n a k : Z) : Prop := {
  binary_value : n = a * 1024 ^ k * 10 ^ 9;
  binary_range : 0 <= k <= 6;
  binary_max a' k' : n = a' * 1024 ^ k' * 10 ^ 9 → k' <= k;
}.

Lemma binary_unique n a k a' k' : binary n a k → binary n a' k' → a = a' ∧ k = k'.
Proof.
  intros H H'. assert (k = k') as <-.
  { apply Z.le_antisymm; [eapply (binary_max _ _ _ H')|eapply (binary_max _ _ _ H)]; by first [apply H|apply H']. }
  split; [|done]. destruct H as [Hv Hr _], H' as [Hv' _ _]. rewrite Hv in Hv'.
  apply Z.mul_cancel_r in Hv'; [|done]. apply Z.mul_cancel_r in Hv'; [done|].
  assert (0 < 1024 ^ k) by (apply Z.pow_pos_nonneg; lia). lia.
Qed.

Lemma binary_intro n a k : n ≠ 0 → Z.abs n <= maxNanos → n = a * 1024 ^ k * 10 ^ 9 → 0 <= k →
  a mod 1024 ≠ 0 → binary n a k.
Proof.
  intros Hn Hmax Hv Hk Ha. split; [done| |].
  - split; [done|]. apply Z.lt_succ_r, Z.nle_gt. intros Hge.
    assert (a ≠ 0) as Ha0 by (intros ->; apply Ha; done).
    assert (1024 ^ 7 <= 1024 ^ k) as Hp by (apply Z.pow_le_mono_r; lia).
    assert (maxNanos < 1024 ^ 7 * 10 ^ 9) as Hlt by done. assert (0 < 10 ^ 9 ∧ 0 < 1024 ^ 7) as Hpos by (split; by apply Z.pow_pos_nonneg).
    clear -Hmax Hv Ha0 Hp Hlt Hpos. subst n. rewrite <- Z.mul_assoc, Z.abs_mul in Hmax.
    revert Hmax Hp Hlt Hpos. generalize (1024 ^ k) (1024 ^ 7) (10 ^ 9) maxNanos.
    intros P Q E M Hmax Hp Hlt [HE HQ]. assert (Q * E <= P * E) by nia. rewrite (Z.abs_eq (P * E)) in Hmax by lia. nia.
  - intros a' k' Hv'. apply Z.nlt_ge. intros Hlt. apply Ha. rewrite Hv in Hv'.
    apply Z.mul_cancel_r in Hv'; [|done]. replace k' with (k' - k - 1 + 1 + k) in Hv' by lia.
    rewrite (Z.pow_add_r 1024 _ k), (Z.pow_add_r 1024 _ 1), !Z.mul_assoc in Hv' by lia.
    assert (0 < 1024 ^ k) by (apply Z.pow_pos_nonneg; lia).
    apply Z.mul_cancel_r in Hv'; [|lia]. rewrite Hv'. by apply Z.mod_mul.
Qed.

Lemma canonicalBinary_ok d : exact d → nanos d ≠ 0 → Z.abs (nanos d) <= maxNanos → nanos d mod 10 ^ 9 = 0 →
  ∃ a k, canonicalBinary d = Returns (FormatInt a, (construct 2 (k * 10) BinarySI).1) ∧ binary (nanos d) a k.
Proof.
  intros Hd Hn Hmax Hw. unfold canonicalBinary. rewrite Round_whole by done. cbn [mbind outcome_bind NewDec unscaled].
  apply up_div_exact in Hw; [|done]. set (w := up_div (nanos d) (10 ^ 9)) in *.
  assert (w ≠ 0) as Hw0 by (intros E; rewrite E in Hw; by apply Hn).
  pose proof (removeFactors_ok _ w 1024 0 ltac:(lia) Hw0 (factorFuel_enough _)) as Hr.
  destruct (removeFactors _ _ 1024 0) as [r t]. destruct Hr as (Ht & Hr & Hrm). rewrite Z.sub_0_r in Hr.
  exists r, t. split; [done|]. apply binary_intro; try done. by rewrite <- Hr.
Qed.

(** The canonical form of [n] billionths in a format. *)
Inductive printed (n : Z) : Format → string → string → Prop :=
| printed_decimal f a x suffix : f ≠ BinarySI → decimal n a x → construct 10 x f = (suffix, true) →
    printed n f (FormatInt a) suffix
| printed_whole a : binary n a 0 → printed n BinarySI (FormatInt a) ""
| printed_binary a k suffix : 1 <= k → binary n a k → construct 2 (k * 10) BinarySI = (suffix, true) →
    printed n BinarySI (FormatInt a) suffix.

Lemma construct_decimal f x : f = DecimalSI ∨ f = DecimalExponent → -9 <= x <= 18 → x mod 3 = 0 →
  ∃ suffix, construct 10 x f = (suffix, true) ∧
    interpret suffix = Some (10, x, if decide (x = 0) then DecimalSI else f).
Proof.
  intros [->| ->] Hx Hm.
  - destruct (interpret_DecimalSI x Hx Hm) as (s & ? & ?). exists s. by destruct (decide (x = 0)).
  - cbn [construct Z.eqb Pos.eqb negb]. destruct (Z.eqb_spec x 0) as [->|Hx0]; [exists ""; split; by vm_compute|].
    eexists. split; [done|]. rewrite decide_False by done. apply interpret_DecimalExponent; [lia|done].
Qed.

Lemma Canonicalize_ok d fmt : bounded d → nanos d ≠ 0 →
  ∃ number suffix, Canonicalize (mkQuantity (Some d) fmt) = Returns (number, suffix) ∧
    printed (nanos d) (chosen fmt (nanos d)) number suffix.
Proof.
  intros [Hd Hmax] Hn. unfold Canonicalize. cbn [Amount format].
  change zeroDec with (NewDec 0 0). rewrite Cmp_const by done. cbn [mbind outcome_bind].
  rewrite bool_decide_eq_false_2 by (rewrite Z.compare_eq_iff; lia).
  rewrite chooseFormat_ok by done. cbn [mbind outcome_bind].
  set (f := chosen fmt (nanos d)). destruct (decide (f = BinarySI)) as [Hb|Hb].
  - assert (nanos d mod 10 ^ 9 = 0) as Hw.
    { unfold f, chosen in Hb. destruct fmt; try done. destruct (Z.abs _ <? _); [done|].
      cbn [orb] in Hb. by destruct (Z.eqb_spec (nanos d mod 10 ^ 9) 0). }
    rewrite Hb. destruct (canonicalBinary_ok d Hd Hn Hmax Hw) as (a & k & -> & Hk).
    do 2 eexists. split; [done|]. pose proof (binary_range _ _ _ Hk) as Hr.
    destruct (decide (k = 0)) as [->|Hk0]; [by apply printed_whole|].
    destruct (interpret_BinarySI k) as (s & Hs & _); [lia|]. rewrite Hs. apply (printed_binary _ a k); [lia|done..].
  - destruct (canonicalDecimal_ok d f Hd Hn Hmax) as (a & x & Hc & Hx).
    assert (f = DecimalSI ∨ f = DecimalExponent) as Hf.
    { unfold f, chosen in *. destruct fmt; auto. destruct (_ || _); auto. done. }
    destruct (construct_decimal f x Hf (decimal_range _ _ _ Hx) (decimal_step _ _ _ Hx)) as (s & Hs & _).
    exists (FormatInt a), s. rewrite Hs in Hc. split; [by destruct Hf as [E|E]; rewrite E in *; rewrite Hc|].
    by eapply printed_decimal.
Qed.

Lemma printed_unique n f num suf num' suf' : printed n f num suf → printed n f num' suf' →
  num = num' ∧ suf = suf'.
Proof.
  intros H H'. destruct H as [f a x suf Hf Hd Hc|a Hb|a k suf Hk Hb Hc]; inversion H'; subst; try done.
  - destruct (decimal_unique n a x a0 x0) as [-> ->]; [done..|]. split; congruence.
  - by destruct (binary_unique n a 0 a0 0) as [-> _].
  - destruct (binary_unique n a 0 a0 k); [done..|lia].
  - destruct (binary_unique n a k a0 0); [done..|lia].
  - destruct (binary_unique n a k a0 k0) as [-> ->]; [done..|]. split; congruence.
Qed.

Lemma FormatInt_number z : ∃ sign ip, FormatInt z = number sign ip None ∧ sign ∈ [""; "+"; "-"] ∧
  all_digits ip = true ∧ ip ≠ "" ∧ signed sign (digits_value 0 ip) = z.
Proof.
  destruct (Z.lt_ge_cases z 0) as [Hz|Hz].
  - destruct (FormatInt_digits (- z)) as (Hne & Hd & Hv); [lia|]. exists "-", (FormatInt (- z)).
    unfold number. rewrite str_app_nil_r, Hv. split_and!; [by apply FormatInt_neg|set_solver|done|done|].
    unfold signed. rewrite decide_True by done. lia.
  - destruct (FormatInt_digits z) as (Hne & Hd & Hv); [lia|]. exists "", (FormatInt z).
    unfold number. rewrite str_app_nil_r, str_nil_app, Hv. split_and!; [done|set_solver|done|done|done].
Qed.

(** Reading an integer with a suffix. *)
Lemma ParseQuantity_FormatInt a suffix b e f : interpret suffix = Some (b, e, f) → -9 <= e <= 60 →
  let n := if Z.eqb b 10 then a * 10 ^ (9 + e) else a * 2 ^ e * 10 ^ 9 in
  Z.abs n <= maxNanos →
  ∃ d, ParseQuantity (FormatInt a +:+ suffix) = Returns (Ok (mkQuantity (Some d) (parsedFormat f n))) ∧
    bounded d ∧ nanos d = n.
Proof.
  intros Hint He n Hn. destruct (FormatInt_number a) as (sign & ip & -> & Hs & Hd & Hne & Hv).
  destruct (ParseQuantity_ok sign ip None suffix b e f) as (d & -> & Hex & Hnd); cbn [default];
    rewrite ?str_app_nil_r; try done; try lia.
  assert (nanos (denoted sign ip None b e) = n) as Hden.
  { unfold denoted, nanos, n. cbn [default]. rewrite str_app_nil_r, Hv. cbn [String.length Z.of_nat].
    destruct (Z.eqb b 10); cbn [scale unscaled].
    - rewrite (proj2 (Z.leb_le _ _)) by lia. unfold at_scale. cbn. do 2 f_equal. lia.
    - done. }
  assert (capped n = n) as Hcap by (unfold capped; lia).
  rewrite Hnd, Hden, Hcap. exists d. split; [done|]. split; [|congruence]. split; [done|]. congruence.
Qed.

Lemma printed_parse n f num suf : n ≠ 0 → Z.abs n <= maxNanos → f = chosen f n → printed n f num suf →
  ∃ d f', ParseQuantity (num +:+ suf) = Returns (Ok (mkQuantity (Some d) f')) ∧
    bounded d ∧ nanos d = n ∧ ((f = BinarySI → suf ≠ "") → printed n (chosen f' n) num suf).
Proof.
  intros Hn Hmax Hf Hp. destruct Hp as [f a x suf Hfb Hd Hc|a Hb|a k suf Hk Hb Hc].
  - assert (f = DecimalSI ∨ f = DecimalExponent) as Hf'.
    { destruct f; auto; done. }
    destruct (construct_decimal f x Hf' (decimal_range _ _ _ Hd) (decimal_step _ _ _ Hd)) as (s & Hs & Hi).
    assert (s = suf) as -> by congruence.
    destruct (ParseQuantity_FormatInt a suf 10 x _ Hi) as (d & -> & Hbd & Hnd).
    { pose proof (decimal_range _ _ _ Hd). lia. }
    { cbn [Z.eqb Pos.eqb]. by rewrite <- (decimal_value _ _ _ Hd). }
    cbn [Z.eqb Pos.eqb] in *. rewrite <- (decimal_value _ _ _ Hd) in *. do 2 eexists. split_and!; [done..|].
    intros _. assert (parsedFormat (if decide (x = 0) then DecimalSI else f) n =
      if decide (x = 0) then DecimalSI else f) as ->.
    { unfold parsedFormat. rewrite bool_decide_eq_false_2; [done|]. by destruct (decide (x = 0)). }
    destruct (decide (x = 0)) as [->|Hx]; cbn [chosen]; [|by rewrite <- Hf; eapply printed_decimal].
    eapply printed_decimal; [done..|]. destruct Hf' as [->| ->]; [done|].
    vm_compute in Hc. injection Hc as <-. by vm_compute.
  - destruct (ParseQuantity_FormatInt a "" 10 0 DecimalSI) as (d & Hpq & Hbd & Hnd); [by vm_compute|lia|..].
    { cbn [Z.eqb Pos.eqb]. rewrite (binary_value _ _ _ Hb) in Hmax. by rewrite Z.pow_0_r, Z.mul_1_r in Hmax. }
    cbn [Z.eqb Pos.eqb] in *. rewrite Hpq. do 2 eexists. split_and!; [done..| |by intros []].
    rewrite Hnd, (binary_value _ _ _ Hb), Z.pow_0_r. change (9 + 0) with 9. lia.
  - destruct (interpret_BinarySI k) as (s & Hs & Hi); [pose proof (binary_range _ _ _ Hb); lia|].
    assert (s = suf) as -> by congruence.
    assert (n = a * 2 ^ (k * 10) * 10 ^ 9) as Hv.
    { rewrite (binary_value _ _ _ Hb) at 1. change 1024 with (2 ^ 10).
      rewrite <- Z.pow_mul_r by lia. by rewrite (Z.mul_comm 10). }
    destruct (ParseQuantity_FormatInt a suf 2 (k * 10) _ Hi) as (d & -> & Hbd & Hnd).
    { pose proof (binary_range _ _ _ Hb). lia. }
    { cbn [Z.eqb Pos.eqb]. by rewrite <- Hv. }
    cbn [Z.eqb Pos.eqb] in *. rewrite <- Hv in *. do 2 eexists. split_and!; [done..|].
    intros _. assert (parsedFormat BinarySI n = BinarySI) as ->; [|by rewrite <- Hf; eapply printed_binary].
    unfold parsedFormat. cbn [chosen] in Hf. destruct (Z.ltb_spec (Z.abs n) (1024 * 10 ^ 9)); [done|].
    rewrite (proj2 (Z.ltb_ge _ _)) by lia. by rewrite andb_false_r.
Qed.

Lemma construct_none x : x < -9 ∨ 18 < x → construct 10 x DecimalSI = ("", false).
Proof.
  intros Hx. cbn [construct]. unfold list_construct.
  destruct (beToSuffix (decSuffixes quantitySuffixer) !! (10, x)) as [s|] eqn:Hs; [|done].
  assert (forallb (λ ps, (-9 <=? ps.1.2) && (ps.1.2 <=? 18)) (map_to_list (beToSuffix (decSuffixes quantitySuffixer)))
    = true) as Hall by by vm_compute.
  rewrite forallb_forall in Hall.
  specialize (Hall _ (proj1 (list_elem_of_In _ _) (proj2 (elem_of_map_to_list _ _ _) Hs))).
  cbn in Hall. apply andb_prop in Hall as [?%Z.leb_le ?%Z.leb_le]. lia.
Qed.

Lemma printed_unquoted n f num suf : printed n f num suf → unquoted (num +:+ suf) = true.
Proof.
  intros H. unfold unquoted. rewrite all_bytes_app. apply andb_true_intro.
  split; destruct H; try apply FormatInt_unquoted; try done; by eapply construct_unquoted.
Qed.

Lemma Canonicalize_zero d fmt : exact d → nanos d = 0 →
  Canonicalize (mkQuantity (Some d) fmt) = Returns ("0", "").
Proof.
  intros Hd Hn. unfold Canonicalize. cbn [Amount]. change zeroDec with (NewDec 0 0).
  by rewrite Cmp_const, Hn.
Qed.

(** A binary quantity that is a multiple of 1024 has a suffix. *)
Lemma printed_suffix n f num : f = BinarySI → n mod (1024 * 10 ^ 9) = 0 → printed n f num "" → False.
Proof.
  intros -> [c Hc]%Z.mod_divide Hp; [|done]. inversion Hp as [|a Hb|a k suf Hk Hb Hs]; subst; [done| |].
  - assert (1 <= 0); [|lia]. apply (binary_max _ _ _ Hb c). lia.
  - destruct (interpret_BinarySI k) as (s & Hs' & Hi); [pose proof (binary_range _ _ _ Hb); lia|].
    rewrite Hs in Hs'. injection Hs' as <-. by vm_compute in Hi.
Qed.

Lemma chosen_idem fmt n : chosen (chosen fmt n) n = chosen fmt n.
Proof. destruct fmt; try done. cbn [chosen]. destruct (_ || _) eqn:E; [done|]. cbn [chosen]. by rewrite E. Qed.

Lemma String_Parse_ok d fmt : bounded d →
  ∃ s d' f', Quantity_String (mkQuantity (Some d) fmt) = Returns s ∧ unquoted s = true ∧
    ParseQuantity s = Returns (Ok (mkQuantity (Some d') f')) ∧ bounded d' ∧ nanos d' = nanos d ∧
    (chosen fmt (nanos d) ≠ BinarySI ∨ nanos d mod (1024 * 10 ^ 9) = 0 →
      Quantity_String (mkQuantity (Some d') f') = Returns s).
Proof.
  intros Hd. unfold Quantity_String. destruct (Z.eq_dec (nanos d) 0) as [Hz|Hn].
  { rewrite Canonicalize_zero by (done || apply Hd). cbn [mbind outcome_bind].
    exists "0", (mkDec 0 0), DecimalSI. rewrite Hz. split_and!; [done|done|by vm_compute| |done|by vm_compute].
    split; [apply exact_const|done]. }
  destruct (Canonicalize_ok d fmt Hd Hn) as (num & suf & -> & Hp). cbn [mbind outcome_bind].
  destruct (printed_parse (nanos d) _ num suf Hn (proj2 Hd) (eq_sym (chosen_idem _ _)) Hp)
    as (d' & f' & Hq & Hb & Hn' & Hagain).
  exists (num +:+ suf), d', f'. split_and!; [done|by eapply printed_unquoted|done..|]. intros Hc.
  destruct (Canonicalize_ok d' f') as (num' & suf' & -> & Hp'); [done|by rewrite Hn'|]. cbn [mbind outcome_bind].
  rewrite Hn' in Hp'. assert (printed (nanos d) (chosen f' (nanos d)) num suf) as Hp''.
  { apply Hagain. intros Hbin ->. destruct Hc as [|Hc]; [done|]. eapply printed_suffix; [|exact Hc|exact Hp]. done. }
  by destruct (printed_unique _ _ _ _ _ _ Hp'' Hp') as [-> ->].
Qed.

(** *** Scaled values *)

(** [u * 10^(-dif)], rounded up. *)
Definition ceiling (u dif : Z) : Z := if dif <=? 0 then u * 10 ^ (- dif) else - (- u / 10 ^ dif).

Lemma ceiling_div u e : 0 < e → - (- u / e) = u / e + (if Z.eqb (u mod e) 0 then 0 else 1).
Proof.
  intros He. destruct (Z.eqb_spec (u mod e) 0) as [E|E].
  - rewrite Z.div_opp_l_z by lia. lia.
  - rewrite Z.div_opp_l_nz by lia. lia.
Qed.

Section scaled_facts.
Context `{Pow10Conv}.

Lemma scaledValue_nonneg u s n : - 2 ^ 31 <= s < 2 ^ 31 → - 2 ^ 31 <= n < 2 ^ 31 → -18 <= s - n → 0 <= u →
  scaledValue u s n = int64 (ceiling u (s - n)).
Proof.
  intros Hs Hn Hd Hu. unfold scaledValue, ceiling. rewrite (int64_id (s - n)) by lia.
  destruct (Z.eqb_spec (s - n) 0) as [->|]; [by rewrite Z.mul_1_r|].
  destruct (Z.ltb_spec (s - n) 0).
  - rewrite (int64_id (- _)), int64_Pow10_exact, int64_mul_l, (proj2 (Z.leb_le _ _)) by lia. done.
  - rewrite (proj2 (Z.leb_gt _ _)) by lia. set (e := s - n) in *.
    assert (0 < 10 ^ e) as He by (apply pow10_pos; lia). rewrite ceiling_div by done.
    destruct (Z.ltb_spec u (2 ^ 63 - 1)); [destruct (Z.ltb_spec e log10MaxInt64) as [Hlt|]|]; cbn [andb].
    + unfold log10MaxInt64 in Hlt. rewrite int64_Pow10_exact, (int64_id u) by lia.
      rewrite Z.quot_div_nonneg, Z.rem_mod_nonneg by lia.
      assert (10 <= 10 ^ e) by (change 10 with (10 ^ 1) at 1; apply Z.pow_le_mono_r; lia).
      assert (0 <= u / 10 ^ e < 2 ^ 62); [|destruct (Z.eqb_spec (u mod 10 ^ e) 0); cbn [negb]].
      * split; [apply Z.div_pos; lia|]. apply Z.div_lt_upper_bound; lia.
      * rewrite Z.add_0_r, int64_id; lia.
      * done.
    + replace (Z.sgn (u mod 10 ^ e) =? 0) with (u mod 10 ^ e =? 0) by (zcases; lia).
      destruct (u mod 10 ^ e =? 0); cbn [negb]; by rewrite ?int64_add_l, ?Z.add_0_r.
    + replace (Z.sgn (u mod 10 ^ e) =? 0) with (u mod 10 ^ e =? 0) by (zcases; lia).
      destruct (u mod 10 ^ e =? 0); cbn [negb]; by rewrite ?int64_add_l, ?Z.add_0_r.
Qed.

(** A negative numerator on the fast path: its low 64 bits are divided. *)
Lemma scaledValue_neg u s n : - 2 ^ 31 <= s < 2 ^ 31 → - 2 ^ 31 <= n < 2 ^ 31 → 0 < s - n <= 18 → u < 0 →
  scaledValue u s n = Z.quot (int64 u) (10 ^ (s - n)) +
    (if Z.eqb (Z.rem (int64 u) (10 ^ (s - n))) 0 then 0 else 1).
Proof.
  intros Hs Hn Hd Hu. unfold scaledValue. rewrite (int64_id (s - n)) by lia.
  rewrite (proj2 (Z.eqb_neq _ 0)), (proj2 (Z.ltb_ge _ 0)) by lia.
  rewrite (proj2 (Z.ltb_lt u _)), (proj2 (Z.ltb_lt _ log10MaxInt64)) by (unfold log10MaxInt64; lia).
  cbn [andb]. rewrite int64_Pow10_exact by lia. set (e := s - n) in *.
  assert (10 <= 10 ^ e) as He by (change 10 with (10 ^ 1) at 1; apply Z.pow_le_mono_r; lia).
  destruct (Z.eqb _ 0); cbn [negb]; [lia|]. apply int64_id.
  pose proof (int64_range u). pose proof (Z.quot_rem' (int64 u) (10 ^ e)).
  pose proof (Z.rem_bound_abs (int64 u) (10 ^ e)). nia.
Qed.
End scaled_facts.

(** *** Arithmetic *)

(** The value of a quantity with [s] decimal places; nil is zero. *)
Definition value (q : Quantity) (s : Z) : Z :=
  match Amount q with None => 0 | Some d => at_scale d s end.

(** A quantity whose scale is at most [s], and far from wrapping around. *)
Definition fits (s : Z) (q : Quantity) : Prop :=
  match Amount q with None => True | Some d => small (scale d) ∧ scale d <= s end.

Lemma at_scale_sign d s : scale d <= s → Z.compare (Sign d) 0 = Z.compare (at_scale d s) 0.
Proof.
  intros Hd. unfold Sign, at_scale. pose proof (pow10_pos (s - scale d) ltac:(lia)).
  destruct (Z.compare_spec (unscaled d * 10 ^ (s - scale d)) 0) as [E|E|E];
    destruct (unscaled d) as [|p|p] eqn:Eu; cbn; try done; nia.
Qed.

Lemma combine_ok op f d fmt yd yfmt s : 0 <= s → small (scale d) → scale d <= s → small (scale yd) → scale yd <= s →
  (∃ z, op d yd = Returns z ∧ scale z = Z.max (scale d) (scale yd) ∧
    ∀ s, scale z <= s → at_scale z s = f (at_scale d s) (at_scale yd s)) →
  ∃ r, combine op d fmt yd yfmt = Returns r ∧ fits s r ∧ value r s = f (at_scale d s) (at_scale yd s) ∧
    format r = if bool_decide (at_scale d s = 0 ∧ at_scale yd s ≠ 0) then yfmt else fmt.
Proof.
  intros Hs0 Hd Hds Hy Hys (z & Hz & Hzs & Hv). unfold combine.
  assert (∀ x, small (scale x) → scale x <= s → InfDec.Cmp x zeroDec = Returns (Z.compare (at_scale x s) 0)) as Hc.
  { intros x Hx Hxs. rewrite (Cmp_ok x zeroDec s); [done|done|by split|done|done]. }
  rewrite !Hc, Hz by done. cbn [mbind outcome_bind]. eexists. split; [done|].
  split; [unfold fits; cbn [Amount]; unfold small in *; lia|]. split; [apply Hv; lia|]. cbn [format].
  replace (bool_decide (at_scale d s = 0 ∧ at_scale yd s ≠ 0)) with
    (bool_decide (Z.compare (at_scale d s) 0 = Eq) && bool_decide (Z.compare (at_scale yd s) 0 ≠ Eq)); [done|].
  rewrite <- bool_decide_and. apply bool_decide_ext. by rewrite !Z.compare_eq_iff.
Qed.

Lemma arithmetic_ok q y s : 0 <= s → fits s q → fits s y →
  (∃ r, Add y q = Returns r ∧ fits s r ∧ value r s = value q s + value y s ∧
    format r = if bool_decide (value q s = 0 ∧ value y s ≠ 0) then format y else format q) ∧
  (∃ r, Sub y q = Returns r ∧ fits s r ∧ value r s = value q s - value y s ∧
    format r = if bool_decide (value q s = 0 ∧ value y s ≠ 0) then format y else format q) ∧
  value (Neg y) s = - value y s ∧ fits s (Neg y) ∧
  Cmp q y = Returns (Z.compare (value q s) (value y s)).
Proof.
  intros Hs Hq Hy. unfold Add, Sub, Neg, Cmp.
  assert (small (scale (default zeroDec (Amount q))) ∧ scale (default zeroDec (Amount q)) <= s ∧
    value q s = at_scale (default zeroDec (Amount q)) s) as (Hqs & Hqle & Hqv).
  { unfold fits, value in *. destruct (Amount q) as [d|]; [cbn; tauto|]. by split_and!; [by split|done|]. }
  destruct (Amount y) as [yd|] eqn:Ey.
  2: { assert (value y s = 0) as Hz by (unfold value; by rewrite Ey).
    rewrite Hz. split_and!; [..|done|done|].
    1,2: exists q; rewrite bool_decide_eq_false_2 by naive_solver; split_and!; [done|done|lia|done].
    unfold value, fits in *. destruct (Amount q) as [d|]; [|done]. f_equal. apply at_scale_sign. tauto. }
  assert (small (scale yd) ∧ scale yd <= s ∧ value y s = at_scale yd s) as (Hys & Hyle & Hyv).
  { unfold fits, value in *. rewrite Ey in Hy |- *. tauto. }
  rewrite Hqv, Hyv. split_and!.
  - apply (combine_ok _ Z.add); try done. by apply dec_Add_ok.
  - apply (combine_ok _ Z.sub); try done. by apply Sub_ok.
  - unfold value. cbn. apply Neg_ok.
  - done.
  - unfold fits in Hq. destruct (Amount q) as [d|]; cbn [default] in *; [by apply Cmp_ok|].
    f_equal. change (at_scale zeroDec s) with 0. rewrite (Z.compare_antisym (at_scale yd s) 0), <- at_scale_sign by done.
    by destruct (Sign yd).
Qed.

(** ** Theorems *)

(** Whatever the string, a quantity that is parsed is zero or a whole number of
    billionths of at most [2^63 - 1] in absolute value, kept with nine decimal
    places or none. *)
Theorem ParseQuantity_bounded str :
  match ParseQuantity str with
  | Returns (Ok q) => ∃ d, Amount q = Some d ∧
      (unscaled d = 0 ∨ bounded d ∧ (scale d = 9 ∨ d = maxAllowed ∨ d = InfDec.Neg maxAllowed))
  | _ => True
  end.
Proof.
  unfold ParseQuantity. destruct (split _) as [[num suf]|]; [|done].
  destruct (SetString num) as [d|]; [|done]. destruct (interpret suf) as [[[b e] f]|]; [|done].
  destruct (boundQuantity _ _) as [q|] eqn:Hb; [|done]. cbn. by eapply boundQuantity_bounded.
Qed.

(** C35: a well-formed number with less than 2^29 decimals and a suffix, an SI suffix or a decimal
    exponent below 2^29 in size, parses to the number that it denotes: exactly when it is a whole number of billionths within the
    bounds, and else rounded away from zero and capped.  A binary quantity below one is
    decimal.  (The comment on [Quantity] says that there are at most three decimal
    places, and that 0.1m is rounded up to 1m: the code keeps nine, and 0.1m is 100u.) *)
Theorem ParseQuantity_value sign ip fp suffix b e f : sign ∈ [""; "+"; "-"] →
  all_digits (ip +:+ default "" fp) = true → ip +:+ default "" fp ≠ "" →
  Z.of_nat (String.length (default "" fp)) < 2 ^ 29 → - 2 ^ 29 < e < 2 ^ 29 →
  suffix_means suffix b e f →
  ∃ d, ParseQuantity (number sign ip fp +:+ suffix) =
      Returns (Ok (mkQuantity (Some d) (parsedFormat f (nanos d)))) ∧
    exact d ∧ nanos d = capped (nanos (denoted sign ip fp b e)).
Proof. intros ????? Hm%suffix_means_interpret. by apply ParseQuantity_ok. Qed.

Lemma ParseQuantity_value_witness :
  ∃ d, ParseQuantity "-1.5Ki" = Returns (Ok (mkQuantity (Some d) (parsedFormat BinarySI (nanos d)))) ∧
    exact d ∧ nanos d = -1536 * 10 ^ 9.
Proof.
  apply (ParseQuantity_value "-" "1" (Some "5") "Ki" 2 10 BinarySI); [set_solver|by vm_compute ..|].
  apply means_binary. set_solver.
Defined.

(** What the comment on [Quantity] would round up to a thousandth. *)
Example ParseQuantity_keeps_ten_thousandths :
  match ParseQuantity "0.1m" with Returns (Ok q) => Quantity_String q | _ => Panics end = Returns "100u".
Proof. by vm_compute. Qed.

(** C34: the canonical form of a quantity within the bounds is an integer and a suffix
    that denote it exactly, with the largest suffix for which there is such an
    integer, and there is only one.  A binary quantity is printed as a decimal
    one when it is below 1024 or not whole; an unknown format as an exponent;
    zero, and nil, as "0". *)
Theorem Canonicalize_spec d fmt : bounded d →
  Canonicalize (mkQuantity None fmt) = Returns ("0", "") ∧
  (nanos d = 0 → Canonicalize (mkQuantity (Some d) fmt) = Returns ("0", "")) ∧
  (nanos d ≠ 0 → ∀ num suf,
    Canonicalize (mkQuantity (Some d) fmt) = Returns (num, suf) ↔
    printed (nanos d) (chosen fmt (nanos d)) num suf).
Proof.
  intros Hd. split; [done|]. split; [apply Canonicalize_zero, Hd|].
  intros Hn num suf. destruct (Canonicalize_ok d fmt Hd Hn) as (num' & suf' & -> & Hp). split.
  - by intros [= <- <-].
  - intros Hp'. by destruct (printed_unique _ _ _ _ _ _ Hp Hp') as [-> ->].
Qed.

Lemma Canonicalize_spec_witness :
  bounded (mkDec 1536 0) ∧
  (Canonicalize (mkQuantity (Some (mkDec 1536 0)) DecimalSI) = Returns ("1536", "") ↔
    printed (1536 * 10 ^ 9) DecimalSI "1536" "").
Proof.
  assert (bounded (mkDec 1536 0)) as Hb by (apply bounded_const; by apply Z.leb_le).
  split; [done|]. by apply (Canonicalize_spec (mkDec 1536 0) DecimalSI).
Defined.

(** C33: printing a quantity within the bounds and parsing the string gives the same
    amount, alone, through the JSON methods, and through the flag.  Printing it
    again gives the same string, unless the quantity was binary without a suffix. *)
Theorem String_ParseQuantity_roundtrip d fmt dest : bounded d →
  ∃ s d' f', Quantity_String (mkQuantity (Some d) fmt) = Returns s ∧
    ParseQuantity s = Returns (Ok (mkQuantity (Some d') f')) ∧
    (json ← MarshalJSON (mkQuantity (Some d) fmt); UnmarshalJSON json dest) =
      Returns (mkQuantity (Some d') f', None) ∧
    qFlag_Set s dest = Returns (mkQuantity (Some d') f', None) ∧
    bounded d' ∧ nanos d' = nanos d ∧
    (chosen fmt (nanos d) ≠ BinarySI ∨ nanos d mod (1024 * 10 ^ 9) = 0 →
      Quantity_String (mkQuantity (Some d') f') = Returns s).
Proof.
  intros Hd. destruct (String_Parse_ok d fmt Hd) as (s & d' & f' & Hs & Hq & Hp & Hb & Hn & Hagain).
  exists s, d', f'. unfold MarshalJSON, UnmarshalJSON, qFlag_Set. rewrite Hs. cbn [mbind outcome_bind].
  rewrite Trim_quoted by done. by rewrite Hp.
Qed.

Lemma String_ParseQuantity_roundtrip_witness :
  ∃ s d' f', Quantity_String (mkQuantity (Some (mkDec 3145728 0)) BinarySI) = Returns s ∧
    ParseQuantity s = Returns (Ok (mkQuantity (Some d') f')) ∧ bounded d'.
Proof.
  destruct (String_ParseQuantity_roundtrip (mkDec 3145728 0) BinarySI (mkQuantity None DecimalSI))
    as (s & d' & f' & ? & ? & _ & _ & ? & _); [apply bounded_const; by apply Z.leb_le|].
  by exists s, d', f'.
Defined.

(** Sums, differences, negation and comparison are those of the values, nil being
    zero; a zero receiver takes the format of what is added or subtracted. *)
Theorem arithmetic_exact q y s : 0 <= s → fits s q → fits s y →
  (∃ r, Add y q = Returns r ∧ value r s = value q s + value y s ∧
    format r = if bool_decide (value q s = 0 ∧ value y s ≠ 0) then format y else format q) ∧
  (∃ r, Sub y q = Returns r ∧ value r s = value q s - value y s ∧
    format r = if bool_decide (value q s = 0 ∧ value y s ≠ 0) then format y else format q) ∧
  value (Neg y) s = - value y s ∧
  Cmp q y = Returns (Z.compare (value q s) (value y s)).
Proof.
  intros Hs Hq Hy.
  destruct (arithmetic_ok q y s Hs Hq Hy) as ((r & Hr & _ & ?) & (r' & Hr' & _ & ?) & Hn & _ & Hc).
  split_and!; [by exists r|by exists r'|done|done].
Qed.

Lemma arithmetic_exact_witness :
  fits 3 (NewMilliQuantity 1500 DecimalSI) ∧ fits 3 (NewQuantity 2 BinarySI) ∧
  Cmp (NewMilliQuantity 1500 DecimalSI) (NewQuantity 2 BinarySI) = Returns Lt.
Proof.
  assert (fits 3 (NewMilliQuantity 1500 DecimalSI)) as Hq by (split; [by split|done]).
  assert (fits 3 (NewQuantity 2 BinarySI)) as Hy by (split; [by split|done]).
  split; [done|]. split; [done|]. etrans; [by apply (arithmetic_exact _ _ 3)|done].
Defined.

Section scaled_theorems.
Context `{Pow10Conv}.

(** [ScaledValue] of an amount that is not negative is the ceiling, modulo 2^64.
    Of a negative one with less than 19 digits to drop, the low 64 bits of the
    numerator are divided, and one is added when there is a remainder: when they
    are all of its bits, the result is the ceiling plus one unless exact. *)
Theorem ScaledValue_spec k d fmt : - 2 ^ 31 <= scale d < 2 ^ 31 → - 2 ^ 31 < k <= 2 ^ 31 → -18 <= scale d + k →
  let result := ScaledValue k (mkQuantity (Some d) fmt) in
  let divisor := 10 ^ (scale d + k) in
  (0 <= unscaled d → result = int64 (ceiling (unscaled d) (scale d + k))) ∧
  (unscaled d < 0 → 0 < scale d + k <= 18 →
    result = Z.quot (int64 (unscaled d)) divisor + (if Z.eqb (Z.rem (int64 (unscaled d)) divisor) 0 then 0 else 1)) ∧
  (- 2 ^ 63 <= unscaled d < 0 → 0 < scale d + k <= 18 →
    result = ceiling (unscaled d) (scale d + k) + (if Z.eqb (Z.rem (unscaled d) divisor) 0 then 0 else 1)).
Proof.
  intros Hs Hk Hd result divisor. unfold result, divisor, ScaledValue. cbn [Amount unscaled InfDec.scale]. unfold infScale.
  rewrite int32_id by lia. replace (scale d + k) with (scale d - - k) in * by lia. split_and!.
  - intros Hu. by rewrite scaledValue_nonneg by lia.
  - intros Hu Hd'. by rewrite scaledValue_neg by lia.
  - intros Hu Hd'. rewrite scaledValue_neg, int64_id by lia. f_equal. unfold ceiling.
    assert (0 < 10 ^ (scale d - - k)) by (apply pow10_pos; lia).
    rewrite (proj2 (Z.leb_gt _ _)), <- Z.quot_div_nonneg, Z.quot_opp_l by lia. lia.
Qed.
End scaled_theorems.

(** Powers of ten that fit, and zero for the others. *)
Definition small_powers : Pow10Conv.
Proof.
  refine {| int64_Pow10 n := if (0 <=? n) && (n <=? 18) then 10 ^ n else 0 |}.
  intros n Hn. by rewrite (proj2 (Z.leb_le 0 n)), (proj2 (Z.leb_le n 18)) by lia.
Defined.

(** Minus ten billion, as [ParseQuantity "-10G"] keeps it, has a positive [Value]. *)
Lemma ScaledValue_spec_witness :
  ParseQuantity "-10G" = Returns (Ok (mkQuantity (Some (mkDec (- 10 ^ 19) 9)) DecimalSI)) ∧
  @Value small_powers (mkQuantity (Some (mkDec (- 10 ^ 19) 9)) DecimalSI) = 8446744074 ∧
  @MilliValue small_powers (mkQuantity (Some (mkDec (-15) 4)) DecimalSI) = 0.
Proof.
  split; [by vm_compute|]. split.
  - destruct (@ScaledValue_spec small_powers 0 (mkDec (- 10 ^ 19) 9) DecimalSI) as (_ & H & _); [cbn; lia..|].
    etrans; [apply H; cbn; lia|by vm_compute].
  - destruct (@ScaledValue_spec small_powers Milli (mkDec (-15) 4) DecimalSI) as (_ & _ & H);
      [unfold Milli; cbn; lia..|]. etrans; [apply H; unfold Milli; cbn; lia|by vm_compute].
Defined.

(** An exponent for which there is no suffix is lost: [NewScaledQuantity] with a
    scale beyond those of the suffixes prints "1". *)
Theorem String_loses_scale k : small (3 * k) → k < -3 ∨ 6 < k →
  Quantity_String (NewScaledQuantity 1 (3 * k)) = Returns "1".
Proof.
  intros Hs Hk. unfold small in Hs. unfold NewScaledQuantity, infScale. rewrite int32_id by lia.
  unfold Quantity_String, Canonicalize, NewDec. cbn [Amount format chooseFormat].
  rewrite (Cmp_ok _ zeroDec (Z.max 0 (- (3 * k)))) by (unfold small; cbn [InfDec.scale zeroDec]; lia).
  cbn [mbind outcome_bind]. rewrite bool_decide_eq_false_2.
  2: { rewrite Z.compare_eq_iff. unfold at_scale. cbn [unscaled InfDec.scale zeroDec].
    pose proof (pow10_pos (Z.max 0 (- (3 * k)) - - (3 * k))). lia. }
  cbn [mbind outcome_bind]. unfold canonicalDecimal. cbn [unscaled InfDec.scale].
  change (removeFactors (factorFuel 1) 1 10 0) with (1, 0). cbn iota beta.
  rewrite Z.opp_involutive, int32_id, Z.add_0_r, alignExponent_ok by lia.
  assert (3 * k mod 3 = 0) as -> by (rewrite Z.mul_comm; by apply Z.mod_mul).
  rewrite Z.sub_0_r. cbn [mbind outcome_bind]. rewrite construct_none; [done|lia].
Qed.

Lemma String_loses_scale_witness : Quantity_String (NewScaledQuantity 1 (3 * 7)) = Returns "1".
Proof. apply (String_loses_scale 7); [by split|by right]. Defined.
