(* ===== verification/Quota.v ===== *)
(** * quota: arithmetic on lists of resources

    Models [pkg/quota/resources.go].  A [ResourceList] maps names to quantities;
    the functions range over one list and build another, and a quantity with an
    extreme scale can make them panic: they return an [outcome].

    The theorems: each function computes, whatever the order of iteration, what
    its comment says of the values of the quantities. *)

From S2P Require Import Prelude.
From S2P Require Import SetsString.
From S2P Require Import InfDec.
From S2P Require Import Quantity.

#[local] Open Scope Z_scope.

Abbreviation ResourceName := string.
Abbreviation ResourceList := (gmap string Quantity).

Section operations.
Context `{R : RangeOrder}.
Implicit Types a b : ResourceList.

(** The loops of [Equals] return at the first difference. *)
Fixpoint equalsLoop (l : list (string * Quantity)) b : outcome bool :=
  match l with
  | [] => Returns true
  | (key, value1) :: l =>
      match b !! key with
      | None => Returns false
      | Some value2 =>
          c ← Quantity.Cmp value1 value2;
          if bool_decide (c ≠ Eq) then Returns false else equalsLoop l b
      end
  end.

Definition Equals a b : outcome bool :=
  r ← equalsLoop (range_map a) b;
  if negb r then Returns false else equalsLoop (range_map b) a.

Definition LessThanOrEqual a b : outcome (bool * list ResourceName) :=
  foldM (λ '(result, resourceNames) '(key, value),
    match a !! key with
    | None => Returns (result, resourceNames)
    | Some other =>
        c ← Quantity.Cmp other value;
        Returns (if bool_decide (c = Gt) then (false, resourceNames ++ [key]) else (result, resourceNames))
    end) (range_map b) (true, []).

Definition Add a b : outcome ResourceList :=
  result ← foldM (λ result '(key, value),
    let quantity := Copy value in
    quantity ← match b !! key with
      | Some other => Quantity.Add other quantity
      | None => Returns quantity
      end;
    Returns (<[key := quantity]> result)) (range_map a) ∅;
  foldM (λ result '(key, value),
    Returns (match result !! key with
      | None => <[key := Copy value]> result
      | Some _ => result
      end)) (range_map b) result.

Definition Subtract a b : outcome ResourceList :=
  result ← foldM (λ result '(key, value),
    let quantity := Copy value in
    quantity ← match b !! key with
      | Some other => Quantity.Sub other quantity
      | None => Returns quantity
      end;
    Returns (<[key := quantity]> result)) (range_map a) ∅;
  foldM (λ result '(key, value),
    Returns (match result !! key with
      | None => <[key := Quantity.Neg value]> result
      | Some _ => result
      end)) (range_map b) result.

Definition ToSet (resourceNames : list ResourceName) : gset string :=
  foldl (λ result resourceName, Insert result [resourceName]) (NewString []) resourceNames.

Definition Mask (resources : ResourceList) (names : list ResourceName) : ResourceList :=
  let nameSet := ToSet names in
  foldl (λ result '(key, value),
    if Has nameSet key then <[key := Copy value]> result else result) ∅ (range_map resources).

Definition ResourceNames (resources : ResourceList) : list ResourceName :=
  foldl (λ result resourceName, result ++ [resourceName]) [] (range_keys resources).

Definition Contains (items : list ResourceName) (item : ResourceName) : bool := Has (ToSet items) item.

Definition Intersection (a b : list ResourceName) : list ResourceName :=
  let setC := SetsString.Intersection (ToSet a) (ToSet b) in
  foldl (λ result resourceName, result ++ [resourceName]) [] (SetsString.List setC).

Fixpoint isZeroLoop (zero : Quantity) (l : list Quantity) : outcome bool :=
  match l with
  | [] => Returns true
  | v :: l =>
      c ← Quantity.Cmp v zero;
      if bool_decide (c ≠ Eq) then Returns false else isZeroLoop zero l
  end.

Definition IsZero a : outcome bool :=
  zero ← MustParse "0"; isZeroLoop zero (range_values a).
End operations.

(** ** Facts *)

(** What a list gives for a name, with [s] decimal places; a name it does not
    have is zero. *)
Definition amount (a : ResourceList) (s : Z) (k : string) : Z :=
  match a !! k with Some q => value q s | None => 0 end.

(** Every quantity of the list has at most [s] decimal places. *)
Definition all_fit (s : Z) (a : ResourceList) : Prop := map_Forall (λ _, fits s) a.

Section facts.
Context `{R : RangeOrder}.
Implicit Types a b : ResourceList.

Lemma Copy_value q s : 0 <= s → fits s q → value (Copy q) s = value q s ∧ fits s (Copy q).
Proof.
  unfold Copy, value, fits. destruct q as [[d|] f]; cbn; [done|]. intros Hs _. split; [done|]. by split.
Qed.

Lemma Cmp_value q y s : 0 <= s → fits s q → fits s y → Quantity.Cmp q y = Returns (Z.compare (value q s) (value y s)).
Proof. intros. by apply arithmetic_ok. Qed.

(** A loop over a list without repeated keys that sets every key once. *)
Lemma foldM_insert {V} (f : string → V → outcome Quantity) (l : list (string * V)) (P : string → V → Quantity → Prop) :
  NoDup l.*1 → (∀ k v, (k, v) ∈ l → ∃ q, f k v = Returns q ∧ P k v q) →
  ∀ r : ResourceList, ∃ r', foldM (λ result '(key, v), quantity ← f key v; Returns (<[key := quantity]> result)) l r = Returns r' ∧
    ∀ k, match list_to_map (M := gmap string V) l !! k with
         | Some v => ∃ q, r' !! k = Some q ∧ P k v q
         | None => r' !! k = r !! k
         end.
Proof.
  induction l as [|[k v] l IH]; intros Hnd Hf r; cbn [foldM]; [by exists r|].
  apply NoDup_cons in Hnd as [Hk Hnd]. destruct (Hf k v) as (q & -> & Hq); [left|].
  cbn [mbind outcome_bind].
  destruct (IH Hnd (λ k' v' Hin, Hf k' v' (list_elem_of_further _ _ _ Hin)) (<[k := q]> r)) as (r' & -> & Hr').
  exists r'. split; [done|]. intros k'. specialize (Hr' k'). rewrite list_to_map_cons. destruct (decide (k = k')) as [->|Hne].
  - rewrite lookup_insert_eq. rewrite not_elem_of_list_to_map_1 in Hr' by done.
    exists q. by rewrite Hr', lookup_insert_eq.
  - rewrite lookup_insert_ne by done. destruct (list_to_map l !! k'); [done|]. by rewrite Hr', lookup_insert_ne.
Qed.

Lemma list_to_range_map {V} (m : gmap string V) : list_to_map (range_map m) = m.
Proof.
  rewrite (list_to_map_proper (range_map m) (map_to_list m)); [apply list_to_map_to_list|apply NoDup_range_keys|].
  apply range_map_perm.
Qed.

(** The second loop only fills the names that are missing. *)
Lemma fill_ok (f : Quantity → Quantity) b (r : ResourceList) :
  ∃ r' : ResourceList, foldM (λ (result : ResourceList) '(key, value),
      Returns (match result !! key with None => <[key := f value]> result | Some _ => result end)) (range_map b) r
    = Returns r' ∧
    ∀ k, r' !! k = match r !! k with Some q => Some q | None => f <$> b !! k end.
Proof.
  pose proof (NoDup_range_keys b) as Hnd. unfold range_keys in Hnd.
  pose proof (list_to_range_map b) as Hb. revert Hb Hnd. generalize (range_map b). intros l <- Hnd.
  revert r. induction l as [|[k v] l IH]; intros r; cbn [foldM mbind outcome_bind].
  { exists r. split; [done|]. intros k. by destruct (r !! k). }
  apply NoDup_cons in Hnd as [Hk Hnd].
  destruct (IH Hnd (match r !! k with None => <[k := f v]> r | Some _ => r end)) as (r' & -> & Hr').
  exists r'. split; [done|]. intros k'. rewrite Hr', list_to_map_cons. destruct (decide (k = k')) as [->|Hne].
  - rewrite lookup_insert_eq. cbn. destruct (r !! k') eqn:E; [by rewrite E|]. by rewrite lookup_insert_eq.
  - rewrite lookup_insert_ne by done. destruct (r !! k) eqn:E; [done|]. by rewrite lookup_insert_ne.
Qed.

(** [Add] and [Subtract], for an operation on quantities that computes [F]. *)
Lemma pointwise_ok (op : Quantity → Quantity → outcome Quantity) (g : Quantity → Quantity) (F : Z → Z → Z) s a b :
  0 <= s → (∀ x, F x 0 = x) →
  (∀ q y, fits s q → fits s y →
    ∃ r, op y q = Returns r ∧ fits s r ∧ value r s = F (value q s) (value y s)) →
  (∀ y, fits s y → fits s (g y) ∧ value (g y) s = F 0 (value y s)) →
  all_fit s a → all_fit s b →
  ∃ r, (result ← foldM (λ result '(key, value),
      let quantity := Copy value in
      quantity ← match b !! key with Some other => op other quantity | None => Returns quantity end;
      Returns (<[key := quantity]> result)) (range_map a) ∅;
    foldM (λ (result : ResourceList) '(key, value),
      Returns (match result !! key with None => <[key := g value]> result | Some _ => result end))
      (range_map b) result) = Returns r ∧
    all_fit s r ∧ dom r = dom a ∪ dom b ∧ ∀ k, amount r s k = F (amount a s k) (amount b s k).
Proof.
  intros Hs HF Hop Hg Ha Hb.
  destruct (foldM_insert (λ key value, match b !! key with Some other => op other (Copy value) | None => Returns (Copy value) end)
    (range_map a) (λ k v q, fits s q ∧ value q s = F (value v s) (amount b s k))) with (r := ∅ : ResourceList)
    as (r & Hr & Hrk).
  { apply NoDup_range_keys. }
  { intros k v Hin%elem_of_range_map. destruct (Copy_value v s Hs (Ha k v Hin)) as [Hcv Hcf]. unfold amount.
    destruct (b !! k) as [other|] eqn:Hk.
    - destruct (Hop (Copy v) other Hcf (Hb k other Hk)) as (q & Hq & Hqf & Hqv). exists q. by rewrite Hqv, Hcv.
    - exists (Copy v). by rewrite HF. }
  cbn zeta. rewrite Hr. cbn [mbind outcome_bind]. destruct (fill_ok g b r) as (r' & -> & Hr').
  exists r'. split; [done|]. rewrite list_to_range_map in Hrk.
  assert (∀ k, match a !! k with
    | Some v => ∃ q, r' !! k = Some q ∧ fits s q ∧ value q s = F (value v s) (amount b s k)
    | None => r' !! k = g <$> b !! k
    end) as Hall.
  { intros k. specialize (Hrk k). rewrite Hr'. destruct (a !! k) as [v|].
    - destruct Hrk as (q & -> & Hq). by exists q.
    - by rewrite Hrk, lookup_empty. }
  split_and!.
  - intros k q Hk. specialize (Hall k). destruct (a !! k) as [v|].
    + destruct Hall as (q' & Hq' & Hf & _). congruence.
    + rewrite Hall in Hk. apply fmap_Some in Hk as (y & Hy & ->). by apply Hg, (Hb k).
  - apply set_eq. intros k. rewrite elem_of_union, !elem_of_dom. specialize (Hall k).
    destruct (a !! k) as [v|]; [destruct Hall as (q & -> & _); naive_solver|].
    rewrite Hall. destruct (b !! k); cbn; naive_solver.
  - intros k. specialize (Hall k). unfold amount in *. destruct (a !! k) as [v|].
    + by destruct Hall as (q & -> & _ & ->).
    + rewrite Hall. destruct (b !! k) as [y|] eqn:Hk; cbn; [by apply Hg, (Hb k)|by rewrite HF].
Qed.

Lemma quota_Add_ok s a b : 0 <= s → all_fit s a → all_fit s b →
  ∃ r, Add a b = Returns r ∧ all_fit s r ∧ dom r = dom a ∪ dom b ∧
    ∀ k, amount r s k = amount a s k + amount b s k.
Proof.
  intros Hs Ha Hb. apply (pointwise_ok Quantity.Add Copy Z.add); try done.
  - intros. apply Z.add_0_r.
  - intros q y Hq Hy. destruct (arithmetic_ok q y s Hs Hq Hy) as [(r & ? & ? & ? & _) _]. by exists r.
  - intros y Hy. by destruct (Copy_value y s Hs Hy) as [-> ?].
Qed.

Lemma Subtract_ok s a b : 0 <= s → all_fit s a → all_fit s b →
  ∃ r, Subtract a b = Returns r ∧ all_fit s r ∧ dom r = dom a ∪ dom b ∧
    ∀ k, amount r s k = amount a s k - amount b s k.
Proof.
  intros Hs Ha Hb. apply (pointwise_ok Quantity.Sub Quantity.Neg Z.sub); try done.
  - intros. apply Z.sub_0_r.
  - intros q y Hq Hy. destruct (arithmetic_ok q y s Hs Hq Hy) as (_ & (r & ? & ? & ? & _) & _). by exists r.
  - intros y Hy. destruct (arithmetic_ok y y s Hs Hy Hy) as (_ & _ & -> & ? & _). split; [done|]. lia.
Qed.

Lemma equalsLoop_ok s (l : list (string * Quantity)) b : 0 <= s → (∀ k q, (k, q) ∈ l → fits s q) → all_fit s b →
  ∃ r, equalsLoop l b = Returns r ∧
    (r = true ↔ ∀ k q, (k, q) ∈ l → ∃ y, b !! k = Some y ∧ value q s = value y s).
Proof.
  intros Hs Hl Hb. induction l as [|[k q] l IH]; cbn [equalsLoop].
  { exists true. split; [done|]. split; [|done]. by intros _ k q ?%elem_of_nil. }
  destruct (b !! k) as [y|] eqn:Hk.
  2: { exists false. split; [done|]. split; [done|]. intros Hall.
    destruct (Hall k q) as (y & Hy & _); [left|]. congruence. }
  rewrite (Cmp_value q y s) by first [done|apply (Hl k); left|by apply (Hb k)]. cbn [mbind outcome_bind].
  case_bool_decide as Hc; rewrite Z.compare_eq_iff in Hc.
  - exists false. split; [done|]. split; [done|]. intros Hall.
    destruct (Hall k q) as (y' & Hy' & ?); [left|]. congruence.
  - destruct IH as (r & -> & Hr); [intros k' q' ?; apply (Hl k'); by right|]. exists r. split; [done|].
    rewrite Hr. split.
    + intros Hall k' q' [[= -> ->]|?]%elem_of_cons; [exists y|by apply Hall]. split; [done|].
      destruct (Z.eq_dec (value q s) (value y s)); [done|]. by destruct Hc.
    + intros Hall k' q' ?. apply Hall. by right.
Qed.

Lemma Equals_ok s a b : 0 <= s → all_fit s a → all_fit s b →
  ∃ r, Equals a b = Returns r ∧ (r = true ↔ dom a = dom b ∧ ∀ k, amount a s k = amount b s k).
Proof.
  intros Hs Ha Hb. unfold Equals.
  assert (∀ (m : ResourceList) k q, all_fit s m → (k, q) ∈ range_map m → fits s q) as Hf.
  { intros m k q Hm ?%elem_of_range_map. by apply (Hm k). }
  assert (∀ m m' : ResourceList,
    (∀ k q, (k, q) ∈ range_map m → ∃ y, m' !! k = Some y ∧ value q s = value y s) ↔
    (∀ k, k ∈ dom m → k ∈ dom m' ∧ amount m s k = amount m' s k)) as Hiff.
  { intros m m'. unfold amount. setoid_rewrite elem_of_dom. split.
    - intros H k [q Hk]. rewrite Hk. destruct (H k q) as (y & -> & ?); [by apply elem_of_range_map|]. eauto.
    - intros H k q Hk%elem_of_range_map. destruct (H k) as [[y Hy] Hv]; [eauto|]. rewrite Hk, Hy in Hv. eauto. }
  destruct (equalsLoop_ok s (range_map a) b) as (r1 & -> & Hr1); [eauto..|].
  destruct (equalsLoop_ok s (range_map b) a) as (r2 & Hr2e & Hr2); [eauto..|].
  rewrite Hiff in Hr1, Hr2. cbn [mbind outcome_bind].
  assert (dom a = dom b ∧ (∀ k, amount a s k = amount b s k) ↔ r1 = true ∧ r2 = true) as Hd.
  { rewrite Hr1, Hr2. split.
    - intros [Hd Hv]. split; intros k; by rewrite Hd, Hv.
    - intros [H1 H2]. split; [apply set_eq; intros k; split; naive_solver|]. intros k.
      destruct (decide (k ∈ dom a)) as [Hk|Hk]; [by apply H1|]. unfold amount.
      assert (k ∉ dom b) as Hk' by (intros ?%H2; tauto). by rewrite (not_elem_of_dom_1 a), (not_elem_of_dom_1 b). }
  destruct r1; cbn [negb]; [exists r2|exists false]; rewrite Hd; naive_solver.
Qed.

Lemma LessThanOrEqual_ok s a b : 0 <= s → all_fit s a → all_fit s b →
  ∃ names, LessThanOrEqual a b = Returns (bool_decide (names = []), names) ∧ NoDup names ∧
    ∀ k, k ∈ names ↔ k ∈ dom a ∧ k ∈ dom b ∧ amount b s k < amount a s k.
Proof.
  intros Hs Ha Hb. unfold LessThanOrEqual.
  set (exceeds := λ k v, ∃ o, a !! k = Some o ∧ value v s < value o s).
  destruct (foldM_inv (λ '(r, names) l, r = bool_decide (names = []) ∧ NoDup (names ++ l.*1) ∧
    (∀ k v, (k, v) ∈ l → b !! k = Some v) ∧
    (∀ k, k ∈ names → ∃ v, b !! k = Some v ∧ exceeds k v) ∧
    (∀ k v, b !! k = Some v → exceeds k v → k ∈ names ∨ (k, v) ∈ l))
    (λ '(result, resourceNames) '(key, value), match a !! key with
      | None => Returns (result, resourceNames)
      | Some other => (c ← Quantity.Cmp other value;
          Returns (if bool_decide (c = Gt) then (false, resourceNames ++ [key]) else (result, resourceNames))) end)
    (range_map b) (true, [])) as ([r names] & Hr & -> & Hnd & _ & Hn1 & Hn2).
  { split_and!; [done|apply NoDup_range_keys|by intros ?? ?%elem_of_range_map|by intros ? ?%elem_of_nil|].
    intros k v Hk _. right. by apply elem_of_range_map. }
  { intros [r names] [k v] l (-> & Hnd & Hl & Hn1 & Hn2).
    assert (b !! k = Some v) as Hk by (apply Hl; left).
    assert ((k ∉ names) ∧ NoDup (names ++ l.*1)) as [Hkn Hnd'].
    { revert Hnd. cbn. rewrite !NoDup_app, NoDup_cons. intros (? & Hd & ? & ?). split; [|split_and!; [done| |done]].
      - intros Hin. apply (Hd k Hin). left.
      - intros x Hx ?. apply (Hd x Hx). by right. }
    assert (∀ names', (exceeds k v → k ∈ names') → names ⊆ names' → ∀ k' v', b !! k' = Some v' → exceeds k' v' → k' ∈ names' ∨ (k', v') ∈ l) as Hstep.
    { intros names' Hin Hsub k' v' Hk' He. destruct (Hn2 k' v' Hk' He) as [?|[[= -> ->]|?]%elem_of_cons]; auto. }
    assert (∀ k v, (k, v) ∈ l → b !! k = Some v) by (intros; apply Hl; by right).
    destruct (a !! k) as [o|] eqn:Hak.
    - rewrite (Cmp_value o v s) by first [done|by apply (Ha k)|by apply (Hb k)]. cbn [mbind outcome_bind].
      eexists. split; [done|]. case_bool_decide as Hc; rewrite Z.compare_gt_iff in Hc.
      + assert (exceeds k v) by by exists o. split_and!; [|by rewrite <- app_assoc|done| |].
        * rewrite bool_decide_eq_false_2; [done|]. by destruct names.
        * intros k' [?| ->%list_elem_of_singleton]%elem_of_app; [by apply Hn1|by exists v].
        * apply Hstep; set_solver.
      + split_and!; [done..|]. apply Hstep; [|done]. intros (o' & Ho' & Hlt). rewrite Hak in Ho'. injection Ho' as <-. done.
    - eexists. split; [done|]. split_and!; [done..|]. apply Hstep; [|done]. intros (o' & Ho' & _). congruence. }
  exists names. split; [done|]. cbn in Hnd. rewrite app_nil_r in Hnd. split; [done|]. intros k. unfold amount.
  rewrite !elem_of_dom. split.
  - intros (v & Hk & o & Ho & Hlt)%Hn1. rewrite Hk, Ho. eauto.
  - intros ([o Ho] & [v Hk] & Hlt). rewrite Ho, Hk in Hlt.
    destruct (Hn2 k v Hk) as [?|?%elem_of_nil]; [by exists o|done|done].
Qed.

Lemma ToSet_ok names : ToSet names = list_to_set names.
Proof.
  unfold ToSet. rewrite <- (union_empty_r_L (list_to_set names)). change (NewString []) with (∅ : gset string).
  generalize (∅ : gset string). induction names as [|n names IH]; intros X; cbn [foldl list_to_set foldr].
  { by rewrite union_empty_l_L. }
  rewrite IH, Insert_union. set_solver.
Qed.

Lemma Mask_ok a names k : Mask a names !! k = if decide (k ∈ names) then Copy <$> a !! k else None.
Proof.
  unfold Mask. rewrite ToSet_ok. assert (a !! k = list_to_map (M := ResourceList) (range_map a) !! k) as ->.
  { by rewrite list_to_range_map. }
  assert (∀ (l : list (string * Quantity)) (r : ResourceList), NoDup l.*1 →
    foldl (λ result '(key, value), if Has (list_to_set names) key then <[key := Copy value]> result else result) r l !! k =
    match list_to_map (M := ResourceList) l !! k with
    | Some v => if decide (k ∈ names) then Some (Copy v) else r !! k
    | None => r !! k
    end) as H.
  { induction l as [|[k' v] l IH]; intros r Hnd; [done|]. apply NoDup_cons in Hnd as [Hk' Hnd]. cbn [foldl].
    rewrite IH, list_to_map_cons by done. destruct (decide (k' = k)) as [->|Hne].
    - rewrite lookup_insert_eq, (not_elem_of_list_to_map_1 l) by done. destruct (decide (k ∈ names)) as [Hin|Hin].
      + rewrite (proj2 (Has_true _ _)) by set_solver. by rewrite lookup_insert_eq.
      + by rewrite (proj2 (Has_false _ _)) by set_solver.
    - rewrite lookup_insert_ne by done. destruct (list_to_map l !! k); [|by destruct (Has _ _); rewrite ?lookup_insert_ne].
      destruct (decide _); [done|]. by destruct (Has _ _); rewrite ?lookup_insert_ne. }
  rewrite H by apply NoDup_range_keys. rewrite lookup_empty.
  destruct (list_to_map _ !! k); cbn; by destruct (decide _).
Qed.

Lemma IsZero_ok s a : 0 <= s → all_fit s a →
  ∃ r, IsZero a = Returns r ∧ (r = true ↔ ∀ k, amount a s k = 0).
Proof.
  intros Hs Ha. unfold IsZero. change (MustParse "0") with (Returns (mkQuantity (Some (mkDec 0 0)) DecimalSI)).
  cbn [mbind outcome_bind].
  assert (∀ l, (∀ q, q ∈ l → fits s q) →
    ∃ r, isZeroLoop (mkQuantity (Some (mkDec 0 0)) DecimalSI) l = Returns r ∧ (r = true ↔ ∀ q, q ∈ l → value q s = 0)) as H.
  { induction l as [|q l IH]; intros Hl; cbn [isZeroLoop].
    { exists true. split; [done|]. split; [|done]. by intros _ q ?%elem_of_nil. }
    rewrite (Cmp_value q _ s) by first [done|apply Hl; left|by split; [split|]]. cbn [mbind outcome_bind].
    change (value (mkQuantity (Some (mkDec 0 0)) DecimalSI) s) with 0.
    case_bool_decide as Hc; rewrite Z.compare_eq_iff in Hc.
    - exists false. split; [done|]. split; [done|]. intros H. destruct Hc. apply H. left.
    - destruct IH as (r & -> & Hr); [intros; apply Hl; by right|]. exists r. split; [done|]. rewrite Hr. split.
      + intros H q' [->|?]%elem_of_cons; [|by apply H]. destruct (Z.eq_dec (value q s) 0); [done|by destruct Hc].
      + intros H q' ?. apply H. by right. }
  destruct (H (range_values a)) as (r & -> & Hr).
  { intros q [k Hk]%elem_of_range_values. by apply (Ha k). }
  exists r. split; [done|]. rewrite Hr. unfold amount. split.
  - intros Hall k. destruct (a !! k) eqn:Hk; [|done]. apply Hall, elem_of_range_values. eauto.
  - intros Hall q [k Hk]%elem_of_range_values. specialize (Hall k). by rewrite Hk in Hall.
Qed.
End facts.

(** ** Theorems *)
Section theorems.
Context `{R : RangeOrder}.
Implicit Types a b : ResourceList.

(** C36: on lists whose quantities have at most [s] decimal places, whatever the
    order of iteration and without a panic: a sum or difference has the names of
    both lists and, name by name, the sum or difference of the amounts, a missing
    name counting as zero; lists are equal when they have the same names and
    amounts; a list is below another when no name of both exceeds it, and the
    names that do are returned once each; a list is zero when its amounts are. *)
Theorem resource_lists_arithmetic s a b : 0 <= s → all_fit s a → all_fit s b →
  (∃ r, Add a b = Returns r ∧ dom r = dom a ∪ dom b ∧ ∀ k, amount r s k = amount a s k + amount b s k) ∧
  (∃ r, Subtract a b = Returns r ∧ dom r = dom a ∪ dom b ∧ ∀ k, amount r s k = amount a s k - amount b s k) ∧
  (∃ r, Equals a b = Returns r ∧ (r = true ↔ dom a = dom b ∧ ∀ k, amount a s k = amount b s k)) ∧
  (∃ names, LessThanOrEqual a b = Returns (bool_decide (names = []), names) ∧ NoDup names ∧
    ∀ k, k ∈ names ↔ k ∈ dom a ∧ k ∈ dom b ∧ amount b s k < amount a s k) ∧
  (∃ r, IsZero a = Returns r ∧ (r = true ↔ ∀ k, amount a s k = 0)).
Proof.
  intros Hs Ha Hb. split_and!.
  - destruct (quota_Add_ok s a b Hs Ha Hb) as (r & ? & _ & ? & ?). by exists r.
  - destruct (Subtract_ok s a b Hs Ha Hb) as (r & ? & _ & ? & ?). by exists r.
  - by apply Equals_ok.
  - by apply LessThanOrEqual_ok.
  - by apply IsZero_ok.
Qed.

(** Taking back what was added gives an equal list, when what was added has no
    other names; and the usage that stays within a quota after an addition stays
    within it when nothing is added. *)
Theorem Subtract_Add s a b : 0 <= s → all_fit s a → all_fit s b → dom b ⊆ dom a →
  (sum ← Add a b; back ← Subtract sum b; Equals back a) = Returns true ∧
  ∀ hard, all_fit s hard → (∀ k, 0 <= amount b s k) →
    (sum ← Add a b; LessThanOrEqual sum hard) = Returns (true, []) →
    LessThanOrEqual a hard = Returns (true, []).
Proof.
  intros Hs Ha Hb Hsub. destruct (quota_Add_ok s a b Hs Ha Hb) as (r & -> & Hr & Hd & Hv). cbn [mbind outcome_bind]. split.
  - destruct (Subtract_ok s r b Hs Hr Hb) as (r' & -> & Hr' & Hd' & Hv'). cbn [mbind outcome_bind].
    destruct (Equals_ok s r' a Hs Hr' Ha) as (e & -> & He). f_equal. apply He. split; [rewrite Hd', Hd; clear -Hsub; set_solver|].
    intros k. rewrite Hv', Hv. lia.
  - intros hard Hh Hpos Hle. destruct (LessThanOrEqual_ok s r hard Hs Hr Hh) as (n & Hn & _ & Hin).
    destruct (LessThanOrEqual_ok s a hard Hs Ha Hh) as (n' & -> & _ & Hin').
    rewrite Hn in Hle. injection Hle as _ ->. destruct n' as [|k n']; [done|].
    destruct (Hin' k) as [[H1 [H2 H3]] _]; [left|]. exfalso.
    apply (not_elem_of_nil k), Hin. rewrite Hv, Hd. split; [by apply elem_of_union_l|]. split; [done|]. specialize (Hpos k). lia.
Qed.

(** A mask keeps the named quantities; membership and intersection of names are
    those of the lists, the intersection sorted and without repetitions. *)
Theorem resource_names_spec a names names' k :
  Mask a names !! k = (if decide (k ∈ names) then Copy <$> a !! k else None) ∧
  (Contains names k = true ↔ k ∈ names) ∧
  (k ∈ Intersection names names' ↔ k ∈ names ∧ k ∈ names') ∧
  NoDup (Intersection names names') ∧ StronglySorted String.le (Intersection names names') ∧
  ResourceNames a ≡ₚ (map_to_list a).*1.
Proof.
  unfold Contains, Intersection, ResourceNames. rewrite !foldl_append, !ToSet_ok. cbn [app].
  split; [apply Mask_ok|]. split; [rewrite Has_true; set_solver|].
  rewrite elem_of_List, Intersection_intersection.
  split; [set_solver|]. split; [apply List_NoDup|]. split; [apply List_sorted|apply range_keys_perm].
Qed.
End theorems.

(** A usage and a quota, for the witnesses. *)
Definition used_ex : ResourceList := {[ "cpu" := NewMilliQuantity 1500 DecimalSI; "pods" := NewQuantity 3 DecimalSI ]}.
Definition delta_ex : ResourceList := {[ "cpu" := NewQuantity 1 DecimalSI ]}.

Lemma used_ex_fits : all_fit 3 used_ex ∧ all_fit 3 delta_ex.
Proof.
  split; intros k q; unfold used_ex, delta_ex.
  - intros [[_ <-]|[_ [_ <-]%lookup_singleton_Some]]%lookup_insert_Some; (split; [by split|done]).
  - intros [_ <-]%lookup_singleton_Some. split; [by split|done].
Qed.

Lemma resource_lists_arithmetic_witness :
  all_fit 3 used_ex ∧ all_fit 3 delta_ex ∧
  ∃ r, @Add canonical_order used_ex delta_ex = Returns r ∧ amount r 3 "cpu" = 2500.
Proof.
  destruct used_ex_fits as [Hu Hd]. split; [done|]. split; [done|].
  destruct (@resource_lists_arithmetic canonical_order 3 used_ex delta_ex) as [(r & ? & _ & Hr) _]; [done..|].
  exists r. split; [done|]. rewrite Hr. by vm_compute.
Defined.

Lemma Subtract_Add_witness :
  (sum ← @Add canonical_order used_ex delta_ex; back ← @Subtract canonical_order sum delta_ex;
   @Equals canonical_order back used_ex) = Returns true.
Proof.
  destruct used_ex_fits as [Hu Hd].
  apply (@Subtract_Add canonical_order 3 used_ex delta_ex); [done..|].
  apply (bool_decide_unpack _). by vm_compute.
Defined.
