(* ===== verification/IntStr.v ===== *)
(** * intstr: an integer or a percentage

    Models [pkg/util/intstr/intstr.go] but for JSON and fuzzing: the fields of a
    rolling update are integers, or strings that stand for a percentage.  The
    percentage is computed with float64, and rounded up or down.

    The theorems: the conversions are inverse to each other, and the float64
    computation gives the exact ceiling or floor while products stay below 2^53. *)

From S2P Require Import Prelude.
From S2P Require Import Validation.
From S2P Require Import Float.
From S2P Require Import Strconv.

#[local] Open Scope Z_scope.

(** [Int] is 0 and [String] 1; [TypeOther] is neither. *)
Inductive Type_ : Type := Int | String_ | TypeOther (t : Z).

Record IntOrString : Type := mkIntOrString { type_ : Type_; IntVal : Z; StrVal : string }.

Definition FromInt (val : Z) : IntOrString := mkIntOrString Int (int32 val) "".
Definition FromString (val : string) : IntOrString := mkIntOrString String_ 0 val.

Definition IntValue (intstr : IntOrString) : Z :=
  match type_ intstr with
  | String_ => (Atoi (StrVal intstr)).1
  | _ => IntVal intstr
  end.

Definition IntOrString_String (intstr : IntOrString) : string :=
  match type_ intstr with
  | String_ => StrVal intstr
  | _ => FormatInt (IntValue intstr)
  end.

Definition percent_sign : ascii := "%"%char.

(** The value, and whether it is a percentage. *)
Definition getIntOrPercentValue (intOrStr : IntOrString) : result string (Z * bool) :=
  match type_ intOrStr with
  | Int => Ok (IntValue intOrStr, false)
  | String_ =>
      match Atoi (remove_byte percent_sign (StrVal intOrStr)) with
      | (_, Some err) => Err ("invalid value " +:+ StrVal intOrStr +:+ ": " +:+ err)
      | (v, None) => Ok (v, true)
      end
  | TypeOther _ => Err "invalid value: neither int nor percentage"
  end.

(** [int(f)] for a whole float64; what does not fit is left to the machine, and
    [None] is an infinity. *)
Class FloatConv : Type := {
  int_of_float : option Z → Z;
  int_of_float_exact z : - 2 ^ 63 <= z < 2 ^ 63 → int_of_float (Some z) = z;
}.

Section percent.
Context `{FloatConv}.

(** [float64(value) * float64(total) / 100] *)
Definition percentage (value total : Z) : option Z :=
  v ← float_of_int value; t ← float_of_int total; p ← float_mul v t;
  h ← float_of_int 100; float_div p h.

Definition GetValueFromIntOrPercent (intOrPercent : IntOrString) (total : Z) (roundUp : bool) : result string Z :=
  match getIntOrPercentValue intOrPercent with
  | Err err => Err ("invalid value for IntOrString: " +:+ err)
  | Ok (value, isPercent) =>
      Ok (if isPercent then
            int_of_float ((if roundUp then float_ceil else float_floor) <$> percentage value total)
          else value)
  end.
End percent.

(** ** Facts *)

(** [value] per cent of [total]. *)
Definition percent_of (value total : Z) (roundUp : bool) : Z :=
  if roundUp then - (- (value * total) / 100) else value * total / 100.

Lemma percentage_exact value total : 0 <= value < 2 ^ 53 → 0 <= total < 2 ^ 53 → value * total < 2 ^ 53 →
  ∃ f, percentage value total = Some f ∧
    float_floor f = percent_of value total false ∧ float_ceil f = percent_of value total true.
Proof.
  intros Hv Ht Hp. unfold percentage. rewrite !float_of_int_exact by (done || lia). cbn [mbind option_bind].
  rewrite float_mul_exact by nia. cbn [mbind option_bind].
  apply float_div_100. nia.
Qed.

Lemma percent_of_bounds value total up : 0 <= value → 0 <= total → value * total < 2 ^ 53 →
  0 <= percent_of value total up < 2 ^ 53.
Proof.
  intros Hv Ht Hp. unfold percent_of. assert (0 <= value * total) by nia. set (x := value * total) in *.
  pose proof (Z.div_mod x 100 ltac:(lia)). pose proof (Z.mod_pos_bound x 100 ltac:(lia)).
  pose proof (Z.div_mod (- x) 100 ltac:(lia)). pose proof (Z.mod_pos_bound (- x) 100 ltac:(lia)).
  destruct up; lia.
Qed.

Section facts.
Context `{FloatConv}.

Lemma GetValue_int n total up : - 2 ^ 31 <= n < 2 ^ 31 →
  GetValueFromIntOrPercent (FromInt n) total up = Ok n.
Proof. intros Hn. unfold GetValueFromIntOrPercent. cbn. unfold IntValue. cbn. by rewrite int32_id. Qed.

Lemma remove_percent value : 0 <= value → remove_byte percent_sign (FormatInt value +:+ "%") = FormatInt value.
Proof.
  intros Hv. rewrite remove_byte_app. change (remove_byte percent_sign "%") with "". rewrite str_app_nil_r.
  apply remove_byte_none. destruct (FormatInt_digits value Hv) as (_ & Hd & _). revert Hd.
  apply all_bytes_weaken. intros c Hc. apply negb_true_iff, bool_decide_eq_false. by intros ->.
Qed.

Lemma GetValue_percent value total up : 0 <= value < 2 ^ 53 → 0 <= total < 2 ^ 53 → value * total < 2 ^ 53 →
  GetValueFromIntOrPercent (FromString (FormatInt value +:+ "%")) total up = Ok (percent_of value total up).
Proof.
  intros Hv Ht Hp. unfold GetValueFromIntOrPercent, getIntOrPercentValue, FromString. cbn [type_ StrVal].
  rewrite remove_percent, Atoi_FormatInt by lia. destruct (percentage_exact value total Hv Ht Hp) as (f & -> & Hfl & Hce).
  pose proof (percent_of_bounds value total up ltac:(lia) ltac:(lia) Hp). f_equal. destruct up; cbn [fmap option_fmap option_map]; rewrite ?Hfl, ?Hce; apply int_of_float_exact; lia.
Qed.
End facts.

(** ** Theorems *)
Section theorems.
Context `{FloatConv}.

(** An integer stands for itself; a percentage of a total is exactly the ceiling
    or the floor of the product divided by 100, although it is computed with
    float64, as long as the product is below 2^53. *)
Theorem GetValueFromIntOrPercent_exact value total up : 0 <= value < 2 ^ 53 → 0 <= total < 2 ^ 53 →
  value * total < 2 ^ 53 →
  GetValueFromIntOrPercent (FromString (FormatInt value +:+ "%")) total up =
    Ok (if up then - (- (value * total) / 100) else value * total / 100) ∧
  (∀ n, - 2 ^ 31 <= n < 2 ^ 31 → GetValueFromIntOrPercent (FromInt n) total up = Ok n ∧
    IntOrString_String (FromInt n) = FormatInt n ∧ IntValue (FromString (FormatInt n)) = n).
Proof.
  intros Hv Ht Hp. split; [by apply GetValue_percent|]. intros n Hn. split; [by apply GetValue_int|].
  unfold IntOrString_String, IntValue, FromInt. cbn. rewrite int32_id by done. split; [done|].
  by rewrite Atoi_FormatInt by lia.
Qed.
End theorems.

Definition whole_floats : FloatConv.
Proof. refine {| int_of_float o := default 0 o |}. done. Defined.

Lemma GetValueFromIntOrPercent_exact_witness :
  @GetValueFromIntOrPercent whole_floats (FromString "25%") 10 true = Ok 3.
Proof.
  change "25%" with (FormatInt 25 +:+ "%"). change 3 with (- (- (25 * 10) / 100)).
  destruct (@GetValueFromIntOrPercent_exact whole_floats 25 10 true) as [H _]; [lia..|exact H].
Defined.
