(* ===== verification/Labels.v ===== *)
(** * labels: label sets, requirements and selectors

    Models [pkg/labels/labels.go] and the requirements and selectors of
    [pkg/labels/selector.go]; [LabelsParse] models its lexer and parser.  The
    [Labels] interface is a class, [Set] its map; [sort.Sort(ByKey(...))] is
    any [KeySort]: Go's sort gives a sorted permutation, and does not promise
    the order of requirements with one key. *)

From S2P Require Import Prelude.
From S2P Require Import SetsString.
From S2P Require Import Validation.
From S2P Require Import Float.

(** ** Labels *)

Class Labels (L : Type) : Type := {
  Has : L → string → bool;
  Get : L → string → string;
}.

(** A nil map and an empty one behave alike here. *)
Definition Set_ : Type := gmap string string.

#[export] Instance set_labels : Labels Set_ := {|
  Has ls label := bool_decide (is_Some (ls !! label));
  Get ls label := default "" (ls !! label);
|}.

(** [strings.Join(l, ",")] *)
Fixpoint JoinComma (l : list string) : string :=
  match l with
  | [] => ""
  | [s] => s
  | s :: l => s +:+ "," +:+ JoinComma l
  end.

Section set_string.
Context `{R : RangeOrder}.

Definition Set_String (ls : Set_) : string :=
  JoinComma (merge_sort String.le ((λ '(key, value), key +:+ "=" +:+ value) <$> range_map ls)).

Definition FormatLabels (labelMap : Set_) : string :=
  let l := Set_String labelMap in if decide (l = "") then "<none>" else l.
End set_string.

(** ** Requirements *)

(** The strings of type [Operator]; [UnknownOperator] is any but the nine. *)
Inductive Operator : Type :=
| DoesNotExistOperator | EqualsOperator | DoubleEqualsOperator | InOperator
| NotEqualsOperator | NotInOperator | ExistsOperator | GreaterThanOperator
| LessThanOperator | UnknownOperator (op : string).

#[export] Instance Operator_eq_dec : EqDecision Operator.
Proof. solve_decision. Defined.

Record Requirement : Type := mkRequirement {
  key : string;
  operator : Operator;
  strValues : gset string;
}.

Definition operatorName (op : Operator) : string :=
  match op with
  | DoesNotExistOperator => "!" | EqualsOperator => "=" | DoubleEqualsOperator => "=="
  | InOperator => "in" | NotEqualsOperator => "!=" | NotInOperator => "notin"
  | ExistsOperator => "exists" | GreaterThanOperator => "Gt" | LessThanOperator => "Lt"
  | UnknownOperator op => op
  end.

Definition validateLabelKey (k : string) : option string :=
  if IsQualifiedName k then None else Some "invalid label key".
Definition validateLabelValue (v : string) : option string :=
  if IsValidLabelValue v then None else Some "invalid label value".

Fixpoint validateNumbers (vals : list string) : option string :=
  match vals with
  | [] => None
  | val :: vals =>
      match ParseFloat val with
      | Err _ => Some "for 'Gt', 'Lt' operators, the value must be a number"
      | Ok _ => validateNumbers vals
      end
  end.

Fixpoint validateValues (vals : list string) : option string :=
  match vals with
  | [] => None
  | v :: vals =>
      match validateLabelValue v with Some err => Some err | None => validateValues vals end
  end.

Section requirement.
Context `{R : RangeOrder}.

Definition checkOperator (op : Operator) (vals : gset string) : option string :=
  match op with
  | InOperator | NotInOperator =>
      if Nat.eqb (Len vals) 0
      then Some "for 'in', 'notin' operators, values set can't be empty" else None
  | EqualsOperator | DoubleEqualsOperator | NotEqualsOperator =>
      if negb (Nat.eqb (Len vals) 1)
      then Some "exact-match compatibility requires one single value" else None
  | ExistsOperator | DoesNotExistOperator =>
      if negb (Nat.eqb (Len vals) 0)
      then Some "values set must be empty for exists and does not exist" else None
  | GreaterThanOperator | LessThanOperator =>
      if negb (Nat.eqb (Len vals) 1)
      then Some "for 'Gt', 'Lt' operators, exactly one value is required"
      else validateNumbers (range_set vals)
  | UnknownOperator op => Some ("operator '" +:+ op +:+ "' is not recognized")
  end.

Definition NewRequirement (key : string) (op : Operator) (vals : gset string) :
    result string Requirement :=
  match validateLabelKey key with
  | Some err => Err err
  | None =>
      match checkOperator op vals with
      | Some err => Err err
      | None =>
          match validateValues (range_set vals) with
          | Some err => Err err
          | None => Ok (mkRequirement key op vals)
          end
      end
  end.

(** The last of the numbers; the loop over [r.strValues], which has one. *)
Fixpoint lastNumber (vals : list string) (rValue : float64) : option float64 :=
  match vals with
  | [] => Some rValue
  | strValue :: vals =>
      match ParseFloat strValue with
      | Ok v => lastNumber vals v
      | Err _ => None
      end
  end.

Definition Requirement_Matches `{Labels L} (r : Requirement) (ls : L) : bool :=
  match operator r with
  | InOperator | EqualsOperator | DoubleEqualsOperator =>
      if negb (Has ls (key r)) then false
      else SetsString.Has (strValues r) (Get ls (key r))
  | NotInOperator | NotEqualsOperator =>
      if negb (Has ls (key r)) then true
      else negb (SetsString.Has (strValues r) (Get ls (key r)))
  | ExistsOperator => Has ls (key r)
  | DoesNotExistOperator => negb (Has ls (key r))
  | GreaterThanOperator | LessThanOperator =>
      if negb (Has ls (key r)) then false
      else match ParseFloat (Get ls (key r)) with
           | Err _ => false
           | Ok lsValue =>
               if negb (Nat.eqb (Len (strValues r)) 1) then false
               else match lastNumber (range_set (strValues r)) (Fin 0) with
                    | None => false
                    | Some rValue =>
                        (bool_decide (operator r = GreaterThanOperator) && flt rValue lsValue) ||
                        (bool_decide (operator r = LessThanOperator) && flt lsValue rValue)
                    end
           end
  | UnknownOperator _ => false
  end.

Definition Values (r : Requirement) : gset string :=
  foldl (λ ret k, Insert ret [k]) ∅ (range_set (strValues r)).

Definition Requirement_String (r : Requirement) : string :=
  let prefix := match operator r with DoesNotExistOperator => "!" | _ => "" end in
  let buffer := prefix +:+ key r in
  let vals :=
    if Nat.eqb (Len (strValues r)) 1 then List (strValues r) !!! 0
    else JoinComma (List (strValues r)) in
  match operator r with
  | EqualsOperator => buffer +:+ "=" +:+ vals
  | DoubleEqualsOperator => buffer +:+ "==" +:+ vals
  | NotEqualsOperator => buffer +:+ "!=" +:+ vals
  | InOperator => buffer +:+ " in " +:+ "(" +:+ vals +:+ ")"
  | NotInOperator => buffer +:+ " notin " +:+ "(" +:+ vals +:+ ")"
  | GreaterThanOperator => buffer +:+ ">" +:+ vals
  | LessThanOperator => buffer +:+ "<" +:+ vals
  | ExistsOperator | DoesNotExistOperator => buffer
  | UnknownOperator _ => buffer +:+ vals
  end.
End requirement.

(** ** Selectors *)

(** [ByKey.Less] the other way round, negated. *)
Definition key_le (r1 r2 : Requirement) : Prop := String.le (key r1) (key r2).

(** [sort.Sort(ByKey(sel))] *)
Class KeySort : Type := {
  sort_ByKey : list Requirement → list Requirement;
  sort_ByKey_perm l : sort_ByKey l ≡ₚ l;
  sort_ByKey_sorted l : StronglySorted key_le (sort_ByKey l);
}.

#[export] Instance key_le_dec : RelDecision key_le.
Proof. intros r1 r2. unfold key_le. apply _. Defined.

#[export] Instance key_le_trans : Transitive key_le.
Proof. intros r1 r2 r3. unfold key_le. by transitivity (key r2). Qed.

#[export] Instance key_le_total : Total key_le.
Proof. intros r1 r2. apply (total String.le). Qed.

(** A sort for concrete examples. *)
Program Definition canonical_sort : KeySort := {| sort_ByKey := merge_sort key_le |}.
Next Obligation. intros l. apply merge_sort_Permutation. Qed.
Next Obligation. intros l. apply StronglySorted_merge_sort; apply _. Qed.

Inductive Selector : Type :=
| internalSelector (lsel : list Requirement)
| nothingSelector.

Definition Everything : Selector := internalSelector [].
Definition Nothing : Selector := nothingSelector.
Definition NewSelector : Selector := internalSelector [].

Definition Empty (s : Selector) : bool :=
  match s with
  | internalSelector lsel => Nat.eqb (length lsel) 0
  | nothingSelector => false
  end.

Section selector.
Context `{R : RangeOrder} `{KeySort}.

Definition Add (s : Selector) (reqs : list Requirement) : Selector :=
  match s with
  | internalSelector lsel => internalSelector (sort_ByKey (lsel ++ reqs))
  | nothingSelector => nothingSelector
  end.

Fixpoint matchesAll `{Labels L} (lsel : list Requirement) (l : L) : bool :=
  match lsel with
  | [] => true
  | r :: lsel => if negb (Requirement_Matches r l) then false else matchesAll lsel l
  end.

Definition Matches `{Labels L} (s : Selector) (l : L) : bool :=
  match s with
  | internalSelector lsel => matchesAll lsel l
  | nothingSelector => false
  end.

Definition Selector_String (s : Selector) : string :=
  match s with
  | internalSelector lsel => JoinComma (Requirement_String <$> lsel)
  | nothingSelector => "<null>"
  end.

(** The loop of [SelectorFromSet]: [None] is its early return. *)
Fixpoint setRequirements (l : list (string * string)) : option (list Requirement) :=
  match l with
  | [] => Some []
  | (label, value) :: l =>
      match NewRequirement label EqualsOperator (NewString [value]) with
      | Err _ => None
      | Ok r => cons r <$> setRequirements l
      end
  end.

Definition SelectorFromSet (ls : Set_) : Selector :=
  match setRequirements (range_map ls) with
  | None => internalSelector []
  | Some requirements => internalSelector (sort_ByKey requirements)
  end.
End selector.

(** ** Facts *)
Section facts.
Context `{R : RangeOrder}.

Lemma Len_empty vals : Nat.eqb (Len vals) 0 = true ↔ vals = ∅.
Proof.
  unfold Len. rewrite Nat.eqb_eq, size_empty_iff.
  split; [apply leibniz_equiv|by intros ->].
Qed.

Lemma Len_single vals : Nat.eqb (Len vals) 1 = true ↔ ∃ v, vals = {[v]}.
Proof.
  unfold Len. rewrite Nat.eqb_eq. split; [|intros [v ->]; apply size_singleton].
  intros [v Hv]%size_1_elem_of. exists v. by apply leibniz_equiv.
Qed.

Lemma range_set_single v : range_set {[v]} = [v].
Proof. apply Permutation_singleton_r. by rewrite range_set_perm, elements_singleton. Qed.

Lemma SetsList_single v : SetsString.List {[v]} = [v].
Proof. apply Permutation_singleton_r. by rewrite List_perm, elements_singleton. Qed.

Lemma validateNumbers_None vals :
  validateNumbers vals = None ↔ ∀ v, v ∈ vals → is_Ok (ParseFloat v).
Proof.
  induction vals as [|v vals IH]; cbn; [split; [by intros _ v ?%not_elem_of_nil|done]|].
  setoid_rewrite elem_of_cons. destruct (ParseFloat v) as [x|e] eqn:Hv.
  - rewrite IH. split; [|naive_solver]. intros Hall w [->|?]; [by exists x|auto].
  - split; [done|]. intros Hall. destruct (Hall v) as [x Hx]; [auto|congruence].
Qed.

Lemma validateValues_None vals :
  validateValues vals = None ↔ ∀ v, v ∈ vals → IsValidLabelValue v = true.
Proof.
  induction vals as [|v vals IH]; cbn; [split; [by intros _ v ?%not_elem_of_nil|done]|].
  setoid_rewrite elem_of_cons. unfold validateLabelValue.
  destruct (IsValidLabelValue v) eqn:Hv; [rewrite IH; naive_solver|].
  split; [done|]. intros Hall. rewrite Hall in Hv by auto. done.
Qed.

(** What a constructed requirement is. *)
Definition operator_ok (op : Operator) (vals : gset string) : Prop :=
  match op with
  | InOperator | NotInOperator => vals ≠ ∅
  | EqualsOperator | DoubleEqualsOperator | NotEqualsOperator => ∃ v, vals = {[v]}
  | ExistsOperator | DoesNotExistOperator => vals = ∅
  | GreaterThanOperator | LessThanOperator => ∃ v, vals = {[v]} ∧ is_Ok (ParseFloat v)
  | UnknownOperator _ => False
  end.

Definition requirement_ok (r : Requirement) : Prop :=
  IsQualifiedName (key r) = true ∧ operator_ok (operator r) (strValues r) ∧
  ∀ v, v ∈ strValues r → IsValidLabelValue v = true.

Lemma checkOperator_None op vals : checkOperator op vals = None ↔ operator_ok op vals.
Proof.
  destruct op; cbn -[Nat.eqb]; try done.
  1, 7: rewrite <- Len_empty; by destruct (Nat.eqb _ 0).
  1, 2, 4: rewrite <- Len_single; by destruct (Nat.eqb _ 1).
  1, 2: rewrite <- Len_empty; by destruct (Nat.eqb _ 0).
  all: destruct (Nat.eqb (Len vals) 1) eqn:Hl; cbn;
    [apply Len_single in Hl as [v ->]; rewrite range_set_single, validateNumbers_None;
     setoid_rewrite list_elem_of_singleton
    |split; [done|]; intros (v & Hv & _); rewrite (proj2 (Len_single _)) in Hl; eauto; done].
  all: split; [intros Hall; exists v; auto|intros (w & <-%singleton_inj & Hw) ? ->; done].
Qed.

Lemma NewRequirement_Ok k op vals r :
  NewRequirement k op vals = Ok r ↔ r = mkRequirement k op vals ∧ requirement_ok r.
Proof.
  unfold NewRequirement, validateLabelKey, requirement_ok.
  destruct (IsQualifiedName k) eqn:Hk; [|split; [done|intros (-> & ? & _); cbn in *; congruence]].
  destruct (checkOperator op vals) eqn:Ho.
  { split; [done|]. intros (-> & _ & Hok & _). apply checkOperator_None in Hok. cbn in *. congruence. }
  apply checkOperator_None in Ho.
  destruct (validateValues _) eqn:Hv.
  { split; [done|]. intros (-> & _ & _ & Hall). cbn in Hall.
    setoid_rewrite <- elem_of_range_set in Hall. apply validateValues_None in Hall. congruence. }
  rewrite validateValues_None in Hv. setoid_rewrite elem_of_range_set in Hv.
  split; [intros [= <-]; done|intros [-> _]; done].
Qed.

Lemma matchesAll_forallb `{Labels L} lsel (ls : L) :
  matchesAll lsel ls = forallb (λ r, Requirement_Matches r ls) lsel.
Proof. induction lsel as [|r lsel IH]; cbn; [done|]. rewrite IH. by destruct (Requirement_Matches r ls). Qed.

Lemma matchesAll_perm `{Labels L} l l' (ls : L) : l ≡ₚ l' → matchesAll l ls = matchesAll l' ls.
Proof.
  intros Hp. rewrite !matchesAll_forallb. induction Hp; cbn; [done|by f_equal| |congruence].
  by rewrite !andb_assoc, (andb_comm (Requirement_Matches y ls)).
Qed.

Lemma matchesAll_true `{Labels L} lsel (ls : L) :
  matchesAll lsel ls = true ↔ ∀ r, r ∈ lsel → Requirement_Matches r ls = true.
Proof.
  rewrite matchesAll_forallb, forallb_forall. by setoid_rewrite list_elem_of_In.
Qed.

Lemma decided_true (op : Operator) : bool_decide (op = op) = true.
Proof. by apply bool_decide_eq_true. Qed.

Lemma decided_false (op op' : Operator) : op ≠ op' → bool_decide (op = op') = false.
Proof. apply bool_decide_eq_false. Qed.

(** A set of labels the API accepts. *)
Definition valid_labels (ls : Set_) : Prop :=
  ∀ k v, ls !! k = Some v → IsQualifiedName k = true ∧ IsValidLabelValue v = true.

Definition equals_requirement (kv : string * string) : Requirement :=
  mkRequirement kv.1 EqualsOperator {[kv.2]}.

Lemma NewString_single v : NewString [v] = {[v]}.
Proof. rewrite NewString_list_to_set. cbn. set_solver. Qed.

Lemma equals_ok k v :
  IsQualifiedName k = true → IsValidLabelValue v = true → requirement_ok (equals_requirement (k, v)).
Proof. intros. split_and!; cbn; [done|eauto|]. by intros w ->%elem_of_singleton. Qed.

Lemma setRequirements_spec l :
  match setRequirements l with
  | Some reqs => reqs = equals_requirement <$> l ∧ Forall requirement_ok reqs
  | None => ∃ k v, (k, v) ∈ l ∧ ¬ (IsQualifiedName k = true ∧ IsValidLabelValue v = true)
  end.
Proof.
  induction l as [|[k v] l IH]; cbn; [done|].
  rewrite NewString_single. destruct (NewRequirement _ _ _) as [r|e] eqn:Hr.
  - apply NewRequirement_Ok in Hr as [-> Hok]. destruct (setRequirements l); cbn.
    + destruct IH as [-> ?]. split; [done|by constructor].
    + destruct IH as (k' & v' & ? & ?). exists k', v'. split; [by right|done].
  - exists k, v. split; [left|]. intros [Hk Hv]. pose proof (equals_ok k v Hk Hv) as Hok.
    assert (NewRequirement k EqualsOperator {[v]} = Ok (equals_requirement (k, v))) as Hn
      by (by apply NewRequirement_Ok). congruence.
Qed.

Lemma setRequirements_valid ls :
  valid_labels ls ↔ setRequirements (range_map ls) = Some (equals_requirement <$> range_map ls).
Proof.
  pose proof (setRequirements_spec (range_map ls)) as Hs. split.
  - intros Hv. destruct (setRequirements _); [by destruct Hs as [-> _]|].
    destruct Hs as (k & v & Hin%elem_of_range_map & []). by apply Hv.
  - intros E k v Hin%elem_of_range_map. rewrite E in Hs. destruct Hs as [_ Hall].
    rewrite Forall_forall in Hall. destruct (Hall (equals_requirement (k, v))) as (? & _ & Hx);
      [by apply list_elem_of_fmap_2|]. split; [done|]. apply Hx. cbn. set_solver.
Qed.

Lemma equals_Matches k v (ls : Set_) :
  Requirement_Matches (equals_requirement (k, v)) ls = true ↔ ls !! k = Some v.
Proof.
  cbn. destruct (ls !! k) as [w|] eqn:Hw; cbn; [|naive_solver].
  rewrite Has_true. set_solver.
Qed.
(** The operators on sets of values. *)
Lemma Requirement_Matches_set (r : Requirement) (ls : Set_) :
  operator r ≠ GreaterThanOperator → operator r ≠ LessThanOperator →
  Requirement_Matches r ls = true ↔
  match operator r with
  | InOperator | EqualsOperator | DoubleEqualsOperator =>
      ∃ v, ls !! key r = Some v ∧ v ∈ strValues r
  | NotInOperator | NotEqualsOperator => ∀ v, ls !! key r = Some v → v ∉ strValues r
  | ExistsOperator => is_Some (ls !! key r)
  | DoesNotExistOperator => ls !! key r = None
  | _ => False
  end.
Proof.
  unfold Requirement_Matches. destruct r as [k op vals]. cbn. intros Hg Hl.
  destruct (ls !! k) as [v|] eqn:Hk; cbn; [|destruct op; naive_solver].
  destruct op; cbn -[Len]; try done;
    rewrite ?negb_true_iff, ?Has_true, ?Has_false; naive_solver.
Qed.
End facts.

(** Sorting by keys that are all different leaves one order. *)
Lemma same_key l r1 r2 : NoDup (key <$> l) → r1 ∈ l → r2 ∈ l → key r1 = key r2 → r1 = r2.
Proof.
  intros Hnd [i Hi]%list_elem_of_lookup [j Hj]%list_elem_of_lookup Hk.
  assert (i = j) as <-; [|by simplify_eq].
  eapply NoDup_lookup; [exact Hnd|..]; rewrite list_lookup_fmap, ?Hi, ?Hj; cbn; by f_equal.
Qed.

Lemma sort_ByKey_unique `{KeySort} l l' : l ≡ₚ l' → NoDup (key <$> l) → sort_ByKey l = sort_ByKey l'.
Proof.
  intros Hp Hnd. pose proof (sort_ByKey_perm l) as Hl. pose proof (sort_ByKey_perm l') as Hl'.
  apply (StronglySorted_unique_strong key_le); [|apply sort_ByKey_sorted..|by rewrite Hl, Hl', Hp].
  intros r1 r2 H1 H2 Hle Hle'. rewrite Hl in H1. rewrite Hl', <- Hp in H2.
  apply (same_key l); [done..|]. by apply (anti_symm String.le).
Qed.

(** ** Properties *)

(** A requirement matches the label sets its operator describes: a key
    with a value among its values for [in], [=] and [==]; no such key, or
    another value, for [notin] and [!=]; the presence or absence of the key; a
    value that is a number above or below the single number required. *)
Theorem Requirement_Matches_spec (R : RangeOrder) (r : Requirement) (ls : Set_) :
  Requirement_Matches r ls = true ↔
  match operator r with
  | InOperator | EqualsOperator | DoubleEqualsOperator =>
      ∃ v, ls !! key r = Some v ∧ v ∈ strValues r
  | NotInOperator | NotEqualsOperator => ∀ v, ls !! key r = Some v → v ∉ strValues r
  | ExistsOperator => is_Some (ls !! key r)
  | DoesNotExistOperator => ls !! key r = None
  | GreaterThanOperator => ∃ v x w y, ls !! key r = Some v ∧ ParseFloat v = Ok x ∧
      strValues r = {[w]} ∧ ParseFloat w = Ok y ∧ flt y x = true
  | LessThanOperator => ∃ v x w y, ls !! key r = Some v ∧ ParseFloat v = Ok x ∧
      strValues r = {[w]} ∧ ParseFloat w = Ok y ∧ flt x y = true
  | UnknownOperator _ => False
  end.
Proof.
  destruct (decide (operator r ∈ [GreaterThanOperator; LessThanOperator])) as [Hop|Hop].
  2: { rewrite Requirement_Matches_set by (intros E; apply Hop; rewrite E; set_solver).
       destruct (operator r); try done; destruct Hop; set_solver. }
  unfold Requirement_Matches. destruct r as [k op vals]. cbn in Hop |- *.
  destruct (ls !! k) as [v|] eqn:Hk; cbn.
  2: apply list_elem_of_In in Hop; cbn in Hop; naive_solver.
  apply list_elem_of_In in Hop as [<-|[<-|[]]]; cbn -[Len].
  all: destruct (ParseFloat v) as [x|e] eqn:Hv;
    [|split; [done|]; intros (? & ? & ? & ? & [= <-] & ? & _); congruence].
  all: destruct (Nat.eqb (size vals) 1) eqn:Hl; cbn;
    [apply Len_single in Hl as [w ->]; rewrite range_set_single; cbn
    |split; [done|]; intros (? & ? & w & ? & _ & _ & Hw & _);
     apply not_true_iff_false in Hl; destruct Hl; apply Len_single; eauto].
  all: destruct (ParseFloat w) as [y|e] eqn:Hw; rewrite ?decided_true, ?decided_false by done;
    cbn; rewrite ?orb_false_r.
  all: split;
    [|intros (v' & x' & w' & y' & [= <-] & ? & <-%singleton_inj & ? & ?); congruence].
  all: intros Hlt; try done; by exists v, x, w, y.
Qed.

(** [Add] narrows a selector by the new requirements and keeps the old
    ones, leaves the selector that matches nothing alone, and gives the
    requirements sorted by key; [Everything] is empty and matches all, [Nothing]
    is not empty and matches none. *)
Theorem Add_narrows (R : RangeOrder) `{KeySort} `{Labels L} (s : Selector) reqs (ls : L) :
  Matches (Add s reqs) ls = Matches s ls && matchesAll reqs ls ∧
  (∀ lsel, Add s reqs = internalSelector lsel → StronglySorted key_le lsel) ∧
  Empty Everything = true ∧ Matches Everything ls = true ∧
  Empty Nothing = false ∧ Matches Nothing ls = false ∧ Add Nothing reqs = Nothing.
Proof.
  split_and!; try done.
  - destruct s as [lsel|]; cbn; [|done].
    rewrite (matchesAll_perm _ _ ls (sort_ByKey_perm _)), !matchesAll_forallb. apply forallb_app.
  - intros lsel Hl. destruct s; simplify_eq/=. apply sort_ByKey_sorted.
Qed.

Lemma SelectorFromSet_ok (R : RangeOrder) `{KeySort} (ls other : Set_) :
  (Matches (SelectorFromSet ls) other = true ↔ (valid_labels ls → ls ⊆ other)) ∧
  (Empty (SelectorFromSet ls) = true ↔ (valid_labels ls → ls = ∅)).
Proof.
  unfold SelectorFromSet. pose proof (setRequirements_valid ls) as Hv. unfold Set_ in *.
  pose proof (setRequirements_spec (range_map ls)) as Hs.
  destruct (setRequirements (range_map ls)) as [reqs|].
  - destruct Hs as [-> _]. assert (valid_labels ls) as Hval by (by apply Hv). cbn. split.
    + rewrite (matchesAll_perm _ _ other (sort_ByKey_perm _)), matchesAll_true.
      split; [intros Hall _|intros Hall].
      * apply map_subseteq_spec. intros k v Hin. apply equals_Matches, Hall, list_elem_of_fmap_2.
        by apply elem_of_range_map.
      * intros r (kv & -> & Hin)%list_elem_of_fmap. destruct kv as [k v].
        apply equals_Matches. specialize (Hall Hval). rewrite map_subseteq_spec in Hall.
        apply Hall. by apply elem_of_range_map.
    + rewrite Nat.eqb_eq, (Permutation_length (sort_ByKey_perm _)), length_fmap, length_range_map.
      rewrite map_size_empty_iff. tauto.
  - assert (¬ valid_labels ls) by (by intros ?%Hv). cbn. tauto.
Qed.

(** The selector made of a label set matches the label sets that extend
    it, but only if every label of the set is valid: otherwise it is the empty
    selector, which matches every label set. *)
Theorem SelectorFromSet_spec (R : RangeOrder) `{KeySort} (ls other : Set_) :
  (Matches (SelectorFromSet ls) other = true ↔ (valid_labels ls → ls ⊆ other)) ∧
  (Empty (SelectorFromSet ls) = true ↔ (valid_labels ls → ls = ∅)).
Proof. apply SelectorFromSet_ok. Qed.
