(* ===== verification/LabelsParse.v ===== *)
(** * labels: the lexer and parser of selectors

    Models the lexer, the parser and [Parse] of [pkg/labels/selector.go].  The
    lexer's state is the part of the string it has still to read: [read] takes
    a byte off it, or gives 0 at the end, and [unread] puts back the byte just
    read.  The parser indexes its token slice at a position that only grows; an
    index out of range is the Go panic [OutOfRange].  Loops run on fuel, and
    [OutOfFuel] is a loop that used it all: [Parse_total] shows that neither
    ever happens. *)

From S2P Require Import Prelude.
From S2P Require Import SetsString.
From S2P Require Import Validation.
From S2P Require Import Float.
From S2P Require Import Labels.

(** ** Tokens *)

Inductive Token : Type :=
| ErrorToken | EndOfStringToken | ClosedParToken | CommaToken | DoesNotExistToken
| DoubleEqualsToken | EqualsToken | GreaterThanToken | IdentifierToken | InToken
| LessThanToken | NotEqualsToken | NotInToken | OpenParToken.

#[export] Instance Token_eq_dec : EqDecision Token.
Proof. solve_decision. Defined.

Definition string2token (s : string) : option Token :=
  match s with
  | ")" => Some ClosedParToken
  | "," => Some CommaToken
  | "!" => Some DoesNotExistToken
  | "==" => Some DoubleEqualsToken
  | "=" => Some EqualsToken
  | ">" => Some GreaterThanToken
  | "in" => Some InToken
  | "<" => Some LessThanToken
  | "!=" => Some NotEqualsToken
  | "notin" => Some NotInToken
  | "(" => Some OpenParToken
  | _ => None
  end%string.
Arguments string2token : simpl never.

Record ScannedItem : Type := mkItem { tok : Token; literal : string }.

(** ** Lexer *)

Definition NUL : ascii := "000"%char.

Definition isWhitespace (ch : ascii) : bool :=
  is_char " " ch || is_char "009" ch || is_char "013" ch || is_char "010" ch.

Definition isSpecialSymbol (ch : ascii) : bool :=
  bool_decide (ch ∈ ["="; "!"; "("; ")"; ","; ">"; "<"]%char).

(** [s] is what [l.s] holds from [l.pos] on. *)
Record Lexer : Type := mkLexer { s : string }.

Definition read (l : Lexer) : ascii * Lexer :=
  match s l with
  | EmptyString => (NUL, l)
  | String b s => (b, mkLexer s)
  end.

Definition unread (b : ascii) (l : Lexer) : Lexer := mkLexer (String b (s l)).

(** [IdentifierLoop]: the bytes of the identifier, and the lexer after it. *)
Fixpoint identifierLoop (s : string) (buffer : string) : string * Lexer :=
  match s with
  | EmptyString => (buffer, mkLexer s)
  | String ch s' =>
      if decide (ch = NUL) then (buffer, mkLexer s')
      else if isSpecialSymbol ch || isWhitespace ch then (buffer, unread ch (mkLexer s'))
      else identifierLoop s' (buffer +:+ String ch "")
  end.

Definition scanIdOrKeyword (l : Lexer) : ScannedItem * Lexer :=
  let '(s, l) := identifierLoop (s l) "" in
  match string2token s with
  | Some val => (mkItem val s, l)
  | None => (mkItem IdentifierToken s, l)
  end.

(** [SpecialSymbolLoop]: the buffer, the last symbol it was, and the lexer. *)
Fixpoint specialSymbolLoop (s : string) (buffer : string) (last : option ScannedItem) :
    string * option ScannedItem * Lexer :=
  match s with
  | EmptyString => (buffer, last, mkLexer s)
  | String ch s' =>
      if decide (ch = NUL) then (buffer, last, mkLexer s')
      else if isSpecialSymbol ch then
        let buffer := buffer +:+ String ch "" in
        match string2token buffer with
        | Some token => specialSymbolLoop s' buffer (Some (mkItem token buffer))
        | None =>
            match last with
            | Some _ => (buffer, last, unread ch (mkLexer s'))
            | None => specialSymbolLoop s' buffer last
            end
        end
      else (buffer, last, unread ch (mkLexer s'))
  end.

Definition scanSpecialSymbol (l : Lexer) : ScannedItem * Lexer :=
  match specialSymbolLoop (s l) "" None with
  | (buffer, None, l) =>
      (mkItem ErrorToken ("error expected: keyword found '" +:+ buffer +:+ "'"), l)
  | (_, Some item, l) => (item, l)
  end.

(** The first byte that is not blank, and the lexer after it. *)
Fixpoint skipWhiteSpaces (s : string) : ascii * Lexer :=
  match s with
  | EmptyString => (NUL, mkLexer s)
  | String ch s => if isWhitespace ch then skipWhiteSpaces s else (ch, mkLexer s)
  end.

Definition Lex (l : Lexer) : ScannedItem * Lexer :=
  let '(ch, l) := skipWhiteSpaces (s l) in
  if decide (ch = NUL) then (mkItem EndOfStringToken "", l)
  else if isSpecialSymbol ch then scanSpecialSymbol (unread ch l)
  else scanIdOrKeyword (unread ch l).

(** ** Parser *)

Record Parser : Type := mkParser { scannedItems : list ScannedItem; position : nat }.

Inductive ParserContext : Type := KeyAndOperator | ValuesContext.

(** How a parser method ends: a value and the parser after it, an error, the
    panic of an index out of range, or a loop out of fuel. *)
Inductive run (A : Type) : Type :=
| Done (a : A) (p : Parser)
| Fails (err : string)
| OutOfRange
| OutOfFuel.
Arguments Done {A} a p.
Arguments Fails {A} err.
Arguments OutOfRange {A}.
Arguments OutOfFuel {A}.

Definition parser (A : Type) : Type := Parser → run A.

Definition pret {A} (a : A) : parser A := λ p, Done a p.
Definition pfail {A} (err : string) : parser A := λ p, Fails err.
Definition pbind {A B} (m : parser A) (f : A → parser B) : parser B := λ p,
  match m p with
  | Done a p => f a p
  | Fails err => Fails err
  | OutOfRange => OutOfRange
  | OutOfFuel => OutOfFuel
  end.

Declare Scope parser_scope.
Delimit Scope parser_scope with parser.
Notation "'let*' x := m 'in' k" := (pbind m (λ x, k))
  (at level 10, x pattern, m at level 200, k at level 200) : parser_scope.
#[local] Open Scope parser_scope.

(** In the context of values the words [in] and [notin] are identifiers. *)
Definition inContext (context : ParserContext) (tok : Token) : Token :=
  match context, tok with
  | ValuesContext, (InToken | NotInToken) => IdentifierToken
  | _, _ => tok
  end.

Definition lookahead (context : ParserContext) : parser (Token * string) := λ p,
  match scannedItems p !! position p with
  | Some item => Done (inContext context (tok item), literal item) p
  | None => OutOfRange
  end.

Definition consume (context : ParserContext) : parser (Token * string) := λ p,
  match scannedItems p !! position p with
  | Some item =>
      Done (inContext context (tok item), literal item) (mkParser (scannedItems p) (S (position p)))
  | None => OutOfRange
  end.

Fixpoint scan (fuel : nat) (l : Lexer) : option (list ScannedItem) :=
  match fuel with
  | 0 => None
  | S fuel =>
      let '(item, l) := Lex l in
      if decide (tok item = EndOfStringToken) then Some [item] else cons item <$> scan fuel l
  end.

(** ['found '<lit>', expected: ...'] *)
Definition found (lit expected : string) : string :=
  "found '" +:+ lit +:+ "', expected: " +:+ expected.

Definition parseOperator : parser Operator :=
  let* (tok, lit) := consume KeyAndOperator in
  match tok with
  | InToken => pret InOperator
  | EqualsToken => pret EqualsOperator
  | DoubleEqualsToken => pret DoubleEqualsOperator
  | GreaterThanToken => pret GreaterThanOperator
  | LessThanToken => pret LessThanOperator
  | NotInToken => pret NotInOperator
  | NotEqualsToken => pret NotEqualsOperator
  | _ => pfail (found lit "'=', '!=', '==', 'in', notin'")
  end.

(** The key, and the operator when it is known from the key alone. *)
Definition parseKeyAndInferOperator : parser (string * option Operator) :=
  let* (tok, literal) := consume ValuesContext in
  let* (operator, tok, literal) :=
    (if decide (tok = DoesNotExistToken) then
       let* (tok, literal) := consume ValuesContext in
       pret (Some DoesNotExistOperator, tok, literal)
     else pret (None, tok, literal)) in
  if decide (tok ≠ IdentifierToken) then pfail (found literal "identifier")
  else
    match validateLabelKey literal with
    | Some err => pfail err
    | None =>
        let* (t, _) := lookahead ValuesContext in
        if bool_decide (t = EndOfStringToken) || bool_decide (t = CommaToken)
        then if decide (operator ≠ Some DoesNotExistOperator)
             then pret (literal, Some ExistsOperator) else pret (literal, operator)
        else pret (literal, operator)
    end.

Fixpoint parseIdentifiersList (fuel : nat) (s : gset string) : parser (gset string) :=
  match fuel with
  | 0 => λ _, OutOfFuel
  | S fuel =>
      let* (tok, lit) := consume ValuesContext in
      match tok with
      | IdentifierToken =>
          let s := Insert s [lit] in
          let* (tok2, lit2) := lookahead ValuesContext in
          match tok2 with
          | CommaToken => parseIdentifiersList fuel s
          | ClosedParToken => pret s
          | _ => pfail (found lit2 "',' or ')'")
          end
      | CommaToken =>
          let s := if Nat.eqb (Len s) 0 then Insert s [""] else s in
          let* (tok2, _) := lookahead ValuesContext in
          if decide (tok2 = ClosedParToken) then pret (Insert s [""])
          else if decide (tok2 = CommaToken) then
            let* _ := consume ValuesContext in
            parseIdentifiersList fuel (Insert s [""])
          else parseIdentifiersList fuel s
      | _ => pfail (found lit "',', or identifier")
      end
  end.

Definition parseValues (fuel : nat) : parser (gset string) :=
  let* (tok, lit) := consume ValuesContext in
  if decide (tok ≠ OpenParToken) then pfail ("found '" +:+ lit +:+ "' expected: '('")
  else
    let* (tok, lit) := lookahead ValuesContext in
    match tok with
    | IdentifierToken | CommaToken =>
        let* s := parseIdentifiersList fuel (NewString []) in
        let* (tok, _) := consume ValuesContext in
        if decide (tok ≠ ClosedParToken) then pfail (found lit "')'") else pret s
    | ClosedParToken =>
        let* _ := consume ValuesContext in pret (NewString [""])
    | _ => pfail (found lit "',', ')' or identifier")
    end.

Definition parseExactValue : parser (gset string) :=
  let s := NewString [] in
  let* (tok, lit) := lookahead ValuesContext in
  if bool_decide (tok = EndOfStringToken) || bool_decide (tok = CommaToken)
  then pret (Insert s [""])
  else
    let* (tok, lit) := consume ValuesContext in
    if decide (tok = IdentifierToken) then pret (Insert s [lit])
    else pfail (found lit "identifier").

Section parse.
Context `{R : RangeOrder}.

Definition newRequirement (key : string) (op : Operator) (vals : gset string) : parser Requirement :=
  match NewRequirement key op vals with
  | Ok r => pret r
  | Err err => pfail err
  end.

Definition parseRequirement (fuel : nat) : parser Requirement :=
  let* (key, operator) := parseKeyAndInferOperator in
  match operator with
  | Some operator => newRequirement key operator ∅
  | None =>
      let* operator := parseOperator in
      let* values :=
        match operator with
        | InOperator | NotInOperator => parseValues fuel
        | EqualsOperator | DoubleEqualsOperator | NotEqualsOperator
        | GreaterThanOperator | LessThanOperator => parseExactValue
        | _ => pret ∅
        end in
      newRequirement key operator values
  end.

(** The loop of [parse], with the requirements so far. *)
Fixpoint parseLoop (fuel : nat) (requirements : list Requirement) : parser (list Requirement) :=
  match fuel with
  | 0 => λ _, OutOfFuel
  | S fuel =>
      let* (tok, lit) := lookahead ValuesContext in
      match tok with
      | IdentifierToken | DoesNotExistToken => λ p,
          match parseRequirement fuel p with
          | Done r p =>
              (let requirements := requirements ++ [r] in
               let* (t, l) := consume ValuesContext in
               match t with
               | EndOfStringToken => pret requirements
               | CommaToken =>
                   let* (t2, l2) := lookahead ValuesContext in
                   if bool_decide (t2 ≠ IdentifierToken) && bool_decide (t2 ≠ DoesNotExistToken)
                   then pfail (found l2 "identifier after ','")
                   else parseLoop fuel requirements
               | _ => pfail (found l "',' or 'end of string'")
               end) p
          | Fails err => Fails ("unable to parse requirement: " +:+ err)
          | OutOfRange => OutOfRange
          | OutOfFuel => OutOfFuel
          end
      | EndOfStringToken => pret requirements
      | _ => pfail (found lit "!, identifier, or 'end of string'")
      end
  end.

(** [p.parse()] on a new parser of the string. *)
Definition parse (selector : string) : run (list Requirement) :=
  match scan (S (String.length selector)) (mkLexer selector) with
  | Some items => parseLoop (S (length items)) [] (mkParser items 0)
  | None => OutOfFuel
  end.

Definition Parse `{KeySort} (selector : string) : run Selector :=
  match parse selector with
  | Done items p => Done (internalSelector (sort_ByKey items)) p
  | Fails err => Fails err
  | OutOfRange => OutOfRange
  | OutOfFuel => OutOfFuel
  end.
End parse.

(** ** The lexer makes progress *)

Lemma string2token_not_end s t : string2token s = Some t → t ≠ EndOfStringToken ∧ t ≠ ErrorToken.
Proof. unfold string2token. intros Hs. repeat (case_match; simplify_eq; try done). Qed.

Lemma string2token_special ch : isSpecialSymbol ch = true → is_Some (string2token (String ch "")).
Proof.
  intros Hch%bool_decide_eq_true. rewrite !elem_of_cons in Hch.
  destruct Hch as [->|[->|[->|[->|[->|[->|[->|[]%not_elem_of_nil]]]]]]]; vm_compute; eauto.
Qed.

Lemma identifierLoop_length str : ∀ buffer,
  String.length (s (identifierLoop str buffer).2) ≤ String.length str.
Proof.
  induction str as [|ch str IH]; intros buffer; cbn; [done|].
  case_decide; cbn; [lia|]. destruct (_ || _); cbn; [lia|]. specialize (IH (buffer +:+ String ch "")). lia.
Qed.

Definition not_end (item : ScannedItem) : Prop :=
  tok item ≠ EndOfStringToken ∧ tok item ≠ ErrorToken.

Lemma specialSymbolLoop_length str : ∀ buffer last,
  let '(_, last', l) := specialSymbolLoop str buffer last in
  String.length (s l) ≤ String.length str ∧
  (is_Some last → is_Some last') ∧
  ((∀ i, last = Some i → not_end i) → ∀ i, last' = Some i → not_end i).
Proof.
  induction str as [|ch str IH]; intros buffer last; cbn; [done|].
  case_decide; cbn; [by eauto with lia|].
  destruct (isSpecialSymbol ch); cbn; [|done].
  destruct (string2token (buffer +:+ String ch "")) as [t|] eqn:Ht.
  - specialize (IH (buffer +:+ String ch "") (Some (mkItem t (buffer +:+ String ch "")))).
    destruct (specialSymbolLoop _ _ _) as [[b' last'] l]. destruct IH as (Hl & Hs & Hi).
    split_and!; [lia|eauto|]. intros _. apply Hi. intros i [= <-].
    by apply string2token_not_end in Ht.
  - destruct last as [i|]; [done|].
    specialize (IH (buffer +:+ String ch "") None).
    destruct (specialSymbolLoop _ _ _) as [[b' last'] l]. destruct IH as (Hl & Hs & Hi).
    split_and!; [lia|eauto..].
Qed.

Lemma skipWhiteSpaces_length str ch l :
  skipWhiteSpaces str = (ch, l) → ch ≠ NUL → String.length (s l) < String.length str.
Proof.
  induction str as [|c str IH]; cbn; [naive_solver|]. destruct (isWhitespace c).
  - intros Hl Hch. specialize (IH Hl Hch). lia.
  - intros [= <- <-] _. cbn. lia.
Qed.

Lemma skipWhiteSpaces_nonblank str ch l :
  skipWhiteSpaces str = (ch, l) → isWhitespace ch = false.
Proof.
  induction str as [|c str IH]; cbn; [by intros [= <- <-]|].
  destruct (isWhitespace c) eqn:Hc; [done|]. by intros [= <- <-].
Qed.

(** Every token but the last uses up a part of the string, and the scanner
    never gives the error token. *)
Lemma Lex_progress l item l' :
  Lex l = (item, l') →
  (item = mkItem EndOfStringToken "" ∨ not_end item ∧ String.length (s l') < String.length (s l)).
Proof.
  unfold Lex. destruct (skipWhiteSpaces (s l)) as [ch l0] eqn:Hskip. case_decide as Hnul.
  { intros [= <- <-]. by left. }
  pose proof (skipWhiteSpaces_length _ _ _ Hskip Hnul) as Hlen.
  pose proof (skipWhiteSpaces_nonblank _ _ _ Hskip) as Hws.
  destruct (isSpecialSymbol ch) eqn:Hsp; intros HL; right.
  - unfold scanSpecialSymbol, unread in HL. cbn in HL. rewrite decide_False, Hsp in HL by done.
    destruct (string2token_special ch Hsp) as [t Ht]. rewrite !str_nil_app, Ht in HL.
    pose proof (specialSymbolLoop_length (s l0) (String ch "") (Some (mkItem t (String ch "")))) as Hloop.
    destruct (specialSymbolLoop _ _ _) as [[b last] l1]. destruct Hloop as (Hl & Hs & Hi).
    destruct Hs as [i ->]; [by eexists|]. injection HL as <- <-. split; [|lia].
    apply Hi; [|done]. intros i' [= <-]. by apply string2token_not_end in Ht.
  - unfold scanIdOrKeyword, unread in HL. cbn in HL. rewrite decide_False, Hsp, Hws in HL by done.
    rewrite !str_nil_app in HL. cbn in HL.
    pose proof (identifierLoop_length (s l0) (String ch "")) as Hl.
    destruct (identifierLoop _ _) as [str l1]. cbn in *.
    destruct (string2token str) as [t|] eqn:Ht; injection HL as <- <-; (split; [|lia]);
      [by apply string2token_not_end in Ht|done].
Qed.

(** The scanned items: tokens, then the end. *)
Definition terminated (items : list ScannedItem) : Prop :=
  ∃ l, items = l ++ [mkItem EndOfStringToken ""] ∧ Forall not_end l.

Lemma scan_total fuel : ∀ l, String.length (s l) < fuel → ∃ items, scan fuel l = Some items ∧ terminated items.
Proof.
  induction fuel as [|fuel IH]; intros l Hl; [lia|]. cbn.
  destruct (Lex l) as [item l'] eqn:HL. apply Lex_progress in HL as [->|[Hi Hlen]].
  - rewrite decide_True by done. eexists. split; [done|]. by exists [].
  - rewrite decide_False by apply Hi. destruct (IH l') as (items & -> & rest & -> & Hr); [lia|].
    eexists. split; [done|]. exists (item :: rest). by split; [|constructor].
Qed.

(** ** Reading tokens *)

Definition rest (p : Parser) : list ScannedItem := drop (position p) (scannedItems p).
Arguments rest : simpl never.

Definition advance (p : Parser) : Parser := mkParser (scannedItems p) (S (position p)).

Lemma rest_lookup p item l : rest p = item :: l → scannedItems p !! position p = Some item.
Proof.
  unfold rest. intros Hp. rewrite <- (Nat.add_0_r (position p)), <- lookup_drop, Hp. done.
Qed.

Lemma rest_advance p item l : rest p = item :: l → rest (advance p) = l.
Proof.
  unfold rest. intros Hp. cbn. rewrite <- (drop_drop _ 1 (position p)) at 1 || idtac.
  replace (S (position p)) with (position p + 1) by lia. by rewrite <- drop_drop, Hp.
Qed.

Lemma rest_length p item l : rest p = item :: l → length (rest p) = S (length (rest (advance p))).
Proof. intros Hp. by rewrite (rest_advance _ _ _ Hp), Hp. Qed.

Lemma consume_eq c p item l :
  rest p = item :: l → consume c p = Done (inContext c (tok item), literal item) (advance p).
Proof. intros Hp. unfold consume. by rewrite (rest_lookup _ _ _ Hp). Qed.

Lemma lookahead_eq c p item l :
  rest p = item :: l → lookahead c p = Done (inContext c (tok item), literal item) p.
Proof. intros Hp. unfold lookahead. by rewrite (rest_lookup _ _ _ Hp). Qed.

Lemma inContext_end c t : inContext c t = EndOfStringToken ↔ t = EndOfStringToken.
Proof. by destruct c, t. Qed.

(** A run that neither panics nor runs out of fuel. *)
Definition safe {A} (Q : A → Parser → Prop) (r : run A) : Prop :=
  match r with Done a p => Q a p | Fails _ => True | _ => False end.

Lemma safe_bind {A B} (Q : A → Parser → Prop) (Q' : B → Parser → Prop) m f p :
  safe Q (m p) → (∀ a p', Q a p' → safe Q' (f a p')) → safe Q' (pbind m f p).
Proof. unfold pbind. destruct (m p); cbn; auto. Qed.

Lemma safe_weaken {A} (Q Q' : A → Parser → Prop) r :
  (∀ a p, Q a p → Q' a p) → safe Q r → safe Q' r.
Proof. destruct r; cbn; auto. Qed.

(** The parser after [p], with tokens up to the end still to read. *)
Definition onward (p p' : Parser) : Prop :=
  terminated (rest p') ∧ length (rest p') ≤ length (rest p).

Lemma onward_refl p : terminated (rest p) → onward p p.
Proof. by split. Qed.

Lemma onward_trans p p' p'' : onward p p' → onward p' p'' → onward p p''.
Proof. intros [] []. split; [done|lia]. Qed.

Lemma terminated_cons items : terminated items →
  ∃ item l, items = item :: l ∧ (tok item ≠ EndOfStringToken → terminated l).
Proof.
  intros (l & -> & Hl). destruct l as [|i l]; cbn; eexists _, _; (split; [done|]); [done|].
  intros _. apply Forall_cons in Hl as [_ Hl]. by exists l.
Qed.

(** A token that is not the end leaves fewer tokens. *)
Lemma consume_safe c p : terminated (rest p) →
  safe (λ '(t, _) p', t ≠ EndOfStringToken → onward p p' ∧ length (rest p') < length (rest p))
    (consume c p).
Proof.
  intros (item & l & Hp & Hl)%terminated_cons. rewrite (consume_eq _ _ _ _ Hp).
  cbn [safe]. rewrite inContext_end. intros Hne%Hl. unfold onward.
  rewrite (rest_advance _ _ _ Hp), Hp. cbn. split_and!; [done|lia..].
Qed.

(** The token ahead is the one that is consumed next. *)
Lemma lookahead_safe c p : terminated (rest p) →
  safe (λ x p', p' = p ∧ consume c p = Done x (advance p)) (lookahead c p).
Proof.
  intros (item & l & Hp & Hl)%terminated_cons.
  by rewrite (lookahead_eq _ _ _ _ Hp), (consume_eq _ _ _ _ Hp).
Qed.

(** Prove a parser safe: run the first step, then the rest. *)
Ltac safe_consume Hp t lit q Hq :=
  eapply safe_bind; [apply consume_safe; exact Hp|]; intros [t lit] q Hq.
Ltac safe_lookahead Hp t lit Hq :=
  eapply safe_bind; [apply lookahead_safe; exact Hp|]; intros [t lit] ? [-> Hq].

Lemma parseOperator_safe p : terminated (rest p) → safe (λ _, onward p) (parseOperator p).
Proof.
  intros Hp. unfold parseOperator. safe_consume Hp t lit q Hq.
  destruct t; try done; by apply Hq.
Qed.

Lemma parseKey_safe p : terminated (rest p) →
  safe (λ _ p', onward p p' ∧ length (rest p') < length (rest p)) (parseKeyAndInferOperator p).
Proof.
  intros Hp. unfold parseKeyAndInferOperator. safe_consume Hp t lit q Hq.
  eapply (safe_bind (λ '(_, t, _) p', t = IdentifierToken →
    onward p p' ∧ length (rest p') < length (rest p))).
  - case_decide as Ht; [|intros Ht'; by apply Hq; subst].
    destruct Hq as [Ho Hl]; [by subst|]. safe_consume (proj1 Ho) t' lit' q' Hq'.
    intros ->. destruct Hq' as [Ho' Hl']; [done|]. split; [by eapply onward_trans|lia].
  - intros [[op t'] lit'] p' Hp'. case_decide as Ht; [done|].
    destruct (validateLabelKey lit'); [done|].
    assert (onward p p' ∧ length (rest p') < length (rest p)) as [Ho Hl].
    { apply Hp'. by destruct (decide (t' = IdentifierToken)). }
    safe_lookahead (proj1 Ho) t2 lit2 Hq2.
    destruct (_ || _); [case_decide|]; done.
Qed.

Lemma parseIdentifiersList_safe fuel : ∀ vals p, terminated (rest p) → length (rest p) < fuel →
  safe (λ _, onward p) (parseIdentifiersList fuel vals p).
Proof.
  induction fuel as [|fuel IH]; intros vals p Hp Hf; [lia|]. cbn. safe_consume Hp t lit q Hq.
  assert (∀ vals p', onward p p' → length (rest p') < length (rest p) →
    safe (λ _, onward p) (parseIdentifiersList fuel vals p')) as Hloop.
  { intros vals' p' [Ht Hle] Hlt. eapply safe_weaken; [|apply IH; [done|lia]].
    intros ? p''. by apply onward_trans. }
  destruct t; try done; destruct Hq as [Ho Hlt]; try done;
    safe_lookahead (proj1 Ho) t2 lit2 Hq2.
  - case_decide; [done|]. case_decide as Ht; [|by apply Hloop]. subst.
    pose proof (consume_safe ValuesContext _ (proj1 Ho)) as Hc. unfold pbind.
    rewrite Hq2 in Hc |- *. destruct Hc as [Ho' Hlt']; [done|].
    apply Hloop; [by eapply onward_trans|lia].
  - destruct t2; try done. by apply Hloop.
Qed.

Lemma parseValues_safe fuel p : terminated (rest p) → length (rest p) < fuel →
  safe (λ _, onward p) (parseValues fuel p).
Proof.
  intros Hp Hf. unfold parseValues. safe_consume Hp t lit q Hq. case_decide as Ht; [done|].
  destruct Hq as [Ho Hlt]; [by subst|]. safe_lookahead (proj1 Ho) t2 lit2 Hq2.
  assert (safe (λ _, onward p) (pbind (parseIdentifiersList fuel (NewString [])) (λ s,
    pbind (consume ValuesContext) (λ '(tok, _),
      if decide (tok ≠ ClosedParToken) then pfail (found lit2 "')'") else pret s)) q)) as Hlist.
  { eapply safe_bind; [apply parseIdentifiersList_safe; [apply Ho|lia]|].
    intros vals p' Ho'. safe_consume (proj1 Ho') t3 lit3 q3 Hq3. case_decide as Ht3; [done|].
    destruct Hq3 as [Ho3 _]; [by subst|]. 
    exact (onward_trans _ _ _ (onward_trans _ _ _ Ho Ho') Ho3). }
  destruct t2; try done. pose proof (consume_safe ValuesContext _ (proj1 Ho)) as Hc.
  unfold pbind. rewrite Hq2 in Hc |- *. destruct Hc as [Ho' _]; [done|].
  by eapply onward_trans.
Qed.

Lemma parseExactValue_safe p : terminated (rest p) → safe (λ _, onward p) (parseExactValue p).
Proof.
  intros Hp. unfold parseExactValue. safe_lookahead Hp t lit Hq.
  destruct (_ || _); [by apply onward_refl|]. safe_consume Hp t' lit' q Hq'.
  case_decide as Ht; [|done]. subst. by apply Hq'.
Qed.

Section parse_safe.
Context `{R : RangeOrder}.

Lemma newRequirement_safe k op vals p :
  safe (λ r p', requirement_ok r ∧ p' = p) (newRequirement k op vals p).
Proof.
  unfold newRequirement. destruct (NewRequirement k op vals) as [r|] eqn:Hr; [|done].
  apply NewRequirement_Ok in Hr. cbn. naive_solver.
Qed.

Lemma parseRequirement_safe fuel p : terminated (rest p) → length (rest p) ≤ fuel →
  safe (λ r p', requirement_ok r ∧ onward p p' ∧ length (rest p') < length (rest p))
    (parseRequirement fuel p).
Proof.
  intros Hp Hf. unfold parseRequirement.
  eapply safe_bind; [by apply parseKey_safe|]. intros [k op] p1 [Ho1 Hl1].
  destruct op as [op|].
  { eapply safe_weaken; [|apply newRequirement_safe]. by intros r p' [? ->]. }
  eapply safe_bind; [apply parseOperator_safe, Ho1|]. intros op p2 Ho2.
  eapply (safe_bind (λ _, onward p2)).
  - destruct Ho2 as [Ht2 Hl2].
    destruct op; try (by apply onward_refl); try (by apply parseExactValue_safe);
      apply parseValues_safe; [done|lia|done|lia].
  - intros vals p3 Ho3. eapply safe_weaken; [|apply newRequirement_safe]. intros r p' [? ->].
    destruct Ho1, Ho2, Ho3. unfold onward. split_and!; [done..|lia|lia].
Qed.

Lemma parseLoop_safe fuel : ∀ reqs p, terminated (rest p) → length (rest p) < fuel →
  Forall requirement_ok reqs →
  safe (λ reqs' _, Forall requirement_ok reqs') (parseLoop fuel reqs p).
Proof.
  induction fuel as [|fuel IH]; intros reqs p Hp Hf Hr; [lia|]. cbn.
  safe_lookahead Hp t lit Hq.
  pose proof (parseRequirement_safe fuel p Hp ltac:(lia)) as Hreq.
  destruct t; try done; destruct (parseRequirement fuel p) as [r p1| | |]; try done;
    destruct Hreq as (Hok & Ho1 & Hl1);
    assert (Forall requirement_ok (reqs ++ [r])) by (apply Forall_app; auto);
    safe_consume (proj1 Ho1) t2 lit2 q2 Hq2; destruct t2; try done;
    (destruct Hq2 as [Ho2 Hl2]; [done|]); safe_lookahead (proj1 Ho2) t3 lit3 Hq3;
    (destruct (_ && _); [done|]); apply IH; solve [apply Ho2|lia|done].
Qed.
End parse_safe.

(** ** Scanning what selectors print *)

(** A byte of a key or value, and the end of a word. *)
Definition word_byte (c : ascii) : bool :=
  negb (isSpecialSymbol c) && negb (isWhitespace c) && negb (is_char NUL c).
Abbreviation wordy w := (Forall (λ c, word_byte c = true) (bytes w)).

Definition stops (r : string) : Prop :=
  match r with
  | EmptyString => True
  | String c _ => isSpecialSymbol c || isWhitespace c = true ∧ c ≠ NUL
  end.

(** No zero byte, which the lexer takes for the end of the string. *)
Abbreviation clean r := (NUL ∉ bytes r).

Lemma word_byte_cases c : word_byte c = true →
  isSpecialSymbol c = false ∧ isWhitespace c = false ∧ c ≠ NUL.
Proof.
  unfold word_byte. rewrite !andb_true_iff, !negb_true_iff. intros [[? ?] ?%bool_decide_eq_false].
  done.
Qed.

Lemma identifierLoop_word w r : ∀ buffer, wordy w → stops r →
  identifierLoop (w +:+ r) buffer = (buffer +:+ w, mkLexer r).
Proof.
  induction w as [|c w IH]; intros buffer Hw Hr.
  - rewrite str_nil_app. assert (buffer +:+ "" = buffer) as ->.
    { apply bytes_inj. by rewrite bytes_app, app_nil_r. }
    destruct r as [|c r]; cbn; [done|]. destruct Hr as [Hc Hn].
    by rewrite decide_False, Hc by done.
  - apply Forall_cons in Hw as [(Hs & Hws & Hn)%word_byte_cases Hw]. rewrite str_cons_app. cbn.
    rewrite decide_False, Hs, Hws by done. cbn. rewrite IH by done. f_equal.
    apply bytes_inj. rewrite !bytes_app. cbn. by rewrite <- app_assoc.
Qed.

Definition wordItem (w : string) : ScannedItem :=
  mkItem (default IdentifierToken (string2token w)) w.

Lemma Lex_word w r : w ≠ "" → wordy w → stops r →
  Lex (mkLexer (w +:+ r)) = (wordItem w, mkLexer r).
Proof.
  intros Hne Hw Hr. destruct w as [|c w]; [done|].
  pose proof (Forall_inv Hw) as (Hs & Hws & Hn)%word_byte_cases.
  unfold Lex. rewrite str_cons_app. cbn. rewrite Hws. cbn. rewrite decide_False, Hs by done.
  unfold scanIdOrKeyword, unread. cbn [s]. rewrite <- str_cons_app.
  rewrite identifierLoop_word by done. rewrite str_nil_app. unfold wordItem.
  by destruct (string2token (String c w)).
Qed.

Lemma Lex_space r : Lex (mkLexer (String " " r)) = Lex (mkLexer r).
Proof. done. Qed.

(** The symbol [sym] is not the beginning of a longer one. *)
Definition ends (sym r : string) : Prop :=
  match r with
  | EmptyString => True
  | String d _ => d ≠ NUL ∧ (isSpecialSymbol d = true → string2token (sym +:+ String d "") = None)
  end.

Lemma specialSymbolLoop_ends sym i r : ends sym r →
  (specialSymbolLoop r sym (Some i)).1.2 = Some i ∧ (specialSymbolLoop r sym (Some i)).2 = mkLexer r.
Proof.
  destruct r as [|d r]; cbn; [done|]. intros [Hn Hd]. rewrite decide_False by done.
  destruct (isSpecialSymbol d); [|done]. by rewrite Hd.
Qed.

Lemma scanSpecialSymbol_last l item l' :
  (specialSymbolLoop (s l) "" None).1.2 = Some item →
  (specialSymbolLoop (s l) "" None).2 = l' → scanSpecialSymbol l = (item, l').
Proof.
  unfold scanSpecialSymbol. destruct (specialSymbolLoop _ _ _) as [[b last] l0]. cbn.
  by intros -> ->.
Qed.

Lemma special_start c : isSpecialSymbol c = true → isWhitespace c = false ∧ c ≠ NUL.
Proof.
  intros Hch%bool_decide_eq_true. rewrite !elem_of_cons in Hch.
  by destruct Hch as [->|[->|[->|[->|[->|[->|[->|[]%not_elem_of_nil]]]]]]].
Qed.

Lemma Lex_special c r : isSpecialSymbol c = true →
  Lex (mkLexer (String c r)) = scanSpecialSymbol (mkLexer (String c r)).
Proof.
  intros Hc. destruct (special_start c Hc) as [Hw Hn]. unfold Lex. cbn. rewrite Hw.
  by rewrite decide_False, Hc.
Qed.

Lemma Lex_symbol c t r : isSpecialSymbol c = true → string2token (String c "") = Some t →
  ends (String c "") r →
  Lex (mkLexer (String c r)) = (mkItem t (String c ""), mkLexer r).
Proof.
  intros Hc Ht He. destruct (special_start c Hc) as [Hw Hn]. rewrite Lex_special by done.
  apply scanSpecialSymbol_last; cbn; rewrite decide_False, Hc, str_nil_app, Ht by done;
    by apply specialSymbolLoop_ends.
Qed.

(** A symbol of two bytes, the first of which is one. *)
Lemma Lex_symbol2 c d t t' r : isSpecialSymbol c = true → isSpecialSymbol d = true →
  string2token (String c "") = Some t' → string2token (String c (String d "")) = Some t →
  ends (String c (String d "")) r →
  Lex (mkLexer (String c (String d r))) = (mkItem t (String c (String d "")), mkLexer r).
Proof.
  intros Hc Hd Ht' Ht He. destruct (special_start c Hc) as [_ Hn], (special_start d Hd) as [_ Hn'].
  rewrite Lex_special by done.
  apply scanSpecialSymbol_last; cbn; rewrite decide_False, Hc, str_nil_app, Ht' by done; cbn;
    rewrite decide_False, Hd, str_cons_app, str_nil_app, Ht by done; by apply specialSymbolLoop_ends.
Qed.

(** The tokens of a string, whatever the fuel. *)
Definition lexes (str : string) (items : list ScannedItem) : Prop :=
  ∀ fuel, String.length str < fuel → scan fuel (mkLexer str) = Some items.

Lemma lexes_nil : lexes "" [mkItem EndOfStringToken ""].
Proof. intros [|fuel] Hf; [cbn in Hf; lia|done]. Qed.

Lemma lexes_cons str item r items :
  Lex (mkLexer str) = (item, mkLexer r) → tok item ≠ EndOfStringToken →
  lexes r items → lexes str (item :: items).
Proof.
  intros HL Ht Hr [|fuel] Hf; [lia|]. cbn. rewrite HL, decide_False by done.
  apply Lex_progress in HL as [->|[_ Hlen]]; [done|]. cbn in Hlen. rewrite Hr by lia. done.
Qed.

Lemma wordItem_not_end w : tok (wordItem w) ≠ EndOfStringToken.
Proof.
  unfold wordItem. cbn. destruct (string2token w) eqn:Hw; [|done].
  by eapply string2token_not_end.
Qed.

Lemma lexes_word w r items : w ≠ "" → wordy w → stops r → lexes r items →
  lexes (w +:+ r) (wordItem w :: items).
Proof. intros. eapply lexes_cons; [by apply Lex_word|apply wordItem_not_end|done]. Qed.

Lemma lexes_symbol c t r items : isSpecialSymbol c = true → string2token (String c "") = Some t →
  ends (String c "") r → lexes r items →
  lexes (String c r) (mkItem t (String c "") :: items).
Proof.
  intros. eapply lexes_cons; [by apply Lex_symbol|by eapply string2token_not_end|done].
Qed.

Lemma lexes_space r items : lexes r items → lexes (String " " r) items.
Proof.
  intros Hr [|fuel] Hf; [lia|]. cbn in Hf.
  rewrite <- (Hr (S fuel)) by lia. done.
Qed.

(** What follows does not extend a symbol. *)
Definition calm (r : string) : Prop :=
  match r with EmptyString => True | String d _ => d ≠ NUL ∧ d ≠ "="%char end.

(** What follows a value or a requirement. *)
Definition follow (r : string) : Prop :=
  r = "" ∨ ∃ c r', r = String c r' ∧ (c = ","%char ∨ c = ")"%char).

Lemma follow_calm r : follow r → calm r.
Proof. by intros [->|(c & r' & -> & [->| ->])]. Qed.

Lemma follow_stops r : follow r → stops r.
Proof. by intros [->|(c & r' & -> & [->| ->])]. Qed.

Lemma calm_nonempty w r : wordy w → w ≠ "" → calm (w +:+ r).
Proof.
  intros Hw Hne. destruct w as [|c w]; [done|].
  apply Forall_inv, word_byte_cases in Hw as (Hs & _ & Hn). rewrite str_cons_app.
  split; [done|]. by intros ->.
Qed.

Lemma calm_word w r : wordy w → calm r → calm (w +:+ r).
Proof.
  intros Hw Hr. destruct (decide (w = "")) as [->|]; [by rewrite str_nil_app|by apply calm_nonempty].
Qed.

Lemma calm_ends sym r :
  sym ∈ [","; "("; ")"; "!"; "="; ">"; "<"; "=="; "!="] → calm r → ends sym r.
Proof.
  intros Hsym Hr. destruct r as [|d r]; [done|]. destruct Hr as [Hn He]. split; [done|].
  intros Hd%bool_decide_eq_true. rewrite !elem_of_cons in Hsym. rewrite !elem_of_cons in Hd.
  destruct Hd as [->|[->|[->|[->|[->|[->|[->|[]%not_elem_of_nil]]]]]]]; [done|..];
  by destruct Hsym as [->|[->|[->|[->|[->|[->|[->|[->|[->|[]%not_elem_of_nil]]]]]]]]].
Qed.

Abbreviation symbol c t := (mkItem t (String c "")).
Abbreviation comma := (mkItem CommaToken ",").

(** A symbol of one byte before what does not extend it. *)
Ltac lexes_sym :=
  apply lexes_symbol; [done|done|apply calm_ends; [repeat (left || right; left) || set_solver|]|].

(** [x] scans to [ts] wherever a value or a requirement may stand. *)
Definition scans (x : string) (ts : list ScannedItem) : Prop :=
  (∀ r, calm r → calm (x +:+ r)) ∧
  ∀ r items, follow r → lexes r items → lexes (x +:+ r) (ts ++ items).

Definition valueTokens (v : string) : list ScannedItem :=
  if decide (v = "") then [] else [wordItem v].

Lemma scans_value v : wordy v → scans v (valueTokens v).
Proof.
  intros Hv. split; [intros r; by apply calm_word|]. intros r items Hr Hi. unfold valueTokens.
  case_decide as Hne; [by subst; rewrite str_nil_app|].
  apply lexes_word; [done|done|by apply follow_stops|done].
Qed.

Fixpoint joinTokens (tss : list (list ScannedItem)) : list ScannedItem :=
  match tss with
  | [] => []
  | [ts] => ts
  | ts :: tss => ts ++ comma :: joinTokens tss
  end.

Lemma str_app_assoc a b c : (a +:+ b) +:+ c = a +:+ b +:+ c.
Proof. apply bytes_inj. by rewrite !bytes_app, app_assoc. Qed.

Lemma scans_join l tss : Forall2 scans l tss → scans (JoinComma l) (joinTokens tss).
Proof.
  induction 1 as [|x ts l tss [Hc Hx] Hall [IHc IH]].
  { split; [intros r; by rewrite str_nil_app|]. intros r items _ Hi. by rewrite str_nil_app. }
  destruct Hall as [|y ts' l tss Hy Hall]; [done|]. cbn [JoinComma joinTokens] in *. split.
  - intros r Hr. rewrite str_app_assoc. apply Hc. by rewrite str_app_assoc, str_cons_app.
  - intros r items Hr Hi. rewrite !str_app_assoc, str_cons_app, str_nil_app, <- app_assoc. cbn [app].
    apply Hx; [right; eauto|]. apply lexes_symbol; [done|done| |by apply IH].
    apply calm_ends; [left|]. by apply IHc, follow_calm.
Qed.

Section print.
Context `{R : RangeOrder}.

Definition valuesTokens (vals : gset string) : list ScannedItem :=
  joinTokens (valueTokens <$> SetsString.List vals).

(** The tokens of a requirement's string. *)
Definition requirementTokens (r : Requirement) : list ScannedItem :=
  let k := wordItem (key r) in
  let vals := valuesTokens (strValues r) in
  match operator r with
  | ExistsOperator => [k]
  | DoesNotExistOperator => [mkItem DoesNotExistToken "!"; k]
  | EqualsOperator => k :: mkItem EqualsToken "=" :: vals
  | DoubleEqualsOperator => k :: mkItem DoubleEqualsToken "==" :: vals
  | NotEqualsOperator => k :: mkItem NotEqualsToken "!=" :: vals
  | GreaterThanOperator => k :: mkItem GreaterThanToken ">" :: vals
  | LessThanOperator => k :: mkItem LessThanToken "<" :: vals
  | InOperator =>
      k :: mkItem InToken "in" :: mkItem OpenParToken "(" :: vals ++ [mkItem ClosedParToken ")"]
  | NotInOperator =>
      k :: mkItem NotInToken "notin" :: mkItem OpenParToken "(" :: vals ++ [mkItem ClosedParToken ")"]
  | UnknownOperator _ => []
  end.

Lemma ext_word c : is_ext c = true → word_byte c = true.
Proof. destruct c as [[] [] [] [] [] [] [] []]; by vm_compute. Qed.

Lemma lnum_hyphen_word c : is_lnum_hyphen c = true → word_byte c = true.
Proof. destruct c as [[] [] [] [] [] [] [] []]; by vm_compute. Qed.

Lemma name_wordy w : name_word (bytes w) → wordy w.
Proof. intros (Hw & _). eapply Forall_impl; [done|]. apply ext_word. Qed.

Lemma label_value_wordy v : IsValidLabelValue v = true → wordy v.
Proof. intros [_ [->|Hv]]%IsValidLabelValue_spec; [constructor|by apply name_wordy]. Qed.

Lemma qualified_wordy k : IsQualifiedName k = true → wordy k ∧ k ≠ "".
Proof.
  intros (name & Hn & _ & [->|(p & -> & _ & Hp)])%IsQualifiedName_spec.
  - split; [by apply name_wordy|by apply name_word_nonempty].
  - split; [|by destruct p]. rewrite !bytes_app, !Forall_app.
    split_and!; [|by repeat constructor|by apply name_wordy].
    eapply Forall_impl; [by apply subdomain_bytes|]. intros c.
    rewrite orb_true_iff. intros [Hc| ->%bool_decide_eq_true]; [by apply lnum_hyphen_word|done].
Qed.

Lemma scans_values vals :
  (∀ v, v ∈ vals → IsValidLabelValue v = true) →
  scans (JoinComma (SetsString.List vals)) (valuesTokens vals).
Proof.
  intros Hv. apply scans_join, Forall2_fmap_r, Forall_Forall2_diag, Forall_forall.
  intros v Hin%elem_of_List. by apply scans_value, label_value_wordy, Hv.
Qed.

(** [String] writes the values the same way for one as for many. *)
Lemma one_or_many vals :
  (if Nat.eqb (Len vals) 1 then SetsString.List vals !!! 0 else JoinComma (SetsString.List vals)) =
  JoinComma (SetsString.List vals).
Proof.
  destruct (Nat.eqb (Len vals) 1) eqn:Hl; [|done]. apply Len_single in Hl as [v ->].
  by rewrite SetsList_single.
Qed.

(** A key, one symbol and the rest. *)
Lemma lexes_key_symbol k c t r items : wordy k → k ≠ "" → isSpecialSymbol c = true →
  string2token (String c "") = Some t → String c "" ∈ [">"; "<"; "="] → calm r → lexes r items →
  lexes (k +:+ String c r) (wordItem k :: symbol c t :: items).
Proof.
  intros Hk Hne Hc Ht Hin Hr Hi. destruct (special_start c Hc).
  apply lexes_word; [done|done|cbn; by rewrite Hc|].
  apply lexes_symbol; [done|done|apply calm_ends; [set_solver|done]|done].
Qed.

(** A key, a symbol of two bytes and the rest. *)
Lemma lexes_key_symbol2 k c t r items : wordy k → k ≠ "" → isSpecialSymbol c = true →
  is_Some (string2token (String c "")) → string2token (String c "=") = Some t →
  String c "=" ∈ ["=="; "!="] → calm r → lexes r items →
  lexes (k +:+ String c (String "=" r)) (wordItem k :: mkItem t (String c "=") :: items).
Proof.
  intros Hk Hne Hc [t' Ht'] Ht Hin Hr Hi. destruct (special_start c Hc).
  apply lexes_word; [done|done|cbn; by rewrite Hc|].
  eapply lexes_cons; [eapply Lex_symbol2; try done|by eapply string2token_not_end|done].
  apply calm_ends; [set_solver|done].
Qed.

(** A key, the word [in] or [notin], and a list of values in parentheses. *)
Lemma lexes_key_word k w vals ts r items : wordy k → k ≠ "" → wordy w → w ≠ "" →
  scans vals ts → follow r → lexes r items →
  lexes (k +:+ " " +:+ w +:+ " (" +:+ vals +:+ ")" +:+ r)
    (wordItem k :: wordItem w :: mkItem OpenParToken "(" :: ts ++ mkItem ClosedParToken ")" :: items).
Proof.
  intros Hk Hne Hw Hwne [Hc Hs] Hr Hi. rewrite !str_cons_app, !str_nil_app.
  apply lexes_word; [done|done|done|]. apply lexes_space.
  apply lexes_word; [done|done|done|]. apply lexes_space.
  apply lexes_symbol; [done|done|apply calm_ends; [set_solver|by apply Hc]|].
  apply Hs; [right; eauto|].
  apply lexes_symbol; [done|done|apply calm_ends; [set_solver|by apply follow_calm]|done].
Qed.

Lemma requirement_scans r : requirement_ok r →
  scans (Requirement_String r) (requirementTokens r).
Proof.
  destruct r as [k op vals]. intros (Hk & Hop & Hv). cbn in Hk, Hop, Hv.
  apply qualified_wordy in Hk as [Hk Hne]. pose proof (scans_values vals Hv) as Hs.
  unfold Requirement_String, requirementTokens. cbn -[Len Nat.eqb]. rewrite one_or_many.
  set (str := JoinComma (SetsString.List vals)) in *. set (ts := valuesTokens vals) in *.
  split.
  { intros r Hr. destruct op; rewrite ?str_app_assoc, ?str_nil_app;
      try (apply calm_nonempty; done). done. }
  intros r items Hr Hi. pose proof Hs as [Hc Hl].
  destruct op; rewrite ?str_app_assoc, ?str_nil_app, ?str_cons_app, ?str_nil_app; cbn [app].
  - apply lexes_symbol; [done|done| |].
    + apply calm_ends; [set_solver|]. apply calm_word; [done|by apply follow_calm].
    + apply lexes_word; [done|done|by apply follow_stops|done].
  - apply lexes_key_symbol; try done; [set_solver|by apply Hc, follow_calm|by apply Hl].
  - apply lexes_key_symbol2; try done; [set_solver|by apply Hc, follow_calm|by apply Hl].
  - rewrite <- app_assoc. apply (lexes_key_word k "in"); try done. by repeat constructor.
  - apply lexes_key_symbol2; try done; [set_solver|by apply Hc, follow_calm|by apply Hl].
  - rewrite <- app_assoc. apply (lexes_key_word k "notin"); try done. by repeat constructor.
  - apply lexes_word; [done|done|by apply follow_stops|done].
  - apply lexes_key_symbol; try done; [set_solver|by apply Hc, follow_calm|by apply Hl].
  - apply lexes_key_symbol; try done; [set_solver|by apply Hc, follow_calm|by apply Hl].
  - done.
Qed.
End print.

(** ** Parsing what selectors print *)

Lemma bind_consume {A} c (f : Token * string → parser A) p item l : rest p = item :: l →
  pbind (consume c) f p = f (inContext c (tok item), literal item) (advance p).
Proof. intros Hp. unfold pbind. by rewrite (consume_eq _ _ _ _ Hp). Qed.

Lemma bind_lookahead {A} c (f : Token * string → parser A) p item l : rest p = item :: l →
  pbind (lookahead c) f p = f (inContext c (tok item), literal item) p.
Proof. intros Hp. unfold pbind. by rewrite (lookahead_eq _ _ _ _ Hp). Qed.

Lemma bind_Done {A B} (m : parser A) (f : A → parser B) p a p' :
  m p = Done a p' → pbind m f p = f a p'.
Proof. intros Hm. unfold pbind. by rewrite Hm. Qed.

(** The words [in] and [notin] are identifiers among values. *)
Lemma word_token w : wordy w → inContext ValuesContext (tok (wordItem w)) = IdentifierToken.
Proof.
  unfold wordItem. cbn. intros Hw. destruct (string2token w) as [t|] eqn:Ht; [cbn|done].
  unfold string2token in Ht. repeat (case_match; simplify_eq); try done;
    by (cbn in Hw; apply Forall_inv in Hw).
Qed.

Definition value_word (w : string) : Prop := wordy w ∧ w ≠ "".

Abbreviation closePar := (mkItem ClosedParToken ")").

Lemma joinTokens_words w ws : value_word w →
  joinTokens (valueTokens <$> w :: ws) =
    wordItem w :: match ws with [] => [] | _ => comma :: joinTokens (valueTokens <$> ws) end.
Proof.
  intros [_ Hne]. destruct ws as [|w' ws]; cbn; unfold valueTokens at 1; by rewrite decide_False.
Qed.

(** A comma before more words adds [""] only to the empty set. *)
Lemma list_comma fuel ws vals p items : ws ≠ [] → Forall value_word ws →
  rest p = comma :: joinTokens (valueTokens <$> ws) ++ items →
  parseIdentifiersList (S fuel) vals p =
    parseIdentifiersList fuel (if decide (vals = ∅) then {[""]} else vals) (advance p).
Proof.
  intros Hne Hws Hp. cbn [parseIdentifiersList]. rewrite (bind_consume _ _ _ _ _ Hp). cbn.
  apply rest_advance in Hp. destruct ws as [|w ws]; [done|].
  apply Forall_cons in Hws as [Hw _]. rewrite joinTokens_words in Hp by done.
  rewrite (bind_lookahead _ _ _ _ _ Hp), word_token by apply Hw.
  rewrite !decide_False by done. f_equal. case_decide as Hv.
  - subst. unfold Len. rewrite size_empty. cbn. rewrite Insert_union. cbn. set_solver.
  - destruct (Nat.eqb (Len vals) 0) eqn:Hl; [by apply Len_empty in Hl|done].
Qed.

Lemma list_words ws : ws ≠ [] → Forall value_word ws → ∀ fuel vals p items,
  rest p = joinTokens (valueTokens <$> ws) ++ closePar :: items → length (rest p) < fuel →
  ∃ p', parseIdentifiersList fuel vals p = Done (list_to_set ws ∪ vals) p' ∧
    rest p' = closePar :: items.
Proof.
  induction ws as [|w ws IH]; intros Hne Hws fuel vals p items Hp Hf; [done|].
  apply Forall_cons in Hws as [Hw Hws]. rewrite joinTokens_words in Hp by done.
  destruct fuel as [|fuel]; [lia|]. cbn [parseIdentifiersList].
  rewrite (bind_consume _ _ _ _ _ Hp), word_token by apply Hw.
  rewrite (rest_length _ _ _ Hp) in Hf. apply rest_advance in Hp.
  rewrite Insert_union. cbn [literal wordItem].
  destruct ws as [|w' ws].
  - rewrite (bind_lookahead _ _ _ _ _ Hp). cbn. eexists. split; [reflexivity|done].
  - rewrite (bind_lookahead _ _ _ _ _ Hp). cbn [inContext tok].
    rewrite (rest_length _ _ _ Hp) in Hf. destruct fuel as [|fuel]; [lia|].
    rewrite (list_comma fuel (w' :: ws) _ _ _ ltac:(done) Hws Hp).
    rewrite decide_False by set_solver.
    apply rest_advance in Hp. edestruct IH as (p' & -> & Hr); [done|done|exact Hp|lia|].
    eexists. split; [|done]. f_equal. cbn. set_solver.
Qed.

Lemma le_empty_inv str : String.le str "" → str = "".
Proof. by destruct str. Qed.

Section parse_print.
Context `{R : RangeOrder}.
Implicit Types (vals : gset string) (r : Requirement).

(** The sorted values: at most the first is empty. *)
Lemma values_shape vals : vals ≠ ∅ → (∀ v, v ∈ vals → wordy v) →
  (SetsString.List vals = [""] ∧ vals = {[""]}) ∨
  ∃ ws, ws ≠ [] ∧ Forall value_word ws ∧
    (SetsString.List vals = ws ∧ vals = list_to_set ws ∨
     SetsString.List vals = "" :: ws ∧ vals = list_to_set ws ∪ {[""]}).
Proof.
  intros Hne Hw. pose proof (list_to_set_List vals) as Hset.
  pose proof (List_NoDup vals) as Hnd. pose proof (List_sorted vals) as Hs.
  assert (Hin : ∀ v, v ∈ SetsString.List vals → wordy v) by (intros v ?%elem_of_List; auto).
  destruct (SetsString.List vals) as [|v ws] eqn:HL; [by destruct Hne|].
  apply NoDup_cons in Hnd as [Hv _]. apply StronglySorted_inv in Hs as [_ Hs].
  assert (Forall value_word ws) as Hws.
  { apply Forall_forall. intros w Hw'. split; [apply Hin; by right|]. intros ->.
    rewrite Forall_forall in Hs. pose proof (le_empty_inv _ (Hs _ Hw')) as ->. by apply Hv. }
  destruct (decide (v = "")) as [->|Hvne]; [destruct (decide (ws = [])) as [->|Hwsne]; [left|right]|right].
  - split; [done|]. rewrite <- Hset. cbn. set_solver.
  - exists ws. split_and!; [done..|]. right. split; [done|]. rewrite <- Hset. cbn. set_solver.
  - exists (v :: ws). split_and!; [done| |by left]. constructor; [split; [apply Hin; left|]|]; done.
Qed.

Lemma parseValues_print fuel vals p items : vals ≠ ∅ → (∀ v, v ∈ vals → wordy v) →
  rest p = mkItem OpenParToken "(" :: valuesTokens vals ++ closePar :: items →
  length (rest p) < fuel →
  ∃ p', parseValues fuel p = Done vals p' ∧ rest p' = items.
Proof.
  intros Hne Hw Hp Hf. unfold parseValues. rewrite (bind_consume _ _ _ _ _ Hp). cbn [inContext tok].
  rewrite decide_False by naive_solver. rewrite (rest_length _ _ _ Hp) in Hf.
  apply rest_advance in Hp. unfold valuesTokens in Hp.
  assert (Hclose : ∀ p' expected (k : parser (gset string)), rest p' = closePar :: items →
    pbind (consume ValuesContext) (λ '(tok, _),
      if decide (tok ≠ ClosedParToken) then pfail expected else k) p' = k (advance p')).
  { intros p' expected k Hp'. rewrite (bind_consume _ _ _ _ _ Hp'). cbn [inContext tok].
    by rewrite decide_False by naive_solver. }
  destruct (values_shape vals Hne Hw) as [[HL ->]|(ws & Hwsne & Hws & [[HL ->]|[HL ->]])];
    rewrite HL in Hp; clear HL.
  - cbn in Hp. rewrite (bind_lookahead _ _ _ _ _ Hp). cbn [inContext tok].
    rewrite (bind_consume _ _ _ _ _ Hp). rewrite NewString_single.
    eexists. split; [reflexivity|by apply rest_advance in Hp].
  - destruct ws as [|w ws]; [done|]. apply Forall_cons in Hws as Hw'. destruct Hw' as [Hw' _].
    edestruct (list_words (w :: ws)) as (p' & Hlist & Hr); [done|done|exact Hp| |].
    { instantiate (1 := fuel). lia. }
    rewrite joinTokens_words in Hp by done.
    rewrite (bind_lookahead _ _ _ _ _ Hp), word_token by apply Hw'.
    rewrite (bind_Done _ _ _ _ _ Hlist), Hclose by done.
    eexists. split; [unfold pret; f_equal; cbn; set_solver|by apply rest_advance in Hr].
  - destruct ws as [|w ws]; [done|]. cbn [fmap list_fmap joinTokens] in Hp.
    change (valueTokens "") with (@nil ScannedItem) in Hp. cbn [app] in Hp.
    rewrite (bind_lookahead _ _ _ _ _ Hp). cbn [inContext tok].
    rewrite (rest_length _ _ _ Hp) in Hf.
    destruct fuel as [|fuel]; [lia|].
    pose proof (list_comma fuel (w :: ws) (NewString []) _ _ Hwsne Hws Hp) as Hcomma.
    rewrite decide_True in Hcomma by done. apply rest_advance in Hp.
    edestruct (list_words (w :: ws)) as (p' & Hlist & Hr); [done|done|exact Hp| |].
    { instantiate (1 := fuel). lia. }
    rewrite Hlist in Hcomma. rewrite (bind_Done _ _ _ _ _ Hcomma), Hclose by done.
    eexists. split; [reflexivity|by apply rest_advance in Hr].
Qed.

(** What follows a requirement: a comma or the end. *)
Definition after_requirement (items : list ScannedItem) : Prop :=
  ∃ i l, items = i :: l ∧ (tok i = CommaToken ∨ tok i = EndOfStringToken).

Lemma parseExactValue_print v p items : wordy v →
  rest p = valueTokens v ++ items → after_requirement items →
  ∃ p', parseExactValue p = Done {[v]} p' ∧ rest p' = items.
Proof.
  intros Hv Hp (i & l & -> & Hi). unfold parseExactValue, valueTokens in *.
  assert (∀ v, Insert (NewString []) [v] = {[v]}) as Hins.
  { intros. rewrite Insert_union. cbn. set_solver. }
  case_decide as Hne; cbn [app] in Hp; rewrite (bind_lookahead _ _ _ _ _ Hp).
  - subst. exists p. split; [|done]. rewrite Hins. by destruct Hi as [-> | ->].
  - rewrite word_token by done. rewrite !bool_decide_false by done. cbn [orb]. rewrite (bind_consume _ _ _ _ _ Hp).
    rewrite word_token by done. rewrite decide_True by done. rewrite Hins.
    eexists. split; [reflexivity|by apply rest_advance in Hp].
Qed.

Definition ends_requirement (i : ScannedItem) : bool :=
  bool_decide (tok i = EndOfStringToken) || bool_decide (tok i = CommaToken).

Lemma inContext_ends c i :
  bool_decide (inContext c (tok i) = EndOfStringToken) || bool_decide (inContext c (tok i) = CommaToken) =
  ends_requirement i.
Proof. unfold ends_requirement. by destruct c, (tok i). Qed.

Lemma parseKey_word p k i l : IsQualifiedName k = true → rest p = wordItem k :: i :: l →
  parseKeyAndInferOperator p =
    Done (k, if ends_requirement i then Some ExistsOperator else None) (advance p).
Proof.
  intros Hk Hp. pose proof (qualified_wordy k Hk) as [Hw _]. unfold parseKeyAndInferOperator.
  rewrite (bind_consume _ _ _ _ _ Hp), word_token by done. rewrite decide_False by done.
  unfold pbind at 1. cbn [pret]. rewrite decide_False by naive_solver.
  cbn [literal wordItem]. unfold validateLabelKey. rewrite Hk. apply rest_advance in Hp.
  rewrite (bind_lookahead _ _ _ _ _ Hp), inContext_ends. by destruct (ends_requirement i).
Qed.

Lemma parseKey_not p k i l : IsQualifiedName k = true → ends_requirement i = true →
  rest p = mkItem DoesNotExistToken "!" :: wordItem k :: i :: l →
  parseKeyAndInferOperator p = Done (k, Some DoesNotExistOperator) (advance (advance p)).
Proof.
  intros Hk Hi Hp. pose proof (qualified_wordy k Hk) as [Hw _]. unfold parseKeyAndInferOperator.
  rewrite (bind_consume _ _ _ _ _ Hp). cbn [inContext tok]. rewrite decide_True by done.
  apply rest_advance in Hp. unfold pbind at 1. rewrite (bind_consume _ _ _ _ _ Hp), word_token by done.
  cbn [pret]. rewrite decide_False by naive_solver. cbn [literal wordItem].
  unfold validateLabelKey. rewrite Hk. apply rest_advance in Hp.
  rewrite (bind_lookahead _ _ _ _ _ Hp), inContext_ends, Hi. by rewrite decide_False by naive_solver.
Qed.

Lemma newRequirement_print r p : requirement_ok r →
  newRequirement (key r) (operator r) (strValues r) p = Done r p.
Proof.
  intros Hr. unfold newRequirement.
  by rewrite (proj2 (NewRequirement_Ok (key r) (operator r) (strValues r) r)) by (by destruct r).
Qed.

Lemma valuesTokens_single v : valuesTokens {[v]} = valueTokens v.
Proof. unfold valuesTokens. by rewrite SetsList_single. Qed.

(** A key and a binary operator: the values are parsed next. *)
Lemma parseRequirement_operator fuel k i l p op : IsQualifiedName k = true →
  rest p = wordItem k :: i :: l → ends_requirement i = false →
  (∀ q, rest q = i :: l → parseOperator q = Done op (advance q)) →
  parseRequirement fuel p =
    pbind (match op with
           | InOperator | NotInOperator => parseValues fuel
           | EqualsOperator | DoubleEqualsOperator | NotEqualsOperator
           | GreaterThanOperator | LessThanOperator => parseExactValue
           | _ => pret ∅
           end) (λ values, newRequirement k op values) (advance (advance p)).
Proof.
  intros Hk Hp Hi Hop. unfold parseRequirement.
  rewrite (bind_Done _ _ _ _ _ (parseKey_word _ _ _ _ Hk Hp)), Hi.
  apply rest_advance in Hp. by rewrite (bind_Done _ _ _ _ _ (Hop _ Hp)).
Qed.

Definition parses_operator (i : ScannedItem) (op : Operator) : Prop :=
  ends_requirement i = false ∧
  ∀ l q, rest q = i :: l → parseOperator q = Done op (advance q).

Lemma parseRequirement_exact fuel r v i p items : requirement_ok r → strValues r = {[v]} →
  operator r ∈ [EqualsOperator; DoubleEqualsOperator; NotEqualsOperator; GreaterThanOperator;
    LessThanOperator] →
  parses_operator i (operator r) →
  rest p = wordItem (key r) :: i :: valueTokens v ++ items → after_requirement items →
  ∃ p', parseRequirement fuel p = Done r p' ∧ rest p' = items.
Proof.
  intros Hr Hvals Hop [Hi Hi'] Hp Ha. pose proof Hr as (Hk & _ & Hv).
  rewrite (parseRequirement_operator _ _ _ _ _ _ Hk Hp Hi (Hi' _)).
  apply rest_advance, rest_advance in Hp.
  destruct (parseExactValue_print v (advance (advance p)) items) as (p' & He & Hp'); [|done|done|].
  { apply label_value_wordy, Hv. rewrite Hvals. set_solver. }
  exists p'. split; [|done]. rewrite <- (newRequirement_print r p' Hr), Hvals.
  rewrite !elem_of_cons in Hop.
  destruct Hop as [->|[->|[->|[->|[->|[]%not_elem_of_nil]]]]]; by rewrite (bind_Done _ _ _ _ _ He).
Qed.

Lemma parseRequirement_list fuel r i p items : requirement_ok r → strValues r ≠ ∅ →
  operator r ∈ [InOperator; NotInOperator] → parses_operator i (operator r) →
  rest p = wordItem (key r) :: i :: mkItem OpenParToken "(" ::
    (valuesTokens (strValues r) ++ [closePar]) ++ items →
  length (rest p) ≤ fuel →
  ∃ p', parseRequirement fuel p = Done r p' ∧ rest p' = items.
Proof.
  intros Hr Hne Hop [Hi Hi'] Hp Hf. pose proof Hr as (Hk & _ & Hv).
  rewrite (parseRequirement_operator _ _ _ _ _ _ Hk Hp Hi (Hi' _)).
  rewrite (rest_length _ _ _ Hp) in Hf. apply rest_advance in Hp.
  rewrite (rest_length _ _ _ Hp) in Hf. apply rest_advance in Hp. rewrite <- app_assoc in Hp.
  destruct (parseValues_print fuel (strValues r) (advance (advance p)) items) as (p' & He & Hp');
    [done|intros v Hin; by apply label_value_wordy, Hv|done|lia|].
  exists p'. split; [|done]. rewrite <- (newRequirement_print r p' Hr).
  rewrite !elem_of_cons in Hop.
  destruct Hop as [->|[->|[]%not_elem_of_nil]]; by rewrite (bind_Done _ _ _ _ _ He).
Qed.

(** The two shapes of binary requirements. *)
Ltac parse_operator Ho :=
  rewrite Ho; split; [done|]; intros l q Hq; unfold parseOperator;
  by rewrite (bind_consume _ _ _ _ _ Hq).
Ltac parse_exact Hvals Hp Ho :=
  rewrite Hvals, valuesTokens_single in Hp;
  eapply parseRequirement_exact; [done|exact Hvals|rewrite Ho; set_solver| |exact Hp|done];
  parse_operator Ho.
Ltac parse_list Hp Ho :=
  eapply parseRequirement_list; [done|done|rewrite Ho; set_solver| |exact Hp|done];
  parse_operator Ho.

(** The parser of a printed requirement gives it back. *)
Lemma parseRequirement_print fuel r p items : requirement_ok r →
  rest p = requirementTokens r ++ items → after_requirement items → length (rest p) ≤ fuel →
  ∃ p', parseRequirement fuel p = Done r p' ∧ rest p' = items.
Proof.
  intros Hr Hp Ha Hf. pose proof Hr as (Hk & Hop & _). unfold requirementTokens in Hp.
  assert (Hend : ∀ i l, items = i :: l → ends_requirement i = true).
  { intros i l ->. destruct Ha as (i' & l' & [= <- <-] & Hi). unfold ends_requirement.
    by destruct Hi as [-> | ->]. }
  destruct (operator r) eqn:Ho; cbn [operator_ok] in Hop; cbn [app] in Hp.
  - destruct Ha as (i & l & -> & _). specialize (Hend i l eq_refl). unfold parseRequirement.
    rewrite (bind_Done _ _ _ _ _ (parseKey_not _ _ _ _ Hk Hend Hp)).
    apply rest_advance, rest_advance in Hp. exists (advance (advance p)). split; [|done].
    rewrite <- (newRequirement_print r) by done. by rewrite Ho, Hop.
  - destruct Hop as [v Hvals]. parse_exact Hvals Hp Ho.
  - destruct Hop as [v Hvals]. parse_exact Hvals Hp Ho.
  - parse_list Hp Ho.
  - destruct Hop as [v Hvals]. parse_exact Hvals Hp Ho.
  - parse_list Hp Ho.
  - destruct Ha as (i & l & -> & _). specialize (Hend i l eq_refl). unfold parseRequirement.
    rewrite (bind_Done _ _ _ _ _ (parseKey_word _ _ _ _ Hk Hp)), Hend.
    apply rest_advance in Hp. exists (advance p). split; [|done].
    rewrite <- (newRequirement_print r) by done. by rewrite Ho, Hop.
  - destruct Hop as (v & Hvals & _). parse_exact Hvals Hp Ho.
  - destruct Hop as (v & Hvals & _). parse_exact Hvals Hp Ho.
  - done.
Qed.

(** A requirement begins with its key or with [!]. *)
Definition begins (i : ScannedItem) : Prop :=
  inContext ValuesContext (tok i) = IdentifierToken ∨
  inContext ValuesContext (tok i) = DoesNotExistToken.

Lemma requirementTokens_begin r : requirement_ok r →
  ∃ i l, requirementTokens r = i :: l ∧ begins i.
Proof.
  intros (Hk & Hop & _). apply qualified_wordy in Hk as [Hk _].
  unfold requirementTokens, begins. pose proof (word_token _ Hk).
  destruct (operator r); try done; eexists _, _; (split; [done|]); auto.
Qed.

Lemma parseLoop_begin fuel reqs p i l : rest p = i :: l → begins i →
  parseLoop (S fuel) reqs p =
    match parseRequirement fuel p with
    | Done r p =>
        (let* (t, l) := consume ValuesContext in
         match t with
         | EndOfStringToken => pret (reqs ++ [r])
         | CommaToken =>
             let* (t2, l2) := lookahead ValuesContext in
             if bool_decide (t2 ≠ IdentifierToken) && bool_decide (t2 ≠ DoesNotExistToken)
             then pfail (found l2 "identifier after ','")
             else parseLoop fuel (reqs ++ [r])
         | _ => pfail (found l "',' or 'end of string'")
         end) p
    | Fails err => Fails ("unable to parse requirement: " +:+ err)
    | OutOfRange => OutOfRange
    | OutOfFuel => OutOfFuel
    end.
Proof.
  intros Hp Hi. cbn [parseLoop]. rewrite (bind_lookahead _ _ _ _ _ Hp).
  by destruct Hi as [-> | ->].
Qed.

Lemma parseLoop_print reqs : Forall requirement_ok reqs → ∀ fuel acc p,
  rest p = joinTokens (requirementTokens <$> reqs) ++ [mkItem EndOfStringToken ""] →
  length (rest p) < fuel →
  ∃ p', parseLoop fuel acc p = Done (acc ++ reqs) p'.
Proof.
  induction 1 as [|r reqs Hr Hreqs IH]; intros fuel acc p Hp Hf; (destruct fuel as [|fuel]; [lia|]).
  { cbn in Hp. cbn [parseLoop]. rewrite (bind_lookahead _ _ _ _ _ Hp). rewrite app_nil_r. by exists p. }
  assert (∃ items, rest p = requirementTokens r ++ items ∧ after_requirement items ∧
    (items = [mkItem EndOfStringToken ""] ∧ reqs = [] ∨
     items = comma :: joinTokens (requirementTokens <$> reqs) ++ [mkItem EndOfStringToken ""] ∧ reqs ≠ []))
    as (items & Hp' & Ha & Hitems).
  { destruct reqs as [|r' reqs]; cbn [fmap list_fmap joinTokens] in Hp.
    - eexists. split_and!; [exact Hp|eexists _, _; split; [done|]; auto|by left].
    - rewrite <- app_assoc in Hp. eexists.
      split_and!; [exact Hp|eexists _, _; split; [done|]; auto|by right]. }
  destruct (requirementTokens_begin r Hr) as (i & l & Hi & Hb).
  assert (rest p = i :: l ++ items) as Hpi by (by rewrite Hp', Hi).
  rewrite (parseLoop_begin _ _ _ _ _ Hpi Hb).
  destruct (parseRequirement_print fuel r p items Hr Hp' Ha) as (p1 & -> & Hp1); [lia|].
  assert (length (rest p1) < length (rest p)) as Hlen.
  { rewrite Hp1, Hpi. cbn. rewrite length_app. lia. }
  destruct Hitems as [[-> ->]|[-> Hne]].
  - rewrite (bind_consume _ _ _ _ _ Hp1). eexists. reflexivity.
  - rewrite (bind_consume _ _ _ _ _ Hp1). rewrite (rest_length _ _ _ Hp1) in Hlen.
    apply rest_advance in Hp1. cbn [inContext tok].
    destruct reqs as [|r2 reqs]; [done|]. apply Forall_cons in Hreqs as Hr2. destruct Hr2 as [Hr2 _].
    destruct (requirementTokens_begin r2 Hr2) as (i2 & l2 & Hi2 & Hb2).
    destruct (IH fuel (acc ++ [r]) (advance p1) Hp1) as [p' Hp2]; [lia|].
    assert (∃ l', rest (advance p1) = i2 :: l') as [l' Hpi2].
    { rewrite Hp1. cbn [fmap list_fmap joinTokens]. rewrite Hi2.
      destruct (requirementTokens <$> reqs); eexists; reflexivity. }
    rewrite (bind_lookahead _ _ _ _ _ Hpi2). rewrite <- app_assoc in Hp2. exists p'.
    destruct Hb2 as [-> | ->]; exact Hp2.
Qed.
End parse_print.

Lemma parse_lexes `{R : RangeOrder} str items :
  lexes str items → parse str = parseLoop (S (length items)) [] (mkParser items 0).
Proof. intros Hl. unfold parse. by rewrite Hl by lia. Qed.

Lemma str_app_nil str : str +:+ "" = str.
Proof. apply bytes_inj. by rewrite bytes_app, app_nil_r. Qed.

Lemma parse_print `{R : RangeOrder} reqs : Forall requirement_ok reqs →
  ∃ p, parse (JoinComma (Requirement_String <$> reqs)) = Done reqs p.
Proof.
  intros Hr.
  assert (scans (JoinComma (Requirement_String <$> reqs)) (joinTokens (requirementTokens <$> reqs)))
    as [_ Hs].
  { apply scans_join, Forall2_fmap, Forall_Forall2_diag. eapply Forall_impl; [done|].
    apply requirement_scans. }
  specialize (Hs "" [mkItem EndOfStringToken ""] ltac:(by left) lexes_nil). rewrite str_app_nil in Hs.
  rewrite (parse_lexes _ _ Hs). by apply (parseLoop_print reqs Hr _ [] _); [done|apply Nat.lt_succ_diag_r].
Qed.

(** ** Properties *)

(** C38: [Parse] returns for every string: no index out of range, no endless
    loop.  What it returns without an error is a selector of well-formed
    requirements, sorted by key. *)
Theorem Parse_total (R : RangeOrder) (K : KeySort) (selector : string) :
  (∃ err, Parse selector = Fails err) ∨
  ∃ lsel p, Parse selector = Done (internalSelector lsel) p ∧
    Forall requirement_ok lsel ∧ StronglySorted key_le lsel.
Proof.
  unfold Parse, parse.
  destruct (scan_total (S (String.length selector)) (mkLexer selector)) as (items & -> & Ht);
    [cbn; lia|].
  pose proof (parseLoop_safe (S (length items)) [] (mkParser items 0) Ht
    (Nat.lt_succ_diag_r _) ltac:(constructor)) as Hs.
  destruct (parseLoop _ _ _) as [lsel p|err| |]; [right|by left; eexists|done..].
  eexists _, _. split_and!; [done|by rewrite sort_ByKey_perm|apply sort_ByKey_sorted].
Qed.

(** C37: parsing the string of a selector gives back its requirements, sorted by
    key, and so a selector that matches the same labels. *)
Theorem Parse_String_roundtrip (R : RangeOrder) (K : KeySort) (reqs : list Requirement) :
  Forall requirement_ok reqs →
  ∃ p, Parse (Selector_String (internalSelector reqs)) = Done (internalSelector (sort_ByKey reqs)) p ∧
    ∀ ls : Set_, Matches (internalSelector (sort_ByKey reqs)) ls = Matches (internalSelector reqs) ls.
Proof.
  intros Hr. destruct (parse_print reqs Hr) as [p Hp]. exists p. split.
  - unfold Parse. cbn [Selector_String]. by rewrite Hp.
  - intros ls. apply matchesAll_perm, sort_ByKey_perm.
Qed.

(** The string of a set of valid labels is the syntax of the selector made
    of that set: parsing it gives [SelectorFromSet]. *)
Theorem Parse_Set_String (R : RangeOrder) (K : KeySort) (ls : Set_) :
  valid_labels ls → ∃ p, Parse (Set_String ls) = Done (SelectorFromSet ls) p.
Proof.
  intros Hv. pose proof (setRequirements_spec (range_map ls)) as Hs.
  apply setRequirements_valid in Hv. unfold SelectorFromSet. rewrite Hv in Hs |- *.
  destruct Hs as [_ Hok]. set (pair := λ '(key, value), key +:+ "=" +:+ value).
  destruct (Permutation_map_inv pair (range_map ls)
    (merge_sort_Permutation String.le (pair <$> range_map ls))) as (kvs & Hkvs & Hp).
  assert (Set_String ls = JoinComma (pair <$> kvs)) as -> by exact (f_equal JoinComma Hkvs).
  assert (pair <$> kvs = Requirement_String <$> (equals_requirement <$> kvs)) as ->.
  { rewrite <- list_fmap_compose. apply list_fmap_ext. intros _ [k v] _.
    unfold pair, compose, equals_requirement, Requirement_String. cbn -[Len Nat.eqb].
    rewrite one_or_many, SetsList_single. cbn. by rewrite str_nil_app. }
  destruct (parse_print (equals_requirement <$> kvs)) as [p Hparse].
  { by rewrite <- Hp. }
  exists p. unfold Parse. rewrite Hparse. do 2 f_equal. apply sort_ByKey_unique.
  - apply fmap_Permutation. by symmetry.
  - rewrite <- list_fmap_compose. change (key ∘ equals_requirement) with (@fst string string).
    rewrite <- Hp. apply NoDup_range_keys.
Qed.

(** The grammar of [Parse]'s comment lets any value of a list be empty; the
    parser takes an empty value anywhere but after another one at the end:
    ["(a,)"] and ["(a,,b)"] are lists, ["(a,,)"] is an error. *)
Theorem Parse_rejects_trailing_empty :
  let R := canonical_order in
  let K := canonical_sort in
  let one vals := internalSelector [mkRequirement "x" InOperator vals] in
  (∃ p, Parse "x in (a,)" = Done (one {["a"; ""]}) p) ∧
  (∃ p, Parse "x in (a,,b)" = Done (one {["a"; ""; "b"]}) p) ∧
  ∃ err, Parse "x in (a,,)" = Fails err.
Proof. cbv zeta. split_and!; eexists; vm_compute; reflexivity. Qed.

(** ** Witnesses *)
#[local] Existing Instance canonical_order.
#[local] Existing Instance canonical_sort.

Lemma NewRequirement_self r :
  NewRequirement (key r) (operator r) (strValues r) = Ok r → requirement_ok r.
Proof. intros Hr. by apply NewRequirement_Ok in Hr as [_ Hok]. Qed.

(** Close to the example of [Parse]'s comment. *)
Definition demo_selector : list Requirement :=
  [mkRequirement "x" InOperator {["foo"; ""; "baz"]};
   mkRequirement "example.com/tier" NotEqualsOperator {["in"]};
   mkRequirement "y" ExistsOperator ∅; mkRequirement "replicas" GreaterThanOperator {["3"]}].

Lemma demo_selector_ok : Forall requirement_ok demo_selector.
Proof.
  unfold demo_selector. rewrite !Forall_cons, Forall_nil.
  split_and!; [apply NewRequirement_self; vm_compute; reflexivity..|done].
Qed.

Lemma Parse_String_roundtrip_witness :
  Selector_String (internalSelector demo_selector) =
    "x in (,baz,foo),example.com/tier!=in,y,replicas>3" ∧
  ∃ p, Parse (Selector_String (internalSelector demo_selector)) =
      Done (internalSelector (sort_ByKey demo_selector)) p ∧
    ∀ ls : Set_, Matches (internalSelector (sort_ByKey demo_selector)) ls =
      Matches (internalSelector demo_selector) ls.
Proof.
  split; [vm_compute; reflexivity|].
  apply (Parse_String_roundtrip canonical_order canonical_sort), demo_selector_ok.
Defined.

Lemma Parse_Set_String_witness :
  ∃ p, Parse (Set_String {["app" := "web"; "tier" := ""]}) =
    Done (SelectorFromSet {["app" := "web"; "tier" := ""]}) p.
Proof.
  apply (Parse_Set_String canonical_order canonical_sort). unfold valid_labels, Set_.
  intros k v. rewrite lookup_insert_Some, lookup_singleton_Some.
  intros [[<- <-]|(_ & <- & <-)]; split; vm_compute; reflexivity.
Defined.
