(* ===== verification/Expectations.v ===== *)
(** * controller: expectations

    Models the expectations of [pkg/controller/controller_utils.go]: what a
    controller waits to observe before it syncs again.  The store holds
    pointers: [GetExpectations] hands out the pointer, and the counters behind
    it change in place, so the state is the store and a heap of
    [ControlleeExpectations].  A pointer carries its key, which never changes.
    The clock is an argument, in nanoseconds.  [UIDTracking] is written against
    the interface [ControllerExpectationsInterface]. *)

From S2P Require Import Prelude.
From S2P Require Import SetsString.
From S2P Require Import ThreadSafeStore.
From S2P Require Import Store.

(** ** Counters *)

Record ControlleeExpectations : Type := mkExpectations {
  add : Z;
  del : Z;
  exp_key : string;
  timestamp : Z;
}.

(** [5 * time.Minute] *)
Definition ExpectationsTimeout : Z := 5 * 60 * 10 ^ 9.

(** [exp.Add]: the atomic additions wrap around. *)
Definition exp_Add (add' del' : Z) (e : ControlleeExpectations) : ControlleeExpectations :=
  mkExpectations (int64 (add e + add')) (int64 (del e + del')) (exp_key e) (timestamp e).

Definition Fulfilled (e : ControlleeExpectations) : bool :=
  (add e <=? 0)%Z && (del e <=? 0)%Z.

Definition exp_GetExpectations (e : ControlleeExpectations) : Z * Z := (add e, del e).

Definition isExpired (now : Z) (e : ControlleeExpectations) : bool :=
  (ExpectationsTimeout <? now - timestamp e)%Z.

(** ** The store of counters *)

(** A [*ControlleeExpectations]: where it points, and the key found there. *)
Record expPtr : Type := mkPtr { loc : nat; ptr_key : string }.

(** The store holds nothing else: the type assertion succeeds. *)
Definition ExpKeyFunc : KeyFunc expPtr := λ obj, Ok (ptr_key obj).

Record ControllerExpectations : Type := mkCE {
  heap : gmap nat ControlleeExpectations;
  fresh : nat;
  expStore : cache expPtr;
}.

Definition NewControllerExpectations : ControllerExpectations :=
  mkCE ∅ 0 (NewStore ExpKeyFunc).

Section controller_expectations.
Context `{R : RangeOrder}.

Definition GetExpectations (controllerKey : string) (r : ControllerExpectations) :
    result (error expPtr) (option expPtr) :=
  match GetByKey controllerKey (expStore r) with
  | Ok (Some exp) => Ok (Some exp)
  | Ok None => Ok None
  | Err err => Err err
  end.

Definition DeleteExpectations (controllerKey : string) (r : ControllerExpectations) :
    ControllerExpectations :=
  match GetByKey controllerKey (expStore r) with
  | Ok (Some exp) => mkCE (heap r) (fresh r) (Store.Delete exp (expStore r)).1
  | _ => r
  end.

Definition SatisfiedExpectations (now : Z) (controllerKey : string) (r : ControllerExpectations) :
    bool :=
  match GetExpectations controllerKey r with
  | Ok (Some exp) =>
      match heap r !! loc exp with
      | Some e => if Fulfilled e then true else if isExpired now e then true else false
      | None => true
      end
  | _ => true
  end.

Definition SetExpectations (now : Z) (controllerKey : string) (add del : Z)
    (r : ControllerExpectations) : ControllerExpectations * option (error expPtr) :=
  let exp := mkPtr (fresh r) controllerKey in
  let '(st, err) := Store.Add exp (expStore r) in
  (mkCE (<[fresh r := mkExpectations (int64 add) (int64 del) controllerKey now]> (heap r))
     (S (fresh r)) st, err).

Definition ExpectCreations (now : Z) (controllerKey : string) (adds : Z) r :=
  SetExpectations now controllerKey adds 0 r.

Definition ExpectDeletions (now : Z) (controllerKey : string) (dels : Z) r :=
  SetExpectations now controllerKey 0 dels r.

(** [exp.Add] through the pointer. *)
Definition addAt (exp : expPtr) (add del : Z) (r : ControllerExpectations) :
    ControllerExpectations :=
  mkCE (alter (exp_Add (int64 add) (int64 del)) (loc exp) (heap r)) (fresh r) (expStore r).

Definition LowerExpectations (controllerKey : string) (add del : Z) (r : ControllerExpectations) :
    ControllerExpectations :=
  match GetExpectations controllerKey r with
  | Ok (Some exp) => addAt exp (- add) (- del) r
  | _ => r
  end.

Definition RaiseExpectations (controllerKey : string) (add del : Z) (r : ControllerExpectations) :
    ControllerExpectations :=
  match GetExpectations controllerKey r with
  | Ok (Some exp) => addAt exp add del r
  | _ => r
  end.

Definition CreationObserved (controllerKey : string) r := LowerExpectations controllerKey 1 0 r.
Definition DeletionObserved (controllerKey : string) r := LowerExpectations controllerKey 0 1 r.
End controller_expectations.

(** ** The interface *)

(** What [UIDTrackingControllerExpectations] uses of the one it wraps; [E] is
    the type of its errors. *)
Class ControllerExpectationsInterface (C E : Type) : Type := {
  ce_ExpectDeletions : Z → string → Z → C → C * option E;
  ce_DeletionObserved : string → C → C;
  ce_DeleteExpectations : string → C → C;
  ce_SatisfiedExpectations : Z → string → C → bool;
}.

#[export] Instance ce_interface `{RangeOrder} : ControllerExpectationsInterface ControllerExpectations (error expPtr) := {|
  ce_ExpectDeletions := ExpectDeletions;
  ce_DeletionObserved := DeletionObserved;
  ce_DeleteExpectations := DeleteExpectations;
  ce_SatisfiedExpectations := SatisfiedExpectations;
|}.

(** ** Tracking UIDs *)

(** A [*UIDSet]: the map of its [sets.String] is shared by all its copies. *)
Record uidPtr : Type := mkUidPtr { uid_loc : nat; uid_key : string }.

Definition UIDSetKeyFunc : KeyFunc uidPtr := λ obj, Ok (uid_key obj).

Record UIDTracking (C : Type) : Type := mkTracking {
  expectations : C;
  sets : gmap nat (gset string);
  freshSet : nat;
  uidStore : cache uidPtr;
}.
Arguments mkTracking {C} _ _ _ _.
Arguments expectations {C} _.
Arguments sets {C} _.
Arguments freshSet {C} _.
Arguments uidStore {C} _.

(** The errors of the two stores. *)
Inductive trackingError (E : Type) : Type :=
| UidStoreError (err : error uidPtr)
| ExpectationsError (err : E).
Arguments UidStoreError {E} err.
Arguments ExpectationsError {E} err.

Section tracking.
Context `{R : RangeOrder} {C E : Type} `{ControllerExpectationsInterface C E}.
Implicit Types u : UIDTracking C.

Definition NewUIDTracking (ce : C) : UIDTracking C := mkTracking ce ∅ 0 (NewStore UIDSetKeyFunc).

(** [nil] when there is no set for the key. *)
Definition GetUIDs (controllerKey : string) u : option nat :=
  match GetByKey controllerKey (uidStore u) with
  | Ok (Some uid) => Some (uid_loc uid)
  | _ => None
  end.

Definition uid_ExpectDeletions (now : Z) (rcKey : string) (deletedKeys : list string) u :
    UIDTracking C * option (trackingError E) :=
  let expectedUIDs := foldl (λ s k, Insert s [k]) (NewString []) deletedKeys in
  let uid := mkUidPtr (freshSet u) rcKey in
  let '(st, err) := Store.Add uid (uidStore u) in
  let u := mkTracking (expectations u) (<[freshSet u := expectedUIDs]> (sets u)) (S (freshSet u)) st in
  match err with
  | Some err => (u, Some (UidStoreError err))
  | None =>
      let '(ce, err) := ce_ExpectDeletions now rcKey (Z.of_nat (Len expectedUIDs)) (expectations u) in
      (mkTracking ce (sets u) (freshSet u) (uidStore u), ExpectationsError <$> err)
  end.

Definition uid_DeletionObserved (rcKey deleteKey : string) u : UIDTracking C :=
  match GetUIDs rcKey u with
  | Some l =>
      match sets u !! l with
      | Some uids =>
          if Has uids deleteKey then
            mkTracking (ce_DeletionObserved rcKey (expectations u))
              (<[l := SetsString.Delete uids [deleteKey]]> (sets u)) (freshSet u) (uidStore u)
          else u
      | None => u
      end
  | None => u
  end.

Definition uid_DeleteExpectations (rcKey : string) u : UIDTracking C :=
  let u := mkTracking (ce_DeleteExpectations rcKey (expectations u)) (sets u) (freshSet u) (uidStore u) in
  match GetByKey rcKey (uidStore u) with
  | Ok (Some uidExp) =>
      mkTracking (expectations u) (sets u) (freshSet u) (Store.Delete uidExp (uidStore u)).1
  | _ => u
  end.

End tracking.

(** ** The specification *)

(** The calls that change the expectations. *)
Inductive ceOp : Type :=
| OpSet (now : Z) (controllerKey : string) (add del : Z)
| OpDelete (controllerKey : string)
| OpLower (controllerKey : string) (add del : Z)
| OpRaise (controllerKey : string) (add del : Z).

Definition ceStep `{RangeOrder} (r : ControllerExpectations) (o : ceOp) : ControllerExpectations :=
  match o with
  | OpSet now k a d => (SetExpectations now k a d r).1
  | OpDelete k => DeleteExpectations k r
  | OpLower k a d => LowerExpectations k a d r
  | OpRaise k a d => RaiseExpectations k a d r
  end.

Definition ceRun `{RangeOrder} r ops : ControllerExpectations := foldl ceStep r ops.

(** A map from controllers to counters, without pointers. *)
Definition specStep (m : gmap string ControlleeExpectations) (o : ceOp) :
    gmap string ControlleeExpectations :=
  match o with
  | OpSet now k a d => <[k := mkExpectations (int64 a) (int64 d) k now]> m
  | OpDelete k => delete k m
  | OpLower k a d => alter (exp_Add (int64 (- a)) (int64 (- d))) k m
  | OpRaise k a d => alter (exp_Add (int64 a) (int64 d)) k m
  end.

Definition specSatisfied (now : Z) (e : option ControlleeExpectations) : bool :=
  match e with Some e => Fulfilled e || isExpired now e | None => true end.

(** The counters that the store and the heap hold for a controller. *)
Definition entry (r : ControllerExpectations) (k : string) : option ControlleeExpectations :=
  exp ← items (cacheStorage (expStore r)) !! k; heap r !! loc exp.

(** How many creations and deletions of [k] the calls add. *)
Definition addDelta (k : string) (o : ceOp) : Z :=
  match o with
  | OpLower k' a _ => if decide (k' = k) then - a else 0
  | OpRaise k' a _ => if decide (k' = k) then a else 0
  | _ => 0
  end.
Definition delDelta (k : string) (o : ceOp) : Z :=
  match o with
  | OpLower k' _ d => if decide (k' = k) then - d else 0
  | OpRaise k' _ d => if decide (k' = k) then d else 0
  | _ => 0
  end.

(** Neither sets nor deletes the expectations of [k]. *)
Definition adjusts (k : string) (o : ceOp) : Prop :=
  match o with OpSet _ k' _ _ | OpDelete k' => k' ≠ k | _ => True end.

(** ** Facts *)
Section facts.
Context `{R : RangeOrder}.
Implicit Types (r : ControllerExpectations) (k : string).

Record ce_ok r : Prop := {
  ok_keyFunc : keyFunc (expStore r) = ExpKeyFunc;
  ok_ptr k exp : items (cacheStorage (expStore r)) !! k = Some exp →
    ptr_key exp = k ∧ ∃ e, heap r !! loc exp = Some e ∧ exp_key e = k;
  ok_fresh l : is_Some (heap r !! l) → l < fresh r;
}.

Lemma New_ce_ok : ce_ok NewControllerExpectations.
Proof. split; cbn; [done|intros k exp; by rewrite lookup_empty|intros l; rewrite lookup_empty; by intros []]. Qed.

Lemma entry_key r k e : ce_ok r → entry r k = Some e → exp_key e = k.
Proof.
  intros Hr He. apply bind_Some in He as (exp & Hi & Hh).
  destruct (ok_ptr r Hr k exp Hi) as (_ & e' & ? & ?). congruence.
Qed.

Lemma Satisfied_entry r now k : SatisfiedExpectations now k r = specSatisfied now (entry r k).
Proof.
  unfold SatisfiedExpectations, GetExpectations, GetByKey, ThreadSafeStore.Get, entry, specSatisfied.
  destruct (items _ !! k) as [exp|]; cbn; [|done]. destruct (heap r !! loc exp) as [e|]; [|done].
  by destruct (Fulfilled e), (isExpired now e).
Qed.

(** Changing the counters behind the pointer of one controller. *)
Lemma addAt_ok r k exp a d : ce_ok r → items (cacheStorage (expStore r)) !! k = Some exp →
  ce_ok (addAt exp a d r) ∧
  ∀ k', entry (addAt exp a d r) k' =
    if decide (k' = k) then exp_Add (int64 a) (int64 d) <$> entry r k else entry r k'.
Proof.
  intros Hr Hk. destruct (ok_ptr r Hr k exp Hk) as (_ & e & He & Hek). split; [split|].
  - apply Hr.
  - intros k' exp' Hk'. destruct (ok_ptr r Hr k' exp' Hk') as (? & e' & He' & ?). split; [done|].
    cbn. destruct (decide (loc exp' = loc exp)) as [Heq|Hne].
    + rewrite Heq in He' |- *. rewrite lookup_alter_eq, He. eexists. split; [done|]. cbn. congruence.
    + rewrite lookup_alter_ne by done. eauto.
  - intros l. cbn. rewrite lookup_alter. case_decide; subst; rewrite ?fmap_is_Some; apply (ok_fresh r Hr).
  - intros k'. unfold entry. cbn. case_decide as Hkk.
    + subst. rewrite Hk. cbn. by rewrite lookup_alter_eq.
    + destruct (items _ !! k') as [exp'|] eqn:Hk'; cbn; [|done].
      destruct (ok_ptr r Hr k' exp' Hk') as (_ & e' & He' & ?).
      rewrite lookup_alter_ne; [done|]. intros Heq. rewrite Heq in He. congruence.
Qed.

Lemma adjust_ok r k a d : ce_ok r →
  let r' := match GetExpectations k r with Ok (Some exp) => addAt exp a d r | _ => r end in
  ce_ok r' ∧ ∀ k', entry r' k' =
    if decide (k' = k) then exp_Add (int64 a) (int64 d) <$> entry r k else entry r k'.
Proof.
  intros Hr. unfold GetExpectations, GetByKey, ThreadSafeStore.Get.
  destruct (items _ !! k) as [exp|] eqn:Hk; [by apply addAt_ok|].
  split; [done|]. intros k'. case_decide; [subst|done]. unfold entry. by rewrite Hk.
Qed.

Lemma Set_ok r now k a d : ce_ok r →
  let '(r', err) := SetExpectations now k a d r in
  err = None ∧ ce_ok r' ∧ ∀ k', entry r' k' =
    if decide (k' = k) then Some (mkExpectations (int64 a) (int64 d) k now) else entry r k'.
Proof.
  intros Hr. unfold SetExpectations, Store.Add. rewrite (ok_keyFunc r Hr). cbn.
  assert (∀ l, is_Some (heap r !! l) → l ≠ fresh r) as Hne by (intros l Hl%Hr; lia).
  split; [done|]. split; [split|]; cbn.
  - done.
  - intros k' exp. rewrite items_Add, lookup_insert. case_decide as Hk.
    + intros [= <-]. cbn. rewrite lookup_insert_eq. subst. eauto.
    + intros Hi. destruct (ok_ptr r Hr k' exp Hi) as (? & e & He & ?). split; [done|].
      exists e. by rewrite lookup_insert_ne by (symmetry; apply Hne; eauto).
  - intros l. rewrite lookup_insert. case_decide; [lia|]. intros Hl%Hr. lia.
  - intros k'. unfold entry. cbn. rewrite items_Add, lookup_insert.
    destruct (decide (k = k')) as [->|Hk].
    + rewrite decide_True by done. cbn. by rewrite lookup_insert_eq.
    + rewrite decide_False by done. destruct (items _ !! k') as [exp|] eqn:Hi; cbn; [|done].
      destruct (ok_ptr r Hr k' exp Hi) as (_ & e & He & _).
      by rewrite lookup_insert_ne by (symmetry; apply Hne; eauto).
Qed.

Lemma Delete_ok r k : ce_ok r →
  ce_ok (DeleteExpectations k r) ∧ ∀ k', entry (DeleteExpectations k r) k' =
    if decide (k' = k) then None else entry r k'.
Proof.
  intros Hr. unfold DeleteExpectations, GetByKey, ThreadSafeStore.Get.
  destruct (items _ !! k) as [exp|] eqn:Hk.
  2: { split; [done|]. intros k'. case_decide; [subst|done]. unfold entry. by rewrite Hk. }
  destruct (ok_ptr r Hr k exp Hk) as (Hkey & _).
  unfold Store.Delete. rewrite (ok_keyFunc r Hr). cbn. rewrite Hkey. split; [split|]; cbn.
  - done.
  - intros k' exp'. rewrite items_Delete. intros [_ Hi]%lookup_delete_Some. by apply Hr.
  - apply Hr.
  - intros k'. unfold entry. cbn. rewrite items_Delete, lookup_delete.
    destruct (decide (k = k')) as [->|]; [by rewrite decide_True|by rewrite decide_False].
Qed.

(** What the methods that controllers call do to the counters. *)
Lemma CreationObserved_entry k r : ce_ok r →
  ce_ok (CreationObserved k r) ∧ ∀ k', entry (CreationObserved k r) k' =
    if decide (k' = k) then exp_Add (-1) 0 <$> entry r k else entry r k'.
Proof. exact (adjust_ok r k (-1) (-0)). Qed.

Lemma DeletionObserved_entry k r : ce_ok r →
  ce_ok (DeletionObserved k r) ∧ ∀ k', entry (DeletionObserved k r) k' =
    if decide (k' = k) then exp_Add 0 (-1) <$> entry r k else entry r k'.
Proof. exact (adjust_ok r k (-0) (-1)). Qed.

Lemma Expect_entry now k a d r : ce_ok r →
  let r' := (SetExpectations now k a d r).1 in
  ce_ok r' ∧ ∀ k', entry r' k' = if decide (k' = k) then Some (mkExpectations (int64 a) (int64 d) k now) else entry r k'.
Proof.
  intros Hr. pose proof (Set_ok r now k a d Hr) as Hs. destruct (SetExpectations now k a d r) as [r' err]. by destruct Hs as (_ & ? & ?).
Qed.

(** One call does to the store and heap what the specification does to the map. *)
Lemma step_refines r m o : ce_ok r → (∀ k, entry r k = m !! k) →
  ce_ok (ceStep r o) ∧ ∀ k, entry (ceStep r o) k = specStep m o !! k.
Proof.
  intros Hr Hm. destruct o as [now k a d|k|k a d|k a d]; cbn.
  - pose proof (Set_ok r now k a d Hr) as Hs. destruct (SetExpectations now k a d r) as [r' err].
    destruct Hs as (_ & Hok & He). split; [done|]. intros k'. rewrite He, lookup_insert, <- Hm.
    destruct (decide (k = k')) as [->|]; [by rewrite decide_True|by rewrite decide_False].
  - destruct (Delete_ok r k Hr) as [Hok He]. split; [done|]. intros k'. rewrite He, lookup_delete, <- Hm.
    destruct (decide (k = k')) as [->|]; [by rewrite decide_True|by rewrite decide_False].
  - destruct (adjust_ok r k (- a) (- d) Hr) as [Hok He]. split; [done|]. intros k'.
    unfold LowerExpectations. rewrite He, lookup_alter, <- !Hm.
    destruct (decide (k = k')) as [->|]; [by rewrite decide_True|by rewrite decide_False].
  - destruct (adjust_ok r k a d Hr) as [Hok He]. split; [done|]. intros k'.
    unfold RaiseExpectations. rewrite He, lookup_alter, <- !Hm.
    destruct (decide (k = k')) as [->|]; [by rewrite decide_True|by rewrite decide_False].
Qed.

Lemma run_refines ops : ∀ r m, ce_ok r → (∀ k, entry r k = m !! k) →
  ce_ok (ceRun r ops) ∧ ∀ k, entry (ceRun r ops) k = foldl specStep m ops !! k.
Proof.
  induction ops as [|o ops IH]; intros r m Hr Hm; [done|].
  destruct (step_refines r m o Hr Hm) as [Hr' Hm']. by apply IH.
Qed.

Lemma entry_run ops k :
  entry (ceRun NewControllerExpectations ops) k = foldl specStep ∅ ops !! k.
Proof.
  apply (run_refines ops NewControllerExpectations ∅ New_ce_ok). intros k'. by rewrite lookup_empty.
Qed.

(** The counters of [k] after calls that only adjust them. *)
Lemma spec_adjusts k now ops : Forall (adjusts k) ops → ∀ m x y,
  m !! k = Some (mkExpectations (int64 x) (int64 y) k now) →
  foldl specStep m ops !! k = Some (mkExpectations
    (int64 (x + sumZ (addDelta k <$> ops))) (int64 (y + sumZ (delDelta k <$> ops))) k now).
Proof.
  induction 1 as [|o ops Ho Hops IH]; intros m x y Hm; cbn [foldl fmap list_fmap sumZ foldr].
  { by rewrite !Z.add_0_r. }
  assert (specStep m o !! k = Some (mkExpectations
    (int64 (x + addDelta k o)) (int64 (y + delDelta k o)) k now)) as Hm'.
  { destruct o as [now' k' a d|k'|k' a d|k' a d]; cbn in Ho |- *.
    - by rewrite lookup_insert_ne, Hm, !Z.add_0_r by done.
    - by rewrite lookup_delete_ne, Hm, !Z.add_0_r by done.
    - rewrite lookup_alter. case_decide; subst; rewrite Hm; [|by rewrite !Z.add_0_r].
      cbn. unfold exp_Add. cbn. by rewrite !int64_add_l, !int64_add_r.
    - rewrite lookup_alter. case_decide; subst; rewrite Hm; [|by rewrite !Z.add_0_r].
      cbn. unfold exp_Add. cbn. by rewrite !int64_add_l, !int64_add_r. }
  rewrite (IH _ _ _ Hm'). do 2 f_equal; f_equal; apply Z.add_assoc || (symmetry; apply Z.add_assoc).
Qed.
End facts.

(** ** Laws of the interface *)

(** What an implementation promises: its counters per controller, kept by an
    invariant. *)
Class ControllerExpectationsLaws (C E : Type) `{ControllerExpectationsInterface C E} : Type := {
  counters : C → string → option ControlleeExpectations;
  ce_inv : C → Prop;
  law_ExpectDeletions now k n c : ce_inv c →
    (ce_ExpectDeletions now k n c).2 = None ∧ ce_inv (ce_ExpectDeletions now k n c).1 ∧
    ∀ k', counters (ce_ExpectDeletions now k n c).1 k' =
      if decide (k' = k) then Some (mkExpectations 0 (int64 n) k now) else counters c k';
  law_DeletionObserved k c : ce_inv c →
    ce_inv (ce_DeletionObserved k c) ∧
    ∀ k', counters (ce_DeletionObserved k c) k' =
      if decide (k' = k) then exp_Add 0 (-1) <$> counters c k else counters c k';
  law_DeleteExpectations k c : ce_inv c →
    ce_inv (ce_DeleteExpectations k c) ∧
    ∀ k', counters (ce_DeleteExpectations k c) k' =
      if decide (k' = k) then None else counters c k';
  law_Satisfied now k c :
    ce_SatisfiedExpectations now k c = specSatisfied now (counters c k);
}.

#[export] Program Instance ce_laws `{R : RangeOrder} :
  ControllerExpectationsLaws ControllerExpectations (error expPtr) :=
  {| counters := entry; ce_inv := ce_ok |}.
Next Obligation.
  intros R now k n c Hc. pose proof (Set_ok c now k 0 n Hc) as Hs. cbn. unfold ExpectDeletions.
  by destruct (SetExpectations now k 0 n c).
Qed.
Next Obligation. intros R k c Hc. apply (adjust_ok c k (-0) (-1) Hc). Qed.
Next Obligation. intros R k c Hc. by apply Delete_ok. Qed.
Next Obligation. intros R now k c. apply Satisfied_entry. Qed.

(** ** Tracked deletions *)

(** The calls of [UIDTrackingControllerExpectations]. *)
Inductive uidOp : Type :=
| UExpectDeletions (now : Z) (rcKey : string) (deletedKeys : list string)
| UDeletionObserved (rcKey deleteKey : string)
| UDeleteExpectations (rcKey : string).

(** The UIDs observed to be deleted for [rc]. *)
Definition observed (rc : string) (ops : list uidOp) : gset string :=
  list_to_set (omap (λ o, match o with
    | UDeletionObserved rc' uid => if decide (rc' = rc) then Some uid else None
    | _ => None
    end) ops).

(** Neither expects the deletions of [rc] anew nor forgets them. *)
Definition observes (rc : string) (o : uidOp) : Prop :=
  match o with
  | UExpectDeletions _ rc' _ | UDeleteExpectations rc' => rc' ≠ rc
  | UDeletionObserved _ _ => True
  end.

Section uid_facts.
Context `{R : RangeOrder} {C E : Type} `{ControllerExpectationsLaws C E}.
Implicit Types u : UIDTracking C.

Definition uidStep u (o : uidOp) : UIDTracking C :=
  match o with
  | UExpectDeletions now rc keys => (uid_ExpectDeletions now rc keys u).1
  | UDeletionObserved rc uid => uid_DeletionObserved rc uid u
  | UDeleteExpectations rc => uid_DeleteExpectations rc u
  end.

Definition uidRun u ops : UIDTracking C := foldl uidStep u ops.

(** The set of a controller. *)
Definition uidsOf u (k : string) : option (gset string) :=
  l ← GetUIDs k u; sets u !! l.
Arguments uidsOf : simpl never.

Record uid_ok u : Prop := {
  uid_ok_inner : ce_inv (expectations u);
  uid_ok_keyFunc : keyFunc (uidStore u) = UIDSetKeyFunc;
  uid_ok_ptr k p : items (cacheStorage (uidStore u)) !! k = Some p →
    uid_key p = k ∧ is_Some (sets u !! uid_loc p);
  uid_ok_inj k k' p p' : items (cacheStorage (uidStore u)) !! k = Some p →
    items (cacheStorage (uidStore u)) !! k' = Some p' → uid_loc p = uid_loc p' → k = k';
  uid_ok_fresh l : is_Some (sets u !! l) → l < freshSet u;
}.

Lemma uidsOf_eq u k :
  uidsOf u k = p ← items (cacheStorage (uidStore u)) !! k; sets u !! uid_loc p.
Proof.
  unfold uidsOf, GetUIDs, GetByKey, ThreadSafeStore.Get. by destruct (items _ !! k).
Qed.

Lemma New_uid_ok c : ce_inv c → uid_ok (NewUIDTracking c).
Proof.
  intros Hc. split; cbn; try done. intros l. rewrite lookup_empty. by intros [].
Qed.

Lemma expectedUIDs_eq keys :
  foldl (λ s k, Insert s [k]) (NewString []) keys = list_to_set keys.
Proof.
  assert (∀ s, foldl (λ s k, Insert s [k]) s keys = list_to_set keys ∪ s) as ->; [|cbn; set_solver].
  induction keys as [|k keys IH]; intros s; cbn; [set_solver|].
  rewrite IH, Insert_union. cbn. set_solver.
Qed.

Lemma uid_ExpectDeletions_ok now rc keys u : uid_ok u →
  let u' := (uid_ExpectDeletions now rc keys u).1 in
  (uid_ExpectDeletions now rc keys u).2 = None ∧ uid_ok u' ∧
  (∀ k, uidsOf u' k = if decide (k = rc) then Some (list_to_set keys) else uidsOf u k) ∧
  ∀ k, counters (expectations u') k =
    if decide (k = rc)
    then Some (mkExpectations 0 (int64 (Z.of_nat (size (list_to_set keys : gset string)))) rc now)
    else counters (expectations u) k.
Proof.
  intros [Hin Hkf Hptr Hinj Hfr]. unfold uid_ExpectDeletions, Store.Add. rewrite Hkf, expectedUIDs_eq.
  cbn -[Len]. pose proof (law_ExpectDeletions now rc (Z.of_nat (Len (list_to_set keys))) _ Hin)
    as (He & Hinv & Hc).
  destruct (ce_ExpectDeletions _ _ _ _) as [ce err]. cbn in He, Hinv, Hc. subst. cbn.
  assert (∀ k p, items (cacheStorage (uidStore u)) !! k = Some p → uid_loc p ≠ freshSet u) as Hne.
  { intros k p Hp. destruct (Hptr k p Hp) as [_ Hs%Hfr]. lia. }
  split; [done|]. split; [split|split; [|done]]; cbn; try done.
  - intros k p. rewrite items_Add, lookup_insert_Some. intros [[<- <-]|[_ Hp]]; cbn.
    + by rewrite lookup_insert_eq.
    + destruct (Hptr k p Hp). split; [done|]. by rewrite lookup_insert_ne by (symmetry; eauto).
  - intros k k' p p'. rewrite items_Add, !lookup_insert_Some.
    intros [[<- <-]|[_ Hp]] [[<- <-]|[_ Hp']]; cbn; [done|..|by apply Hinj];
      intros Heq; by (exfalso; eapply Hne; eauto).
  - intros l. rewrite lookup_insert. case_decide; [lia|]. intros Hl%Hfr. lia.
  - intros k. rewrite !uidsOf_eq. cbn. rewrite items_Add, lookup_insert.
    destruct (decide (rc = k)) as [->|Hk].
    + rewrite decide_True by done. cbn. by rewrite lookup_insert_eq.
    + rewrite decide_False by done. destruct (items _ !! k) as [p|] eqn:Hp; cbn; [|done].
      by rewrite lookup_insert_ne by (symmetry; eauto).
Qed.

Lemma uid_DeletionObserved_ok rc uid u : uid_ok u →
  let u' := uid_DeletionObserved rc uid u in
  uid_ok u' ∧
  (∀ k, uidsOf u' k = if decide (k = rc) then (λ s, s ∖ {[uid]}) <$> uidsOf u rc else uidsOf u k) ∧
  ∀ k, counters (expectations u') k =
    if decide (k = rc) then
      if decide (uid ∈ default ∅ (uidsOf u rc))
      then exp_Add 0 (-1) <$> counters (expectations u) rc else counters (expectations u) rc
    else counters (expectations u) k.
Proof.
  intros Hok. pose proof Hok as [Hin Hkf Hptr Hinj Hfr]. cbv zeta.
  assert (Hsame : (uidsOf u rc = None ∨ ∃ s, uidsOf u rc = Some s ∧ uid ∉ s) → ∀ k,
    uidsOf u k = if decide (k = rc) then (λ s, s ∖ {[uid]}) <$> uidsOf u rc else uidsOf u k).
  { intros Hno k. case_decide; [subst|done]. destruct Hno as [->|(s & -> & Hs)]; [done|].
    cbn. f_equal. set_solver. }
  rewrite (uidsOf_eq u rc) in Hsame |- *. unfold uid_DeletionObserved, GetUIDs, GetByKey, ThreadSafeStore.Get.
  destruct (items _ !! rc) as [p|] eqn:Hp; cbn in *.
  2: { split_and!; [done|apply Hsame; auto|].
       intros k. by case_decide; subst. }
  destruct (Hptr rc p Hp) as [_ [s Hs]]. rewrite Hs in Hsame |- *. cbn in *.
  unfold Has. case_bool_decide as Hin'.
  2: { split_and!; [done|apply Hsame; eauto|].
       intros k. case_decide; [subst|done]. by rewrite decide_False. }
  destruct (law_DeletionObserved rc _ Hin) as [Hinv Hc]. rewrite Delete_difference. cbn.
  split_and!.
  - split; cbn; try done.
    + intros k p' Hp'. destruct (Hptr k p' Hp') as [? Hs']. split; [done|].
      rewrite lookup_insert. by case_decide.
    + intros l. rewrite lookup_insert. case_decide; [|by apply Hfr]. intros _. subst. eauto.
  - intros k. rewrite !uidsOf_eq. cbn. case_decide as Hk.
    + subst. rewrite Hp. cbn. rewrite lookup_insert_eq. f_equal. set_solver.
    + destruct (items _ !! k) as [p'|] eqn:Hp'; cbn; [|done].
      rewrite lookup_insert_ne; [done|]. intros Heq. apply Hk. by eapply Hinj.
  - intros k. rewrite Hc. case_decide; [|done]. by rewrite decide_True.
Qed.

Lemma uid_DeleteExpectations_ok rc u : uid_ok u →
  let u' := uid_DeleteExpectations rc u in
  uid_ok u' ∧
  (∀ k, uidsOf u' k = if decide (k = rc) then None else uidsOf u k) ∧
  ∀ k, counters (expectations u') k = if decide (k = rc) then None else counters (expectations u) k.
Proof.
  intros [Hin Hkf Hptr Hinj Hfr]. cbv zeta. unfold uid_DeleteExpectations, GetByKey, ThreadSafeStore.Get.
  destruct (law_DeleteExpectations rc _ Hin) as [Hinv Hc]. cbn.
  destruct (items _ !! rc) as [p|] eqn:Hp; cbn.
  2: { split_and!; [by split|intros k; rewrite !uidsOf_eq; cbn|done].
       case_decide; [subst|done]. by rewrite Hp. }
  destruct (Hptr rc p Hp) as [Hk _]. unfold Store.Delete. rewrite Hkf. cbn. rewrite Hk.
  split_and!; [split|..]; cbn; try done.
  - intros k p'. rewrite items_Delete, lookup_delete_Some. intros [_ Hp']. by apply Hptr.
  - intros k k' p1 p2. rewrite items_Delete, !lookup_delete_Some. intros [_ H1] [_ H2]. by apply Hinj.
  - intros k. rewrite !uidsOf_eq. cbn. rewrite items_Delete, lookup_delete.
    destruct (decide (rc = k)) as [->|]; [by rewrite decide_True|by rewrite decide_False].
Qed.

Lemma uidStep_ok u o : uid_ok u → uid_ok (uidStep u o).
Proof.
  intros Hu. destruct o as [now rc keys|rc uid|rc]; cbn.
  - by apply uid_ExpectDeletions_ok.
  - by apply uid_DeletionObserved_ok.
  - by apply uid_DeleteExpectations_ok.
Qed.

Lemma uidRun_ok u ops : uid_ok u → uid_ok (uidRun u ops).
Proof. intros Hu. apply (foldl_inv uid_ok); [done|]. intros. by apply uidStep_ok. Qed.

(** [rc] waits for the deletions of [s]: the set is stored, and its size is the
    counter. *)
Definition waiting rc now0 (s : gset string) u : Prop :=
  uid_ok u ∧ uidsOf u rc = Some s ∧
  counters (expectations u) rc = Some (mkExpectations 0 (int64 (Z.of_nat (size s))) rc now0).

Lemma observed_one rc o : observed rc [o] =
  match o with
  | UDeletionObserved rc' uid => if decide (rc' = rc) then {[uid]} else ∅
  | _ => ∅
  end.
Proof. destruct o; try done. unfold observed. cbn. case_decide; cbn; set_solver. Qed.

Lemma observed_cons rc o ops : observed rc (o :: ops) = observed rc [o] ∪ observed rc ops.
Proof.
  rewrite observed_one. unfold observed. destruct o as [|rc' uid|]; cbn; [set_solver| |set_solver].
  case_decide; cbn; set_solver.
Qed.

Lemma waiting_step rc now0 s u o : observes rc o → waiting rc now0 s u →
  waiting rc now0 (s ∖ observed rc [o]) (uidStep u o).
Proof.
  intros Ho (Hu & Hs & Hc). split; [by apply uidStep_ok|]. rewrite observed_one.
  destruct o as [now rc' keys|rc' uid|rc']; cbn in Ho |- *.
  - destruct (uid_ExpectDeletions_ok now rc' keys u Hu) as (_ & _ & -> & ->).
    rewrite !decide_False by done. by rewrite difference_empty_L.
  - destruct (uid_DeletionObserved_ok rc' uid u Hu) as (_ & -> & ->).
    destruct (decide (rc' = rc)) as [->|Hne].
    2: { rewrite !decide_False by done. by rewrite difference_empty_L. }
    rewrite !(decide_True (P := rc = rc)) by done. rewrite Hs. cbn.
    split; [done|]. case_decide as Hin; rewrite Hc.
    + cbn. unfold exp_Add. cbn. rewrite int64_add_l. do 3 f_equal.
      rewrite (size_delete_elem s uid Hin). lia.
    + replace (s ∖ {[uid]}) with s by set_solver. done.
  - destruct (uid_DeleteExpectations_ok rc' u Hu) as (_ & -> & ->).
    rewrite !decide_False by done. by rewrite difference_empty_L.
Qed.

Lemma waiting_run rc now0 ops : Forall (observes rc) ops → ∀ s u, waiting rc now0 s u →
  waiting rc now0 (s ∖ observed rc ops) (uidRun u ops).
Proof.
  induction 1 as [|o ops Ho Hops IH]; intros s u Hu.
  { unfold observed. cbn. by rewrite difference_empty_L. }
  apply (waiting_step _ _ _ _ _ Ho), IH in Hu.
  rewrite observed_cons. by rewrite <- difference_difference_l_L.
Qed.
End uid_facts.

(** ** Properties *)

(** C28: the store of pointers and the counters behind them implement a map from
    controllers to counters: after any calls, a controller is satisfied exactly
    when that map has no counters for it, none above zero, or counters older
    than five minutes. *)
Theorem expectations_refine_map (R : RangeOrder) (ops : list ceOp) (now : Z) (k : string) :
  entry (ceRun NewControllerExpectations ops) k = foldl specStep ∅ ops !! k ∧
  SatisfiedExpectations now k (ceRun NewControllerExpectations ops) =
    specSatisfied now (foldl specStep ∅ ops !! k).
Proof.
  rewrite Satisfied_entry, entry_run. done.
Qed.

(** After [SetExpectations] a controller waits until what was observed
    makes up for what it expects, whatever other controllers do and in whatever
    order the observations come, or until five minutes have passed. *)
Theorem waits_until_observed (R : RangeOrder) (pre ops : list ceOp) (now0 now : Z) (k : string) (a d : Z) :
  Forall (adjusts k) ops →
  SatisfiedExpectations now k (ceRun NewControllerExpectations (pre ++ OpSet now0 k a d :: ops)) =
  ((int64 (a + sumZ (addDelta k <$> ops)) <=? 0)%Z &&
   (int64 (d + sumZ (delDelta k <$> ops)) <=? 0)%Z) || (ExpectationsTimeout <? now - now0)%Z.
Proof.
  intros Hops. rewrite Satisfied_entry, entry_run, foldl_app. cbn [foldl].
  rewrite (spec_adjusts k now0 ops Hops _ a d); [done|]. cbn. by rewrite lookup_insert_eq.
Qed.

(** Deletions are counted once each: whatever implements the counters, a
    controller that expects the deletion of some UIDs is satisfied exactly when
    each of them has been observed, however often and in whatever order, with
    other UIDs and the calls for other controllers in between, or when five
    minutes have passed. *)
Theorem deletions_counted_once (R : RangeOrder) (C E : Type) `{ControllerExpectationsLaws C E}
    (c : C) (pre ops : list uidOp) (now0 now : Z) (rc : string) (keys : list string) :
  ce_inv c → Forall (observes rc) ops → (Z.of_nat (length keys) < 2 ^ 63)%Z →
  ce_SatisfiedExpectations now rc
    (expectations (uidRun (NewUIDTracking c) (pre ++ UExpectDeletions now0 rc keys :: ops))) =
  bool_decide (list_to_set keys ⊆ observed rc ops) || (ExpectationsTimeout <? now - now0)%Z.
Proof.
  intros Hc Hops Hlen. rewrite law_Satisfied. unfold uidRun at 1. rewrite foldl_app. cbn [foldl].
  set (u := foldl uidStep (NewUIDTracking c) pre).
  assert (uid_ok u) as Hu by (by apply uidRun_ok, New_uid_ok).
  destruct (uid_ExpectDeletions_ok now0 rc keys u Hu) as (_ & Hu' & Hs & Hcnt).
  destruct (waiting_run rc now0 ops Hops (list_to_set keys) (uidStep u (UExpectDeletions now0 rc keys)))
    as (_ & _ & Hw).
  { unfold uidStep. split_and!; [done|by rewrite Hs, decide_True|by rewrite Hcnt, decide_True]. }
  unfold uidRun in Hw. rewrite Hw. unfold specSatisfied, Fulfilled, isExpired. cbn. f_equal.
  set (left := list_to_set keys ∖ observed rc ops).
  assert (size left ≤ length keys) as Hsize.
  { transitivity (size (list_to_set keys : gset string)); [apply subseteq_size; set_solver|].
    apply size_list_to_set_le. }
  rewrite int64_id by lia. apply eq_bool_prop_intro. rewrite !Is_true_true, Z.leb_le, bool_decide_eq_true.
  assert (size left = 0 ↔ left = ∅) by (split; [intros ?%size_empty_inv; set_solver|intros ->; apply size_empty]).
  unfold left in *. split; intros Hx.
  - assert (list_to_set keys ∖ observed rc ops = ∅) by (apply H1; lia). set_solver.
  - assert (list_to_set keys ∖ observed rc ops = ∅) as He by set_solver. rewrite He. by rewrite size_empty.
Qed.

(** ** Witnesses *)
#[local] Existing Instance canonical_order.

Lemma waits_until_observed_witness :
  let pre := [OpSet 0 "ns/rc" 7 0] in
  let ops := [OpLower "ns/rc" 1 0; OpSet 3 "ns/other" 1 1; OpLower "ns/rc" 1 0; OpDelete "ns/other"] in
  Forall (adjusts "ns/rc") ops ∧
  SatisfiedExpectations 9 "ns/rc" (ceRun NewControllerExpectations (pre ++ OpSet 1 "ns/rc" 2 0 :: ops)) =
    ((int64 (2 + sumZ (addDelta "ns/rc" <$> ops)) <=? 0)%Z &&
     (int64 (0 + sumZ (delDelta "ns/rc" <$> ops)) <=? 0)%Z) || (ExpectationsTimeout <? 9 - 1)%Z.
Proof.
  cbv zeta. assert (Forall (adjusts "ns/rc")
    [OpLower "ns/rc" 1 0; OpSet 3 "ns/other" 1 1; OpLower "ns/rc" 1 0; OpDelete "ns/other"]) as Ha
    by (by repeat constructor).
  split; [exact Ha|]. by apply (waits_until_observed canonical_order).
Defined.

Lemma deletions_counted_once_witness :
  let ops := [UDeletionObserved "ns/rc" "p1"; UDeletionObserved "ns/rc" "p1";
    UExpectDeletions 4 "ns/other" ["p2"]; UDeletionObserved "ns/rc" "p3"] in
  Forall (observes "ns/rc") ops ∧
  ce_SatisfiedExpectations 9 "ns/rc"
    (expectations (uidRun (NewUIDTracking NewControllerExpectations)
      ([] ++ UExpectDeletions 0 "ns/rc" ["p1"; "p2"] :: ops))) =
  bool_decide (list_to_set ["p1"; "p2"] ⊆ observed "ns/rc" ops) || (ExpectationsTimeout <? 9 - 0)%Z.
Proof.
  cbv zeta. assert (Forall (observes "ns/rc")
    [UDeletionObserved "ns/rc" "p1"; UDeletionObserved "ns/rc" "p1";
     UExpectDeletions 4 "ns/other" ["p2"]; UDeletionObserved "ns/rc" "p3"]) as Ho
    by (by repeat constructor).
  split; [exact Ho|].
  apply (deletions_counted_once canonical_order ControllerExpectations (error expPtr));
    [apply New_ce_ok|exact Ho|done].
Defined.
