(* ===== verification/Pods.v ===== *)
(** * controller: choosing pods

    Models the pod helpers of [pkg/controller/controller_utils.go]: which pods
    are active, and the order [ActivePods] in which a controller gives them up.
    A time is in nanoseconds from Go's zero time; a pod has the fields these
    functions read. *)

From S2P Require Import Prelude.
From S2P Require Import Quantity.
From S2P Require Import Validation.
From S2P Require Import Labels.

(** ** Data *)

(** The zero [unversioned.Time] is 0. *)
Definition Time : Type := Z.
Definition IsZero (t : Time) : bool := Z.eqb t 0.

Definition PodPending : string := "Pending".
Definition PodRunning : string := "Running".
Definition PodSucceeded : string := "Succeeded".
Definition PodFailed : string := "Failed".
Definition PodUnknown : string := "Unknown".
Definition PodReady : string := "Ready".
Definition ConditionTrue : string := "True".

Record PodCondition : Type := mkCondition {
  cond_Type : string;
  cond_Status : string;
  LastTransitionTime : Time;
}.

Record ContainerPort : Type := mkContainerPort {
  cp_Name : string;
  cp_HostPort : Z;
  cp_ContainerPort : Z;
  cp_Protocol : string;
}.

(** Of the resources of a container, what it requests. *)
Record Container : Type := mkContainer {
  ctr_Ports : list ContainerPort;
  ctr_Requests : gmap string Quantity;
}.

(** A nil map of annotations is an empty one. *)
Record Pod : Type := mkPod {
  Namespace : string;
  Name : string;
  pod_Labels : Set_;
  NodeName : string;
  Phase : string;
  Conditions : list PodCondition;
  RestartCounts : list Z;
  CreationTimestamp : Time;
  DeletionTimestamp : option Time;
  pod_UID : string;
  pod_ResourceVersion : string;
  pod_Annotations : gmap string string;
  PodIP : string;
  Containers : list Container;
  DeletionGracePeriodSeconds : option Z;
}.

(** The pod's label set from its template, copied key by key. *)
Definition getPodsLabelSet `{RangeOrder} (templateLabels : Set_) : Set_ :=
  foldl (λ desiredLabels '(k, v), <[k := v]> desiredLabels) ∅ (range_map templateLabels).

(** ** Readiness *)

Fixpoint GetPodReadyCondition (conditions : list PodCondition) : option PodCondition :=
  match conditions with
  | [] => None
  | c :: conditions => if decide (cond_Type c = PodReady) then Some c else GetPodReadyCondition conditions
  end.

Definition IsPodReady (pod : Pod) : bool :=
  match GetPodReadyCondition (Conditions pod) with
  | Some condition => bool_decide (cond_Status condition = ConditionTrue)
  | None => false
  end.

Fixpoint readyTimeLoop (conditions : list PodCondition) : Time :=
  match conditions with
  | [] => 0%Z
  | c :: conditions =>
      if bool_decide (cond_Type c = PodReady) && bool_decide (cond_Status c = ConditionTrue)
      then LastTransitionTime c else readyTimeLoop conditions
  end.

Definition podReadyTime (pod : Pod) : Time :=
  if IsPodReady pod then readyTimeLoop (Conditions pod) else 0%Z.

Definition afterOrZero (t1 t2 : Time) : bool :=
  if IsZero t1 || IsZero t2 then IsZero t1 else (t2 <? t1)%Z.

Definition IntMax (a b : Z) : Z := if (a <? b)%Z then b else a.

Definition maxContainerRestarts (pod : Pod) : Z := foldl IntMax 0%Z (RestartCounts pod).

(** ** The order *)

(** The map from phases to ranks; a phase it does not have is 0. *)
Definition phaseRank (phase : string) : Z :=
  if decide (phase = PodPending) then 0
  else if decide (phase = PodUnknown) then 1
  else if decide (phase = PodRunning) then 2 else 0.

Definition Less (p q : Pod) : bool :=
  if bool_decide (NodeName p ≠ NodeName q) &&
     (Nat.eqb (String.length (NodeName p)) 0 || Nat.eqb (String.length (NodeName q)) 0)
  then Nat.eqb (String.length (NodeName p)) 0
  else if negb (Z.eqb (phaseRank (Phase p)) (phaseRank (Phase q)))
  then (phaseRank (Phase p) <? phaseRank (Phase q))%Z
  else if negb (eqb (IsPodReady p) (IsPodReady q)) then negb (IsPodReady p)
  else if IsPodReady p && IsPodReady q && negb (Z.eqb (podReadyTime p) (podReadyTime q))
  then afterOrZero (podReadyTime p) (podReadyTime q)
  else if negb (Z.eqb (maxContainerRestarts p) (maxContainerRestarts q))
  then (maxContainerRestarts q <? maxContainerRestarts p)%Z
  else if negb (Z.eqb (CreationTimestamp p) (CreationTimestamp q))
  then afterOrZero (CreationTimestamp p) (CreationTimestamp q)
  else false.

(** ** Filters and keys *)

Definition IsPodActive (p : Pod) : bool :=
  bool_decide (PodSucceeded ≠ Phase p) && bool_decide (PodFailed ≠ Phase p) &&
  bool_decide (DeletionTimestamp p = None).

Fixpoint FilterActivePods (pods : list Pod) : list Pod :=
  match pods with
  | [] => []
  | p :: pods => if IsPodActive p then p :: FilterActivePods pods else FilterActivePods pods
  end.

(** Replica sets and replication controllers, by what the sorts and filters read. *)
Record Owner : Type := mkOwner { owner_Name : string; owner_Created : Time; Replicas : Z }.

Fixpoint FilterActiveReplicaSets (replicaSets : list Owner) : list Owner :=
  match replicaSets with
  | [] => []
  | rs :: replicaSets =>
      if (0 <? Replicas rs)%Z then rs :: FilterActiveReplicaSets replicaSets
      else FilterActiveReplicaSets replicaSets
  end.

Definition PodKey (pod : Pod) : string := Namespace pod +:+ "/" +:+ Name pod.

(** [ControllersByCreationTimestamp.Less] and [ReplicaSetsByCreationTimestamp.Less] *)
Definition ByCreationTimestamp_Less (a b : Owner) : bool :=
  if Z.eqb (owner_Created a) (owner_Created b) then string_lt (owner_Name a) (owner_Name b)
  else (owner_Created a <? owner_Created b)%Z.

(** ** Facts *)

(** Lexicographic order. *)
Fixpoint lexlt (a b : list Z) : bool :=
  match a, b with
  | x :: a, y :: b => if (x <? y)%Z then true else if (y <? x)%Z then false else lexlt a b
  | _, _ => false
  end.

Lemma lexlt_irrefl a : lexlt a a = false.
Proof. induction a as [|x a IH]; cbn; [done|]. by rewrite Z.ltb_irrefl. Qed.

Lemma lexlt_trans a : ∀ b c, lexlt a b = true → lexlt b c = true → lexlt a c = true.
Proof.
  induction a as [|x a IH]; intros [|y b] [|z c]; cbn; try done.
  zcases; try done; try lia. apply IH.
Qed.

(** Of two lists in order, a third is after the first or before the second. *)
Lemma lexlt_split a : ∀ b c, length a = length b → length b = length c →
  lexlt a b = true → lexlt a c = true ∨ lexlt c b = true.
Proof.
  induction a as [|x a IH]; intros [|y b] [|z c] H1 H2; cbn in *; try done.
  zcases; try lia; auto. 
Qed.

Definition timeRank (t : Time) : list Z := [if IsZero t then 0%Z else 1%Z; (- t)%Z].

(** What the order compares, most important first. *)
Definition rank (p : Pod) : list Z :=
  [if decide (NodeName p = "") then 0%Z else 1%Z; phaseRank (Phase p); if IsPodReady p then 1%Z else 0%Z]
  ++ timeRank (podReadyTime p) ++ [(- maxContainerRestarts p)%Z] ++ timeRank (CreationTimestamp p).

Lemma lexlt_ne x y a b : x ≠ y → lexlt (x :: a) (y :: b) = (x <? y)%Z.
Proof. intros. cbn. by zcases; try lia. Qed.

Lemma lexlt_eq x a b : lexlt (x :: a) (x :: b) = lexlt a b.
Proof. cbn. by rewrite Z.ltb_irrefl. Qed.

Lemma lexlt_time t u a b :
  lexlt (timeRank t ++ a) (timeRank u ++ b) = if Z.eqb t u then lexlt a b else afterOrZero t u.
Proof.
  unfold timeRank, afterOrZero, IsZero. destruct (Z.eqb_spec t u) as [->|Hne]; cbn.
  { by rewrite !Z.ltb_irrefl. }
  destruct (Z.eqb_spec t 0), (Z.eqb_spec u 0); cbn; zcases; lia || done.
Qed.

Lemma length_empty str : Nat.eqb (String.length str) 0 = bool_decide (str = "").
Proof. by destruct str. Qed.

Lemma Less_rank p q : Less p q = lexlt (rank p) (rank q).
Proof.
  unfold Less, rank. rewrite !length_empty. cbn [app].
  destruct (decide (NodeName p = "")) as [Hp|Hp], (decide (NodeName q = "")) as [Hq|Hq];
    rewrite ?(bool_decide_true (NodeName p = "")), ?(bool_decide_true (NodeName q = "")),
      ?(bool_decide_false (NodeName p = "")), ?(bool_decide_false (NodeName q = "")) by done.
  2, 3: rewrite bool_decide_true by congruence; done.
  1: rewrite bool_decide_false by (intros []; congruence).
  2: rewrite andb_false_r.
  all: cbn [andb]; rewrite lexlt_eq;
    destruct (Z.eqb_spec (phaseRank (Phase p)) (phaseRank (Phase q))) as [->|Hph];
    cbn [negb]; [rewrite lexlt_eq|by rewrite lexlt_ne];
    destruct (IsPodReady p) eqn:Hrp, (IsPodReady q) eqn:Hrq; cbn [eqb negb andb]; try done;
    rewrite lexlt_eq.
  all: rewrite (lexlt_time (podReadyTime p)).
  2, 4: unfold podReadyTime; rewrite Hrp, Hrq; cbn [Z.eqb].
  all: try (destruct (Z.eqb (podReadyTime p) (podReadyTime q)); cbn [negb]; [|done]).
  all: cbn [app]; destruct (Z.eqb_spec (maxContainerRestarts p) (maxContainerRestarts q)) as [->|Hr];
    cbn [negb]; [rewrite lexlt_eq|rewrite lexlt_ne by lia; zcases; lia || done].
  all: pose proof (lexlt_time (CreationTimestamp p) (CreationTimestamp q) [] []) as Ht;
    rewrite !app_nil_r in Ht; rewrite Ht; by destruct (Z.eqb _ _).
Qed.

(** ** Properties *)

(** [ActivePods.Less] compares the unassigned first, then by phase, not
    ready before ready, the latest ready, the most restarted and the youngest
    first, the zero time counting as the latest; it is a strict weak order, as
    sorting needs. *)
Theorem ActivePods_order (p q r : Pod) :
  Less p q = lexlt (rank p) (rank q) ∧ Less p p = false ∧
  (Less p q = true → Less q r = true → Less p r = true) ∧
  (Less p q = true → Less p r = true ∨ Less r q = true).
Proof.
  split; [apply Less_rank|]. rewrite !Less_rank. split_and!.
  - apply lexlt_irrefl.
  - apply lexlt_trans.
  - by apply lexlt_split.
Qed.
