(* ===== verification/ExpirationCache.v ===== *)
(** * cache.ExpirationCache: a store whose entries expire

    Models [pkg/client/cache/expiration_cache.go].  The thread safe store holds
    timestamped entries; reading an entry that has expired removes it.  The
    clock is the argument [now] of each operation, in nanoseconds; a call holds
    the expiration lock throughout, and so is one step. *)

From S2P Require Import Prelude.
From S2P Require Import SetsString.
From S2P Require Import ThreadSafeStore.
From S2P Require Import Store.

(** ** Definitions *)

Record timestampedEntry (V : Type) : Type := mkEntry { obj : V; timestamp : Z }.
Arguments mkEntry {V} obj timestamp.
Arguments obj {V} _.
Arguments timestamp {V} _.

(** [ExpirationPolicy], told the time. *)
Class ExpirationPolicy (P : Type) : Type := {
  IsExpired : ∀ {V : Type}, P → Z → timestampedEntry V → bool;
}.

Record TTLPolicy : Type := mkTTLPolicy { Ttl : Z }.

#[export] Instance ttl_policy : ExpirationPolicy TTLPolicy := {|
  IsExpired V p now obj := (0 <? Ttl p)%Z && (Ttl p <? now - timestamp obj)%Z;
|}.

Record ExpirationCache (P V : Type) : Type := mkExpirationCache {
  storage : threadSafeMap (timestampedEntry V);
  ec_keyFunc : KeyFunc V;
  expirationPolicy : P;
}.
Arguments mkExpirationCache {P V} _ _ _.
Arguments storage {P V} _.
Arguments ec_keyFunc {P V} _.
Arguments expirationPolicy {P V} _.

Section expiration.
Context `{R : RangeOrder} {P V : Type} `{ExpirationPolicy P}.
Implicit Types (c : ExpirationCache P V).

Definition with_storage s c : ExpirationCache P V :=
  mkExpirationCache s (ec_keyFunc c) (expirationPolicy c).

Definition getTimestampedEntry (key : string) c : option (timestampedEntry V) :=
  ThreadSafeStore.Get key (storage c).

Definition getOrExpire (now : Z) (key : string) c : ExpirationCache P V * option V :=
  match getTimestampedEntry key c with
  | None => (c, None)
  | Some timestampedItem =>
      if IsExpired (expirationPolicy c) now timestampedItem
      then (with_storage (ThreadSafeStore.Delete key (storage c)) c, None)
      else (c, Some (obj timestampedItem))
  end.

Definition GetByKey (now : Z) (key : string) c : ExpirationCache P V * result (error V) (option V) :=
  let '(c, obj) := getOrExpire now key c in (c, Ok obj).

Definition Get (now : Z) (o : V) c : ExpirationCache P V * result (error V) (option V) :=
  match ec_keyFunc c o with
  | Err err => (c, Err (KeyError o err))
  | Ok key => let '(c, obj) := getOrExpire now key c in (c, Ok obj)
  end.

Fixpoint listLoop (now : Z) (items : list (timestampedEntry V)) c : ExpirationCache P V * list V :=
  match items with
  | [] => (c, [])
  | item :: items =>
      match ec_keyFunc c (obj item) with
      | Err err => let '(c, l) := listLoop now items c in (c, obj item :: l)
      | Ok key =>
          match getOrExpire now key c with
          | (c, Some o) => let '(c, l) := listLoop now items c in (c, o :: l)
          | (c, None) => listLoop now items c
          end
      end
  end.

Definition List (now : Z) c : ExpirationCache P V * list V :=
  listLoop now (ThreadSafeStore.List (storage c)) c.

Definition ListKeys c : list string := ThreadSafeStore.ListKeys (storage c).

Definition Add (now : Z) (o : V) c : ExpirationCache P V * option (error V) :=
  match ec_keyFunc c o with
  | Err err => (c, Some (KeyError o err))
  | Ok key => (with_storage (ThreadSafeStore.Add key (mkEntry o now) (storage c)) c, None)
  end.

Definition Update (now : Z) (o : V) c : ExpirationCache P V * option (error V) := Add now o c.

Definition Delete (o : V) c : ExpirationCache P V * option (error V) :=
  match ec_keyFunc c o with
  | Err err => (c, Some (KeyError o err))
  | Ok key => (with_storage (ThreadSafeStore.Delete key (storage c)) c, None)
  end.

Fixpoint stampedItems (kf : KeyFunc V) (ts : Z) (list : list V)
    (items : gmap string (timestampedEntry V)) :
    result (error V) (gmap string (timestampedEntry V)) :=
  match list with
  | [] => Ok items
  | item :: list =>
      match kf item with
      | Err err => Err (KeyError item err)
      | Ok key => stampedItems kf ts list (<[key := mkEntry item ts]> items)
      end
  end.

Definition Replace (now : Z) (list : list V) (resourceVersion : string) c :
    ExpirationCache P V * option (error V) :=
  match stampedItems (ec_keyFunc c) now list ∅ with
  | Err err => (c, Some err)
  | Ok items => (with_storage (ThreadSafeStore.Replace items (storage c)) c, None)
  end.
End expiration.

Definition NewTTLStore {V} (keyFunc : KeyFunc V) (ttl : Z) : ExpirationCache TTLPolicy V :=
  mkExpirationCache (NewThreadSafeStore ∅ ∅) keyFunc (mkTTLPolicy ttl).

(** ** Specification *)

Definition expired {V} (p : TTLPolicy) (now : Z) (e : timestampedEntry V) : bool := IsExpired p now e.
Arguments expired {V} p now e : simpl never.

(** The entries that have not expired. *)
Definition alive {V} (ttl now : Z) (m : gmap string (timestampedEntry V)) : gmap string V :=
  omap (λ e, if expired (mkTTLPolicy ttl) now e then None else Some (obj e)) m.

Inductive ttlOp (V : Type) : Type :=
| TAdd (now : Z) (o : V)
| TDelete (o : V)
| TReplace (now : Z) (l : list V) (resourceVersion : string)
| TGetByKey (now : Z) (key : string)
| TGet (now : Z) (o : V)
| TList (now : Z).
Arguments TAdd {V} now o.
Arguments TDelete {V} o.
Arguments TReplace {V} now l resourceVersion.
Arguments TGetByKey {V} now key.
Arguments TGet {V} now o.
Arguments TList {V} now.

Definition ttlStep `{RangeOrder} {V} (c : ExpirationCache TTLPolicy V) (o : ttlOp V) :
    ExpirationCache TTLPolicy V :=
  match o with
  | TAdd now o => (Add now o c).1
  | TDelete o => (Delete o c).1
  | TReplace now l rv => (Replace now l rv c).1
  | TGetByKey now key => (GetByKey now key c).1
  | TGet now o => (Get now o c).1
  | TList now => (List now c).1
  end.

(** ** Facts *)
Section facts.
Context `{R : RangeOrder} {V : Type}.
Implicit Types (c : ExpirationCache TTLPolicy V) (e : timestampedEntry V).

Abbreviation items_of c := (items (storage c)).

(** Every entry is stored under the key of its object. *)
Definition keyed c : Prop := ∀ k e, items_of c !! k = Some e → ec_keyFunc c (obj e) = Ok k.

Lemma expired_later p now later e : (now <= later)%Z → expired p now e = true → expired p later e = true.
Proof. unfold expired. cbn. rewrite !andb_true_iff, !Z.ltb_lt. lia. Qed.

Lemma alive_lookup ttl now (m : gmap string (timestampedEntry V)) k :
  alive ttl now m !! k = e ← m !! k; if expired (mkTTLPolicy ttl) now e then None else Some (obj e).
Proof. unfold alive. by rewrite lookup_omap. Qed.

(** Removing entries that have expired loses nothing a later read could give. *)
Lemma alive_purged ttl now later (m m' : gmap string (timestampedEntry V)) : (now <= later)%Z →
  (∀ k, m' !! k = m !! k ∨ m' !! k = None ∧ ∃ e, m !! k = Some e ∧ expired (mkTTLPolicy ttl) now e = true) →
  alive ttl later m' = alive ttl later m.
Proof.
  intros Hle Hm. apply map_eq. intros k. rewrite !alive_lookup.
  destruct (Hm k) as [->|(-> & e & -> & He)]; [done|]. cbn [mbind option_bind].
  by rewrite (expired_later _ now) by done.
Qed.

Lemma getOrExpire_spec now k c :
  let '(c', o) := getOrExpire now k c in
  o = alive (Ttl (expirationPolicy c)) now (items_of c) !! k ∧
  ec_keyFunc c' = ec_keyFunc c ∧ expirationPolicy c' = expirationPolicy c ∧
  ∀ k', items_of c' !! k' =
    e ← items_of c !! k'; if bool_decide (k' = k) && expired (expirationPolicy c) now e then None else Some e.
Proof.
  unfold getOrExpire, getTimestampedEntry, ThreadSafeStore.Get. rewrite alive_lookup.
  change (@IsExpired _ ttl_policy V) with (@expired V). destruct (expirationPolicy c) as [ttl] eqn:Hp. cbn [Ttl].
  assert (Hsame : ∀ m : gmap string (timestampedEntry V), (∀ e, m !! k = Some e → expired (mkTTLPolicy ttl) now e = false) →
    ∀ k', m !! k' = e ← m !! k'; if bool_decide (k' = k) && expired (mkTTLPolicy ttl) now e then None else Some e).
  { intros m Hm k'. destruct (m !! k') as [e|] eqn:He; cbn; [|done].
    case_bool_decide; [subst|done]. by rewrite (Hm e He). }
  destruct (items_of c !! k) as [e|] eqn:He; cbn.
  - destruct (expired _ now e) eqn:Hx.
    + split_and!; [done..|]. intros k'. cbn. rewrite items_Delete, lookup_delete.
      case_decide; [subst; rewrite He; cbn; by rewrite bool_decide_true, Hx|].
      destruct (items_of c !! k'); cbn; [|done]. by rewrite bool_decide_false by done.
    + split_and!; [done..|]. apply Hsame. intros e' He'. congruence.
  - split_and!; [done..|]. apply Hsame. intros e' He'. congruence.
Qed.

(** [List] visits entries of the store, each under its own key: it gives the
    live ones and removes the others. *)
Lemma listLoop_spec now (l : list (string * timestampedEntry V)) : ∀ c, keyed c → NoDup l.*1 →
  (∀ k e, (k, e) ∈ l → items_of c !! k = Some e) →
  let '(c', vs) := listLoop now l.*2 c in
  vs = omap (λ e, if expired (expirationPolicy c) now e then None else Some (obj e)) l.*2 ∧
  ec_keyFunc c' = ec_keyFunc c ∧ expirationPolicy c' = expirationPolicy c ∧
  ∀ k, items_of c' !! k = e ← items_of c !! k;
    if bool_decide (k ∈ l.*1) && expired (expirationPolicy c) now e then None else Some e.
Proof.
  induction l as [|[k e] l IH]; intros c Hk Hnd Hl.
  { cbn. split_and!; [done..|]. intros k. by destruct (items_of c !! k). }
  apply NoDup_cons in Hnd as [Hnin Hnd]. cbn [fmap list_fmap listLoop snd fst omap list_omap] in *.
  assert (items_of c !! k = Some e) as He by (apply Hl; left).
  rewrite (Hk k e He). pose proof (getOrExpire_spec now k c) as Hg.
  destruct (getOrExpire now k c) as [c1 o]. destruct Hg as (Ho & Hkf & Hp & Hi).
  rewrite alive_lookup, He in Ho. cbn in Ho. destruct (expirationPolicy c) as [ttl] eqn:Hpol.
  assert (keyed c1) as Hk1.
  { intros k' e' He'. rewrite Hi in He'. apply bind_Some in He' as (e'' & He'' & Hif).
    rewrite Hkf. destruct (_ && _); simplify_eq. by apply Hk. }
  assert (∀ k' e', (k', e') ∈ l → items_of c1 !! k' = Some e') as Hl1.
  { intros k' e' Hin. rewrite Hi, (Hl k' e') by (by right). cbn.
    rewrite bool_decide_false; [done|]. intros ->. apply Hnin. by apply (list_elem_of_fmap_2 fst) in Hin. }
  specialize (IH c1 Hk1 Hnd Hl1). rewrite Hkf, Hp in IH.
  assert (Hitems : ∀ k', (e0 ← items_of c1 !! k'; if bool_decide (k' ∈ l.*1) && expired (mkTTLPolicy ttl) now e0
      then None else Some e0) =
    (e0 ← items_of c !! k'; if bool_decide (k' ∈ k :: l.*1) && expired (mkTTLPolicy ttl) now e0
      then None else Some e0)).
  { intros k'. rewrite Hi. destruct (items_of c !! k') as [e'|]; cbn; [|done].
    rewrite (bool_decide_ext (k' ∈ k :: l.*1) (k' = k ∨ k' ∈ l.*1)) by apply elem_of_cons.
    rewrite bool_decide_or. destruct (bool_decide (k' = k)), (expired _ now e') eqn:Hx; cbn;
      rewrite ?Hx, ?andb_false_r; done. }
  destruct (expired (mkTTLPolicy ttl) now e) eqn:Hx; subst o; cbn [Ttl] in *; rewrite Hx in *.
  - destruct (listLoop now l.*2 c1) as [c' vs]. destruct IH as (-> & ? & ? & Hi').
    split_and!; [done..|]. intros k'. by rewrite Hi', Hitems.
  - destruct (listLoop now l.*2 c1) as [c' vs]. destruct IH as (-> & ? & ? & Hi').
    split_and!; [done..|]. intros k'. by rewrite Hi', Hitems.
Qed.

Lemma map_values_omap {A B} (f : A → option B) (m : gmap string A) :
  (map_to_list (omap f m)).*2 ≡ₚ omap f (map_to_list m).*2.
Proof.
  induction m as [|k x m Hk IH] using map_ind; [by rewrite omap_empty, !map_to_list_empty|].
  rewrite (map_to_list_insert m) by done. cbn. destruct (f x) as [y|] eqn:Hf.
  - rewrite (omap_insert_Some _ _ _ _ y) by done.
    rewrite map_to_list_insert by (by rewrite lookup_omap, Hk). cbn. by rewrite IH.
  - rewrite omap_insert_None by done. rewrite delete_id by (by rewrite lookup_omap, Hk). done.
Qed.

Lemma List_spec now c : keyed c →
  let '(c', vs) := List now c in
  vs ≡ₚ (map_to_list (alive (Ttl (expirationPolicy c)) now (items_of c))).*2 ∧
  ec_keyFunc c' = ec_keyFunc c ∧ expirationPolicy c' = expirationPolicy c ∧
  ∀ k, items_of c' !! k =
    e ← items_of c !! k; if expired (expirationPolicy c) now e then None else Some e.
Proof.
  intros Hk. unfold List, ThreadSafeStore.List, range_values.
  pose proof (listLoop_spec now (range_map (items_of c)) c Hk (NoDup_range_keys _)
    ltac:(intros; by apply elem_of_range_map)) as Hl.
  destruct (listLoop _ _ _) as [c' vs]. destruct Hl as (-> & ? & ? & Hi). split_and!; [|done..|].
  - unfold alive. rewrite map_values_omap, range_map_perm. by destruct (expirationPolicy c).
  - intros k. rewrite Hi. destruct (items_of c !! k) as [e|] eqn:He; cbn [mbind option_bind]; [|done].
    rewrite bool_decide_true; [done|]. apply elem_of_range_keys. eauto.
Qed.

Lemma stampedItems_spec kf ts l : ∀ m m' : gmap string (timestampedEntry V),
  (∀ k e, m !! k = Some e → kf (obj e) = Ok k) → stampedItems kf ts l m = Ok m' →
  ∀ k e, m' !! k = Some e → kf (obj e) = Ok k.
Proof.
  induction l as [|v l IH]; intros m m' Hm Hs; cbn in Hs; [by simplify_eq|].
  destruct (kf v) as [key|] eqn:Hv; [|done]. eapply IH; [|exact Hs]. intros k e.
  rewrite lookup_insert_Some. intros [[<- <-]|[_ ?]]; [done|by apply Hm].
Qed.

(** The entries of a smaller store, by the same key function, are keyed. *)
Lemma keyed_sub c c' : keyed c → ec_keyFunc c' = ec_keyFunc c →
  (∀ k e, items_of c' !! k = Some e → items_of c !! k = Some e) → keyed c'.
Proof. intros Hk Hkf Hsub k e He%Hsub. rewrite Hkf. by apply Hk. Qed.

Lemma getOrExpire_keyed now k c : keyed c → keyed (getOrExpire now k c).1.
Proof.
  intros Hk. pose proof (getOrExpire_spec now k c) as Hg. destruct (getOrExpire now k c) as [c' o].
  destruct Hg as (_ & Hkf & _ & Hi). apply (keyed_sub c); [done..|]. intros k' e. rewrite Hi.
  intros (e' & ? & He)%bind_Some. destruct (_ && _); by simplify_eq.
Qed.

Lemma ttlStep_ok kf p c o : keyed c → ec_keyFunc c = kf → expirationPolicy c = p →
  keyed (ttlStep c o) ∧ ec_keyFunc (ttlStep c o) = kf ∧ expirationPolicy (ttlStep c o) = p.
Proof.
  intros Hk Hkf Hp. destruct o as [now v|v|now l rv|now k|now v|now]; cbn [ttlStep].
  - unfold Add. destruct (ec_keyFunc c v) as [key|] eqn:Hv; [|done]. split_and!; [|done..].
    intros k e. cbn. rewrite items_Add, lookup_insert_Some.
    intros [[<- <-]|[_ ?]]; [done|by apply Hk].
  - unfold Delete. destruct (ec_keyFunc c v) as [key|] eqn:Hv; [|done]. split_and!; [|done..].
    apply (keyed_sub c); [done..|]. intros k e. cbn. rewrite items_Delete.
    by intros [_ ?]%lookup_delete_Some.
  - unfold Replace. destruct (stampedItems _ _ _ _) as [m|] eqn:Hm; [|done]. split_and!; [|done..].
    intros k e. cbn. rewrite items_Replace. eapply stampedItems_spec; [|exact Hm].
    intros ? ?. by rewrite lookup_empty.
  - unfold GetByKey. pose proof (getOrExpire_keyed now k c Hk). pose proof (getOrExpire_spec now k c) as Hg.
    destruct (getOrExpire now k c) as [c' o]. destruct Hg as (_ & ? & ? & _). cbn in *. split_and!; [done|congruence..].
  - unfold Get. destruct (ec_keyFunc c v) as [key|]; [|done].
    pose proof (getOrExpire_keyed now key c Hk). pose proof (getOrExpire_spec now key c) as Hg.
    destruct (getOrExpire now key c) as [c' o]. destruct Hg as (_ & ? & ? & _). cbn in *. split_and!; [done|congruence..].
  - pose proof (List_spec now c Hk) as Hl. destruct (List now c) as [c' vs].
    destruct Hl as (_ & ? & ? & Hi). cbn. split_and!; [|congruence..]. apply (keyed_sub c); [done..|].
    intros k e. rewrite Hi. intros (e' & ? & He)%bind_Some. destruct (expired _ _ _); by simplify_eq.
Qed.

Lemma ttlRun_ok kf ttl ops :
  let c := foldl ttlStep (NewTTLStore (V := V) kf ttl) ops in
  keyed c ∧ ec_keyFunc c = kf ∧ expirationPolicy c = mkTTLPolicy ttl.
Proof.
  cbv zeta. apply (foldl_inv (λ c, keyed c ∧ ec_keyFunc c = kf ∧ expirationPolicy c = mkTTLPolicy ttl)).
  - split_and!; [|done..]. intros k e. cbn. by rewrite lookup_empty.
  - intros c o _ (? & ? & ?). by apply ttlStep_ok.
Qed.
End facts.

(** ** Properties *)

(** A time-to-live store reads as the map of the entries no older than
    their time to live: [GetByKey] and [List] give exactly those, [List] leaves
    no other in the store, and what reading removes no later read could have
    given; an object just added is read back until its time is over. *)
Theorem ttl_store_reads_alive (R : RangeOrder) (V : Type) (kf : KeyFunc V) (ttl : Z)
    (ops : list (ttlOp V)) (now : Z) (k : string) (o : V) :
  let c := foldl ttlStep (NewTTLStore kf ttl) ops in
  let live t (c : ExpirationCache TTLPolicy V) := alive ttl t (items (storage c)) in
  (GetByKey now k c).2 = Ok (live now c !! k) ∧
  (List now c).2 ≡ₚ (map_to_list (live now c)).*2 ∧
  map_Forall (λ _ e, expired (mkTTLPolicy ttl) now e = false) (items (storage (List now c).1)) ∧
  (∀ d : N, live (now + Z.of_N d)%Z (GetByKey now k c).1 = live (now + Z.of_N d)%Z c ∧
     live (now + Z.of_N d)%Z (List now c).1 = live (now + Z.of_N d)%Z c) ∧
  match kf o with
  | Ok key => ∀ t, (GetByKey t key (Add now o c).1).2 =
      Ok (if (0 <? ttl)%Z && (ttl <? t - now)%Z then None else Some o)
  | Err e => Add now o c = (c, Some (KeyError o e))
  end.
Proof.
  cbv zeta. destruct (ttlRun_ok kf ttl ops) as (Hk & Hkf & Hp).
  set (c := foldl ttlStep _ _) in *. clearbody c.
  pose proof (getOrExpire_spec now k c) as Hg. pose proof (List_spec now c Hk) as Hl.
  unfold GetByKey. destruct (getOrExpire now k c) as [c1 v1]. destruct (List now c) as [c2 vs].
  destruct Hg as (Hv & _ & _ & Hi1), Hl as (Hvs & _ & _ & Hi2). rewrite Hp in *. cbn [Ttl fst snd] in *.
  split_and!; [by rewrite Hv|done| | |].
  - intros k' e. rewrite Hi2. intros (e' & _ & He)%bind_Some.
    destruct (expired _ _ e') eqn:?; by simplify_eq.
  - intros d. split; apply (alive_purged ttl now); try lia; intros k'; rewrite ?Hi1, ?Hi2;
      (destruct (items (storage c) !! k') as [e|]; cbn [mbind option_bind]; [|by left]).
    + destruct (_ && _) eqn:Hb; [right|by left]. apply andb_true_iff in Hb as [_ ?]. eauto.
    + destruct (expired _ _ _) eqn:?; [right; eauto|by left].
  - rewrite <- Hkf. unfold Add. destruct (ec_keyFunc c o) as [key|e] eqn:Ho; [|done].
    intros t. pose proof (getOrExpire_spec t key
      (with_storage (ThreadSafeStore.Add key (mkEntry o now) (storage c)) c)) as Hg.
    cbn [fst]. destruct (getOrExpire t key _) as [c' v]. destruct Hg as (-> & _). cbn [snd].
    cbn [with_storage expirationPolicy storage]. rewrite Hp, alive_lookup, items_Add, lookup_insert_eq.
    done.
Qed.
