(* ===== verification/Listers.v ===== *)
(** * Listers, label selectors of the API, and the matching cache

    What a controller uses to find the pods of an owner and the owner of a pod:
    [LabelSelectorAsSelector] of [pkg/api/unversioned/helpers.go], the pod and
    replica set listers of [pkg/client/cache/listers.go], and the cache of
    [pkg/controller/lookup_cache.go] over the LRU list of groupcache.  A store
    of pods holds pods only, as the comment on [StoreToPodLister] demands. *)

From S2P Require Import Prelude.
From S2P Require Import SetsString.
From S2P Require Import ThreadSafeStore.
From S2P Require Import Store.
From S2P Require Import Informer.
From S2P Require Import Validation.
From S2P Require Import Labels.
From S2P Require Import Pods.

(** ** Label selectors *)

Inductive LabelSelectorOperator : Type :=
| LabelSelectorOpIn | LabelSelectorOpNotIn | LabelSelectorOpExists
| LabelSelectorOpDoesNotExist | LabelSelectorOpOther (op : string).

Record LabelSelectorRequirement : Type := mkExpr {
  expr_Key : string;
  expr_Operator : LabelSelectorOperator;
  expr_Values : list string;
}.

(** A nil map is an empty one. *)
Record LabelSelector : Type := mkLabelSelector {
  MatchLabels : Set_;
  MatchExpressions : list LabelSelectorRequirement;
}.

Section selector.
Context `{R : RangeOrder} `{K : KeySort}.

Fixpoint matchLabelsLoop (l : list (string * string)) (selector : Selector) :
    result string Selector :=
  match l with
  | [] => Ok selector
  | (k, v) :: l =>
      match NewRequirement k InOperator (NewString [v]) with
      | Err err => Err err
      | Ok r => matchLabelsLoop l (Labels.Add selector [r])
      end
  end.

Definition exprOperator (op : LabelSelectorOperator) : result string Operator :=
  match op with
  | LabelSelectorOpIn => Ok InOperator
  | LabelSelectorOpNotIn => Ok NotInOperator
  | LabelSelectorOpExists => Ok ExistsOperator
  | LabelSelectorOpDoesNotExist => Ok DoesNotExistOperator
  | LabelSelectorOpOther op => Err (op +:+ " is not a valid pod selector operator")
  end.

Fixpoint matchExpressionsLoop (l : list LabelSelectorRequirement) (selector : Selector) :
    result string Selector :=
  match l with
  | [] => Ok selector
  | expr :: l =>
      match exprOperator (expr_Operator expr) with
      | Err err => Err err
      | Ok op =>
          match NewRequirement (expr_Key expr) op (NewString (expr_Values expr)) with
          | Err err => Err err
          | Ok r => matchExpressionsLoop l (Labels.Add selector [r])
          end
      end
  end.

Definition LabelSelectorAsSelector (ps : option LabelSelector) : result string Selector :=
  match ps with
  | None => Ok Nothing
  | Some ps =>
      if Nat.eqb (size (MatchLabels ps) + length (MatchExpressions ps)) 0 then Ok Everything
      else
        match matchLabelsLoop (range_map (MatchLabels ps)) NewSelector with
        | Err err => Err err
        | Ok selector => matchExpressionsLoop (MatchExpressions ps) selector
        end
  end.
End selector.

(** ** Replica sets *)

(** The fields of [extensions.ReplicaSet] that the controller reads. *)
Record ReplicaSet : Type := mkReplicaSet {
  rs_Namespace : string;
  rs_Name : string;
  rs_CreationTimestamp : Time;
  rs_Generation : Z;
  rs_Replicas : Z;
  rs_Selector : option LabelSelector;
  rs_Status_Replicas : Z;
  rs_ObservedGeneration : Z;
}.

#[export] Instance pod_meta : ObjectMeta Pod := {|
  GetNamespace := Namespace;
  GetName := Name;
  GetResourceVersion := pod_ResourceVersion;
|}.

#[export] Instance rs_meta : ObjectMeta ReplicaSet := {|
  GetNamespace := rs_Namespace;
  GetName := rs_Name;
  GetResourceVersion := λ _, "";
|}.

(** Of the template of a daemon set, what the pods of every node have. *)
Record PodSpec : Type := mkPodSpec {
  spec_NodeSelector : Set_;
  spec_NodeName : string;
  spec_Containers : list Container;
}.

Record DaemonSetStatus : Type := mkDaemonSetStatus {
  CurrentNumberScheduled : Z;
  NumberMisscheduled : Z;
  DesiredNumberScheduled : Z;
}.

(** [extensions.DaemonSet], with the spec of its template. *)
Record DaemonSet : Type := mkDaemonSet {
  ds_Namespace : string;
  ds_Name : string;
  ds_CreationTimestamp : Time;
  ds_Selector : option LabelSelector;
  ds_Template : PodSpec;
  ds_Status : DaemonSetStatus;
}.

#[export] Instance ds_meta : ObjectMeta DaemonSet := {|
  GetNamespace := ds_Namespace;
  GetName := ds_Name;
  GetResourceVersion := λ _, "";
|}.

(** [overlappingReplicaSets.Less] *)
Definition overlapping_Less (a b : ReplicaSet) : bool :=
  if Z.eqb (rs_CreationTimestamp a) (rs_CreationTimestamp b) then string_lt (rs_Name a) (rs_Name b)
  else (rs_CreationTimestamp a <? rs_CreationTimestamp b)%Z.

(** It is a strict weak order, as sorting needs. *)
Lemma overlapping_Less_order :
  (∀ a, overlapping_Less a a = false) ∧
  (∀ a b c, overlapping_Less a b = true → overlapping_Less b c = true → overlapping_Less a c = true) ∧
  (∀ a b c, overlapping_Less a c = true → overlapping_Less a b = true ∨ overlapping_Less b c = true).
Proof. exact (age_order rs_CreationTimestamp rs_Name). Qed.

(** ** Listers *)
Section listers.
Context `{R : RangeOrder} `{K : KeySort}.

Definition NamespaceAll : string := "".

(** [StoreToPodLister.Pods(namespace).List(selector)] *)
Definition listPods (store : cache Pod) (namespace : string) (selector : Selector) : list Pod :=
  foldl (λ items pod,
    if bool_decide (namespace = NamespaceAll) || bool_decide (namespace = Namespace pod) then
      if Labels.Matches selector (pod_Labels pod) then items ++ [pod] else items
    else items) [] (Store.List store).

(** [StoreToPodLister.List(selector)], which never fails. *)
Definition listAllPods (store : cache Pod) (selector : Selector) : list Pod :=
  foldl (λ pods pod, if Labels.Matches selector (pod_Labels pod) then pods ++ [pod] else pods) [] (Store.List store).

(** The loop of [GetPodReplicaSets]: what was found, and the selector error
    that ends it early. *)
Fixpoint podReplicaSetsLoop (pod : Pod) (l rss : list ReplicaSet) :
    list ReplicaSet * option string :=
  match l with
  | [] => (rss, None)
  | rs :: l =>
      if bool_decide (rs_Namespace rs ≠ Namespace pod) then podReplicaSetsLoop pod l rss
      else
        match LabelSelectorAsSelector (rs_Selector rs) with
        | Err err => (rss, Some ("invalid selector: " +:+ err))
        | Ok selector =>
            if Labels.Empty selector || negb (Labels.Matches selector (pod_Labels pod))
            then podReplicaSetsLoop pod l rss
            else podReplicaSetsLoop pod l (rss ++ [rs])
        end
  end.

Definition GetPodReplicaSets (store : cache ReplicaSet) (pod : Pod) :
    list ReplicaSet * option string :=
  if Nat.eqb (size (pod_Labels pod)) 0
  then ([], Some "no ReplicaSets found for pod because it has no labels")
  else
    match podReplicaSetsLoop pod (Store.List store) [] with
    | (rss, Some err) => (rss, Some err)
    | (rss, None) =>
        if Nat.eqb (length rss) 0 then (rss, Some "could not find ReplicaSet for pod")
        else (rss, None)
    end.

Fixpoint podDaemonSetsLoop (pod : Pod) (l daemonSets : list DaemonSet) : list DaemonSet * option string :=
  match l with
  | [] => (daemonSets, None)
  | ds :: l =>
      if bool_decide (ds_Namespace ds ≠ Namespace pod) then podDaemonSetsLoop pod l daemonSets
      else
        match LabelSelectorAsSelector (ds_Selector ds) with
        | Err err => ([], Some err)
        | Ok selector =>
            if Labels.Empty selector || negb (Labels.Matches selector (pod_Labels pod))
            then podDaemonSetsLoop pod l daemonSets
            else podDaemonSetsLoop pod l (daemonSets ++ [ds])
        end
  end.

Definition GetPodDaemonSets (store : cache DaemonSet) (pod : Pod) : list DaemonSet * option string :=
  if Nat.eqb (size (pod_Labels pod)) 0
  then ([], Some ("no daemon sets found for pod " +:+ Name pod +:+ " because it has no labels"))
  else
    match podDaemonSetsLoop pod (Store.List store) [] with
    | (daemonSets, Some err) => (daemonSets, Some err)
    | (daemonSets, None) =>
        (daemonSets, if Nat.eqb (length daemonSets) 0 then Some ("could not find daemon set for pod " +:+ Name pod) else None)
    end.

Lemma FilterActivePods_filter pods : FilterActivePods pods = filter (λ pod, IsPodActive pod = true) pods.
Proof.
  induction pods as [|pod pods IH]; cbn; [done|]. rewrite IH.
  by destruct (IsPodActive pod) eqn:Ha; rewrite ?filter_cons_True, ?filter_cons_False by congruence.
Qed.

Lemma listPods_filter store ns sel : ns ≠ NamespaceAll →
  listPods store ns sel =
    filter (λ pod, bool_decide (ns = Namespace pod) && Labels.Matches sel (pod_Labels pod) = true)
      (Store.List store).
Proof.
  intros Hns. unfold listPods. rewrite bool_decide_eq_false_2 by done. cbn [orb].
  assert (∀ l acc, foldl (λ items pod, if bool_decide (ns = Namespace pod) then
      if Labels.Matches sel (pod_Labels pod) then items ++ [pod] else items else items) acc l =
    acc ++ filter (λ pod, bool_decide (ns = Namespace pod) && Labels.Matches sel (pod_Labels pod) = true) l)
    as E; [|apply E].
  induction l as [|pod l IH]; intros acc; cbn [foldl]; [by rewrite app_nil_r|].
  rewrite filter_cons, IH. destruct (bool_decide _), (Labels.Matches sel (pod_Labels pod)); cbn; try done.
  by rewrite <- app_assoc.
Qed.
End listers.

(** ** The LRU list *)

(** The entries, most recently used first; [MaxEntries] 0 is no limit. *)
Record lruCache (V : Type) : Type := mkLru { MaxEntries : nat; ll : list (Z * V) }.
Arguments mkLru {V} _ _.
Arguments MaxEntries {V} _.
Arguments ll {V} _.

Section lru.
Context {V : Type}.
Implicit Types c : lruCache V.

Definition lru_New (maxEntries : nat) : lruCache V := mkLru maxEntries [].

Definition lru_find (key : Z) c : option V :=
  snd <$> head (filter (λ e, e.1 = key) (ll c)).

Definition lru_without (key : Z) (l : list (Z * V)) : list (Z * V) := filter (λ e, e.1 ≠ key) l.

Definition lru_Add (key : Z) (value : V) c : lruCache V :=
  match lru_find key c with
  | Some _ => mkLru (MaxEntries c) ((key, value) :: lru_without key (ll c))
  | None =>
      let l := (key, value) :: ll c in
      if negb (Nat.eqb (MaxEntries c) 0) && Nat.ltb (MaxEntries c) (length l)
      then mkLru (MaxEntries c) (take (length l - 1) l)
      else mkLru (MaxEntries c) l
  end.

Definition lru_Get (key : Z) c : lruCache V * option V :=
  match lru_find key c with
  | Some value => (mkLru (MaxEntries c) ((key, value) :: lru_without key (ll c)), Some value)
  | None => (c, None)
  end.
End lru.

(** ** The matching cache *)

(** The hash of a namespace and labels: adler32 of their printed form. *)
Class LabelHash : Type := { label_hash : string → Set_ → Z }.

Section matching.
Context `{LabelHash} {V : Type}.

Definition MatchingCache : Type := lruCache V.

Definition lookupKey (pod : Pod) : Z := label_hash (Namespace pod) (pod_Labels pod).

Definition NewMatchingCache (maxCacheEntries : nat) : MatchingCache := lru_New maxCacheEntries.

Definition matching_Add (labelObj : Pod) (selectorObj : V) (c : MatchingCache) : MatchingCache :=
  lru_Add (lookupKey labelObj) selectorObj c.

Definition GetMatchingObject (labelObj : Pod) (c : MatchingCache) : MatchingCache * option V :=
  lru_Get (lookupKey labelObj) c.

Definition matching_Update (labelObj : Pod) (selectorObj : V) (c : MatchingCache) : MatchingCache :=
  matching_Add labelObj selectorObj c.

Definition InvalidateAll (c : MatchingCache) : MatchingCache := lru_New (MaxEntries c).
End matching.

(** ** Facts *)

(** What the documentation of [LabelSelector] says that it selects. *)
Definition expr_selects (e : LabelSelectorRequirement) (ls : Set_) : Prop :=
  match expr_Operator e with
  | LabelSelectorOpIn => ∃ v, ls !! expr_Key e = Some v ∧ v ∈ expr_Values e
  | LabelSelectorOpNotIn => ∀ v, ls !! expr_Key e = Some v → v ∉ expr_Values e
  | LabelSelectorOpExists => is_Some (ls !! expr_Key e)
  | LabelSelectorOpDoesNotExist => ls !! expr_Key e = None
  | LabelSelectorOpOther _ => False
  end.

Definition selects (ps : option LabelSelector) (ls : Set_) : Prop :=
  match ps with
  | None => False
  | Some ps => MatchLabels ps ⊆ ls ∧ ∀ e, e ∈ MatchExpressions ps → expr_selects e ls
  end.

(** The selectors it accepts. *)
Definition expr_valid (e : LabelSelectorRequirement) : Prop :=
  IsQualifiedName (expr_Key e) = true ∧
  match expr_Operator e with
  | LabelSelectorOpIn | LabelSelectorOpNotIn => expr_Values e ≠ []
  | LabelSelectorOpExists | LabelSelectorOpDoesNotExist => expr_Values e = []
  | LabelSelectorOpOther _ => False
  end ∧
  ∀ v, v ∈ expr_Values e → IsValidLabelValue v = true.

Definition selector_valid (ps : option LabelSelector) : Prop :=
  match ps with
  | None => True
  | Some ps => valid_labels (MatchLabels ps) ∧ ∀ e, e ∈ MatchExpressions ps → expr_valid e
  end.

(** Selects nothing in particular: a replica set must not have it. *)
Definition selects_all (ps : option LabelSelector) : Prop :=
  ps = Some (mkLabelSelector ∅ []).

Section facts.
Context `{R : RangeOrder} `{K : KeySort}.

Definition label_requirement (kv : string * string) : Requirement :=
  mkRequirement kv.1 InOperator {[kv.2]}.

Definition expr_requirement (e : LabelSelectorRequirement) : Requirement :=
  mkRequirement (expr_Key e)
    (match exprOperator (expr_Operator e) with Ok op => op | Err err => UnknownOperator err end)
    (list_to_set (expr_Values e)).

Lemma NewRequirement_In k v :
  match NewRequirement k InOperator (NewString [v]) with
  | Ok r => r = label_requirement (k, v) ∧ IsQualifiedName k = true ∧ IsValidLabelValue v = true
  | Err _ => ¬ (IsQualifiedName k = true ∧ IsValidLabelValue v = true)
  end.
Proof.
  rewrite NewString_single. destruct (NewRequirement _ _ _) as [r|err] eqn:Hr.
  - apply NewRequirement_Ok in Hr as (-> & Hk & _ & Hv). split_and!; [done..|].
    apply Hv. cbn. set_solver.
  - intros [Hk Hv]. assert (NewRequirement k InOperator {[v]} = Ok (label_requirement (k, v))) as Hn.
    { apply NewRequirement_Ok. split; [done|]. split_and!; cbn; [done|set_solver|].
      by intros w ->%elem_of_singleton. }
    congruence.
Qed.

Lemma NewRequirement_expr e op : exprOperator (expr_Operator e) = Ok op →
  match NewRequirement (expr_Key e) op (NewString (expr_Values e)) with
  | Ok r => r = expr_requirement e ∧ expr_valid e
  | Err _ => ¬ expr_valid e
  end.
Proof.
  intros Hop. unfold expr_requirement. rewrite Hop, NewString_list_to_set.
  assert (requirement_ok (mkRequirement (expr_Key e) op (list_to_set (expr_Values e))) ↔ expr_valid e)
    as Hok.
  { unfold requirement_ok, expr_valid. cbn. setoid_rewrite elem_of_list_to_set.
    destruct (expr_Operator e); simplify_eq/=; try done;
      by rewrite ?list_to_set_empty_iff. }
  destruct (NewRequirement _ _ _) as [r|err] eqn:Hr.
  - apply NewRequirement_Ok in Hr as [-> Hr]. by rewrite <- Hok.
  - intros Hv%Hok. assert (NewRequirement (expr_Key e) op (list_to_set (expr_Values e)) =
      Ok (mkRequirement (expr_Key e) op (list_to_set (expr_Values e)))) by (by apply NewRequirement_Ok).
    congruence.
Qed.

Lemma matchLabelsLoop_spec l : ∀ lsel,
  match matchLabelsLoop l (internalSelector lsel) with
  | Ok sel => (∀ k v, (k, v) ∈ l → IsQualifiedName k = true ∧ IsValidLabelValue v = true) ∧
      ∃ lsel', sel = internalSelector lsel' ∧ lsel' ≡ₚ lsel ++ (label_requirement <$> l)
  | Err _ => ∃ k v, (k, v) ∈ l ∧ ¬ (IsQualifiedName k = true ∧ IsValidLabelValue v = true)
  end.
Proof.
  induction l as [|[k v] l IH]; intros lsel; cbn.
  { split; [by intros k v ?%elem_of_nil|]. exists lsel. by rewrite app_nil_r. }
  pose proof (NewRequirement_In k v) as Hn. destruct (NewRequirement _ _ _) as [r|err].
  2: { exists k, v. split; [left|done]. }
  destruct Hn as (-> & Hk & Hv). cbn.
  specialize (IH (sort_ByKey (lsel ++ [label_requirement (k, v)]))).
  destruct (matchLabelsLoop _ _) as [sel|err].
  - destruct IH as (Hall & lsel' & -> & Hp). split.
    + intros k' v' [[= -> ->]|Hin]%elem_of_cons; [done|by apply Hall].
    + exists lsel'. split; [done|]. by rewrite Hp, sort_ByKey_perm, <- app_assoc.
  - destruct IH as (k' & v' & Hin & Hno). exists k', v'. split; [by right|done].
Qed.

Lemma matchExpressionsLoop_spec l : ∀ lsel,
  match matchExpressionsLoop l (internalSelector lsel) with
  | Ok sel => (∀ e, e ∈ l → expr_valid e) ∧
      ∃ lsel', sel = internalSelector lsel' ∧ lsel' ≡ₚ lsel ++ (expr_requirement <$> l)
  | Err _ => ∃ e, e ∈ l ∧ ¬ expr_valid e
  end.
Proof.
  induction l as [|e l IH]; intros lsel; cbn.
  { split; [by intros e ?%elem_of_nil|]. exists lsel. by rewrite app_nil_r. }
  destruct (exprOperator (expr_Operator e)) as [op|err] eqn:Hop.
  2: { exists e. split; [left|]. intros (_ & He & _). by destruct (expr_Operator e). }
  pose proof (NewRequirement_expr e op Hop) as Hn. destruct (NewRequirement _ _ _) as [r|err].
  2: { exists e. split; [left|done]. }
  destruct Hn as (-> & He). cbn. specialize (IH (sort_ByKey (lsel ++ [expr_requirement e]))).
  destruct (matchExpressionsLoop _ _) as [sel|err].
  - destruct IH as (Hall & lsel' & -> & Hp). split.
    + intros e' [->|Hin]%elem_of_cons; [done|by apply Hall].
    + exists lsel'. split; [done|]. by rewrite Hp, sort_ByKey_perm, <- app_assoc.
  - destruct IH as (e' & Hin & Hno). exists e'. split; [by right|done].
Qed.

Lemma label_requirement_Matches k v (ls : Set_) :
  Requirement_Matches (label_requirement (k, v)) ls = true ↔ ls !! k = Some v.
Proof.
  rewrite Requirement_Matches_set by done. cbn. set_solver.
Qed.

Lemma expr_requirement_Matches e (ls : Set_) : expr_valid e →
  Requirement_Matches (expr_requirement e) ls = true ↔ expr_selects e ls.
Proof.
  intros (_ & He & _). unfold expr_selects.
  rewrite Requirement_Matches_set by (unfold expr_requirement; by destruct (expr_Operator e)).
  unfold expr_requirement. destruct (expr_Operator e); cbn; try done;
    by setoid_rewrite elem_of_list_to_set.
Qed.

(** The conversion, as the requirements of the selector it makes. *)
Lemma LabelSelectorAsSelector_ok ps :
  match LabelSelectorAsSelector ps with
  | Ok sel => selector_valid ps ∧ (∀ ls, Matches sel ls = true ↔ selects ps ls) ∧
      (Empty sel = true ↔ selects_all ps)
  | Err _ => ¬ selector_valid ps
  end.
Proof.
  unfold LabelSelectorAsSelector, selects_all. destruct ps as [[labels exprs]|]; cbn [MatchLabels MatchExpressions].
  2: { split_and!; [done..|]. split; done. }
  destruct (Nat.eqb _ 0) eqn:Hsize.
  { apply Nat.eqb_eq in Hsize. destruct exprs; cbn in Hsize; [|lia].
    assert (labels = ∅) as -> by (apply map_size_empty_inv; unfold Set_ in *; lia).
    split_and!; [|intros ls|done]; cbn.
    - split; [|by intros e ?%elem_of_nil]. intros k v. unfold Set_. by rewrite lookup_empty.
    - split; [|done]. intros _. split; [apply map_empty_subseteq|by intros e ?%elem_of_nil]. }
  apply Nat.eqb_neq in Hsize.
  pose proof (matchLabelsLoop_spec (range_map labels) []) as Hl. unfold NewSelector.
  destruct (matchLabelsLoop _ _) as [sel|err].
  2: { destruct Hl as (k & v & Hin%elem_of_range_map & Hno). intros [Hv _]. by apply Hno, Hv. }
  destruct Hl as (Hlabels & lsel & -> & Hp). pose proof (matchExpressionsLoop_spec exprs lsel) as He.
  destruct (matchExpressionsLoop _ _) as [sel|err].
  2: { destruct He as (e & Hin & Hno). intros [_ Hv]. by apply Hno, Hv. }
  destruct He as (Hexprs & lsel' & -> & Hp'). rewrite Hp in Hp'. cbn in Hp'. split_and!.
  - split; [|done]. intros k v Hkv. by apply Hlabels, elem_of_range_map.
  - intros ls. unfold selects. cbn. unfold Set_ in *.
    rewrite (matchesAll_perm _ _ ls Hp'), matchesAll_true, map_subseteq_spec.
    setoid_rewrite elem_of_app. setoid_rewrite list_elem_of_fmap. split.
    + intros Hall. split.
      * intros k v Hkv. apply label_requirement_Matches, Hall. left. exists (k, v).
        by rewrite elem_of_range_map.
      * intros e Hin. apply expr_requirement_Matches; [by apply Hexprs|]. apply Hall. eauto.
    + intros [Hm Hes] r [([k v] & -> & Hin)|(e & -> & Hin)].
      * apply label_requirement_Matches, Hm. by apply elem_of_range_map.
      * apply expr_requirement_Matches; auto.
  - cbn. unfold Set_ in *.
    rewrite Nat.eqb_eq, (Permutation_length Hp'), length_app, !length_fmap, length_range_map.
    split; [lia|]. intros [= -> ->]. by rewrite map_size_empty.
Qed.

(** An object has a pod: its namespace, and a selector that selects the pod's labels
    but not everything. *)
Definition owned_by (namespace : string) (ps : option LabelSelector) (pod : Pod) : Prop :=
  namespace = Namespace pod ∧ ¬ selects_all ps ∧ selects ps (pod_Labels pod).

Lemma owned_Matches namespace ps pod sel : LabelSelectorAsSelector ps = Ok sel → namespace = Namespace pod →
  Labels.Empty sel || negb (Labels.Matches sel (pod_Labels pod)) = false ↔ owned_by namespace ps pod.
Proof.
  intros Hs Hns. pose proof (LabelSelectorAsSelector_ok ps) as Hok. rewrite Hs in Hok.
  destruct Hok as (_ & Hm & He). unfold owned_by.
  rewrite orb_false_iff, negb_false_iff, Hm, <- He, <- not_true_iff_false. tauto.
Qed.

(** The loops over the objects that may have a pod: [f] collects those of its namespace
    whose selector matches, until a selector is invalid. *)
Section matching_loop.
Context {A : Type} (namespace : A → string) (ps : A → option LabelSelector) (pod : Pod)
  (f : list A → list A → list A * option string).
Hypothesis f_nil : ∀ acc, f [] acc = (acc, None).
Hypothesis f_other : ∀ x l acc, namespace x ≠ Namespace pod → f (x :: l) acc = f l acc.
Hypothesis f_invalid : ∀ x l acc err, namespace x = Namespace pod →
  LabelSelectorAsSelector (ps x) = Err err → is_Some (f (x :: l) acc).2.
Hypothesis f_valid : ∀ x l acc sel, namespace x = Namespace pod → LabelSelectorAsSelector (ps x) = Ok sel →
  f (x :: l) acc = f l (if Labels.Empty sel || negb (Labels.Matches sel (pod_Labels pod)) then acc else acc ++ [x]).

Let owned x := owned_by (namespace x) (ps x) pod.

Lemma matching_loop l : ∀ acc,
  match f l acc with
  | (acc', None) => (∀ x, x ∈ l → namespace x = Namespace pod → selector_valid (ps x)) ∧
      ∃ more, acc' = acc ++ more ∧ ∀ x, x ∈ more ↔ x ∈ l ∧ owned x
  | (_, Some _) => ∃ x, x ∈ l ∧ namespace x = Namespace pod ∧ ¬ selector_valid (ps x)
  end.
Proof.
  induction l as [|x l IH]; intros acc.
  { rewrite f_nil. split; [by intros x ?%elem_of_nil|]. exists []. split; [by rewrite app_nil_r|set_solver]. }
  destruct (decide (namespace x = Namespace pod)) as [Hns|Hns].
  2: { rewrite f_other by done. specialize (IH acc). destruct (f l acc) as [acc' [err|]].
       { destruct IH as (x' & ? & ?). exists x'. split; [by right|done]. }
       destruct IH as (Hv & more & -> & Hm). split; [by intros x' [->|?]%elem_of_cons; [|apply Hv]|].
       exists more. split; [done|]. intros x'. rewrite Hm, elem_of_cons. subst owned. unfold owned_by. naive_solver. }
  pose proof (LabelSelectorAsSelector_ok (ps x)) as Hok. destruct (LabelSelectorAsSelector (ps x)) as [sel|err] eqn:Hs.
  2: { destruct (f_invalid x l acc err Hns Hs) as [err' He]. destruct (f (x :: l) acc) as [acc' r]. cbn in He. subst r.
       exists x. split_and!; [left|done..]. }
  rewrite (f_valid x l acc sel Hns Hs). pose proof (owned_Matches _ _ pod sel Hs Hns) as Ho. destruct Hok as (Hvalid & _).
  specialize (IH (if Labels.Empty sel || negb (Labels.Matches sel (pod_Labels pod)) then acc else acc ++ [x])).
  destruct (f l _) as [acc' [err|]]; [by destruct IH as (x' & ? & ?); exists x'; split; [right|]|].
  destruct IH as (Hv & more & -> & Hm). split; [by intros x' [->|?]%elem_of_cons; [|apply Hv]|].
  destruct (_ || _).
  - exists more. split; [done|]. intros x'. rewrite Hm, elem_of_cons. assert (¬ owned x) by (by intros ?%Ho). naive_solver.
  - exists (x :: more). split; [by rewrite <- app_assoc|]. intros x'.
    rewrite !elem_of_cons, Hm. assert (owned x) by (by apply Ho). naive_solver.
Qed.

(** What the functions with such a loop return. *)
Definition finds (l : list A) (r : list A * option string) : Prop :=
  (is_Some r.2 ↔ pod_Labels pod = ∅ ∨
    (∃ x, x ∈ l ∧ namespace x = Namespace pod ∧ ¬ selector_valid (ps x)) ∨ ∀ x, x ∈ l → ¬ owned x) ∧
  (r.2 = None → ∀ x, x ∈ r.1 ↔ x ∈ l ∧ owned x).

Lemma matching_finds l err err' :
  finds l (if Nat.eqb (size (pod_Labels pod)) 0 then ([], Some err)
    else match f l [] with
         | (r, Some e) => (r, Some e)
         | (r, None) => (r, if Nat.eqb (length r) 0 then Some err' else None)
         end).
Proof.
  unfold finds. destruct (Nat.eqb _ 0) eqn:Hl.
  { apply Nat.eqb_eq, map_size_empty_inv in Hl. split; [|done]. split; [by left|by eauto]. }
  apply Nat.eqb_neq in Hl. assert (pod_Labels pod ≠ ∅) as Hne by (by intros E; rewrite E in Hl).
  pose proof (matching_loop l []) as Hs. destruct (f l []) as [r [e|]].
  { split; [|done]. split; [by auto|by eauto]. }
  destruct Hs as (Hv & more & Hr & Hm). cbn in Hr. subst r. cbn [fst snd].
  destruct (Nat.eqb (length more) 0) eqn:Hlen.
  - apply Nat.eqb_eq, length_zero_iff_nil in Hlen. subst. split; [|done].
    split; [intros _|by eauto]. right. right. intros x Hin Ho. apply (elem_of_nil x). by apply Hm.
  - apply Nat.eqb_neq in Hlen. split; [|done]. split; [by intros []|].
    intros [?|[(x & Hin & Hns & Hno)|Hno]]; [done|by destruct Hno; apply Hv|].
    destruct more as [|x more]; [done|]. exfalso. destruct (proj1 (Hm x)) as [Hin Ho]; [left|]. by apply (Hno x).
Qed.
End matching_loop.

(** A replica set, and a daemon set, has a pod. *)
Definition owns (rs : ReplicaSet) (pod : Pod) : Prop := owned_by (rs_Namespace rs) (rs_Selector rs) pod.
Definition ds_owns (ds : DaemonSet) (pod : Pod) : Prop := owned_by (ds_Namespace ds) (ds_Selector ds) pod.

Lemma owns_Matches rs pod sel : LabelSelectorAsSelector (rs_Selector rs) = Ok sel →
  rs_Namespace rs = Namespace pod →
  Labels.Empty sel || negb (Labels.Matches sel (pod_Labels pod)) = false ↔ owns rs pod.
Proof. apply owned_Matches. Qed.

Lemma GetPodReplicaSets_ok store pod : finds rs_Namespace rs_Selector pod (Store.List store) (GetPodReplicaSets store pod).
Proof.
  assert (GetPodReplicaSets store pod =
    if Nat.eqb (size (pod_Labels pod)) 0 then ([], Some "no ReplicaSets found for pod because it has no labels")
    else match podReplicaSetsLoop pod (Store.List store) [] with
         | (r, Some e) => (r, Some e)
         | (r, None) => (r, if Nat.eqb (length r) 0 then Some "could not find ReplicaSet for pod" else None)
         end) as ->.
  { unfold GetPodReplicaSets. destruct (Nat.eqb _ 0); [done|]. destruct (podReplicaSetsLoop _ _ _) as [rss [e|]]; [done|]. by destruct (Nat.eqb _ 0). }
  apply matching_finds; [done|..]; intros rs l acc; cbn [podReplicaSetsLoop].
  - intros Hns. by rewrite bool_decide_eq_true_2.
  - intros err Hns Hs. rewrite bool_decide_eq_false_2, Hs by auto. eauto.
  - intros sel Hns Hs. rewrite bool_decide_eq_false_2, Hs by auto. by destruct (_ || _).
Qed.

Lemma GetPodDaemonSets_ok store pod : finds ds_Namespace ds_Selector pod (Store.List store) (GetPodDaemonSets store pod).
Proof.
  unfold GetPodDaemonSets. apply matching_finds; [done|..]; intros ds l acc; cbn [podDaemonSetsLoop].
  - intros Hns. by rewrite bool_decide_eq_true_2.
  - intros err Hns Hs. rewrite bool_decide_eq_false_2, Hs by auto. cbn. eauto.
  - intros sel Hns Hs. rewrite bool_decide_eq_false_2, Hs by auto. by destruct (_ || _).
Qed.
End facts.

(** *** Stores of objects under their keys *)
Section stores.
Context `{R : RangeOrder}.

Lemma elem_of_stored {A} (store : cache A) x : x ∈ Store.List store ↔ ∃ k, items (cacheStorage store) !! k = Some x.
Proof. apply elem_of_range_values. Qed.

(** The pods of a store with a property. *)
Definition inStore (P : Pod → bool) (store : cache Pod) : nat :=
  size (filter (λ kp, P kp.2 = true) (items (cacheStorage store))).

Lemma keyFunc_Add {A} `{ObjectMeta A} (pod : A) (st : cache A) : (keyFunc st = λ o, Ok (keyOf o)) →
  keyFunc (Store.Add pod st).1 = keyFunc st ∧
  items (cacheStorage (Store.Add pod st).1) = <[keyOf pod := pod]> (items (cacheStorage st)).
Proof. intros Hk. unfold Store.Add. rewrite Hk. cbn. by rewrite items_Add. Qed.

Lemma inStore_Add P pod (st : cache Pod) : (keyFunc st = λ o, Ok (keyOf o)) →
  (inStore P (Store.Add pod st).1 <= S (inStore P st))%nat ∧
  ((P pod = true → ∃ old, items (cacheStorage st) !! keyOf pod = Some old ∧ P old = true) →
   (inStore P (Store.Add pod st).1 <= inStore P st)%nat).
Proof.
  intros Hk. unfold inStore. rewrite (proj2 (keyFunc_Add pod st Hk)).
  exact (size_filter_insert_le (items (cacheStorage st)) (λ pod, P pod = true) (keyOf pod) pod).
Qed.

End stores.

(** *** The cache *)

Lemma elem_of_lru_Add {V} h (v : V) c e : e ∈ ll (lru_Add h v c) → e = (h, v) ∨ e ∈ ll c.
Proof.
  unfold lru_Add, lru_without. destruct (lru_find h c); [|case_match]; cbn [ll].
  - rewrite elem_of_cons, list_elem_of_filter. tauto.
  - intros Hin. apply elem_of_take in Hin as (i & Hi & _). apply list_elem_of_lookup_2 in Hi.
    by apply elem_of_cons in Hi.
  - by rewrite elem_of_cons.
Qed.

Lemma lru_find_Some {V} h (v : V) c : lru_find h c = Some v → (h, v) ∈ ll c.
Proof.
  unfold lru_find. intros Hf. destruct (filter _ (ll c)) as [|[h' v'] l] eqn:Hl; simplify_eq/=.
  assert ((h', v) ∈ filter (λ e, e.1 = h) (ll c)) as [Heq ?]%list_elem_of_filter by (rewrite Hl; left).
  cbn in Heq. by subst.
Qed.

Lemma lru_Get_ok {V} h (c : lruCache V) :
  let '(c', r) := lru_Get h c in
  (∀ e, e ∈ ll c' → e ∈ ll c) ∧ ∀ v, r = Some v → (h, v) ∈ ll c.
Proof.
  unfold lru_Get, lru_without. destruct (lru_find h c) as [v|] eqn:Hf; [|done].
  apply lru_find_Some in Hf. split; [|by intros ? [= <-]].
  intros e. cbn [ll]. rewrite elem_of_cons, list_elem_of_filter. intros [->|[_ ?]]; done.
Qed.

(** ** Properties *)

(** The API's label selector is converted into one that matches exactly the
    label sets it describes, nothing for a nil one and everything for an empty
    one, and the conversion fails exactly on a selector with an invalid key or
    value, an operator that does not exist or one with the wrong values. *)
Theorem LabelSelectorAsSelector_spec (R : RangeOrder) (K : KeySort) (ps : option LabelSelector) :
  match LabelSelectorAsSelector ps with
  | Ok sel => selector_valid ps ∧ (∀ ls, Matches sel ls = true ↔ selects ps ls) ∧
      (Empty sel = true ↔ selects_all ps)
  | Err _ => ¬ selector_valid ps
  end.
Proof. apply LabelSelectorAsSelector_ok. Qed.

(** The replica sets of a pod are those of its namespace whose selector selects
    the pod, unless the pod has no labels, some replica set of the namespace has
    an invalid selector, or there is none: an invalid selector hides the
    replica sets that do match. *)
Theorem GetPodReplicaSets_spec (R : RangeOrder) (K : KeySort) (store : cache ReplicaSet) (pod : Pod) :
  let '(rss, err) := GetPodReplicaSets store pod in
  (is_Some err ↔ pod_Labels pod = ∅ ∨
    (∃ rs, rs ∈ Store.List store ∧ rs_Namespace rs = Namespace pod ∧ ¬ selector_valid (rs_Selector rs)) ∨
    ∀ rs, rs ∈ Store.List store → ¬ owns rs pod) ∧
  (err = None → ∀ rs, rs ∈ rss ↔ rs ∈ Store.List store ∧ owns rs pod).
Proof. pose proof (GetPodReplicaSets_ok store pod) as H. by destruct (GetPodReplicaSets store pod). Qed.
