(* ===== verification/Nodes.v ===== *)
(** * Nodes

    The data of [api.Node] and of its conditions in [pkg/api/types.go], with the fields that
    the node controller and the daemon set controller read, and the list of
    nodes of [pkg/client/cache/listers.go]. *)

From S2P Require Import Prelude.
From S2P Require Import Quantity.
From S2P Require Import ThreadSafeStore.
From S2P Require Import Store.
From S2P Require Import Labels.
From S2P Require Import Pods.

Definition NodeReady : string := "Ready".
Definition NodeOutOfDisk : string := "OutOfDisk".
Definition ConditionFalse : string := "False".
Definition ConditionUnknown : string := "Unknown".

Record NodeCondition := mkNodeCondition {
  nc_Type : string;
  nc_Status : string;
  LastHeartbeatTime : Time;
  nc_LastTransitionTime : Time;
  nc_Reason : string;
  nc_Message : string;
}.

#[export] Instance NodeCondition_eq_dec : EqDecision NodeCondition.
Proof. unfold EqDecision, Time. solve_decision. Defined.

(** The capacity [Allocatable] is a list of resources. *)
Record Node := mkNode {
  node_Name : string;
  node_CreationTimestamp : Time;
  PodCIDR : string;
  node_Conditions : list NodeCondition;
  KubeletVersion : string;
  node_Namespace : string;
  node_Labels : Set_;
  Allocatable : gmap string Quantity;
}.

#[export] Instance node_meta : ObjectMeta Node := {|
  GetNamespace := node_Namespace;
  GetName := node_Name;
  GetResourceVersion := λ _, "";
|}.

(** [StoreToNodeLister.List], which never fails. *)
Definition nodeLister_List `{R : RangeOrder} (store : cache Node) : list Node :=
  foldl (λ machines m, machines ++ [m]) [] (Store.List store).

Lemma nodeLister_List_eq `{R : RangeOrder} store : nodeLister_List store = Store.List store.
Proof. apply foldl_append. Qed.
