(* ===== verification/Predicates.v ===== *)
(** * Whether pods fit a node

    The requests of pods against the capacity of a node, of
    [plugin/pkg/scheduler/algorithm/predicates/predicates.go] with the
    accessors of [pkg/api/resource_helpers.go], and the host ports that they take,
    of [pkg/api/validation/validation.go].

    The theorems: [CheckPodsExceedingFreeResources] finds that all pods fit exactly when
    the sums of their requests are within the capacity, while nothing overflows
    and no request is negative; [AccumulateUniqueHostPorts] finds no conflict
    exactly when no host port is taken twice for a protocol. *)

From S2P Require Import Prelude.
From S2P Require Import Quantity.
From S2P Require Import Strconv.
From S2P Require Import Labels.
From S2P Require Import Pods.
From S2P Require Import SetsString.
#[local] Open Scope Z_scope.

#[local] Abbreviation ResourceList := (gmap string Quantity).

(** ** Resources *)

Definition ResourceCPU : string := "cpu".
Definition ResourceMemory : string := "memory".

Definition Cpu (self : ResourceList) : Quantity := default (mkQuantity None DecimalSI) (self !! ResourceCPU).
Definition Memory (self : ResourceList) : Quantity := default (mkQuantity None BinarySI) (self !! ResourceMemory).

Record resourceRequest := mkRequest { milliCPU : Z; memory : Z }.

Section resources.
Context `{Pow10Conv}.

Definition getResourceRequest (pod : Pod) : resourceRequest :=
  foldl (λ result container,
    let requests := ctr_Requests container in
    let result := mkRequest (milliCPU result) (int64 (memory result + Value (Memory requests))) in
    mkRequest (int64 (milliCPU result + MilliValue (Cpu requests))) (memory result))
    (mkRequest 0 0) (Containers pod).

(** The loop: what is requested so far, and the three results. *)
Fixpoint checkPodsLoop (totalMilliCPU totalMemory : Z) (pods : list Pod) (milliCPURequested memoryRequested : Z) :
    list Pod * list Pod * list Pod :=
  match pods with
  | [] => ([], [], [])
  | pod :: pods =>
      let podRequest := getResourceRequest pod in
      let fitsCPU := milliCPU podRequest <=? int64 (totalMilliCPU - milliCPURequested) in
      let fitsMemory := memory podRequest <=? int64 (totalMemory - memoryRequested) in
      if negb fitsCPU then
        let '(fitting, notFittingCPU, notFittingMemory) := checkPodsLoop totalMilliCPU totalMemory pods milliCPURequested memoryRequested in
        (fitting, pod :: notFittingCPU, notFittingMemory)
      else if negb fitsMemory then
        let '(fitting, notFittingCPU, notFittingMemory) := checkPodsLoop totalMilliCPU totalMemory pods milliCPURequested memoryRequested in
        (fitting, notFittingCPU, pod :: notFittingMemory)
      else
        let '(fitting, notFittingCPU, notFittingMemory) := checkPodsLoop totalMilliCPU totalMemory pods
          (int64 (milliCPURequested + milliCPU podRequest)) (int64 (memoryRequested + memory podRequest)) in
        (pod :: fitting, notFittingCPU, notFittingMemory)
  end.

Definition CheckPodsExceedingFreeResources (pods : list Pod) (allocatable : ResourceList) : list Pod * list Pod * list Pod :=
  checkPodsLoop (MilliValue (Cpu allocatable)) (Value (Memory allocatable)) pods 0 0.
End resources.

(** ** Host ports *)

Definition hostPortKey (port : ContainerPort) : string := FormatInt (cp_HostPort port) +:+ "/" +:+ cp_Protocol port.

(** The keys that are taken twice, of the list of errors; the accumulator is changed in place. *)
Definition portsLoop (ports : list ContainerPort) (r : list string * gset string) : list string * gset string :=
  foldl (λ '(allErrs, accumulator) port,
    if Z.eqb (cp_HostPort port) 0 then (allErrs, accumulator)
    else
      let str := hostPortKey port in
      if Has accumulator str then (allErrs ++ [str], accumulator)
      else (allErrs, SetsString.Insert accumulator [str])) r ports.

Definition AccumulateUniqueHostPorts (containers : list Container) (accumulator : gset string) : list string * gset string :=
  foldl (λ r ctr, portsLoop (ctr_Ports ctr) r) ([], accumulator) containers.

(** ** Facts *)

(** The host ports of containers. *)
Definition hostPorts (containers : list Container) : list ContainerPort :=
  filter (λ port, cp_HostPort port ≠ 0) (containers ≫= ctr_Ports).

Lemma hostPortKey_inj port port' : hostPortKey port = hostPortKey port' →
  cp_HostPort port = cp_HostPort port' ∧ cp_Protocol port = cp_Protocol port'.
Proof. unfold hostPortKey. intros E. by apply (FormatInt_sep "/") in E. Qed.

Definition hostPortKeys (containers : list Container) : list string := hostPortKey <$> hostPorts containers.

Lemma portsLoop_cons port ports errs acc : portsLoop (port :: ports) (errs, acc) =
  portsLoop ports (if Z.eqb (cp_HostPort port) 0 then (errs, acc)
    else if Has acc (hostPortKey port) then (errs ++ [hostPortKey port], acc) else (errs, SetsString.Insert acc [hostPortKey port])).
Proof. done. Qed.

Lemma portsLoop_spec ports : ∀ errs acc,
  let keys := hostPortKey <$> filter (λ port, cp_HostPort port ≠ 0) ports in
  let '(errs', acc') := portsLoop ports (errs, acc) in
  acc' = acc ∪ list_to_set keys ∧ (errs' = [] ↔ errs = [] ∧ NoDup keys ∧ ∀ k, k ∈ keys → k ∉ acc).
Proof.
  induction ports as [|port ports IH]; intros errs acc; cbn zeta.
  { cbn. split; [set_solver|]. split; [|by intros [? _]]. intros ->. split_and!; [done|constructor|by intros k ?%elem_of_nil]. }
  rewrite portsLoop_cons. destruct (Z.eqb_spec (cp_HostPort port) 0) as [Hp|Hp].
  { rewrite filter_cons_False by tauto. apply IH. }
  rewrite filter_cons_True by done. rewrite fmap_cons. destruct (Has acc (hostPortKey port)) eqn:Hh.
  - specialize (IH (errs ++ [hostPortKey port]) acc). cbn zeta in IH.
    destruct (portsLoop ports _) as [errs' acc']. destruct IH as [-> IH]. apply Has_true in Hh. split; [set_solver|].
    rewrite IH, NoDup_cons. split; [by intros [[_ ?]%app_nil _]|]. intros (_ & _ & Hno). destruct (Hno (hostPortKey port)); [left|done].
  - specialize (IH errs (SetsString.Insert acc [hostPortKey port])). cbn zeta in IH.
    destruct (portsLoop ports _) as [errs' acc']. destruct IH as [-> IH]. apply Has_false in Hh. rewrite Insert_union in IH |- *.
    cbn [list_to_set]. split; [set_solver|]. rewrite IH, NoDup_cons. set_solver.
Qed.

Lemma AccumulateUniqueHostPorts_ok containers acc :
  let '(errs, acc') := AccumulateUniqueHostPorts containers acc in
  acc' = acc ∪ list_to_set (hostPortKeys containers) ∧
  (errs = [] ↔ NoDup (hostPortKeys containers) ∧ ∀ k, k ∈ hostPortKeys containers → k ∉ acc).
Proof.
  assert (∀ errs acc, foldl (λ r ctr, portsLoop (ctr_Ports ctr) r) (errs, acc) containers =
    portsLoop (containers ≫= ctr_Ports) (errs, acc)) as E.
  { induction containers as [|ctr containers IH]; [done|]. intros errs acc'. cbn [foldl mbind list_bind].
    destruct (portsLoop (ctr_Ports ctr) (errs, acc')) as [errs1 acc1] eqn:E1. rewrite IH.
    unfold portsLoop in *. by rewrite foldl_app, E1. }
  unfold AccumulateUniqueHostPorts, hostPortKeys, hostPorts. rewrite E.
  pose proof (portsLoop_spec (containers ≫= ctr_Ports) [] acc) as H. cbn zeta in H.
  destruct (portsLoop _ _) as [errs acc']. destruct H as [-> H]. split; [done|]. rewrite H. tauto.
Qed.

Section resource_facts.
Context `{Pow10Conv}.

(** The sums of what the containers of a pod request. *)
Definition sums (f : Container → Z) (pod : Pod) : Z := sumZ (f <$> Containers pod).
Definition requestedCPU : Pod → Z := sums (λ ctr, MilliValue (Cpu (ctr_Requests ctr))).
Definition requestedMemory : Pod → Z := sums (λ ctr, Value (Memory (ctr_Requests ctr))).

Lemma getResourceRequest_sums pod :
  getResourceRequest pod = mkRequest (int64 (requestedCPU pod)) (int64 (requestedMemory pod)).
Proof.
  unfold getResourceRequest, requestedCPU, requestedMemory, sums.
  assert (∀ l c m, foldl (λ result container,
      let requests := ctr_Requests container in
      let result := mkRequest (milliCPU result) (int64 (memory result + Value (Memory requests))) in
      mkRequest (int64 (milliCPU result + MilliValue (Cpu requests))) (memory result)) (mkRequest (int64 c) (int64 m)) l =
    mkRequest (int64 (c + sumZ ((λ ctr, MilliValue (Cpu (ctr_Requests ctr))) <$> l)))
      (int64 (m + sumZ ((λ ctr, Value (Memory (ctr_Requests ctr))) <$> l)))) as E.
  { induction l as [|ctr l IH]; intros c m; cbn [foldl]; [by rewrite !Z.add_0_r|].
    cbn zeta. cbn [milliCPU memory]. rewrite !int64_add_l, IH, !fmap_cons, !sumZ_cons. by rewrite !Z.add_assoc. }
  specialize (E (Containers pod) 0 0). by rewrite (int64_id 0) in E by lia.
Qed.

(** Pods whose requests are not negative, and do not overflow one by one. *)
Definition moderate (pod : Pod) : Prop := 0 <= requestedCPU pod < 2 ^ 63 ∧ 0 <= requestedMemory pod < 2 ^ 63.

Definition totalCPU (pods : list Pod) : Z := sumZ (requestedCPU <$> pods).
Definition totalMemory (pods : list Pod) : Z := sumZ (requestedMemory <$> pods).

Lemma total_nonneg pods : Forall moderate pods → 0 <= totalCPU pods ∧ 0 <= totalMemory pods.
Proof.
  unfold totalCPU, totalMemory. induction 1 as [|pod pods [? ?] _ IH]; [done|]. rewrite !fmap_cons, !sumZ_cons. lia.
Qed.

(** Each pod is put where it belongs, given what the pods that fit before it request. *)
Lemma checkPodsLoop_spec cpus mems pods : 0 <= cpus < 2 ^ 63 → 0 <= mems < 2 ^ 63 → Forall moderate pods →
  ∀ c m, 0 <= c <= cpus → 0 <= m <= mems →
  let '(fitting, notFittingCPU, notFittingMemory) := checkPodsLoop cpus mems pods c m in
  fitting ++ notFittingCPU ++ notFittingMemory ≡ₚ pods ∧
  c + totalCPU fitting <= cpus ∧ m + totalMemory fitting <= mems ∧
  (c + totalCPU pods <= cpus ∧ m + totalMemory pods <= mems → notFittingCPU = [] ∧ notFittingMemory = []).
Proof.
  intros Hcpus Hmems Hpods. induction Hpods as [|pod pods [Hc Hm] Hpods IH]; intros c m Hcc Hmm; cbn [checkPodsLoop].
  { split_and!; [done|cbn; lia|cbn; lia|done]. }
  destruct (total_nonneg pods Hpods) as [Hnc Hnm]. rewrite getResourceRequest_sums. cbn [milliCPU memory].
  rewrite (int64_id (requestedCPU pod)), (int64_id (requestedMemory pod)), (int64_id (cpus - c)), (int64_id (mems - m)) by lia.
  unfold totalCPU, totalMemory in *. rewrite !fmap_cons, !sumZ_cons.
  destruct (Z.leb_spec (requestedCPU pod) (cpus - c)) as [Hfc|Hfc]; cbn [negb];
    [destruct (Z.leb_spec (requestedMemory pod) (mems - m)) as [Hfm|Hfm]; cbn [negb]|].
  - rewrite !int64_id by lia. specialize (IH (c + requestedCPU pod) (m + requestedMemory pod) ltac:(lia) ltac:(lia)).
    destruct (checkPodsLoop _ _ _ _ _) as [[fit nc] nm]. destruct IH as (Hp & ? & ? & Hno).
    rewrite !fmap_cons, !sumZ_cons.
    split_and!; [by rewrite <- Hp|lia|lia|]. intros [? ?]. apply Hno. lia.
  - specialize (IH c m Hcc Hmm). destruct (checkPodsLoop _ _ _ _ _) as [[fit nc] nm]. destruct IH as (Hp & ? & ? & Hno).
    split_and!; [|done|done|lia]. by rewrite (Permutation_app_comm nc), <- app_comm_cons, <- Permutation_middle, (Permutation_app_comm nm), <- Hp.
  - specialize (IH c m Hcc Hmm). destruct (checkPodsLoop _ _ _ _ _) as [[fit nc] nm]. destruct IH as (Hp & ? & ? & Hno).
    split_and!; [|done|done|lia]. by rewrite <- app_comm_cons, <- Permutation_middle, <- Hp.
Qed.
End resource_facts.
