(* ===== verification/DeploymentUtil.v ===== *)
(** * util/deployment: what a rolling update computes

    Models [pkg/util/deployment/deployment.go] (but for the labelling of replica
    sets with their template's hash, which comes before and whose result is an
    argument), [pkg/util/labels/labels.go] and [pkg/util/integer/integer.go].

    Replica sets are objects that pointers share and that are changed in place:
    they live in a heap.  The functions that call the API server run in the monad
    [M]: a state with the heap, the deployment and the server, an error, or a
    panic.  The server is a type with its operations, the class [API]: reads may
    change it too, which is how it moves on between two calls. *)

From S2P Require Import Prelude.
From S2P Require Import ThreadSafeStore.
From S2P Require Import Store.
From S2P Require Import WorkQueue.
From S2P Require Import Validation.
From S2P Require Import Float.
From S2P Require Import Strconv.
From S2P Require Import IntStr.
From S2P Require Import Labels.
From S2P Require Import Pods.
From S2P Require Import Listers.

#[local] Open Scope Z_scope.

(** ** Integers *)

Definition IntMin (a b : Z) : Z := if b <? a then b else a.

Lemma IntMin_min a b : IntMin a b = Z.min a b.
Proof. unfold IntMin. destruct (Z.ltb_spec b a); lia. Qed.

(** ** Labels *)

Section labels.
Context `{RangeOrder}.

(** The loop that copies a map. *)
Definition cloneLabels (labels : Set_) : Set_ :=
  foldl (λ newLabels '(key, value), <[key := value]> newLabels) ∅ (range_map labels).

Definition CloneAndAddLabel (labels : Set_) (labelKey : string) (labelValue : Z) : Set_ :=
  if bool_decide (labelKey = "") then labels
  else <[labelKey := FormatInt labelValue]> (cloneLabels labels).

Definition CloneAndRemoveLabel (labels : Set_) (labelKey : string) : Set_ :=
  if bool_decide (labelKey = "") then labels else delete labelKey (cloneLabels labels).

(** A nil selector is a nil pointer. *)
Definition CloneSelectorAndAddLabel (selector : option LabelSelector) (labelKey : string) (labelValue : Z) :
    outcome (option LabelSelector) :=
  if bool_decide (labelKey = "") then Returns selector
  else
    match selector with
    | None => Panics
    | Some selector =>
        Returns (Some (mkLabelSelector
          (<[labelKey := FormatInt labelValue]> (cloneLabels (MatchLabels selector)))
          (MatchExpressions selector)))
    end.
End labels.

(** ** Data *)

(** A pod template: its labels, and the rest of it. *)
Record PodTemplateSpec (Spec : Type) : Type := mkTemplate { tmpl_Labels : Set_; tmpl_Spec : Spec }.
Arguments mkTemplate {Spec} _ _.
Arguments tmpl_Labels {Spec} _.
Arguments tmpl_Spec {Spec} _.

#[export] Instance template_eq_dec {Spec} `{EqDecision Spec} : EqDecision (PodTemplateSpec Spec).
Proof. solve_decision. Defined.

(** A replica set with the fields that a deployment reads besides. *)
Record RS (Spec : Type) : Type := mkRS {
  rs : ReplicaSet;
  rs_Annotations : Set_;
  rs_Template : PodTemplateSpec Spec;
}.
Arguments mkRS {Spec} _ _ _.
Arguments rs {Spec} _.
Arguments rs_Annotations {Spec} _.
Arguments rs_Template {Spec} _.

Inductive DeploymentStrategyType : Type :=
| RecreateDeploymentStrategyType | RollingUpdateDeploymentStrategyType | OtherStrategy (t : string).

Record RollingUpdateDeployment : Type := mkRollingUpdate { MaxUnavailable : IntOrString; MaxSurge : IntOrString }.

Record DeploymentStatus : Type := mkDStatus {
  ds_ObservedGeneration : Z;
  ds_Replicas : Z;
  ds_UpdatedReplicas : Z;
  ds_AvailableReplicas : Z;
  ds_UnavailableReplicas : Z;
}.

Record Deployment (Spec : Type) : Type := mkDeployment {
  d_Namespace : string;
  d_Name : string;
  d_Generation : Z;
  d_Annotations : Set_;
  d_Replicas : Z;
  d_Selector : option LabelSelector;
  d_Template : PodTemplateSpec Spec;
  d_StrategyType : DeploymentStrategyType;
  d_RollingUpdate : option RollingUpdateDeployment;
  d_MinReadySeconds : Z;
  d_RevisionHistoryLimit : option Z;
  d_Paused : bool;
  d_RollbackTo : option Z;
  d_Status : DeploymentStatus;
}.
Arguments mkDeployment {Spec} _ _ _ _ _ _ _ _ _ _ _ _ _ _.
Arguments d_Namespace {Spec} _.
Arguments d_Name {Spec} _.
Arguments d_Generation {Spec} _.
Arguments d_Annotations {Spec} _.
Arguments d_Replicas {Spec} _.
Arguments d_Selector {Spec} _.
Arguments d_Template {Spec} _.
Arguments d_StrategyType {Spec} _.
Arguments d_RollingUpdate {Spec} _.
Arguments d_MinReadySeconds {Spec} _.
Arguments d_RevisionHistoryLimit {Spec} _.
Arguments d_Paused {Spec} _.
Arguments d_RollbackTo {Spec} _.
Arguments d_Status {Spec} _.

#[export] Instance deployment_meta {Spec} : ObjectMeta (Deployment Spec) := {|
  GetNamespace := d_Namespace;
  GetName := d_Name;
  GetResourceVersion := λ _, "";
|}.

Definition RevisionAnnotation : string := "deployment.kubernetes.io/revision".
Definition LastAppliedConfigAnnotation : string := "kubectl.kubernetes.io/last-applied-configuration".
Definition DefaultDeploymentUniqueLabelKey : string := "pod-template-hash".

(** ** The API server *)

Class API (Spec Srv : Type) : Type := {
  IsNotFound : string → bool;
  time_Now : Srv → Time;
  server_ListPods : string → Selector → Srv → Srv * result string (list Pod);
  server_UpdateRS : RS Spec → Srv → Srv * result string (RS Spec);
  server_CreateRS : RS Spec → Srv → Srv * result string (RS Spec);
  server_DeleteRS : string → string → Srv → Srv * option string;
  server_UpdateDeployment : Deployment Spec → Srv → Srv * option string;
  server_UpdateStatus : Deployment Spec → Srv → Srv * option string;
}.

(** [podutil.GetPodTemplateSpecHash]: adler32 of the printed template, a [uint32]. *)
Class TemplateHash (Spec : Type) : Type := { GetPodTemplateSpecHash : PodTemplateSpec Spec → Z }.

(** ** The monad *)

Record St (Spec Srv : Type) : Type := mkSt {
  heap : gmap nat (RS Spec);
  dep : Deployment Spec;
  server : Srv;
  dqueue : Queue string;
}.
Arguments mkSt {Spec Srv} _ _ _ _.
Arguments heap {Spec Srv} _.
Arguments dep {Spec Srv} _.
Arguments server {Spec Srv} _.
Arguments dqueue {Spec Srv} _.

Definition M (Spec Srv : Type) (A : Type) : Type := St Spec Srv → outcome (St Spec Srv * result string A).

#[export] Instance M_ret {Spec Srv} : MRet (M Spec Srv) := λ A a st, Returns (st, Ok a).
#[export] Instance M_bind {Spec Srv} : MBind (M Spec Srv) := λ A B f m st,
  match m st with
  | Panics => Panics
  | Returns (st, Err e) => Returns (st, Err e)
  | Returns (st, Ok a) => f a st
  end.

Section monad.
Context {Spec Srv : Type}.

Definition fail {A} (e : string) : M Spec Srv A := λ st, Returns (st, Err e).
Definition panic {A} : M Spec Srv A := λ _, Panics.
Definition lift {A} (r : result string A) : M Spec Srv A := λ st, Returns (st, r).
Definition gets {A} (f : St Spec Srv → A) : M Spec Srv A := λ st, Returns (st, Ok (f st)).
Definition modify (f : St Spec Srv → St Spec Srv) : M Spec Srv unit := λ st, Returns (f st, Ok tt).

(** A call whose error is looked at and not passed on. *)
Definition try {A} (m : M Spec Srv A) : M Spec Srv (result string A) := λ st,
  match m st with
  | Panics => Panics
  | Returns (st, r) => Returns (st, Ok r)
  end.

Definition with_heap (h : gmap nat (RS Spec)) (st : St Spec Srv) : St Spec Srv := mkSt h (dep st) (server st) (dqueue st).
Definition with_dep (d : Deployment Spec) (st : St Spec Srv) : St Spec Srv := mkSt (heap st) d (server st) (dqueue st).
Definition with_server (s : Srv) (st : St Spec Srv) : St Spec Srv := mkSt (heap st) (dep st) s (dqueue st).
Definition with_dqueue (q : Queue string) (st : St Spec Srv) : St Spec Srv := mkSt (heap st) (dep st) (server st) q.

(** [fmt.Errorf("prefix: %v", err)] *)
Definition wrap {A} (prefix : string) (m : M Spec Srv A) : M Spec Srv A := λ st,
  match m st with
  | Returns (st, Err e) => Returns (st, Err (prefix +:+ e))
  | r => r
  end.

(** A request to the server. *)
Definition request {A} (f : Srv → Srv * result string A) : M Spec Srv A := λ st,
  let '(s, r) := f (server st) in Returns (with_server s st, r).

Definition request_ (f : Srv → Srv * option string) : M Spec Srv unit :=
  request (λ s, let '(s, e) := f s in (s, match e with None => Ok tt | Some e => Err e end)).

(** *** Reasoning

    [wp m Q st]: [m] does not panic from [st] and ends with [Q]. *)
Definition wp {A} (m : M Spec Srv A) (Q : result string A → St Spec Srv → Prop) (st : St Spec Srv) : Prop :=
  match m st with
  | Panics => False
  | Returns (st, r) => Q r st
  end.

Lemma wp_ret {A} (a : A) Q st : Q (Ok a) st → wp (mret a) Q st.
Proof. done. Qed.

Lemma wp_gets {A} (f : St Spec Srv → A) Q st : Q (Ok (f st)) st → wp (gets f) Q st.
Proof. done. Qed.

Lemma wp_modify f Q st : Q (Ok tt) (f st) → wp (modify f) Q st.
Proof. done. Qed.

Lemma wp_lift {A} (r : result string A) Q st : Q r st → wp (lift r) Q st.
Proof. done. Qed.

Lemma wp_bind {A B} (m : M Spec Srv A) (f : A → M Spec Srv B) Q st :
  wp m (λ r st, match r with Ok a => wp (f a) Q st | Err e => Q (Err e) st end) st → wp (m ≫= f) Q st.
Proof. unfold wp, mbind, M_bind. destruct (m st) as [[st' [a|e]]|]; done. Qed.

Lemma wp_try {A} (m : M Spec Srv A) Q st : wp m (λ r st, Q (Ok r) st) st → wp (try m) Q st.
Proof. unfold wp, try. by destruct (m st) as [[st' r]|]. Qed.

Lemma wp_wrap {A} prefix (m : M Spec Srv A) Q st :
  wp m (λ r st, Q (match r with Ok a => Ok a | Err e => Err (prefix +:+ e) end) st) st → wp (wrap prefix m) Q st.
Proof. unfold wp, wrap. by destruct (m st) as [[st' [a|e]]|]. Qed.

Lemma wp_fail {A} e Q st : Q (Err e) st → wp (A := A) (fail e) Q st.
Proof. done. Qed.

Lemma wp_mono {A} (m : M Spec Srv A) (P Q : result string A → St Spec Srv → Prop) st :
  wp m P st → (∀ r st', P r st' → Q r st') → wp m Q st.
Proof. unfold wp. destruct (m st) as [[st' r]|]; eauto. Qed.

Lemma wp_and {A} (m : M Spec Srv A) (P Q : result string A → St Spec Srv → Prop) st :
  wp m P st → wp m Q st → wp m (λ r st, P r st ∧ Q r st) st.
Proof. unfold wp. by destruct (m st) as [[st' r]|]. Qed.

Lemma wp_request {A} (f : Srv → Srv * result string A) Q st :
  (∀ s r, f (server st) = (s, r) → Q r (with_server s st)) → wp (request f) Q st.
Proof. unfold wp, request. destruct (f (server st)). eauto. Qed.
End monad.

(** One step of a proof about a computation. *)
Ltac wp_step :=
  first [apply wp_bind | apply wp_ret | apply wp_gets | apply wp_modify | apply wp_lift | apply wp_try | apply wp_wrap | apply wp_fail].
Ltac wp := repeat (wp_step; cbn beta iota).

(** ** Availability *)

(** The loop over the conditions of [IsPodAvailable]: [now] is [time.Now()], and
    times are in nanoseconds. *)
Fixpoint availableLoop (now : Time) (minReadySeconds : Z) (conditions : list PodCondition) : bool :=
  match conditions with
  | [] => false
  | c :: conditions =>
      if bool_decide (cond_Type c = PodReady) && bool_decide (cond_Status c = ConditionTrue) &&
         ((minReadySeconds <=? 0) ||
          negb (IsZero (LastTransitionTime c)) &&
          (LastTransitionTime c + int64 (minReadySeconds * 10 ^ 9) <? now))
      then true
      else availableLoop now minReadySeconds conditions
  end.

Definition IsPodAvailable (now : Time) (pod : Pod) (minReadySeconds : Z) : bool :=
  if negb (IsPodActive pod) then false else availableLoop now minReadySeconds (Conditions pod).

(** The count of a list in memory does not overflow. *)
Definition getReadyPodsCount (now : Time) (pods : list Pod) (minReadySeconds : Z) : Z :=
  foldl (λ readyPodCount pod,
    if IsPodAvailable now pod minReadySeconds then readyPodCount + 1 else readyPodCount) 0 pods.

Definition Revision {Spec} (rs : RS Spec) : result string Z :=
  match rs_Annotations rs !! RevisionAnnotation with
  | None => Ok 0
  | Some v => ParseInt v
  end.

(** Both fence posts at once, so that they are not both zero. *)
Definition ResolveFenceposts `{FloatConv} (maxSurge maxUnavailable : IntOrString) (desired : Z) :
    result string (Z * Z) :=
  surge ← GetValueFromIntOrPercent maxSurge desired true;
  unavailable ← GetValueFromIntOrPercent maxUnavailable desired false;
  let unavailable := if Z.eqb surge 0 && Z.eqb unavailable 0 then 1 else unavailable in
  Ok (surge, unavailable).

(** ** Replica sets of a deployment *)
Section util.
Context {Spec Srv : Type} `{EqDecision Spec} `{A : API Spec Srv} `{TH : TemplateHash Spec}.
Context `{R : RangeOrder} `{K : KeySort} `{FC : FloatConv}.
Implicit Types (h : gmap nat (RS Spec)) (p : nat) (d : Deployment Spec).

(** What a pointer points to. *)
Definition replicasOf h p : Z := match h !! p with Some o => rs_Replicas (rs o) | None => 0 end.
Definition statusReplicasOf h p : Z := match h !! p with Some o => rs_Status_Replicas (rs o) | None => 0 end.

(** A list of pointers, some of them nil. *)
Definition GetReplicaCountForReplicaSets (replicaSets : list (option nat)) h : Z :=
  foldl (λ totalReplicaCount rs,
    match rs with
    | Some p => int64 (totalReplicaCount + replicasOf h p)
    | None => totalReplicaCount
    end) 0 replicaSets.

Definition GetActualReplicaCountForReplicaSets (replicaSets : list (option nat)) h : Z :=
  foldl (λ totalReplicaCount rs,
    match rs with
    | Some p => int64 (totalReplicaCount + statusReplicasOf h p)
    | None => totalReplicaCount
    end) 0 replicaSets.

Definition deref p : M Spec Srv (RS Spec) := λ st,
  match heap st !! p with Some o => Returns (st, Ok o) | None => Panics end.

(** The pods of the replica sets, by name. *)
Fixpoint podsLoop (replicaSets : list (option nat)) (allPods : gmap string Pod) : M Spec Srv (gmap string Pod) :=
  match replicaSets with
  | [] => mret allPods
  | None :: replicaSets => podsLoop replicaSets allPods
  | Some p :: replicaSets =>
      o ← deref p;
      selector ← wrap "invalid label selector: " (lift (LabelSelectorAsSelector (rs_Selector (rs o))));
      podList ← wrap "error listing pods: " (request (server_ListPods (rs_Namespace (rs o)) selector));
      podsLoop replicaSets (foldl (λ allPods pod, <[Name pod := pod]> allPods) allPods podList)
  end.

Definition GetPodsForReplicaSets (replicaSets : list (option nat)) : M Spec Srv (list Pod) :=
  allPods ← podsLoop replicaSets ∅; mret (range_values allPods).

Definition GetAvailablePodsForReplicaSets (rss : list (option nat)) (minReadySeconds : Z) : M Spec Srv Z :=
  allPods ← GetPodsForReplicaSets rss;
  now ← gets (λ st, time_Now (server st));
  mret (getReadyPodsCount now allPods minReadySeconds).

(** The size of the new replica set. *)
Definition NewRSNewReplicas d (allRSs : list (option nat)) (newRS : nat) : M Spec Srv Z :=
  match d_StrategyType d with
  | RollingUpdateDeploymentStrategyType =>
      match d_RollingUpdate d with
      | None => panic
      | Some ru =>
          maxSurge ← lift (GetValueFromIntOrPercent (MaxSurge ru) (d_Replicas d) true);
          h ← gets heap;
          let currentPodCount := GetReplicaCountForReplicaSets allRSs h in
          let maxTotalPods := int64 (d_Replicas d + maxSurge) in
          if maxTotalPods <=? currentPodCount then mret (replicasOf h newRS)
          else
            let scaleUpCount := int64 (maxTotalPods - currentPodCount) in
            let scaleUpCount := IntMin scaleUpCount (int64 (d_Replicas d - replicasOf h newRS)) in
            mret (int64 (replicasOf h newRS + scaleUpCount))
      end
  | RecreateDeploymentStrategyType => mret (d_Replicas d)
  | OtherStrategy t => fail ("deployment type " +:+ t +:+ " isn't supported")
  end.

(** *** Old and new *)

Definition GetNewReplicaSetTemplate d : PodTemplateSpec Spec :=
  mkTemplate (CloneAndAddLabel (tmpl_Labels (d_Template d)) DefaultDeploymentUniqueLabelKey
    (GetPodTemplateSpecHash (d_Template d))) (tmpl_Spec (d_Template d)).

Definition SetFromReplicaSetTemplate d (template : PodTemplateSpec Spec) : Deployment Spec :=
  mkDeployment (d_Namespace d) (d_Name d) (d_Generation d) (d_Annotations d) (d_Replicas d) (d_Selector d)
    (mkTemplate (CloneAndRemoveLabel (tmpl_Labels template) DefaultDeploymentUniqueLabelKey) (tmpl_Spec template))
    (d_StrategyType d) (d_RollingUpdate d) (d_MinReadySeconds d) (d_RevisionHistoryLimit d) (d_Paused d)
    (d_RollbackTo d) (d_Status d).

(** The inner loop of [GetOldReplicaSetsFromLists]: the replica sets with the
    pod, and all the old ones, by name. *)
Fixpoint oldRSLoop (template : PodTemplateSpec Spec) (podLabels : Set_) (rsList : list (RS Spec))
    (acc : gmap string (RS Spec) * gmap string (RS Spec)) :
    result string (gmap string (RS Spec) * gmap string (RS Spec)) :=
  match rsList with
  | [] => Ok acc
  | o :: rsList =>
      match LabelSelectorAsSelector (rs_Selector (rs o)) with
      | Err err => Err ("invalid label selector: " +:+ err)
      | Ok selector =>
          if decide (rs_Template o = template) then oldRSLoop template podLabels rsList acc
          else
            let '(oldRSs, allOldRSs) := acc in
            let allOldRSs := <[rs_Name (rs o) := o]> allOldRSs in
            let oldRSs := if Labels.Matches selector podLabels then <[rs_Name (rs o) := o]> oldRSs else oldRSs in
            oldRSLoop template podLabels rsList (oldRSs, allOldRSs)
      end
  end.

Fixpoint oldRSPodsLoop (template : PodTemplateSpec Spec) (pods : list Pod) (rsList : list (RS Spec))
    (acc : gmap string (RS Spec) * gmap string (RS Spec)) :
    result string (gmap string (RS Spec) * gmap string (RS Spec)) :=
  match pods with
  | [] => Ok acc
  | pod :: pods =>
      acc ← oldRSLoop template (pod_Labels pod) rsList acc;
      oldRSPodsLoop template pods rsList acc
  end.

(** The replica sets of the first result have pods; the second has all of them. *)
Definition GetOldReplicaSetsFromLists d (synced : result string (list (RS Spec) * list Pod)) :
    result string (list (RS Spec) * list (RS Spec)) :=
  match synced with
  | Err err => Err ("error labeling replica sets and pods with pod-template-hash: " +:+ err)
  | Ok (rsList, podList) =>
      '(oldRSs, allOldRSs) ← oldRSPodsLoop (GetNewReplicaSetTemplate d) podList rsList (∅, ∅);
      Ok (range_values oldRSs, range_values allOldRSs)
  end.

Definition findTemplate (template : PodTemplateSpec Spec) : list (RS Spec) → option (RS Spec) :=
  fix go rsList :=
    match rsList with
    | [] => None
    | o :: rsList => if decide (rs_Template o = template) then Some o else go rsList
    end.

Definition GetNewReplicaSetFromList d (synced : result string (list (RS Spec) * list Pod)) :
    result string (option (RS Spec)) :=
  match synced with
  | Err err => Err ("error listing ReplicaSets: " +:+ err)
  | Ok (rsList, _) => Ok (findTemplate (GetNewReplicaSetTemplate d) rsList)
  end.
End util.

(** ** Facts *)

Section facts.
Context {Spec Srv : Type} `{EqDecision Spec} `{A : API Spec Srv} `{TH : TemplateHash Spec}.
Context `{R : RangeOrder} `{K : KeySort} `{FC : FloatConv}.
Implicit Types (h : gmap nat (RS Spec)) (p : nat) (d : Deployment Spec).

Definition sumReplicas h (l : list nat) : Z := foldr (λ p z, replicasOf h p + z) 0 l.

#[global] Arguments sumReplicas : simpl never.

Lemma sumReplicas_cons h p l : sumReplicas h (p :: l) = replicasOf h p + sumReplicas h l.
Proof. done. Qed.

(** No replica set of the list has a negative size, and they stay far from
    overflow together. *)
Definition sane h (l : list nat) : Prop := (∀ p, p ∈ l → 0 <= replicasOf h p) ∧ sumReplicas h l <= 2 ^ 60.

Lemma sumReplicas_app h l l' : sumReplicas h (l ++ l') = sumReplicas h l + sumReplicas h l'.
Proof. induction l as [|p l IH]; cbn [app]; [done|]. rewrite !sumReplicas_cons. lia. Qed.

Lemma sumReplicas_perm h l l' : l ≡ₚ l' → sumReplicas h l = sumReplicas h l'.
Proof. induction 1; rewrite ?sumReplicas_cons; lia. Qed.

Lemma sumReplicas_nonneg h l : (∀ p, p ∈ l → 0 <= replicasOf h p) → 0 <= sumReplicas h l.
Proof.
  induction l as [|p l IH]; intros Hl; [done|]. rewrite sumReplicas_cons.
  pose proof (Hl p (list_elem_of_here _ _)). specialize (IH (λ q Hq, Hl q (list_elem_of_further _ _ _ Hq))). lia.
Qed.

Lemma sumReplicas_ext h h' l : (∀ p, p ∈ l → replicasOf h' p = replicasOf h p) → sumReplicas h' l = sumReplicas h l.
Proof.
  induction l as [|p l IH]; intros Hl; [done|]. rewrite !sumReplicas_cons, (Hl p) by left.
  rewrite IH by (intros; apply Hl; by right). done.
Qed.

Lemma sumReplicas_elem h l p : p ∈ l → (∀ p, p ∈ l → 0 <= replicasOf h p) → replicasOf h p <= sumReplicas h l.
Proof.
  intros Hp Hl. apply list_elem_of_split in Hp as (l1 & l2 & ->). rewrite sumReplicas_app, sumReplicas_cons.
  pose proof (sumReplicas_nonneg h l1 ltac:(set_solver)). pose proof (sumReplicas_nonneg h l2 ltac:(set_solver)). lia.
Qed.

(** The source's count is the sum. *)
Lemma GetReplicaCount_sum h l : sane h l → GetReplicaCountForReplicaSets (Some <$> l) h = sumReplicas h l.
Proof.
  intros [Hl Hs]. unfold GetReplicaCountForReplicaSets.
  assert (∀ z, 0 <= z → z + sumReplicas h l <= 2 ^ 60 →
    foldl (λ t rs, match rs with Some p => int64 (t + replicasOf h p) | None => t end) z (Some <$> l) =
    z + sumReplicas h l) as H; [|by apply (H 0)].
  clear Hs. induction l as [|p l IH]; intros z Hz Hle; cbn [fmap list_fmap foldl]; [unfold sumReplicas; cbn; lia|].
  pose proof (Hl p (list_elem_of_here _ _)).
  pose proof (sumReplicas_nonneg h l ltac:(set_solver)). rewrite sumReplicas_cons in *.
  rewrite int64_id by lia. rewrite IH; [lia|set_solver|lia|lia].
Qed.

(** Objects that are there. *)
Definition valid h (l : list nat) : Prop := ∀ p, p ∈ l → is_Some (h !! p).

(** One listing, on the server. *)
Definition lists (s s' : Srv) : Prop := ∃ ns sel, s' = (server_ListPods ns sel s).1.

(** No listing has more pods than integers can count with ease. *)
Definition few_pods : Prop := ∀ ns sel s s' pods,
  server_ListPods ns sel s = (s', Ok pods) → Z.of_nat (length pods) <= 2 ^ 30.

Lemma add_pods_size pods (m : gmap string Pod) :
  (size (foldl (λ allPods pod, <[Name pod := pod]> allPods) m pods) <= size m + length pods)%nat.
Proof.
  revert m. induction pods as [|pod pods IH]; intros m; cbn; [lia|]. etrans; [apply IH|].
  destruct (m !! Name pod) as [q|] eqn:E.
  - rewrite map_size_insert_Some; [lia|by eexists].
  - rewrite map_size_insert_None by done. lia.
Qed.

Lemma getReadyPodsCount_bounds now pods ms : 0 <= getReadyPodsCount now pods ms <= Z.of_nat (length pods).
Proof.
  unfold getReadyPodsCount. rewrite <- (Nat2Z.id (length pods)) at 1. rewrite Nat2Z.id.
  assert (∀ z, z <= foldl (λ n pod, if IsPodAvailable now pod ms then n + 1 else n) z pods <= z + Z.of_nat (length pods)) as H;
    [|by apply H].
  induction pods as [|pod pods IH]; intros z; cbn [foldl length]; [lia|].
  destruct (IsPodAvailable _ _ _); [specialize (IH (z + 1))|specialize (IH z)]; lia.
Qed.

Lemma getReadyPodsCount_all now pods ms : (∀ pod, pod ∈ pods → IsPodAvailable now pod ms = true) →
  getReadyPodsCount now pods ms = Z.of_nat (length pods).
Proof.
  unfold getReadyPodsCount. intros Hall.
  assert (∀ z, foldl (λ n pod, if IsPodAvailable now pod ms then n + 1 else n) z pods = z + Z.of_nat (length pods)) as H;
    [|by apply H].
  induction pods as [|pod pods IH]; intros z; cbn [foldl length]; [lia|].
  rewrite Hall by left. rewrite IH; [lia|]. intros q Hq. apply Hall. by right.
Qed.

(** The pods that are collected: listing changes only the server. *)
Lemma podsLoop_wp l : ∀ acc (st : St Spec Srv), valid (heap st) l →
  wp (podsLoop (Some <$> l) acc) (λ r st', (∃ s, rtc lists (server st) s ∧ st' = with_server s st) ∧
    ∀ pods, r = Ok pods → few_pods → Z.of_nat (size pods) <= Z.of_nat (size acc) + 2 ^ 30 * Z.of_nat (length l)) st.
Proof.
  induction l as [|p l IH]; intros acc st Hv; cbn [podsLoop fmap list_fmap].
  { split; [exists (server st); split; [done|by destruct st]|]. intros pods [= <-]. cbn; lia. }
  apply wp_bind. destruct (Hv p) as [o Ho]; [left|]. unfold wp at 1, deref. rewrite Ho.
  wp. destruct (LabelSelectorAsSelector _); [|split; [exists (server st); split; [done|by destruct st]|done]].
  apply wp_bind, wp_wrap, wp_request. intros s r Hr.
  assert (lists (server st) s) as Hlist by (eexists _, _; by rewrite Hr).
  destruct r as [pods|]; [|split; [exists s; split; [by apply rtc_once|done]|done]].
  eapply wp_mono; [apply IH; intros q Hq; apply Hv; by right|]. cbn. intros r' st' [(s' & Hs' & ->) Hn].
  split; [exists s'; split; [by eapply rtc_l|done]|]. intros pods' -> Hfew. specialize (Hn pods' eq_refl Hfew).
  specialize (Hfew _ _ _ _ _ Hr). pose proof (add_pods_size pods acc). lia.
Qed.

(** Counting pods changes only the server. *)
Lemma GetAvailable_wp l ms (st : St Spec Srv) : valid (heap st) l →
  wp (GetAvailablePodsForReplicaSets (Some <$> l) ms)
    (λ r st', (∃ s, rtc lists (server st) s ∧ st' = with_server s st) ∧
      match r with Ok n => 0 <= n ∧ (few_pods → n <= 2 ^ 30 * Z.of_nat (length l)) | Err _ => True end) st.
Proof.
  intros Hv. unfold GetAvailablePodsForReplicaSets, GetPodsForReplicaSets.
  apply wp_bind, wp_bind. eapply wp_mono; [by apply podsLoop_wp|]. cbn beta.
  intros [pods|e] st' [(s & Hs & ->) Hn]; [|by split; [exists s|]].
  wp. split; [by exists s|]. pose proof (getReadyPodsCount_bounds (time_Now s) (range_values pods) ms) as [H0 Hle].
  split; [done|]. intros Hfew. specialize (Hn pods eq_refl Hfew). cbn in Hn |- *.
  assert (length (range_values pods) = size pods) as E by (unfold range_values; by rewrite length_fmap, length_range_map).
  rewrite map_size_empty in Hn. lia.
Qed.
End facts.
