(* ===== verification/Deployment.v ===== *)
(** * The deployment controller

    Models [pkg/controller/deployment/deployment_controller.go]: the worker,
    [syncDeployment] with its three strategies, the rolling update, rollback,
    revisions, and the status.  A sync works on a private copy of the replica
    sets, in the heap of [DeploymentUtil], and on the deployment of the local copy
    itself, which it changes.

    The theorems about the rolling update are in [Rollout], those about revisions,
    old replica sets and rollback in [Revisions]. *)

From S2P Require Import Prelude.
From S2P Require Import ThreadSafeStore.
From S2P Require Import Store.
From S2P Require Import WorkQueue.
From S2P Require Import Informer.
From S2P Require Import Strconv.
From S2P Require Import IntStr.
From S2P Require Import Labels.
From S2P Require Import Pods.
From S2P Require Import Listers.
From S2P Require Import DeploymentUtil.

#[local] Open Scope Z_scope.

(** The replica sets and the pods that a deployment selects, all of them labelled
    with the hash of their template: [rsAndPodsWithHashKeySynced]. *)
Class HashSync (Spec Srv : Type) : Type := {
  rsAndPodsWithHashKeySynced : Deployment Spec → Srv → Srv * result string (list (RS Spec) * list Pod);
}.

(** [ReplicaSetsByCreationTimestamp.Less], on objects. *)
Definition creation_Less (a b : ReplicaSet) : bool :=
  ByCreationTimestamp_Less (mkOwner (rs_Name a) (rs_CreationTimestamp a) (rs_Replicas a))
    (mkOwner (rs_Name b) (rs_CreationTimestamp b) (rs_Replicas b)).

Definition with_Replicas {Spec} (n : Z) (o : RS Spec) : RS Spec :=
  let r := rs o in
  mkRS (mkReplicaSet (rs_Namespace r) (rs_Name r) (rs_CreationTimestamp r) (rs_Generation r) n
    (rs_Selector r) (rs_Status_Replicas r) (rs_ObservedGeneration r)) (rs_Annotations o) (rs_Template o).

Definition with_rs_Annotations {Spec} (a : Set_) (o : RS Spec) : RS Spec := mkRS (rs o) a (rs_Template o).

Definition with_d_Annotations {Spec} (a : Set_) (d : Deployment Spec) : Deployment Spec :=
  mkDeployment (d_Namespace d) (d_Name d) (d_Generation d) a (d_Replicas d) (d_Selector d)
    (d_Template d) (d_StrategyType d) (d_RollingUpdate d) (d_MinReadySeconds d) (d_RevisionHistoryLimit d)
    (d_Paused d) (d_RollbackTo d) (d_Status d).

Definition with_RollbackTo {Spec} (r : option Z) (d : Deployment Spec) : Deployment Spec :=
  mkDeployment (d_Namespace d) (d_Name d) (d_Generation d) (d_Annotations d) (d_Replicas d) (d_Selector d)
    (d_Template d) (d_StrategyType d) (d_RollingUpdate d) (d_MinReadySeconds d) (d_RevisionHistoryLimit d)
    (d_Paused d) r (d_Status d).

Definition with_Status {Spec} (s : DeploymentStatus) (d : Deployment Spec) : Deployment Spec :=
  mkDeployment (d_Namespace d) (d_Name d) (d_Generation d) (d_Annotations d) (d_Replicas d) (d_Selector d)
    (d_Template d) (d_StrategyType d) (d_RollingUpdate d) (d_MinReadySeconds d) (d_RevisionHistoryLimit d)
    (d_Paused d) (d_RollbackTo d) s.

Section controller.
Context {Spec Srv : Type} `{EqDecision Spec} `{A : API Spec Srv} `{TH : TemplateHash Spec} `{HS : HashSync Spec Srv}.
Context `{R : RangeOrder} `{K : KeySort} `{FC : FloatConv}.

(** The order of two pointers. *)
Definition ptr_Less (h : gmap nat (RS Spec)) (p q : nat) : bool :=
  match h !! p, h !! q with
  | Some a, Some b => creation_Less (rs a) (rs b)
  | _, _ => false
  end.

Context `{rsSort : ∀ h, Sorts (ptr_Less h)}.

Definition sortByCreation (rss : list nat) : M Spec Srv (list nat) :=
  gets (λ st, sort (ptr_Less (heap st)) rss).

(** [FilterActiveReplicaSets], on pointers. *)
Definition FilterActive (rss : list nat) : M Spec Srv (list nat) :=
  gets (λ st, filter (λ p, 0 < replicasOf (heap st) p) rss).

(** ** Scaling *)

Definition enqueueDeployment (d : Deployment Spec) : M Spec Srv unit :=
  match DeletionHandlingMetaNamespaceKeyFunc (IObj d) with
  | Err _ => mret tt
  | Ok key => modify (λ st, with_dqueue (WorkQueue.Add key (dqueue st)).1 st)
  end.

(** The object is changed in place, whether or not the server accepts it. *)
Definition scaleReplicaSet (p : nat) (newScale : Z) : M Spec Srv (RS Spec) :=
  o ← deref p;
  let o := with_Replicas newScale o in
  modify (λ st, with_heap (<[p := o]> (heap st)) st);;
  request (server_UpdateRS o).

Definition scaleReplicaSetAndRecordEvent (p : nat) (newScale : Z) : M Spec Srv bool :=
  h ← gets heap;
  if Z.eqb (replicasOf h p) newScale then mret false
  else
    r ← try (scaleReplicaSet p newScale);
    match r with
    | Ok _ => mret true
    | Err err => d ← gets dep; enqueueDeployment d;; fail err
    end.

(** ** The rolling update *)

Definition reconcileNewReplicaSet (allRSs : list (option nat)) (newRS : nat) : M Spec Srv bool :=
  d ← gets dep;
  h ← gets heap;
  if Z.eqb (replicasOf h newRS) (d_Replicas d) then mret false
  else if d_Replicas d <? replicasOf h newRS then scaleReplicaSetAndRecordEvent newRS (d_Replicas d)
  else
    newReplicasCount ← NewRSNewReplicas d allRSs newRS;
    scaleReplicaSetAndRecordEvent newRS newReplicasCount.

Fixpoint cleanupLoop (oldRSs : list nat) (maxCleanupCount totalScaledDown : Z) : M Spec Srv Z :=
  match oldRSs with
  | [] => mret totalScaledDown
  | targetRS :: oldRSs =>
      if maxCleanupCount <=? totalScaledDown then mret totalScaledDown
      else
        h ← gets heap;
        if Z.eqb (replicasOf h targetRS) 0 then cleanupLoop oldRSs maxCleanupCount totalScaledDown
        else
          readyPodCount ← wrap "could not find available pods: " (GetAvailablePodsForReplicaSets [Some targetRS] 0);
          h ← gets heap;
          if Z.eqb (replicasOf h targetRS) readyPodCount then cleanupLoop oldRSs maxCleanupCount totalScaledDown
          else
            let scaledDownCount :=
              IntMin (int64 (maxCleanupCount - totalScaledDown)) (int64 (replicasOf h targetRS - readyPodCount)) in
            let newReplicasCount := int64 (replicasOf h targetRS - scaledDownCount) in
            scaleReplicaSetAndRecordEvent targetRS newReplicasCount;;
            cleanupLoop oldRSs maxCleanupCount (int64 (totalScaledDown + scaledDownCount))
  end.

Definition cleanupUnhealthyReplicas (oldRSs : list nat) (maxCleanupCount : Z) : M Spec Srv Z :=
  oldRSs ← sortByCreation oldRSs; cleanupLoop oldRSs maxCleanupCount 0.

Fixpoint scaleDownLoop (oldRSs : list nat) (totalScaleDownCount totalScaledDown : Z) : M Spec Srv Z :=
  match oldRSs with
  | [] => mret totalScaledDown
  | targetRS :: oldRSs =>
      if totalScaleDownCount <=? totalScaledDown then mret totalScaledDown
      else
        h ← gets heap;
        if Z.eqb (replicasOf h targetRS) 0 then scaleDownLoop oldRSs totalScaleDownCount totalScaledDown
        else
          let scaleDownCount :=
            IntMin (replicasOf h targetRS) (int64 (totalScaleDownCount - totalScaledDown)) in
          let newReplicasCount := int64 (replicasOf h targetRS - scaleDownCount) in
          scaleReplicaSetAndRecordEvent targetRS newReplicasCount;;
          scaleDownLoop oldRSs totalScaleDownCount (int64 (totalScaledDown + scaleDownCount))
  end.

(** The fence posts of the deployment: a nil [RollingUpdate] is dereferenced. *)
Definition fenceposts (d : Deployment Spec) : M Spec Srv (Z * Z) :=
  match d_RollingUpdate d with
  | None => panic
  | Some ru => lift (ResolveFenceposts (MaxSurge ru) (MaxUnavailable ru) (d_Replicas d))
  end.

Definition scaleDownOldReplicaSetsForRollingUpdate (allRSs : list (option nat)) (oldRSs : list nat) : M Spec Srv Z :=
  d ← gets dep;
  '(_, maxUnavailable) ← fenceposts d;
  let minAvailable := int64 (d_Replicas d - maxUnavailable) in
  readyPodCount ← wrap "could not find available pods: "
    (GetAvailablePodsForReplicaSets allRSs (d_MinReadySeconds d));
  if readyPodCount <=? minAvailable then mret 0
  else
    oldRSs ← sortByCreation oldRSs;
    scaleDownLoop oldRSs (int64 (readyPodCount - minAvailable)) 0.

Definition reconcileOldReplicaSets (allRSs : list (option nat)) (oldRSs : list nat) (newRS : nat) : M Spec Srv bool :=
  d ← gets dep;
  h ← gets heap;
  if Z.eqb (GetReplicaCountForReplicaSets (Some <$> oldRSs) h) 0 then mret false
  else
    let allPodsCount := GetReplicaCountForReplicaSets allRSs h in
    newRSAvailablePodCount ← wrap "could not find available pods: "
      (GetAvailablePodsForReplicaSets [Some newRS] (d_MinReadySeconds d));
    '(_, maxUnavailable) ← fenceposts d;
    let minAvailable := int64 (d_Replicas d - maxUnavailable) in
    let newRSUnavailablePodCount := int64 (replicasOf h newRS - newRSAvailablePodCount) in
    let maxScaledDown := int64 (int64 (allPodsCount - minAvailable) - newRSUnavailablePodCount) in
    if maxScaledDown <=? 0 then mret false
    else
      cleanup ← try (cleanupUnhealthyReplicas oldRSs maxScaledDown);
      match cleanup with
      | Err _ => mret false
      | Ok cleanupCount =>
          scaledDown ← try (scaleDownOldReplicaSetsForRollingUpdate allRSs oldRSs);
          match scaledDown with
          | Err _ => mret false
          | Ok scaledDownCount => mret (0 <? int64 (cleanupCount + scaledDownCount))
          end
      end.

(** ** Recreate *)

Fixpoint scaleDownOldReplicaSetsForRecreate (oldRSs : list nat) (scaled : bool) : M Spec Srv bool :=
  match oldRSs with
  | [] => mret scaled
  | p :: oldRSs =>
      h ← gets heap;
      if Z.eqb (replicasOf h p) 0 then scaleDownOldReplicaSetsForRecreate oldRSs scaled
      else
        scaledRS ← scaleReplicaSetAndRecordEvent p 0;
        scaleDownOldReplicaSetsForRecreate oldRSs (if scaledRS : bool then true else scaled)
  end.

Definition scaleUpNewReplicaSetForRecreate (newRS : nat) : M Spec Srv bool :=
  d ← gets dep; scaleReplicaSetAndRecordEvent newRS (d_Replicas d).

(** ** Status *)

(** Total, updated, available and unavailable replicas. *)
Definition calculateStatus (allRSs : list (option nat)) (newRS : option nat) : M Spec Srv (Z * Z * Z * Z) :=
  d ← gets dep;
  h ← gets heap;
  let totalActualReplicas := GetActualReplicaCountForReplicaSets allRSs h in
  let updatedReplicas := GetActualReplicaCountForReplicaSets [newRS] h in
  availableReplicas ← wrap "failed to count available pods: "
    (GetAvailablePodsForReplicaSets allRSs (d_MinReadySeconds d));
  let totalReplicas := GetReplicaCountForReplicaSets allRSs h in
  mret (totalActualReplicas, updatedReplicas, availableReplicas, int64 (totalReplicas - availableReplicas)).

Definition updateDeploymentStatus (allRSs : list (option nat)) (newRS : option nat) : M Spec Srv unit :=
  '(totalActualReplicas, updatedReplicas, availableReplicas, unavailableReplicas) ← calculateStatus allRSs newRS;
  d ← gets dep;
  request_ (server_UpdateStatus (with_Status
    (mkDStatus (d_Generation d) totalActualReplicas updatedReplicas availableReplicas unavailableReplicas) d)).

Definition syncDeploymentStatus (allRSs : list (option nat)) (newRS : option nat) : M Spec Srv unit :=
  '(totalActualReplicas, updatedReplicas, availableReplicas, _) ← calculateStatus allRSs newRS;
  d ← gets dep;
  let s := d_Status d in
  if (ds_ObservedGeneration s <? d_Generation d) || negb (Z.eqb (ds_Replicas s) totalActualReplicas) ||
     negb (Z.eqb (ds_UpdatedReplicas s) updatedReplicas) || negb (Z.eqb (ds_AvailableReplicas s) availableReplicas)
  then updateDeploymentStatus allRSs newRS
  else mret tt.

(** ** Old replica sets *)

(** The loop over the [diff] oldest; deletions that fail are collected. *)
Fixpoint cleanupOldLoop (rss : list nat) (diff : nat) (errList : list string) : M Spec Srv (list string) :=
  match diff with
  | O => mret errList
  | S diff =>
      match rss with
      | [] => panic
      | p :: rss =>
          o ← deref p;
          if negb (Z.eqb (rs_Status_Replicas (rs o)) 0) || negb (Z.eqb (rs_Replicas (rs o)) 0) ||
             (rs_ObservedGeneration (rs o) <? rs_Generation (rs o))
          then cleanupOldLoop rss diff errList
          else
            r ← try (request_ (server_DeleteRS (rs_Namespace (rs o)) (rs_Name (rs o))));
            cleanupOldLoop rss diff
              (match r with
               | Err err => if IsNotFound err then errList else errList ++ [err]
               | Ok _ => errList
               end)
      end
  end.

(** The error that it returns is not looked at. *)
Definition cleanupOldReplicaSets (oldRSs : list nat) (revisionHistoryLimit : Z) : M Spec Srv (list string) :=
  let diff := int64 (Z.of_nat (length oldRSs) - revisionHistoryLimit) in
  if diff <=? 0 then mret []
  else
    oldRSs ← sortByCreation oldRSs;
    cleanupOldLoop oldRSs (Z.to_nat diff) [].

Definition cleanupHistory (oldRSs : list nat) : M Spec Srv unit :=
  d ← gets dep;
  match d_RevisionHistoryLimit d with
  | Some limit => cleanupOldReplicaSets oldRSs limit;; mret tt
  | None => mret tt
  end.

(** ** Revisions *)

Definition maxRevision (allRSs : list (RS Spec)) : Z :=
  foldl (λ max o, match Revision o with Err _ => max | Ok v => if max <? v then v else max end) 0 allRSs.

(** The second largest revision. *)
Definition lastRevision (allRSs : list (RS Spec)) : Z :=
  (foldl (λ '(max, secMax) o,
    match Revision o with
    | Err _ => (max, secMax)
    | Ok v => if max <=? v then (v, max) else if secMax <? v then (max, v) else (max, secMax)
    end) (0, 0) allRSs).2.

(** The annotation of a key, "" when there is none. *)
Definition annotation (a : Set_) (k : string) : string := default "" (a !! k).

(** The annotations of the replica set, and whether they changed. *)
Definition copyDeploymentAnnotationsToReplicaSet (d : Deployment Spec) (a : Set_) : Set_ * bool :=
  foldl (λ '(a, rsAnnotationsChanged) '(k, v),
    if bool_decide (k = LastAppliedConfigAnnotation) || bool_decide (k = RevisionAnnotation) ||
       bool_decide (annotation a k = v)
    then (a, rsAnnotationsChanged)
    else (<[k := v]> a, true)) (a, false) (range_map (d_Annotations d)).

(** Revisions are compared as strings. *)
Definition setNewReplicaSetAnnotations (d : Deployment Spec) (o : RS Spec) (newRevision : string) : RS Spec * bool :=
  let '(a, annotationChanged) := copyDeploymentAnnotationsToReplicaSet d (rs_Annotations o) in
  if string_lt (annotation a RevisionAnnotation) newRevision
  then (with_rs_Annotations (<[RevisionAnnotation := newRevision]> a) o, true)
  else (with_rs_Annotations a o, annotationChanged).

Definition updateDeployment : M Spec Srv unit :=
  d ← gets dep; request_ (server_UpdateDeployment d).

(** The deployment of the local copy is changed first. *)
Definition updateDeploymentRevision (revision : string) : M Spec Srv unit :=
  d ← gets dep;
  if negb (bool_decide (annotation (d_Annotations d) RevisionAnnotation = revision)) then
    modify (with_dep (with_d_Annotations (<[RevisionAnnotation := revision]> (d_Annotations d)) d));;
    updateDeployment
  else mret tt.

Definition alloc (o : RS Spec) : M Spec Srv nat :=
  h ← gets heap;
  let p := fresh (dom h) in
  modify (with_heap (<[p := o]> h));; mret p.

Fixpoint allocAll (l : list (RS Spec)) : M Spec Srv (list nat) :=
  match l with
  | [] => mret []
  | o :: l => p ← alloc o; ps ← allocAll l; mret (p :: ps)
  end.

Definition getNewReplicaSet (maxOldRevision : Z) (oldRSs : list nat) (createIfNotExisted : bool) :
    M Spec Srv (option nat) :=
  d ← gets dep;
  let newRevision := FormatInt (int64 (maxOldRevision + 1)) in
  synced ← try (request (rsAndPodsWithHashKeySynced d));
  existingNewRS ← lift (GetNewReplicaSetFromList d synced);
  match existingNewRS with
  | Some o =>
      let '(o, annotationChanged) := setNewReplicaSetAnnotations d o newRevision in
      if annotationChanged : bool then o ← request (server_UpdateRS o); p ← alloc o; mret (Some p)
      else p ← alloc o; mret (Some p)
  | None =>
      if negb createIfNotExisted then mret None
      else
        let podTemplateSpecHash := GetPodTemplateSpecHash (d_Template d) in
        newRSSelector ←
          (match CloneSelectorAndAddLabel (d_Selector d) DefaultDeploymentUniqueLabelKey podTemplateSpecHash with
           | Panics => panic
           | Returns sel => mret sel
           end);
        let newRS := mkRS (mkReplicaSet (d_Namespace d) (d_Name d +:+ "-" +:+ FormatInt podTemplateSpecHash)
          0 0 0 newRSSelector 0 0) ∅ (GetNewReplicaSetTemplate d) in
        let newRS := (setNewReplicaSetAnnotations d newRS newRevision).1 in
        p ← alloc newRS;
        newReplicasCount ← NewRSNewReplicas d ((Some <$> oldRSs) ++ [Some p]) p;
        let newRS := with_Replicas newReplicasCount newRS in
        modify (λ st, with_heap (<[p := newRS]> (heap st)) st);;
        created ← try (request (server_CreateRS newRS));
        match created with
        | Err err => enqueueDeployment d;; fail ("error creating replica set " +:+ d_Name d +:+ ": " +:+ err)
        | Ok createdRS =>
            p ← alloc createdRS;
            updateDeploymentRevision newRevision;;
            mret (Some p)
        end
  end.

(** The objects of a list of pointers. *)
Definition objects (h : gmap nat (RS Spec)) (rss : list nat) : list (RS Spec) := omap (λ p, h !! p) rss.

Definition getAllReplicaSetsAndSyncRevision (createIfNotExisted : bool) : M Spec Srv (option nat * list nat) :=
  d ← gets dep;
  synced ← try (request (rsAndPodsWithHashKeySynced d));
  '(_, allOld) ← lift (GetOldReplicaSetsFromLists d synced);
  allOldRSs ← allocAll allOld;
  newRS ← getNewReplicaSet (maxRevision allOld) allOldRSs createIfNotExisted;
  match newRS with
  | None => mret (None, allOldRSs)
  | Some p =>
      o ← deref p;
      d ← gets dep;
      let revision := annotation (rs_Annotations o) RevisionAnnotation in
      (if negb (bool_decide (revision = "")) &&
          negb (bool_decide (annotation (d_Annotations d) RevisionAnnotation = revision))
       then try (updateDeploymentRevision revision);; mret tt
       else mret tt);;
      mret (Some p, allOldRSs)
  end.

(** ** Rollback *)

Definition updateDeploymentAndClearRollbackTo : M Spec Srv unit :=
  d ← gets dep; modify (with_dep (with_RollbackTo None d));; updateDeployment.

Definition rollbackToTemplate (o : RS Spec) : M Spec Srv unit :=
  d ← gets dep;
  (if decide (GetNewReplicaSetTemplate d = rs_Template o) then mret tt
   else modify (with_dep (SetFromReplicaSetTemplate d (rs_Template o))));;
  updateDeploymentAndClearRollbackTo.

Fixpoint rollbackLoop (allRSs : list (RS Spec)) (toRevision : Z) : M Spec Srv unit :=
  match allRSs with
  | [] => updateDeploymentAndClearRollbackTo
  | o :: allRSs =>
      match Revision o with
      | Err _ => rollbackLoop allRSs toRevision
      | Ok v => if Z.eqb v toRevision then rollbackToTemplate o else rollbackLoop allRSs toRevision
      end
  end.

Definition rollback (toRevision : Z) : M Spec Srv unit :=
  '(newRS, allOldRSs) ← getAllReplicaSetsAndSyncRevision true;
  h ← gets heap;
  let allRSs := objects h (allOldRSs ++ option_list newRS) in
  if Z.eqb toRevision 0 then
    let toRevision := lastRevision allRSs in
    if Z.eqb toRevision 0 then updateDeploymentAndClearRollbackTo
    else rollbackLoop allRSs toRevision
  else rollbackLoop allRSs toRevision.

(** ** Syncing *)

(** [append(FilterActiveReplicaSets(oldRSs), newRS)] *)
Definition activeAndNew (oldRSs : list nat) (newRS : option nat) : M Spec Srv (list (option nat)) :=
  active ← FilterActive oldRSs; mret ((Some <$> active) ++ [newRS]).

Definition syncPausedDeploymentStatus : M Spec Srv unit :=
  '(newRS, oldRSs) ← getAllReplicaSetsAndSyncRevision false;
  allRSs ← activeAndNew oldRSs newRS;
  syncDeploymentStatus allRSs newRS.

Definition derefNew (newRS : option nat) : M Spec Srv nat :=
  match newRS with Some p => mret p | None => panic end.

(** [syncRollingUpdateDeployment], after the replica sets were found. *)
Definition rollingUpdate (newRS : option nat) (oldRSs : list nat) : M Spec Srv unit :=
  allRSs ← activeAndNew oldRSs newRS;
  p ← derefNew newRS;
  scaledUp ← reconcileNewReplicaSet allRSs p;
  if scaledUp : bool then updateDeploymentStatus allRSs newRS
  else
    active ← FilterActive oldRSs;
    scaledDown ← reconcileOldReplicaSets allRSs active p;
    if scaledDown : bool then updateDeploymentStatus allRSs newRS
    else
      cleanupHistory oldRSs;;
      syncDeploymentStatus allRSs newRS.

Definition syncRollingUpdateDeployment : M Spec Srv unit :=
  '(newRS, oldRSs) ← getAllReplicaSetsAndSyncRevision true;
  rollingUpdate newRS oldRSs.

Definition syncRecreateDeployment : M Spec Srv unit :=
  '(newRS, oldRSs) ← getAllReplicaSetsAndSyncRevision false;
  allRSs ← activeAndNew oldRSs newRS;
  active ← FilterActive oldRSs;
  scaledDown ← scaleDownOldReplicaSetsForRecreate active false;
  if scaledDown : bool then updateDeploymentStatus allRSs newRS
  else
    '(newRS, oldRSs, allRSs) ←
      (match newRS with
       | Some p => mret (newRS, oldRSs, allRSs)
       | None =>
           '(newRS, oldRSs) ← getAllReplicaSetsAndSyncRevision true;
           mret (newRS, oldRSs, (Some <$> oldRSs) ++ [newRS])
       end);
    p ← derefNew newRS;
    scaledUp ← scaleUpNewReplicaSetForRecreate p;
    if scaledUp : bool then updateDeploymentStatus allRSs newRS
    else
      cleanupHistory oldRSs;;
      syncDeploymentStatus allRSs newRS.

(** [syncDeployment], once the deployment was found. *)
Definition syncFound : M Spec Srv unit :=
  d ← gets dep;
  if d_Paused d then syncPausedDeploymentStatus
  else
    match d_RollbackTo d with Some revision => rollback revision | None => mret tt end;;
    d ← gets dep;
    match d_StrategyType d with
    | RecreateDeploymentStrategyType => syncRecreateDeployment
    | RollingUpdateDeploymentStrategyType => syncRollingUpdateDeployment
    | OtherStrategy t => fail ("unexpected deployment strategy type: " +:+ t)
    end.

(** *** The controller *)

Record DeploymentController : Type := mkDC {
  dStore : cache (Deployment Spec);
  rsStoreSynced : bool;
  dpodStoreSynced : bool;
  dcServer : Srv;
  dcQueue : Queue string;
}.

(** The store holds a pointer to the deployment: the changes show in it. *)
Definition writeBack (key : string) (d : Deployment Spec) (c : cache (Deployment Spec)) : cache (Deployment Spec) :=
  let s := cacheStorage c in
  mkCache (mkThreadSafeMap (<[key := d]> (items s)) (indexers s) (indices s)) (keyFunc c).

Definition syncDeployment (key : string) (dc : DeploymentController) : outcome (DeploymentController * option string) :=
  let again := mkDC (dStore dc) (rsStoreSynced dc) (dpodStoreSynced dc) (dcServer dc) (WorkQueue.Add key (dcQueue dc)).1 in
  if negb (rsStoreSynced dc) || negb (dpodStoreSynced dc) then Returns (again, None)
  else
    match Store.GetByKey key (dStore dc) with
    | Err _ => Returns (again, Some "unable to retrieve deployment")
    | Ok None => Returns (dc, None)
    | Ok (Some d) =>
        match syncFound (mkSt ∅ d (dcServer dc) (dcQueue dc)) with
        | Panics => Panics
        | Returns (st, r) =>
            Returns (mkDC (writeBack key (dep st) (dStore dc)) (rsStoreSynced dc) (dpodStoreSynced dc)
              (server st) (dqueue st), match r with Ok _ => None | Err e => Some e end)
        end
    end.

(** One turn of a worker: [None] when it would wait or quit. *)
Definition processNextDeployment (dc : DeploymentController) : option (outcome DeploymentController) :=
  match WorkQueue.Get (dcQueue dc) with
  | (q, Got key) => Some
      (match syncDeployment key (mkDC (dStore dc) (rsStoreSynced dc) (dpodStoreSynced dc) (dcServer dc) q) with
       | Returns (dc, _) => Returns (mkDC (dStore dc) (rsStoreSynced dc) (dpodStoreSynced dc) (dcServer dc)
           (WorkQueue.Done key (dcQueue dc)).1)
       | Panics => Panics
       end)
  | _ => None
  end.
End controller.
