(* ===== verification/Rollout.v ===== *)
(** * The rolling update

    What one sync of [rollingUpdate] does to the sizes of the replica sets, whatever
    the server answers; the abstract roll-out on two numbers that the syncs of a
    cluster that keeps up refine, and how soon it ends.  [wp] is the logic of
    [DeploymentUtil]. *)

From S2P Require Import Prelude.
From S2P Require Import ThreadSafeStore.
From S2P Require Import Store.
From S2P Require Import WorkQueue.
From S2P Require Import Informer.
From S2P Require Import Strconv.
From S2P Require Import IntStr.
From S2P Require Import Labels.
From S2P Require Import Pods.
From S2P Require Import Listers.
From S2P Require Import DeploymentUtil.

From S2P Require Import Deployment.

#[local] Open Scope Z_scope.

(** ** Facts *)

Section facts.
Context {Spec Srv : Type} `{EqDecision Spec} `{A : API Spec Srv} `{TH : TemplateHash Spec} `{HS : HashSync Spec Srv}.
Context `{R : RangeOrder} `{K : KeySort} `{FC : FloatConv} `{rsSort : ∀ h, Sorts (ptr_Less (Spec := Spec) h)}.
Implicit Types (h : gmap nat (RS Spec)) (st : St Spec Srv) (p : nat).

Lemma replicasOf_insert_eq h p o n : replicasOf (<[p := with_Replicas n o]> h) p = n.
Proof. unfold replicasOf. by rewrite lookup_insert_eq. Qed.

Lemma replicasOf_insert_ne h p q o : p ≠ q → replicasOf (<[p := o]> h) q = replicasOf h q.
Proof. intros. unfold replicasOf. by rewrite lookup_insert_ne. Qed.

Lemma with_Replicas_same (o : RS Spec) : with_Replicas (rs_Replicas (rs o)) o = o.
Proof. by destruct o as [[]]. Qed.

(** Only the objects of [l] may have changed. *)
Definition only_changes (l : list nat) h h' : Prop := dom h' = dom h ∧ ∀ q, q ∉ l → h' !! q = h !! q.

Lemma only_changes_refl l h : only_changes l h h.
Proof. done. Qed.

Lemma only_changes_trans l h1 h2 h3 : only_changes l h1 h2 → only_changes l h2 h3 → only_changes l h1 h3.
Proof. intros [Hd H] [Hd' H']. split; [congruence|]. intros q Hq. by rewrite H', H. Qed.

Lemma only_changes_mono l l' h h' : l ⊆ l' → only_changes l h h' → only_changes l' h h'.
Proof. intros Hl [Hd H]. split; [done|]. intros q Hq. apply H. set_solver. Qed.

Lemma only_changes_insert h p o o' : h !! p = Some o → only_changes [p] h (<[p := o']> h).
Proof.
  intros Ho. split; [rewrite dom_insert_lookup_L; [done|by eexists]|].
  intros q Hq. apply lookup_insert_ne. set_solver.
Qed.

Lemma only_changes_valid l l' h h' : only_changes l h h' → valid h l' → valid h' l'.
Proof. intros [Hd _] Hv p Hp. apply elem_of_dom. rewrite Hd. by apply elem_of_dom, Hv. Qed.

Lemma only_changes_replicas l h h' q : only_changes l h h' → q ∉ l → replicasOf h' q = replicasOf h q.
Proof. intros [_ H] Hq. unfold replicasOf. by rewrite H. Qed.

Lemma enqueue_wp d st : wp (enqueueDeployment d) (λ r st', r = Ok tt ∧ heap st' = heap st ∧ dep st' = dep st ∧ server st' = server st) st.
Proof. unfold enqueueDeployment. destruct (DeletionHandlingMetaNamespaceKeyFunc _); by wp. Qed.

(** The result of scaling: nothing happens when the size is right, otherwise the
    server is told. *)
Definition scaled p (n : Z) (o : RS Spec) st (r : result string bool) st' : Prop :=
  if replicasOf (heap st) p =? n then r = Ok false ∧ st' = st
  else
    let '(s, res) := server_UpdateRS (with_Replicas n o) (server st) in
    server st' = s ∧ r = match res with Ok _ => Ok true | Err e => Err e end.

(** Scaling sets the size in place, even when the server refuses. *)
Lemma scale_wp st p n o : heap st !! p = Some o →
  wp (scaleReplicaSetAndRecordEvent p n) (λ r st',
    heap st' = <[p := with_Replicas n o]> (heap st) ∧ dep st' = dep st ∧ scaled p n o st r st') st.
Proof.
  intros Ho. unfold scaleReplicaSetAndRecordEvent, scaled. wp. unfold replicasOf. rewrite Ho.
  destruct (Z.eqb_spec (rs_Replicas (rs o)) n) as [<-|Hne].
  { wp. by rewrite with_Replicas_same, insert_id. }
  apply wp_bind, wp_try. unfold scaleReplicaSet. apply wp_bind. unfold wp at 1, deref. rewrite Ho. wp.
  apply wp_request. intros s r Hr. destruct r as [o'|e]; cbn in Hr; wp; rewrite Hr; [done|].
  eapply wp_mono; [apply enqueue_wp|]. cbn. intros r' st' (-> & -> & -> & ->). by wp.
Qed.

(** What both loops over the old replica sets keep: nothing else changes, and
    sizes go down to zero at most. *)
Definition shrinks (l : list nat) h h' : Prop :=
  only_changes l h h' ∧ ∀ p, p ∈ l → 0 <= replicasOf h' p <= replicasOf h p.

Lemma shrinks_refl l h : (∀ p, p ∈ l → 0 <= replicasOf h p) → shrinks l h h.
Proof. intros Hl. split; [done|]. intros p Hp. specialize (Hl p Hp). lia. Qed.

(** Shrinking the first, then the others. *)
Lemma shrinks_cons l h p o n h' : p ∉ l → h !! p = Some o → 0 <= n <= replicasOf h p →
  shrinks l (<[p := with_Replicas n o]> h) h' →
  shrinks (p :: l) h h' ∧ sumReplicas h' (p :: l) = n + sumReplicas h' l.
Proof.
  intros Hp Ho Hn [Hc Hs]. assert (replicasOf h' p = n) as Hr.
  { rewrite (only_changes_replicas _ _ _ _ Hc) by done. apply replicasOf_insert_eq. }
  split; [split|by rewrite sumReplicas_cons, Hr].
  - eapply only_changes_trans; [eapply only_changes_mono, (only_changes_insert h p o); [set_solver|done]|].
    eapply only_changes_mono; [|done]. set_solver.
  - intros q [->|Hq]%elem_of_cons; [lia|]. specialize (Hs q Hq).
    by rewrite replicasOf_insert_ne in Hs by (intros ->; done).
Qed.

Lemma sane_cons h p l : sane h (p :: l) →
  0 <= replicasOf h p ∧ 0 <= sumReplicas h l ∧ replicasOf h p + sumReplicas h l <= 2 ^ 60 ∧ sane h l.
Proof.
  intros [Hl Hs]. pose proof (Hl p (list_elem_of_here _ _)). pose proof (sumReplicas_nonneg h l ltac:(set_solver)).
  rewrite sumReplicas_cons in Hs.
  split_and!; [done..|]. split; [set_solver|lia].
Qed.

Lemma sane_insert h p o l : p ∉ l → sane h l → sane (<[p := o]> h) l ∧ sumReplicas (<[p := o]> h) l = sumReplicas h l.
Proof.
  intros Hp [Hl Hs]. assert (∀ q, q ∈ l → replicasOf (<[p := o]> h) q = replicasOf h q) as He.
  { intros q Hq. apply replicasOf_insert_ne. by intros ->. }
  assert (sumReplicas (<[p := o]> h) l = sumReplicas h l) as Hsum by by apply sumReplicas_ext.
  split; [|done]. split; [|by rewrite Hsum]. intros q Hq. rewrite He by done. by apply Hl.
Qed.

(** The old replica sets shrink, and [Q] holds of the result and of the number of
    replicas that were taken. *)
Definition shrink_post (l : list nat) st (Q : result string Z → Z → Prop) (r : result string Z) st' : Prop :=
  shrinks l (heap st) (heap st') ∧ dep st' = dep st ∧ Q r (sumReplicas (heap st) l - sumReplicas (heap st') l).

Lemma shrink_stop l st (Q : result string Z → Z → Prop) r st' : sane (heap st) l → heap st' = heap st → dep st' = dep st →
  Q r 0 → shrink_post l st Q r st'.
Proof.
  intros Hs Hh Hd HQ. unfold shrink_post. rewrite Hh, Z.sub_diag. split; [by apply shrinks_refl, Hs|done].
Qed.

(** The first is left alone. *)
Lemma shrink_skip p l st st1 Q r st' : p ∉ l → 0 <= replicasOf (heap st) p → heap st1 = heap st → dep st1 = dep st →
  shrink_post l st1 Q r st' → shrink_post (p :: l) st Q r st'.
Proof.
  intros Hp Hr Hh Hd ([Hc Hsh] & Hd' & HQ). rewrite Hh in Hc, Hsh, HQ.
  pose proof (only_changes_replicas _ _ _ _ Hc Hp) as Hp'. split; [split|split; [congruence|]].
  - eapply only_changes_mono; [|done]. set_solver.
  - intros q [->|Hq]%elem_of_cons; [lia|by apply Hsh].
  - rewrite !sumReplicas_cons, Hp'. eapply eq_ind; [exact HQ|lia].
Qed.

(** What the server does during a sync, that may concern the pods of [p]: listing,
    and scaling other replica sets. *)
Definition moves h p (s s' : Srv) : Prop :=
  lists s s' ∨ ∃ q o n, q ≠ p ∧ h !! q = Some o ∧ s' = (server_UpdateRS (with_Replicas n o) s).1.

(** Counting never finds more than the size of a replica set, until it is scaled. *)
Definition no_surplus (l : list nat) st : Prop := ∀ p st', p ∈ l →
  rtc (moves (heap st) p) (server st) (server st') → heap st' !! p = heap st !! p →
  wp (GetAvailablePodsForReplicaSets [Some p] 0)
    (λ r _, match r with Ok n => n <= replicasOf (heap st) p | Err _ => True end) st'.

Lemma lists_moves h p s s' : rtc lists s s' → rtc (moves h p) s s'.
Proof. apply rtc_subrel. by left. Qed.

Lemma no_surplus_lists l st s : rtc lists (server st) s → no_surplus l st → no_surplus l (with_server s st).
Proof.
  intros Hs H p st' Hp Hm Hh. cbn in Hm. apply H; [done| |done]. etrans; [|exact Hm]. by apply lists_moves.
Qed.

Lemma no_surplus_perm l l' st : l ≡ₚ l' → no_surplus l st → no_surplus l' st.
Proof. intros Hl H p st' Hp. apply H. by rewrite Hl. Qed.

(** The others, once the first was scaled. *)
Lemma no_surplus_scaled p l n o st r st1 : p ∉ l → heap st !! p = Some o → heap st1 = <[p := with_Replicas n o]> (heap st) →
  scaled p n o st r st1 → no_surplus (p :: l) st → no_surplus l st1.
Proof.
  intros Hp Ho Hh Hsc H q st' Hq Hm Hq'. assert (q ≠ p) as Hne by (intros ->; done).
  assert (replicasOf (heap st1) q = replicasOf (heap st) q) as ->.
  { rewrite Hh. by apply replicasOf_insert_ne. }
  apply H; [by right| |by rewrite Hq', Hh, lookup_insert_ne].
  transitivity (server st1).
  - unfold scaled in Hsc. destruct (_ =? _); [destruct Hsc as [_ ->]; done|].
    destruct (server_UpdateRS _ _) as [s res] eqn:Hs. destruct Hsc as [-> _].
    apply rtc_once. right. exists p, o, n. by rewrite Hs.
  - eapply rtc_subrel; [|exact Hm]. intros s s' [?|(q' & o' & n' & Hq'' & Ho' & ->)]; [by left|right].
    rewrite Hh in Ho'. destruct (decide (q' = p)) as [->|Hne'].
    + rewrite lookup_insert_eq in Ho'. injection Ho' as <-. by exists p, o, n'.
    + rewrite lookup_insert_ne in Ho' by done. by exists q', o', n'.
Qed.

(** The first gives [c], then the others. *)
Lemma shrink_step p l c st (k : M Spec Srv Z) (Q Qk : result string Z → Z → Prop) :
  p ∉ l → valid (heap st) (p :: l) → sane (heap st) (p :: l) → 0 <= c <= replicasOf (heap st) p →
  (∀ e, Q (Err e) c) → (∀ r x, Qk r x → Q r (c + x)) →
  (∀ st1, valid (heap st1) l → sane (heap st1) l → sumReplicas (heap st1) l = sumReplicas (heap st) l →
    (no_surplus (p :: l) st → no_surplus l st1) → wp k (shrink_post l st1 Qk) st1) →
  wp (scaleReplicaSetAndRecordEvent p (int64 (replicasOf (heap st) p - c));; k) (shrink_post (p :: l) st Q) st.
Proof.
  intros Hp Hv Hs Hc He HQ Hk. pose proof (sane_cons _ _ _ Hs) as (Hrp & Hsl & Hle & Hs').
  destruct (Hv p) as [o Ho]; [left|]. rewrite int64_id by lia.
  apply wp_bind. eapply wp_mono; [by apply scale_wp|]. cbn. intros r st1 (Hh & Hd & Hr).
  pose proof (no_surplus_scaled p l _ o st r st1 Hp Ho Hh Hr) as Hsur. clear Hr.
  destruct (sane_insert (heap st) p (with_Replicas (replicasOf (heap st) p - c) o) l Hp Hs') as [Hs1 Hsum].
  rewrite <- Hh in Hs1, Hsum.
  assert (∀ r' st', shrinks l (heap st1) (heap st') → dep st' = dep st1 →
    Q r' (c + (sumReplicas (heap st1) l - sumReplicas (heap st') l)) → shrink_post (p :: l) st Q r' st') as Hpost.
  { intros r' st' Hsh Hd' HQ'. rewrite Hh in Hsh.
    destruct (shrinks_cons l (heap st) p o (replicasOf (heap st) p - c) (heap st') Hp Ho ltac:(lia) Hsh) as [Hsh' Hsum'].
    split; [done|]. split; [congruence|]. rewrite Hsum', sumReplicas_cons, <- Hsum. eapply eq_ind; [exact HQ'|lia]. }
  destruct r as [b|e].
  - eapply wp_mono; [apply Hk; [|done..]|].
    + rewrite Hh. eapply only_changes_valid; [by eapply only_changes_insert|]. intros q Hq. apply Hv. by right.
    + intros r' st' (Hsh & Hd' & HQ'). apply Hpost; [done..|]. by apply HQ.
  - apply Hpost; [by apply shrinks_refl, Hs1|done|]. by rewrite Z.sub_diag, Z.add_0_r.
Qed.

(** The rolling update takes the count, oldest first, as far as it goes. *)
Lemma scaleDownLoop_wp l : ∀ T t st, NoDup l → valid (heap st) l → sane (heap st) l → 0 <= t <= T → T <= 2 ^ 62 →
  wp (scaleDownLoop l T t) (shrink_post l st (λ r x, match r with
    | Ok n => n = t + x ∧ x = Z.min (T - t) (sumReplicas (heap st) l)
    | Err _ => 0 <= x <= T - t
    end)) st.
Proof.
  induction l as [|p l IH]; intros T t st Hnd Hv Hs Ht HT; cbn [scaleDownLoop].
  { wp. apply shrink_stop; try done. change (sumReplicas (heap st) []) with 0. lia. }
  apply NoDup_cons in Hnd as [Hp Hnd]. pose proof (sane_cons _ _ _ Hs) as (Hrp & Hsl & Hle & Hs').
  rewrite sumReplicas_cons. destruct (Z.leb_spec T t); [wp; apply shrink_stop; try done; lia|].
  wp. destruct (Z.eqb_spec (replicasOf (heap st) p) 0) as [Hz|Hz].
  { eapply wp_mono; [apply IH; [done|intros q Hq; apply Hv; by right|done..]|].
    intros r st'. rewrite Hz. by apply shrink_skip. }
  rewrite IntMin_min, (int64_id (T - t)) by lia. set (c := Z.min (replicasOf (heap st) p) (T - t)).
  rewrite (int64_id (t + c)) by lia. apply (shrink_step p l c st _ _ (λ r x, match r with
    | Ok n => n = t + c + x ∧ x = Z.min (T - (t + c)) (sumReplicas (heap st) l)
    | Err _ => 0 <= x <= T - (t + c) end)); try done; [lia|intros e; lia|intros []; lia|].
  intros st1 Hv1 Hs1 Hsum _. rewrite <- Hsum. apply IH; try done; lia.
Qed.

(** Cleaning up then removes at most the count. *)
Lemma cleanupLoop_wp l : ∀ m t st, no_surplus l st → NoDup l → valid (heap st) l → sane (heap st) l →
  0 <= t <= 2 ^ 62 → 0 <= m <= 2 ^ 62 →
  wp (cleanupLoop l m t) (shrink_post l st (λ r x, 0 <= x <= Z.max 0 (m - t) ∧ ∀ n, r = Ok n → n = t + x)) st.
Proof.
  induction l as [|p l IH]; intros m t st Hsur Hnd Hv Hs Ht Hm; cbn [cleanupLoop].
  { wp. apply shrink_stop; try done. split; [lia|]. intros n [= <-]. lia. }
  apply NoDup_cons in Hnd as [Hp Hnd]. pose proof (sane_cons _ _ _ Hs) as (Hrp & Hsl & Hle & Hs').
  destruct (Z.leb_spec m t).
  { wp. apply shrink_stop; try done. split; [lia|]. intros n [= <-]. lia. }
  assert (∀ s, rtc lists (server st) s → wp (cleanupLoop l m t)
    (shrink_post (p :: l) st (λ r x, 0 <= x <= Z.max 0 (m - t) ∧ ∀ n, r = Ok n → n = t + x)) (with_server s st)) as Hskip.
  { intros s Hls. eapply wp_mono.
    - apply IH; try done; [|intros q Hq; apply Hv; by right]. apply no_surplus_lists; [done|].
      intros q st' Hq. apply Hsur. by right.
    - intros r st'. by apply shrink_skip. }
  assert (wp (cleanupLoop l m t)
    (shrink_post (p :: l) st (λ r x, 0 <= x <= Z.max 0 (m - t) ∧ ∀ n, r = Ok n → n = t + x)) st) as Hskip0.
  { specialize (Hskip (server st) ltac:(done)). by destruct st. }
  wp. destruct (Z.eqb_spec (replicasOf (heap st) p) 0) as [Hz|Hz]; [done|].
  apply wp_bind, wp_wrap. assert (valid (heap st) [p]) as Hvp by (intros q ->%list_elem_of_singleton; apply Hv; left).
  pose proof (GetAvailable_wp [p] 0 st Hvp) as Hav. pose proof (Hsur p st ltac:(left) ltac:(done) eq_refl) as Hle'.
  cbn [fmap list_fmap] in Hav. unfold wp in Hav, Hle' |- * at 1. destruct (GetAvailablePodsForReplicaSets [Some p] 0 st) as [[st1 [n|e]]|]; [|..|done].
  2: { destruct Hav as [(s & Hls & ->) _]. apply shrink_stop; try done. split; [lia|done]. }
  destruct Hav as [(s & Hls & ->) [Hn _]]. wp. cbn [heap with_server].
  destruct (Z.eqb_spec (replicasOf (heap st) p) n) as [Hready|Hready]; [by apply Hskip|].
  rewrite IntMin_min, (int64_id (m - t)), (int64_id (replicasOf (heap st) p - n)) by lia.
  set (c := Z.min (m - t) (replicasOf (heap st) p - n)). rewrite (int64_id (t + c)) by lia.
  apply (shrink_step p l c (with_server s st) _ _
    (λ r x, 0 <= x <= Z.max 0 (m - (t + c)) ∧ ∀ n, r = Ok n → n = t + c + x)); try done; cbn [heap with_server].
  - lia.
  - intros e. split; [lia|done].
  - intros r x [Hx Hr]. split; [lia|]. intros n' Hn'. specialize (Hr n' Hn'). lia.
  - intros st1 Hv1 Hs1 _ Hns. apply IH; try done; [|lia]. apply Hns. by apply no_surplus_lists.
Qed.

(** *** One sync *)

(** The fence posts of a rolling update, within bounds that validation keeps. *)
Definition resolves (d : Deployment Spec) (surge unavailable : Z) : Prop :=
  d_StrategyType d = RollingUpdateDeploymentStrategyType ∧
  ∃ ru, d_RollingUpdate d = Some ru ∧
    GetValueFromIntOrPercent (MaxSurge ru) (d_Replicas d) true = Ok surge ∧
    ResolveFenceposts (MaxSurge ru) (MaxUnavailable ru) (d_Replicas d) = Ok (surge, unavailable) ∧
    0 <= d_Replicas d <= 2 ^ 31 ∧ 0 <= surge <= 2 ^ 31 ∧ 0 <= unavailable <= 2 ^ 31.

(** One of the fence posts lets the update move. *)
Lemma resolves_positive d surge unavailable : resolves d surge unavailable → 1 <= surge + unavailable.
Proof.
  intros (_ & ru & _ & Hs & Hf & _ & Hs0 & Hu0). unfold ResolveFenceposts in Hf.
  rewrite Hs in Hf. cbn in Hf. destruct (GetValueFromIntOrPercent (MaxUnavailable ru) (d_Replicas d) false) as [u|e]; [|done].
  cbn in Hf. injection Hf as <-. destruct (Z.eqb_spec surge 0), (Z.eqb_spec u 0); cbn in *; lia.
Qed.

(** The size that the new replica set gets. *)
Definition target (desired surge total current : Z) : Z :=
  if desired <? current then desired
  else if desired + surge <=? total then current
  else current + Z.min (desired + surge - total) (desired - current).

Lemma target_nonneg desired surge total current : 0 <= desired → 0 <= surge → 0 <= current →
  0 <= target desired surge total current.
Proof. unfold target. destruct (_ <? _) eqn:?; [lia|]. destruct (_ <=? _) eqn:?; lia. Qed.

Lemma reconcileNew_wp st p l surge unavailable : resolves (dep st) surge unavailable →
  valid (heap st) (l ++ [p]) → sane (heap st) (l ++ [p]) →
  wp (reconcileNewReplicaSet (Some <$> (l ++ [p])) p) (λ r st', ∃ o n, heap st !! p = Some o ∧
    n = target (d_Replicas (dep st)) surge (sumReplicas (heap st) (l ++ [p])) (replicasOf (heap st) p) ∧
    heap st' = <[p := with_Replicas n o]> (heap st) ∧ dep st' = dep st ∧ scaled p n o st r st') st.
Proof.
  intros (Hty & ru & Hru & Hsurge & _ & Hd & Hs & Hu) Hv Hsane. destruct (Hv p) as [o Ho]; [set_solver|].
  assert (0 <= replicasOf (heap st) p <= sumReplicas (heap st) (l ++ [p])) as Hp.
  { split; [apply Hsane; set_solver|]. apply sumReplicas_elem; [set_solver|]. apply Hsane. }
  pose proof (proj2 Hsane). unfold reconcileNewReplicaSet, target. wp.
  destruct (Z.eqb_spec (replicasOf (heap st) p) (d_Replicas (dep st))) as [E|E].
  { wp. exists o, (replicasOf (heap st) p). split; [done|]. rewrite <- E, Z.ltb_irrefl. split.
    - destruct (Z.leb_spec (replicasOf (heap st) p + surge) (sumReplicas (heap st) (l ++ [p]))); lia.
    - assert (replicasOf (heap st) p = rs_Replicas (rs o)) as Hr by (unfold replicasOf; by rewrite Ho).
      unfold scaled. rewrite Z.eqb_refl, Hr, with_Replicas_same, insert_id by done. done. }
  destruct (Z.ltb_spec (d_Replicas (dep st)) (replicasOf (heap st) p)).
  { eapply wp_mono; [by apply scale_wp|]. cbn. intros r st' (Hh & Hdep & Hr). by exists o, (d_Replicas (dep st)). }
  unfold NewRSNewReplicas. rewrite Hty, Hru. apply wp_bind, wp_bind, wp_lift. rewrite Hsurge. wp.
  rewrite GetReplicaCount_sum, (int64_id (_ + surge)) by (done || lia).
  assert (∀ n, n = target (d_Replicas (dep st)) surge (sumReplicas (heap st) (l ++ [p])) (replicasOf (heap st) p) →
    wp (scaleReplicaSetAndRecordEvent p n) (λ r st', ∃ o n, heap st !! p = Some o ∧
    n = target (d_Replicas (dep st)) surge (sumReplicas (heap st) (l ++ [p])) (replicasOf (heap st) p) ∧
    heap st' = <[p := with_Replicas n o]> (heap st) ∧ dep st' = dep st ∧ scaled p n o st r st') st) as Hgo.
  { intros n Hn. eapply wp_mono; [by apply scale_wp|]. cbn. intros r st' (Hh & Hdep & Hr). by exists o, n. }
  unfold target in Hgo. rewrite (proj2 (Z.ltb_ge _ _)) in Hgo by lia.
  destruct (Z.leb_spec (d_Replicas (dep st) + surge) (sumReplicas (heap st) (l ++ [p]))); wp.
  - by apply Hgo.
  - rewrite IntMin_min, (int64_id (_ - sumReplicas _ _)), (int64_id (_ - replicasOf _ _)), int64_id by lia.
    by apply Hgo.
Qed.

Lemma fenceposts_wp d surge unavailable st Q : resolves d surge unavailable → Q (Ok (surge, unavailable)) st →
  wp (fenceposts d) Q st.
Proof. intros (_ & ru & Hru & _ & Hf & _) HQ. unfold fenceposts. rewrite Hru. apply wp_lift. by rewrite Hf. Qed.

Lemma sort_pointers h l : sort (ptr_Less h) l ≡ₚ l.
Proof. apply sort_perm. Qed.

Lemma shrink_post_perm l l' st Q r st' : l ≡ₚ l' → shrink_post l st Q r st' → shrink_post l' st Q r st'.
Proof.
  intros Hl ([[Hd Hc] Hsh] & Hdep & HQ). split; [split; [split|]|split; [done|]].
  - done.
  - intros q. rewrite <- Hl. apply Hc.
  - intros q. rewrite <- Hl. apply Hsh.
  - by rewrite <- !(sumReplicas_perm _ l l').
Qed.

Lemma sane_perm h l l' : l ≡ₚ l' → sane h l → sane h l'.
Proof. intros Hl [Hr Hs]. split; [intros p; rewrite <- Hl; apply Hr|by rewrite <- (sumReplicas_perm h l l')]. Qed.

Lemma valid_perm h l l' : l ≡ₚ l' → valid h l → valid h l'.
Proof. intros Hl Hv p. rewrite <- Hl. apply Hv. Qed.

Lemma shrink_post_mono l st (Q Q' : result string Z → Z → Prop) r st' : (∀ x, Q r x → Q' r x) →
  shrink_post l st Q r st' → shrink_post l st Q' r st'.
Proof. intros HQ (? & ? & ?). split_and!; auto. Qed.

Lemma cleanup_wp l m st : no_surplus l st → NoDup l → valid (heap st) l → sane (heap st) l → 0 <= m <= 2 ^ 62 →
  wp (cleanupUnhealthyReplicas l m) (shrink_post l st (λ r x, 0 <= x <= m ∧ ∀ n, r = Ok n → n = x)) st.
Proof.
  intros Hsur Hnd Hv Hs Hm. unfold cleanupUnhealthyReplicas, sortByCreation. wp.
  pose proof (sort_pointers (heap st) l) as Hl. eapply wp_mono.
  - apply cleanupLoop_wp; [by apply (no_surplus_perm l)|by rewrite Hl|by eapply valid_perm|by eapply sane_perm|lia|done].
  - intros r st' Hpost. eapply shrink_post_perm; [exact Hl|]. eapply shrink_post_mono; [|exact Hpost]. cbn.
    intros x [Hx Hn]. split; [lia|]. intros n Hr. specialize (Hn n Hr). lia.
Qed.

(** The rolling update keeps to what is available: at most that many above the
    minimum are taken. *)
Lemma scaleDownOld_wp allRSs l st surge unavailable : resolves (dep st) surge unavailable →
  NoDup l → valid (heap st) (allRSs ++ l) → sane (heap st) l →
  few_pods → Z.of_nat (length allRSs) <= 2 ^ 30 →
  wp (scaleDownOldReplicaSetsForRollingUpdate (Some <$> allRSs) l) (shrink_post l st (λ r x,
    (x = 0 ∧ ∀ n, r = Ok n → n = 0) ∨
    ∃ ready s, GetAvailablePodsForReplicaSets (Some <$> allRSs) (d_MinReadySeconds (dep st)) st =
        Returns (with_server s st, Ok ready) ∧
      0 <= x <= ready - (d_Replicas (dep st) - unavailable) ∧
      ∀ n, r = Ok n → n = x ∧ x = Z.min (ready - (d_Replicas (dep st) - unavailable)) (sumReplicas (heap st) l))) st.
Proof.
  intros Hres Hnd Hv Hs Hfew Hlen. unfold scaleDownOldReplicaSetsForRollingUpdate. wp.
  eapply fenceposts_wp; [done|]. cbn beta iota. destruct Hres as (_ & ru & _ & _ & _ & Hd & Hsurge & Hu).
  rewrite int64_id by lia. apply wp_bind, wp_wrap.
  assert (valid (heap st) allRSs ∧ valid (heap st) l) as [Hva Hvl] by (split; intros p Hp; apply Hv; set_solver).
  pose proof (GetAvailable_wp allRSs (d_MinReadySeconds (dep st)) st Hva) as Hav.
  unfold wp in Hav |- * at 1. destruct (GetAvailablePodsForReplicaSets _ _ st) as [[st1 [ready|e]]|] eqn:Hget; [|..|done].
  2: { destruct Hav as [(s & _ & ->) _]. apply shrink_stop; try done. left. split; [done|]. intros n Hn. done. }
  destruct Hav as [(s & _ & ->) [Hready Hle]]. specialize (Hle Hfew).
  destruct (Z.leb_spec ready (d_Replicas (dep st) - unavailable)).
  { wp. apply shrink_stop; try done. left. split; [done|]. by intros n [= <-]. }
  unfold sortByCreation. wp. cbn [heap with_server]. rewrite int64_id by lia.
  pose proof (sort_pointers (heap st) l) as Hl. eapply wp_mono.
  - apply scaleDownLoop_wp; cbn [heap with_server];
      [by rewrite Hl|by eapply valid_perm|by eapply sane_perm|lia|lia].
  - intros r st' Hpost. eapply shrink_post_perm; [exact Hl|]. eapply shrink_post_mono; [|exact Hpost]. cbn.
    rewrite (sumReplicas_perm (heap st) _ l Hl). pose proof (sumReplicas_nonneg (heap st) l (proj1 Hs)).
    intros x Hx. right. exists ready, s. split; [done|]. destruct r as [n|e].
    + split; [lia|]. intros n' [= <-]. lia.
    + split; [lia|done].
Qed.

(** What scaling down the old replica sets may take: [c] unhealthy replicas, at
    most [maxScaledDown], and then [x] that the available pods leave. *)
Definition takes (l : list nat) (p : nat) st (minAvailable taken : Z) : Prop :=
  taken = 0 ∨
  ∃ newAvailable s, GetAvailablePodsForReplicaSets [Some p] (d_MinReadySeconds (dep st)) st =
      Returns (with_server s st, Ok newAvailable) ∧
    let maxScaledDown := sumReplicas (heap st) (l ++ [p]) - minAvailable - (replicasOf (heap st) p - newAvailable) in
    ∃ c x, taken = c + x ∧ 0 <= c <= maxScaledDown ∧
      (x = 0 ∨ ∃ st1 s1 ready, shrinks l (heap st) (heap st1) ∧ sumReplicas (heap st1) l = sumReplicas (heap st) l - c ∧
        GetAvailablePodsForReplicaSets (Some <$> (l ++ [p])) (d_MinReadySeconds (dep st)) st1 = Returns (s1, Ok ready) ∧
        0 <= x <= ready - minAvailable).

Lemma shrinks_trans l h1 h2 h3 : shrinks l h1 h2 → shrinks l h2 h3 → shrinks l h1 h3.
Proof.
  intros [Hc Hs] [Hc' Hs']. split; [by eapply only_changes_trans|]. intros p Hp.
  specialize (Hs p Hp). specialize (Hs' p Hp). lia.
Qed.

Lemma shrinks_sane l h h' : shrinks l h h' → sane h l → sane h' l ∧ 0 <= sumReplicas h' l <= sumReplicas h l.
Proof.
  intros [_ Hs] [_ Hle]. assert (sumReplicas h' l <= sumReplicas h l) as Hsum.
  { clear Hle. induction l as [|p l IH]; [done|]. rewrite !sumReplicas_cons.
    specialize (IH (λ q Hq, Hs q (list_elem_of_further _ _ _ Hq))). specialize (Hs p (list_elem_of_here _ _)). lia. }
  assert (∀ p, p ∈ l → 0 <= replicasOf h' p) as Hn by (intros p Hp; specialize (Hs p Hp); lia).
  split; [split; [done|lia]|]. split; [by apply sumReplicas_nonneg|done].
Qed.

Lemma sane_snoc h l p : sane h (l ++ [p]) → sane h l ∧ 0 <= sumReplicas h l ∧ 0 <= replicasOf h p ∧
  sumReplicas h (l ++ [p]) = sumReplicas h l + replicasOf h p.
Proof.
  intros [Hs Hle]. rewrite sumReplicas_app, sumReplicas_cons in *. change (sumReplicas h []) with 0 in *.
  pose proof (Hs p ltac:(set_solver)). pose proof (sumReplicas_nonneg h l ltac:(set_solver)).
  split_and!; [split; [set_solver|lia]|lia|lia|lia].
Qed.

Lemma reconcileOld_wp st p l surge unavailable : no_surplus l st → few_pods → Z.of_nat (length l) < 2 ^ 30 → resolves (dep st) surge unavailable →
  NoDup (l ++ [p]) → valid (heap st) (l ++ [p]) → sane (heap st) (l ++ [p]) →
  wp (reconcileOldReplicaSets (Some <$> (l ++ [p])) l p) (λ r st',
    shrinks l (heap st) (heap st') ∧ dep st' = dep st ∧
    takes l p st (d_Replicas (dep st) - unavailable) (sumReplicas (heap st) l - sumReplicas (heap st') l)) st.
Proof.
  intros Hsur Hfew Hlen Hres Hnd Hv Hs. apply NoDup_app in Hnd as (Hnd & _ & _).
  destruct (sane_snoc _ _ _ Hs) as (Hsl & Hsum0 & Hp & Hsum).
  assert (∀ st1, heap st1 = heap st → dep st1 = dep st → shrinks l (heap st) (heap st1) ∧ dep st1 = dep st ∧
    takes l p st (d_Replicas (dep st) - unavailable) (sumReplicas (heap st) l - sumReplicas (heap st1) l)) as Hstop.
  { intros st1 Hh Hdep. rewrite Hh, Z.sub_diag. split; [by apply shrinks_refl, Hsl|]. split; [done|by left]. }
  pose proof (resolves_positive _ _ _ Hres) as Hpos. assert (valid (heap st) [p]) as Hvp by (intros q Hq; apply Hv; set_solver).
  assert (valid (heap st) l) as Hvl by (intros q Hq; apply Hv; set_solver).
  unfold reconcileOldReplicaSets. wp. rewrite !GetReplicaCount_sum by done.
  destruct (Z.eqb_spec (sumReplicas (heap st) l) 0); [by apply wp_ret, Hstop|].
  apply wp_bind, wp_wrap. pose proof (GetAvailable_wp [p] (d_MinReadySeconds (dep st)) st Hvp) as Hav.
  cbn [fmap list_fmap length] in Hav.
  unfold wp in Hav |- * at 1. destruct (GetAvailablePodsForReplicaSets _ _ st) as [[st1 [newAvailable|e]]|] eqn:Hget; [|..|done].
  2: { destruct Hav as [(s & Hls & ->) _]. by apply Hstop. }
  destruct Hav as [(s & Hls & ->) [Hready Hle]]. specialize (Hle Hfew). wp. eapply fenceposts_wp; [done|]. cbn beta iota.
  pose proof Hres as (_ & ru & _ & _ & _ & Hd & Hsurge & Hu). pose proof (proj2 Hs).
  rewrite (int64_id (d_Replicas _ - _)), (int64_id (replicasOf _ _ - _)), (int64_id (sumReplicas _ _ - _)), int64_id by lia.
  set (m := sumReplicas (heap st) (l ++ [p]) - (d_Replicas (dep st) - unavailable) - (replicasOf (heap st) p - newAvailable)).
  destruct (Z.leb_spec m 0); [by apply wp_ret, Hstop|]. apply wp_bind, wp_try.
  eapply wp_mono; [apply (cleanup_wp l m (with_server s st)); try done; [by apply no_surplus_lists|lia]|].
  intros r st1 (Hsh & Hdep & Hc & Hr). cbn [heap dep with_server] in *.
  set (c := sumReplicas (heap st) l - sumReplicas (heap st1) l) in *.
  assert (takes l p st (d_Replicas (dep st) - unavailable) c) as Htakes.
  { right. exists newAvailable, s. split; [done|]. fold m. exists c, 0. split_and!; [lia|lia|lia|by left]. }
  destruct r as [n1|e]; [|by apply wp_ret; split_and!].
  destruct (shrinks_sane _ _ _ Hsh Hsl) as [Hsl1 _]. apply wp_bind, wp_try. eapply wp_mono.
  - apply (scaleDownOld_wp (l ++ [p]) l st1 surge unavailable); [by rewrite Hdep|done| |done|done|].
    + eapply only_changes_valid; [apply Hsh|]. intros q Hq. apply Hv. set_solver.
    + rewrite length_app. cbn. lia.
  - intros r2 st2 (Hsh2 & Hdep2 & Hx). rewrite Hdep in Hx, Hdep2. cbn beta.
    assert (shrinks l (heap st) (heap st2) ∧ dep st2 = dep st ∧
      takes l p st (d_Replicas (dep st) - unavailable) (sumReplicas (heap st) l - sumReplicas (heap st2) l)) as Hfin;
      [|by destruct r2].
    split; [by eapply shrinks_trans|]. split; [done|]. right. exists newAvailable, s. split; [done|]. fold m.
    exists c, (sumReplicas (heap st1) l - sumReplicas (heap st2) l). split; [lia|]. split; [lia|].
    destruct Hx as [[Hx _]|(ready & s2 & Hg & Hx & _)]; [by left|right].
    exists st1, (with_server s2 st1), ready. split_and!; [done|lia|done|lia|lia].
Qed.

(** The status functions and the clean-up of old revisions leave the heap and the
    deployment alone. *)
Definition quiet {B} (m : M Spec Srv B) st : Prop := wp m (λ _ st', heap st' = heap st ∧ dep st' = dep st) st.

Lemma quiet_bind {B C} (m : M Spec Srv B) (f : B → M Spec Srv C) st :
  quiet m st → (∀ b st', heap st' = heap st → dep st' = dep st → quiet (f b) st') → quiet (m ≫= f) st.
Proof.
  intros Hm Hf. apply wp_bind. eapply wp_mono; [exact Hm|]. intros [b|e] st' [Hh Hd]; [|done].
  eapply wp_mono; [by apply Hf|]. intros _ st2 [-> ->]. done.
Qed.

Lemma quiet_ret {B} (b : B) st : quiet (mret b) st.
Proof. done. Qed.

Lemma quiet_gets {B} (f : St Spec Srv → B) st : quiet (gets f) st.
Proof. done. Qed.

Lemma quiet_request {B} (f : Srv → Srv * result string B) st : quiet (request f) st.
Proof. apply wp_request. by intros s r _. Qed.

Lemma quiet_try {B} (m : M Spec Srv B) st : quiet m st → quiet (try m) st.
Proof. intros Hm. by apply wp_try. Qed.

Lemma quiet_wrap {B} prefix (m : M Spec Srv B) st : quiet m st → quiet (wrap prefix m) st.
Proof. intros Hm. by apply wp_wrap. Qed.

Lemma quiet_available l ms st : valid (heap st) l → quiet (GetAvailablePodsForReplicaSets (Some <$> l) ms) st.
Proof. intros Hv. eapply wp_mono; [by apply GetAvailable_wp|]. by intros r st' [(s & _ & ->) _]. Qed.

Ltac same_heap := repeat match goal with H : heap _ = heap _ |- _ => rewrite H; clear H end.
Ltac quiet := repeat first [apply quiet_available; same_heap; done | apply quiet_bind; [|intros ? ? ? ?] | apply quiet_gets | apply quiet_ret | apply quiet_request
  | apply quiet_wrap | apply quiet_try].

Lemma quiet_calculate l newRS st : valid (heap st) l → quiet (calculateStatus (Some <$> l) newRS) st.
Proof.
  intros Hv. unfold calculateStatus. quiet.
Qed.

Lemma quiet_updateStatus l newRS st : valid (heap st) l → quiet (updateDeploymentStatus (Some <$> l) newRS) st.
Proof.
  intros Hv. unfold updateDeploymentStatus, request_. apply quiet_bind; [by apply quiet_calculate|].
  intros [[[a b] c] d] st1 Hh Hd. quiet.
Qed.

Lemma quiet_syncStatus l newRS st : valid (heap st) l → quiet (syncDeploymentStatus (Some <$> l) newRS) st.
Proof.
  intros Hv. unfold syncDeploymentStatus. apply quiet_bind; [by apply quiet_calculate|].
  intros [[[a b] c] d] st1 Hh Hd. apply quiet_bind; [quiet|]. intros d1 st2 Hh2 Hd2.
  destruct (_ || _); [|quiet]. apply quiet_updateStatus. by same_heap.
Qed.

Lemma quiet_cleanupOld rss : ∀ diff errs st, valid (heap st) rss → (diff <= length rss)%nat →
  quiet (cleanupOldLoop rss diff errs) st.
Proof.
  induction rss as [|p rss IH]; intros [|diff] errs st Hv Hd; cbn [cleanupOldLoop]; cbn in Hd; try lia; [quiet..|].
  destruct (Hv p) as [o Ho]; [left|].
  assert (∀ errs st', heap st' = heap st → quiet (cleanupOldLoop rss diff errs) st') as Hnext.
  { intros errs' st' Hh. apply IH; [rewrite Hh; intros q Hq; apply Hv; by right|lia]. }
  apply quiet_bind. { unfold quiet, wp, deref. by rewrite Ho. }
  intros o' st1 Hh Hdep. destruct (_ || _); [by apply Hnext|]. unfold request_. quiet. apply Hnext. by same_heap.
Qed.

Lemma quiet_history l st : valid (heap st) l → (∀ n, d_RevisionHistoryLimit (dep st) = Some n → 0 <= n < 2 ^ 63) →
  Z.of_nat (length l) < 2 ^ 62 → quiet (cleanupHistory l) st.
Proof.
  intros Hv Hlimit Hlen. unfold quiet, cleanupHistory. wp.
  destruct (d_RevisionHistoryLimit (dep st)) as [limit|] eqn:El; [|by wp]. specialize (Hlimit limit eq_refl).
  change (quiet (cleanupOldReplicaSets l limit ≫= λ _, mret tt) st). apply quiet_bind; [|intros; quiet].
  unfold cleanupOldReplicaSets. set (diff := int64 _). destruct (Z.leb_spec diff 0); [quiet|].
  unfold sortByCreation, quiet. wp. pose proof (sort_pointers (heap st) l) as Hl. apply quiet_cleanupOld.
  - by eapply valid_perm.
  - rewrite Hl. subst diff. rewrite int64_id in * by lia. lia.
Qed.

Lemma sumReplicas_active h l : (∀ p, p ∈ l → 0 <= replicasOf h p) →
  sumReplicas h (filter (λ p, 0 < replicasOf h p) l) = sumReplicas h l.
Proof.
  induction l as [|p l IH]; intros Hl; [done|]. rewrite sumReplicas_cons, filter_cons.
  specialize (IH (λ q Hq, Hl q (list_elem_of_further _ _ _ Hq))). pose proof (Hl p (list_elem_of_here _ _)).
  destruct (decide (0 < replicasOf h p)); rewrite ?sumReplicas_cons; lia.
Qed.

(** The old replica sets that are not empty stand for all of them. *)
Lemma active_facts h l p : NoDup (l ++ [p]) → valid h (l ++ [p]) → sane h (l ++ [p]) →
  let active := filter (λ p, 0 < replicasOf h p) l in
  NoDup (active ++ [p]) ∧ valid h (active ++ [p]) ∧ sane h (active ++ [p]) ∧
  sumReplicas h active = sumReplicas h l ∧ sumReplicas h (active ++ [p]) = sumReplicas h (l ++ [p]) ∧
  ∀ h', shrinks active h h' → shrinks l h h' ∧ sumReplicas h' active = sumReplicas h' l.
Proof.
  intros Hnd Hv [Hs Hle] active. assert (active ⊆ l) as Hsub by (intros q Hq; by apply list_elem_of_filter in Hq as [_ ?]).
  assert (∀ q, q ∈ l → 0 <= replicasOf h q) as Hl by (intros q Hq; apply Hs; set_solver).
  pose proof (sumReplicas_active h l Hl) as Hsum. fold active in Hsum.
  assert (sumReplicas h (active ++ [p]) = sumReplicas h (l ++ [p])) as Hsum' by (rewrite !sumReplicas_app; lia).
  apply NoDup_app in Hnd as (Hnd & Hp & Hnd'). split_and!; [| | |done|done|].
  - apply NoDup_app. split_and!; [by apply NoDup_filter|set_solver|done].
  - intros q Hq. apply Hv. set_solver.
  - split; [intros q Hq; apply Hs; set_solver|lia].
  - intros h' [Hc Hsh]. assert (∀ q, q ∈ l → q ∉ active → replicasOf h q = 0 ∧ replicasOf h' q = 0) as Hz.
    { intros q Hq Hqa. assert (replicasOf h q = 0) as E.
      { pose proof (Hl q Hq). destruct (decide (0 < replicasOf h q)); [|lia].
        destruct Hqa. by apply list_elem_of_filter. }
      split; [done|]. by rewrite (only_changes_replicas _ _ _ _ Hc Hqa). }
    assert (∀ q, q ∈ l → 0 <= replicasOf h' q <= replicasOf h q) as Hsh'.
    { intros q Hq. destruct (decide (q ∈ active)) as [Ha|Ha]; [by apply Hsh|]. destruct (Hz q Hq Ha). lia. }
    split; [split; [by eapply only_changes_mono|done]|].
    assert (filter (λ p, 0 < replicasOf h p) l = active) as Hact by done. clearbody active.
    subst active. clear -Hz Hl. induction l as [|q l IH]; [done|]. rewrite filter_cons, sumReplicas_cons.
    destruct (decide (0 < replicasOf h q)) as [Hq|Hq].
    + rewrite sumReplicas_cons, IH; [done|set_solver|]. intros q' Hq' Hn. apply (Hz q'); [by right|].
      intros Hin%list_elem_of_filter. apply Hn, list_elem_of_filter. naive_solver.
    + rewrite IH; [|set_solver|].
      * destruct (Hz q) as [_ ->]; [left| |done]. by intros [? _]%list_elem_of_filter.
      * intros q' Hq' Hn. apply (Hz q'); [by right|]. intros Hin%list_elem_of_filter.
        apply Hn, list_elem_of_filter. naive_solver.
Qed.

(** Either the new replica set moves to its target, or the old ones shrink. *)
Definition step_safe (l : list nat) (p : nat) (surge unavailable : Z) st st' : Prop :=
  let desired := d_Replicas (dep st) in
  let total h := sumReplicas h (l ++ [p]) in
  let n := target desired surge (total (heap st)) (replicasOf (heap st) p) in
  dep st' = dep st ∧
  (n ≠ replicasOf (heap st) p → replicasOf (heap st') p = n ∧ only_changes [p] (heap st) (heap st')) ∧
  (n = replicasOf (heap st) p → shrinks l (heap st) (heap st') ∧
    ∃ active, active ⊆ l ∧ takes active p st (desired - unavailable) (total (heap st) - total (heap st'))).

Lemma step_safe_quiet l p surge unavailable st st1 st2 : heap st2 = heap st1 → dep st2 = dep st1 →
  step_safe l p surge unavailable st st1 → step_safe l p surge unavailable st st2.
Proof. intros Hh Hd. unfold step_safe. by rewrite Hh, Hd. Qed.

(** A rolling update whose replica sets are sane. *)
Record rolling (l : list nat) (p : nat) (surge unavailable : Z) st : Prop := {
  rolling_resolves : resolves (dep st) surge unavailable;
  rolling_NoDup : NoDup (l ++ [p]);
  rolling_valid : valid (heap st) (l ++ [p]);
  rolling_sane : sane (heap st) (l ++ [p]);
  rolling_limit n : d_RevisionHistoryLimit (dep st) = Some n → 0 <= n < 2 ^ 63;
  rolling_length : Z.of_nat (length l) < 2 ^ 30;
}.

Lemma rollingUpdate_wp st p l surge unavailable : no_surplus l st → few_pods → rolling l p surge unavailable st →
  wp (rollingUpdate (Some p) l) (λ _ st', step_safe l p surge unavailable st st') st.
Proof.
  intros Hsur Hfew [Hres Hnd Hv Hs Hlimit Hlen].
  destruct (active_facts (heap st) l p Hnd Hv Hs) as (Hnda & Hva & Hsa & Hsum & Hsum' & Hshr).
  set (active := filter _ l) in *.
  assert (∀ h' l', only_changes l' (heap st) h' → valid h' (active ++ [p]) ∧ valid h' (l ++ [p])) as Hvalid.
  { intros h' l' Hc. split; by eapply only_changes_valid. }
  unfold rollingUpdate, activeAndNew, FilterActive, derefNew. wp. fold active.
  change [Some p] with (Some <$> [p]). rewrite <- fmap_app.
  eapply wp_mono; [by apply (reconcileNew_wp st p active surge unavailable)|].
  intros r st1 (o & n & Ho & Hn & Hh & Hd & Hr). rewrite Hsum' in Hn.
  pose proof (only_changes_insert (heap st) p o (with_Replicas n o) Ho) as Hc. rewrite <- Hh in Hc.
  unfold scaled in Hr. destruct (Z.eqb_spec (replicasOf (heap st) p) n) as [E|E].
  - destruct Hr as [-> ->]. clear Hh Hd Hc. apply wp_bind, wp_gets. cbn beta iota. fold active. apply wp_bind.
    assert (active ⊆ l) as Hsub by (intros q Hq; by apply list_elem_of_filter in Hq as [_ ?]).
    eapply wp_mono.
    { apply (reconcileOld_wp st p active surge unavailable); try done.
      - intros q st' Hq. apply Hsur. by apply Hsub.
      - eapply Z.le_lt_trans; [apply inj_le, length_filter|done]. }
    cbn beta. intros r st2 (Hsh & Hd & Htakes). destruct (Hshr _ Hsh) as [Hsh' Hsum2].
    assert (step_safe l p surge unavailable st st2) as Hstep.
    { unfold step_safe. rewrite <- Hn. split; [done|]. split; [done|]. intros _. split; [done|].
      exists active. split; [done|]. eapply eq_ind; [exact Htakes|]. rewrite !sumReplicas_app, !sumReplicas_cons.
      rewrite (only_changes_replicas l (heap st) (heap st2) p); [change (sumReplicas (heap st2) []) with (sumReplicas (heap st) []); lia|apply Hsh'|].
      intros Hp. apply NoDup_app in Hnd as (_ & Hnd & _). by apply (Hnd p Hp), list_elem_of_singleton. }
    destruct (Hvalid _ _ (proj1 Hsh)) as [Hva2 Hvl2]. destruct r as [[|]|e]; [| |done].
    + eapply wp_mono; [by apply quiet_updateStatus|]. intros _ st3 [Hh3 Hd3]. by eapply step_safe_quiet.
    + apply wp_bind. eapply wp_mono; [apply quiet_history|].
      * intros q Hq. apply Hvl2. set_solver.
      * by rewrite Hd.
      * lia.
      * intros r st3 [Hh3 Hd3]. destruct r as [[]|e]; [|by eapply step_safe_quiet].
        eapply wp_mono; [apply quiet_syncStatus; by rewrite Hh3|]. intros _ st4 [Hh4 Hd4].
        eapply step_safe_quiet; [by rewrite Hh4|by rewrite Hd4|done].
  - assert (step_safe l p surge unavailable st st1) as Hup.
    { unfold step_safe. rewrite <- Hn. split; [done|]. split; [|by intros ->]. intros _. split; [|done].
      rewrite Hh. apply replicasOf_insert_eq. }
    destruct (server_UpdateRS _ _) as [s [o'|e]]; destruct Hr as [_ ->]; [|done].
    eapply wp_mono; [apply quiet_updateStatus; by eapply Hvalid|]. intros _ st2 [Hh2 Hd2]. by eapply step_safe_quiet.
Qed.

(** *** A cluster that keeps up

    [I h s]: the server has for every replica set of [l] as many pods as its size in
    [h], all of them available for [minReady] seconds, and goes on to do so when one is scaled.  Pods have
    names of their own: [owner] tells whose they are. *)
Record keeps_up (l : list nat) (minReady : Z) (I : gmap nat (RS Spec) → Srv → Prop) (owner : string → nat) : Prop := {
  keeps_list h s p o : I h s → p ∈ l → h !! p = Some o → ∃ sel pods,
    LabelSelectorAsSelector (rs_Selector (rs o)) = Ok sel ∧
    server_ListPods (rs_Namespace (rs o)) sel s = (s, Ok pods) ∧
    Z.of_nat (length pods) = rs_Replicas (rs o) ∧ NoDup (Name <$> pods) ∧
    ∀ pod ms, pod ∈ pods → ms = 0 ∨ ms = minReady →
      owner (Name pod) = p ∧ IsPodAvailable (time_Now s) pod ms = true;
  keeps_scale h s p o n : I h s → p ∈ l → h !! p = Some o → 0 <= n → ∃ s' o',
    server_UpdateRS (with_Replicas n o) s = (s', Ok o') ∧ I (<[p := with_Replicas n o]> h) s';
  keeps_status h s d : I h s → ∃ s', server_UpdateStatus d s = (s', None) ∧ I h s';
}.

(** Sizes of all the old replica sets and of the new one, one step later. *)
Definition roll (desired surge unavailable : Z) (c : Z * Z) : Z * Z :=
  let '(old, new) := c in
  let n := target desired surge (old + new) new in
  if n =? new then (old - Z.max 0 (Z.min (old + new - (desired - unavailable)) old), new) else (old, n).

Section prompt.
Variables (all : list nat) (minReady : Z) (I : gmap nat (RS Spec) → Srv → Prop) (owner : string → nat).
Hypothesis Hup : keeps_up all minReady I owner.
Implicit Types l : list nat.

(** The pods of one listing, added. *)
Lemma add_pods pods (acc : gmap string Pod) (P : Pod → Prop) : NoDup (Name <$> pods) →
  (∀ pod, pod ∈ pods → acc !! Name pod = None ∧ P pod) → map_Forall (λ _ pod, P pod) acc →
  let acc' := foldl (λ allPods pod, <[Name pod := pod]> allPods) acc pods in
  size acc' = (size acc + length pods)%nat ∧ map_Forall (λ _ pod, P pod) acc' ∧
  ∀ k, is_Some (acc' !! k) → is_Some (acc !! k) ∨ k ∈ Name <$> pods.
Proof.
  revert acc. induction pods as [|pod pods IH]; intros acc Hnd Hp Hacc; cbn [foldl].
  { cbn. split; [lia|]. split; [done|]. by left. }
  cbn [fmap list_fmap] in Hnd. apply NoDup_cons in Hnd as [Hn Hnd].
  destruct (Hp pod) as [Hfresh HP]; [left|]. destruct (IH (<[Name pod := pod]> acc)) as (Hs & HF & Hk); [done|..].
  - intros q Hq. destruct (Hp q) as [Hq1 Hq2]; [by right|]. split; [|done].
    rewrite lookup_insert_ne; [done|]. intros E. apply Hn. rewrite E. by apply list_elem_of_fmap_2.
  - by apply map_Forall_insert.
  - rewrite map_size_insert_None in Hs by done. split; [cbn [length]; lia|]. split; [done|].
    intros k [H|H]%Hk; [|right; cbn; by right].
    destruct (decide (k = Name pod)) as [->|Hne]; [right; left|]. rewrite lookup_insert_ne in H by done. by left.
Qed.

Lemma podsLoop_prompt l ms : ms = 0 ∨ ms = minReady → ∀ acc st, I (heap st) (server st) → l ⊆ all → NoDup l → valid (heap st) l →
  (∀ k, is_Some (acc !! k) → owner k ∉ l) →
  map_Forall (λ _ pod, IsPodAvailable (time_Now (server st)) pod ms = true) acc →
  ∃ pods, podsLoop (Some <$> l) acc st = Returns (st, Ok pods) ∧
    Z.of_nat (size pods) = Z.of_nat (size acc) + sumReplicas (heap st) l ∧
    map_Forall (λ _ pod, IsPodAvailable (time_Now (server st)) pod ms = true) pods.
Proof.
  intros Hms. induction l as [|p l IH]; intros acc st HI Hl Hnd Hv Hown Hav; cbn [podsLoop fmap list_fmap].
  { exists acc. change (sumReplicas (heap st) []) with 0. split; [done|]. split; [lia|done]. }
  apply NoDup_cons in Hnd as [Hp Hnd]. destruct (Hv p) as [o Ho]; [left|].
  destruct (keeps_list _ _ _ _ Hup _ _ p o HI ltac:(set_solver) Ho) as (sel & pods & Hsel & Hls & Hlen & Hnames & Hpods).
  destruct (add_pods pods acc (λ pod, IsPodAvailable (time_Now (server st)) pod ms = true)) as (Hsize & Hall & Hkeys); try done.
  { intros pod Hpod. destruct (Hpods pod ms Hpod Hms) as [Hpo Hpa]. split; [|done].
    destruct (acc !! Name pod) eqn:E; [|done]. destruct (Hown (Name pod)); [by rewrite E|]. rewrite Hpo. left. }
  destruct (IH (foldl (λ allPods pod, <[Name pod := pod]> allPods) acc pods) st) as (res & Hres & Hsz & Hfin); try done.
  - set_solver.
  - intros q Hq. apply Hv. by right.
  - intros k [Hk|Hk]%Hkeys; [set_solver|]. apply list_elem_of_fmap in Hk as (pod & -> & Hpod).
    destruct (Hpods pod ms Hpod Hms) as [-> _]. done.
  - exists res. split; [|split; [|done]].
    + unfold mbind, M_bind, deref. rewrite Ho. unfold wrap, lift. rewrite Hsel. unfold request. rewrite Hls.
      replace (with_server (server st) st) with st by (by destruct st). exact Hres.
    + rewrite Hsz, Hsize, sumReplicas_cons. unfold replicasOf at 1. rewrite Ho. lia.
Qed.

Lemma GetAvailable_prompt l ms st : ms = 0 ∨ ms = minReady → I (heap st) (server st) → l ⊆ all → NoDup l → valid (heap st) l →
  GetAvailablePodsForReplicaSets (Some <$> l) ms st = Returns (st, Ok (sumReplicas (heap st) l)).
Proof.
  intros Hms HI Hl Hnd Hv. unfold GetAvailablePodsForReplicaSets, GetPodsForReplicaSets.
  destruct (podsLoop_prompt l ms Hms ∅ st HI Hl Hnd Hv) as (pods & Hloop & Hsize & Hav); [by intros k [? ?]|done|].
  unfold mbind, M_bind. rewrite Hloop. cbn. do 3 f_equal. rewrite map_size_empty in Hsize.
  rewrite getReadyPodsCount_all; [|intros pod [k Hk]%elem_of_range_values; by apply (Hav k)].
  unfold range_values. rewrite length_fmap, length_range_map. unfold mret, M_ret. do 3 f_equal. lia.
Qed.

Lemma scaled_prompt st p n o r st' : I (heap st) (server st) → p ∈ all → heap st !! p = Some o → 0 <= n →
  scaled p n o st r st' → r = Ok (negb (replicasOf (heap st) p =? n)) ∧ I (<[p := with_Replicas n o]> (heap st)) (server st').
Proof.
  intros HI Hp Ho Hn. destruct (keeps_scale _ _ _ _ Hup _ _ p o n HI Hp Ho Hn) as (s' & o' & Hs & HI').
  unfold scaled. destruct (Z.eqb_spec (replicasOf (heap st) p) n) as [E|E].
  - intros [-> ->]. split; [done|]. unfold replicasOf in E. rewrite Ho in E. by rewrite <- E, with_Replicas_same, insert_id.
  - rewrite Hs. by intros [-> ->].
Qed.

Lemma scale_prompt st p n o : I (heap st) (server st) → p ∈ all → heap st !! p = Some o → 0 <= n →
  wp (scaleReplicaSetAndRecordEvent p n) (λ r st', r = Ok (negb (replicasOf (heap st) p =? n)) ∧
    heap st' = <[p := with_Replicas n o]> (heap st) ∧ dep st' = dep st ∧ I (heap st') (server st')) st.
Proof.
  intros HI Hp Ho Hn. eapply wp_mono; [by apply scale_wp|]. cbn beta. intros r st' (Hh & Hd & Hr).
  destruct (scaled_prompt st p n o r st') as [-> HI']; try done. by rewrite Hh.
Qed.

Lemma scaleDownLoop_prompt l : ∀ T t st, I (heap st) (server st) → l ⊆ all → NoDup l →
  valid (heap st) l → sane (heap st) l → 0 <= t <= T → T <= 2 ^ 62 →
  wp (scaleDownLoop l T t) (λ r st', (∃ n, r = Ok n) ∧ I (heap st') (server st')) st.
Proof.
  induction l as [|p l IH]; intros T t st HI Hl Hnd Hv Hs Ht HT; cbn [scaleDownLoop]; [wp; eauto|].
  apply NoDup_cons in Hnd as [Hp Hnd]. pose proof (sane_cons _ _ _ Hs) as (Hrp & Hsl & Hle & Hs').
  assert (l ⊆ all) as Hl' by set_solver. assert (valid (heap st) l) as Hv' by (intros q Hq; apply Hv; by right).
  destruct (Z.leb_spec T t); [wp; eauto|]. wp. destruct (Z.eqb_spec (replicasOf (heap st) p) 0) as [Hz|Hz]; [by apply IH|].
  rewrite IntMin_min, (int64_id (T - t)) by lia. rewrite (int64_id (replicasOf _ _ - _)), (int64_id (t + _)) by lia.
  destruct (Hv p) as [o Ho]; [left|]. apply wp_bind. eapply wp_mono; [apply (scale_prompt _ _ _ o); [done|set_solver|done|lia]|].
  cbn beta. intros r st1 (-> & Hh & _ & HI1). apply IH; try done; [| |lia].
  - rewrite Hh. eapply only_changes_valid; [by eapply only_changes_insert|done].
  - rewrite Hh. by apply sane_insert.
Qed.

(** Nothing is unhealthy. *)
Lemma cleanupLoop_prompt l m : ∀ t st, I (heap st) (server st) → l ⊆ all → valid (heap st) l →
  cleanupLoop l m t st = Returns (st, Ok t).
Proof.
  induction l as [|p l IH]; intros t st HI Hl Hv; cbn [cleanupLoop]; [done|]. destruct (m <=? t); [done|].
  assert (cleanupLoop l m t st = Returns (st, Ok t)) as Hnext.
  { apply IH; [done|set_solver|]. intros q Hq. apply Hv. by right. }
  change (gets heap ≫= ?f) with (λ st, f (heap st) st). cbn beta.
  destruct (replicasOf (heap st) p =? 0); [done|].
  pose proof (GetAvailable_prompt [p] 0 st (or_introl eq_refl) HI) as Hav. rewrite sumReplicas_cons, Z.add_0_r in Hav.
  unfold mbind at 1, M_bind at 1, wrap. cbn [fmap list_fmap] in Hav.
  rewrite Hav; [|set_solver|apply NoDup_singleton|intros q ->%list_elem_of_singleton; apply Hv; left].
  change (gets heap ≫= ?f) with (λ st, f (heap st) st). cbn beta. by rewrite Z.eqb_refl.
Qed.

Lemma cleanup_prompt l m st : I (heap st) (server st) → l ⊆ all → valid (heap st) l →
  cleanupUnhealthyReplicas l m st = Returns (st, Ok 0).
Proof.
  intros HI Hl Hv. unfold cleanupUnhealthyReplicas, sortByCreation.
  pose proof (sort_pointers (heap st) l) as Hsort. apply cleanupLoop_prompt; [done| |].
  - intros q. rewrite Hsort. apply Hl.
  - by eapply valid_perm.
Qed.

(** The status is written. *)
Definition written st (r : result string unit) st' : Prop :=
  r = Ok tt ∧ heap st' = heap st ∧ dep st' = dep st ∧ I (heap st') (server st').

Lemma calculate_prompt l newRS st : d_MinReadySeconds (dep st) = minReady → I (heap st) (server st) → l ⊆ all → NoDup l → valid (heap st) l →
  ∃ c : Z * Z * Z * Z, calculateStatus (Some <$> l) newRS st = Returns (st, Ok c).
Proof.
  intros Hmr HI Hl Hnd Hv. eexists. unfold calculateStatus.
  change (gets dep ≫= ?f) with (λ st, f (dep st) st). cbn beta. change (gets heap ≫= ?f) with (λ st, f (heap st) st). cbn beta.
  unfold mbind, M_bind, wrap. by rewrite GetAvailable_prompt by auto.
Qed.

Lemma updateStatus_prompt l newRS st : d_MinReadySeconds (dep st) = minReady → I (heap st) (server st) → l ⊆ all → NoDup l → valid (heap st) l →
  wp (updateDeploymentStatus (Some <$> l) newRS) (written st) st.
Proof.
  intros Hmr HI Hl Hnd Hv. unfold updateDeploymentStatus. destruct (calculate_prompt l newRS st) as [[[[a b] c] d] Hc]; try done.
  apply wp_bind. unfold wp at 1. rewrite Hc. wp. unfold request_. apply wp_request. intros s r Hr.
  destruct (keeps_status _ _ _ _ Hup (heap st) (server st)
    (with_Status (mkDStatus (d_Generation (dep st)) a b c d) (dep st)) HI) as (s' & Hs & HI').
  rewrite Hs in Hr. by injection Hr as <- <-.
Qed.

Lemma syncStatus_prompt l newRS st : d_MinReadySeconds (dep st) = minReady → I (heap st) (server st) → l ⊆ all → NoDup l → valid (heap st) l →
  wp (syncDeploymentStatus (Some <$> l) newRS) (written st) st.
Proof.
  intros Hmr HI Hl Hnd Hv. unfold syncDeploymentStatus. destruct (calculate_prompt l newRS st) as [[[[a b] c] d] Hc]; try done.
  apply wp_bind. unfold wp at 1. rewrite Hc. wp. destruct (_ || _); [by apply updateStatus_prompt|by wp].
Qed.

(** The old replica sets give what is above the minimum. *)
Lemma reconcileOld_prompt st p l surge unavailable : d_MinReadySeconds (dep st) = minReady → I (heap st) (server st) → l ++ [p] ⊆ all →
  resolves (dep st) surge unavailable → NoDup (l ++ [p]) → valid (heap st) (l ++ [p]) → sane (heap st) (l ++ [p]) →
  wp (reconcileOldReplicaSets (Some <$> (l ++ [p])) l p) (λ r st', (∃ b, r = Ok b) ∧ I (heap st') (server st') ∧
    dep st' = dep st ∧ shrinks l (heap st) (heap st') ∧
    sumReplicas (heap st) l - sumReplicas (heap st') l =
      Z.max 0 (Z.min (sumReplicas (heap st) (l ++ [p]) - (d_Replicas (dep st) - unavailable)) (sumReplicas (heap st) l))) st.
Proof.
  intros Hmr HI Hall Hres Hnd Hv Hs. pose proof Hnd as (Hndl & _ & _)%NoDup_app.
  destruct (sane_snoc _ _ _ Hs) as (Hsl & Hsum0 & Hp & Hsum).
  assert (l ⊆ all ∧ [p] ⊆ all) as [Hl Hpa] by (clear -Hall; set_solver).
  assert (valid (heap st) [p] ∧ valid (heap st) l) as [Hvp Hvl] by (split; intros q Hq; apply Hv; clear -Hq; set_solver).
  pose proof (resolves_positive _ _ _ Hres) as Hpos. pose proof (proj2 Hs) as Hle.
  pose proof Hres as (_ & ru & _ & _ & _ & Hd & Hsurge & Hu).
  unfold reconcileOldReplicaSets. wp. rewrite !GetReplicaCount_sum by done.
  destruct (Z.eqb_spec (sumReplicas (heap st) l) 0) as [Hz|Hz].
  { apply wp_ret. split_and!; [by eexists|done|done|apply shrinks_refl, Hsl|lia]. }
  apply wp_bind, wp_wrap. pose proof (GetAvailable_prompt [p] (d_MinReadySeconds (dep st)) st (or_intror Hmr) HI Hpa (NoDup_singleton p) Hvp) as Hav.
  rewrite sumReplicas_cons, Z.add_0_r in Hav. cbn [fmap list_fmap] in Hav. unfold wp at 1. rewrite Hav. wp.
  eapply fenceposts_wp; [done|]. cbn beta iota.
  rewrite (int64_id (d_Replicas _ - _)), (int64_id (replicasOf _ _ - _)), (int64_id (sumReplicas _ _ - _)), int64_id by lia.
  set (total := sumReplicas (heap st) (l ++ [p])) in *. set (minAvailable := d_Replicas (dep st) - unavailable).
  destruct (Z.leb_spec (total - minAvailable - (replicasOf (heap st) p - replicasOf (heap st) p)) 0).
  { apply wp_ret. split_and!; [by eexists|done|done|apply shrinks_refl, Hsl|lia]. }
  apply wp_bind, wp_try. unfold wp at 1. rewrite cleanup_prompt by done. apply wp_bind, wp_try.
  unfold scaleDownOldReplicaSetsForRollingUpdate. wp. eapply fenceposts_wp; [done|]. cbn beta iota. rewrite int64_id by lia.
  apply wp_bind, wp_wrap. unfold wp at 1. rewrite GetAvailable_prompt by auto. fold total minAvailable.
  destruct (Z.leb_spec total minAvailable); [lia|]. unfold sortByCreation. wp. rewrite int64_id by lia.
  pose proof (sort_pointers (heap st) l) as Hsort. set (sorted := sort _ l) in *. clearbody sorted.
  eapply wp_mono; [apply wp_and|].
  - apply scaleDownLoop_wp; [by rewrite Hsort|by eapply valid_perm|by eapply sane_perm|lia|lia].
  - apply scaleDownLoop_prompt; [done| |by rewrite Hsort|by eapply valid_perm|by eapply sane_perm|lia|lia].
    intros q. rewrite Hsort. apply Hl.
  - cbn beta. intros r st' [Hpost ((n & ->) & HI')]. apply wp_ret.
    apply (shrink_post_perm _ l) in Hpost; [|done]. destruct Hpost as (Hsh & Hdep & Hn & Hx).
    rewrite (sumReplicas_perm (heap st) sorted l) in Hx by done. split_and!; [by eexists|done|done|done|lia].
Qed.

(** Rolling goes on. *)
Lemma rolling_step l p surge unavailable st st' : rolling l p surge unavailable st → dep st' = dep st →
  only_changes (l ++ [p]) (heap st) (heap st') → (∀ q, q ∈ l ++ [p] → 0 <= replicasOf (heap st') q) →
  sumReplicas (heap st') (l ++ [p]) <= 2 ^ 60 → rolling l p surge unavailable st'.
Proof.
  intros [Hres Hnd Hv Hs Hlimit Hlen] Hd Hc Hr Hsum. split; rewrite ?Hd; try done. by eapply only_changes_valid.
Qed.

(** A step on the sizes, within the bounds of the sum. *)
Lemma roll_facts desired surge unavailable old new : 0 <= desired → 0 <= surge → 0 <= unavailable →
  1 <= surge + unavailable → 0 <= old → 0 <= new →
  let '(old', new') := roll desired surge unavailable (old, new) in
  0 <= old' <= old ∧ 0 <= new' ∧
  Z.min (old + new) (desired - unavailable) <= old' + new' <= Z.max (old + new) (desired + surge) ∧
  Z.abs (desired - new') + old' <= Z.max 0 (Z.abs (desired - new) + old - 1).
Proof.
  intros. unfold roll, target.
  destruct (Z.ltb_spec desired new), (Z.leb_spec (desired + surge) (old + new));
    repeat match goal with |- context [?a =? ?b] => destruct (Z.eqb_spec a b) end; lia.
Qed.

(** One sync of a cluster that keeps up. *)
Definition rolled l p surge unavailable st (r : result string unit) st' : Prop :=
  r = Ok tt ∧ I (heap st') (server st') ∧ dep st' = dep st ∧ rolling l p surge unavailable st' ∧
  (sumReplicas (heap st') l, replicasOf (heap st') p) =
    roll (d_Replicas (dep st)) surge unavailable (sumReplicas (heap st) l, replicasOf (heap st) p).

Lemma rolled_written l p surge unavailable st st1 r st2 : rolled l p surge unavailable st (Ok tt) st1 →
  written st1 r st2 → rolled l p surge unavailable st r st2.
Proof.
  intros (_ & HI & Hd & Hrol & Hsum) (-> & Hh & Hd2 & HI2). unfold rolled. rewrite Hh, Hd2. split_and!; try done.
  - by rewrite <- Hh.
  - eapply rolling_step; [done|done| | |]; rewrite Hh; [done|apply Hrol|apply Hrol].
Qed.

Lemma rolled_new l p surge unavailable st st1 n o : rolling l p surge unavailable st → heap st !! p = Some o →
  n = target (d_Replicas (dep st)) surge (sumReplicas (heap st) (l ++ [p])) (replicasOf (heap st) p) →
  replicasOf (heap st) p ≠ n → heap st1 = <[p := with_Replicas n o]> (heap st) → dep st1 = dep st →
  I (heap st1) (server st1) → rolled l p surge unavailable st (Ok tt) st1.
Proof.
  intros Hrol Ho Hn Hne Hh Hd HI. pose proof Hrol as [Hres Hnd Hv Hs _ Hlen].
  destruct (sane_snoc _ _ _ Hs) as (Hsl & Hsum0 & Hp & Hsum). pose proof (resolves_positive _ _ _ Hres).
  destruct Hres as (_ & _ & _ & _ & _ & Hdr & Hsu & Hun).
  assert (p ∉ l) as Hpl by (apply NoDup_app in Hnd as (_ & Hnd & _); intros Hin; by apply (Hnd p Hin), list_elem_of_singleton).
  pose proof (roll_facts (d_Replicas (dep st)) surge unavailable (sumReplicas (heap st) l) (replicasOf (heap st) p)) as Hroll.
  unfold roll in Hroll. rewrite <- Hsum, <- Hn in Hroll. destruct (Z.eqb_spec n (replicasOf (heap st) p)); [by destruct Hne|].
  cbn beta iota in Hroll. assert (replicasOf (heap st1) p = n) as Hp1 by (rewrite Hh; apply replicasOf_insert_eq).
  destruct (sane_insert (heap st) p (with_Replicas n o) l Hpl Hsl) as [Hsl1 Hsum1]. rewrite <- Hh in Hsl1, Hsum1.
  assert (0 <= n ∧ sumReplicas (heap st1) (l ++ [p]) <= 2 ^ 60) as [Hn0 Hle].
  { rewrite sumReplicas_app, sumReplicas_cons, Hp1, Hsum1. change (sumReplicas (heap st1) []) with 0. pose proof (proj2 Hs). lia. }
  unfold rolled. split_and!; try done.
  - eapply rolling_step; [done|done| | |done].
    + rewrite Hh. eapply only_changes_mono, only_changes_insert; [clear; set_solver|done].
    + intros q [Hq|Hq]%elem_of_app; [by apply Hsl1|]. apply list_elem_of_singleton in Hq as ->. by rewrite Hp1.
  - rewrite Hp1, Hsum1. unfold roll. rewrite <- Hsum, <- Hn. destruct (Z.eqb_spec n (replicasOf (heap st) p)); [by destruct Hne|done].
Qed.

Lemma rolled_old l p surge unavailable st st1 : rolling l p surge unavailable st →
  replicasOf (heap st) p = target (d_Replicas (dep st)) surge (sumReplicas (heap st) (l ++ [p])) (replicasOf (heap st) p) →
  I (heap st1) (server st1) → dep st1 = dep st → shrinks l (heap st) (heap st1) →
  sumReplicas (heap st) l - sumReplicas (heap st1) l = Z.max 0 (Z.min
    (sumReplicas (heap st) (l ++ [p]) - (d_Replicas (dep st) - unavailable)) (sumReplicas (heap st) l)) →
  rolled l p surge unavailable st (Ok tt) st1.
Proof.
  intros Hrol Hn HI Hd Hsh Hx. pose proof Hrol as [Hres Hnd Hv Hs _ Hlen].
  destruct (sane_snoc _ _ _ Hs) as (Hsl & Hsum0 & Hp & Hsum).
  assert (p ∉ l) as Hpl by (apply NoDup_app in Hnd as (_ & Hnd & _); intros Hin; by apply (Hnd p Hin), list_elem_of_singleton).
  assert (replicasOf (heap st1) p = replicasOf (heap st) p) as Hp1 by (eapply only_changes_replicas; [apply Hsh|done]).
  destruct (shrinks_sane _ _ _ Hsh Hsl) as [Hsl1 Hle]. unfold rolled. split_and!; try done.
  - eapply rolling_step; [done|done| | |].
    + eapply only_changes_mono; [|apply Hsh]. clear. set_solver.
    + intros q [Hq|Hq]%elem_of_app; [by apply Hsl1|]. apply list_elem_of_singleton in Hq as ->. by rewrite Hp1.
    + rewrite sumReplicas_app, sumReplicas_cons, Hp1. change (sumReplicas (heap st1) []) with 0.
      pose proof (proj2 Hs). lia.
  - rewrite Hp1. unfold roll. rewrite <- Hsum, <- Hn, Z.eqb_refl. f_equal. lia.
Qed.

Lemma rollingUpdate_prompt st p l surge unavailable : d_MinReadySeconds (dep st) = minReady → I (heap st) (server st) → l ++ [p] ⊆ all →
  rolling l p surge unavailable st → d_RevisionHistoryLimit (dep st) = None →
  wp (rollingUpdate (Some p) l) (rolled l p surge unavailable st) st.
Proof.
  intros Hmr HI Hall Hrol Hlimit. pose proof Hrol as [Hres Hnd Hv Hs _ Hlen].
  destruct (active_facts (heap st) l p Hnd Hv Hs) as (Hnda & Hva & Hsa & Hsum & Hsum' & Hshr).
  set (active := filter _ l) in *.
  assert (active ⊆ l) as Hsub by (intros q Hq; by apply list_elem_of_filter in Hq as [_ ?]).
  assert (active ++ [p] ⊆ all) as Halla by (clear -Hall Hsub; set_solver).
  unfold rollingUpdate, activeAndNew, FilterActive, derefNew. wp. fold active.
  change [Some p] with (Some <$> [p]). rewrite <- fmap_app.
  eapply wp_mono; [by apply (reconcileNew_wp st p active surge unavailable)|].
  intros r st1 (o & n & Ho & Hn & Hh & Hd & Hr). rewrite Hsum' in Hn.
  pose proof Hr as Hok. unfold scaled in Hr. destruct (Z.eqb_spec (replicasOf (heap st) p) n) as [E|E].
  - destruct Hr as [-> ->]. clear Hh Hd Hok. apply wp_bind, wp_gets. cbn beta iota. fold active. apply wp_bind.
    eapply wp_mono; [by apply (reconcileOld_prompt st p active surge unavailable)|].
    cbn beta. intros r st2 ([b ->] & HI2 & Hd & Hsh & Hx). destruct (Hshr _ Hsh) as [Hsh' Hsum2].
    assert (rolled l p surge unavailable st (Ok tt) st2) as Hstep.
    { apply rolled_old; try done; [congruence|]. rewrite <- Hsum, <- Hsum2, <- Hsum'. exact Hx. }
    assert (valid (heap st2) (active ++ [p])) as Hva2.
    { intros q Hq. apply Hstep. clear -Hq Hsub. set_solver. }
    destruct b.
    + eapply wp_mono; [by apply updateStatus_prompt; rewrite ?Hd|]. intros r st3 Hw. by eapply rolled_written.
    + apply wp_bind. unfold cleanupHistory. apply wp_bind, wp_gets. cbn beta iota. rewrite Hd, Hlimit. apply wp_ret.
      eapply wp_mono; [by apply syncStatus_prompt; rewrite ?Hd|]. intros r st3 Hw. by eapply rolled_written.
  - destruct (scaled_prompt st p n o r st1) as [Hr' HI1]; try done; [clear -Hall; set_solver| |].
    { rewrite Hn. pose proof Hres as (_ & ? & _ & _ & _ & ? & ? & _). apply target_nonneg; [lia|lia|]. by apply (sane_snoc _ l). }
    rewrite <- Hh in HI1. assert (rolled l p surge unavailable st (Ok tt) st1) as Hstep by by eapply rolled_new.
    destruct (Z.eqb_spec (replicasOf (heap st) p) n) as [?|_]; [done|]. cbn in Hr'. subst r.
    assert (valid (heap st1) (active ++ [p])) as Hva2.
    { intros q Hq. apply Hstep. clear -Hq Hsub. set_solver. }
    eapply wp_mono; [by apply updateStatus_prompt; rewrite ?Hd|]. intros r st2 Hw. by eapply rolled_written.
Qed.

End prompt.
End facts.

(** ** Theorems *)

(** The new replica set [Some p] and the old ones of the list, synced [n] times. *)
Section theorems.
Context {Spec Srv : Type} `{EqDecision Spec} `{A : API Spec Srv} `{TH : TemplateHash Spec} `{HS : HashSync Spec Srv}.
Context `{R : RangeOrder} `{K : KeySort} `{FC : FloatConv} `{rsSort : ∀ h, Sorts (ptr_Less (Spec := Spec) h)}.
Implicit Types (st : St Spec Srv) (p : nat) (l : list nat).

Fixpoint rollouts p l (n : nat) : M Spec Srv unit :=
  match n with
  | O => mret tt
  | S n => rollingUpdate (Some p) l;; rollouts p l n
  end.

(** The sizes of the old replica sets, together, and of the new one. *)
Definition sizes p l st : Z * Z := (sumReplicas (heap st) l, replicasOf (heap st) p).

Lemma rollouts_prompt minReady I owner p l surge unavailable n : keeps_up (l ++ [p]) minReady I owner → ∀ st,
  d_MinReadySeconds (dep st) = minReady →
  I (heap st) (server st) → rolling l p surge unavailable st → d_RevisionHistoryLimit (dep st) = None →
  wp (rollouts p l n) (λ r st', r = Ok tt ∧ dep st' = dep st ∧ rolling l p surge unavailable st' ∧
    sizes p l st' = Nat.iter n (roll (d_Replicas (dep st)) surge unavailable) (sizes p l st)) st.
Proof.
  intros Hup. induction n as [|n IH]; intros st Hmr HI Hrol Hlimit; cbn [rollouts]; [done|].
  apply wp_bind. eapply wp_mono; [by apply (rollingUpdate_prompt (l ++ [p]) minReady I owner Hup st p l surge unavailable)|].
  intros r st1 (-> & HI1 & Hd & Hrol1 & Hsizes). eapply wp_mono; [apply IH; rewrite ?Hd; done|].
  cbn beta. intros r st2 (-> & Hd2 & Hrol2 & Hsizes2). split; [done|]. split; [by rewrite Hd2|]. split; [done|].
  rewrite Hsizes2, Hd, Nat.iter_succ_r. f_equal. exact Hsizes.
Qed.

(** The sizes after any number of steps. *)
Lemma iter_roll desired surge unavailable old new n : 0 <= desired → 0 <= surge → 0 <= unavailable →
  1 <= surge + unavailable → 0 <= old → 0 <= new →
  let '(old', new') := Nat.iter n (roll desired surge unavailable) (old, new) in
  0 <= old' <= old ∧ 0 <= new' ∧
  Z.min (old + new) (desired - unavailable) <= old' + new' <= Z.max (old + new) (desired + surge) ∧
  Z.abs (desired - new') + old' <= Z.max 0 (Z.abs (desired - new) + old - Z.of_nat n).
Proof.
  intros Hd Hs Hu Hsu Ho Hn. induction n as [|n IH]; [cbn; lia|]. rewrite Nat.iter_succ.
  destruct (Nat.iter n _ _) as [old1 new1]. destruct IH as (? & ? & ? & ?).
  pose proof (roll_facts desired surge unavailable old1 new1). destruct (roll _ _ _ _) as [old2 new2]. lia.
Qed.

Lemma sum_zero (h : gmap nat (RS Spec)) l : (∀ q, q ∈ l → 0 <= replicasOf h q) → sumReplicas h l = 0 →
  ∀ q, q ∈ l → replicasOf h q = 0.
Proof.
  intros Hl Hsum q Hq. pose proof (sumReplicas_elem h l q Hq Hl). specialize (Hl q Hq). lia.
Qed.

(** C7: on a cluster that keeps up (every replica set has as many pods as its size,
    all of them available), [n] syncs of a rolling update make exactly [n] moves
    of the abstract roll-out on two numbers: the new replica set goes up by what
    the surge leaves, down to the desired size, or the old ones give what is above
    the minimum that must be available.  No sync fails. *)
Theorem rollingUpdate_refines_roll I owner p l surge unavailable st n :
  keeps_up (l ++ [p]) (d_MinReadySeconds (dep st)) I owner →
  I (heap st) (server st) → rolling l p surge unavailable st → d_RevisionHistoryLimit (dep st) = None →
  ∃ st', rollouts p l n st = Returns (st', Ok tt) ∧ dep st' = dep st ∧
    sizes p l st' = Nat.iter n (roll (d_Replicas (dep st)) surge unavailable) (sizes p l st).
Proof.
  intros Hup HI Hrol Hlimit. pose proof (rollouts_prompt _ I owner p l surge unavailable n Hup st eq_refl HI Hrol Hlimit) as H.
  unfold wp in H. destruct (rollouts p l n st) as [[st' r]|]; [|done]. destruct H as (-> & ? & _ & ?). by exists st'.
Qed.

(** C6: a rolling update on a cluster that keeps up reaches the desired state: after
    at most as many syncs as there are replicas to create or to remove, the new
    replica set has the desired size and the old ones are empty, and it stays so.
    After every sync the replicas are never fewer than the minimum that must be
    available, nor more than the surge allows, unless they were so already. *)
Theorem rolling_update_converges I owner p l surge unavailable st n :
  keeps_up (l ++ [p]) (d_MinReadySeconds (dep st)) I owner →
  I (heap st) (server st) → rolling l p surge unavailable st → d_RevisionHistoryLimit (dep st) = None →
  let desired := d_Replicas (dep st) in
  let total st := sumReplicas (heap st) (l ++ [p]) in
  ∃ st', rollouts p l n st = Returns (st', Ok tt) ∧
    Z.min (total st) (desired - unavailable) <= total st' <= Z.max (total st) (desired + surge) ∧
    (Z.abs (desired - replicasOf (heap st) p) + sumReplicas (heap st) l <= Z.of_nat n →
     replicasOf (heap st') p = desired ∧ ∀ q, q ∈ l → replicasOf (heap st') q = 0).
Proof.
  intros Hup HI Hrol Hlimit desired total.
  pose proof (rollouts_prompt _ I owner p l surge unavailable n Hup st eq_refl HI Hrol Hlimit) as H.
  unfold wp in H. destruct (rollouts p l n st) as [[st' r]|]; [|done]. destruct H as (-> & _ & Hrol' & Hsizes).
  exists st'. split; [done|]. destruct Hrol as [Hres _ _ Hs _ _]. pose proof (resolves_positive _ _ _ Hres).
  destruct Hres as (_ & _ & _ & _ & _ & Hd & Hsu & Hun). destruct (sane_snoc _ _ _ Hs) as (_ & Ho & Hn & Hsum).
  destruct Hrol' as [_ _ _ Hs' _ _]. destruct (sane_snoc _ _ _ Hs') as ([Hsl' _] & _ & _ & Hsum').
  pose proof (iter_roll desired surge unavailable (sumReplicas (heap st) l) (replicasOf (heap st) p) n) as Hiter.
  fold desired in Hsizes. unfold sizes in Hsizes. rewrite <- Hsizes in Hiter. unfold total. rewrite Hsum, Hsum'.
  destruct Hiter as (? & ? & ? & ?); [lia..|]. split; [lia|]. intros Hlast. split; [lia|]. apply sum_zero; [done|lia].
Qed.

Lemma step_safe_rolling l p surge unavailable st st' : rolling l p surge unavailable st →
  step_safe l p surge unavailable st st' → rolling l p surge unavailable st' ∧
  sumReplicas (heap st') (l ++ [p]) <= Z.max (sumReplicas (heap st) (l ++ [p])) (d_Replicas (dep st) + surge).
Proof.
  intros Hrol (Hd & Hnew & Hold). pose proof Hrol as [Hres Hnd Hv Hs _ _].
  destruct (sane_snoc _ _ _ Hs) as (Hsl & Hsum0 & Hp & Hsum). pose proof (proj2 Hs) as Hle.
  destruct Hres as (_ & _ & _ & _ & _ & Hdr & Hsu & _).
  assert (p ∉ l) as Hpl by (apply NoDup_app in Hnd as (_ & Hnd & _); intros Hin; by apply (Hnd p Hin), list_elem_of_singleton).
  set (n := target _ _ _ _) in *.
  assert (0 <= n ∧ sumReplicas (heap st) l + n <= Z.max (sumReplicas (heap st) (l ++ [p])) (d_Replicas (dep st) + surge)) as [Hn0 Hn].
  { split; [apply target_nonneg; lia|]. subst n. unfold target. zcases; lia. }
  assert (only_changes (l ++ [p]) (heap st) (heap st') ∧ (∀ q, q ∈ l → 0 <= replicasOf (heap st') q) ∧
    sumReplicas (heap st') l <= sumReplicas (heap st) l ∧ replicasOf (heap st') p = n) as (Hc & Hl' & Hl & Hp').
  { destruct (decide (n = replicasOf (heap st) p)) as [E|E].
    - destruct (Hold E) as [Hsh _]. destruct (shrinks_sane _ _ _ Hsh Hsl) as [[? _] ?].
      rewrite (only_changes_replicas l (heap st) (heap st') p) by (apply Hsh || done).
      split_and!; [|done|lia|done]. eapply only_changes_mono; [|apply Hsh]. clear. set_solver.
    - destruct (Hnew E) as [Hn' Hc]. assert (∀ q, q ∈ l → replicasOf (heap st') q = replicasOf (heap st) q) as Hq.
      { intros q Hq. eapply only_changes_replicas; [done|]. intros ->%list_elem_of_singleton. done. }
      split_and!; [| |by rewrite (sumReplicas_ext (heap st) (heap st'))|done].
      + eapply only_changes_mono; [|done]. clear. set_solver.
      + intros q Hin. rewrite Hq by done. by apply Hsl. }
  assert (sumReplicas (heap st') (l ++ [p]) = sumReplicas (heap st') l + n) as Hsum'.
  { rewrite sumReplicas_app, sumReplicas_cons, Hp'. change (sumReplicas (heap st') []) with 0. lia. }
  rewrite Hsum'. split; [|lia]. eapply rolling_step; [done|done|done| |lia].
  intros q [Hq|Hq]%elem_of_app; [by apply Hl'|]. apply list_elem_of_singleton in Hq as ->. lia.
Qed.

(** C5: one sync of a rolling update whose replica sets have sane sizes ([rolling]: not
    negative, and together at most 2^60) is safe, whichever of its updates the server refuses, as
    long as two things hold of the lists of pods that the server gives: no replica set is
    shown with more available pods than its size ([no_surplus]), and no list has 2^30
    pods ([few_pods]).  The sync then never panics, changes only the sizes of the deployment's
    own replica sets, never goes above the surge unless it was above already, and moves in
    one direction: either the new replica set goes to its target, or the old ones
    shrink, by no more than the unhealthy replicas and what available pods leave above
    the minimum.  What the sync relies on stays true.  Without [no_surplus], the code
    scales an old replica set that has more available pods than its size up. *)
Theorem rollingUpdate_safe p l surge unavailable st : no_surplus l st → few_pods →
  rolling l p surge unavailable st →
  ∃ st' r, rollingUpdate (Some p) l st = Returns (st', r) ∧
    rolling l p surge unavailable st' ∧ step_safe l p surge unavailable st st' ∧
    sumReplicas (heap st') (l ++ [p]) <= Z.max (sumReplicas (heap st) (l ++ [p])) (d_Replicas (dep st) + surge).
Proof.
  intros Hsur Hfew Hrol. pose proof (rollingUpdate_wp st p l surge unavailable Hsur Hfew Hrol) as H.
  unfold wp in H. destruct (rollingUpdate (Some p) l st) as [[st' r]|]; [|done]. exists st', r. split; [done|].
  destruct (step_safe_rolling _ _ _ _ _ _ Hrol H). done.
Qed.
End theorems.

(** ** Witnesses *)
#[local] Existing Instance canonical_order.
#[local] Existing Instance canonical_sort.
#[local] Existing Instance whole_floats.

(** Pointers to nothing come last. *)
Definition pointer_Less (h : gmap nat (RS unit)) : Sorts (ptr_Less h).
Proof.
  set (le p q := match h !! p, h !! q with
    | Some a, Some b => overlapping_Less (rs b) (rs a) = false | _, None => True | None, Some _ => False end).
  destruct overlapping_Less_order as (Hirr & Htrans & Hsplit).
  assert (RelDecision le) by (intros p q; unfold le; destruct (h !! p), (h !! q); apply _).
  assert (Total le).
  { intros p q. unfold le. destruct (h !! p) as [a|], (h !! q) as [b|]; auto.
    destruct (overlapping_Less (rs b) (rs a)) eqn:E; [|by left]. right.
    destruct (overlapping_Less (rs a) (rs b)) eqn:E'; [|done]. by rewrite <- (Hirr (rs a)), (Htrans _ _ _ E' E). }
  assert (Transitive le).
  { intros p q r. unfold le. destruct (h !! p) as [a|], (h !! q) as [b|], (h !! r) as [c|]; try done.
    intros Hba Hcb. apply not_true_is_false. intros Hca. destruct (Hsplit _ (rs b) _ Hca); congruence. }
  refine {| sort := merge_sort le |}.
  - intros l. apply merge_sort_Permutation.
  - intros l. pose proof (StronglySorted_merge_sort le l) as Hs. induction Hs as [|p l' Hs IH Hl]; constructor; [done|].
    eapply Forall_impl; [exact Hl|]. intros q. unfold le, ptr_Less. by destruct (h !! p), (h !! q).
Defined.
#[local] Existing Instance pointer_Less.

(** *** A small cluster

    Two replica sets, "a" and "b"; the server keeps their sizes and makes the pods
    at once. *)
Module Demo.

Definition selector (name : string) : option LabelSelector := Some (mkLabelSelector {["rs" := name]} []).

Definition rset (name : string) (n : Z) : RS unit :=
  mkRS (mkReplicaSet "ns" name 1 0 n (selector name) 0 0) ∅ (mkTemplate ∅ tt).

Definition pod (name : string) (i : nat) : Pod :=
  mkPod "ns" (name +:+ FormatInt (Z.of_nat i)) {["rs" := name]} "node" PodRunning [mkCondition PodReady ConditionTrue 1] [] 1 None "uid" "1" ∅ "" [] None.

Definition pods (name : string) (n : Z) : list Pod := pod name <$> seq 0 (Z.to_nat n).

Definition Srv : Type := Z * Z.

#[export] Instance api : API unit Srv := {|
  IsNotFound _ := false;
  time_Now _ := 10 ^ 18;
  server_ListPods _ sel s :=
    (s, Ok (if Labels.Matches sel ({["rs" := "a"]} : Set_) then pods "a" s.1 else pods "b" s.2));
  server_UpdateRS o s :=
    (if bool_decide (rs_Name (rs o) = "a") then (rs_Replicas (rs o), s.2) else (s.1, rs_Replicas (rs o)), Ok o);
  server_CreateRS o s := (s, Ok o);
  server_DeleteRS _ _ s := (s, None);
  server_UpdateDeployment _ s := (s, None);
  server_UpdateStatus _ s := (s, None);
|}.

Definition rolling_strategy : RollingUpdateDeployment := mkRollingUpdate (FromInt 1) (FromInt 1).

Definition deployment (desired : Z) : Deployment unit :=
  mkDeployment "ns" "d" 1 ∅ desired (selector "a") (mkTemplate ∅ tt) RollingUpdateDeploymentStrategyType
    (Some rolling_strategy) 10 None false None (mkDStatus 0 0 0 0 0).

(** Pointer 1 is "a", the old one, and pointer 2 is "b", the new one. *)
Definition sets (s : Srv) : gmap nat (RS unit) := {[1%nat := rset "a" s.1; 2%nat := rset "b" s.2]}.

Definition start : St unit Srv := mkSt (sets (3, 0)) (deployment 3) (3, 0) WorkQueue.New.

Definition caught_up (h : gmap nat (RS unit)) (s : Srv) : Prop := h = sets s ∧ 0 <= s.1 ∧ 0 <= s.2.

Definition owner (name : string) : nat :=
  match name with String c _ => if decide (c = "a"%char) then 1 else 2 | "" => 0 end.

Lemma pods_facts name n ms : name = "a" ∨ name = "b" → 0 <= n → ms = 0 ∨ ms = 10 →
  Z.of_nat (length (pods name n)) = n ∧ NoDup (Name <$> pods name n) ∧
  ∀ p, p ∈ pods name n → owner (Name p) = (if decide (name = "a") then 1%nat else 2%nat) ∧
    IsPodAvailable (10 ^ 18) p ms = true.
Proof.
  intros Hname Hn Hms. unfold pods. rewrite length_fmap, length_seq. split; [lia|]. split.
  - rewrite <- list_fmap_compose. apply NoDup_fmap_2; [|apply NoDup_seq].
    intros i j E. cbn in E. apply Nat2Z.inj. destruct Hname as [-> | ->]; injection E as E; by apply FormatInt_inj in E.
  - intros p (i & -> & _)%list_elem_of_fmap. destruct Hname as [-> | ->], Hms as [-> | ->]; done.
Qed.

Lemma keeps : keeps_up [1%nat; 2%nat] 10 caught_up owner.
Proof.
  assert (∀ s p o, p ∈ [1%nat; 2%nat] → sets s !! p = Some o →
    p = 1%nat ∧ o = rset "a" s.1 ∨ p = 2%nat ∧ o = rset "b" s.2) as Hsets.
  { intros s p o Hp Ho. apply elem_of_cons in Hp as [-> | ->%list_elem_of_singleton]; [left|right];
      (split; [done|by injection Ho as <-]). }
  split.
  - intros h s p o [-> [Ha Hb]] Hp Ho. destruct (Hsets s p o Hp Ho) as [[-> ->] | [-> ->]].
    + destruct (pods_facts "a" s.1 0) as (Hlen & Hnd & _); [by left|done|by left|].
      eexists _, (pods "a" s.1). split; [reflexivity|]. split; [reflexivity|]. split_and!; [done..|].
      intros q ms Hq Hms. apply (pods_facts "a" s.1 ms); auto.
    + destruct (pods_facts "b" s.2 0) as (Hlen & Hnd & _); [by right|done|by left|].
      eexists _, (pods "b" s.2). split; [reflexivity|]. split; [reflexivity|]. split_and!; [done..|].
      intros q ms Hq Hms. apply (pods_facts "b" s.2 ms); auto.
  - intros h s p o n [-> [Ha Hb]] Hp Ho Hn. destruct (Hsets s p o Hp Ho) as [[-> ->] | [-> ->]];
      (eexists _, _; split; [reflexivity|]; split; [|done]); unfold sets; cbn [fst snd].
    + by rewrite insert_insert_eq.
    + rewrite insert_insert_ne by done. by rewrite insert_singleton_eq.
  - intros h s d HI. by exists s.
Qed.

Lemma start_rolling : rolling [1%nat] 2 1 1 start.
Proof.
  split; [| | | |done|done].
  - split; [done|]. exists rolling_strategy. by split_and!.
  - repeat constructor; set_solver.
  - intros p [-> | ->%list_elem_of_singleton]%elem_of_cons; by eexists.
  - split; [|done]. by intros p [-> | ->%list_elem_of_singleton]%elem_of_cons.
Qed.

Lemma start_caught_up : caught_up (heap start) (server start).
Proof. done. Qed.

(** A server that lags: two of the three pods of "a", whatever is asked of it, and
    it refuses every update. *)
Definition stuck : API unit unit := {|
  IsNotFound _ := false;
  time_Now _ := 10 ^ 18;
  server_ListPods _ sel s :=
    (s, Ok (if Labels.Matches sel ({["rs" := "a"]} : Set_) then pods "a" 2 else []));
  server_UpdateRS o s := (s, Err "conflict");
  server_CreateRS o s := (s, Err "conflict");
  server_DeleteRS _ _ s := (s, Some "conflict");
  server_UpdateDeployment _ s := (s, Some "conflict");
  server_UpdateStatus _ s := (s, Some "conflict");
|}.

Definition stuck_start : St unit unit := mkSt (sets (3, 1)) (deployment 3) tt WorkQueue.New.

Lemma stuck_no_surplus : no_surplus (A := stuck) [1%nat] stuck_start.
Proof.
  intros p st' ->%list_elem_of_singleton _ Hp. destruct st' as [h d [] q]. cbn in Hp.
  change (sets (3, 1) !! 1%nat) with (Some (rset "a" 3)) in Hp.
  unfold GetAvailablePodsForReplicaSets, GetPodsForReplicaSets. cbn [podsLoop]. apply wp_bind, wp_bind, wp_bind.
  unfold wp, deref. cbn [heap]. rewrite Hp. by vm_compute.
Qed.

Lemma stuck_few_pods : few_pods (A := stuck).
Proof. intros ns sel s s' l [= <- <-]. destruct (Labels.Matches _ _); by vm_compute. Qed.

Lemma stuck_rolling : rolling [1%nat] 2 1 1 stuck_start.
Proof.
  destruct start_rolling as [Hres Hnd Hv Hs Hlim Hlen]. split; try done.
  - intros p [-> | ->%list_elem_of_singleton]%elem_of_cons; by eexists.
  - split; [|done]. by intros p [-> | ->%list_elem_of_singleton]%elem_of_cons.
Qed.
End Demo.
#[local] Existing Instance Demo.api.

(** From (3, 0): the new one goes to 1, the old one to 1, and so on. *)
Lemma rollingUpdate_refines_roll_witness : ∃ st', rollouts 2 [1%nat] 4 Demo.start = Returns (st', Ok tt) ∧
  dep st' = Demo.deployment 3 ∧ sizes 2 [1%nat] st' = (0, 3).
Proof.
  destruct (rollingUpdate_refines_roll Demo.caught_up Demo.owner 2 [1%nat] 1 1 Demo.start 4 Demo.keeps
    Demo.start_caught_up Demo.start_rolling eq_refl) as (st' & Hst' & Hd & Hsizes).
  exists st'. split; [exact Hst'|]. split; [exact Hd|]. rewrite Hsizes. by vm_compute.
Defined.

Lemma rolling_update_converges_witness : ∃ st', rollouts 2 [1%nat] 6 Demo.start = Returns (st', Ok tt) ∧
  replicasOf (heap st') 2 = 3 ∧ replicasOf (heap st') 1 = 0.
Proof.
  destruct (rolling_update_converges Demo.caught_up Demo.owner 2 [1%nat] 1 1 Demo.start 6 Demo.keeps
    Demo.start_caught_up Demo.start_rolling eq_refl) as (st' & Hst' & _ & Hfin).
  exists st'. split; [exact Hst'|]. destruct Hfin as [Hnew Hold]; [by vm_compute|].
  split; [exact Hnew|]. apply Hold. by left.
Defined.

Lemma rollingUpdate_safe_witness : ∃ st' r, rollingUpdate (A := Demo.stuck) (Some 2%nat) [1%nat] Demo.stuck_start = Returns (st', r) ∧
  sumReplicas (heap st') [1%nat; 2%nat] <= 4.
Proof.
  destruct (rollingUpdate_safe (A := Demo.stuck) 2 [1%nat] 1 1 Demo.stuck_start Demo.stuck_no_surplus
    Demo.stuck_few_pods Demo.stuck_rolling) as (st' & r & Hst' & _ & _ & Hle).
  exists st', r. split; [exact Hst'|]. exact Hle.
Defined.
