(* ===== verification/Revisions.v ===== *)
(** * Deployments: revisions, old replica sets and rollback

    What the controller of [Deployment] does with revision annotations: how it
    stamps the new replica set, which revisions count as the last ones, which
    replica sets are old, and what a rollback leads to. *)

From S2P Require Import Prelude.
From S2P Require Import ThreadSafeStore.
From S2P Require Import Store.
From S2P Require Import WorkQueue.
From S2P Require Import Informer.
From S2P Require Import Strconv.
From S2P Require Import IntStr.
From S2P Require Import Labels.
From S2P Require Import Pods.
From S2P Require Import Listers.
From S2P Require Import DeploymentUtil.
From S2P Require Import Deployment.
From S2P Require Import Rollout.

#[local] Open Scope Z_scope.

(** Names for the two results of a loop that a hypothesis is about. *)
Ltac fold_pair H a b :=
  match type of H with context [foldl ?f ?x ?l] =>
    let E := fresh in destruct (foldl f x l) as [a b] eqn:E; rewrite ?E in H; clear E end.

(** ** Labels *)

Section labels.
Context `{R : RangeOrder}.

Lemma cloneLabels_id (labels : Set_) : cloneLabels labels = labels.
Proof.
  unfold cloneLabels.
  assert (∀ (l : list (string * string)) (m : gmap string string), NoDup l.*1 →
    foldl (λ m '(k, v), <[k := v]> m) m l = list_to_map l ∪ m) as Hfold.
  { induction l as [|[k v] l IH]; intros m Hnd; cbn [foldl].
    { by rewrite list_to_map_nil, (left_id_L ∅ (∪)). }
    cbn in Hnd. apply NoDup_cons in Hnd as [Hk Hnd]. rewrite IH, list_to_map_cons by done.
    rewrite <- insert_union_l, insert_union_r; [done|]. by apply not_elem_of_list_to_map_1. }
  etrans; [apply Hfold, NoDup_range_keys|]. rewrite (right_id_L ∅ (∪)). etrans; [|apply (list_to_map_to_list labels)].
  apply list_to_map_proper; [apply NoDup_range_keys|apply range_map_perm].
Qed.

(** Removing what was added. *)
Lemma CloneAndRemoveLabel_add (labels : Set_) k v : k ≠ "" → labels !! k = None →
  CloneAndRemoveLabel (CloneAndAddLabel labels k v) k = labels.
Proof.
  intros Hk Hl. unfold CloneAndRemoveLabel, CloneAndAddLabel. rewrite !bool_decide_false by done.
  rewrite !cloneLabels_id. by apply delete_insert_id.
Qed.
End labels.

(** ** Annotations and revisions *)

Section revisions.
Context {Spec Srv : Type} `{EqDecision Spec} `{A : API Spec Srv} `{TH : TemplateHash Spec}.
Context `{R : RangeOrder} `{K : KeySort} `{FC : FloatConv}.
Implicit Types (o : RS Spec) (d : Deployment Spec) (st : St Spec Srv).

(** Annotations that a deployment does not share with its replica sets. *)
Definition own_annotation (k : string) : bool :=
  bool_decide (k = LastAppliedConfigAnnotation) || bool_decide (k = RevisionAnnotation).

(** What a replica set has under a key, afterwards. *)
Definition copied (a b : gmap string string) (k : string) : option string :=
  match a !! k with
  | Some v => if own_annotation k || bool_decide (annotation b k = v) then b !! k else Some v
  | None => b !! k
  end.

Lemma annotation_lookup (b : gmap string string) k : annotation b k = default "" (b !! k).
Proof. done. Qed.

Lemma annotation_insert_ne (b : gmap string string) k k' v : k ≠ k' → annotation (<[k := v]> b) k' = annotation b k'.
Proof. intros Hne. by rewrite !annotation_lookup, lookup_insert_ne. Qed.

Lemma annotation_insert_eq (b : gmap string string) k v : annotation (<[k := v]> b) k = v.
Proof. by rewrite annotation_lookup, lookup_insert_eq. Qed.

(** One turn of the loop that copies. *)
Definition copy_step : gmap string string * bool → string * string → gmap string string * bool :=
  λ '(a, rsAnnotationsChanged) '(k, v),
  if own_annotation k || bool_decide (annotation a k = v) then (a, rsAnnotationsChanged) else (<[k := v]> a, true).

Lemma copy_loop (l : list (string * string)) : ∀ (b : gmap string string) c, NoDup l.*1 →
  let '(b', c') := foldl copy_step (b, c) l in
  (∀ k, b' !! k = copied (list_to_map l) b k) ∧ (c' = true ↔ c = true ∨ b' ≠ b).
Proof.
  induction l as [|[k v] l IH]; intros b c Hnd; cbn [foldl].
  { split; [|naive_solver]. intros k. unfold copied. by rewrite list_to_map_nil, lookup_empty. }
  cbn in Hnd. apply NoDup_cons in Hnd as [Hk Hnd]. cbn [copy_step].
  apply not_elem_of_list_to_map_1 in Hk. pose proof (λ b c, IH b c Hnd) as IH'. clear IH.
  destruct (own_annotation k || bool_decide (annotation b k = v)) eqn:E.
  - specialize (IH' b c). fold_pair IH' b' c'. destruct IH' as [Hl Hc]. split; [|done].
    intros k'. rewrite Hl. unfold copied. rewrite list_to_map_cons. destruct (decide (k' = k)) as [->|Hne].
    + by rewrite Hk, lookup_insert_eq, E.
    + by rewrite lookup_insert_ne.
  - apply orb_false_iff in E as [E1 E2]. apply bool_decide_eq_false in E2. specialize (IH' (<[k := v]> b) true).
    fold_pair IH' b' c'. destruct IH' as [Hl Hc].
    assert (b' !! k = Some v) as Hbk by (rewrite Hl; unfold copied; by rewrite Hk, lookup_insert_eq).
    split.
    + intros k'. rewrite Hl. unfold copied. rewrite list_to_map_cons. destruct (decide (k' = k)) as [->|Hne].
      * rewrite Hk, !lookup_insert_eq, E1. by rewrite bool_decide_false.
      * rewrite (annotation_insert_ne b k k' v) by done. by rewrite !(lookup_insert_ne _ k k') by done.
    + split; [|intros _; apply Hc; by left]. intros _. right. intros ->. apply E2. by rewrite annotation_lookup, Hbk.
Qed.

Lemma copy_ok d (b : gmap string string) : let '(b', c) := copyDeploymentAnnotationsToReplicaSet d b in
  (∀ k, (b' : gmap string string) !! k = copied (d_Annotations d) b k) ∧ (c = true ↔ b' ≠ b).
Proof.
  change (copyDeploymentAnnotationsToReplicaSet d b) with (foldl copy_step (b, false) (range_map (d_Annotations d))).
  pose proof (copy_loop (range_map (d_Annotations d)) b false (NoDup_range_keys _)) as H.
  fold_pair H b' c. destruct H as [Hl Hc]. split; [|naive_solver].
  intros k. rewrite Hl. unfold copied.
  assert (list_to_map (range_map (d_Annotations d)) !! k = (d_Annotations d : gmap string string) !! k) as ->; [|done].
  f_equal. etrans; [|apply (list_to_map_to_list (d_Annotations d))].
  apply list_to_map_proper; [apply NoDup_range_keys|apply range_map_perm].
Qed.

(** The revisions of a list that are numbers. *)
Definition revisions (l : list (RS Spec)) : list Z :=
  omap (λ o, match Revision o with Ok v => Some v | Err _ => None end) l.

Lemma revisions_snoc l o : revisions (l ++ [o]) = revisions l ++ match Revision o with Ok v => [v] | Err _ => [] end.
Proof. unfold revisions. rewrite omap_app. cbn. by destruct (Revision o). Qed.

(** The largest and the second largest, with two zeros. *)
Lemma two_largest l :
  let '(max, secMax) := foldl (λ '(max, secMax) o,
    match Revision o with
    | Err _ => (max, secMax)
    | Ok v => if max <=? v then (v, max) else if secMax <? v then (max, v) else (max, secMax)
    end) (0, 0) l in
  ∃ rest, 0 :: 0 :: revisions l ≡ₚ max :: secMax :: rest ∧ secMax <= max ∧ Forall (λ v, v <= secMax) rest.
Proof.
  induction l as [|o l IH] using rev_ind; [by exists []|]. rewrite foldl_snoc, revisions_snoc.
  fold_pair IH m1 m2.
  destruct IH as (rest & Hp & Hle & Hr). destruct (Revision o) as [v|e]; [|rewrite app_nil_r; by exists rest].
  assert (0 :: 0 :: revisions l ++ [v] ≡ₚ v :: m1 :: m2 :: rest) as Hp'.
  { rewrite <- Hp. rewrite (Permutation_app_comm (revisions l)). cbn. solve_Permutation. }
  destruct (Z.leb_spec m1 v); [|destruct (Z.ltb_spec m2 v)].
  - exists (m2 :: rest). split; [done|]. split; [lia|]. constructor; [lia|].
    eapply Forall_impl; [exact Hr|]. cbn. lia.
  - exists (m2 :: rest). split; [rewrite Hp'; apply Permutation_swap|]. split; [lia|]. constructor; [lia|].
    eapply Forall_impl; [exact Hr|]. cbn. lia.
  - exists (v :: rest). split; [rewrite Hp'; solve_Permutation|]. split; [done|]. by constructor.
Qed.

Lemma maxRevision_two l : maxRevision l = (foldl (λ '(m1, m2) o,
    match Revision o with
    | Err _ => (m1, m2)
    | Ok v => if m1 <=? v then (v, m1) else if m2 <? v then (m1, v) else (m1, m2)
    end) (0, 0) l).1.
Proof.
  unfold maxRevision. induction l as [|o l IH] using rev_ind; [done|]. rewrite !foldl_snoc, IH.
  match goal with |- context [foldl ?f ?x l] => destruct (foldl f x l) as [m1 m2] end. cbn.
  destruct (Revision o) as [v|e]; [|done]. destruct (Z.ltb_spec m1 v), (Z.leb_spec m1 v); try lia; try done.
  - cbn. lia.
  - by destruct (m2 <? v).
Qed.

(** The last revision is the second largest: with two revisions 0 added, for
    replica sets that have none, [maxRevision] and [lastRevision] are the two
    largest, and replica sets whose revision is no number do not count. *)
Theorem revisions_two_largest l : ∃ rest,
  0 :: 0 :: revisions l ≡ₚ maxRevision l :: lastRevision l :: rest ∧
  lastRevision l <= maxRevision l ∧ Forall (λ v, v <= lastRevision l) rest.
Proof.
  rewrite maxRevision_two. unfold lastRevision. pose proof (two_largest l) as H.
  fold_pair H m1 m2. exact H.
Qed.

(** Stamping the new replica set copies every annotation of the deployment but
    the two of its own, keeps the others, reports a change exactly when there is
    one, and sets the revision only when it is smaller {e as a string}: a new
    revision "10" never replaces a "9". *)
Theorem setNewReplicaSetAnnotations_spec d o newRevision :
  let '(o', changed) := setNewReplicaSetAnnotations d o newRevision in
  rs o' = rs o ∧ rs_Template o' = rs_Template o ∧ (changed = true ↔ rs_Annotations o' ≠ rs_Annotations o) ∧
  (∀ k, k ≠ RevisionAnnotation →
    (rs_Annotations o' : gmap string string) !! k = copied (d_Annotations d) (rs_Annotations o) k) ∧
  annotation (rs_Annotations o') RevisionAnnotation =
    (let current := annotation (rs_Annotations o) RevisionAnnotation in
     if string_lt current newRevision then newRevision else current) ∧
  ((rs_Annotations o : gmap string string) !! RevisionAnnotation = Some (FormatInt 9) → newRevision = FormatInt 10 →
    Revision o' = Ok 9).
Proof.
  unfold setNewReplicaSetAnnotations. pose proof (copy_ok d (rs_Annotations o)) as H.
  destruct (copyDeploymentAnnotationsToReplicaSet d (rs_Annotations o)) as [a c]. destruct H as [Hl Hc].
  assert ((a : gmap string string) !! RevisionAnnotation = (rs_Annotations o : gmap string string) !! RevisionAnnotation) as Hrev.
  { rewrite Hl. unfold copied, own_annotation. rewrite (bool_decide_true (RevisionAnnotation = RevisionAnnotation)), orb_true_r by done.
    by destruct ((d_Annotations d : gmap string string) !! RevisionAnnotation). }
  assert (annotation a RevisionAnnotation = annotation (rs_Annotations o) RevisionAnnotation) as Hann.
  { by rewrite !annotation_lookup, Hrev. }
  rewrite Hann. destruct (string_lt (annotation (rs_Annotations o) RevisionAnnotation) newRevision) eqn:Hlt; cbn.
  - split_and!; try done.
    + split; [|done]. intros _ E. assert (annotation (rs_Annotations o) RevisionAnnotation = newRevision) as E'.
      { rewrite <- E. apply annotation_insert_eq. }
      rewrite E' in Hlt. unfold string_lt in Hlt. apply bool_decide_eq_true in Hlt. by destruct Hlt.
    + intros k Hk. rewrite <- Hl. by apply (lookup_insert_ne (M := gmap string)).
    + apply annotation_insert_eq.
    + intros Ho ->. rewrite annotation_lookup, Ho in Hlt. by vm_compute in Hlt.
  - split_and!; try done. intros Ho ->. unfold Revision. cbn. etrans; [|exact (ParseInt_FormatInt 9 ltac:(lia))].
    change (match (a : gmap string string) !! RevisionAnnotation with Some v => ParseInt v | None => Ok 0 end = ParseInt (FormatInt 9)).
    by rewrite Hrev, Ho.
Qed.

(** ** A failed update of the revision *)

(** A computation that succeeds and leaves everything alone, the server included. *)
Definition makes_no_request {B} (m : M Spec Srv B) st (b : B) : Prop := m st = Returns (st, Ok b).

(** A revision that the server refuses is not tried again: the deployment of
    the local copy has it already, so that the next call makes no request and
    succeeds, whatever the server would answer, although the caller only logs that
    it "will retry later". *)
Theorem deployment_revision_not_retried revision st st1 e :
  updateDeploymentRevision revision st = Returns (st1, Err e) →
  ∀ st2, dep st2 = dep st1 → makes_no_request (updateDeploymentRevision revision) st2 tt.
Proof.
  unfold updateDeploymentRevision. change (gets dep ≫= ?f) with (λ st : St Spec Srv, f (dep st) st). cbn beta.
  destruct (bool_decide (annotation (d_Annotations (dep st)) RevisionAnnotation = revision)) eqn:E; [done|].
  cbn [negb]. intros Hfail st2 Hdep.
  assert (annotation (d_Annotations (dep st1)) RevisionAnnotation = revision) as Hrev.
  { unfold updateDeployment, request_, request, modify, gets, mbind, M_bind in Hfail. cbn in Hfail.
    destruct (server_UpdateDeployment _ (server st)) as [s [e'|]]; [|done]. injection Hfail as <- _. cbn. apply annotation_insert_eq. }
  unfold makes_no_request. rewrite Hdep, Hrev, bool_decide_true by done. done.
Qed.

(** ** Old replica sets *)

(** The replica sets of a map have distinct names when they are stored by name. *)
Definition by_name (m : gmap string (RS Spec)) : Prop := map_Forall (λ k o, rs_Name (rs o) = k) m.

Lemma by_name_values m : by_name m → NoDup (range_values m).
Proof.
  intros Hm. apply (NoDup_fmap_1 (λ o, rs_Name (rs o))).
  assert ((λ o, rs_Name (rs o)) <$> range_values m = range_keys m) as ->; [|apply NoDup_range_keys].
  unfold range_values, range_keys. rewrite <- list_fmap_compose. apply list_fmap_ext.
  intros i [k o] Hin%list_elem_of_lookup_2%elem_of_range_map. by apply Hm.
Qed.

(** Replica sets that one can be told from by name, and whose selectors can be used. *)
Record listing (l : list (RS Spec)) : Prop := {
  listing_names : NoDup ((λ o, rs_Name (rs o)) <$> l);
  listing_selectors o : o ∈ l → is_Ok (LabelSelectorAsSelector (rs_Selector (rs o)));
}.

Lemma listing_unique l o o' : listing l → o ∈ l → o' ∈ l → rs_Name (rs o) = rs_Name (rs o') → o = o'.
Proof.
  intros [Hnd _] (i & Hi)%list_elem_of_lookup (j & Hj)%list_elem_of_lookup E.
  assert (i = j) as ->; [|congruence]. eapply NoDup_lookup; [done| |]; rewrite list_lookup_fmap, ?Hi, ?Hj; cbn; [done|].
  by rewrite E.
Qed.

(** The replica sets of [m] are of the listing. *)
Definition from (l : list (RS Spec)) (m : gmap string (RS Spec)) : Prop := map_Forall (λ k o, rs_Name (rs o) = k ∧ o ∈ l) m.

Lemma from_insert l m o : from l m → o ∈ l → from l (<[rs_Name (rs o) := o]> m).
Proof. intros Hm Ho. by apply map_Forall_insert_2. Qed.

Lemma from_elem l m o x : listing l → from l m → o ∈ l → x ∈ l →
  ((<[rs_Name (rs x) := x]> m) !! rs_Name (rs o) = Some o ↔ o = x ∨ m !! rs_Name (rs o) = Some o).
Proof.
  intros Hl Hm Ho Hx. destruct (decide (rs_Name (rs x) = rs_Name (rs o))) as [E|E].
  - assert (x = o) as -> by by eapply listing_unique. rewrite lookup_insert_eq. naive_solver.
  - rewrite lookup_insert_ne by done. naive_solver.
Qed.

(** The selector of a replica set of the listing matches the labels. *)
Definition selects o (podLabels : Set_) : bool :=
  match LabelSelectorAsSelector (rs_Selector (rs o)) with Ok sel => Labels.Matches sel podLabels | Err _ => false end.

Lemma oldRSLoop_ok all template podLabels l : listing all → l ⊆ all → ∀ m1 m2, from all m1 → from all m2 →
  ∃ m1' m2', oldRSLoop template podLabels l (m1, m2) = Ok (m1', m2') ∧ from all m1' ∧ from all m2' ∧
    ∀ o, o ∈ all →
      (m1' !! rs_Name (rs o) = Some o ↔
        m1 !! rs_Name (rs o) = Some o ∨ o ∈ l ∧ rs_Template o ≠ template ∧ selects o podLabels = true) ∧
      (m2' !! rs_Name (rs o) = Some o ↔ m2 !! rs_Name (rs o) = Some o ∨ o ∈ l ∧ rs_Template o ≠ template).
Proof.
  intros Hall. induction l as [|x l IH]; intros Hl m1 m2 H1 H2; cbn [oldRSLoop].
  { exists m1, m2. split; [done|]. split; [done|]. split; [done|]. intros o Ho. split; set_solver. }
  assert (x ∈ all) as Hx by set_solver. assert (l ⊆ all) as Hl' by set_solver.
  pose proof (listing_selectors _ Hall x Hx) as Hsel. assert (∀ labels, selects x labels = match LabelSelectorAsSelector
    (rs_Selector (rs x)) with Ok sel => Labels.Matches sel labels | Err _ => false end) as Hselects by done.
  destruct (LabelSelectorAsSelector (rs_Selector (rs x))) as [sel|]; [|by destruct Hsel]. clear Hsel.
  destruct (decide (rs_Template x = template)) as [E|E].
  - destruct (IH Hl' m1 m2 H1 H2) as (m1' & m2' & Hloop & H1' & H2' & Hspec). exists m1', m2'. split_and!; [done..|].
    intros o Ho. destruct (Hspec o Ho) as [-> ->]. rewrite elem_of_cons. clear -E. naive_solver.
  - rewrite <- Hselects.
    destruct (IH Hl' (if selects x podLabels then <[rs_Name (rs x) := x]> m1 else m1) (<[rs_Name (rs x) := x]> m2))
      as (m1' & m2' & Hloop & H1' & H2' & Hspec).
    { destruct (selects _ _); [by apply from_insert|done]. }
    { by apply from_insert. }
    exists m1', m2'. split_and!; [done..|]. intros o Ho. destruct (Hspec o Ho) as [-> ->].
    rewrite (from_elem all m2 o x) by done. rewrite elem_of_cons. split; [|clear -E; naive_solver].
    destruct (selects x podLabels) eqn:Es; [rewrite (from_elem all m1 o x) by done|]; clear -E Es; naive_solver congruence.
Qed.

Lemma oldRSPodsLoop_ok all template pods : listing all → ∀ m1 m2, from all m1 → from all m2 →
  ∃ m1' m2', oldRSPodsLoop template pods all (m1, m2) = Ok (m1', m2') ∧ from all m1' ∧ from all m2' ∧
    ∀ o, o ∈ all →
      (m1' !! rs_Name (rs o) = Some o ↔ m1 !! rs_Name (rs o) = Some o ∨
        rs_Template o ≠ template ∧ ∃ pod, pod ∈ pods ∧ selects o (pod_Labels pod) = true) ∧
      (m2' !! rs_Name (rs o) = Some o ↔ m2 !! rs_Name (rs o) = Some o ∨ pods ≠ [] ∧ rs_Template o ≠ template).
Proof.
  intros Hall. induction pods as [|pod pods IH]; intros m1 m2 H1 H2; cbn [oldRSPodsLoop].
  { exists m1, m2. split_and!; [done..|]. intros o Ho. split; set_solver. }
  destruct (oldRSLoop_ok all template (pod_Labels pod) all Hall ltac:(done) m1 m2 H1 H2)
    as (n1 & n2 & Hloop & H1' & H2' & Hspec). rewrite Hloop. cbn [mbind result_bind].
  destruct (IH n1 n2 H1' H2') as (m1' & m2' & Hrest & H1'' & H2'' & Hspec'). exists m1', m2'. split_and!; [done..|].
  intros o Ho. destruct (Hspec' o Ho) as [-> ->]. destruct (Hspec o Ho) as [-> ->].
  clear -Ho. split; [setoid_rewrite elem_of_cons; naive_solver|]. destruct (decide (pods = [])); naive_solver.
Qed.

Lemma from_values l m o : from l m → (o ∈ range_values m ↔ o ∈ l ∧ m !! rs_Name (rs o) = Some o).
Proof.
  intros Hm. rewrite elem_of_range_values. split; [|naive_solver].
  intros [k Hk]. destruct (Hm k o Hk) as [<- Hin]. done.
Qed.

(** The old replica sets of a deployment that has pods are those whose template
    is not the deployment's, each once, and the ones with pods are those of them
    that select some pod.  When the deployment has no pods, there are none at all. *)
Theorem old_replica_sets_spec d rsList podList : listing rsList →
  ∃ withPods allOld, GetOldReplicaSetsFromLists d (Ok (rsList, podList)) = Ok (withPods, allOld) ∧
    allOld ≡ₚ (if decide (podList = []) then []
               else filter (λ o, rs_Template o ≠ GetNewReplicaSetTemplate d) rsList) ∧
    NoDup withPods ∧
    ∀ o, o ∈ withPods ↔ o ∈ allOld ∧ ∃ pod, pod ∈ podList ∧ selects o (pod_Labels pod) = true.
Proof.
  intros Hl. destruct (oldRSPodsLoop_ok rsList (GetNewReplicaSetTemplate d) podList Hl ∅ ∅)
    as (m1 & m2 & Hloop & H1 & H2 & Hspec); [apply map_Forall_empty..|].
  unfold GetOldReplicaSetsFromLists. rewrite Hloop. exists (range_values m1), (range_values m2). split; [done|].
  assert (∀ m, from rsList m → NoDup (range_values m)) as Hnd.
  { intros m Hm. apply by_name_values. intros k o Hk. by destruct (Hm k o Hk). }
  split; [|split; [by apply Hnd|]].
  - apply NoDup_Permutation; [by apply Hnd| |].
    + destruct (decide _); [constructor|]. apply NoDup_filter. eapply NoDup_fmap_1, Hl.
    + intros o. rewrite (from_values rsList) by done. destruct (decide (podList = [])) as [E|E].
      * rewrite elem_of_nil. split; [|done]. intros [Hin Hm]. apply Hspec in Hm as [Hm|[? _]]; [|done|done].
        by rewrite lookup_empty in Hm.
      * rewrite list_elem_of_filter. split.
        -- intros [Hin Hm]. apply Hspec in Hm as [Hm|[_ ?]]; [by rewrite lookup_empty in Hm|done|done].
        -- intros [Ht Hin]. split; [done|]. apply Hspec; [done|]. by right.
  - intros o. rewrite !(from_values rsList) by done. split.
    + intros [Hin Hm]. apply Hspec in Hm as [Hm|(Ht & pod & Hpod & Hs)]; [by rewrite lookup_empty in Hm| |done].
      split; [|by exists pod]. split; [done|]. apply Hspec; [done|]. right. split; [|done].
      intros ->. by apply elem_of_nil in Hpod.
    + intros [[Hin Hm] (pod & Hpod & Hs)]. split; [done|]. apply Hspec in Hm as [Hm|[_ Ht]]; [by rewrite lookup_empty in Hm| |done].
      apply Hspec; [done|]. right. split; [done|]. by exists pod.
Qed.

(** ** Rollback *)

(** The controller made the replica set for [d0]. *)
Definition made_for d0 o : Prop :=
  rs_Template o = GetNewReplicaSetTemplate d0 ∧
  (tmpl_Labels (d_Template d0) : gmap string string) !! DefaultDeploymentUniqueLabelKey = None.

Lemma template_restored d d0 o : made_for d0 o →
  d_Template (SetFromReplicaSetTemplate d (rs_Template o)) = d_Template d0.
Proof.
  intros [Ho Hl]. cbn [SetFromReplicaSetTemplate d_Template]. rewrite Ho. cbn [GetNewReplicaSetTemplate tmpl_Labels tmpl_Spec].
  rewrite CloneAndRemoveLabel_add by done. by destruct (d_Template d0).
Qed.

Lemma GetNew_template d d' : d_Template d = d_Template d' → GetNewReplicaSetTemplate d = GetNewReplicaSetTemplate d'.
Proof. unfold GetNewReplicaSetTemplate. by intros ->. Qed.

(** The deployment is written with [RollbackTo] cleared, whatever the answer. *)
Lemma clearRollback_wp st : let d := with_RollbackTo None (dep st) in
  wp updateDeploymentAndClearRollbackTo (λ r st', heap st' = heap st ∧ dep st' = d ∧
    server st' = (server_UpdateDeployment d (server st)).1 ∧
    (r = Ok tt ↔ (server_UpdateDeployment d (server st)).2 = None)) st.
Proof.
  cbn zeta. unfold updateDeploymentAndClearRollbackTo, updateDeployment, request_. wp. apply wp_request. cbn.
  intros s r. destruct (server_UpdateDeployment _ _) as [s' [e|]]; cbn; by intros [= <- <-].
Qed.

(** Rolling back to a revision gives the deployment the template from which the
    controller made the first replica set that has it: the label that was added is
    taken off, so that this replica set is the new one again.  The request to roll
    back is cleared in the same update; where no replica set has the revision, it
    is only cleared. *)
Theorem rollback_restores_template allRSs toRevision st :
  ∃ st' r, rollbackLoop allRSs toRevision st = Returns (st', r) ∧ heap st' = heap st ∧
    d_RollbackTo (dep st') = None ∧ server st' = (server_UpdateDeployment (dep st') (server st)).1 ∧
    (r = Ok tt ↔ (server_UpdateDeployment (dep st') (server st)).2 = None) ∧
    ((∀ o, o ∈ allRSs → Revision o ≠ Ok toRevision) → dep st' = with_RollbackTo None (dep st)) ∧
    ∀ l1 o l2 d0, allRSs = l1 ++ o :: l2 → Revision o = Ok toRevision →
      (∀ o', o' ∈ l1 → Revision o' ≠ Ok toRevision) → made_for d0 o →
      GetNewReplicaSetTemplate (dep st') = rs_Template o ∧
      (GetNewReplicaSetTemplate (dep st) ≠ rs_Template o → d_Template (dep st') = d_Template d0).
Proof.
  enough (wp (rollbackLoop allRSs toRevision) (λ r st', heap st' = heap st ∧
    d_RollbackTo (dep st') = None ∧ server st' = (server_UpdateDeployment (dep st') (server st)).1 ∧
    (r = Ok tt ↔ (server_UpdateDeployment (dep st') (server st)).2 = None) ∧
    ((∀ o, o ∈ allRSs → Revision o ≠ Ok toRevision) → dep st' = with_RollbackTo None (dep st)) ∧
    ∀ l1 o l2 d0, allRSs = l1 ++ o :: l2 → Revision o = Ok toRevision →
      (∀ o', o' ∈ l1 → Revision o' ≠ Ok toRevision) → made_for d0 o →
      GetNewReplicaSetTemplate (dep st') = rs_Template o ∧
      (GetNewReplicaSetTemplate (dep st) ≠ rs_Template o → d_Template (dep st') = d_Template d0)) st) as H.
  { unfold wp in H. destruct (rollbackLoop _ _ _) as [[st' r]|]; [|done]. by exists st', r. }
  induction allRSs as [|x l IH]; cbn [rollbackLoop].
  { eapply wp_mono; [apply clearRollback_wp|]. cbn beta. intros r st' (Hh & Hd & Hs & Hr). rewrite Hd.
    split_and!; try done. by intros [|]. }
  assert (Revision x ≠ Ok toRevision → wp (rollbackLoop l toRevision) (λ r st', heap st' = heap st ∧
    d_RollbackTo (dep st') = None ∧ server st' = (server_UpdateDeployment (dep st') (server st)).1 ∧
    (r = Ok tt ↔ (server_UpdateDeployment (dep st') (server st)).2 = None) ∧
    ((∀ o, o ∈ x :: l → Revision o ≠ Ok toRevision) → dep st' = with_RollbackTo None (dep st)) ∧
    ∀ l1 o l2 d0, x :: l = l1 ++ o :: l2 → Revision o = Ok toRevision →
      (∀ o', o' ∈ l1 → Revision o' ≠ Ok toRevision) → made_for d0 o →
      GetNewReplicaSetTemplate (dep st') = rs_Template o ∧
      (GetNewReplicaSetTemplate (dep st) ≠ rs_Template o → d_Template (dep st') = d_Template d0)) st) as Hskip.
  { intros Hx. eapply wp_mono; [exact IH|]. cbn beta. intros r st' (? & ? & ? & ? & Hnone & Hsome). split_and!; try done.
    - intros Hall. apply Hnone. intros o Ho. apply Hall. by right.
    - intros [|y l1] o l2 d0 E Ho Hl1; injection E as -> E; [done|]. apply (Hsome l1 o l2); try done.
      intros o' Ho'. apply Hl1. by right. }
  destruct (Revision x) as [v|e] eqn:Hx; [|by apply Hskip]. destruct (Z.eqb_spec v toRevision) as [->|Hne]; [|apply Hskip; congruence].
  clear Hskip IH. unfold rollbackToTemplate. wp.
  assert (∀ l1 o l2, x :: l = l1 ++ o :: l2 → (∀ o', o' ∈ l1 → Revision o' ≠ Ok toRevision) → o = x) as Hfirst.
  { intros [|y l1] o l2 E Hl1; injection E as -> E; [done|]. by destruct (Hl1 y); [left|]. }
  destruct (decide (GetNewReplicaSetTemplate (dep st) = rs_Template x)) as [E|E]; wp;
    (eapply wp_mono; [apply clearRollback_wp|]); cbn beta; intros r st' (Hh & Hd & Hs & Hr); rewrite Hd;
    (split_and!; [done..| |]); [|intros l1 o l2 d0 El Ho Hl1| |intros l1 o l2 d0 El Ho Hl1];
    try (rewrite (Hfirst _ _ _ El Hl1)); try (intros Hall; by destruct (Hall x); [left|]).
  - done.
  - intros Hmade. cbn [dep with_dep]. pose proof (template_restored (dep st) d0 x Hmade) as Hrest. destruct Hmade as [Ht _].
    split; [|done]. etrans; [|symmetry; exact Ht]. apply GetNew_template. exact Hrest.
Qed.
End revisions.

(** ** Witnesses *)
#[local] Existing Instance canonical_order.
#[local] Existing Instance canonical_sort.

Definition one_hash : TemplateHash unit := {| GetPodTemplateSpecHash _ := 7 |}.
#[local] Existing Instance one_hash.

(** The server that refuses everything. *)
Lemma deployment_revision_not_retried_witness : ∃ st1,
  updateDeploymentRevision (A := Demo.stuck) "3" Demo.stuck_start = Returns (st1, Err "conflict") ∧
  updateDeploymentRevision (A := Demo.stuck) "3" st1 = Returns (st1, Ok tt).
Proof.
  eexists. split; [reflexivity|].
  eapply (deployment_revision_not_retried (A := Demo.stuck) "3" Demo.stuck_start); reflexivity.
Defined.

Lemma old_replica_sets_spec_witness : ∃ withPods allOld,
  GetOldReplicaSetsFromLists (Demo.deployment 3) (Ok ([Demo.rset "a" 3; Demo.rset "b" 1], [Demo.pod "b" 0])) =
    Ok (withPods, allOld) ∧ Demo.rset "b" 1 ∈ withPods.
Proof.
  destruct (old_replica_sets_spec (Demo.deployment 3) [Demo.rset "a" 3; Demo.rset "b" 1] [Demo.pod "b" 0])
    as (withPods & allOld & Heq & Hall & _ & Hwith).
  { split; [repeat constructor; set_solver|]. intros o [-> | ->%list_elem_of_singleton]%elem_of_cons; eexists; vm_compute; reflexivity. }
  exists withPods, allOld. split; [exact Heq|]. apply Hwith. rewrite Hall. split.
  - rewrite decide_False by done. apply list_elem_of_filter. split; [by vm_compute|right; left].
  - exists (Demo.pod "b" 0). split; [left|by vm_compute].
Defined.
