(* ===== verification/ReplicaSet.v ===== *)
(** * The replica set controller

    Models [pkg/controller/replicaset/replica_set.go] and
    [replica_set_utils.go]: the handlers of pod and replica set events, the
    worker, [syncReplicaSet] and [manageReplicas].  The state holds the
    expectations, the two stores that the informers fill, the lookup cache and
    the work queue, each as its own file models it.  The answers of the API
    server are arguments, and the calls made to it are returned in order; the
    goroutines of [manageReplicas] only differ in the order of calls that
    commute, and run one after the other.

    The theorems follow a replica set and the pods on the server through every
    interleaving of syncs, pod events and pods that vanish. *)

From S2P Require Import Prelude.
From S2P Require Import SetsString.
From S2P Require Import WorkQueue.
From S2P Require Import ThreadSafeStore.
From S2P Require Import Store.
From S2P Require Import Informer.
From S2P Require Import Labels.
From S2P Require Import Expectations.
From S2P Require Import Pods.
From S2P Require Import Listers.

(** ** State *)

(** The calls to the API server, with their outcome. *)
Inductive apiCall : Type :=
| CreatePods (namespace rsName : string) (ok : bool)
| DeletePod (namespace podName : string) (ok : bool)
| UpdateStatus (rs : ReplicaSet) (ok : bool).

(** What the API server answers: to the i-th creation, to the deletion of a
    pod, to the i-th status update and the i-th read of the replica set. *)
Record apiAnswers : Type := mkAnswers {
  createOk : nat → bool;
  deleteOk : string → bool;
  updateStatusOk : nat → bool;
  getReplicaSet : nat → option ReplicaSet;
}.

Record ReplicaSetController : Type := mkRSC {
  burstReplicas : Z;
  tracked : UIDTracking ControllerExpectations;
  rsStore : cache ReplicaSet;
  podStore : cache Pod;
  podStoreSynced : bool;
  lookupCache : lruCache ReplicaSet;
  rsQueue : Queue string;
}.

(** The key function of the informers' stores. *)
Definition storeKey {A} `{ObjectMeta A} : KeyFunc A := λ o,
  match DeletionHandlingMetaNamespaceKeyFunc (IObj o) with
  | Ok k => Ok k
  | Err _ => Err (Errorf "object has no meta")
  end.

Definition statusUpdateRetries : nat := 1.

Section controller.
Context `{R : RangeOrder} `{K : KeySort} `{LabelHash}.
Context `{overlappingSort : !Sorts overlapping_Less} `{podSort : !Sorts Less}.
Implicit Types (s : ReplicaSetController) (rs : ReplicaSet) (pod : Pod).

Definition NewReplicaSetController (burstReplicas : Z) (lookupCacheSize : nat) :
    ReplicaSetController :=
  mkRSC burstReplicas (NewUIDTracking NewControllerExpectations) (NewStore storeKey)
    (NewStore storeKey) false (NewMatchingCache lookupCacheSize) WorkQueue.New.

Definition with_tracked u s :=
  mkRSC (burstReplicas s) u (rsStore s) (podStore s) (podStoreSynced s) (lookupCache s) (rsQueue s).
Definition with_cache c s :=
  mkRSC (burstReplicas s) (tracked s) (rsStore s) (podStore s) (podStoreSynced s) c (rsQueue s).
Definition with_queue q s :=
  mkRSC (burstReplicas s) (tracked s) (rsStore s) (podStore s) (podStoreSynced s) (lookupCache s) q.

Definition with_podStore st s :=
  mkRSC (burstReplicas s) (tracked s) (rsStore s) st (podStoreSynced s) (lookupCache s) (rsQueue s).
Definition with_rsStore st s :=
  mkRSC (burstReplicas s) (tracked s) st (podStore s) (podStoreSynced s) (lookupCache s) (rsQueue s).
Definition with_synced s :=
  mkRSC (burstReplicas s) (tracked s) (rsStore s) (podStore s) true (lookupCache s) (rsQueue s).

(** The methods of the embedded [ControllerExpectationsInterface]. *)
Definition embedded (f : ControllerExpectations → ControllerExpectations)
    (u : UIDTracking ControllerExpectations) : UIDTracking ControllerExpectations :=
  mkTracking (f (expectations u)) (sets u) (freshSet u) (uidStore u).

(** ** Finding the owner of a pod *)

Definition isReplicaSetMatch pod rs : bool :=
  if bool_decide (rs_Namespace rs ≠ Namespace pod) then false
  else
    match LabelSelectorAsSelector (rs_Selector rs) with
    | Err _ => false
    | Ok selector =>
        if Labels.Empty selector || negb (Labels.Matches selector (pod_Labels pod)) then false else true
    end.

Definition isCacheValid pod (cachedRS : ReplicaSet) s : bool :=
  match Store.Get cachedRS (rsStore s) with
  | Ok (Some _) => if negb (isReplicaSetMatch pod cachedRS) then false else true
  | _ => false
  end.

(** The search of the store, when the cache does not help. *)
Definition searchReplicaSet pod s : ReplicaSetController * option ReplicaSet :=
  match GetPodReplicaSets (rsStore s) pod with
  | (_, Some _) => (s, None)
  | (rss, None) =>
      let rss := if Nat.ltb 1 (length rss) then sort overlapping_Less rss else rss in
      match rss with
      | rs :: _ => (with_cache (matching_Update pod rs (lookupCache s)) s, Some rs)
      | [] => (s, None)
      end
  end.

Definition getPodReplicaSet pod s : ReplicaSetController * option ReplicaSet :=
  let '(c, cached) := GetMatchingObject pod (lookupCache s) in
  let s := with_cache c s in
  match cached with
  | Some rs => if isCacheValid pod rs s then (s, Some rs) else searchReplicaSet pod s
  | None => searchReplicaSet pod s
  end.

(** ** Handlers *)

Definition enqueueReplicaSet (obj : iface ReplicaSet) s : ReplicaSetController :=
  match DeletionHandlingMetaNamespaceKeyFunc obj with
  | Err _ => s
  | Ok key => with_queue (WorkQueue.Add key (rsQueue s)).1 s
  end.

(** [UpdateFunc] of the replica set informer; the selectors are compared. *)
Definition updateReplicaSet (sameSelector : bool) (cur : ReplicaSet) s : ReplicaSetController :=
  let s := if negb sameSelector then with_cache (InvalidateAll (lookupCache s)) s else s in
  enqueueReplicaSet (IObj cur) s.

Definition deletePodOf pod s : ReplicaSetController :=
  match getPodReplicaSet pod s with
  | (s, Some rs) =>
      match DeletionHandlingMetaNamespaceKeyFunc (IObj rs) with
      | Err _ => s
      | Ok rsKey =>
          enqueueReplicaSet (IObj rs)
            (with_tracked (uid_DeletionObserved rsKey (PodKey pod) (tracked s)) s)
      end
  | (s, None) => s
  end.

Definition deletePod (obj : iface Pod) s : ReplicaSetController :=
  match obj with
  | IObj pod => deletePodOf pod s
  | IDeletedFinalStateUnknown _ (Some (IObj pod)) => deletePodOf pod s
  | _ => s
  end.

Definition addPod pod s : ReplicaSetController :=
  match getPodReplicaSet pod s with
  | (s, None) => s
  | (s, Some rs) =>
      match DeletionHandlingMetaNamespaceKeyFunc (IObj rs) with
      | Err _ => s
      | Ok rsKey =>
          match DeletionTimestamp pod with
          | Some _ => deletePod (IObj pod) s
          | None =>
              enqueueReplicaSet (IObj rs)
                (with_tracked (embedded (CreationObserved rsKey) (tracked s)) s)
          end
      end
  end.

(** [same]: the old and the new object are deeply equal, in fields that [Pod]
    does not have as well. *)
Definition updatePod (same : bool) (oldPod curPod : Pod) s : ReplicaSetController :=
  if same then s
  else
    match getPodReplicaSet curPod s with
    | (s, None) => s
    | (s, Some rs) =>
        match DeletionTimestamp curPod with
        | Some _ => deletePod (IObj curPod) s
        | None =>
            let s := enqueueReplicaSet (IObj rs) s in
            if bool_decide (pod_Labels curPod ≠ pod_Labels oldPod) then
              match getPodReplicaSet oldPod s with
              | (s, Some oldRS) => enqueueReplicaSet (IObj oldRS) s
              | (s, None) => s
              end
            else s
        end
    end.

(** ** Syncing *)

(** The goroutines that create pods: the calls, and a failed one lowers the
    expectation again. *)
Fixpoint createLoop (rs : ReplicaSet) (rsKey : string) (answers : nat → bool) (i n : nat)
    (u : UIDTracking ControllerExpectations) :
    UIDTracking ControllerExpectations * list apiCall :=
  match n with
  | 0 => (u, [])
  | S n =>
      let u := if answers i then u else embedded (CreationObserved rsKey) u in
      let '(u, calls) := createLoop rs rsKey answers (S i) n u in
      (u, CreatePods (rs_Namespace rs) (rs_Name rs) (answers i) :: calls)
  end.

Fixpoint deleteLoop (rs : ReplicaSet) (rsKey : string) (answers : string → bool) (pods : list Pod)
    (u : UIDTracking ControllerExpectations) :
    UIDTracking ControllerExpectations * list apiCall :=
  match pods with
  | [] => (u, [])
  | pod :: pods =>
      let u := if answers (Name pod) then u else uid_DeletionObserved rsKey (PodKey pod) u in
      let '(u, calls) := deleteLoop rs rsKey answers pods u in
      (u, DeletePod (rs_Namespace rs) (Name pod) (answers (Name pod)) :: calls)
  end.

Definition manageReplicas (now : Z) (answers : apiAnswers) (filteredPods : list Pod)
    (rs : ReplicaSet) s : outcome (ReplicaSetController * list apiCall) :=
  let diff := int64 (Z.of_nat (length filteredPods) - rs_Replicas rs) in
  match DeletionHandlingMetaNamespaceKeyFunc (IObj rs) with
  | Err _ => Returns (s, [])
  | Ok rsKey =>
      if (diff <? 0)%Z then
        let diff := int64 (diff * -1) in
        let diff := if (burstReplicas s <? diff)%Z then burstReplicas s else diff in
        let u := embedded (λ ce, (ExpectCreations now rsKey diff ce).1) (tracked s) in
        if (diff <? 0)%Z then Panics
        else
          let '(u, calls) := createLoop rs rsKey (createOk answers) 0 (Z.to_nat diff) u in
          Returns (with_tracked u s, calls)
      else if (0 <? diff)%Z then
        let diff := if (burstReplicas s <? diff)%Z then burstReplicas s else diff in
        let filteredPods :=
          if negb (Z.eqb (rs_Replicas rs) 0) then sort Less filteredPods else filteredPods in
        if Nat.ltb (length filteredPods) (Z.to_nat diff) then Panics
        else
          let doomed := take (Z.to_nat diff) filteredPods in
          let u := (uid_ExpectDeletions now rsKey (PodKey <$> doomed) (tracked s)).1 in
          if (diff <? 0)%Z then Panics
          else
            let '(u, calls) := deleteLoop rs rsKey (deleteOk answers) doomed u in
            Returns (with_tracked u s, calls)
      else Returns (s, [])
  end.

(** The GET/PUT loop of [updateReplicaCount], with the retries left. *)
Fixpoint updateStatusLoop (answers : apiAnswers) (retries i : nat) (rs : ReplicaSet)
    (numReplicas generation : Z) : list apiCall * bool :=
  let rs := mkReplicaSet (rs_Namespace rs) (rs_Name rs) (rs_CreationTimestamp rs) (rs_Generation rs)
    (rs_Replicas rs) (rs_Selector rs) numReplicas generation in
  let call := UpdateStatus rs (updateStatusOk answers i) in
  if updateStatusOk answers i then ([call], true)
  else
    match retries with
    | 0 => ([call], false)
    | S retries =>
        match getReplicaSet answers i with
        | None => ([call], false)
        | Some rs =>
            let '(calls, ok) := updateStatusLoop answers retries (S i) rs numReplicas generation in
            (call :: calls, ok)
        end
    end.

(** The calls made, and whether the status is up to date. *)
Definition updateReplicaCount (answers : apiAnswers) (rs : ReplicaSet) (numReplicas : Z) :
    list apiCall * bool :=
  if Z.eqb (rs_Status_Replicas rs) numReplicas && Z.eqb (rs_Generation rs) (rs_ObservedGeneration rs)
  then ([], true)
  else updateStatusLoop answers statusUpdateRetries 0 rs numReplicas (rs_Generation rs).

Definition syncReplicaSet (now : Z) (answers : apiAnswers) (key : string) s :
    outcome (ReplicaSetController * list apiCall * option string) :=
  if negb (podStoreSynced s) then
    Returns (with_queue (WorkQueue.Add key (rsQueue s)).1 s, [], None)
  else
    match Store.GetByKey key (rsStore s) with
    | Ok None => Returns (with_tracked (uid_DeleteExpectations key (tracked s)) s, [], None)
    | Err _ => Returns (with_tracked (uid_DeleteExpectations key (tracked s)) s, [], None)
    | Ok (Some rs) =>
        match DeletionHandlingMetaNamespaceKeyFunc (IObj rs) with
        | Err _ => Returns (s, [], Some "couldn't get key for ReplicaSet")
        | Ok rsKey =>
            let rsNeedsSync := SatisfiedExpectations now rsKey (expectations (tracked s)) in
            match LabelSelectorAsSelector (rs_Selector rs) with
            | Err err => Returns (s, [], Some err)
            | Ok selector =>
                let filteredPods :=
                  FilterActivePods (listPods (podStore s) (rs_Namespace rs) selector) in
                match (if rsNeedsSync then manageReplicas now answers filteredPods rs s
                       else Returns (s, [])) with
                | Panics => Panics
                | Returns (s, calls) =>
                    let '(updates, ok) :=
                      updateReplicaCount answers rs (Z.of_nat (length filteredPods)) in
                    let s := if ok then s else enqueueReplicaSet (IObj rs) s in
                    Returns (s, calls ++ updates, None)
                end
            end
        end
    end.

(** One turn of a worker: [None] when it would wait or quit. *)
Definition processNext (now : Z) (answers : apiAnswers) s :
    option (outcome (ReplicaSetController * list apiCall)) :=
  match WorkQueue.Get (rsQueue s) with
  | (q, Got key) => Some
      (match syncReplicaSet now answers key (with_queue q s) with
       | Returns (s, calls, _) => Returns (with_queue (WorkQueue.Done key (rsQueue s)).1 s, calls)
       | Panics => Panics
       end)
  | _ => None
  end.
(** ** The informers

    What [processDeltas] does with a delta: the store changes first, then the
    handler runs. *)
Definition observeAdd pod s : ReplicaSetController :=
  addPod pod (with_podStore (Store.Add pod (podStore s)).1 s).
Definition observeUpdate (same : bool) (old cur : Pod) s : ReplicaSetController :=
  updatePod same old cur (with_podStore (Store.Update cur (podStore s)).1 s).
Definition observeDelete (obj : iface Pod) s : ReplicaSetController :=
  match DeletionHandlingMetaNamespaceKeyFunc obj with
  | Err _ => s
  | Ok k =>
      let st := mkCache (ThreadSafeStore.Delete k (cacheStorage (podStore s))) (keyFunc (podStore s)) in
      deletePod obj (with_podStore st s)
  end.
Definition observeStatus (cur : ReplicaSet) s : ReplicaSetController :=
  updateReplicaSet true cur (with_rsStore (Store.Update cur (rsStore s)).1 s).
End controller.

(** ** The cluster

    The controller, and the pods of one replica set that the server has created
    and the controller has not heard of. *)
Record Cluster : Type := mkCluster { ctl : ReplicaSetController; pending : list Pod }.

(** The same object, but for its status and times. *)
Definition same_spec (rs rs' : ReplicaSet) : Prop :=
  rs_Namespace rs = rs_Namespace rs' ∧ rs_Name rs = rs_Name rs' ∧
  rs_Selector rs = rs_Selector rs' ∧ rs_Replicas rs = rs_Replicas rs'.

(** ** Facts *)

(** The calls that create and delete pods, and the creations that succeed. *)
Definition created (c : apiCall) : bool := match c with CreatePods _ _ ok => ok | _ => false end.

Fixpoint createdPods (calls : list apiCall) : nat :=
  match calls with
  | [] => 0
  | c :: calls => (if created c then 1 else 0) + createdPods calls
  end.

Lemma keyOf_ok {A} `{ObjectMeta A} (o : A) :
  DeletionHandlingMetaNamespaceKeyFunc (IObj o) = Ok (keyOf o) ∧ storeKey o = Ok (keyOf o).
Proof. unfold storeKey. by rewrite keyOf_key. Qed.

Section facts.
Context `{R : RangeOrder} `{K : KeySort} `{LabelHash}.
Context `{overlappingSort : !Sorts overlapping_Less} `{podSort : !Sorts Less}.
Implicit Types (s : ReplicaSetController) (rs : ReplicaSet) (pod : Pod)
  (u : UIDTracking ControllerExpectations).

(** The counters of a controller. *)
Definition counts u (k : string) : option ControlleeExpectations := entry (expectations u) k.

Lemma counts_counters u k : counts u k = counters (expectations u) k.
Proof. done. Qed.

Lemma embedded_ok f u : uid_ok u → ce_ok (f (expectations u)) → uid_ok (embedded f u).
Proof. intros [? ? ? ? ?] Hf. by split. Qed.

Lemma CreationObserved_ok rsKey u : uid_ok u →
  let u' := embedded (CreationObserved rsKey) u in
  uid_ok u' ∧ ∀ k, counts u' k =
    if decide (k = rsKey) then exp_Add (-1) 0 <$> counts u rsKey else counts u k.
Proof.
  intros Hu. destruct (adjust_ok (expectations u) rsKey (-1) (-0) (uid_ok_inner u Hu)) as [Hok He].
  split; [by apply embedded_ok|]. exact He.
Qed.

Lemma ExpectCreations_ok now rsKey n u : uid_ok u →
  let u' := embedded (λ ce, (ExpectCreations now rsKey n ce).1) u in
  uid_ok u' ∧ ∀ k, counts u' k =
    if decide (k = rsKey) then Some (mkExpectations (int64 n) 0 rsKey now) else counts u k.
Proof.
  intros Hu. pose proof (Set_ok (expectations u) now rsKey n 0 (uid_ok_inner u Hu)) as Hs.
  unfold ExpectCreations. destruct (SetExpectations _ _ _ _ _) as [r err] eqn:E.
  destruct Hs as (_ & Hok & He). split.
  - apply embedded_ok; [done|]. by rewrite E.
  - intros k. unfold counts. cbn. rewrite E. apply He.
Qed.

(** The creations that fail are observed at once. *)
Lemma createLoop_ok rs rsKey answers now d n : ∀ i u a, uid_ok u →
  counts u rsKey = Some (mkExpectations (int64 a) (int64 d) rsKey now) →
  let '(u', calls) := createLoop rs rsKey answers i n u in
  calls = (λ j, CreatePods (rs_Namespace rs) (rs_Name rs) (answers j)) <$> seq i n ∧
  createdPods calls ≤ n ∧ uid_ok u' ∧
  counts u' rsKey = Some (mkExpectations
    (int64 (a - Z.of_nat (n - createdPods calls))) (int64 d) rsKey now).
Proof.
  induction n as [|n IH]; intros i u a Hu Hc; cbn -[Z.of_nat].
  { split_and!; [done..|]. by rewrite Z.sub_0_r. }
  destruct (CreationObserved_ok rsKey u Hu) as [Hu' Hc'].
  specialize (IH (S i) (if answers i then u else embedded (CreationObserved rsKey) u)
    (if answers i then a else a - 1)%Z).
  destruct (createLoop _ _ _ _ _ _) as [u' calls].
  destruct IH as (-> & Hle & Hok & He).
  { by destruct (answers i). }
  { destruct (answers i); [done|]. rewrite Hc', decide_True, Hc by done. cbn. unfold exp_Add. cbn.
    by rewrite !int64_add_l, Z.add_0_r. }
  split_and!; [done|cbn; destruct (answers i); lia|done|]. rewrite He. cbn -[Z.of_nat].
  do 3 f_equal. destruct (answers i); [f_equal; lia|].
  rewrite Nat.add_0_l, Nat.sub_succ_l by done. lia.
Qed.

(** The deletions that fail are observed at once. *)
Definition failedDeletes (answers : string → bool) (pods : list Pod) : list Pod :=
  filter (λ pod, answers (Name pod) = false) pods.

Lemma deleteLoop_eq rs rsKey answers pods : ∀ u,
  deleteLoop rs rsKey answers pods u =
    (uidRun u (UDeletionObserved rsKey ∘ PodKey <$> failedDeletes answers pods),
     (λ pod, DeletePod (rs_Namespace rs) (Name pod) (answers (Name pod))) <$> pods).
Proof.
  induction pods as [|pod pods IH]; intros u; cbn; [done|]. rewrite IH. unfold failedDeletes.
  by destruct (answers (Name pod)) eqn:Ha; rewrite ?filter_cons_True, ?filter_cons_False by congruence.
Qed.

Lemma observed_failed rsKey keys :
  observed rsKey (UDeletionObserved rsKey <$> keys) = list_to_set keys.
Proof.
  induction keys as [|k keys IH]; [done|]. cbn [fmap list_fmap].
  rewrite observed_cons, observed_one, decide_True, IH by done. cbn. set_solver.
Qed.

Lemma deleteLoop_ok rs rsKey answers now pods S u : waiting rsKey now S u →
  waiting rsKey now (S ∖ list_to_set (PodKey <$> failedDeletes answers pods))
    (deleteLoop rs rsKey answers pods u).1.
Proof.
  intros Hw. rewrite deleteLoop_eq. cbn. rewrite <- (observed_failed rsKey), list_fmap_compose.
  apply waiting_run; [|done]. apply Forall_fmap, Forall_true. by intros.
Qed.

(** The numbers that fit a machine integer; the API validates [Replicas]. *)
Record fits s rs (filteredPods : list Pod) : Prop := {
  fits_burst : (0 <= burstReplicas s < 2 ^ 63)%Z;
  fits_replicas : (0 <= rs_Replicas rs < 2 ^ 63)%Z;
  fits_pods : (Z.of_nat (length filteredPods) < 2 ^ 63)%Z;
}.

(** How many pods one sync creates or deletes. *)
Definition batch s rs (filteredPods : list Pod) : nat :=
  Z.to_nat (Z.min (burstReplicas s) (Z.abs (Z.of_nat (length filteredPods) - rs_Replicas rs))).

Lemma manageReplicas_create now answers pods rs s : uid_ok (tracked s) → fits s rs pods →
  (Z.of_nat (length pods) < rs_Replicas rs)%Z →
  ∃ u calls, manageReplicas now answers pods rs s = Returns (with_tracked u s, calls) ∧ uid_ok u ∧
    calls = (λ i, CreatePods (rs_Namespace rs) (rs_Name rs) (createOk answers i)) <$>
      seq 0 (batch s rs pods) ∧
    createdPods calls ≤ batch s rs pods ∧
    counts u (keyOf rs) = Some (mkExpectations (Z.of_nat (createdPods calls)) 0 (keyOf rs) now).
Proof.
  intros Hu [Hb Hr Hp] Hlt. unfold manageReplicas, batch.
  rewrite (proj1 (keyOf_ok rs)), !int64_id by (rewrite ?int64_id; lia).
  rewrite (proj2 (Z.ltb_lt _ 0)) by lia. cbn zeta.
  rewrite if_ltb_min, (proj2 (Z.ltb_ge _ 0)) by lia.
  replace (_ * -1)%Z with (Z.abs (Z.of_nat (length pods) - rs_Replicas rs)) by lia.
  set (diff' := Z.min _ _) in *. assert (0 <= diff' < 2 ^ 63)%Z as Hd by lia.
  destruct (ExpectCreations_ok now (keyOf rs) diff' (tracked s) Hu) as [Hu' Hc'].
  pose proof (createLoop_ok rs (keyOf rs) (createOk answers) now 0 (Z.to_nat diff') 0 _ diff' Hu') as Hl.
  destruct (createLoop _ _ _ _ _ _) as [u calls].
  destruct Hl as (Hcalls & Hle & Hok & Hc); [by rewrite Hc', decide_True|].
  exists u, calls. split_and!; try done. rewrite Hc. do 2 f_equal. rewrite int64_id; lia.
Qed.

Lemma manageReplicas_delete now answers pods rs s : uid_ok (tracked s) → fits s rs pods →
  (rs_Replicas rs < Z.of_nat (length pods))%Z →
  ∃ u doomed kept, doomed ++ kept ≡ₚ pods ∧ length doomed = batch s rs pods ∧
    (rs_Replicas rs ≠ 0%Z → ∀ p q, p ∈ doomed → q ∈ kept → Less q p = false) ∧
    manageReplicas now answers pods rs s = Returns (with_tracked u s,
      (λ pod, DeletePod (rs_Namespace rs) (Name pod) (deleteOk answers (Name pod))) <$> doomed) ∧
    waiting (keyOf rs) now (list_to_set (PodKey <$> doomed) ∖
      list_to_set (PodKey <$> failedDeletes (deleteOk answers) doomed)) u.
Proof.
  intros Hu [Hb Hr Hp] Hlt. unfold manageReplicas, batch.
  rewrite (proj1 (keyOf_ok rs)), !int64_id by (rewrite ?int64_id; lia).
  rewrite (proj2 (Z.ltb_ge _ 0)) by lia. rewrite (proj2 (Z.ltb_lt 0 _)) by lia. cbn zeta.
  set (sorted := if negb _ then _ else _).
  assert (sorted ≡ₚ pods) as Hperm by (unfold sorted; case_match; [apply sort_perm|done]).
  rewrite Z.abs_eq, if_ltb_min by lia. set (n := Z.to_nat (Z.min _ _)). rewrite (Permutation_length Hperm).
  rewrite (proj2 (Nat.ltb_ge _ n)) by lia. rewrite (proj2 (Z.ltb_ge _ 0)) by lia.
  rewrite deleteLoop_eq. eexists _, (take n sorted), (drop n sorted). split_and!; [..|done|].
  - by rewrite take_drop.
  - rewrite length_take, (Permutation_length Hperm). lia.
  - intros Hne p q. unfold sorted. rewrite (proj2 (Z.eqb_neq _ _)) by done. cbn.
    pose proof (sort_sorted (less := Less) pods) as Hs.
    rewrite <- (take_drop n (sort Less pods)) in Hs. intros Hpin Hqin.
    exact (StronglySorted_app_1_elem_of _ _ _ p q Hs Hpin Hqin).
  - pose proof (deleteLoop_ok rs (keyOf rs) (deleteOk answers) now (take n sorted)) as Hw.
    setoid_rewrite deleteLoop_eq in Hw. apply Hw.
    destruct (uid_ExpectDeletions_ok now (keyOf rs) (PodKey <$> take n sorted) _ Hu)
      as (_ & Hok & Hs & Hc).
    split_and!; [done|by rewrite Hs, decide_True|by rewrite Hc, decide_True].
Qed.

Lemma manageReplicas_steady now answers pods rs s : fits s rs pods →
  Z.of_nat (length pods) = rs_Replicas rs →
  manageReplicas now answers pods rs s = Returns (s, []).
Proof.
  intros [Hb Hr Hp] Heq. unfold manageReplicas.
  rewrite (proj1 (keyOf_ok rs)), Heq, Z.sub_diag. done.
Qed.

(** *** Finding the owner *)

(** What the handlers of the replica set informer keep up: the store has
    replica sets under their keys, and a cached one that is still stored has
    the selector it had. *)
Record coherent s : Prop := {
  coh_keyFunc : keyFunc (rsStore s) = storeKey;
  coh_keys k rs : items (cacheStorage (rsStore s)) !! k = Some rs → keyOf rs = k;
  coh_cache h rs' rs : (h, rs') ∈ ll (lookupCache s) →
    items (cacheStorage (rsStore s)) !! keyOf rs' = Some rs →
    rs_Namespace rs = rs_Namespace rs' ∧ rs_Selector rs = rs_Selector rs';
}.

Lemma isReplicaSetMatch_owns pod rs : isReplicaSetMatch pod rs = true → owns rs pod.
Proof.
  unfold isReplicaSetMatch. case_bool_decide as Hns; [done|].
  destruct (LabelSelectorAsSelector (rs_Selector rs)) as [sel|] eqn:Hs; [|done].
  intros Hm. apply (owns_Matches rs pod sel Hs Hns). by destruct (_ || _).
Qed.

Lemma owns_isReplicaSetMatch pod rs : selector_valid (rs_Selector rs) → owns rs pod →
  isReplicaSetMatch pod rs = true.
Proof.
  intros Hv Ho. pose proof Ho as [Hns _]. unfold isReplicaSetMatch. rewrite bool_decide_eq_false_2 by auto.
  pose proof (LabelSelectorAsSelector_ok (rs_Selector rs)) as Hok.
  destruct (LabelSelectorAsSelector (rs_Selector rs)) as [sel|] eqn:Hs; [|done].
  by rewrite (proj2 (owns_Matches rs pod sel Hs Hns)).
Qed.

Lemma coherent_with_cache c s : coherent s →
  (∀ h rs' rs, (h, rs') ∈ ll c → items (cacheStorage (rsStore s)) !! keyOf rs' = Some rs →
    rs_Namespace rs = rs_Namespace rs' ∧ rs_Selector rs = rs_Selector rs') →
  coherent (with_cache c s).
Proof. intros [? ? ?] Hc. by split. Qed.

(** The stored replica set behind a result of the search, and its age. *)
Lemma searchReplicaSet_ok pod s : coherent s →
  let '(s', r) := searchReplicaSet pod s in
  coherent s' ∧ s' = with_cache (lookupCache s') s ∧
  match r with
  | Some rs => items (cacheStorage (rsStore s)) !! keyOf rs = Some rs ∧ owns rs pod ∧
      ∀ rs', rs' ∈ Store.List (rsStore s) → owns rs' pod → rs' = rs ∨ overlapping_Less rs' rs = false
  | None => (GetPodReplicaSets (rsStore s) pod).2 ≠ None
  end.
Proof.
  intros Hs. unfold searchReplicaSet. pose proof (GetPodReplicaSets_ok (rsStore s) pod) as Hg.
  destruct (GetPodReplicaSets (rsStore s) pod) as [rss [err|]].
  { split_and!; [done|by destruct s|done]. }
  destruct Hg as [Herr Hin]. specialize (Hin eq_refl).
  assert (rss ≠ []) as Hne.
  { intros ->. assert (is_Some (@None string)) as []; [|done]. apply Herr. do 2 right.
    intros rs Hrs Ho. apply (elem_of_nil rs). by apply Hin. }
  pose proof (sort_head overlapping_Less rss) as Hhead. set (sorted := if Nat.ltb _ _ then _ else _) in *.
  assert (sorted ≡ₚ rss) as Hp by (unfold sorted; case_match; [apply sort_perm|done]).
  destruct sorted as [|rs l]; [by apply Permutation_nil in Hp|].
  destruct (Hhead rs l eq_refl) as [[Hrs Ho]%Hin Hold].
  apply elem_of_range_values in Hrs as [k Hk]. pose proof (coh_keys s Hs k rs Hk) as <-.
  split_and!; [|by destruct s|done|done|].
  - apply coherent_with_cache; [done|]. intros h rs1 rs2 [[= -> ->]|?]%elem_of_lru_Add Hrs2.
    + by simplify_eq.
    + by eapply coh_cache.
  - intros rs' Hrs' Ho'. apply Hold. by apply Hin.
Qed.

Lemma getPodReplicaSet_ok pod s : coherent s →
  let '(s', r) := getPodReplicaSet pod s in
  coherent s' ∧ s' = with_cache (lookupCache s') s ∧
  match r with
  | Some rs => (∃ rs', items (cacheStorage (rsStore s)) !! keyOf rs = Some rs' ∧ owns rs' pod) ∧
      (ll (lookupCache s) = [] →
       ∀ rs', rs' ∈ Store.List (rsStore s) → owns rs' pod → rs' = rs ∨ overlapping_Less rs' rs = false)
  | None => (GetPodReplicaSets (rsStore s) pod).2 ≠ None
  end.
Proof.
  intros Hs. unfold getPodReplicaSet, GetMatchingObject.
  pose proof (lru_Get_ok (lookupKey pod) (lookupCache s)) as Hl.
  destruct (lru_Get _ _) as [c cached]. destruct Hl as [Hc Hin].
  assert (coherent (with_cache c s)) as Hs'.
  { apply coherent_with_cache; [done|]. intros h rs' rs ?%Hc. by apply (coh_cache s Hs h). }
  pose proof (searchReplicaSet_ok pod (with_cache c s) Hs') as Hsearch.
  assert (let '(s', r) := searchReplicaSet pod (with_cache c s) in
    coherent s' ∧ s' = with_cache (lookupCache s') s ∧
    match r with
    | Some rs => (∃ rs', items (cacheStorage (rsStore s)) !! keyOf rs = Some rs' ∧ owns rs' pod) ∧
        (ll (lookupCache s) = [] → ∀ rs', rs' ∈ Store.List (rsStore s) → owns rs' pod →
         rs' = rs ∨ overlapping_Less rs' rs = false)
    | None => (GetPodReplicaSets (rsStore s) pod).2 ≠ None
    end) as Hfound.
  { destruct (searchReplicaSet _ _) as [s' [rs|]]; destruct Hsearch as (? & E & Hr);
      (split; [done|split; [exact E|]]); [|exact Hr].
    destruct Hr as (? & ? & ?). eauto. }
  destruct cached as [rs|]; [|done].
  unfold isCacheValid, Store.Get, GetByKey, ThreadSafeStore.Get. cbn [rsStore with_cache].
  rewrite (coh_keyFunc s Hs), (proj2 (keyOf_ok rs)).
  destruct (items _ !! keyOf rs) as [rs'|] eqn:Hrs; [|done].
  destruct (isReplicaSetMatch pod rs) eqn:Hm; [|done]. cbn.
  specialize (Hin rs eq_refl). destruct (coh_cache s Hs _ _ _ Hin Hrs) as [Hns Hsel].
  apply isReplicaSetMatch_owns in Hm. split_and!; [done|done| |by intros E; rewrite E in Hin; apply elem_of_nil in Hin].
  exists rs'. split; [done|]. unfold owns in *. by rewrite Hns, Hsel.
Qed.

(** *** The pods of a replica set *)

(** The pods of [rs] that it counts. *)
Definition mine rs pod : bool := isReplicaSetMatch pod rs && IsPodActive pod.

Definition running rs (store : cache Pod) : nat :=
  size (filter (λ kp, mine rs kp.2 = true) (items (cacheStorage store))).

(** The pods that [syncReplicaSet] counts. *)
Lemma length_filteredPods rs sel store : LabelSelectorAsSelector (rs_Selector rs) = Ok sel →
  rs_Namespace rs ≠ NamespaceAll → ¬ selects_all (rs_Selector rs) →
  length (FilterActivePods (listPods store (rs_Namespace rs) sel)) = running rs store.
Proof.
  intros Hs Hns Hall. rewrite FilterActivePods_filter, listPods_filter, list_filter_filter by done.
  etransitivity; [|exact (length_filter_range_values (items (cacheStorage store)) (λ pod, mine rs pod = true))].
  unfold Store.List, ThreadSafeStore.List. f_equal. apply list_filter_iff. intros pod.
  unfold mine, isReplicaSetMatch. rewrite Hs, !andb_true_iff.
  pose proof (LabelSelectorAsSelector_ok (rs_Selector rs)) as Hok. rewrite Hs in Hok.
  destruct Hok as (_ & _ & He). rewrite <- He in Hall. apply not_true_is_false in Hall. rewrite Hall.
  destruct (decide (rs_Namespace rs = Namespace pod)) as [E|E].
  - rewrite bool_decide_eq_true_2, bool_decide_eq_false_2 by auto. cbn.
    destruct (Labels.Matches sel (pod_Labels pod)); cbn; tauto.
  - rewrite bool_decide_eq_false_2, bool_decide_eq_true_2 by auto. cbn. naive_solver.
Qed.

(** The calls of the status update create nothing. *)
Lemma createdPods_app calls calls' : createdPods (calls ++ calls') = createdPods calls + createdPods calls'.
Proof. induction calls as [|c calls IH]; cbn; [done|]. lia. Qed.

Lemma updateStatusLoop_creates_none answers retries n g : ∀ i rs,
  createdPods (updateStatusLoop answers retries i rs n g).1 = 0.
Proof.
  induction retries as [|retries IH]; intros i rs; cbn; destruct (updateStatusOk answers i); try done.
  destruct (getReplicaSet answers i) as [rs'|]; [|done]. specialize (IH (S i) rs').
  destruct (updateStatusLoop _ _ _ _ _ _). cbn in *. done.
Qed.

Lemma updateReplicaCount_creates_none answers rs n : createdPods (updateReplicaCount answers rs n).1 = 0.
Proof. unfold updateReplicaCount. case_match; [done|]. apply updateStatusLoop_creates_none. Qed.

Lemma deletes_create_none rs answers pods :
  createdPods ((λ pod, DeletePod (rs_Namespace rs) (Name pod) (answers (Name pod))) <$> pods) = 0.
Proof. induction pods as [|pod pods IH]; cbn; [done|]. by rewrite IH. Qed.

(** *** What one sync changes *)

(** Other controllers keep their counters. *)
Lemma createLoop_frame rs rsKey answers n : ∀ i u, uid_ok u →
  let u' := (createLoop rs rsKey answers i n u).1 in
  uid_ok u' ∧ ∀ k, k ≠ rsKey → counts u' k = counts u k.
Proof.
  induction n as [|n IH]; intros i u Hu; cbn; [done|].
  destruct (CreationObserved_ok rsKey u Hu) as [Hu' Hc'].
  specialize (IH (S i) (if answers i then u else embedded (CreationObserved rsKey) u)).
  destruct (createLoop _ _ _ _ _ _) as [u' calls]. cbn in *.
  destruct IH as [Hok Hc]; [by destruct (answers i)|]. split; [done|].
  intros k Hk. rewrite Hc by done. destruct (answers i); [done|]. by rewrite Hc', decide_False.
Qed.

Lemma deleteLoop_frame rs rsKey answers pods u : uid_ok u →
  let u' := (deleteLoop rs rsKey answers pods u).1 in
  uid_ok u' ∧ ∀ k, k ≠ rsKey → counts u' k = counts u k.
Proof.
  rewrite deleteLoop_eq. cbn. generalize (failedDeletes answers pods) as l. intros l. revert u.
  induction l as [|pod l IH]; intros u Hu; cbn; [done|].
  destruct (uid_DeletionObserved_ok rsKey (PodKey pod) u Hu) as (Hu' & _ & Hc').
  destruct (IH _ Hu') as [Hok Hc]. split; [done|]. intros k Hk.
  rewrite Hc, !counts_counters, Hc', decide_False by done. done.
Qed.

Lemma manageReplicas_frame now answers pods rs s s' calls : uid_ok (tracked s) →
  manageReplicas now answers pods rs s = Returns (s', calls) →
  ∃ u, s' = with_tracked u s ∧ uid_ok u ∧ ∀ k, k ≠ keyOf rs → counts u k = counts (tracked s) k.
Proof.
  intros Hu. unfold manageReplicas. rewrite (proj1 (keyOf_ok rs)). cbn zeta.
  assert (∃ u, s = with_tracked u s ∧ uid_ok u ∧ ∀ k, k ≠ keyOf rs → counts u k = counts (tracked s) k)
    as Hsame by (by exists (tracked s); destruct s).
  set (diff := int64 (_ - _)). destruct (diff <? 0)%Z; [|destruct (0 <? diff)%Z; [|by intros [= <- <-]]].
  - rewrite if_ltb_min. set (n := Z.min _ _). destruct (n <? 0)%Z; [done|].
    destruct (ExpectCreations_ok now (keyOf rs) n (tracked s) Hu) as [Hu' Hc'].
    destruct (createLoop_frame rs (keyOf rs) (createOk answers) (Z.to_nat n) 0 _ Hu') as [Hok Hc].
    destruct (createLoop _ _ _ _ _ _) as [u calls']. intros [= <- <-]. exists u.
    split_and!; [done..|]. intros k Hk. cbn in Hc. by rewrite Hc, Hc', decide_False.
  - rewrite if_ltb_min. set (n := Z.min _ _). set (sorted := if negb _ then _ else _).
    destruct (Nat.ltb _ _); [done|]. destruct (n <? 0)%Z; [done|].
    destruct (uid_ExpectDeletions_ok now (keyOf rs) (PodKey <$> take (Z.to_nat n) sorted) _ Hu)
      as (_ & Hu' & _ & Hc').
    destruct (deleteLoop_frame rs (keyOf rs) (deleteOk answers) (take (Z.to_nat n) sorted) _ Hu') as [Hok Hc].
    destruct (deleteLoop _ _ _ _ _) as [u calls']. intros [= <- <-]. exists u.
    split_and!; [done..|]. intros k Hk. cbn in Hc. by rewrite Hc, !counts_counters, Hc', decide_False.
Qed.

(** What a sync does to the counters of the replica set [rs] under [key]: a
    sync of another one leaves them alone, and one of [rs] creates pods only when
    the expectations are satisfied, expects what it creates, and no more than
    is missing. *)
Definition syncs_well rs now (n : nat) s u : Prop :=
  n = 0 ∧ counts u (keyOf rs) = counts (tracked s) (keyOf rs) ∨
  SatisfiedExpectations now (keyOf rs) (expectations (tracked s)) = true ∧
  ∃ e, counts u (keyOf rs) = Some e ∧ (Z.of_nat n <= add e < 2 ^ 63)%Z ∧
    (Z.of_nat (running rs (podStore s) + n) <= Z.max (Z.of_nat (running rs (podStore s))) (rs_Replicas rs))%Z.

(** The replica sets that the API accepts. *)
Record accepted rs : Prop := {
  acc_namespace : rs_Namespace rs ≠ NamespaceAll;
  acc_selector : ¬ selects_all (rs_Selector rs);
  acc_replicas : (0 <= rs_Replicas rs < 2 ^ 63)%Z;
}.

Lemma manageReplicas_syncs_well rs now answers pods s s' calls :
  uid_ok (tracked s) → accepted rs → (0 <= burstReplicas s < 2 ^ 63)%Z →
  length pods = running rs (podStore s) → (Z.of_nat (running rs (podStore s)) < 2 ^ 63)%Z →
  SatisfiedExpectations now (keyOf rs) (expectations (tracked s)) = true →
  manageReplicas now answers pods rs s = Returns (s', calls) →
  syncs_well rs now (createdPods calls) s (tracked s').
Proof.
  intros Hu [Hns Hsel Hrep] Hb Hlen Hrun Hsat Hm.
  assert (fits s rs pods) as Hf by (split; [done..|by rewrite Hlen]).
  unfold syncs_well. rewrite <- Hlen in *.
  destruct (Z.compare_spec (Z.of_nat (length pods)) (rs_Replicas rs)) as [Heq|Hlt|Hgt].
  - rewrite manageReplicas_steady in Hm by done. simplify_eq. by left.
  - destruct (manageReplicas_create now answers pods rs s Hu Hf Hlt) as (u & calls' & E & _ & _ & Hle & Hc).
    rewrite E in Hm. simplify_eq. right. split; [done|]. eexists. split; [exact Hc|].
    unfold batch in Hle. cbn [add]. lia.
  - destruct (manageReplicas_delete now answers pods rs s Hu Hf Hgt)
      as (u & doomed & kept & _ & _ & _ & E & _ & _ & Hw).
    rewrite E in Hm. simplify_eq. right. split; [done|]. eexists. split; [exact Hw|].
    rewrite deletes_create_none. cbn [add]. lia.
Qed.

(** The store and queue that a sync leaves. *)
Lemma syncReplicaSet_ok rs now answers k s s' calls err :
  uid_ok (tracked s) → coherent s → accepted rs → (0 <= burstReplicas s < 2 ^ 63)%Z →
  (Z.of_nat (running rs (podStore s)) < 2 ^ 63)%Z →
  items (cacheStorage (rsStore s)) !! keyOf rs = Some rs →
  syncReplicaSet now answers k s = Returns (s', calls, err) →
  ∃ u q, s' = with_queue q (with_tracked u s) ∧ uid_ok u ∧
    syncs_well rs now (if decide (k = keyOf rs) then createdPods calls else 0) s u.
Proof.
  intros Hu Hcoh Hacc Hb Hrun Hrs.
  assert (∀ q n, n = 0 → ∃ u q', with_queue q s = with_queue q' (with_tracked u s) ∧ uid_ok u ∧
    syncs_well rs now n s u) as Hidle.
  { intros q n ->. exists (tracked s), q. split_and!; [by destruct s|done|by left]. }
  unfold syncReplicaSet. destruct (podStoreSynced s); cbn [negb].
  2: { intros [= <- <- <-]. apply Hidle. by case_decide. }
  unfold GetByKey, ThreadSafeStore.Get. destruct (items _ !! k) as [rs'|] eqn:Hk.
  2: { intros [= <- <- <-]. destruct (uid_DeleteExpectations_ok k _ Hu) as (Hu' & _ & Hc').
       exists (uid_DeleteExpectations k (tracked s)), (rsQueue s). split_and!; [done..|].
       rewrite decide_False by congruence. left. split; [done|].
       by rewrite !counts_counters, Hc', decide_False by congruence. }
  pose proof (coh_keys s Hcoh k rs' Hk) as <-. rewrite (proj1 (keyOf_ok rs')).
  assert (∀ n, n = 0 → ∃ u q', s = with_queue q' (with_tracked u s) ∧ uid_ok u ∧
    syncs_well rs now n s u) as Hidle'.
  { intros n ->. exists (tracked s), (rsQueue s). split_and!; [by destruct s|done|by left]. }
  destruct (LabelSelectorAsSelector (rs_Selector rs')) as [sel|e] eqn:Hsel.
  2: { intros [= <- <- <-]. apply Hidle'. by case_decide. }
  set (pods := FilterActivePods _).
  destruct (if SatisfiedExpectations _ _ _ then _ else _) as [[s1 calls1]|] eqn:Hm; [|done].
  pose proof (updateReplicaCount_creates_none answers rs' (Z.of_nat (length pods))) as Hup.
  destruct (updateReplicaCount _ _ _) as [updates ok]. intros Heq.
  assert (∃ u, s1 = with_tracked u s ∧ uid_ok u ∧
    syncs_well rs now (if decide (keyOf rs' = keyOf rs) then createdPods calls1 else 0) s u)
    as (u & -> & Hu' & Hw).
  { destruct (SatisfiedExpectations _ _ _) eqn:Hsat.
    2: { injection Hm as <- <-. exists (tracked s). split_and!; [by destruct s|done|].
         left. by case_decide. }
    destruct (manageReplicas_frame _ _ _ _ _ _ _ Hu Hm) as (u & -> & Hu' & Hc).
    exists u. split_and!; [done..|]. case_decide as Hkey; [|by left; rewrite Hc].
    assert (rs' = rs) as -> by congruence.
    apply (manageReplicas_syncs_well rs now answers pods s (with_tracked u s) calls1); try done.
    apply length_filteredPods; [done|apply Hacc..]. }
  simplify_eq. rewrite createdPods_app. cbn in Hup. rewrite Hup, Nat.add_0_r.
  destruct ok.
  - exists u, (rsQueue s). split_and!; [by destruct s|done..].
  - unfold enqueueReplicaSet. rewrite (proj1 (keyOf_ok rs')). exists u. eexists. split_and!; done.
Qed.

(** *** The handlers *)

(** What the handlers keep. *)
Record handled s s' : Prop := {
  hd_burst : burstReplicas s' = burstReplicas s;
  hd_rsStore : rsStore s' = rsStore s;
  hd_podStore : podStore s' = podStore s;
  hd_coherent : coherent s';
  hd_tracked : uid_ok (tracked s');
}.

(** At most one deletion is observed. *)
Definition deletions_only s s' : Prop := ∀ k,
  counts (tracked s') k = counts (tracked s) k ∨
  counts (tracked s') k = exp_Add 0 (-1) <$> counts (tracked s) k.

Lemma enqueue_eq obj s : ∃ q, enqueueReplicaSet obj s = with_queue q s.
Proof.
  unfold enqueueReplicaSet. destruct (DeletionHandlingMetaNamespaceKeyFunc obj); [by eexists|].
  exists (rsQueue s). by destruct s.
Qed.

Lemma enqueue_handled obj s : coherent s → uid_ok (tracked s) → handled s (enqueueReplicaSet obj s).
Proof.
  intros [? ? ?] Hu. destruct (enqueue_eq obj s) as [q ->]. by split.
Qed.

Lemma enqueue_tracked obj s : tracked (enqueueReplicaSet obj s) = tracked s.
Proof. by destruct (enqueue_eq obj s) as [q ->]. Qed.

Lemma handled_trans s1 s2 s3 : handled s1 s2 → handled s2 s3 → handled s1 s3.
Proof. intros [] []. split; congruence. Qed.

Lemma deletions_only_refl s s' : tracked s' = tracked s → deletions_only s s'.
Proof. intros E k. left. by rewrite E. Qed.

(** Looking for the owner changes the cache only. *)
Lemma lookup_handled pod s : coherent s → uid_ok (tracked s) →
  let '(s', r) := getPodReplicaSet pod s in
  handled s s' ∧ tracked s' = tracked s ∧
  ∀ rs, r = Some rs → ∃ rs', items (cacheStorage (rsStore s)) !! keyOf rs = Some rs' ∧ owns rs' pod.
Proof.
  intros Hc Hu. pose proof (getPodReplicaSet_ok pod s Hc) as Hg.
  destruct (getPodReplicaSet pod s) as [s' r]. destruct Hg as (Hc' & E & Hr).
  assert (tracked s' = tracked s) as Ht by (by rewrite E).
  split; [|split; [done|]].
  - split; [by rewrite E..|done|by rewrite Ht].
  - intros rs ->. by destruct Hr.
Qed.

Lemma with_tracked_handled u s : coherent s → uid_ok u → handled s (with_tracked u s).
Proof. intros [? ? ?] Hu. by split. Qed.

Lemma deletePodOf_ok pod s : coherent s → uid_ok (tracked s) →
  handled s (deletePodOf pod s) ∧ deletions_only s (deletePodOf pod s).
Proof.
  intros Hc Hu. unfold deletePodOf. pose proof (lookup_handled pod s Hc Hu) as Hl.
  destruct (getPodReplicaSet pod s) as [s1 [rs|]]; destruct Hl as (Hh & Ht & _);
    [|split; [done|by apply deletions_only_refl]].
  rewrite (proj1 (keyOf_ok rs)), Ht. destruct (uid_DeletionObserved_ok (keyOf rs) (PodKey pod) _ Hu)
    as (Hu' & _ & Hcnt). split.
  - eapply handled_trans; [exact Hh|]. eapply handled_trans.
    + apply with_tracked_handled; [apply Hh|exact Hu'].
    + apply enqueue_handled; [|done]. apply (with_tracked_handled _ _ (hd_coherent _ _ Hh) Hu').
  - intros k. rewrite enqueue_tracked, !counts_counters. cbn. rewrite Hcnt.
    destruct (decide (k = keyOf rs)) as [->|]; [|by left]. case_decide; [by right|by left].
Qed.

Lemma deletePod_ok obj s : coherent s → uid_ok (tracked s) →
  handled s (deletePod obj s) ∧ deletions_only s (deletePod obj s).
Proof.
  intros Hc Hu. unfold deletePod.
  assert (handled s s ∧ deletions_only s s) by (split; [by split|by apply deletions_only_refl]).
  repeat case_match; try done; by apply deletePodOf_ok.
Qed.

Lemma addPod_ok pod s : coherent s → uid_ok (tracked s) →
  handled s (addPod pod s) ∧ ∀ k,
    counts (tracked (addPod pod s)) k = counts (tracked s) k ∨
    counts (tracked (addPod pod s)) k = exp_Add 0 (-1) <$> counts (tracked s) k ∨
    counts (tracked (addPod pod s)) k = exp_Add (-1) 0 <$> counts (tracked s) k ∧
    ∃ rs, items (cacheStorage (rsStore s)) !! k = Some rs ∧ owns rs pod.
Proof.
  intros Hc Hu. unfold addPod. pose proof (lookup_handled pod s Hc Hu) as Hl.
  destruct (getPodReplicaSet pod s) as [s1 [rs|]]; destruct Hl as (Hh & Ht & Hr);
    [|split; [done|]; intros k; left; by rewrite Ht].
  destruct (Hr rs eq_refl) as (rs' & Hrs & Ho). rewrite (proj1 (keyOf_ok rs)).
  pose proof (hd_coherent _ _ Hh) as Hc1. pose proof (hd_tracked _ _ Hh) as Hu1.
  destruct (DeletionTimestamp pod) as [ts|].
  - destruct (deletePod_ok (IObj pod) s1 Hc1 Hu1) as [Hh' Hd].
    split; [by eapply handled_trans|]. intros k. destruct (Hd k) as [->| ->]; rewrite Ht; auto.
  - destruct (CreationObserved_ok (keyOf rs) _ Hu1) as [Hu' Hcnt]. split.
    + eapply handled_trans; [exact Hh|]. eapply handled_trans.
      * apply with_tracked_handled; [exact Hc1|exact Hu'].
      * apply enqueue_handled; [|done]. apply (with_tracked_handled _ _ Hc1 Hu').
    + intros k. rewrite enqueue_tracked. cbn. rewrite Hcnt, Ht.
      case_decide; [subst|by left]. right. right. eauto.
Qed.

Lemma updatePod_ok same old cur s : coherent s → uid_ok (tracked s) →
  handled s (updatePod same old cur s) ∧ deletions_only s (updatePod same old cur s).
Proof.
  intros Hc Hu. unfold updatePod.
  destruct same; [split; [by split|by apply deletions_only_refl]|].
  pose proof (lookup_handled cur s Hc Hu) as Hl.
  destruct (getPodReplicaSet cur s) as [s1 [rs|]]; destruct Hl as (Hh & Ht & _);
    [|split; [done|by apply deletions_only_refl]].
  pose proof (hd_coherent _ _ Hh) as Hc1. pose proof (hd_tracked _ _ Hh) as Hu1.
  destruct (DeletionTimestamp cur) as [ts|].
  { destruct (deletePod_ok (IObj cur) s1 Hc1 Hu1) as [Hh' Hd]. split; [by eapply handled_trans|].
    intros k. rewrite <- Ht. apply Hd. }
  pose proof (handled_trans _ _ _ Hh (enqueue_handled (IObj rs) s1 Hc1 Hu1)) as Hh2.
  assert (tracked (enqueueReplicaSet (IObj rs) s1) = tracked s) as Ht2 by (by rewrite enqueue_tracked).
  case_bool_decide; [|split; [done|by apply deletions_only_refl]].
  pose proof (lookup_handled old _ (hd_coherent _ _ Hh2) (hd_tracked _ _ Hh2)) as Hl.
  destruct (getPodReplicaSet old _) as [s3 [oldRS|]]; destruct Hl as (Hh3 & Ht3 & _);
    pose proof (handled_trans _ _ _ Hh2 Hh3) as Hh4.
  - split; [|apply deletions_only_refl; by rewrite enqueue_tracked, Ht3].
    eapply handled_trans; [exact Hh4|]. apply enqueue_handled; apply Hh4.
  - split; [done|]. apply deletions_only_refl. congruence.
Qed.

(** *** The cluster

    One step: a sync of any replica set, a watch event of a pod or of a replica
    set's status, or what the server does on its own.  A sync creates a pod on
    the server for each creation that succeeds; the event of the creation comes
    later, with the pod as it then is, or never, when the pod vanishes first.
    Pods of others, and pods that leave, may come and go; no pod joins [rs]
    except by its creation.  A sync never finds that the expectations of [rs]
    have expired. *)
Inductive cstep rs : Cluster → Cluster → Prop :=
| step_sync now answers k s s' calls err pods pend :
    (∀ e, counts (tracked s) (keyOf rs) = Some e → isExpired now e = false) →
    syncReplicaSet now answers k s = Returns (s', calls, err) →
    length pods = (if decide (k = keyOf rs) then createdPods calls else 0) →
    cstep rs (mkCluster s pend) (mkCluster s' (pend ++ pods))
| step_created s pod pod' pend1 pend2 :
    Namespace pod' = Namespace pod → Name pod' = Name pod → pod_Labels pod' = pod_Labels pod →
    cstep rs (mkCluster s (pend1 ++ pod :: pend2)) (mkCluster (observeAdd pod' s) (pend1 ++ pend2))
| step_vanished s pod pend1 pend2 :
    cstep rs (mkCluster s (pend1 ++ pod :: pend2)) (mkCluster s (pend1 ++ pend2))
| step_other s pod pend : ¬ owns rs pod →
    cstep rs (mkCluster s pend) (mkCluster (observeAdd pod s) pend)
| step_updated s same old cur pend :
    items (cacheStorage (podStore s)) !! keyOf cur = Some old →
    (mine rs cur = true → mine rs old = true) →
    cstep rs (mkCluster s pend) (mkCluster (observeUpdate same old cur s) pend)
| step_deleted s obj pend :
    cstep rs (mkCluster s pend) (mkCluster (observeDelete obj s) pend)
| step_status s old cur pend :
    items (cacheStorage (rsStore s)) !! keyOf cur = Some old → same_spec old cur →
    cstep rs (mkCluster s pend) (mkCluster (observeStatus cur s) pend)
| step_queue s q pend : cstep rs (mkCluster s pend) (mkCluster (with_queue q s) pend)
| step_synced s pend : cstep rs (mkCluster s pend) (mkCluster (with_synced s) pend).

(** The pods of [rs] that run, as far as the controller or the server knows. *)
Definition total rs (c : Cluster) : nat := running rs (podStore (ctl c)) + length (pending c).

(** The creations that are not observed yet are expected. *)
Definition expected rs s (n : nat) : Prop :=
  match counts (tracked s) (keyOf rs) with
  | Some e => (Z.of_nat n <= add e < 2 ^ 63)%Z
  | None => n = 0
  end.

Record cluster_ok rs (bound : Z) (c : Cluster) : Prop := {
  cl_tracked : uid_ok (tracked (ctl c));
  cl_coherent : coherent (ctl c);
  cl_stored : ∃ rs', items (cacheStorage (rsStore (ctl c))) !! keyOf rs = Some rs' ∧ same_spec rs rs';
  cl_pods : keyFunc (podStore (ctl c)) = storeKey;
  cl_burst : (0 <= burstReplicas (ctl c) < 2 ^ 63)%Z;
  cl_expected : expected rs (ctl c) (length (pending c));
  cl_total : (Z.of_nat (total rs c) <= bound)%Z;
}.

Lemma same_spec_running rs rs' store : same_spec rs rs' → running rs' store = running rs store.
Proof. destruct rs, rs'. intros (? & ? & ? & ?). simplify_eq/=. done. Qed.

Lemma same_spec_accepted rs rs' : same_spec rs rs' → accepted rs → accepted rs'.
Proof. destruct rs, rs'. intros (? & ? & ? & ?) [? ? ?]. by simplify_eq/=. Qed.

Lemma same_spec_keyOf rs rs' : same_spec rs rs' → keyOf rs' = keyOf rs.
Proof. destruct rs, rs'. intros (? & ? & ? & ?). by simplify_eq/=. Qed.

Lemma expected_lower rs s n m : expected rs s n → m ≤ n → expected rs s m.
Proof. unfold expected. destruct (counts _ _); lia. Qed.

Lemma expected_deletions rs s s' n : deletions_only s s' → expected rs s n → expected rs s' n.
Proof.
  unfold expected. intros Hd He. destruct (Hd (keyOf rs)) as [->| ->]; [done|].
  destruct (counts _ _) as [e|]; [|done]. cbn. rewrite Z.add_0_r, int64_id; lia.
Qed.

(** A handler that observes deletions only, after a change of the store of pods
    that adds no pod of [rs]. *)
Lemma deletions_preserve rs bound s s1 s' pend : cluster_ok rs bound (mkCluster s pend) →
  tracked s1 = tracked s → rsStore s1 = rsStore s → burstReplicas s1 = burstReplicas s →
  keyFunc (podStore s1) = storeKey → running rs (podStore s1) ≤ running rs (podStore s) →
  handled s1 s' → deletions_only s1 s' → cluster_ok rs bound (mkCluster s' pend).
Proof.
  intros [Hu Hc Hs Hk Hb He Ht] Etr Ers Ebu Hk' Hrun [Hb' Hrs' Hps' Hc' Hu'] Hd. cbn in *.
  split; cbn; [done|done|by rewrite Hrs', Ers|by rewrite Hps'|by rewrite Hb', Ebu| |].
  - apply (expected_deletions rs s1 s' _ Hd). unfold expected. by rewrite Etr.
  - unfold total in *. cbn in *. rewrite Hps'. lia.
Qed.

Lemma coherent_with_podStore st s : coherent s → coherent (with_podStore st s).
Proof. intros [? ? ?]. by split. Qed.

(** The store of pods after the events. *)
Lemma items_Add_pod pod st : keyFunc st = storeKey →
  keyFunc (Store.Add pod st).1 = storeKey ∧
  items (cacheStorage (Store.Add pod st).1) = <[keyOf pod := pod]> (items (cacheStorage st)).
Proof.
  intros Hk. unfold Store.Add. rewrite Hk, (proj2 (keyOf_ok pod)). cbn. by rewrite items_Add.
Qed.

Lemma running_insert rs pod st : keyFunc st = storeKey →
  running rs (Store.Add pod st).1 ≤ S (running rs st) ∧
  ((mine rs pod = true → ∃ old, items (cacheStorage st) !! keyOf pod = Some old ∧ mine rs old = true) →
   running rs (Store.Add pod st).1 ≤ running rs st).
Proof.
  intros Hk. destruct (items_Add_pod pod st Hk) as [_ Hi]. unfold running. rewrite Hi.
  exact (size_filter_insert_le (items (cacheStorage st)) (λ pod, mine rs pod = true) (keyOf pod) pod).
Qed.

(** A satisfied sync that is not late has heard of every creation. *)
Lemma satisfied_none_pending rs now s n : expected rs s n →
  (∀ e, counts (tracked s) (keyOf rs) = Some e → isExpired now e = false) →
  SatisfiedExpectations now (keyOf rs) (expectations (tracked s)) = true → n = 0.
Proof.
  unfold expected, counts. rewrite Satisfied_entry. intros He Hexp Hs.
  destruct (entry _ _) as [e|]; [|done]. cbn in Hs. rewrite (Hexp e eq_refl), orb_false_r in Hs.
  apply andb_prop in Hs as [Ha%Z.leb_le _]. lia.
Qed.

Lemma sync_preserves rs bound now answers k s s' calls err pods pend :
  accepted rs → (rs_Replicas rs <= bound < 2 ^ 63)%Z → cluster_ok rs bound (mkCluster s pend) →
  (∀ e, counts (tracked s) (keyOf rs) = Some e → isExpired now e = false) →
  syncReplicaSet now answers k s = Returns (s', calls, err) →
  length pods = (if decide (k = keyOf rs) then createdPods calls else 0) →
  cluster_ok rs bound (mkCluster s' (pend ++ pods)).
Proof.
  intros Hacc Hbound [Hu Hc (rs' & Hrs & Hspec) Hk Hb He Ht] Hexp Hsync Hlen.
  unfold total in Ht. cbn in *.
  pose proof (same_spec_keyOf _ _ Hspec) as Hkey. rewrite <- Hkey in Hrs, Hlen.
  destruct (syncReplicaSet_ok rs' now answers k s s' calls err) as (u & q & -> & Hu' & Hw); try done.
  { by eapply same_spec_accepted. }
  { rewrite (same_spec_running _ _ _ Hspec). lia. }
  rewrite <- Hlen in Hw. unfold syncs_well in Hw. rewrite Hkey, (same_spec_running _ _ _ Hspec) in Hw.
  split; cbn; try done.
  - by split; apply Hc.
  - exists rs'. by rewrite <- Hkey.
  - unfold expected in *. cbn. rewrite length_app.
    destruct Hw as [[-> ->]|(Hsat & e & -> & Hn & _)]; [by rewrite Nat.add_0_r|].
    rewrite (satisfied_none_pending rs now s (length pend)) by done. lia.
  - unfold total. cbn. rewrite length_app. destruct Hw as [[-> _]|(Hsat & _ & _ & _ & Hn)]; [lia|].
    rewrite (satisfied_none_pending rs now s (length pend)) by done.
    destruct Hspec as (_ & _ & _ & Hrep). lia.
Qed.

(** The creation of a pod of [rs], observed. *)
Lemma created_preserves rs bound s pod n pend : cluster_ok rs bound (mkCluster s pend) →
  length pend = S n →
  ∀ pend', length pend' = n → cluster_ok rs bound (mkCluster (observeAdd pod s) pend').
Proof.
  intros [Hu Hc Hs Hk Hb He Ht] Hlen pend' Hlen'. unfold total in Ht. cbn in *. rewrite Hlen in He, Ht.
  set (s1 := with_podStore (Store.Add pod (podStore s)).1 s).
  destruct (addPod_ok pod s1 (coherent_with_podStore _ s Hc) Hu) as [[Hb' Hrs' Hps' Hc' Hu'] Hcnt].
  destruct (items_Add_pod pod _ Hk) as [Hk' _]. destruct (running_insert rs pod _ Hk) as [Hr _].
  unfold observeAdd. fold s1. split; cbn; try done.
  - by rewrite Hrs'.
  - by rewrite Hps'.
  - by rewrite Hb'.
  - unfold expected in *. change (counts (tracked s)) with (counts (tracked s1)) in He.
    rewrite Hlen'. destruct (Hcnt (keyOf rs)) as [->|[->|[-> _]]];
      destruct (counts (tracked s1) (keyOf rs)) as [e|]; cbn; rewrite ?int64_id by lia; lia.
  - unfold total. cbn. rewrite Hps', Hlen'. cbn. lia.
Qed.

(** A pod that [rs] does not own. *)
Lemma other_preserves rs bound s pod pend : accepted rs → cluster_ok rs bound (mkCluster s pend) →
  ¬ owns rs pod → cluster_ok rs bound (mkCluster (observeAdd pod s) pend).
Proof.
  intros Hacc [Hu Hc (rs' & Hs & Hspec) Hk Hb He Ht] Hno. unfold total in Ht. cbn in *.
  set (s1 := with_podStore (Store.Add pod (podStore s)).1 s).
  destruct (addPod_ok pod s1 (coherent_with_podStore _ s Hc) Hu) as [[Hb' Hrs' Hps' Hc' Hu'] Hcnt].
  destruct (items_Add_pod pod _ Hk) as [Hk' _]. destruct (running_insert rs pod _ Hk) as [_ Hr].
  assert (mine rs pod ≠ true) as Hm.
  { unfold mine. intros [Hm%isReplicaSetMatch_owns _]%andb_prop. done. }
  specialize (Hr (λ H, False_ind _ (Hm H))).
  unfold observeAdd. fold s1. split; cbn; try done.
  - rewrite Hrs'. by exists rs'.
  - by rewrite Hps'.
  - by rewrite Hb'.
  - unfold expected in *. change (counts (tracked s)) with (counts (tracked s1)) in He.
    destruct (Hcnt (keyOf rs)) as [->|[->|[_ (rs1 & Hs1 & Ho)]]]; [done|..].
    + destruct (counts (tracked s1) (keyOf rs)) as [e|]; cbn; rewrite ?int64_id by lia; lia.
    + destruct Hno. cbn in Hs1. rewrite Hs in Hs1. injection Hs1 as <-.
      destruct Hspec as (Hns & _ & Hsel & _). unfold owns in *. by rewrite Hns, Hsel.
  - unfold total. cbn. rewrite Hps'. cbn. lia.
Qed.

Lemma status_preserves rs bound s old cur pend : cluster_ok rs bound (mkCluster s pend) →
  items (cacheStorage (rsStore s)) !! keyOf cur = Some old → same_spec old cur →
  cluster_ok rs bound (mkCluster (observeStatus cur s) pend).
Proof.
  intros [Hu [Hkf Hkeys Hcache] (rs' & Hs & Hspec) Hk Hb He Ht] Hold Hsame. cbn in *.
  unfold observeStatus, updateReplicaSet. cbn. unfold Store.Update. rewrite Hkf, (proj2 (keyOf_ok cur)). cbn.
  destruct (enqueue_eq (IObj cur) (with_rsStore
    (mkCache (ThreadSafeStore.Update (keyOf cur) cur (cacheStorage (rsStore s))) storeKey) s)) as [q ->].
  assert (∀ k rs1, items (ThreadSafeStore.Update (keyOf cur) cur (cacheStorage (rsStore s))) !! k = Some rs1 →
    ∃ rs2, items (cacheStorage (rsStore s)) !! k = Some rs2 ∧ same_spec rs2 rs1) as Hi.
  { intros k rs1. unfold ThreadSafeStore.Update. setoid_rewrite items_Add. rewrite lookup_insert_Some.
    intros [[<- <-]|[_ ?]]; [by exists old|]. by exists rs1. }
  split; cbn; try done.
  - split; cbn; [done|..].
    + intros k rs1 (rs2 & Hl & Hsp)%Hi. rewrite (same_spec_keyOf _ _ Hsp). by apply Hkeys.
    + intros h rs1 rs2 Hin (rs3 & Hl & Hsp)%Hi. destruct (Hcache _ _ _ Hin Hl).
      destruct Hsp as (? & _ & ? & _). split; congruence.
  - unfold ThreadSafeStore.Update. setoid_rewrite items_Add. setoid_rewrite lookup_insert.
    destruct (decide (keyOf cur = keyOf rs)) as [E|]; [|by exists rs'].
    exists cur. split; [done|]. rewrite E, Hs in Hold. injection Hold as <-.
    unfold same_spec in *. intuition congruence.
Qed.

(** A controller that has just started, with [rs] in its store. *)
Definition started rs s : Prop :=
  tracked s = NewUIDTracking NewControllerExpectations ∧ coherent s ∧
  (∃ rs', items (cacheStorage (rsStore s)) !! keyOf rs = Some rs' ∧ same_spec rs rs') ∧
  keyFunc (podStore s) = storeKey ∧ (0 <= burstReplicas s < 2 ^ 63)%Z ∧
  (Z.of_nat (running rs (podStore s)) < 2 ^ 63)%Z.

(** Every step keeps the cluster within the bound. *)
Lemma cstep_preserves rs bound c c' : accepted rs → (rs_Replicas rs <= bound < 2 ^ 63)%Z →
  cluster_ok rs bound c → cstep rs c c' → cluster_ok rs bound c'.
Proof.
  intros Hacc Hbound Hok Hstep. destruct Hstep as [now answers k s s' calls err pods pend Hexp Hsync Hlen
    |s pod pod' p1 p2 _ _ _|s pod p1 p2|s pod pend Hno|s same old cur pend Hold Hm|s obj pend|s old cur pend Hold Hsp
    |s q pend|s pend].
  - by eapply sync_preserves.
  - eapply created_preserves; [done|by rewrite length_app; cbn; rewrite Nat.add_succ_r|by rewrite length_app].
  - destruct Hok as [? ? ? ? ? He Ht]. unfold total in Ht. cbn in *. split; try done.
    + eapply expected_lower; [exact He|]. cbn. rewrite !length_app. cbn. lia.
    + unfold total. cbn. rewrite !length_app in *. cbn in Ht. lia.
  - by apply other_preserves.
  - destruct Hok as [Hu Hc ? Hk ? ? ?] eqn:E. cbn in *. clear E.
    destruct (items_Add_pod cur _ Hk) as [Hk' _]. destruct (running_insert rs cur _ Hk) as [_ Hr].
    destruct (updatePod_ok same old cur (with_podStore (Store.Add cur (podStore s)).1 s)
      (coherent_with_podStore _ s Hc) Hu) as [Hh Hd].
    eapply deletions_preserve; [exact Hok|..|exact Hh|exact Hd]; try done.
    apply Hr. intros Hc1. exists old. auto.
  - destruct Hok as [Hu Hc ? Hk ? ? ?] eqn:E. cbn in *. clear E. unfold observeDelete.
    destruct (DeletionHandlingMetaNamespaceKeyFunc obj) as [k|]; [|done].
    set (st := mkCache _ _).
    destruct (deletePod_ok obj (with_podStore st s) (coherent_with_podStore _ s Hc) Hu) as [Hh Hd].
    eapply deletions_preserve; [exact Hok|..|exact Hh|exact Hd]; try done.
    unfold running. cbn. rewrite items_Delete.
    exact (size_filter_delete_le _ (λ pod, mine rs pod = true) k).
  - by eapply status_preserves.
  - destruct Hok as [? Hc ? ? ? ? ?]. split; try done. by split; apply Hc.
  - destruct Hok as [? Hc ? ? ? ? ?]. split; try done. by split; apply Hc.
Qed.
End facts.

(** ** Properties *)

(** C2: however syncs, pod events, status updates and pods that vanish interleave, a
    replica set's pods never exceed its replicas, or what it had to begin with:
    a pod that was created and not observed yet is expected, and nothing is
    created while it is, unless the expectations expire. *)
Theorem never_overshoots (R : RangeOrder) (K : KeySort) (H : LabelHash)
    (overlappingSort : Sorts overlapping_Less) (podSort : Sorts Less)
    (rs : ReplicaSet) (s : ReplicaSetController) (c : Cluster) :
  accepted rs → started rs s → rtc (cstep rs) (mkCluster s []) c →
  (Z.of_nat (total rs c) <= Z.max (Z.of_nat (running rs (podStore s))) (rs_Replicas rs))%Z.
Proof.
  intros Hacc (Htr & Hc & Hs & Hk & Hb & Hrun) Hsteps.
  set (bound := Z.max _ _). assert (rs_Replicas rs <= bound < 2 ^ 63)%Z as Hbound.
  { pose proof (acc_replicas rs Hacc). lia. }
  apply (cl_total rs bound). revert Hsteps. apply rtc_ind_r; [|by intros; eapply cstep_preserves].
  split; cbn; try done.
  - rewrite Htr. apply New_uid_ok, New_ce_ok.
  - unfold expected. cbn. rewrite Htr. done.
  - unfold total. cbn. rewrite Nat.add_0_r. lia.
Qed.

(** C27: one sync moves a replica set toward its number of replicas by at most a
    burst: with too few pods it creates that many and expects the creations
    that succeed; with too many it deletes that many and expects the deletions that
    succeed, each once: the pods that come first in the order of [ActivePods], unless
    the replica set is to have no pods at all, when the code does not sort and deletes
    any; with the right number it does nothing.  The burst, the size and the number of pods
    are those of a machine integer, and not negative ([fits]). *)
Theorem manageReplicas_spec (R : RangeOrder) (podSort : Sorts Less) (now : Z) (answers : apiAnswers)
    (pods : list Pod) (rs : ReplicaSet) (s : ReplicaSetController) :
  uid_ok (tracked s) → fits s rs pods →
  ∃ u calls, manageReplicas now answers pods rs s = Returns (with_tracked u s, calls) ∧
  match Z.compare (Z.of_nat (length pods)) (rs_Replicas rs) with
  | Lt =>
      calls = (λ i, CreatePods (rs_Namespace rs) (rs_Name rs) (createOk answers i)) <$>
        seq 0 (batch s rs pods) ∧
      counts u (keyOf rs) = Some (mkExpectations (Z.of_nat (createdPods calls)) 0 (keyOf rs) now)
  | Eq => u = tracked s ∧ calls = []
  | Gt => ∃ doomed kept, doomed ++ kept ≡ₚ pods ∧ length doomed = batch s rs pods ∧
      (rs_Replicas rs ≠ 0%Z → ∀ p q, p ∈ doomed → q ∈ kept → Less q p = false) ∧
      calls = (λ pod, DeletePod (rs_Namespace rs) (Name pod) (deleteOk answers (Name pod))) <$> doomed ∧
      waiting (keyOf rs) now (list_to_set (PodKey <$> doomed) ∖
        list_to_set (PodKey <$> failedDeletes (deleteOk answers) doomed)) u
  end.
Proof.
  intros Hu Hf. destruct (Z.compare_spec (Z.of_nat (length pods)) (rs_Replicas rs)) as [Heq|Hlt|Hgt].
  - exists (tracked s), []. rewrite manageReplicas_steady by done. by destruct s.
  - destruct (manageReplicas_create now answers pods rs s Hu Hf Hlt) as (u & calls & ? & _ & ? & _ & ?).
    by exists u, calls.
  - destruct (manageReplicas_delete now answers pods rs s Hu Hf Hgt)
      as (u & doomed & kept & ? & ? & ? & ? & ?).
    exists u. eexists. split; [done|]. by exists doomed, kept.
Qed.

(** The owner of a pod is a replica set of the store that selects it, the oldest
    one when it is not cached, and the search only fails when the pod has no
    labels, no replica set selects it, or one of its namespace has an invalid
    selector. *)
Theorem getPodReplicaSet_spec (R : RangeOrder) (K : KeySort) (H : LabelHash)
    (overlappingSort : Sorts overlapping_Less) (pod : Pod) (s : ReplicaSetController) :
  coherent s →
  let '(s', r) := getPodReplicaSet pod s in
  coherent s' ∧ s' = with_cache (lookupCache s') s ∧
  match r with
  | Some rs => (∃ rs', items (cacheStorage (rsStore s)) !! keyOf rs = Some rs' ∧ owns rs' pod) ∧
      (ll (lookupCache s) = [] →
       ∀ rs', rs' ∈ Store.List (rsStore s) → owns rs' pod → rs' = rs ∨ overlapping_Less rs' rs = false)
  | None => pod_Labels pod = ∅ ∨
      (∃ rs, rs ∈ Store.List (rsStore s) ∧ rs_Namespace rs = Namespace pod ∧
         ¬ selector_valid (rs_Selector rs)) ∨
      ∀ rs, rs ∈ Store.List (rsStore s) → ¬ owns rs pod
  end.
Proof.
  intros Hc. pose proof (getPodReplicaSet_ok pod s Hc) as Hg.
  destruct (getPodReplicaSet pod s) as [s' [rs|]]; [done|]. destruct Hg as (? & ? & Hn).
  split; [done|]. split; [done|]. pose proof (GetPodReplicaSets_ok (rsStore s) pod) as Herr.
  destruct (GetPodReplicaSets (rsStore s) pod) as [rss [err|]]; [|done]. apply Herr. eauto.
Qed.

(** ** Witnesses *)
#[local] Existing Instance canonical_order.
#[local] Existing Instance canonical_sort.

(** A hash that always collides. *)
Definition no_hash : LabelHash := {| label_hash := λ _ _, 0%Z |}.
#[local] Existing Instance no_hash.

Definition canonical_Less : Sorts Less.
Proof.
  apply merge_Sorts; intros *; rewrite !Less_rank; [apply lexlt_irrefl|apply lexlt_trans|by apply lexlt_split].
Defined.
#[local] Existing Instance canonical_Less.

Definition canonical_overlapping : Sorts overlapping_Less.
Proof. apply merge_Sorts; apply overlapping_Less_order. Defined.
#[local] Existing Instance canonical_overlapping.

Definition example_rs : ReplicaSet :=
  mkReplicaSet "ns" "rs" 0%Z 1 2 (Some (mkLabelSelector {["app" := "web"]} [])) 0 0.

Definition example_controller : ReplicaSetController :=
  with_rsStore (Store.Add example_rs (NewStore storeKey)).1
    (with_synced (NewReplicaSetController 1 4)).

Definition all_ok : apiAnswers := mkAnswers (λ _, true) (λ _, true) (λ _, true) (λ _, None).

Definition example_pod : Pod := mkPod "ns" "web-1" {["app" := "web"]} "" "Pending" [] [] 1%Z None "uid" "1" ∅ "" [] None.

Definition synced_controller : ReplicaSetController :=
  match syncReplicaSet 0 all_ok "ns/rs" example_controller with
  | Returns (s, _, _) => s
  | Panics => example_controller
  end.

Lemma example_accepted : accepted example_rs.
Proof. by split. Qed.

Lemma example_started : started example_rs example_controller.
Proof.
  assert (∀ k rs, items (cacheStorage (rsStore example_controller)) !! k = Some rs →
    k = "ns/rs" ∧ rs = example_rs) as Hi.
  { intros k rs. change (rsStore example_controller) with (Store.Add example_rs (NewStore storeKey)).1.
    unfold Store.Add. cbn [keyFunc NewStore]. rewrite (proj2 (keyOf_ok example_rs)).
    cbn [fst cacheStorage]. rewrite items_Add, lookup_insert_Some. by intros [[<- <-]|[_ ?]]. }
  split_and!; [done| |by exists example_rs|done|done..].
  split; [done|by intros k rs [-> ->]%Hi|]. intros h rs' rs Hin. by apply elem_of_nil in Hin.
Qed.

(** A creation, and its event. *)
Lemma never_overshoots_witness :
  accepted example_rs ∧ started example_rs example_controller ∧
  rtc (cstep example_rs) (mkCluster example_controller [])
    (mkCluster (observeAdd example_pod synced_controller) []) ∧
  (Z.of_nat (total example_rs (mkCluster (observeAdd example_pod synced_controller) [])) <=
    Z.max (Z.of_nat (running example_rs (podStore example_controller))) (rs_Replicas example_rs))%Z.
Proof.
  assert (rtc (cstep example_rs) (mkCluster example_controller [])
    (mkCluster (observeAdd example_pod synced_controller) [])) as Hsteps.
  { apply (rtc_l _ _ (mkCluster synced_controller [example_pod])).
    - eapply (step_sync _ 0 all_ok "ns/rs" _ synced_controller _ _ [example_pod]);
        [by intros e|vm_compute; reflexivity|done].
    - apply rtc_once. by apply (step_created _ _ example_pod example_pod []). }
  split_and!; [apply example_accepted|apply example_started|exact Hsteps|].
  apply (never_overshoots canonical_order canonical_sort no_hash canonical_overlapping canonical_Less);
    [apply example_accepted|apply example_started|exact Hsteps].
Defined.

Lemma manageReplicas_spec_witness :
  uid_ok (tracked example_controller) ∧ fits example_controller example_rs [] ∧
  ∃ u calls, manageReplicas 0 all_ok [] example_rs example_controller =
      Returns (with_tracked u example_controller, calls) ∧
    calls = [CreatePods "ns" "rs" true].
Proof.
  assert (uid_ok (tracked example_controller)) as Hu by apply New_uid_ok, New_ce_ok.
  assert (fits example_controller example_rs []) as Hf by done.
  split; [done|]. split; [done|].
  destruct (manageReplicas_spec canonical_order canonical_Less 0 all_ok [] example_rs
    example_controller Hu Hf) as (u & calls & E & Hcalls & _).
  exists u, calls. split; [exact E|exact Hcalls].
Defined.

Lemma getPodReplicaSet_spec_witness :
  coherent example_controller ∧
  ∃ rs', items (cacheStorage (rsStore example_controller)) !! "ns/rs" = Some rs' ∧ owns rs' example_pod.
Proof.
  assert (coherent example_controller) as Hc by apply example_started.
  split; [done|].
  pose proof (getPodReplicaSet_spec canonical_order canonical_sort no_hash canonical_overlapping
    example_pod example_controller Hc) as Hg.
  assert ((getPodReplicaSet example_pod example_controller).2 = Some example_rs) as E
    by (vm_compute; reflexivity).
  destruct (getPodReplicaSet example_pod example_controller) as [s' r]. cbn in E. subst r.
  destruct Hg as (_ & _ & Hr & _). exact Hr.
Defined.

(** *** A replica set that is deleted and created again

    The events of a deletion and of a creation leave the cache alone, and
    [isCacheValid] finds the new replica set under the old one's key: a pod
    that the new one does not select still wakes it. *)
Definition recreated_rs : ReplicaSet :=
  mkReplicaSet "ns" "rs" 9%Z 1 2 (Some (mkLabelSelector {["app" := "db"]} [])) 0 0.

Theorem stale_owner_after_recreation :
  let s := observeAdd example_pod example_controller in
  let st := (Store.Add recreated_rs (Store.Delete example_rs (rsStore s)).1).1 in
  let s' := enqueueReplicaSet (IObj recreated_rs) (enqueueReplicaSet (IObj example_rs) (with_rsStore st s)) in
  Store.List (rsStore s') = [recreated_rs] ∧ isReplicaSetMatch example_pod recreated_rs = false ∧
  (getPodReplicaSet example_pod s').2 = Some example_rs.
Proof. vm_compute. done. Qed.
