(* ===== verification/EndpointsController.v ===== *)
(** * The endpoints controller

    [pkg/controller/endpoint/endpoints_controller.go], with [FindPort] of
    [pkg/api/pod/util.go] and [GetPodServices] of [pkg/client/cache/listers.go]: for
    each service with a selector, the endpoints object lists the addresses of the
    pods that it selects, at the ports that it maps to.

    The API server is the class [EndpointsAPI] over a world [W]; [EndpointsLaws] says
    what its calls do to the objects it holds.  Start-up ([NewEndpointController], [Run])
    is the wiring of informers ([Informer]) to the handlers below. *)

From S2P Require Import Prelude.
From S2P Require Import SetsString.
From S2P Require Import WorkQueue.
From S2P Require Import ThreadSafeStore.
From S2P Require Import Store.
From S2P Require Import Informer.
From S2P Require Import Strconv.
From S2P Require Import IntStr.
From S2P Require Import Labels.
From S2P Require Import Pods.
From S2P Require Import Listers.
From S2P Require Import Endpoints.

(** ** Data *)

Record ServicePort := mkServicePort {
  sp_Name : string;
  sp_Protocol : string;
  sp_TargetPort : IntOrString;
}.

(** Labels and selector may be nil, which [DeepEqual] and the code tell from empty. *)
Record Service := mkService {
  svc_Namespace : string;
  svc_Name : string;
  svc_ResourceVersion : string;
  svc_Labels : option (gmap string string);
  svc_Selector : option (gmap string string);
  svc_Ports : list ServicePort;
}.

Record EndpointsObject := mkEndpoints {
  ep_Namespace : string;
  ep_Name : string;
  ep_ResourceVersion : string;
  ep_Labels : option (gmap string string);
  ep_Annotations : option (gmap string string);
  ep_Subsets : option (list EndpointSubset);
}.

#[export] Instance EndpointsObject_eq_dec : EqDecision EndpointsObject.
Proof. solve_decision. Defined.

#[export] Instance service_meta : ObjectMeta Service := {|
  GetNamespace := svc_Namespace;
  GetName := svc_Name;
  GetResourceVersion := svc_ResourceVersion;
|}.

#[export] Instance endpoints_meta : ObjectMeta EndpointsObject := {|
  GetNamespace := ep_Namespace;
  GetName := ep_Name;
  GetResourceVersion := ep_ResourceVersion;
|}.

Definition PodHostnameAnnotation : string := "pod.beta.kubernetes.io/hostname".
Definition PodSubdomainAnnotation : string := "pod.beta.kubernetes.io/subdomain".
Definition PodHostnamesAnnotation : string := "endpoints.beta.kubernetes.io/hostnames-map".

(** Reading a map gives the zero value for an absent key. *)
Definition at_key (m : gmap string string) (k : string) : string := default "" (m !! k).

(** Whether an error is a NotFound of the API server. *)
Inductive apiError := NotFound | OtherError (msg : string).

Definition IsNotFound (err : apiError) : bool := match err with NotFound => true | OtherError _ => false end.

Class EndpointsAPI (W : Type) := {
  ep_Get : string → string → W → result apiError EndpointsObject * W;
  ep_Create : string → EndpointsObject → W → option apiError * W;
  ep_Update : string → EndpointsObject → W → option apiError * W;
  ep_Delete : string → string → W → option apiError * W;
  ep_List : W → result apiError (list EndpointsObject) * W;
}.

Record EndpointController := mkEndpointController {
  serviceStore : cache Service;
  podStore : cache Pod;
  queue : Queue string;
}.

Definition with_queue (q : Queue string) (e : EndpointController) : EndpointController :=
  mkEndpointController (serviceStore e) (podStore e) q.

(** ** Ports *)

Fixpoint findNamedPort (name protocol : string) (ports : list ContainerPort) : option Z :=
  match ports with
  | [] => None
  | port :: ports =>
      if bool_decide (cp_Name port = name) && bool_decide (cp_Protocol port = protocol) then Some (cp_ContainerPort port)
      else findNamedPort name protocol ports
  end.

Fixpoint findInContainers (name protocol : string) (containers : list Container) : option Z :=
  match containers with
  | [] => None
  | container :: containers =>
      match findNamedPort name protocol (ctr_Ports container) with
      | Some p => Some p
      | None => findInContainers name protocol containers
      end
  end.

Definition FindPort (pod : Pod) (svcPort : ServicePort) : result string Z :=
  let portName := sp_TargetPort svcPort in
  let notFound := Err ("no suitable port for manifest: " +:+ pod_UID pod) in
  match type_ portName with
  | String_ =>
      match findInContainers (StrVal portName) (sp_Protocol svcPort) (Containers pod) with
      | Some p => Ok p
      | None => notFound
      end
  | IntStr.Int => Ok (IntValue portName)
  | TypeOther _ => notFound
  end.

(** ** Marshalling the host names

    [json.Marshal] of a [map[string]HostRecord], whose keys are sorted.  Addresses and
    host names are ASCII; other bytes would pass unchanged here. *)
Section json.
Definition hex_digit (n : N) : ascii := ascii_of_N (if (n <? 10)%N then 48 + n else 87 + n)%N.

Definition json_byte (c : ascii) (rest : string) : string :=
  let n := N_of_ascii c in
  if (n =? 34)%N || (n =? 92)%N then String "\" (String c rest)
  else if (n =? 10)%N then String "\" (String "n" rest)
  else if (n =? 13)%N then String "\" (String "r" rest)
  else if (n =? 9)%N then String "\" (String "t" rest)
  else if (n <? 32)%N || (n =? 60)%N || (n =? 62)%N || (n =? 38)%N
  then "\u00" +:+ String (hex_digit (n / 16)%N) (String (hex_digit (n mod 16)%N) rest)
  else String c rest.

Definition quote : string := String (ascii_of_N 34) "".

Fixpoint json_bytes (s : string) : string :=
  match s with EmptyString => "" | String c s => json_byte c (json_bytes s) end.

Definition json_string (s : string) : string := quote +:+ json_bytes s +:+ quote.

Fixpoint json_fields (l : list (string * string)) : string :=
  match l with
  | [] => ""
  | (k, hostName) :: l =>
      json_string k +:+ ":{" +:+ json_string "HostName" +:+ ":" +:+ json_string hostName +:+ "}" +:+
      match l with [] => "" | _ => "," end +:+ json_fields l
  end.

Definition marshalHostNames (podHostNames : gmap string string) : string :=
  "{" +:+ json_fields (merge_sort (λ a b, String.le a.1 b.1) (map_to_list podHostNames)) +:+ "}".
End json.

Section lister.
Context `{R : RangeOrder} `{K : KeySort}.
Implicit Types (pod : Pod) (svc : Service) (e : EndpointController).

(** [labels.Set(service.Spec.Selector).AsSelector()], for a selector that is not nil. *)
Definition svc_selects (svc : Service) (pod : Pod) : bool :=
  if bool_decide (svc_Namespace svc ≠ Namespace pod) then false
  else
    match svc_Selector svc with
    | None => false
    | Some selector => Labels.Matches (SelectorFromSet selector) (pod_Labels pod)
    end.

(** [StoreToServiceLister.GetPodServices] *)
Definition GetPodServices (store : cache Service) (pod : Pod) : list Service * option string :=
  let services := foldl (λ services service, if svc_selects service pod then services ++ [service] else services) [] (Store.List store) in
  if Nat.eqb (length services) 0 then (services, Some ("could not find service for pod " +:+ Name pod)) else (services, None).

Fixpoint membershipLoop (services : list Service) (set : gset string) : result (error (iface Service)) (gset string) :=
  match services with
  | [] => Ok set
  | svc :: services =>
      match DeletionHandlingMetaNamespaceKeyFunc (IObj svc) with
      | Err err => Err err
      | Ok key => membershipLoop services (SetsString.Insert set [key])
      end
  end.

Definition getPodServiceMemberships e pod : result (error (iface Service)) (gset string) :=
  match GetPodServices (serviceStore e) pod with
  | (_, Some _) => Ok ∅
  | (services, None) => membershipLoop services ∅
  end.

(** ** Handlers *)

Definition enqueueAll (services : gset string) e : EndpointController :=
  foldl (λ e key, with_queue (WorkQueue.Add key (queue e)).1 e) e (range_set services).

Definition addPod pod e : EndpointController :=
  match getPodServiceMemberships e pod with
  | Err _ => e
  | Ok services => enqueueAll services e
  end.

Definition hostNameAndDomainAnnotationsAreEqual (annotation1 annotation2 : gmap string string) : bool :=
  bool_decide (at_key annotation1 PodHostnameAnnotation = at_key annotation2 PodHostnameAnnotation) &&
  bool_decide (at_key annotation1 PodSubdomainAnnotation = at_key annotation2 PodSubdomainAnnotation).

(** [same]: the objects are deeply equal.  The code calls the old pod the new one. *)
Definition updatePod (same : bool) (old cur : Pod) e : EndpointController :=
  if same then e
  else
    let newPod := old in
    match getPodServiceMemberships e newPod with
    | Err _ => e
    | Ok services =>
        let oldPod := cur in
        if bool_decide (pod_Labels newPod ≠ pod_Labels oldPod) ||
           negb (hostNameAndDomainAnnotationsAreEqual (pod_Annotations newPod) (pod_Annotations oldPod))
        then
          match getPodServiceMemberships e oldPod with
          | Err _ => e
          | Ok oldServices => enqueueAll (SetsString.Union services oldServices) e
          end
        else enqueueAll services e
    end.

Definition deletePod (obj : iface Pod) e : EndpointController :=
  match obj with
  | IObj pod => addPod pod e
  | _ => e
  end.

(** The key of an object without one is the empty string, which is queued. *)
Definition enqueueService (obj : iface Service) e : EndpointController :=
  let key := match DeletionHandlingMetaNamespaceKeyFunc obj with Ok key => key | Err _ => "" end in
  with_queue (WorkQueue.Add key (queue e)).1 e.

(** ** Syncing *)

Definition endpointAddress pod : EndpointAddress :=
  mkAddress (PodIP pod)
    (Some (mkRef "Pod" (Namespace pod) (Name pod) (pod_UID pod) "" (pod_ResourceVersion pod) "")).

(** The body of the loop over the ports of the service. *)
Definition portStep svc pod (acc : list EndpointSubset * gmap string string) (servicePort : ServicePort) :
    list EndpointSubset * gmap string string :=
  let '(subsets, podHostNames) := acc in
  match FindPort pod servicePort with
  | Err _ => acc
  | Ok portNum =>
      if Nat.eqb (String.length (PodIP pod)) 0 then acc
      else
        match DeletionTimestamp pod with
        | Some _ => acc
        | None =>
            let hostname := at_key (pod_Annotations pod) PodHostnameAnnotation in
            let podHostNames :=
              if Nat.ltb 0 (String.length hostname) &&
                 bool_decide (at_key (pod_Annotations pod) PodSubdomainAnnotation = svc_Name svc) &&
                 bool_decide (svc_Namespace svc = Namespace pod)
              then <[PodIP pod := hostname]> podHostNames else podHostNames in
            let epp := mkPort (sp_Name servicePort) portNum (sp_Protocol servicePort) in
            let epa := endpointAddress pod in
            if IsPodReady pod then (subsets ++ [mkSubset [epa] [] [epp]], podHostNames)
            else (subsets ++ [mkSubset [] [epa] [epp]], podHostNames)
        end
  end.

Definition podStep svc acc pod := foldl (portStep svc pod) acc (svc_Ports svc).

(** The subsets and the host names, before packing. *)
Definition serviceEndpoints svc (pods : list Pod) : list EndpointSubset * gmap string string :=
  foldl (podStep svc) ([], ∅) pods.

End lister.

Definition verifyPodHostNamesAreEqual (newPodHostNames : string) (oldAnnotations : option (gmap string string)) : bool :=
  let oldPodHostNames := match oldAnnotations with Some m => at_key m PodHostnamesAnnotation | None => "" end in
  bool_decide (oldPodHostNames = newPodHostNames).

Definition requeue (key : string) e : EndpointController := with_queue (WorkQueue.Add key (queue e)).1 e.

Section controller.
Context {W : Type} `{API : EndpointsAPI W}.
Context `{R : RangeOrder} `{K : KeySort} `{KP : !KeyRange EndpointPort} `{KL : !KeyRange loc} `{H : EndpointHash} `{ES : !EndpointSorts}.
Implicit Types (e : EndpointController) (pod : Pod) (svc : Service) (w : W).

(** Comparing with the current object, and writing what differs. *)
Definition writeEndpoints (key : string) svc (subsets : list EndpointSubset) (serializedPodHostNames : string)
    (currentEndpoints : EndpointsObject) e w : EndpointController * W :=
  let podHostNamesAreEqual := verifyPodHostNamesAreEqual serializedPodHostNames (ep_Annotations currentEndpoints) in
  if bool_decide (ep_Subsets currentEndpoints = Some subsets) &&
     bool_decide (ep_Labels currentEndpoints = svc_Labels svc) && podHostNamesAreEqual
  then (e, w)
  else
    let annotations := default ∅ (ep_Annotations currentEndpoints) in
    let annotations :=
      if Nat.eqb (String.length serializedPodHostNames) 0 then delete PodHostnamesAnnotation annotations
      else <[PodHostnamesAnnotation := serializedPodHostNames]> annotations in
    let newEndpoints := mkEndpoints (ep_Namespace currentEndpoints) (ep_Name currentEndpoints)
      (ep_ResourceVersion currentEndpoints) (svc_Labels svc) (Some annotations) (Some subsets) in
    let '(err, w) :=
      if Nat.eqb (String.length (ep_ResourceVersion currentEndpoints)) 0
      then ep_Create (svc_Namespace svc) newEndpoints w
      else ep_Update (svc_Namespace svc) newEndpoints w in
    match err with
    | Some _ => (requeue key e, w)
    | None => (e, w)
    end.

(** The endpoints of a service that is gone. *)
Definition deleteEndpoints (key : string) e w : EndpointController * W :=
  match SplitMetaNamespaceKey key with
  | Err _ => (e, w)
  | Ok (namespace, name) =>
      match ep_Delete namespace name w with
      | (Some err, w) => if negb (IsNotFound err) then (requeue key e, w) else (e, w)
      | (None, w) => (e, w)
      end
  end.

Definition syncService (key : string) e w : EndpointController * W :=
  match Store.GetByKey key (serviceStore e) with
  | Err _ | Ok None => deleteEndpoints key e w
  | Ok (Some svc) =>
      match svc_Selector svc with
      | None => (e, w)
      | Some selector =>
          let pods := listPods (podStore e) (svc_Namespace svc) (SelectorFromSet selector) in
          let '(subsets, podHostNames) := serviceEndpoints svc pods in
          let subsets := RepackSubsets subsets in
          let '(current, w) := ep_Get (svc_Namespace svc) (svc_Name svc) w in
          match (match current with
                 | Ok currentEndpoints => Some currentEndpoints
                 | Err err =>
                     if IsNotFound err then Some (mkEndpoints "" (svc_Name svc) "" (svc_Labels svc) None None) else None
                 end) with
          | None => (requeue key e, w)
          | Some currentEndpoints =>
              let serializedPodHostNames :=
                if Nat.ltb 0 (size podHostNames) then marshalHostNames podHostNames else "" in
              writeEndpoints key svc subsets serializedPodHostNames currentEndpoints e w
          end
      end
  end.

(** One turn of a worker: [None] when it would wait, or the queue has shut down. *)
Definition processNext e w : option (EndpointController * W) :=
  match WorkQueue.Get (queue e) with
  | (q, Got key) =>
      let '(e, w) := syncService key (with_queue q e) w in
      Some (with_queue (WorkQueue.Done key (queue e)).1 e, w)
  | _ => None
  end.

Definition checkLeftoverEndpoints e w : EndpointController * W :=
  match ep_List w with
  | (Err _, w) => (e, w)
  | (Ok items, w) =>
      (foldl (λ e ep,
         match DeletionHandlingMetaNamespaceKeyFunc (IObj ep) with
         | Err _ => e
         | Ok key => with_queue (WorkQueue.Add key (queue e)).1 e
         end) e items, w)
  end.
End controller.

(** ** Handlers: every service that selects the pod is queued *)
Section handlers.
Context `{R : RangeOrder} `{K : KeySort}.
Implicit Types (e : EndpointController) (pod : Pod) (svc : Service).

(** The keys of the services in the store that select the pod. *)
Definition selected_keys e pod : gset string :=
  list_to_set (keyOf <$> filter (λ svc, svc_selects svc pod = true) (Store.List (serviceStore e))).

Lemma GetPodServices_filter store pod : (GetPodServices store pod).1 = filter (λ svc, svc_selects svc pod = true) (Store.List store).
Proof.
  unfold GetPodServices. set (l := foldl _ _ _). assert (l = filter (λ svc, svc_selects svc pod = true) (Store.List store)) as ->.
  { subst l. generalize (Store.List store) as svcs. intros svcs. induction svcs as [|svc svcs IH] using rev_ind; [done|].
    rewrite foldl_snoc, filter_app, IH. destruct (svc_selects svc pod) eqn:E.
    - by rewrite filter_cons_True.
    - by rewrite filter_cons_False, filter_nil, app_nil_r by congruence. }
  by destruct (Nat.eqb _ 0).
Qed.

Lemma membershipLoop_total svcs set : membershipLoop svcs set = Ok (list_to_set (keyOf <$> svcs) ∪ set).
Proof.
  revert set. induction svcs as [|svc svcs IH]; intros set; cbn [membershipLoop].
  - f_equal. set_solver.
  - rewrite keyOf_key, IH, Insert_union. cbn. f_equal. set_solver.
Qed.

Lemma memberships_spec e pod : getPodServiceMemberships e pod = Ok (selected_keys e pod).
Proof.
  unfold getPodServiceMemberships, selected_keys. rewrite <- GetPodServices_filter.
  destruct (GetPodServices (serviceStore e) pod) as [svcs err] eqn:E. unfold GetPodServices in E. cbn [fst].
  destruct (Nat.eqb _ 0) eqn:Hn in E; injection E as <- <-.
  - apply Nat.eqb_eq, length_zero_iff_nil in Hn. by rewrite Hn.
  - rewrite membershipLoop_total. f_equal. apply union_empty_r_L.
Qed.

Lemma queue_Add_dirty k (q : Queue string) : shuttingDown q = false →
  dirty (WorkQueue.Add k q).1 = {[k]} ∪ dirty q ∧ shuttingDown (WorkQueue.Add k q).1 = false.
Proof.
  intros Hs. unfold WorkQueue.Add. rewrite Hs. destruct (has (dirty q) k) eqn:E.
  - unfold has in E. apply bool_decide_eq_true in E. cbn. split; [set_solver|done].
  - by destruct (has (processing q) k).
Qed.

(** What a handler does: the keys are queued, the stores stay. *)
Definition queued (keys : gset string) e e' : Prop :=
  dirty (queue e') = keys ∪ dirty (queue e) ∧ shuttingDown (queue e') = false ∧
  serviceStore e' = serviceStore e ∧ podStore e' = podStore e.

Lemma enqueueAll_queued keys e : shuttingDown (queue e) = false → queued keys e (enqueueAll keys e).
Proof.
  unfold enqueueAll, queued. rewrite <- (list_to_set_range_set keys) at 2. generalize (range_set keys) as l. intros l Hs.
  induction l as [|k l IH] using rev_ind; [cbn; split_and!; [set_solver|done..]|].
  rewrite foldl_snoc. destruct IH as (Hd & Hs' & H1 & H2). cbn [queue with_queue serviceStore podStore].
  destruct (queue_Add_dirty k _ Hs') as [Hd' ?]. rewrite Hd', Hd, list_to_set_app_L. split_and!; [set_solver|done..].
Qed.

Lemma selected_keys_same e pod pod' : Namespace pod = Namespace pod' → pod_Labels pod = pod_Labels pod' →
  selected_keys e pod = selected_keys e pod'.
Proof.
  intros Hn Hl. unfold selected_keys. do 2 f_equal. apply list_filter_iff. intros svc. unfold svc_selects. by rewrite Hn, Hl.
Qed.

(** C11: the handlers of an added pod, of a changed one, and of a deleted one that arrives as the
    object itself queue exactly the services that select the pod: the new one or, if it
    changed, also the old one.  (The queue is not shut down, and a change keeps the namespace of
    the pod.)  A deletion that was missed and arrives as a tombstone queues nothing: the
    services of that pod do not hear of it. *)
Theorem pod_events_reach_services e old cur : shuttingDown (queue e) = false → Namespace old = Namespace cur →
  queued (selected_keys e cur) e (addPod cur e) ∧
  queued (selected_keys e cur) e (deletePod (IObj cur) e) ∧
  queued (selected_keys e old ∪ selected_keys e cur) e (updatePod false old cur e) ∧
  updatePod true old cur e = e ∧
  ∀ key obj, deletePod (IDeletedFinalStateUnknown key obj) e = e.
Proof.
  intros Hs Hns. assert (queued (selected_keys e cur) e (addPod cur e)) as Hadd.
  { unfold addPod. rewrite memberships_spec. by apply enqueueAll_queued. }
  split_and!; [done|done| |done|done]. unfold updatePod. rewrite !memberships_spec.
  destruct (bool_decide (pod_Labels old ≠ pod_Labels cur)) eqn:E; cbn [orb].
  - rewrite Union_union. by apply enqueueAll_queued.
  - apply bool_decide_eq_false in E. assert (pod_Labels old = pod_Labels cur) as El by (by apply dec_stable).
    rewrite (selected_keys_same e old cur) by done. rewrite union_idemp_L.
    destruct (negb _); [rewrite Union_union, union_idemp_L|]; by apply enqueueAll_queued.
Qed.

End handlers.

(** ** What a service offers *)
Section desired.
Implicit Types (pod : Pod) (svc : Service) (pods : list Pod).

(** A pod is an endpoint of a service port if the port is found, the pod has an address,
    and it is not being deleted. *)
Definition reports svc pod (sp : ServicePort) (o : offer) : Prop :=
  ∃ n, FindPort pod sp = Ok n ∧ PodIP pod ≠ "" ∧ DeletionTimestamp pod = None ∧
    o = (mkPort (sp_Name sp) n (sp_Protocol sp), endpointAddress pod, IsPodReady pod).

Lemma length_eqb_0 s : Nat.eqb (String.length s) 0 = bool_decide (s = "").
Proof. by destruct s. Qed.

Lemma portStep_offers svc pod acc sp o :
  o ∈ offers (portStep svc pod acc sp).1 ↔ o ∈ offers acc.1 ∨ reports svc pod sp o.
Proof.
  assert (∀ l l', o ∈ offers (l ++ l') ↔ o ∈ offers l ∨ o ∈ offers l') as Happ.
  { intros l l'. unfold offers. by rewrite bind_app, elem_of_app. }
  destruct acc as [subsets names]. unfold portStep, reports. rewrite length_eqb_0.
  destruct (FindPort pod sp) as [n|err]; [|cbn; naive_solver].
  destruct (decide (PodIP pod = "")) as [E|E]; [rewrite bool_decide_eq_true_2 by done; cbn; naive_solver|].
  rewrite bool_decide_eq_false_2 by done. destruct (DeletionTimestamp pod) eqn:Ed; [cbn; naive_solver|].
  destruct (IsPodReady pod); cbn [fst]; rewrite Happ; cbn; rewrite list_elem_of_singleton; naive_solver.
Qed.

Lemma podStep_offers svc pod acc o :
  o ∈ offers (podStep svc acc pod).1 ↔ o ∈ offers acc.1 ∨ ∃ sp, sp ∈ svc_Ports svc ∧ reports svc pod sp o.
Proof.
  unfold podStep. generalize (svc_Ports svc) as sps. intros sps. induction sps as [|sp sps IH] using rev_ind; [cbn; set_solver|].
  rewrite foldl_snoc, portStep_offers, IH. setoid_rewrite elem_of_app. setoid_rewrite list_elem_of_singleton. naive_solver.
Qed.

Lemma serviceEndpoints_reports svc pods o :
  o ∈ offers (serviceEndpoints svc pods).1 ↔ ∃ pod sp, pod ∈ pods ∧ sp ∈ svc_Ports svc ∧ reports svc pod sp o.
Proof.
  unfold serviceEndpoints. induction pods as [|pod pods IH] using rev_ind; [cbn; set_solver|].
  rewrite foldl_snoc, podStep_offers, IH. setoid_rewrite elem_of_app. setoid_rewrite list_elem_of_singleton. naive_solver.
Qed.

(** The UID identifies a pod. *)
Definition unique_uids pods : Prop := ∀ x y, x ∈ pods → y ∈ pods → pod_UID x = pod_UID y → x = y.

Lemma serviceEndpoints_consistent svc pods : unique_uids pods → consistent (offers (serviceEndpoints svc pods).1).
Proof.
  intros Hu p a r p' a' r' (x & sp & Hx & _ & n & _ & _ & _ & E)%serviceEndpoints_reports
    (y & sp' & Hy & _ & n' & _ & _ & _ & E')%serviceEndpoints_reports Hk.
  injection E as -> -> ->. injection E' as -> -> ->. injection Hk as _ Hk. by rewrite (Hu x y Hx Hy Hk).
Qed.

Lemma serviceEndpoints_perm svc pods pods' : pods ≡ₚ pods' →
  same_offers (offers (serviceEndpoints svc pods).1) (offers (serviceEndpoints svc pods').1).
Proof.
  intros Hp p a. apply option_eq. intros r. destruct r; rewrite ?status_true, ?status_false, !serviceEndpoints_reports; by setoid_rewrite Hp.
Qed.

(** The host name that a pod publishes under its address. *)
Definition publishes svc pod (found : Prop) : Prop :=
  at_key (pod_Annotations pod) PodHostnameAnnotation ≠ "" ∧
  at_key (pod_Annotations pod) PodSubdomainAnnotation = svc_Name svc ∧
  svc_Namespace svc = Namespace pod ∧ PodIP pod ≠ "" ∧ DeletionTimestamp pod = None ∧ found.

#[export] Instance publishes_dec svc pod found `{!Decision found} : Decision (publishes svc pod found).
Proof. unfold publishes. apply _. Defined.

Definition hostname_of svc pod : option string :=
  if decide (publishes svc pod (Exists (λ sp, is_Ok (FindPort pod sp)) (svc_Ports svc)))
  then Some (at_key (pod_Annotations pod) PodHostnameAnnotation) else None.

Lemma portStep_hostNames svc pod acc sp : (portStep svc pod acc sp).2 =
  if decide (publishes svc pod (is_Ok (FindPort pod sp)))
  then <[PodIP pod := at_key (pod_Annotations pod) PodHostnameAnnotation]> acc.2 else acc.2.
Proof.
  assert (∀ s, Nat.ltb 0 (String.length s) = bool_decide (s ≠ "")) as Hlen by (by intros []).
  destruct acc as [subsets names]. unfold portStep. rewrite length_eqb_0, Hlen. cbn [snd].
  destruct (decide (publishes svc pod _)) as [(H1 & H2 & H3 & H4 & H5 & [n H6])|Hnot].
  - rewrite H6, H5, bool_decide_eq_false_2, !bool_decide_eq_true_2 by done. by destruct (IsPodReady pod).
  - destruct (FindPort pod sp) as [n|err] eqn:Ef; [|done]. case_bool_decide; [done|].
    destruct (DeletionTimestamp pod) eqn:Ed; [done|]. rewrite <- !bool_decide_and, bool_decide_eq_false_2.
    + by destruct (IsPodReady pod).
    + intros [[H1 H2] H3]. apply Hnot. by split_and!; [..|exists n].
Qed.

Lemma podStep_hostNames svc pod acc : (podStep svc acc pod).2 =
  match hostname_of svc pod with Some h => <[PodIP pod := h]> acc.2 | None => acc.2 end.
Proof.
  unfold podStep, hostname_of. generalize (svc_Ports svc) as sps. intros sps. induction sps as [|sp sps IH] using rev_ind.
  - cbn [foldl]. rewrite decide_False; [done|]. intros (_ & _ & _ & _ & _ & Hex). by apply Exists_nil in Hex.
  - rewrite foldl_snoc, portStep_hostNames, IH.
    assert (publishes svc pod (Exists (λ sp, is_Ok (FindPort pod sp)) (sps ++ [sp])) ↔
      publishes svc pod (Exists (λ sp, is_Ok (FindPort pod sp)) sps) ∨ publishes svc pod (is_Ok (FindPort pod sp))) as Hiff.
    { unfold publishes. rewrite Exists_app, Exists_cons, Exists_nil. tauto. }
    destruct (decide (publishes svc pod (is_Ok _))), (decide (publishes svc pod (Exists _ sps))),
      (decide (publishes svc pod (Exists _ (sps ++ [sp])))); try tauto; by rewrite ?insert_insert_eq.
Qed.

(** Pods with the same address publish the same name. *)
Definition hostnames_agree svc pods : Prop :=
  ∀ x y h h', x ∈ pods → y ∈ pods → PodIP x = PodIP y → hostname_of svc x = Some h → hostname_of svc y = Some h' → h = h'.

Lemma serviceEndpoints_hostNames svc pods ip h : hostnames_agree svc pods →
  (serviceEndpoints svc pods).2 !! ip = Some h ↔ ∃ pod, pod ∈ pods ∧ PodIP pod = ip ∧ hostname_of svc pod = Some h.
Proof.
  unfold serviceEndpoints. revert h. induction pods as [|pod pods IH] using rev_ind; intros h Ha; [cbn; set_solver|].
  assert (hostnames_agree svc pods) as Ha' by (intros x y h1 h2 ??; apply Ha; apply elem_of_app; by left).
  rewrite foldl_snoc, podStep_hostNames. setoid_rewrite elem_of_app. setoid_rewrite list_elem_of_singleton.
  destruct (hostname_of svc pod) as [h0|] eqn:E; [|rewrite IH by done; naive_solver].
  destruct (decide (PodIP pod = ip)) as [<-|Hne].
  - rewrite lookup_insert_eq. split; [intros [= <-]; exists pod; naive_solver|].
    intros (x & Hx & Hip & Hh). f_equal. apply (Ha pod x h0 h); [apply elem_of_app; right; by left| |done..].
    apply elem_of_app. rewrite list_elem_of_singleton. naive_solver.
  - rewrite lookup_insert_ne, IH by done. naive_solver.
Qed.

Lemma hostNames_perm svc pods pods' : hostnames_agree svc pods → pods ≡ₚ pods' →
  (serviceEndpoints svc pods).2 = (serviceEndpoints svc pods').2.
Proof.
  intros Ha Hp. assert (hostnames_agree svc pods') as Ha' by (intros x y h h'; rewrite <- !Hp; apply Ha).
  apply map_eq. intros ip. apply option_eq. intros h. rewrite !serviceEndpoints_hostNames by done. by setoid_rewrite Hp.
Qed.
End desired.

(** ** Syncing *)

(** What the server stores is what it is given, under the namespace of the request and
    with a resource version of its own. *)
Definition same_content (o o' : EndpointsObject) : Prop :=
  ep_Name o' = ep_Name o ∧ ep_Labels o' = ep_Labels o ∧ ep_Annotations o' = ep_Annotations o ∧
  ep_Subsets o' = ep_Subsets o ∧ ep_ResourceVersion o' ≠ "".

(** A call that fails has, or has not, taken effect. *)
Class EndpointsLaws (W : Type) `{EndpointsAPI W} := {
  stored : W → gmap (string * string) EndpointsObject;
  stored_ok w k o : stored w !! k = Some o → ep_Name o = k.2 ∧ ep_ResourceVersion o ≠ "";
  get_law ns n w r w' : ep_Get ns n w = (r, w') → stored w' = stored w ∧
    match r with
    | Ok o => stored w !! (ns, n) = Some o
    | Err err => IsNotFound err = true → stored w !! (ns, n) = None
    end;
  create_law ns o w err w' : ep_Create ns o w = (err, w') →
    (∃ o', same_content o o' ∧ stored w' = <[(ns, ep_Name o) := o']> (stored w)) ∨ is_Some err ∧ stored w' = stored w;
  update_law ns o w err w' : ep_Update ns o w = (err, w') →
    (∃ o', same_content o o' ∧ stored w' = <[(ns, ep_Name o) := o']> (stored w)) ∨ is_Some err ∧ stored w' = stored w;
  delete_law ns n w err w' : ep_Delete ns n w = (err, w') →
    stored w' = delete (ns, n) (stored w) ∨
    is_Some err ∧ stored w' = stored w ∧ (err = Some NotFound → stored w !! (ns, n) = None);
}.

Section sync.
Context {W : Type} `{API : EndpointsAPI W} `{L : !EndpointsLaws W}.
Implicit Types (e : EndpointController) (pod : Pod) (svc : Service) (w : W) (o : EndpointsObject).

Definition elsewhere (k : string * string) w w' : Prop := ∀ k', k' ≠ k → stored w' !! k' = stored w !! k'.

Definition hostNamesOf o : string := at_key (default ∅ (ep_Annotations o)) PodHostnamesAnnotation.

(** The object says what it should, for the packed subsets and the host names. *)
Definition settled svc (subsets : list EndpointSubset) (names : string) o : Prop :=
  ep_Subsets o = Some subsets ∧ ep_Labels o = svc_Labels svc ∧ hostNamesOf o = names.

(** Annotations of others are left alone. *)
Definition keeps_annotations (before : option EndpointsObject) o : Prop :=
  ∀ k, k ≠ PodHostnamesAnnotation → default ∅ (ep_Annotations o) !! k = (before ≫= ep_Annotations) ≫= (.!! k).

Lemma verify_spec names o : verifyPodHostNamesAreEqual names (ep_Annotations o) = true ↔ hostNamesOf o = names.
Proof.
  unfold verifyPodHostNamesAreEqual, hostNamesOf. rewrite bool_decide_eq_true. by destruct (ep_Annotations o).
Qed.

(** [current] is what [Get] gave, or the object made when there was none. *)
Lemma writeEndpoints_spec key svc subsets names current before e w e' w' :
  stored w !! (svc_Namespace svc, svc_Name svc) = before → ep_Name current = svc_Name svc →
  (before = Some current ∧ ep_ResourceVersion current ≠ "" ∨
   before = None ∧ ep_ResourceVersion current = "" ∧ ep_Annotations current = None ∧ ep_Subsets current = None) →
  writeEndpoints key svc subsets names current e w = (e', w') →
  elsewhere (svc_Namespace svc, svc_Name svc) w w' ∧
  (e' = requeue key e ∨
   e' = e ∧ ∃ o, stored w' !! (svc_Namespace svc, svc_Name svc) = Some o ∧ settled svc subsets names o ∧
     keeps_annotations before o).
Proof.
  intros Hb Hname Hcur. unfold writeEndpoints.
  assert (∀ k, default ∅ (ep_Annotations current) !! k = (before ≫= ep_Annotations) ≫= (.!! k)) as Hann.
  { intros k. destruct Hcur as [[-> _]|(-> & _ & -> & _)]; cbn; [by destruct (ep_Annotations current)|by rewrite lookup_empty]. }
  destruct (_ && _ && _) eqn:Hsame.
  - intros [= <- <-]. split; [done|]. right. split; [done|]. apply andb_true_iff in Hsame as [[H1 H2]%andb_true_iff H3%verify_spec].
    apply bool_decide_eq_true in H1, H2. destruct Hcur as [[-> _]|(_ & _ & _ & E)]; [|congruence].
    exists current. split_and!; [done|done|]. intros k _. apply Hann.
  - set (annotations := if Nat.eqb (String.length names) 0 then _ else _).
    set (new := mkEndpoints (ep_Namespace current) (ep_Name current) (ep_ResourceVersion current) _ _ _).
    assert (∀ o, same_content new o → settled svc subsets names o ∧ keeps_annotations before o) as Hnew.
    { clear Hsame. intros o (_ & H1 & H2 & H3 & _). unfold settled, keeps_annotations, hostNamesOf. rewrite H1, H2, H3. cbn.
      subst annotations. rewrite length_eqb_0. unfold at_key. case_bool_decide as Hn.
      - rewrite lookup_delete_eq, Hn. split; [done|]. intros k Hk. by rewrite lookup_delete_ne by done.
      - rewrite lookup_insert_eq. split; [done|]. intros k Hk. by rewrite lookup_insert_ne by done. }
    destruct (if Nat.eqb (String.length (ep_ResourceVersion current)) 0 then _ else _) as [err w1] eqn:Hcall.
    assert ((∃ o, same_content new o ∧ stored w1 = <[(svc_Namespace svc, svc_Name svc) := o]> (stored w)) ∨
      is_Some err ∧ stored w1 = stored w) as Hst.
    { assert (ep_Name new = svc_Name svc) as <- by done.
      destruct (Nat.eqb _ _) in Hcall; [by apply create_law in Hcall|by apply update_law in Hcall]. }
    intros E. assert (w' = w1 ∧ e' = match err with Some _ => requeue key e | None => e end) as [-> ->] by (by destruct err; injection E).
    split.
    + intros k' Hk'. destruct Hst as [(o & _ & ->)|[_ ->]]; [by rewrite lookup_insert_ne|done].
    + destruct err as [err|]; [by left|right]. split; [done|]. destruct Hst as [(o & Ho & ->)|[[? [=]] _]].
      exists o. rewrite lookup_insert_eq. split; [done|]. by apply Hnew.
Qed.

Context `{R : RangeOrder} `{K : KeySort} `{KP : !KeyRange EndpointPort} `{KL : !KeyRange loc} `{H : EndpointHash} `{ES : !EndpointSorts}.

Definition service_pods e svc (selector : gmap string string) : list Pod :=
  listPods (podStore e) (svc_Namespace svc) (SelectorFromSet selector).
Definition packed svc pods : list EndpointSubset := RepackSubsets (serviceEndpoints svc pods).1.
Definition hostnames svc pods : string :=
  if Nat.ltb 0 (size (serviceEndpoints svc pods).2) then marshalHostNames (serviceEndpoints svc pods).2 else "".

Lemma syncService_steps key e w svc selector : Store.GetByKey key (serviceStore e) = Ok (Some svc) →
  svc_Selector svc = Some selector → let pods := service_pods e svc selector in
  syncService key e w =
  let '(current, w) := ep_Get (svc_Namespace svc) (svc_Name svc) w in
  match current with
  | Ok o => writeEndpoints key svc (packed svc pods) (hostnames svc pods) o e w
  | Err err =>
      if IsNotFound err then writeEndpoints key svc (packed svc pods) (hostnames svc pods)
        (mkEndpoints "" (svc_Name svc) "" (svc_Labels svc) None None) e w
      else (requeue key e, w)
  end.
Proof.
  intros Hk Hs pods. unfold syncService, packed, hostnames. rewrite Hk, Hs. fold (service_pods e svc selector). fold pods.
  destruct (serviceEndpoints svc pods) as [subsets names]. cbn [fst snd].
  destruct (ep_Get _ _ w) as [[o|err] w1]; [done|]. by destruct (IsNotFound err).
Qed.

Lemma sync_outcome key e w svc selector e' w' : Store.GetByKey key (serviceStore e) = Ok (Some svc) →
  svc_Selector svc = Some selector → syncService key e w = (e', w') →
  let pods := service_pods e svc selector in
  elsewhere (svc_Namespace svc, svc_Name svc) w w' ∧
  (e' = requeue key e ∨
   e' = e ∧ ∃ o, stored w' !! (svc_Namespace svc, svc_Name svc) = Some o ∧
     settled svc (packed svc pods) (hostnames svc pods) o ∧
     keeps_annotations (stored w !! (svc_Namespace svc, svc_Name svc)) o).
Proof.
  intros Hk Hs. rewrite (syncService_steps key e w svc selector Hk Hs). cbn zeta.
  destruct (ep_Get _ _ w) as [current w1] eqn:Hget. apply get_law in Hget as [Hst Hget]. unfold elsewhere. rewrite <- Hst in *.
  destruct current as [o|err].
  - apply stored_ok in Hget as Hok. destruct Hok as [Hn Hrv]. apply (writeEndpoints_spec _ _ _ _ _ _ e w1 e' w'); [done|done|by left].
  - destruct (IsNotFound err) eqn:Hnf.
    + apply (writeEndpoints_spec _ _ _ _ _ _ e w1 e' w'); [done|done|right]. split_and!; [by apply Hget|done..].
    + intros [= <- <-]. split; [done|by left].
Qed.

(** C9: syncing a service with a selector: the endpoints object of the service becomes the
    packed form of what the selected pods offer, with the service's labels and the
    published host names, whatever the errors of the API server; or the key is queued
    again.  Annotations of others, and other objects, stay as they are. *)
Theorem syncService_writes_endpoints key e w svc selector e' w' : Store.GetByKey key (serviceStore e) = Ok (Some svc) →
  svc_Selector svc = Some selector → syncService key e w = (e', w') →
  let pods := service_pods e svc selector in
  elsewhere (svc_Namespace svc, svc_Name svc) w w' ∧
  (e' = requeue key e ∨
   e' = e ∧ ∃ o, stored w' !! (svc_Namespace svc, svc_Name svc) = Some o ∧
     settled svc (packed svc pods) (hostnames svc pods) o ∧
     keeps_annotations (stored w !! (svc_Namespace svc, svc_Name svc)) o).
Proof. apply sync_outcome. Qed.

(** A service that is gone loses its endpoints, or the key is queued again; nothing
    else changes.  A key that cannot be split is dropped, and a service without a selector is
    left to others. *)
Theorem syncService_other_branches key e w e' w' : syncService key e w = (e', w') →
  match Store.GetByKey key (serviceStore e) with
  | Ok (Some svc) => svc_Selector svc = None → e' = e ∧ w' = w
  | _ =>
      match SplitMetaNamespaceKey key with
      | Err _ => e' = e ∧ w' = w
      | Ok (namespace, name) => elsewhere (namespace, name) w w' ∧
          (e' = requeue key e ∨ e' = e ∧ stored w' !! (namespace, name) = None)
      end
  end.
Proof.
  unfold syncService.
  assert (deleteEndpoints key e w = (e', w') → match SplitMetaNamespaceKey key with
      | Err _ => e' = e ∧ w' = w
      | Ok (namespace, name) => elsewhere (namespace, name) w w' ∧
          (e' = requeue key e ∨ e' = e ∧ stored w' !! (namespace, name) = None)
      end) as Hdel.
  { unfold deleteEndpoints. destruct (SplitMetaNamespaceKey key) as [[ns n]|err]; [|by intros [= <- <-]].
    destruct (ep_Delete ns n w) as [err w1] eqn:Hd. apply delete_law in Hd. intros E.
    assert (w' = w1) as -> by (destruct err as [err|]; [destruct (negb _)|]; by injection E).
    split; [intros k Hk; destruct Hd as [-> |(_ & -> & _)]; [by rewrite lookup_delete_ne|done]|].
    destruct err as [[|msg]|]; cbn in E; injection E as <-; [right|by left|right]; (split; [done|]);
      (destruct Hd as [-> |(Hs & -> & Hn)]; [apply lookup_delete_eq|]); [by apply Hn|by destruct Hs]. }
  destruct (Store.GetByKey key (serviceStore e)) as [[svc|]|err]; [|done..].
  intros E Hsel. rewrite Hsel in E. by injection E as <- <-.
Qed.
End sync.

(** ** Quiet when nothing changes *)

(** Which pods a listing has does not depend on the orders of its loops. *)
Lemma service_pods_perm (R1 R2 : RangeOrder) (K1 K2 : KeySort) e svc selector :
  @service_pods R1 K1 e svc selector ≡ₚ @service_pods R2 K2 e svc selector.
Proof.
  assert (∀ pod, @Labels.Matches R1 _ _ (@SelectorFromSet R1 K1 selector) (pod_Labels pod) =
    @Labels.Matches R2 _ _ (@SelectorFromSet R2 K2 selector) (pod_Labels pod)) as Hm.
  { intros pod. apply eq_true_iff_eq.
    rewrite (proj1 (@SelectorFromSet_ok R1 K1 _ _)), (proj1 (@SelectorFromSet_ok R2 K2 _ _)). done. }
  assert (∀ (R : RangeOrder) sel, listPods (podStore e) (svc_Namespace svc) sel =
    filter (λ pod, (bool_decide (svc_Namespace svc = NamespaceAll) || bool_decide (svc_Namespace svc = Namespace pod)) &&
      Labels.Matches sel (pod_Labels pod) = true) (Store.List (podStore e))) as Hl.
  { intros R sel. unfold listPods. generalize (Store.List (podStore e)) as l. intros l. induction l as [|pod l IH] using rev_ind; [done|].
    rewrite foldl_snoc, IH, filter_app, filter_cons, filter_nil.
    destruct (_ || _), (Labels.Matches sel (pod_Labels pod)); cbn; by rewrite ?app_nil_r. }
  unfold service_pods. rewrite !Hl.
  rewrite (list_filter_iff _ (λ pod, (bool_decide (svc_Namespace svc = NamespaceAll) || bool_decide (svc_Namespace svc = Namespace pod)) &&
    @Labels.Matches R2 _ _ (@SelectorFromSet R2 K2 selector) (pod_Labels pod) = true)) by (intros pod; by rewrite Hm).
  assert (@Store.List R1 _ (podStore e) ≡ₚ @Store.List R2 _ (podStore e)) as ->; [|done].
  unfold Store.List, ThreadSafeStore.List, range_values. by rewrite !range_map_perm.
Qed.

Section quiet.
Context {W : Type} `{API : EndpointsAPI W} `{L : !EndpointsLaws W}.
Context `{R : RangeOrder} `{K : KeySort} `{KP : !KeyRange EndpointPort} `{KL : !KeyRange loc} `{H : EndpointHash} `{ES : !EndpointSorts}.

Lemma settled_no_write key e (w : W) svc selector o : Store.GetByKey key (serviceStore e) = Ok (Some svc) →
  svc_Selector svc = Some selector → stored w !! (svc_Namespace svc, svc_Name svc) = Some o →
  settled svc (packed svc (service_pods e svc selector)) (hostnames svc (service_pods e svc selector)) o →
  is_Ok (ep_Get (svc_Namespace svc) (svc_Name svc) w).1 →
  syncService key e w = (e, (ep_Get (svc_Namespace svc) (svc_Name svc) w).2).
Proof.
  intros Hk Hs Ho (H1 & H2 & H3) [o' Hget]. rewrite (syncService_steps key e w svc selector Hk Hs). cbn zeta.
  destruct (ep_Get _ _ w) as [r w1] eqn:E. cbn in Hget. subst r. apply get_law in E as [_ E]. rewrite Ho in E. injection E as <-.
  unfold writeEndpoints. apply verify_spec in H3. by rewrite H1, H2, H3, !bool_decide_eq_true_2.
Qed.
End quiet.

Lemma requeue_dirty key e : shuttingDown (queue e) = false → key ∈ dirty (queue (requeue key e)).
Proof. intros Hs. unfold requeue. cbn. destruct (queue_Add_dirty key _ Hs) as [-> _]. set_solver. Qed.

(** C8: when the UIDs of the service's pods are unique, pods with one address publish one host
    name ([hostnames_agree]) and the hash of the address lists has no collisions, a sync that
    did not queue its key again leaves nothing for the next one, in whatever orders the two
    range over their maps and sort: the next sync of the service reads the endpoints and writes
    nothing, because equal offers have equal packed forms.  Of pods that share an address and
    differ in their host names the code publishes the one it ranges over last, so that it
    may write again on each sync: these are excluded. *)
Theorem sync_settles {W} `{API : EndpointsAPI W} `{L : !EndpointsLaws W} `{H : EndpointHash}
    (R1 R2 : RangeOrder) (K1 K2 : KeySort) (KP1 KP2 : KeyRange EndpointPort) (KL1 KL2 : KeyRange loc) (S1 S2 : EndpointSorts)
    key e (w : W) svc selector e1 w1 :
  collision_free → Store.GetByKey key (serviceStore e) = Ok (Some svc) → svc_Selector svc = Some selector →
  unique_uids (@service_pods R1 K1 e svc selector) → hostnames_agree svc (@service_pods R1 K1 e svc selector) →
  shuttingDown (queue e) = false → key ∉ dirty (queue e1) →
  @syncService W API R1 K1 KP1 KL1 H S1 key e w = (e1, w1) →
  is_Ok (ep_Get (svc_Namespace svc) (svc_Name svc) w1).1 →
  @syncService W API R2 K2 KP2 KL2 H S2 key e1 w1 = (e1, (ep_Get (svc_Namespace svc) (svc_Name svc) w1).2).
Proof.
  intros C Hk Hs Hu Ha Hq Hd Hsync Hget.
  destruct (@sync_outcome _ _ _ R1 K1 KP1 KL1 H S1 _ _ _ _ _ _ _ Hk Hs Hsync) as (_ & [-> | (-> & o & Ho & Hset & _)]).
  { by apply requeue_dirty with (key := key) in Hq. }
  pose proof (service_pods_perm R1 R2 K1 K2 e svc selector) as Hp.
  apply (@settled_no_write _ _ _ R2 K2 KP2 KL2 H S2 _ _ _ _ selector o); [done..| |done].
  replace (@packed R2 KP2 KL2 H S2 svc (@service_pods R2 K2 e svc selector)) with
    (@packed R1 KP1 KL1 H S1 svc (@service_pods R1 K1 e svc selector)).
  - unfold hostnames in *. by rewrite <- (hostNames_perm svc _ _ Ha Hp).
  - assert (unique_uids (@service_pods R2 K2 e svc selector)) by (intros x y Hx Hy; apply Hu; by rewrite Hp).
    unfold packed. rewrite !repacked by first [done|by apply serviceEndpoints_consistent].
    apply canonical_same_offers; [done|by apply serviceEndpoints_consistent|by apply serviceEndpoints_perm].
Qed.

(** C10: as long as the UIDs of the pods are unique and the hash of the address lists has no
    collisions, the endpoints written for a service are exactly its pods: an address is offered at a
    port, ready or not, if a pod of that readiness that is not being deleted has the
    address, and a port of the service is found in it. *)
Theorem endpoints_are_the_pods `{R : RangeOrder} `{KP : !KeyRange EndpointPort} `{KL : !KeyRange loc} `{H : EndpointHash}
    `{ES : !EndpointSorts} svc pods o : collision_free → unique_uids pods →
  (o ∈ offers (packed svc pods) ↔ ∃ pod sp, pod ∈ pods ∧ sp ∈ svc_Ports svc ∧ reports svc pod sp o).
Proof.
  intros C Hu. unfold packed. rewrite repacked by (try done; by apply serviceEndpoints_consistent).
  destruct o as [[p a] r]. rewrite canonical_offers, <- serviceEndpoints_reports. split; [apply status_offered|].
  intros Hin. destruct r; [apply status_true; split; [done|]|by apply status_false].
  rewrite serviceEndpoints_reports in Hin |- *. intros (y & sp' & Hy & _ & n' & _ & _ & _ & E').
  destruct Hin as (x & sp & Hx & _ & n & _ & _ & _ & E). injection E as _ -> Hr. injection E' as _ _ _ _ Exy _ Hr'.
  rewrite (Hu x y Hx Hy Exy) in Hr. congruence.
Qed.

(** ** A concrete cluster *)
Module Demo.
#[export] Existing Instance canonical_order.

(** A server that never fails. *)
#[local] Abbreviation server := (gmap (string * string) EndpointsObject).
Definition shown (k : string * string) (o : EndpointsObject) : EndpointsObject :=
  mkEndpoints k.1 k.2 "7" (ep_Labels o) (ep_Annotations o) (ep_Subsets o).

#[export] Instance api : EndpointsAPI server := {|
  ep_Get := λ ns n w, (match w !! (ns, n) with Some o => Ok (shown (ns, n) o) | None => Err NotFound end, w);
  ep_Create := λ ns o w, (None, <[(ns, ep_Name o) := o]> w);
  ep_Update := λ ns o w, (None, <[(ns, ep_Name o) := o]> w);
  ep_Delete := λ ns n w, match w !! (ns, n) with Some _ => (None, delete (ns, n) w) | None => (Some NotFound, w) end;
  ep_List := λ w, (Ok (map_to_list (map_imap (λ k o, Some (shown k o)) w)).*2, w);
|}.

Lemma written (ns : string) (o : EndpointsObject) (w : server) : (∃ o', same_content o o' ∧
  map_imap (λ k o, Some (shown k o)) (<[(ns, ep_Name o) := o]> w) = <[(ns, ep_Name o) := o']> (map_imap (λ k o, Some (shown k o)) w)).
Proof. exists (shown (ns, ep_Name o) o). split; [done|]. by apply map_imap_insert_Some. Qed.

#[export] Program Instance laws : EndpointsLaws server := {|
  stored := map_imap (λ k o, Some (shown k o));
|}.
Next Obligation.
  intros w k o Ho. cbn in Ho. rewrite map_lookup_imap in Ho.
  apply bind_Some in Ho as (x & _ & [= <-]). split; [reflexivity|discriminate].
Qed.
Next Obligation.
  intros ns n w r w'. cbn. intros [= <- <-]. split; [done|]. rewrite map_lookup_imap.
  by destruct (w !! (ns, n)).
Qed.
Next Obligation. intros ns o w err w' [= <- <-]. left. apply written. Qed.
Next Obligation. intros ns o w err w' [= <- <-]. left. apply written. Qed.
Next Obligation.
  intros ns n w err w'. cbn. destruct (w !! (ns, n)) as [o|] eqn:E; intros [= <- <-].
  - left. by rewrite map_imap_delete.
  - right. split_and!; [by eexists|done|]. intros _. by rewrite map_lookup_imap, E.
Qed.

Definition web : Service := mkService "ns" "web" "1" (Some {["team" := "a"]}) (Some {["app" := "web"]})
  [mkServicePort "http" "TCP" (FromString "http"); mkServicePort "https" "TCP" (FromInt 443)].
Definition pod (name ip : string) (ready : bool) (annotations : gmap string string) : Pod :=
  mkPod "ns" name {["app" := "web"]} "node" PodRunning [mkCondition PodReady (if ready then ConditionTrue else "False") 1%Z] [] 1%Z None
    ("uid-" +:+ name) "1" annotations ip [mkContainer [mkContainerPort "http" 0 8080 "TCP"] ∅] None.
Definition pod1 : Pod := pod "web-1" "10.0.0.1" true {[PodHostnameAnnotation := "one"; PodSubdomainAnnotation := "web"]}.
Definition pod2 : Pod := pod "web-2" "10.0.0.2" false ∅.

Definition stores : EndpointController :=
  mkEndpointController (Store.Add web (NewStore (λ o, Ok (keyOf o)))).1
    (Store.Add pod2 (Store.Add pod1 (NewStore (λ o, Ok (keyOf o)))).1).1 WorkQueue.New.
End Demo.

#[local] Existing Instances canonical_order Demo.api Demo.laws canonical_sort.
#[local] Existing Instances Endpoints.Demo.hashes Endpoints.Demo.sorts Endpoints.Demo.port_range Endpoints.Demo.loc_range.

Example sync_demo : ep_Subsets <$> (syncService "ns/web" Demo.stores ∅).2 !! ("ns", "web") =
  Some (Some (packed Demo.web [Demo.pod1; Demo.pod2])).
Proof. by vm_compute. Qed.

Example sync_demo_hostnames : hostNamesOf <$> (syncService "ns/web" Demo.stores ∅).2 !! ("ns", "web") =
  Some ("{" +:+ quote +:+ "10.0.0.1" +:+ quote +:+ ":{" +:+ quote +:+ "HostName" +:+ quote +:+ ":" +:+ quote +:+ "one" +:+ quote +:+ "}}").
Proof. by vm_compute. Qed.

Lemma pod_events_reach_services_witness :
  queued (selected_keys Demo.stores Demo.pod1) Demo.stores (addPod Demo.pod1 Demo.stores) ∧
  queued (selected_keys Demo.stores Demo.pod1) Demo.stores (deletePod (IObj Demo.pod1) Demo.stores) ∧
  queued (selected_keys Demo.stores Demo.pod2 ∪ selected_keys Demo.stores Demo.pod1) Demo.stores
    (updatePod false Demo.pod2 Demo.pod1 Demo.stores) ∧
  updatePod true Demo.pod2 Demo.pod1 Demo.stores = Demo.stores ∧
  ∀ key obj, deletePod (IDeletedFinalStateUnknown key obj) Demo.stores = Demo.stores.
Proof. by apply (pod_events_reach_services Demo.stores Demo.pod2 Demo.pod1). Defined.

Lemma syncService_writes_endpoints_witness :
  let '(e', w') := syncService "ns/web" Demo.stores ∅ in
  let pods := service_pods Demo.stores Demo.web {["app" := "web"]} in
  elsewhere ("ns", "web") ∅ w' ∧
  (e' = requeue "ns/web" Demo.stores ∨
   e' = Demo.stores ∧ ∃ o, stored w' !! ("ns", "web") = Some o ∧
     settled Demo.web (packed Demo.web pods) (hostnames Demo.web pods) o ∧
     keeps_annotations (stored (∅ : gmap _ _) !! ("ns", "web")) o).
Proof.
  destruct (syncService "ns/web" Demo.stores ∅) as [e' w'] eqn:E.
  apply (syncService_writes_endpoints "ns/web" Demo.stores ∅ Demo.web); [by vm_compute|done|exact E].
Defined.

Lemma syncService_other_branches_witness :
  let '(e', w') := syncService "ns/gone" Demo.stores {[("ns", "gone") := mkEndpoints "ns" "gone" "1" None None None]} in
  elsewhere ("ns", "gone") {[("ns", "gone") := mkEndpoints "ns" "gone" "1" None None None]} w' ∧
  (e' = requeue "ns/gone" Demo.stores ∨ e' = Demo.stores ∧ stored w' !! ("ns", "gone") = None).
Proof.
  destruct (syncService "ns/gone" Demo.stores _) as [e' w'] eqn:E.
  exact (syncService_other_branches "ns/gone" Demo.stores _ e' w' E).
Defined.

Lemma demo_pods : service_pods Demo.stores Demo.web {["app" := "web"]} = [Demo.pod1; Demo.pod2].
Proof. by vm_compute. Qed.

Lemma demo_stays : (syncService "ns/web" Demo.stores ∅).1 = Demo.stores.
Proof. by vm_compute. Qed.

Lemma demo_pair (P : Pod → Pod → Prop) : P Demo.pod1 Demo.pod1 → P Demo.pod1 Demo.pod2 → P Demo.pod2 Demo.pod1 → P Demo.pod2 Demo.pod2 →
  ∀ x y, x ∈ [Demo.pod1; Demo.pod2] → y ∈ [Demo.pod1; Demo.pod2] → P x y.
Proof.
  intros ???? x y. rewrite !elem_of_cons. intros [->|[->|[]%not_elem_of_nil]] [->|[->|[]%not_elem_of_nil]]; done.
Qed.

Lemma sync_settles_witness :
  let '(e1, w1) := syncService "ns/web" Demo.stores ∅ in
  syncService "ns/web" e1 w1 = (e1, (ep_Get "ns" "web" w1).2).
Proof.
  pose proof demo_stays as Hstays. destruct (syncService "ns/web" Demo.stores ∅) as [e1 w1] eqn:E. cbn [fst] in Hstays.
  apply (sync_settles canonical_order canonical_order canonical_sort canonical_sort _ _ _ _ _ _
    "ns/web" Demo.stores ∅ Demo.web {["app" := "web"]} e1 w1).
  - exact Endpoints.Demo.no_collisions.
  - by vm_compute.
  - done.
  - rewrite demo_pods. refine (demo_pair (λ x y, pod_UID x = pod_UID y → x = y) _ _ _ _); done.
  - rewrite demo_pods. intros x y h h' Hx Hy.
    refine (demo_pair (λ x y, PodIP x = PodIP y → hostname_of Demo.web x = Some h → hostname_of Demo.web y = Some h' → h = h')
      _ _ _ _ x y Hx Hy); clear; try done; congruence.
  - done.
  - rewrite Hstays. by apply (bool_decide_unpack _); vm_compute.
  - exact E.
  - pose proof (f_equal (λ r, ep_Get "ns" "web" r.2) E) as Eg. cbn [snd] in Eg. change (svc_Namespace Demo.web) with "ns".
    change (svc_Name Demo.web) with "web". rewrite <- Eg. clear. vm_compute. by eexists.
Defined.

Lemma endpoints_are_the_pods_witness :
  let o := (mkPort "http" 8080 "TCP", endpointAddress Demo.pod2, false) in
  (o ∈ offers (packed Demo.web [Demo.pod1; Demo.pod2]) ↔
   ∃ pod sp, pod ∈ [Demo.pod1; Demo.pod2] ∧ sp ∈ svc_Ports Demo.web ∧ reports Demo.web pod sp o) ∧
  o ∈ offers (packed Demo.web [Demo.pod1; Demo.pod2]).
Proof.
  split; [|apply (bool_decide_unpack _); by vm_compute].
  apply endpoints_are_the_pods; [exact Endpoints.Demo.no_collisions|].
  refine (demo_pair (λ x y, pod_UID x = pod_UID y → x = y) _ _ _ _); done.
Defined.
