(* ===== verification/NodeController.v ===== *)
(** * The node controller

    [pkg/controller/node/nodecontroller.go]: every few seconds it lists the nodes,
    marks those that have not been heard of as unknown, queues the pods of nodes that
    stay not ready for eviction, and cancels that when a node is back; two more
    loops work off the two queues ([TimedQueue]).

    A pass of the monitor, and each call of an action, runs at one instant [now], and
    the answers of the API server and of the cloud provider are arguments.  The
    goroutine that deletes a node is a call of its own, [GoDeleteNode].  Events and
    logs are left out.  Parsing and comparing the version of a kubelet, which a
    vendored package does, is the argument [Versions].  A nil pointer and an index out
    of range are [Panics].

    The pointers into the conditions of a node are followed by value: the saved status
    shares its conditions with the node, but what a later write changes there is
    never the condition [Ready] of a status that is kept (with grace periods that are not
    negative, a status observed in this pass is not expired in it).  Times are compared
    as instants.

    The theorems are about runs of the controller, recorded as the passes of the monitor with
    what they were answered and the calls they made; what a pass saw of a node is the listed
    version and those that it read again after failed updates ([versions]). *)

From S2P Require Import Prelude.
From S2P Require Import TimedQueue.
From S2P Require Import ThreadSafeStore.
From S2P Require Import Store.
From S2P Require Import Strconv.
From S2P Require Import Labels.
From S2P Require Import Pods.
From S2P Require Import Listers.
From S2P Require Import Nodes.
From S2P Require Import SetsString.
#[local] Open Scope Z_scope.

(** ** Data *)

Definition nodeStatusUpdateRetry : nat := 5.
(** A duration is in nanoseconds. *)
Definition nodeEvictionPeriod : Z := 100 * 10 ^ 6.

Definition with_Conditions (conditions : list NodeCondition) (node : Node) : Node :=
  mkNode (node_Name node) (node_CreationTimestamp node) (PodCIDR node) conditions (KubeletVersion node)
    (node_Namespace node) (node_Labels node) (Allocatable node).
Definition with_PodCIDR (cidr : string) (node : Node) : Node :=
  mkNode (node_Name node) (node_CreationTimestamp node) cidr (node_Conditions node) (KubeletVersion node)
    (node_Namespace node) (node_Labels node) (Allocatable node).

(** Of the saved status, its conditions. *)
Record nodeStatusData := mkData {
  probeTimestamp : Time;
  readyTransitionTimestamp : Time;
  status : list NodeCondition;
}.

Definition zeroData : nodeStatusData := mkData 0 0 [].

(** [clusterCIDR] has the four bytes of its address, which one of IPv6 has not. *)
Record NodeController := mkNC {
  allocateNodeCIDRs : bool;
  clusterCIDR : option (Z * Z * Z * Z);
  nodeMonitorGracePeriod : Z;
  nodeStartupGracePeriod : Z;
  podEvictionTimeout : Z;
  maximumGracePeriod : Z;
  knownNodeSet : gset string;
  nodeStatusMap : gmap string nodeStatusData;
  podEvictor : UniqueQueue;
  terminationEvictor : UniqueQueue;
  podStore : cache Pod;
  nodeStore : cache Node;
  daemonSetStore : cache DaemonSet;
}.

Definition with_known (known : gset string) (nc : NodeController) : NodeController :=
  mkNC (allocateNodeCIDRs nc) (clusterCIDR nc) (nodeMonitorGracePeriod nc) (nodeStartupGracePeriod nc) (podEvictionTimeout nc)
    (maximumGracePeriod nc) known (nodeStatusMap nc) (podEvictor nc) (terminationEvictor nc) (podStore nc) (nodeStore nc) (daemonSetStore nc).
Definition with_statusMap (m : gmap string nodeStatusData) (nc : NodeController) : NodeController :=
  mkNC (allocateNodeCIDRs nc) (clusterCIDR nc) (nodeMonitorGracePeriod nc) (nodeStartupGracePeriod nc) (podEvictionTimeout nc)
    (maximumGracePeriod nc) (knownNodeSet nc) m (podEvictor nc) (terminationEvictor nc) (podStore nc) (nodeStore nc) (daemonSetStore nc).
Definition with_evictors (pods termination : UniqueQueue) (nc : NodeController) : NodeController :=
  mkNC (allocateNodeCIDRs nc) (clusterCIDR nc) (nodeMonitorGracePeriod nc) (nodeStartupGracePeriod nc) (podEvictionTimeout nc)
    (maximumGracePeriod nc) (knownNodeSet nc) (nodeStatusMap nc) pods termination (podStore nc) (nodeStore nc) (daemonSetStore nc).

Inductive apiCall :=
  | UpdateNodeStatus (node : Node) (ok : bool)
  | UpdateNode (node : Node) (ok : bool)
  | DeleteNode (name : string) (ok : bool)
  | UpdatePodStatus (pod : Pod) (ok : bool)
  | DeletePod (namespace name : string) (grace : option Z) (ok : bool)
  | GoDeleteNode (name : string).

(** What a cloud provider knows of an instance ([Instances.ExternalID]). *)
Inductive ExternalID := InstanceID (id : string) | InstanceNotFound | InstanceError (err : string).

(** The answers of a pass: the list of nodes, what each get and update of a node answers
    in the loop of retries, and so on.  [listPods] is a list by the name of the node.
    The cloud is [None] when there is no provider, and [Some None] when it does not
    support instances. *)
Record apiAnswers := mkAnswers {
  listNodes : option (list Node);
  getNode : string → nat → option Node;
  nodeStatusOk : string → nat → bool;
  refreshNode : string → option Node;
  nodeUpdateOk : string → bool;
  nodeDeleteOk : string → bool;
  listPods : string → option (list Pod);
  podStatusOk : string → string → bool;
  podDeleteOk : string → string → bool;
  cloud : option (option (string → ExternalID));
}.

(** Whether a version is one from 1.1.0 on; [None] when it does not parse. *)
Class Versions := { gracefulDeletion : string → option bool }.

(** ** Conditions *)

Fixpoint getCondition (conditions : list NodeCondition) (conditionType : string) : option NodeCondition :=
  match conditions with
  | [] => None
  | c :: conditions => if bool_decide (nc_Type c = conditionType) then Some c else getCondition conditions conditionType
  end.

(** A write through the pointer that [getCondition] returns. *)
Fixpoint setCondition (conditions : list NodeCondition) (conditionType : string) (f : NodeCondition → NodeCondition) :
    list NodeCondition :=
  match conditions with
  | [] => []
  | c :: conditions =>
      if bool_decide (nc_Type c = conditionType) then f c :: conditions else c :: setCondition conditions conditionType f
  end.

Section controller.
Context `{R : RangeOrder}.
Implicit Types (nc : NodeController) (node : Node) (now : Time) (ans : apiAnswers).

Definition NewNodeController (podEvictionTimeout nodeMonitorGracePeriod nodeStartupGracePeriod : Z)
    (clusterCIDR : option (Z * Z * Z * Z)) (allocateNodeCIDRs : bool) (pods : cache Pod) (nodes : cache Node)
    (daemonSets : cache DaemonSet) : NodeController :=
  mkNC allocateNodeCIDRs clusterCIDR nodeMonitorGracePeriod nodeStartupGracePeriod podEvictionTimeout (5 * 60 * 10 ^ 9)
    ∅ ∅ NewRateLimitedTimedQueue NewRateLimitedTimedQueue pods nodes daemonSets.

(** ** The status of one node *)

(** What is known of the node before any change: the condition that it was last seen
    with, the grace period that it has, and the saved status. *)
Definition observeStatus now node nc : NodeController * Z * NodeCondition * nodeStatusData :=
  let name := node_Name node in
  let readyCondition := getCondition (node_Conditions node) NodeReady in
  let '(lastReadyCondition, gracePeriod, m) :=
    match readyCondition with
    | None => (mkNodeCondition NodeReady ConditionUnknown (node_CreationTimestamp node) (node_CreationTimestamp node) "" "",
        nodeStartupGracePeriod nc,
        <[name := mkData (node_CreationTimestamp node) (node_CreationTimestamp node) (node_Conditions node)]> (nodeStatusMap nc))
    | Some c => (c, nodeMonitorGracePeriod nc, nodeStatusMap nc)
    end in
  let fresh := mkData now now (node_Conditions node) in
  match m !! name with
  | None => (with_statusMap (<[name := fresh]> m) nc, gracePeriod, lastReadyCondition, fresh)
  | Some saved =>
      match getCondition (status saved) NodeReady, readyCondition with
      | None, Some _ | Some _, None => (with_statusMap (<[name := fresh]> m) nc, gracePeriod, lastReadyCondition, fresh)
      | Some savedCondition, Some observedCondition =>
          if bool_decide (LastHeartbeatTime savedCondition ≠ LastHeartbeatTime observedCondition) then
            let transitionTime :=
              if bool_decide (nc_LastTransitionTime savedCondition ≠ nc_LastTransitionTime observedCondition) then now
              else readyTransitionTimestamp saved in
            let saved := mkData now transitionTime (node_Conditions node) in
            (with_statusMap (<[name := saved]> m) nc, gracePeriod, lastReadyCondition, saved)
          else (with_statusMap m nc, gracePeriod, lastReadyCondition, saved)
      | None, None => (with_statusMap m nc, gracePeriod, lastReadyCondition, saved)
      end
  end.

Definition neverUpdated (conditionType : string) now node : NodeCondition :=
  mkNodeCondition conditionType ConditionUnknown (node_CreationTimestamp node) now "NodeStatusNeverUpdated" "Kubelet never posted node status.".

(** The conditions of a node that was not heard of for its grace period: first [Ready],
    then [OutOfDisk]. *)
Definition expireReady now node (lastReadyCondition : NodeCondition) : list NodeCondition :=
  match getCondition (node_Conditions node) NodeReady with
  | None => node_Conditions node ++ [neverUpdated NodeReady now node]
  | Some _ =>
      if bool_decide (nc_Status lastReadyCondition ≠ ConditionUnknown)
      then setCondition (node_Conditions node) NodeReady (λ c, mkNodeCondition (nc_Type c) ConditionUnknown
        (LastHeartbeatTime lastReadyCondition) now "NodeStatusUnknown" "Kubelet stopped posting node status.")
      else node_Conditions node
  end.

Definition expireOutOfDisk now node (conditions : list NodeCondition) : list NodeCondition :=
  match getCondition conditions NodeOutOfDisk with
  | None => conditions ++ [neverUpdated NodeOutOfDisk now node]
  | Some c =>
      if bool_decide (nc_Status c ≠ ConditionUnknown)
      then setCondition conditions NodeOutOfDisk (λ c, mkNodeCondition (nc_Type c) ConditionUnknown
        (LastHeartbeatTime c) now "NodeStatusUnknown" "Kubelet stopped posting node status.")
      else conditions
  end.

(** What [tryUpdateNodeStatus] returns: the grace period, the last and the current [Ready]
    condition (nil if the node had none), and whether there was an error. *)
Record attempt := mkAttempt {
  at_gracePeriod : Z;
  at_last : NodeCondition;
  at_ready : option NodeCondition;
  at_err : bool;
}.

Definition tryUpdateNodeStatus now (updateOk : bool) node nc : NodeController * Node * attempt * list apiCall :=
  let readyCondition := getCondition (node_Conditions node) NodeReady in
  let '(nc, gracePeriod, lastReadyCondition, savedNodeStatus) := observeStatus now node nc in
  if probeTimestamp savedNodeStatus + gracePeriod <? now then
    let ready := expireReady now node lastReadyCondition in
    let readyCondition := match readyCondition with None => None | Some _ => getCondition ready NodeReady end in
    let conditions := expireOutOfDisk now node ready in
    let node := with_Conditions conditions node in
    if bool_decide (getCondition conditions NodeReady ≠ Some lastReadyCondition) then
      if updateOk then
        let probe := probeTimestamp (default zeroData (nodeStatusMap nc !! node_Name node)) in
        (with_statusMap (<[node_Name node := mkData probe now conditions]> (nodeStatusMap nc)) nc, node,
          mkAttempt gracePeriod lastReadyCondition readyCondition false, [UpdateNodeStatus node true])
      else (nc, node, mkAttempt gracePeriod lastReadyCondition readyCondition true, [UpdateNodeStatus node false])
    else (nc, node, mkAttempt gracePeriod lastReadyCondition readyCondition false, [])
  else (nc, node, mkAttempt gracePeriod lastReadyCondition readyCondition false, []).

(** The loop of retries: [rep] counts up, and [prev] is the attempt before. *)
Fixpoint updateLoop (reps rep : nat) now ans node (prev : attempt) nc : NodeController * Node * attempt * list apiCall :=
  match reps with
  | O => (nc, node, prev, [])
  | S reps =>
      let '(nc, node, a, calls) := tryUpdateNodeStatus now (nodeStatusOk ans (node_Name node) rep) node nc in
      if negb (at_err a) then (nc, node, a, calls)
      else
        match getNode ans (node_Name node) rep with
        | None => (nc, node, a, calls)
        | Some node =>
            let '(nc, node, a, calls') :=
              updateLoop reps (S rep) now ans node (mkAttempt (at_gracePeriod a) (at_last a) (at_ready a) false) nc in
            (nc, node, a, calls ++ calls')
        end
  end.

(** ** Evictions *)

Definition evictPods now (nodeName : string) nc : bool * NodeController :=
  let '(added, q) := uq_Add (mkTimedValue nodeName now now) (podEvictor nc) in
  (added, with_evictors q (terminationEvictor nc) nc).

Definition cancelPodEviction (nodeName : string) nc : outcome (bool * NodeController) :=
  match TimedQueue.Remove nodeName (podEvictor nc), TimedQueue.Remove nodeName (terminationEvictor nc) with
  | Some (wasDeleting, pods), Some (wasTerminating, termination) =>
      Returns (wasDeleting || wasTerminating, with_evictors pods termination nc)
  | _, _ => Panics
  end.

(** The first condition [Ready] of the pod becomes false. *)
Fixpoint unreadyConditions (conditions : list PodCondition) : option (list PodCondition) :=
  match conditions with
  | [] => None
  | c :: conditions =>
      if bool_decide (cond_Type c = PodReady)
      then Some (mkCondition (cond_Type c) ConditionFalse (LastTransitionTime c) :: conditions)
      else (c ::.) <$> unreadyConditions conditions
  end.

Definition with_PodConditions (conditions : list PodCondition) (pod : Pod) : Pod :=
  mkPod (Namespace pod) (Name pod) (pod_Labels pod) (NodeName pod) (Phase pod) conditions (RestartCounts pod)
    (CreationTimestamp pod) (DeletionTimestamp pod) (pod_UID pod) (pod_ResourceVersion pod) (pod_Annotations pod)
    (PodIP pod) (Containers pod) (DeletionGracePeriodSeconds pod).

Fixpoint markLoop ans (nodeName : string) (pods : list Pod) : list apiCall :=
  match pods with
  | [] => []
  | pod :: pods =>
      if bool_decide (NodeName pod ≠ nodeName) then markLoop ans nodeName pods
      else
        match unreadyConditions (Conditions pod) with
        | None => markLoop ans nodeName pods
        | Some conditions =>
            UpdatePodStatus (with_PodConditions conditions pod) (podStatusOk ans (Namespace pod) (Name pod)) :: markLoop ans nodeName pods
        end
  end.

(** The calls, and whether there was an error. *)
Definition markAllPodsNotReady ans (nodeName : string) : list apiCall * bool :=
  match listPods ans nodeName with
  | None => ([], true)
  | Some pods =>
      let calls := markLoop ans nodeName pods in
      (calls, existsb (λ call, match call with UpdatePodStatus _ ok => negb ok | _ => false end) calls)
  end.

Definition nodeExistsInCloudProvider (instances : option (string → ExternalID)) (nodeName : string) : result string bool :=
  match instances with
  | None => Err "cloud provider doesn't support instances."
  | Some instances =>
      match instances nodeName with
      | InstanceID _ => Ok true
      | InstanceNotFound => Ok false
      | InstanceError err => Err err
      end
  end.

(** ** Deleting pods and nodes *)

Definition forcefullyDeletePod ans (pod : Pod) : apiCall :=
  DeletePod (Namespace pod) (Name pod) (Some 0) (podDeleteOk ans (Namespace pod) (Name pod)).

(** The calls, and whether there was an error; the first one ends the loop. *)
Fixpoint forcefullyDeleteLoop ans (nodeName : string) (pods : list Pod) : list apiCall * bool :=
  match pods with
  | [] => ([], false)
  | pod :: pods =>
      if bool_decide (NodeName pod ≠ nodeName) then forcefullyDeleteLoop ans nodeName pods
      else if negb (podDeleteOk ans (Namespace pod) (Name pod)) then ([forcefullyDeletePod ans pod], true)
      else let '(calls, err) := forcefullyDeleteLoop ans nodeName pods in (forcefullyDeletePod ans pod :: calls, err)
  end.

Definition forcefullyDeleteNode ans (nodeName : string) : list apiCall * bool :=
  match listPods ans nodeName with
  | None => ([], true)
  | Some pods =>
      match forcefullyDeleteLoop ans nodeName pods with
      | (calls, true) => (calls, true)
      | (calls, false) => (calls ++ [DeleteNode nodeName (nodeDeleteOk ans nodeName)], negb (nodeDeleteOk ans nodeName))
      end
  end.

(** Pods that are being deleted, and cannot be deleted gracefully. *)
Definition maybeDeleteTerminatingPod `{Versions} ans (pod : Pod) nc : list apiCall :=
  match DeletionTimestamp pod with
  | None => []
  | Some _ =>
      if Nat.eqb (String.length (NodeName pod)) 0 then [forcefullyDeletePod ans pod]
      else
        match Store.GetByKey (NodeName pod) (nodeStore nc) with
        | Err _ => []
        | Ok None => [forcefullyDeletePod ans pod]
        | Ok (Some node) =>
            match gracefulDeletion (KubeletVersion node) with
            | None | Some false => [forcefullyDeletePod ans pod]
            | Some true => []
            end
        end
  end.

Fixpoint orphansLoop ans (pods : list Pod) nc : list apiCall :=
  match pods with
  | [] => []
  | pod :: pods =>
      if bool_decide (NodeName pod = "") then orphansLoop ans pods nc
      else
        match Store.GetByKey (NodeName pod) (nodeStore nc) with
        | Ok (Some _) => orphansLoop ans pods nc
        | _ => forcefullyDeletePod ans pod :: orphansLoop ans pods nc
        end
  end.

Definition cleanupOrphanedPods ans nc : list apiCall := orphansLoop ans (Store.List (podStore nc)) nc.

(** ** The monitor *)

(** Evictions are queued or cancelled by the condition that the node was last seen with. *)
Definition decideEviction now (name last : string) (data : nodeStatusData) nc : outcome NodeController :=
  let nc := if bool_decide (last = ConditionFalse) && (readyTransitionTimestamp data + podEvictionTimeout nc <? now)
    then (evictPods now name nc).2 else nc in
  let nc := if bool_decide (last = ConditionUnknown) && (probeTimestamp data + podEvictionTimeout nc <? now)
    then (evictPods now name nc).2 else nc in
  snd <$> (if bool_decide (last = ConditionTrue) then cancelPodEviction name nc else Returns (false, nc)).

(** One node of the list. *)
Definition monitorNode now ans node nc : outcome (NodeController * list apiCall) :=
  let '(nc, node, a, calls) := updateLoop nodeStatusUpdateRetry 0 now ans node
    (mkAttempt 0 (mkNodeCondition "" "" 0 0 "" "") None false) nc in
  if at_err a then Returns (nc, calls)
  else
    match at_ready a with
    | None => Returns (nc, calls)
    | Some readyCondition =>
        let name := node_Name node in
        let last := nc_Status (at_last a) in
        let data := default zeroData (nodeStatusMap nc !! name) in
        nc ← decideEviction now name last data nc;
        let notReady := bool_decide (nc_Status readyCondition ≠ ConditionTrue) in
        let calls := calls ++ (if notReady && bool_decide (last = ConditionTrue) then (markAllPodsNotReady ans name).1 else []) in
        match cloud ans with
        | Some instances =>
            if notReady
            then
              match nodeExistsInCloudProvider instances name with
              | Err _ | Ok true => Returns (nc, calls)
              | Ok false => Returns (nc, calls ++ [GoDeleteNode name])
              end
            else Returns (nc, calls)
        | None => Returns (nc, calls)
        end
    end.

Definition monitorLoop now ans (nodes : list Node) nc : outcome (NodeController * list apiCall) :=
  foldM (λ '(nc, calls) node, '(nc, calls') ← monitorNode now ans node nc; Returns (nc, calls ++ calls')) nodes (nc, []).

(** New nodes are registered, and have no evictions. *)
Definition registerNodes (nodes : list Node) nc : outcome NodeController :=
  foldM (λ nc node,
    if Has (knownNodeSet nc) (node_Name node) then Returns nc
    else '(_, nc) ← cancelPodEviction (node_Name node) nc;
         Returns (with_known (SetsString.Insert (knownNodeSet nc) [node_Name node]) nc)) nodes nc.

(** Nodes that are gone are evicted, and forgotten. *)
Definition removeNodes now (nodes : list Node) nc : NodeController :=
  if Nat.eqb (Len (knownNodeSet nc)) (length nodes) then nc
  else
    let observedSet := foldl (λ set node, SetsString.Insert set [node_Name node]) ∅ nodes in
    foldl (λ nc nodeName, let nc := (evictPods now nodeName nc).2 in with_known (SetsString.Delete (knownNodeSet nc) [nodeName]) nc)
      nc (range_set (SetsString.Difference (knownNodeSet nc) observedSet)).

(** ** Addresses *)

Definition byte_ (z : Z) : Z := z mod 256.

(** The loop of [generateCIDRs] at [i]; the address is nil when it is not one of IPv4. *)
Definition podCIDR (cidrIP : Z * Z * Z * Z) (i : Z) : string :=
  let '(ip0, ip1, ip2, _) := cidrIP in
  let b1 := byte_ (Z.shiftr i 8) in
  let b2 := byte_ (i mod 256) in
  FormatInt ip0 +:+ "." +:+ FormatInt (byte_ (ip1 + b1)) +:+ "." +:+ FormatInt (byte_ (ip2 + b2)) +:+ ".0/24".

Definition generateCIDRs (clusterCIDR : option (Z * Z * Z * Z)) (num : nat) : outcome (gset string) :=
  foldM (λ res i, match clusterCIDR with None => Panics | Some ip => Returns (SetsString.Insert res [podCIDR ip (Z.of_nat i)]) end) (seq 0 num) ∅.

Fixpoint assignLoop ans (nodes : list Node) (availableCIDRs : gset string) : list apiCall :=
  match nodes with
  | [] => []
  | node :: nodes =>
      if bool_decide (PodCIDR node ≠ "") then assignLoop ans nodes availableCIDRs
      else
        match refreshNode ans (node_Name node) with
        | None => assignLoop ans nodes availableCIDRs
        | Some n =>
            let '((cidr, found), availableCIDRs) := PopAny availableCIDRs in
            if negb found then assignLoop ans nodes availableCIDRs
            else UpdateNode (with_PodCIDR cidr n) (nodeUpdateOk ans (node_Name n)) :: assignLoop ans nodes availableCIDRs
        end
  end.

Definition reconcileNodeCIDRs ans (nodes : list Node) nc : outcome (list apiCall) :=
  availableCIDRs ← generateCIDRs (clusterCIDR nc) (length nodes);
  let availableCIDRs := foldl (λ available node,
    if bool_decide (PodCIDR node ≠ "") then SetsString.Delete available [PodCIDR node] else available) availableCIDRs nodes in
  Returns (assignLoop ans nodes availableCIDRs).

(** A pass: the calls, and whether there was an error. *)
Definition monitorNodeStatus now ans nc : outcome (NodeController * list apiCall * bool) :=
  match listNodes ans with
  | None => Returns (nc, [], true)
  | Some nodes =>
      nc ← registerNodes nodes nc;
      let nc := removeNodes now nodes nc in
      calls ← (if allocateNodeCIDRs nc then reconcileNodeCIDRs ans nodes nc else Returns []);
      '(nc, calls') ← monitorLoop now ans nodes nc;
      Returns (nc, calls ++ calls', false)
  end.

(** ** Working off the evictions *)

(** Whether any pod was deleted, whether there was an error, and the calls. *)
Fixpoint deleteLoop `{K : KeySort} ans (nodeName : string) (pods : list Pod) (remaining : bool) nc : bool * bool * list apiCall :=
  match pods with
  | [] => (remaining, false, [])
  | pod :: pods =>
      if bool_decide (NodeName pod ≠ nodeName) then deleteLoop ans nodeName pods remaining nc
      else if bool_decide (DeletionGracePeriodSeconds pod ≠ None) then deleteLoop ans nodeName pods remaining nc
      else
        match GetPodDaemonSets (daemonSetStore nc) pod with
        | (_, None) => deleteLoop ans nodeName pods remaining nc
        | (_, Some _) =>
            let ok := podDeleteOk ans (Namespace pod) (Name pod) in
            let call := DeletePod (Namespace pod) (Name pod) None ok in
            if negb ok then (false, true, [call])
            else let '(r, err, calls) := deleteLoop ans nodeName pods true nc in (r, err, call :: calls)
        end
  end.

Definition deletePods `{K : KeySort} ans (nodeName : string) nc : bool * bool * list apiCall :=
  match listPods ans nodeName with
  | None => (false, true, [])
  | Some pods => deleteLoop ans nodeName pods false nc
  end.

(** Whether no pod is terminating, the time before the next attempt, and the calls. *)
Fixpoint terminateLoop ans (nodeName : string) (elapsed : Z) (pods : list Pod) (complete : bool) (nextAttempt : Z) nc :
    bool * Z * list apiCall :=
  match pods with
  | [] => (complete, nextAttempt, [])
  | pod :: pods =>
      if bool_decide (NodeName pod ≠ nodeName) then terminateLoop ans nodeName elapsed pods complete nextAttempt nc
      else
        match DeletionGracePeriodSeconds pod with
        | None => terminateLoop ans nodeName elapsed pods complete nextAttempt nc
        | Some seconds =>
            let grace := int64 (seconds * 10 ^ 9) in
            let grace := if maximumGracePeriod nc <? grace then maximumGracePeriod nc else grace in
            let remaining := int64 (grace - elapsed) in
            if remaining <? 0 then
              let ok := podDeleteOk ans (Namespace pod) (Name pod) in
              let nextAttempt := if nextAttempt <? 0 then 0 else nextAttempt in
              let '(c, n, calls) := terminateLoop ans nodeName elapsed pods (complete && ok) nextAttempt nc in
              (c, n, DeletePod (Namespace pod) (Name pod) (Some 0) ok :: calls)
            else
              let nextAttempt := if nextAttempt <? remaining then remaining else nextAttempt in
              terminateLoop ans nodeName elapsed pods false nextAttempt nc
        end
  end.

(** [None] is an error. *)
Definition terminatePods now ans (nodeName : string) (since : Time) nc : option (bool * Z * list apiCall) :=
  match listPods ans nodeName with
  | None => None
  | Some pods =>
      let elapsed := Z.max (- 2 ^ 63) (Z.min (2 ^ 63 - 1) (now - since)) in
      Some (terminateLoop ans nodeName elapsed pods true 0 nc)
  end.

(** What the two loops do with a value. *)
Definition evictAction `{K : KeySort} now ans (value : TimedValue) nc : (bool * Z) * (NodeController * list apiCall) :=
  let '(remaining, err, calls) := deletePods ans (Value value) nc in
  if err then ((false, 0), (nc, calls))
  else
    let nc := if remaining
      then with_evictors (podEvictor nc) (uq_Add (mkTimedValue (Value value) now now) (terminationEvictor nc)).2 nc
      else nc in
    ((true, 0), (nc, calls)).

Definition terminateAction now ans (value : TimedValue) nc : (bool * Z) * list apiCall :=
  match terminatePods now ans (Value value) (AddedAt value) nc with
  | None => ((false, 0), [])
  | Some (true, _, calls) => ((true, 0), calls)
  | Some (false, remaining, calls) => ((false, if remaining <? nodeEvictionPeriod then nodeEvictionPeriod else remaining), calls)
  end.

(** *** The two loops

    Both hold the lock of the queues.  The script has, for each value that the limiter
    accepts, the time and the answers; the world holds the controller, less the queue
    that [Try] works on. *)
Record EvictWorld := mkWorld {
  ew_current : option (Time * apiAnswers);
  ew_script : list (Time * apiAnswers);
  ew_nc : NodeController;
  ew_calls : list apiCall;
}.

Definition acceptNext (w : EvictWorld) : bool * EvictWorld :=
  match ew_script w with
  | [] => (false, w)
  | r :: script => (true, mkWorld (Some r) script (ew_nc w) (ew_calls w))
  end.

Definition worldNow (w : EvictWorld) : Z * EvictWorld := (default 0 (fst <$> ew_current w), w).

Definition evictEnvironment `{K : KeySort} : TryEnvironment EvictWorld := {|
  TryAccept := acceptNext;
  TimedQueue.now := worldNow;
  action := λ value q w,
    match ew_current w with
    | None => ((false, 0), (q, w))
    | Some (now, ans) =>
        let '(r, (nc, calls)) := evictAction now ans value (ew_nc w) in
        (r, (q, mkWorld (ew_current w) (ew_script w) nc (ew_calls w ++ calls)))
    end;
  others := λ q w, (q, w);
|}.

Definition terminateEnvironment : TryEnvironment EvictWorld := {|
  TryAccept := acceptNext;
  TimedQueue.now := worldNow;
  action := λ value q w,
    match ew_current w with
    | None => ((false, 0), (q, w))
    | Some (now, ans) =>
        let '(r, calls) := terminateAction now ans value (ew_nc w) in
        (r, (q, mkWorld (ew_current w) (ew_script w) (ew_nc w) (ew_calls w ++ calls)))
    end;
  others := λ q w, (q, w);
|}.

Definition evictionRound `{K : KeySort} (script : list (Time * apiAnswers)) nc : option (NodeController * list apiCall) :=
  match @Try _ evictEnvironment (S (length script)) (podEvictor nc) (mkWorld None script nc []) with
  | Some (q, w) => Some (with_evictors q (terminationEvictor (ew_nc w)) (ew_nc w), ew_calls w)
  | None => None
  end.

Definition terminationRound (script : list (Time * apiAnswers)) nc : option (NodeController * list apiCall) :=
  match @Try _ terminateEnvironment (S (length script)) (terminationEvictor nc) (mkWorld None script nc []) with
  | Some (q, w) => Some (with_evictors (podEvictor (ew_nc w)) q (ew_nc w), ew_calls w)
  | None => None
  end.
End controller.

(** The informers change the stores. *)
Definition with_stores (pods : cache Pod) (nodes : cache Node) (daemonSets : cache DaemonSet) (nc : NodeController) : NodeController :=
  mkNC (allocateNodeCIDRs nc) (clusterCIDR nc) (nodeMonitorGracePeriod nc) (nodeStartupGracePeriod nc) (podEvictionTimeout nc)
    (maximumGracePeriod nc) (knownNodeSet nc) (nodeStatusMap nc) (podEvictor nc) (terminationEvictor nc) pods nodes daemonSets.

(** ** What the monitor saw *)

Definition ready (node : Node) : option NodeCondition := getCondition (node_Conditions node) NodeReady.

(** The node of that name in the list of a pass. *)
Definition sight (n : string) (ans : apiAnswers) : option Node :=
  listNodes ans ≫= λ nodes, head (filter (λ node, node_Name node = n) nodes).

(** A pass: when it was, what it was answered, and the calls that it made. *)
Record Pass := mkPass { pass_now : Time; pass_answers : apiAnswers; pass_calls : list apiCall }.

(** The updates of the status of [n] that failed; after each the node is read again. *)
Definition failed_update (n : string) (call : apiCall) : bool :=
  match call with UpdateNodeStatus node ok => bool_decide (node_Name node = n) && negb ok | _ => false end.
Definition failures (n : string) (calls : list apiCall) : nat := length (List.filter (failed_update n) calls).

(** The versions of a node that a pass looks at: the one of the list, and, after each update
    that fails, the one that is read, but for the last attempt, after which none is tried. *)
Definition attempted ans node (calls : list apiCall) : list Node :=
  node :: omap (getNode ans (node_Name node)) (seq 0 (Nat.min (failures (node_Name node) calls) (nodeStatusUpdateRetry - 1))).
Definition versions (n : string) (p : Pass) : list Node :=
  match sight n (pass_answers p) with Some node => attempted (pass_answers p) node (pass_calls p) | None => [] end.

Definition sights (n : string) (h : list Pass) : list (Time * Node) :=
  h ≫= λ p, (pass_now p,.) <$> versions n p.

(** No sight after [since] but with this heartbeat: the node was silent. *)
Definition silent (since heartbeat : Time) (l : list (Time * Node)) : Prop :=
  ∀ t node, (t, node) ∈ l → since < t → ∃ c, ready node = Some c ∧ LastHeartbeatTime c = heartbeat.

(** Every sight after [since] has this time of transition, or no news: the heartbeat of
    the sight before it, if that had one. *)
Definition steady (since transition : Time) (l : list (Time * Node)) : Prop :=
  ∀ l1 t node l2, l = l1 ++ (t, node) :: l2 → since < t → ∃ c, ready node = Some c ∧
    (nc_LastTransitionTime c = transition ∨
     ∃ l0 t0 node0, l1 = l0 ++ [(t0, node0)] ∧ ∀ c0, ready node0 = Some c0 → LastHeartbeatTime c0 = LastHeartbeatTime c).

(** A sight without the condition: its times count from the node's creation. *)
Definition unposted (time : Time) (l : list (Time * Node)) : Prop :=
  ∃ t node, (t, node) ∈ l ∧ ready node = None ∧ node_CreationTimestamp node = time.

(** What the saved status of a node knows of its sights. *)
Record data_ok (l : list (Time * Node)) (d : nodeStatusData) : Prop := {
  do_seen : l ≠ [];
  do_last l0 t node : l = l0 ++ [(t, node)] → ∀ c c', getCondition (status d) NodeReady = Some c → ready node = Some c' →
    LastHeartbeatTime c = LastHeartbeatTime c';
  do_probe : unposted (probeTimestamp d) l ∨
    ∃ c, getCondition (status d) NodeReady = Some c ∧ silent (probeTimestamp d) (LastHeartbeatTime c) l;
  do_transition : unposted (readyTransitionTimestamp d) l ∨
    ∃ transition, (∀ c, getCondition (status d) NodeReady = Some c → nc_LastTransitionTime c = transition) ∧
      steady (readyTransitionTimestamp d) transition l;
}.

(** Why the pods of a node that is listed may be evicted: it is unknown and was silent, or it
    is not ready and was steadily so, for longer than the timeout; a node that was seen
    without the condition is counted from its creation. *)
Definition justified (timeout now : Z) (l : list (Time * Node)) (node : Node) : Prop :=
  ∃ c, ready node = Some c ∧ (nc_Status c = ConditionUnknown ∨ nc_Status c = ConditionFalse) ∧
    ∃ since, since + timeout < now ∧
      (unposted since l ∨
       nc_Status c = ConditionUnknown ∧ (∃ heartbeat, silent since heartbeat l) ∨
       nc_Status c = ConditionFalse ∧ ∃ transition, steady since transition l).

(** Why a pass may queue [n]: the node is not listed, or it is, and that is justified by the
    version of it that was looked at last. *)
Definition eviction_due (timeout : Z) (h : list Pass) (p : Pass) (n : string) : Prop :=
  (∃ nodes, listNodes (pass_answers p) = Some nodes ∧ n ∉ (node_Name <$> nodes)) ∨
  ∃ node, last (versions n p) = Some node ∧ justified timeout (pass_now p) (sights n (h ++ [p])) node.

Definition evictors_ok (nc : NodeController) : Prop := unique_ok (podEvictor nc) ∧ unique_ok (terminationEvictor nc).

(** The entries of the two queues. *)
Definition evicting (nc : NodeController) : gmap string TimedValue := entries (queue (podEvictor nc)).
Definition terminating (nc : NodeController) : gmap string TimedValue := entries (queue (terminationEvictor nc)).

Section facts.
Context `{R : RangeOrder}.
Implicit Types (nc : NodeController) (node : Node) (now : Time) (ans : apiAnswers) (l : list (Time * Node)).

Lemma getCondition_app conditions conditions' t :
  getCondition (conditions ++ conditions') t =
    match getCondition conditions t with None => getCondition conditions' t | c => c end.
Proof. induction conditions as [|c conditions IH]; cbn; [done|]. by case_bool_decide. Qed.

Lemma getCondition_set conditions t f t' : (∀ c, nc_Type (f c) = nc_Type c) →
  getCondition (setCondition conditions t f) t' =
    if decide (t' = t) then f <$> getCondition conditions t else getCondition conditions t'.
Proof.
  intros Hf. induction conditions as [|c conditions IH]; cbn; [by case_decide|].
  destruct (decide (nc_Type c = t)) as [E|E].
  - rewrite bool_decide_eq_true_2 by done. cbn. rewrite Hf. destruct (decide (t' = t)) as [->|Ht].
    + by rewrite bool_decide_eq_true_2 by done.
    + by rewrite bool_decide_eq_false_2 by congruence.
  - rewrite bool_decide_eq_false_2 by done. cbn. rewrite IH. destruct (decide (t' = t)) as [->|Ht]; [|done].
    by rewrite bool_decide_eq_false_2 by done.
Qed.

(** Writing the other condition leaves [Ready] alone. *)
Lemma expireOutOfDisk_ready now node conditions :
  getCondition (expireOutOfDisk now node conditions) NodeReady = getCondition conditions NodeReady.
Proof.
  unfold expireOutOfDisk. destruct (getCondition conditions NodeOutOfDisk) as [c|].
  - case_bool_decide; [|done]. by rewrite getCondition_set.
  - rewrite getCondition_app. by destruct (getCondition conditions NodeReady).
Qed.

(** The heartbeat survives. *)
Lemma expireReady_ready now node last : ready node = Some last →
  ∃ c, getCondition (expireReady now node last) NodeReady = Some c ∧ LastHeartbeatTime c = LastHeartbeatTime last ∧
    nc_Status c = ConditionUnknown.
Proof.
  unfold ready, expireReady. intros E. rewrite E. case_bool_decide as Hs.
  - rewrite getCondition_set, decide_True, E by done. cbn. eauto.
  - by exists last.
Qed.

(** *** Sights accumulate *)

Lemma unposted_app time l l' : unposted time l → unposted time (l ++ l').
Proof. intros (t & node & ? & ?). exists t, node. by rewrite elem_of_app; auto. Qed.

Lemma silent_snoc since heartbeat l t node : silent since heartbeat l →
  (since < t → ∃ c, ready node = Some c ∧ LastHeartbeatTime c = heartbeat) → silent since heartbeat (l ++ [(t, node)]).
Proof. intros Hl Hn t' node' [Hin|[= -> ->]%list_elem_of_singleton]%elem_of_app; eauto. Qed.

Lemma silent_new now heartbeat l node : (∀ t node, (t, node) ∈ l → t <= now) → silent now heartbeat (l ++ [(now, node)]).
Proof.
  intros Hl t node' [Hin|[= -> ->]%list_elem_of_singleton]%elem_of_app; [apply Hl in Hin|]; lia.
Qed.

Lemma snoc_decompose {A} (l l1 l2 : list A) x y : l ++ [x] = l1 ++ y :: l2 →
  (l2 = [] ∧ l1 = l ∧ y = x) ∨ ∃ l2' : list A, l2 = l2' ++ [x] ∧ l = l1 ++ y :: l2'.
Proof.
  destruct l2 as [|z l2 _] using rev_ind; intros E.
  - apply app_inj_tail in E as [-> ->]. by left.
  - rewrite app_comm_cons, app_assoc in E. apply app_inj_tail in E as [-> ->]. right. by exists l2.
Qed.

Lemma steady_snoc since transition l t node : steady since transition l →
  (since < t → ∃ c, ready node = Some c ∧ (nc_LastTransitionTime c = transition ∨
     ∃ l0 t0 node0, l = l0 ++ [(t0, node0)] ∧ ∀ c0, ready node0 = Some c0 → LastHeartbeatTime c0 = LastHeartbeatTime c)) →
  steady since transition (l ++ [(t, node)]).
Proof.
  intros Hl Hn l1 t' node' l2 [(-> & -> & [= -> ->])|(l2' & -> & E)]%snoc_decompose Ht; [auto|]. by eapply Hl.
Qed.

Lemma steady_new now transition l node : (∀ t node, (t, node) ∈ l → t <= now) → steady now transition (l ++ [(now, node)]).
Proof.
  intros Hl l1 t node' l2 E Ht. assert ((t, node') ∈ l ++ [(now, node)]) as Hin by (rewrite E; set_solver).
  apply elem_of_app in Hin as [Hin|[= -> ->]%list_elem_of_singleton]; [apply Hl in Hin|]; lia.
Qed.

(** *** One attempt *)

(** The condition that an attempt starts from. *)
Definition lastOf node : NodeCondition :=
  default (mkNodeCondition NodeReady ConditionUnknown (node_CreationTimestamp node) (node_CreationTimestamp node) "" "") (ready node).

(** Only the entry of the node changes. *)
Definition only_entry (name : string) nc nc' : Prop :=
  ∃ m, nc' = with_statusMap m nc ∧ ∀ n, n ≠ name → m !! n = nodeStatusMap nc !! n.

Definition past now l : Prop := ∀ t node, (t, node) ∈ l → t <= now.

Lemma data_ok_fresh now node l : past now l → is_Some (ready node) →
  data_ok (l ++ [(now, node)]) (mkData now now (node_Conditions node)).
Proof.
  intros Hl [c Hc]. split; cbn.
  - by destruct l.
  - intros l0 t node' [_ [= <- <-]]%app_inj_tail c1 c2 H1 H2. unfold ready in *. congruence.
  - right. exists c. split; [done|by apply silent_new].
  - right. exists (nc_LastTransitionTime c). split; [|by apply steady_new]. unfold ready in *. congruence.
Qed.

Lemma observeStatus_ok now node nc l : past now l →
  (∀ d, nodeStatusMap nc !! node_Name node = Some d → data_ok l d) →
  let '(nc', _, last, saved) := observeStatus now node nc in
  only_entry (node_Name node) nc nc' ∧ nodeStatusMap nc' !! node_Name node = Some saved ∧ last = lastOf node ∧
  data_ok (l ++ [(now, node)]) saved ∧ (ready node = None → getCondition (status saved) NodeReady = None) ∧
  (∀ c, ready node = Some c → ∃ c', getCondition (status saved) NodeReady = Some c' ∧ LastHeartbeatTime c' = LastHeartbeatTime c).
Proof.
  intros Hl Hd. unfold observeStatus, lastOf. fold (ready node). unfold only_entry.
  destruct (ready node) as [c|] eqn:Hc.
  2: { rewrite lookup_insert_eq. fold (ready node). cbn [status]. fold (ready node). rewrite Hc. split_and!; try done.
       - eexists. split; [done|]. intros n Hn. by apply lookup_insert_ne.
       - cbn. by rewrite lookup_insert_eq.
       - split; cbn; [by destruct l| |left|left]; [|exists now, node; set_solver..].
         fold (ready node). by rewrite Hc. }
  assert (Hfresh : data_ok (l ++ [(now, node)]) (mkData now now (node_Conditions node))) by (apply data_ok_fresh; [done|by eexists]).
  assert (∀ d, ∃ m, with_statusMap (<[node_Name node := d]> (nodeStatusMap nc)) nc = with_statusMap m nc ∧
    ∀ n, n ≠ node_Name node → m !! n = nodeStatusMap nc !! n) as Hm.
  { intros d. eexists. split; [done|]. intros n Hn. by apply lookup_insert_ne. }
  destruct (nodeStatusMap nc !! node_Name node) as [saved|] eqn:Hsaved.
  2: { split_and!; [apply Hm|cbn; by rewrite lookup_insert_eq|done..|]. intros c1 [= <-]. by exists c. }
  specialize (Hd saved eq_refl). destruct (getCondition (status saved) NodeReady) as [c1|] eqn:Hc1.
  2: { split_and!; [apply Hm|cbn; by rewrite lookup_insert_eq|done..|]. intros c1 [= <-]. by exists c. }
  destruct (decide (LastHeartbeatTime c1 = LastHeartbeatTime c)) as [Eh|Eh].
  - rewrite bool_decide_eq_false_2 by (intros H; by apply H).
    split_and!; [by eexists|done|done| |done|intros c2 [= <-]; by exists c1].
    destruct Hd as [Hne Hlast Hprobe Htrans]. split.
    + by destruct l.
    + intros l0 t node' [_ [= <- <-]]%app_inj_tail c2 c3 H2 H3. congruence.
    + destruct Hprobe as [?|(c2 & H2 & Hs)]; [left; by apply unposted_app|right]. exists c2. split; [done|].
      apply silent_snoc; [done|]. intros _. exists c. split; congruence.
    + destruct Htrans as [?|(tr & H2 & Hs)]; [left; by apply unposted_app|right]. exists tr. split; [done|].
      apply steady_snoc; [done|]. intros _. exists c. split; [done|]. right.
      destruct l as [|[t0 node0] l0 _] using rev_ind; [done|]. exists l0, t0, node0. split; [done|].
      intros c0 Hc0. rewrite <- Eh. symmetry. by eapply Hlast.
  - rewrite bool_decide_eq_true_2 by done.
    split_and!; [apply Hm|cbn; by rewrite lookup_insert_eq|done| |done|intros c2 [= <-]; by exists c].
    destruct Hd as [Hne Hlast Hprobe Htrans]. split; cbn [status probeTimestamp readyTransitionTimestamp].
    + by destruct l.
    + intros l0 t node' [_ [= <- <-]]%app_inj_tail c2 c3 H2 H3. unfold ready in *. congruence.
    + right. exists c. split; [done|by apply silent_new].
    + case_bool_decide as Et.
      * right. exists (nc_LastTransitionTime c). split; [|by apply steady_new]. unfold ready in *. congruence.
      * destruct Htrans as [?|(tr & H2 & Hs)]; [left; by apply unposted_app|right].
        exists tr. specialize (H2 c1 Hc1). split; [unfold ready in *; congruence|]. apply steady_snoc; [done|].
        intros _. exists c. split; [done|]. left. congruence.
Qed.

(** The status that is saved after an update. *)
Lemma data_ok_updated now node saved conditions l : past now l → data_ok (l ++ [(now, node)]) saved →
  (ready node = None → getCondition (status saved) NodeReady = None) →
  (∀ c, ready node = Some c → ∃ c', getCondition (status saved) NodeReady = Some c' ∧ LastHeartbeatTime c' = LastHeartbeatTime c) →
  (∀ c, ready node = Some c → ∃ c', getCondition conditions NodeReady = Some c' ∧ LastHeartbeatTime c' = LastHeartbeatTime c) →
  data_ok (l ++ [(now, node)]) (mkData (probeTimestamp saved) now conditions).
Proof.
  intros Hl [_ Hlast Hprobe _] Hnone Hsaved Hconds. split; cbn [status probeTimestamp readyTransitionTimestamp].
  - by destruct l.
  - intros l0 t node' [_ [= <- <-]]%app_inj_tail c c' Hc Hc'. destruct (Hconds c' Hc') as (c2 & ? & <-). congruence.
  - destruct Hprobe as [?|(c & Hc & Hs)]; [by left|]. destruct (ready node) as [c0|] eqn:Hready.
    + right. destruct (Hsaved c0 eq_refl) as (c1 & Hc1 & E1), (Hconds c0 eq_refl) as (c2 & Hc2 & E2). exists c2.
      split; [done|]. replace (LastHeartbeatTime c2) with (LastHeartbeatTime c) by congruence. done.
    + rewrite Hnone in Hc by done. done.
  - right. exists (default 0 (nc_LastTransitionTime <$> getCondition conditions NodeReady)).
    split; [by intros c ->|]. by apply steady_new.
Qed.

Lemma tryUpdate_ok now ok node nc l : past now l →
  (∀ d, nodeStatusMap nc !! node_Name node = Some d → data_ok l d) →
  let '(nc', node', a, _) := tryUpdateNodeStatus now ok node nc in
  only_entry (node_Name node) nc nc' ∧ node_Name node' = node_Name node ∧ at_last a = lastOf node ∧ (at_ready a = None ↔ ready node = None) ∧
  ∃ d, nodeStatusMap nc' !! node_Name node = Some d ∧ data_ok (l ++ [(now, node)]) d.
Proof.
  intros Hl Hd. unfold tryUpdateNodeStatus. fold (ready node). pose proof (observeStatus_ok now node nc l Hl Hd) as Hobs.
  destruct (observeStatus now node nc) as [[[nc1 grace] last] saved].
  destruct Hobs as ([m [-> Hm]] & Hsaved & -> & Hok & Hnone & Hsome). cbn [nodeStatusMap with_statusMap] in *.
  assert (only_entry (node_Name node) nc (with_statusMap m nc)) as Honly by (by exists m).
  destruct (_ + _ <? now); [|split_and!; [done..|by exists saved]].
  set (ready' := match ready node with None => None | Some _ => _ end).
  assert (ready' = None ↔ ready node = None) as Hr'.
  { subst ready'. destruct (ready node) as [c|] eqn:E; [|done]. unfold lastOf. rewrite E. cbn.
    destruct (expireReady_ready now node c E) as (c' & -> & _). done. }
  case_bool_decide; [|split_and!; [done..|by exists saved]]. destruct ok; [|split_and!; [done..|by exists saved]].
  cbn [node_Name with_Conditions nodeStatusMap with_statusMap]. rewrite Hsaved. cbn [default]. split_and!; [|done..|].
  - eexists. split; [done|]. intros n Hn. cbn. rewrite lookup_insert_ne by done. by apply Hm.
  - eexists. rewrite lookup_insert_eq. split; [done|]. apply data_ok_updated; [done..|].
    intros c Hc. rewrite expireOutOfDisk_ready. unfold lastOf. rewrite Hc. cbn.
    destruct (expireReady_ready now node c Hc) as (c' & ? & ? & _). by exists c'.
Qed.

(** What the API server promises: a get of a name gives a node of that name, and no name is listed twice. *)
Definition lawful ans : Prop :=
  (∀ n rep node, getNode ans n rep = Some node → node_Name node = n) ∧
  ∀ nodes, listNodes ans = Some nodes → NoDup (node_Name <$> nodes).

Lemma sight_listed ans nodes node : lawful ans → listNodes ans = Some nodes → node ∈ nodes →
  sight (node_Name node) ans = Some node.
Proof.
  intros [_ Hnd] Hl Hin. unfold sight. specialize (Hnd nodes Hl). rewrite Hl. cbn. clear Hl.
  induction nodes as [|node' nodes IH]; [by apply elem_of_nil in Hin|]. rewrite fmap_cons in Hnd. apply NoDup_cons in Hnd as [Hn Hnd].
  apply elem_of_cons in Hin as [->|Hin]; [by rewrite filter_cons_True|].
  rewrite filter_cons_False; [by apply IH|]. intros E. apply Hn. rewrite E. by apply list_elem_of_fmap_2.
Qed.

Lemma sight_Some ans n node : sight n ans = Some node → node_Name node = n ∧ ∃ nodes, listNodes ans = Some nodes ∧ node ∈ nodes.
Proof.
  unfold sight. intros (nodes & Hl & Hh)%bind_Some. assert (node ∈ filter (λ node, node_Name node = n) nodes) as Hin.
  { destruct (filter _ nodes); [done|]. injection Hh as ->. left. }
  apply list_elem_of_filter in Hin as [? ?]. eauto.
Qed.

(** An attempt fails when its update does. *)
Lemma tryUpdate_calls now ok node nc : let '(_, node', a, calls) := tryUpdateNodeStatus now ok node nc in
  node_Name node' = node_Name node ∧
  (at_err a = false ∧ (calls = [] ∨ calls = [UpdateNodeStatus node' true]) ∨ at_err a = true ∧ calls = [UpdateNodeStatus node' false]).
Proof.
  unfold tryUpdateNodeStatus. destruct (observeStatus now node nc) as [[[nc1 grace] last] saved]. cbn zeta.
  destruct (_ <? now); [|by auto]. destruct (bool_decide _); [|by auto]. destruct ok; auto.
Qed.

(** The calls are updates of the status of [n]. *)
Definition updates_of (n : string) (calls : list apiCall) : Prop :=
  Forall (λ call, ∃ node ok, call = UpdateNodeStatus node ok ∧ node_Name node = n) calls.

Lemma updates_of_one n node ok : node_Name node = n → updates_of n [UpdateNodeStatus node ok].
Proof. intros E. constructor; [eauto|constructor]. Qed.

Lemma failures_app n calls calls' : failures n (calls ++ calls') = (failures n calls + failures n calls')%nat.
Proof. unfold failures. by rewrite List.filter_app, length_app. Qed.

Lemma failures_others n name calls : updates_of name calls → n ≠ name → failures n calls = 0%nat.
Proof.
  intros Hall Hn. unfold failures. induction Hall as [|call calls (node & ok & -> & <-) _ IH]; [done|]. cbn.
  by rewrite bool_decide_eq_false_2.
Qed.

(** What the loop knows at its end, of the versions that it tried. *)
Record loop_ok n (seen : list Node) (tried : nat → Prop) now l nc nc' (a : attempt) : Prop := {
  lo_entry : only_entry n nc nc';
  lo_last : ∃ node, last seen = Some node ∧ at_last a = lastOf node ∧ (at_ready a = None ↔ ready node = None);
  lo_data : ∃ d, nodeStatusMap nc' !! n = Some d ∧ data_ok (l ++ ((now,.) <$> seen)) d;
  lo_err : at_err a = true → ∃ rep, tried rep;
}.

Lemma updateLoop_S reps rep now ans node prev nc : updateLoop (S reps) rep now ans node prev nc =
  let '(nc, node, a, calls) := tryUpdateNodeStatus now (nodeStatusOk ans (node_Name node) rep) node nc in
  if negb (at_err a) then (nc, node, a, calls)
  else
    match getNode ans (node_Name node) rep with
    | None => (nc, node, a, calls)
    | Some node =>
        let '(nc, node, a, calls') := updateLoop reps (S rep) now ans node (mkAttempt (at_gracePeriod a) (at_last a) (at_ready a) false) nc in
        (nc, node, a, calls ++ calls')
    end.
Proof. done. Qed.

Lemma updateLoop_ok now ans n reps : lawful ans → ∀ rep node prev nc l, node_Name node = n → past now l →
  (∀ d, nodeStatusMap nc !! n = Some d → data_ok l d) →
  let '(nc', node', a, calls) := updateLoop (S reps) rep now ans node prev nc in
  node_Name node' = n ∧ updates_of n calls ∧
  loop_ok n (node :: omap (getNode ans n) (seq rep (Nat.min (failures n calls) reps)))
    (λ i, (rep <= i < rep + failures n calls)%nat ∧ getNode ans n i = None) now l nc nc' a.
Proof.
  intros Hans. induction reps as [|reps IH]; intros rep node prev nc l Hname Hl Hd; rewrite updateLoop_S;
    pose proof (tryUpdate_ok now (nodeStatusOk ans (node_Name node) rep) node nc l Hl ltac:(by rewrite Hname)) as Htry;
    pose proof (tryUpdate_calls now (nodeStatusOk ans (node_Name node) rep) node nc) as Hcalls;
    destruct (tryUpdateNodeStatus _ _ _ _) as [[[nc1 node1] a1] calls1]; rewrite Hname in Htry, Hcalls;
    destruct Htry as (Honly & Hname1 & Hlast & Hready & Hd1);
    assert (∃ node0, last [node] = Some node0 ∧ at_last a1 = lastOf node0 ∧ (at_ready a1 = None ↔ ready node0 = None)) as Hl1 by eauto.
  all: destruct Hcalls as [_ [[Ha Hc]|[Ha ->]]]; rewrite Ha; cbn [negb].
  1,3: assert (updates_of n calls1 ∧ failures n calls1 = 0%nat) as [Hup ->];
    [destruct Hc as [-> | ->]; [by split; [apply Forall_nil_2|]|split; [by apply updates_of_one|]; unfold failures; cbn; by rewrite andb_false_r]|];
    rewrite Nat.min_0_l; split_and!; [done..|split; [done..|by rewrite Ha]].
  all: assert (updates_of n [UpdateNodeStatus node1 false] ∧ failures n [UpdateNodeStatus node1 false] = 1%nat) as [Hup Hf]
    by (split; [by apply updates_of_one|unfold failures; cbn; by rewrite bool_decide_eq_true_2]).
  all: rewrite Hname1; destruct (getNode ans n rep) as [node2|] eqn:Hget.
  - cbn [updateLoop app]. rewrite Nat.min_0_r. split_and!; [by eapply Hans|done|]. by split.
  - rewrite Hf. split_and!; [done..|]. split; [done..|]. intros _. exists rep. split; [lia|done].
  - apply Hans in Hget as Hname2.
    specialize (IH (S rep) node2 (mkAttempt (at_gracePeriod a1) (at_last a1) (at_ready a1) false) nc1 (l ++ [(now, node)]) Hname2).
    destruct (updateLoop _ _ _ _ _ _ _) as [[[nc2 node3] a2] calls2].
    destruct IH as (Hname3 & Hup2 & [[m2 [-> Hm2]] (v & Hv & Hlast2 & Hready2) Hd2 Herr2]).
    + intros t node' [Hin|[= -> ->]%list_elem_of_singleton]%elem_of_app; [by eapply Hl|lia].
    + destruct Hd1 as (d & Hd1 & Hok1). intros d' Hd'. congruence.
    + assert (failures n ([UpdateNodeStatus node1 false] ++ calls2) = S (failures n calls2)) as Hf2 by (by rewrite failures_app, Hf).
      rewrite Hf2.
      split_and!; [done|by apply Forall_app|]. cbn [Nat.min seq omap list_omap]. rewrite Hget. split.
      * destruct Honly as (m1 & -> & Hm1). exists m2. split; [done|]. intros n' Hn'. rewrite Hm2 by done. by apply Hm1.
      * by exists v.
      * by rewrite <- app_assoc in Hd2.
      * intros Ha2. destruct (Herr2 Ha2) as (i & Hi & ?). exists i. split; [lia|done].
  - rewrite Hf. cbn. rewrite Hget. split_and!; [done..|]. split; [done..|]. intros _. exists rep. split; [lia|done].
Qed.

(** *** The queues *)

Lemma evictPods_ok now n nc : evictors_ok nc → let nc' := (evictPods now n nc).2 in
  evictors_ok nc' ∧ nc' = with_evictors (podEvictor nc') (terminationEvictor nc) nc ∧
  evicting nc' = (if decide (evicting nc !! n = None) then <[n := mkTimedValue n now now]> (evicting nc) else evicting nc).
Proof.
  intros [Hp Ht]. unfold evictPods. destruct (uq_Add_spec (mkTimedValue n now now) (podEvictor nc) Hp) as (q & -> & Hq & He).
  cbn. split_and!; [done|done|exact He].
Qed.

Lemma cancelPodEviction_ok n nc : evictors_ok nc → ∃ b nc', cancelPodEviction n nc = Returns (b, nc') ∧ evictors_ok nc' ∧
  nc' = with_evictors (podEvictor nc') (terminationEvictor nc') nc ∧
  evicting nc' = delete n (evicting nc) ∧ terminating nc' = delete n (terminating nc).
Proof.
  intros [Hp Ht]. unfold cancelPodEviction, TimedQueue.Remove.
  destruct (uq_Remove_spec n (podEvictor nc) Hp) as (q1 & -> & ? & ?).
  destruct (uq_Remove_spec n (terminationEvictor nc) Ht) as (q2 & -> & ? & ?). by eexists _, _.
Qed.

Lemma tryUpdate_Name now ok node nc :
  let '(_, node', _, _) := tryUpdateNodeStatus now ok node nc in node_Name node' = node_Name node.
Proof. unfold tryUpdateNodeStatus. destruct (observeStatus now node nc) as [[[nc1 grace] last] saved]. cbn zeta.
  destruct (_ <? now); [|done]. destruct (bool_decide _); [|done]. by destruct ok.
Qed.

Lemma updateLoop_no_err now ans n reps : (∀ rep, ∃ node, getNode ans n rep = Some node ∧ node_Name node = n) →
  ∀ rep node prev nc, node_Name node = n → at_err prev = false →
  let '(_, _, a, _) := updateLoop reps rep now ans node prev nc in at_err a = false.
Proof.
  intros Hget. induction reps as [|reps IH]; intros rep node prev nc Hname Hprev; cbn [updateLoop]; [done|].
  pose proof (tryUpdate_Name now (nodeStatusOk ans (node_Name node) rep) node nc) as Hname1.
  destruct (tryUpdateNodeStatus _ _ _ _) as [[[nc1 node1] a1] calls1]. destruct (at_err a1) eqn:E; cbn [negb]; [|done].
  destruct (Hget rep) as (node2 & Hget2 & Hname2). rewrite Hname1, Hname, Hget2.
  specialize (IH (S rep) node2 (mkAttempt (at_gracePeriod a1) (at_last a1) (at_ready a1) false) nc1 Hname2 eq_refl).
  by destruct (updateLoop _ _ _ _ _ _ _) as [[[nc2 node3] a2] calls2].
Qed.

Lemma lawful_gets ans n : lawful ans → (∀ rep, getNode ans n rep ≠ None) →
  ∀ rep, ∃ node, getNode ans n rep = Some node ∧ node_Name node = n.
Proof.
  intros [Hans _] Hget rep. destruct (getNode ans n rep) as [node|] eqn:E; [|by destruct (Hget rep)].
  exists node. split; [done|]. by eapply Hans.
Qed.

Lemma evict_if_ok (b : bool) now n nc : evictors_ok nc → let nc' := if b then (evictPods now n nc).2 else nc in
  evictors_ok nc' ∧ nc' = with_evictors (podEvictor nc') (terminationEvictor nc) nc ∧
  evicting nc' = (if decide (b = true ∧ evicting nc !! n = None) then <[n := mkTimedValue n now now]> (evicting nc) else evicting nc).
Proof.
  intros Hok. destruct b.
  - destruct (evictPods_ok now n nc Hok) as (? & ? & He). split_and!; [done|done|]. cbn zeta. rewrite He.
    destruct (decide (evicting nc !! n = None)); [by rewrite decide_True|by rewrite decide_False by naive_solver].
  - cbn. rewrite decide_False by naive_solver. split_and!; [done|by destruct nc|done].
Qed.

Lemma decideEviction_ok now name last data nc : evictors_ok nc → ∃ nc', decideEviction now name last data nc = Returns nc' ∧
  evictors_ok nc' ∧ nc' = with_evictors (podEvictor nc') (terminationEvictor nc') nc ∧
  (∀ n, n ≠ name → evicting nc' !! n = evicting nc !! n ∧ terminating nc' !! n = terminating nc !! n) ∧
  (last = ConditionTrue → evicting nc' !! name = None ∧ terminating nc' !! name = None) ∧
  (∀ x, evicting nc' !! name = Some x → evicting nc !! name = Some x ∨ AddedAt x = now ∧
    (last = ConditionFalse ∧ readyTransitionTimestamp data + podEvictionTimeout nc < now ∨
     last = ConditionUnknown ∧ probeTimestamp data + podEvictionTimeout nc < now)).
Proof.
  intros Hok. unfold decideEviction.
  set (b1 := bool_decide (last = ConditionFalse) && (readyTransitionTimestamp data + podEvictionTimeout nc <? now)).
  destruct (evict_if_ok b1 now name nc Hok) as (Hok1 & E1 & He1). set (nc1 := if b1 then _ else nc) in *.
  assert (podEvictionTimeout nc1 = podEvictionTimeout nc ∧ terminationEvictor nc1 = terminationEvictor nc) as [-> Ht1] by (by rewrite E1).
  set (b2 := bool_decide (last = ConditionUnknown) && (probeTimestamp data + podEvictionTimeout nc <? now)).
  destruct (evict_if_ok b2 now name nc1 Hok1) as (Hok2 & E2 & He2). set (nc2 := if b2 then _ else nc1) in *.
  assert (terminating nc2 = terminating nc) as Ht2 by (unfold terminating; by rewrite E2, E1).
  assert (nc2 = with_evictors (podEvictor nc2) (terminationEvictor nc2) nc) as E by (rewrite E2, E1; done).
  assert (∀ n, n ≠ name → evicting nc2 !! n = evicting nc !! n) as Hoth.
  { intros n Hn. rewrite He2, He1. repeat case_decide; rewrite ?lookup_insert_ne by done; done. }
  assert (∀ x, evicting nc2 !! name = Some x → evicting nc !! name = Some x ∨ AddedAt x = now ∧
    (last = ConditionFalse ∧ readyTransitionTimestamp data + podEvictionTimeout nc < now ∨
     last = ConditionUnknown ∧ probeTimestamp data + podEvictionTimeout nc < now)) as Hnew.
  { intros x. rewrite He2, He1. assert (∀ (P : Prop) `{Decision P} a b, bool_decide P && (a <? b) = true ↔ P ∧ a < b) as Hb.
    { intros P ? a b. by rewrite andb_true_iff, bool_decide_eq_true, Z.ltb_lt. }
    pose proof (Hb _ _ _ _ : b1 = true ↔ _) as Hb1. pose proof (Hb _ _ _ _ : b2 = true ↔ _) as Hb2.
    repeat case_decide; rewrite ?lookup_insert_eq; intros Hx; first [by left|injection Hx as <-; cbn; right; tauto]. }
  case_bool_decide as Hlast.
  - destruct (cancelPodEviction_ok name nc2 Hok2) as (b & nc3 & -> & Hok3 & E3 & Hd1 & Hd2). exists nc3. cbn.
    split_and!; [done..| | | |].
    + by rewrite E3, E.
    + intros n Hn. rewrite Hd1, Hd2, !lookup_delete_ne, Hoth, Ht2 by done. done.
    + intros _. by rewrite Hd1, Hd2, !lookup_delete_eq.
    + intros x. by rewrite Hd1, lookup_delete_eq.
  - exists nc2. cbn. split_and!; [done..| |done|done]. intros n Hn. by rewrite Ht2, Hoth.
Qed.

(** What the code decides on is what justifies it. *)
Lemma decision_justified timeout now l node d c : data_ok l d → ready node = Some c →
  (nc_Status c = ConditionFalse ∧ readyTransitionTimestamp d + timeout < now ∨
   nc_Status c = ConditionUnknown ∧ probeTimestamp d + timeout < now) → justified timeout now l node.
Proof.
  intros [_ _ Hprobe Htrans] Hc [[Hs Hlt]|[Hs Hlt]]; exists c; (split; [done|]); (split; [auto|]); eexists; (split; [exact Hlt|]).
  - destruct Htrans as [?|(tr & _ & ?)]; [by left|right; right; eauto].
  - destruct Hprobe as [?|(c' & _ & ?)]; [by left|right; left; eauto].
Qed.

Lemma past_sights now n h : (∀ p, p ∈ h → pass_now p <= now) → past now (sights n h).
Proof.
  intros Hpast t node (p & Hin & Hp)%list_elem_of_bind. apply list_elem_of_fmap in Hin as (? & [= -> ->] & _). by apply Hpast.
Qed.

(** The other calls of the monitor. *)
Lemma markLoop_failures ans name pods n : failures n (markLoop ans name pods) = 0%nat.
Proof. induction pods as [|pod pods IH]; cbn; [done|]. case_bool_decide; [done|]. by destruct (unreadyConditions _). Qed.

Lemma mark_failures ans name n : failures n (markAllPodsNotReady ans name).1 = 0%nat.
Proof. unfold markAllPodsNotReady. destruct (listPods ans name); [apply markLoop_failures|done]. Qed.

Lemma assignLoop_failures ans nodes n : ∀ cidrs, failures n (assignLoop ans nodes cidrs) = 0%nat.
Proof.
  induction nodes as [|node nodes IH]; intros cidrs; cbn [assignLoop]; [done|]. case_bool_decide; [done|].
  destruct (refreshNode _ _); [|apply IH]. destruct (PopAny cidrs) as [[cidr found] cidrs']. destruct found; apply IH.
Qed.

Lemma cidrs_failures ans nodes nc cidrs n :
  (if allocateNodeCIDRs nc then reconcileNodeCIDRs ans nodes nc else Returns []) = Returns cidrs → failures n cidrs = 0%nat.
Proof.
  destruct (allocateNodeCIDRs nc); [|by intros [= <-]]. unfold reconcileNodeCIDRs.
  destruct (generateCIDRs _ _) as [available|]; cbn [mbind outcome_bind]; [|done]. intros [= <-]. apply assignLoop_failures.
Qed.

(** What one node of the list changes, and the versions of it that were looked at. *)
Record node_step now ans node l nc nc' (calls : list apiCall) : Prop := {
  ns_evictors : evictors_ok nc';
  ns_frame : nc' = with_evictors (podEvictor nc') (terminationEvictor nc') (with_statusMap (nodeStatusMap nc') nc);
  ns_others n : n ≠ node_Name node → nodeStatusMap nc' !! n = nodeStatusMap nc !! n ∧
    evicting nc' !! n = evicting nc !! n ∧ terminating nc' !! n = terminating nc !! n ∧ failures n calls = 0%nat;
  ns_data : ∃ d, nodeStatusMap nc' !! node_Name node = Some d ∧ data_ok (l ++ ((now,.) <$> attempted ans node calls)) d;
  ns_ready v c : last (attempted ans node calls) = Some v →
    (∀ rep, (rep < failures (node_Name node) calls)%nat → getNode ans (node_Name node) rep ≠ None) →
    ready v = Some c → nc_Status c = ConditionTrue →
    evicting nc' !! node_Name node = None ∧ terminating nc' !! node_Name node = None;
  ns_evicted x : evicting nc' !! node_Name node = Some x → evicting nc !! node_Name node = Some x ∨
    AddedAt x = now ∧ ∃ v, last (attempted ans node calls) = Some v ∧
      justified (podEvictionTimeout nc) now (l ++ ((now,.) <$> attempted ans node calls)) v;
}.

(** Only the failed updates of a node's status matter. *)
Lemma attempted_failures ans node calls calls' : failures (node_Name node) calls' = failures (node_Name node) calls →
  attempted ans node calls' = attempted ans node calls.
Proof. intros E. unfold attempted. by rewrite E. Qed.

Lemma node_step_failures now ans node l nc nc' calls calls' : (∀ n, failures n calls' = failures n calls) →
  node_step now ans node l nc nc' calls → node_step now ans node l nc nc' calls'.
Proof.
  intros E [H1 H2 H3 H4 H5 H6]. rewrite <- (attempted_failures ans node calls calls') in H4, H5, H6 by done.
  setoid_rewrite <- E in H3. rewrite <- E in H5. by split.
Qed.

Lemma monitorNode_ok now ans node nc l : past now l → lawful ans → evictors_ok nc →
  (∀ d, nodeStatusMap nc !! node_Name node = Some d → data_ok l d) →
  ∃ nc' calls, monitorNode now ans node nc = Returns (nc', calls) ∧ node_step now ans node l nc nc' calls.
Proof.
  intros Hl Hans Hok Hd. unfold monitorNode.
  pose proof (updateLoop_ok now ans (node_Name node) (nodeStatusUpdateRetry - 1) Hans 0 node
    (mkAttempt 0 (mkNodeCondition "" "" 0 0 "" "") None false) nc l eq_refl Hl Hd) as Hloop.
  change (S (nodeStatusUpdateRetry - 1)) with nodeStatusUpdateRetry in Hloop.
  destruct (updateLoop _ _ _ _ _ _ _) as [[[nc1 node1] a] calls].
  destruct Hloop as (Hname & Hup & [(m & -> & Hm) (v & Hv & Hlast & Hready) (d & Hd1 & Hok1) Herr]).
  fold (attempted ans node calls) in Hv, Hok1. pose proof (failures_others) as Hf.
  assert (Hidle : (ready v = None ∨ at_err a = true) → node_step now ans node l nc (with_statusMap m nc) calls).
  { intros Hno. split; [done|by destruct nc| |by exists d| |by left].
    - intros n Hn. split_and!; [by apply Hm|done|done|by apply (Hf _ (node_Name node))].
    - intros v' c Hv' Hget Hc _. assert (v' = v) as -> by congruence. destruct Hno as [Hno|Hno]; [congruence|].
      destruct (Herr Hno) as (i & Hi & Hnone). exfalso. by apply (Hget i); [lia|]. }
  destruct (at_err a); [exists (with_statusMap m nc), calls; split; [done|auto]|].
  destruct (at_ready a) as [ready'|] eqn:Hr; [|exists (with_statusMap m nc), calls; split; [done|apply Hidle; left; by apply Hready]].
  destruct (ready v) as [c|] eqn:Hc; [|exfalso; destruct Hready as [_ Hready]; by discriminate Hready].
  rewrite Hname, Hlast. cbn [nodeStatusMap with_statusMap] in *. rewrite Hd1. unfold lastOf. rewrite Hc. cbn [from_option id].
  destruct (decideEviction_ok now (node_Name node) (nc_Status c) d (with_statusMap m nc) Hok)
    as (nc2 & -> & Hok2 & E2 & Hoth & Htrue & Hnew). cbn [mbind outcome_bind].
  assert (node_step now ans node l nc nc2 calls) as Hstep.
  { assert (nodeStatusMap nc2 = m) as Em by (by rewrite E2).
    split; [done|by rewrite Em|..].
    - intros n Hn. rewrite Em. destruct (Hoth n Hn) as [-> ->]. split_and!; [by apply Hm|done|done|by apply (Hf _ (node_Name node))].
    - rewrite Em. eauto.
    - intros v' c' Hv' _ Hc' Hs. apply Htrue. congruence.
    - intros x Hx. destruct (Hnew x Hx) as [?|[? Hj]]; [by left|right]. split; [done|]. exists v. split; [done|].
      eapply decision_justified; [exact Hok1|exact Hc|exact Hj]. }
  set (more := if _ && _ then _ else _). assert (∀ n, failures n more = 0%nat) as Hmore.
  { intros n. unfold more. destruct (_ && _); [apply mark_failures|done]. }
  assert (∀ calls', (∀ n, failures n calls' = 0%nat) → ∃ nc' calls'', Returns (nc2, (calls ++ more) ++ calls') = Returns (nc', calls'') ∧
    node_step now ans node l nc nc' calls'') as Hall.
  { intros calls' E. exists nc2, ((calls ++ more) ++ calls'). split; [done|]. eapply node_step_failures; [|exact Hstep].
    intros n. rewrite !failures_app, Hmore, E. lia. }
  pose proof (Hall [] (λ _, eq_refl)) as Hnone. rewrite app_nil_r in Hnone. repeat case_match; eauto.
Qed.

(** The loop over the list. *)
Lemma monitorLoop_ok now ans nodes (h : list Pass) : ∀ nc calls0, lawful ans →
  (∀ p, p ∈ h → pass_now p <= now) → evictors_ok nc → NoDup (node_Name <$> nodes) →
  (∀ node d, node ∈ nodes → nodeStatusMap nc !! node_Name node = Some d → data_ok (sights (node_Name node) h) d) →
  ∃ nc' calls, foldM (λ '(nc, calls) node, '(nc, calls') ← monitorNode now ans node nc; Returns (nc, calls ++ calls')) nodes (nc, calls0) =
      Returns (nc', calls0 ++ calls) ∧ evictors_ok nc' ∧
    nc' = with_evictors (podEvictor nc') (terminationEvictor nc') (with_statusMap (nodeStatusMap nc') nc) ∧
    (∀ n, n ∉ (node_Name <$> nodes) → nodeStatusMap nc' !! n = nodeStatusMap nc !! n ∧
      evicting nc' !! n = evicting nc !! n ∧ terminating nc' !! n = terminating nc !! n ∧ failures n calls = 0%nat) ∧
    ∀ node, node ∈ nodes → ∃ nc1 nc2 calls', node_step now ans node (sights (node_Name node) h) nc1 nc2 calls' ∧
      podEvictionTimeout nc1 = podEvictionTimeout nc ∧ evicting nc1 !! node_Name node = evicting nc !! node_Name node ∧
      nodeStatusMap nc2 !! node_Name node = nodeStatusMap nc' !! node_Name node ∧ evicting nc2 !! node_Name node = evicting nc' !! node_Name node ∧
      terminating nc2 !! node_Name node = terminating nc' !! node_Name node ∧ failures (node_Name node) calls' = failures (node_Name node) calls.
Proof.
  intros nc calls0 Hans Hpast Hok Hnd Hdata. revert nc calls0 Hok Hnd Hdata.
  induction nodes as [|node nodes IH]; intros nc calls0 Hok Hnd Hdata; cbn [foldM].
  { exists nc, []. rewrite app_nil_r. split_and!; [done|done|by destruct nc|done|]. intros node Hin. by apply elem_of_nil in Hin. }
  rewrite fmap_cons in Hnd |- *. apply NoDup_cons in Hnd as [Hnew Hnd].
  destruct (monitorNode_ok now ans node nc (sights (node_Name node) h)) as (nc1 & calls1 & -> & Hstep);
    [by apply past_sights|done|done|intros d; apply Hdata; by left|].
  cbn [mbind outcome_bind]. pose proof Hstep as [Hok1 Hf1 Hoth1 _ _ _].
  assert (∀ node', node' ∈ nodes → node_Name node' ≠ node_Name node) as Hne.
  { intros node' Hin E. apply Hnew. rewrite <- E. by apply list_elem_of_fmap_2. }
  destruct (IH nc1 (calls0 ++ calls1)) as (nc2 & calls2 & -> & Hok2 & Hf2 & Hoth2 & Hall2); [done|done| |].
  { intros node' d Hin. rewrite (proj1 (Hoth1 _ (Hne node' Hin))). apply Hdata. by right. }
  assert (podEvictionTimeout nc1 = podEvictionTimeout nc) as Et by (by rewrite Hf1).
  exists nc2, (calls1 ++ calls2). rewrite <- app_assoc. split_and!; [done|done|by rewrite Hf2, Hf1| |].
  - intros n [Hn1 Hn2]%not_elem_of_cons. rewrite failures_app. destruct (Hoth2 n Hn2) as (-> & -> & -> & ->).
    destruct (Hoth1 n Hn1) as (? & ? & ? & ->). done.
  - intros node' [->|Hin]%elem_of_cons.
    + destruct (Hoth2 _ Hnew) as (E1 & E2 & E3 & E4). exists nc, nc1, calls1. rewrite failures_app, E4. split_and!; [exact Hstep|done..|lia].
    + destruct (Hall2 node' Hin) as (nc3 & nc4 & calls' & ? & ? & ? & ? & ? & ? & Hc). exists nc3, nc4, calls'.
      destruct (Hoth1 _ (Hne node' Hin)) as (_ & Ee & _ & E). rewrite failures_app, E. split_and!; [done|congruence..|lia].
Qed.

(** *** A pass *)

(** The fields that the monitor does not change. *)
Definition same_config nc nc' : Prop :=
  nc' = with_evictors (podEvictor nc') (terminationEvictor nc') (with_statusMap (nodeStatusMap nc') (with_known (knownNodeSet nc') nc)).

Lemma same_config_refl nc : same_config nc nc.
Proof. by destruct nc. Qed.

Lemma same_config_trans nc1 nc2 nc3 : same_config nc1 nc2 → same_config nc2 nc3 → same_config nc1 nc3.
Proof. unfold same_config. intros E1 E2. rewrite E2 at 1. rewrite E1. done. Qed.

Lemma registerNodes_ok nodes : ∀ nc, evictors_ok nc → ∃ nc', registerNodes nodes nc = Returns nc' ∧ evictors_ok nc' ∧
  same_config nc nc' ∧ nodeStatusMap nc' = nodeStatusMap nc ∧
  knownNodeSet nc' = knownNodeSet nc ∪ list_to_set (node_Name <$> nodes) ∧
  (∀ n x, evicting nc' !! n = Some x → evicting nc !! n = Some x) ∧
  (∀ n, n ∉ (node_Name <$> nodes) → evicting nc' !! n = evicting nc !! n).
Proof.
  unfold registerNodes. induction nodes as [|node nodes IH]; intros nc Hok; cbn [foldM].
  { exists nc. split_and!; [done|done|apply same_config_refl|done|cbn; set_solver|done|done]. }
  destruct (Has (knownNodeSet nc) (node_Name node)) eqn:Hhas.
  - cbn [mbind outcome_bind]. apply Has_true in Hhas. destruct (IH nc Hok) as (nc' & -> & ? & ? & ? & Hk & ? & Hoth).
    exists nc'. split_and!; [done..| |done|]; [rewrite Hk; cbn; set_solver|]. intros n [_ ?]%not_elem_of_cons. by apply Hoth.
  - destruct (cancelPodEviction_ok (node_Name node) nc Hok) as (b & nc1 & -> & Hok1 & E1 & Hd1 & _). cbn [mbind outcome_bind].
    destruct (IH (with_known (SetsString.Insert (knownNodeSet nc1) [node_Name node]) nc1) Hok1)
      as (nc' & -> & Hok' & Hc & Hm & Hk & Hsub & Hoth). exists nc'. split_and!; [done|done| | | | |].
    + eapply same_config_trans; [|exact Hc]. rewrite E1. done.
    + by rewrite Hm, E1.
    + rewrite Hk. cbn. rewrite Insert_union, E1. cbn. set_solver.
    + intros n x Hx%Hsub. change (evicting nc1 !! n = Some x) in Hx. rewrite Hd1 in Hx. by apply lookup_delete_Some in Hx as [_ ?].
    + intros n [Hn1 Hn2]%not_elem_of_cons. rewrite Hoth by done. change (evicting nc1 !! n = evicting nc !! n).
      by rewrite Hd1, lookup_delete_ne.
Qed.

Lemma removeLoop_ok now (l : list string) : ∀ nc, evictors_ok nc → let nc' := foldl (λ nc nodeName,
    let nc := (evictPods now nodeName nc).2 in with_known (SetsString.Delete (knownNodeSet nc) [nodeName]) nc) nc l in
  evictors_ok nc' ∧ same_config nc nc' ∧ nodeStatusMap nc' = nodeStatusMap nc ∧
  knownNodeSet nc' = knownNodeSet nc ∖ list_to_set l ∧
  (∀ n, evicting nc' !! n = if decide (n ∈ l ∧ evicting nc !! n = None) then Some (mkTimedValue n now now) else evicting nc !! n).
Proof.
  induction l as [|name l IH]; intros nc Hok; cbn [foldl].
  { split_and!; [done|apply same_config_refl|done|cbn; set_solver|]. intros n. rewrite decide_False; [done|]. by intros [?%elem_of_nil _]. }
  destruct (evictPods_ok now name nc Hok) as (Hok1 & E1 & He1). set (nc1 := (evictPods now name nc).2) in *.
  destruct (IH (with_known (SetsString.Delete (knownNodeSet nc1) [name]) nc1) Hok1) as (Hok' & Hc & Hm & Hk & He).
  cbn zeta in *. set (nc' := foldl _ _ l) in *. split_and!; [done| | | |].
  - eapply same_config_trans; [|exact Hc]. rewrite E1. done.
  - by rewrite Hm, E1.
  - rewrite Hk. cbn. rewrite Delete_difference, E1. cbn. set_solver.
  - intros n. rewrite He. change (evicting (with_known _ nc1)) with (evicting nc1). rewrite He1.
    destruct (decide (n = name)) as [->|Hn].
    + destruct (decide (evicting nc !! name = None)) as [En|En].
      * rewrite lookup_insert_eq, decide_False by naive_solver. by rewrite decide_True by (split; [left|done]).
      * rewrite !decide_False by naive_solver. done.
    + assert (∀ P, (if decide (evicting nc !! name = None) then <[name := P]> (evicting nc) else evicting nc) !! n = evicting nc !! n) as Hl.
      { intros P. case_decide; [by rewrite lookup_insert_ne|done]. }
      rewrite Hl. destruct (decide (n ∈ l ∧ evicting nc !! n = None)) as [[? ?]|Hno].
      * by rewrite decide_True by (split; [by right|done]).
      * rewrite decide_False; [done|]. intros [[?|?]%elem_of_cons ?]; naive_solver.
Qed.

Lemma observedSet_names nodes : (foldl (λ set node, SetsString.Insert set [node_Name node]) ∅ nodes) = (list_to_set (node_Name <$> nodes) : gset string).
Proof.
  assert (∀ (l : list Node) (s : gset string), (foldl (λ set node, SetsString.Insert set [node_Name node]) s l) = s ∪ list_to_set (node_Name <$> l)) as H.
  { induction l as [|node l IH]; intros s; cbn [foldl]; [cbn; set_solver|]. rewrite IH, Insert_union. cbn. set_solver. }
  rewrite H. set_solver.
Qed.

(** The nodes that are gone are the ones that are known and not listed. *)
Lemma removeNodes_ok now nodes nc : evictors_ok nc → NoDup (node_Name <$> nodes) →
  list_to_set (node_Name <$> nodes) ⊆ knownNodeSet nc → let nc' := removeNodes now nodes nc in
  evictors_ok nc' ∧ same_config nc nc' ∧ nodeStatusMap nc' = nodeStatusMap nc ∧
  knownNodeSet nc' = list_to_set (node_Name <$> nodes) ∧
  (∀ n, evicting nc' !! n = if decide (n ∈ knownNodeSet nc ∧ (n ∉ (node_Name <$> nodes)) ∧ evicting nc !! n = None)
     then Some (mkTimedValue n now now) else evicting nc !! n).
Proof.
  intros Hok Hnd Hsub. unfold removeNodes.
  assert (size (list_to_set (node_Name <$> nodes) : gset string) = length nodes) as Hsize.
  { rewrite size_list_to_set by done. by rewrite length_fmap. }
  destruct (Nat.eqb_spec (Len (knownNodeSet nc)) (length nodes)) as [E|E].
  - assert (list_to_set (node_Name <$> nodes) = knownNodeSet nc) as Heq.
    { apply set_subseteq_size_eq; [done|]. unfold Len in E. lia. }
    split_and!; [done|apply same_config_refl|done|done|]. intros n. rewrite decide_False; [done|].
    rewrite <- Heq, elem_of_list_to_set. naive_solver.
  - rewrite observedSet_names.
    destruct (removeLoop_ok now (range_set (Difference (knownNodeSet nc) (list_to_set (node_Name <$> nodes)))) nc Hok)
      as (? & ? & ? & Hk & He). split_and!; [done|done|done| |].
    + cbn zeta in Hk. rewrite Hk, list_to_set_range_set, Difference_difference.
      apply set_eq. intros x. specialize (Hsub x). rewrite !elem_of_difference. destruct (decide (x ∈ (list_to_set (node_Name <$> nodes) : gset string))); tauto.
    + intros n. rewrite He. apply decide_ext.
      rewrite elem_of_range_set, Difference_difference, elem_of_difference, elem_of_list_to_set. tauto.
Qed.

Lemma sights_snoc n h p : sights n (h ++ [p]) = sights n h ++ ((pass_now p,.) <$> versions n p).
Proof. unfold sights. rewrite bind_app. cbn. by rewrite app_nil_r. Qed.

Definition data_known (h : list Pass) nc : Prop := ∀ n d, nodeStatusMap nc !! n = Some d → data_ok (sights n h) d.

(** A pass, and what it changes. *)
Record pass_step (h : list Pass) (p : Pass) nc nc' : Prop := {
  ps_evictors : evictors_ok nc';
  ps_frame : same_config nc nc';
  ps_data : data_known (h ++ [p]) nc';
  ps_evicted n x : evicting nc' !! n = Some x → evicting nc !! n = Some x ∨
    AddedAt x = pass_now p ∧ eviction_due (podEvictionTimeout nc) h p n;
  ps_known nodes : listNodes (pass_answers p) = Some nodes → knownNodeSet nc' = list_to_set (node_Name <$> nodes);
  ps_gone nodes n : listNodes (pass_answers p) = Some nodes → n ∈ knownNodeSet nc → n ∉ (node_Name <$> nodes) → is_Some (evicting nc' !! n);
  ps_ready n node c : last (versions n p) = Some node →
    (∀ rep, (rep < failures n (pass_calls p))%nat → getNode (pass_answers p) n rep ≠ None) →
    ready node = Some c → nc_Status c = ConditionTrue → evicting nc' !! n = None ∧ terminating nc' !! n = None;
}.

Lemma no_sight ans nodes n : listNodes ans = Some nodes → n ∉ (node_Name <$> nodes) → sight n ans = None.
Proof.
  intros Hlist Hn. destruct (sight n ans) as [node|] eqn:E; [|done]. apply sight_Some in E as (<- & nodes' & Hl & Hin).
  rewrite Hlist in Hl. injection Hl as <-. destruct Hn. by apply list_elem_of_fmap_2.
Qed.

(** A pass without a list does nothing. *)
Lemma unlisted_pass_ok h now ans nc : listNodes ans = None → evictors_ok nc → data_known h nc → pass_step h (mkPass now ans []) nc nc.
Proof.
  intros Hlist Hok Hdata. assert (∀ n, versions n (mkPass now ans []) = []) as Hno.
  { intros n. unfold versions, sight. cbn. by rewrite Hlist. }
  split; [done|apply same_config_refl| |by left|cbn; congruence..|].
  - intros n d Hd. rewrite sights_snoc, Hno, app_nil_r. by apply Hdata.
  - intros n node c. by rewrite Hno.
Qed.

Lemma pass_ok h now ans nc : lawful ans → (∀ p, p ∈ h → pass_now p <= now) → evictors_ok nc → data_known h nc →
  ∀ nc' calls err, monitorNodeStatus now ans nc = Returns (nc', calls, err) → pass_step h (mkPass now ans calls) nc nc'.
Proof.
  intros Hans Hpast Hok Hdata nc' calls err. unfold monitorNodeStatus.
  destruct (listNodes ans) as [nodes|] eqn:Hlist; [|intros [= <- <- <-]; by apply unlisted_pass_ok].
  pose proof (proj2 Hans nodes Hlist) as Hnd.
  destruct (registerNodes_ok nodes nc Hok) as (nc1 & -> & Hok1 & Hc1 & Hm1 & Hk1 & Hsub1 & Hoth1). cbn [mbind outcome_bind].
  destruct (removeNodes_ok now nodes nc1 Hok1 Hnd) as (Hok2 & Hc2 & Hm2 & Hk2 & He2); [rewrite Hk1; set_solver|].
  set (nc2 := removeNodes now nodes nc1) in *.
  destruct (if allocateNodeCIDRs nc2 then _ else _) as [cidrs|] eqn:Hcidrs; cbn [mbind outcome_bind]; [|done].
  pose proof (λ n, cidrs_failures ans nodes nc2 cidrs n Hcidrs) as Hnocidr.
  destruct (monitorLoop_ok now ans nodes h nc2 []) as (nc3 & calls3 & E3 & Hok3 & Hf3 & Hoth3 & Hall3); try done.
  { intros node d _. rewrite Hm2, Hm1. apply Hdata. }
  unfold monitorLoop. rewrite E3. cbn [mbind outcome_bind app]. intros [= <- <- <-]. clear E3.
  assert (same_config nc nc3) as Hc3.
  { eapply same_config_trans; [exact Hc1|]. eapply same_config_trans; [exact Hc2|]. unfold same_config. rewrite Hf3 at 1. rewrite Hf3. by destruct nc2. }
  assert (podEvictionTimeout nc2 = podEvictionTimeout nc) as Et by (by rewrite Hc2, Hc1).
  assert (knownNodeSet nc3 = knownNodeSet nc2) as Hk3 by (by rewrite Hf3).
  set (p := mkPass now ans (cidrs ++ calls3)).
  assert (∀ n, n ∉ (node_Name <$> nodes) → versions n p = []) as Hnone.
  { intros n Hn. unfold versions. cbn. by rewrite (no_sight ans nodes). }
  assert (∀ node, node ∈ nodes → ∀ calls', failures (node_Name node) calls' = failures (node_Name node) calls3 →
    versions (node_Name node) p = attempted ans node calls' ∧ failures (node_Name node) (pass_calls p) = failures (node_Name node) calls') as Hver.
  { intros node Hin calls' E. assert (failures (node_Name node) (cidrs ++ calls3) = failures (node_Name node) calls') as Ef
      by (by rewrite failures_app, Hnocidr, E). split; [|exact Ef]. unfold versions. cbn. rewrite (sight_listed ans nodes) by done.
    by apply attempted_failures. }
  split; [done|done|..].
  - intros n d Hd. rewrite sights_snoc. destruct (decide (n ∈ node_Name <$> nodes)) as [(node & -> & Hin)%list_elem_of_fmap|Hn].
    + destruct (Hall3 node Hin) as (nc4 & nc5 & calls' & [_ _ _ (d' & Hd' & Hdok) _ _] & _ & _ & Em & _ & _ & Ef).
      rewrite (proj1 (Hver node Hin calls' Ef)). assert (d' = d) as <- by congruence. exact Hdok.
    + rewrite Hnone, app_nil_r by done. rewrite (proj1 (Hoth3 n Hn)), Hm2, Hm1 in Hd. by apply Hdata.
  - intros n x Hx. destruct (decide (n ∈ node_Name <$> nodes)) as [(node & -> & Hin)%list_elem_of_fmap|Hn].
    + destruct (Hall3 node Hin) as (nc4 & nc5 & calls' & [_ _ _ _ _ Hev] & Et4 & Ee4 & _ & Ee5 & _ & Ef).
      rewrite <- Ee5 in Hx. destruct (Hev x Hx) as [Hx2|(Ha & v & Hv & Hj)].
      * left. apply Hsub1. rewrite Ee4, He2 in Hx2. rewrite decide_False in Hx2; [done|]. intros (_ & Hno & _). apply Hno. by apply list_elem_of_fmap_2.
      * right. split; [done|]. right. exists v. rewrite sights_snoc, (proj1 (Hver node Hin calls' Ef)). split; [done|]. by rewrite <- Et, <- Et4.
    + rewrite (proj1 (proj2 (Hoth3 n Hn))), He2 in Hx. case_decide as Hcase; [|left; by apply Hsub1].
      injection Hx as <-. right. split; [done|]. left. by exists nodes.
  - intros nodes' E. cbn in E. rewrite Hlist in E. injection E as <-. by rewrite Hk3, Hk2.
  - intros nodes' n E. cbn in E. rewrite Hlist in E. injection E as <-. intros Hkn Hn.
    rewrite (proj1 (proj2 (Hoth3 n Hn))), He2. case_decide as Hcase; [done|].
    destruct (evicting nc1 !! n) eqn:E; [done|]. destruct Hcase. split_and!; [rewrite Hk1; set_solver|done|done].
  - intros n v c Hv Hget Hc Hs. destruct (decide (n ∈ node_Name <$> nodes)) as [(node & -> & Hin)%list_elem_of_fmap|Hn]; [|by rewrite Hnone in Hv].
    destruct (Hall3 node Hin) as (nc4 & nc5 & calls' & [_ _ _ _ Hr _] & _ & _ & _ & <- & <- & Ef).
    destruct (Hver node Hin calls' Ef) as [Ev Ec]. rewrite Ev in Hv. rewrite Ec in Hget. by eapply Hr.
Qed.

(** *** Runs of the controller: passes, in the order of their times, between which the two
    loops run and the stores change.  Ranges are only allocated from an address of IPv4; the
    constructor checks that there is one. *)
Inductive run `{K : KeySort} : list Pass → NodeController → Prop :=
  | run_new timeout grace startup cidr allocate pods nodes dss : (allocate = true → cidr ≠ None) →
      run [] (NewNodeController timeout grace startup cidr allocate pods nodes dss)
  | run_pass h now ans nc nc' calls err : run h nc → lawful ans → (∀ p, p ∈ h → pass_now p <= now) →
      monitorNodeStatus now ans nc = Returns (nc', calls, err) → run (h ++ [mkPass now ans calls]) nc'
  | run_evict h nc script nc' calls : run h nc → evictionRound script nc = Some (nc', calls) → run h nc'
  | run_terminate h nc script nc' calls : run h nc → terminationRound script nc = Some (nc', calls) → run h nc'
  | run_stores h nc pods nodes dss : run h nc → run h (with_stores pods nodes dss nc).

(** When the entry of [n] that was added at [t] was due. *)
Definition evicted_for (timeout : Z) (h : list Pass) (n : string) (t : Z) : Prop :=
  ∃ h1 p h2, h = h1 ++ p :: h2 ∧ pass_now p = t ∧ eviction_due timeout h1 p n.

Record run_ok (h : list Pass) nc : Prop := {
  ro_evictors : evictors_ok nc;
  ro_data : data_known h nc;
  ro_evicted n x : evicting nc !! n = Some x → evicted_for (podEvictionTimeout nc) h n (AddedAt x);
  ro_cidr : allocateNodeCIDRs nc = true → clusterCIDR nc ≠ None;
}.

Lemma evictAction_ok `{K : KeySort} now ans value nc r nc' calls : evictors_ok nc → evictAction now ans value nc = (r, (nc', calls)) →
  evictors_ok nc' ∧ nc' = with_evictors (podEvictor nc) (terminationEvictor nc') nc.
Proof.
  intros [Hp Ht]. unfold evictAction. destruct (deletePods ans (Value value) nc) as [[remaining err] calls'].
  destruct err; [intros [= <- <- <-]; by destruct nc|]. destruct remaining; intros [= <- <- <-]; [|by destruct nc].
  destruct (uq_Add_spec (mkTimedValue (Value value) now now) (terminationEvictor nc) Ht) as (q & E & Hq & _). rewrite E. done.
Qed.

(** A round returns, and its queue keeps the times. *)
Lemma evictionRound_ok `{K : KeySort} script nc : evictors_ok nc → ∃ nc' calls, evictionRound script nc = Some (nc', calls) ∧
  evictors_ok nc' ∧ nc' = with_evictors (podEvictor nc') (terminationEvictor nc') nc ∧
  ∀ P, (∀ n x, evicting nc !! n = Some x → P n (AddedAt x)) → ∀ n x, evicting nc' !! n = Some x → P n (AddedAt x).
Proof.
  intros Hok. unfold evictionRound. set (w := mkWorld None script nc []).
  pose (I := λ w, evictors_ok (ew_nc w) ∧ ew_nc w = with_evictors (podEvictor nc) (terminationEvictor (ew_nc w)) nc).
  assert (HI : I w) by (split; [done|by destruct nc]).
  assert (∀ w, I w → I (acceptNext w).2) as Hacc by (intros w'; unfold acceptNext; by destruct (ew_script w')).
  assert (∀ x q w r q' w', I w → @action _ evictEnvironment x q w = (r, (q', w')) → q' = q ∧ I w') as Hact.
  { intros x q w1 r q' w' [Hok1 E1]. cbn. destruct (ew_current w1) as [[now ans]|]; [|by intros [= _ <- <-]].
    destruct (evictAction now ans x (ew_nc w1)) as [r1 [nc1 calls1]] eqn:E. intros [= _ <- <-]. split; [done|].
    apply evictAction_ok in E as [? E]; [|done]. split; cbn; [done|]. etransitivity; [exact E|]. by rewrite E1. }
  destruct (@Try_limited _ evictEnvironment (λ w, length (ew_script w))) with (q := podEvictor nc) (w := w) as (q' & w' & E & _).
  { intros w1 w2. cbn. unfold acceptNext. destruct (ew_script w1); [done|]. intros [= <-]. cbn. lia. }
  { done. }
  { intros x q w1 r q' w2 Hq. cbn. destruct (ew_current w1) as [[now ans]|]; [|by intros [= _ <- <-]].
    destruct (evictAction now ans x (ew_nc w1)) as [r1 [nc1 calls1]]. by intros [= _ <- <-]. }
  { by intros q w1 q' w2 Hq [= <- <-]. }
  { apply Hok. }
  change (length (ew_script w)) with (length script) in E. rewrite E. eexists _, _. split; [done|].
  assert (∀ P, added_at P (podEvictor nc) → unique_ok q' ∧ added_at P q' ∧ I w') as Hkeep.
  { intros P HP. eapply (@Try_keeps_added _ evictEnvironment I P Hacc); [by intros|exact Hact| |exact (proj1 Hok)|exact HP|exact HI|exact E].
    by intros q w1 q1 w2 ? [= <- <-]. }
  destruct (Hkeep (λ _ _, True)) as (Hq' & _ & [_ Ht] & E'); [done|]. split_and!; [done|by rewrite E'|].
  intros P HP. by apply (Hkeep P HP).
Qed.

Lemma terminationRound_ok script nc : evictors_ok nc → ∃ nc' calls, terminationRound script nc = Some (nc', calls) ∧
  evictors_ok nc' ∧ nc' = with_evictors (podEvictor nc) (terminationEvictor nc') nc.
Proof.
  intros Hok. unfold terminationRound. set (w := mkWorld None script nc []).
  destruct (@Try_limited _ terminateEnvironment (λ w, length (ew_script w))) with (q := terminationEvictor nc) (w := w) as (q' & w' & E & Hq').
  { intros w1 w2. cbn. unfold acceptNext. destruct (ew_script w1); [done|]. intros [= <-]. cbn. lia. }
  { done. }
  { intros x q w1 r q' w2 Hq. cbn. destruct (ew_current w1) as [[now ans]|]; [|by intros [= _ <- <-]].
    destruct (terminateAction now ans x (ew_nc w1)) as [r1 calls1]. by intros [= _ <- <-]. }
  { by intros q w1 q' w2 Hq [= <- <-]. }
  { apply Hok. }
  change (length (ew_script w)) with (length script) in E. rewrite E. eexists _, _. split; [done|].
  destruct (@Try_keeps_added _ terminateEnvironment (λ w, ew_nc w = nc) (λ _ _, True)) with (fuel := S (length script))
    (q := terminationEvictor nc) (w := w) (q' := q') (w' := w') as (_ & _ & ->); try done.
  - intros w1. cbn. unfold acceptNext. by destruct (ew_script w1).
  - intros x q w1 r q1 w2 ?. cbn. destruct (ew_current w1) as [[now ans]|]; [|by intros [= _ <- <-]].
    destruct (terminateAction now ans x (ew_nc w1)) as [r1 calls1]. by intros [= _ <- <-].
  - by intros q w1 q1 w2 ? [= <- <-].
  - apply Hok.
  - split; [split; [apply Hok|done]|done].
Qed.

Lemma run_is_ok `{K : KeySort} h nc : run h nc → run_ok h nc.
Proof.
  induction 1 as [timeout grace startup cidr allocate pods nodes dss Hcidr|h now ans nc nc' calls err _ [Hok Hdata Hev Hcidr] Hans Hpast Hpass
    |h nc script nc' calls _ [Hok Hdata Hev Hcidr] Hround|h nc script nc' calls _ [Hok Hdata Hev Hcidr] Hround|h nc pods nodes dss _ [Hok Hdata Hev Hcidr]].
  - split; [split; apply unique_ok_new|by intros n|by intros n|done].
  - destruct (pass_ok h now ans nc Hans Hpast Hok Hdata nc' calls err Hpass) as [Hok' Hframe Hdata' Hnew _ _ _].
    split; [done|done| |by rewrite Hframe]. replace (podEvictionTimeout nc') with (podEvictionTimeout nc) by (by rewrite Hframe).
    intros n x Hx. destruct (Hnew n x Hx) as [Hold|[E Hdue]].
    + destruct (Hev n x Hold) as (h1 & p & h2 & -> & ?). exists h1, p, (h2 ++ [mkPass now ans calls]). by rewrite <- app_assoc.
    + by exists h, (mkPass now ans calls), [].
  - destruct (evictionRound_ok script nc Hok) as (nc1 & calls1 & E & Hok1 & Hf & Hkeep). rewrite Hround in E. injection E as <- <-.
    split; [done|by rewrite Hf| |by rewrite Hf]. apply Hkeep. by rewrite Hf.
  - destruct (terminationRound_ok script nc Hok) as (nc1 & calls1 & E & Hok1 & Hf). rewrite Hround in E. injection E as <- <-.
    split; [done|by rewrite Hf| |by rewrite Hf]. intros n x Hx. rewrite Hf. apply Hev. unfold evicting in *. by rewrite Hf in Hx.
  - by split.
Qed.

(** *** Addresses *)

Lemma generateCIDRs_ok ip n : generateCIDRs (Some ip) n = Returns (list_to_set ((λ i, podCIDR ip (Z.of_nat i)) <$> seq 0 n)).
Proof.
  unfold generateCIDRs. assert (∀ (l : list nat) (res : gset string), foldM (λ res i, Returns (SetsString.Insert res [podCIDR ip (Z.of_nat i)])) l res =
    Returns (list_to_set ((λ i, podCIDR ip (Z.of_nat i)) <$> l) ∪ res)) as H.
  { induction l as [|i l IH]; intros res; cbn [foldM]; [cbn; by rewrite union_empty_l_L|]. cbn [mbind outcome_bind].
    rewrite IH, Insert_union. cbn. f_equal. set_solver. }
  rewrite H. by rewrite union_empty_r_L.
Qed.

Lemma monitor_returns now ans nc h nodes : lawful ans → (∀ p, p ∈ h → pass_now p <= now) → evictors_ok nc → data_known h nc →
  listNodes ans = Some nodes → (allocateNodeCIDRs nc = true → clusterCIDR nc ≠ None) →
  ∃ nc' calls, monitorNodeStatus now ans nc = Returns (nc', calls, false).
Proof.
  intros Hans Hpast Hok Hdata Hlist Hcidr. unfold monitorNodeStatus. rewrite Hlist. pose proof (proj2 Hans nodes Hlist) as Hnd.
  destruct (registerNodes_ok nodes nc Hok) as (nc1 & -> & Hok1 & Hc1 & Hm1 & Hk1 & _). cbn [mbind outcome_bind].
  destruct (removeNodes_ok now nodes nc1 Hok1 Hnd) as (Hok2 & Hc2 & Hm2 & _); [rewrite Hk1; set_solver|].
  set (nc2 := removeNodes now nodes nc1) in *.
  assert (allocateNodeCIDRs nc2 = allocateNodeCIDRs nc ∧ clusterCIDR nc2 = clusterCIDR nc) as [-> Ec] by (by rewrite Hc2, Hc1).
  assert (∃ cidrs, (if allocateNodeCIDRs nc then reconcileNodeCIDRs ans nodes nc2 else Returns []) = Returns cidrs) as [cidrs ->].
  { destruct (allocateNodeCIDRs nc); [|by eexists]. unfold reconcileNodeCIDRs. rewrite Ec.
    destruct (clusterCIDR nc) as [ip|]; [|by destruct Hcidr]. rewrite generateCIDRs_ok. by eexists. }
  cbn [mbind outcome_bind]. destruct (monitorLoop_ok now ans nodes h nc2 []) as (nc3 & calls3 & E & _); try done.
  { intros node d _. rewrite Hm2, Hm1. apply Hdata. }
  unfold monitorLoop. rewrite E. by eexists _, _.
Qed.
End facts.

(** ** Properties *)

(** C17: no node's pods are evicted without a reason.  In any run of the controller (passes
    of the monitor, in the order of their times, with the two loops and the informers
    in between), a node is queued for eviction only by a pass that did not list it, or
    that saw it, the last time that it looked, unknown after more than the timeout without a
    new heartbeat, or not ready for more than the timeout without news of a transition; a
    node that was seen without a [Ready] condition is counted from its creation instead.
    What a pass sees of a node is the version in the list and, after each update of its status
    that fails, the one that it reads again, which may be another one; of the API server it is assumed
    that a get of a name gives a node of that name, and that no name is listed twice. *)
Theorem evictions_justified (R : RangeOrder) (K : KeySort) (h : list Pass) (nc : NodeController) :
  run h nc → ∀ n x, evicting nc !! n = Some x →
  ∃ h1 p h2, h = h1 ++ p :: h2 ∧ pass_now p = AddedAt x ∧ eviction_due (podEvictionTimeout nc) h1 p n.
Proof. intros Hrun n x Hx. exact (ro_evicted _ _ (run_is_ok h nc Hrun) n x Hx). Qed.

(** C18: in any run, with the assumptions of the one before on the API server, a pass over a list of
    nodes never panics, as long as a range of IPv4 is given to a controller that allocates the ranges of
    the nodes.  The pass then knows exactly the nodes that are listed; the pods of a node that is gone
    are queued for eviction, and nothing is queued for a node that was ready when the pass looked
    at it last: its evictions are cancelled in both queues, unless the node could not be read
    again after an update of its status that failed, when the pass leaves the node alone. *)
Theorem monitor_pass_effects (R : RangeOrder) (K : KeySort) (h : list Pass) (nc : NodeController)
    (now : Time) (ans : apiAnswers) (nodes : list Node) :
  run h nc → lawful ans → (∀ p, p ∈ h → pass_now p <= now) → listNodes ans = Some nodes →
  ∃ nc' calls, monitorNodeStatus now ans nc = Returns (nc', calls, false) ∧
    knownNodeSet nc' = list_to_set (node_Name <$> nodes) ∧
    (∀ n, n ∈ knownNodeSet nc → n ∉ (node_Name <$> nodes) → is_Some (evicting nc' !! n)) ∧
    (∀ n node c, last (versions n (mkPass now ans calls)) = Some node → ready node = Some c → nc_Status c = ConditionTrue →
     (∀ rep, (rep < failures n calls)%nat → getNode ans n rep ≠ None) →
     evicting nc' !! n = None ∧ terminating nc' !! n = None).
Proof.
  intros [Hok Hdata _ Hcidr]%run_is_ok Hans Hpast Hlist.
  destruct (monitor_returns now ans nc h nodes) as (nc' & calls & E); try done. exists nc', calls. split; [done|].
  destruct (pass_ok h now ans nc Hans Hpast Hok Hdata nc' calls false E) as [_ _ _ _ Hk Hg Hr].
  split_and!; [by apply Hk|intros n; by apply Hg|]. intros n node c ????. by eapply Hr.
Qed.

(** ** Addresses and pods *)
Section more_facts.
Context `{R : RangeOrder}.
Implicit Types (nc : NodeController) (node : Node) (ans : apiAnswers).

(** The first 65536 ranges are different ones. *)
Lemma podCIDR_inj ip i j : 0 <= i < 65536 → 0 <= j < 65536 → podCIDR ip i = podCIDR ip j → i = j.
Proof.
  destruct ip as [[[ip0 ip1] ip2] ip3]. unfold podCIDR. rewrite !Z.shiftr_div_pow2 by lia. intros Hi Hj.
  intros E. apply (inj (String.append _)) in E. cbn -[FormatInt byte_] in E. injection E as E.
  apply FormatInt_sep in E as [E1 E]; [|done..].
  apply FormatInt_sep in E as [E2 _]; [|done..].
  unfold byte_ in *. change (2 ^ 8) with 256 in *. rewrite !(Z.mod_small (_ / 256)) in * by (split; [apply Z.div_pos; lia|apply Z.div_lt_upper_bound; lia]).
  rewrite !Z.mod_mod in * by lia.
  assert (∀ a b c, 0 <= a < 256 → 0 <= b < 256 → (c + a) mod 256 = (c + b) mod 256 → a = b) as Hmod.
  { intros a b c Ha Hb Hm. pose proof (Z.div_mod (c + a) 256). pose proof (Z.div_mod (c + b) 256). lia. }
  apply Hmod in E1, E2; [|apply Z.mod_pos_bound; lia..| |].
  - rewrite (Z.div_mod i 256), (Z.div_mod j 256) by lia. lia.
  - split; [apply Z.div_pos; lia|apply Z.div_lt_upper_bound; lia].
  - split; [apply Z.div_pos; lia|apply Z.div_lt_upper_bound; lia].
Qed.

(** The nodes without a range, as the API server has them now. *)
Definition wanting ans (nodes : list Node) : list Node :=
  omap (λ node, if decide (PodCIDR node = "") then refreshNode ans (node_Name node) else None) nodes.

Definition assignment ans node (cidr : string) : apiCall :=
  UpdateNode (with_PodCIDR cidr node) (nodeUpdateOk ans (node_Name node)).

Lemma assignLoop_ok ans nodes : ∀ available : gset string, (length (filter (λ node, PodCIDR node = "") nodes) <= size available)%nat →
  ∃ cidrs, assignLoop ans nodes available = zip_with (assignment ans) (wanting ans nodes) cidrs ∧
    length cidrs = length (wanting ans nodes) ∧ NoDup cidrs ∧ ∀ c, c ∈ cidrs → c ∈ available.
Proof.
  induction nodes as [|node nodes IH]; intros available Hsize; cbn [assignLoop].
  { exists []. split_and!; [done|done|constructor|]. by intros c ?%elem_of_nil. }
  unfold wanting. cbn [omap list_omap]. fold (wanting ans nodes). rewrite filter_cons in Hsize.
  destruct (decide (PodCIDR node = "")) as [E|E].
  2: { rewrite bool_decide_eq_true_2 by done. by apply IH. }
  rewrite bool_decide_eq_false_2 by (intros H; by apply H). cbn [length] in Hsize.
  destruct (refreshNode ans (node_Name node)) as [n|]; [|apply IH; lia].
  pose proof (PopAny_spec R available) as Hpop. destruct (PopAny available) as [[cidr []] available']; cbn [negb].
  2: { destruct Hpop as (_ & -> & _). rewrite size_empty in Hsize. lia. }
  destruct Hpop as (Hin & Hnot & -> & Hlen). unfold Len in Hlen.
  destruct (IH available') as (cidrs & -> & Hl & Hnd & Hsub); [lia|]. exists (cidr :: cidrs). split_and!; [done|cbn; lia| |].
  - apply NoDup_cons. split; [|done]. intros Hc%Hsub. done.
  - intros c [->|Hc%Hsub]%elem_of_cons; set_solver.
Qed.

Lemma usedCIDRs nodes : ∀ available : gset string,
  (foldl (λ available node, if bool_decide (PodCIDR node ≠ "") then SetsString.Delete available [PodCIDR node] else available) available nodes) =
  available ∖ list_to_set (PodCIDR <$> filter (λ node, PodCIDR node ≠ "") nodes).
Proof.
  induction nodes as [|node nodes IH]; intros available; cbn [foldl]; [cbn; set_solver|]. rewrite IH, filter_cons.
  destruct (decide (PodCIDR node ≠ "")) as [E|E].
  - rewrite bool_decide_eq_true_2, Delete_difference by done. cbn. set_solver.
  - by rewrite bool_decide_eq_false_2.
Qed.

Lemma length_filter_split {A} (P : A → Prop) `{∀ x, Decision (P x)} (l : list A) :
  (length (filter P l) + length (filter (λ x, ¬ P x) l) = length l)%nat.
Proof.
  induction l as [|x l IH]; [done|]. rewrite !filter_cons. cbn. repeat case_decide; cbn; try tauto; lia.
Qed.

(** There are ranges for all. *)
Lemma available_enough ip nodes : Z.of_nat (length nodes) <= 65536 →
  (length (filter (λ node, PodCIDR node = "") nodes) <=
   size ((list_to_set ((λ i, podCIDR ip (Z.of_nat i)) <$> seq 0 (length nodes)) : gset string) ∖
     list_to_set (PodCIDR <$> filter (λ node, PodCIDR node ≠ "") nodes)))%nat.
Proof.
  intros Hlen. set (all := list_to_set (_ <$> seq _ _)). set (used := list_to_set (PodCIDR <$> _)).
  assert (size all = length nodes) as Hall.
  { subst all. rewrite size_list_to_set; [by rewrite length_fmap, length_seq|]. apply NoDup_fmap_2_strong; [|apply NoDup_ListNoDup, seq_NoDup].
    intros i j Hi%elem_of_seq Hj%elem_of_seq E%podCIDR_inj; lia. }
  assert (size used <= length (filter (λ node, PodCIDR node ≠ "") nodes))%nat as Hused.
  { subst used. etransitivity; [apply size_list_to_set_le|]. by rewrite length_fmap. }
  assert (length (filter (λ node, PodCIDR node = "") nodes) + length (filter (λ node, PodCIDR node ≠ "") nodes) = length nodes)%nat as Hsplit
    by exact (length_filter_split (λ node, PodCIDR node = "") nodes).
  assert (size all <= size (all ∖ used) + size used)%nat; [|lia].
  rewrite <- size_union by set_solver. apply subseteq_size. intros x Hx. destruct (decide (x ∈ used)); set_solver.
Qed.

(** *** Deleting pods *)

(** The pods that [deletePods] means to delete. *)
Definition doomed `{K : KeySort} (nodeName : string) (pods : list Pod) nc : list Pod :=
  filter (λ pod, NodeName pod = nodeName ∧ DeletionGracePeriodSeconds pod = None ∧ (GetPodDaemonSets (daemonSetStore nc) pod).2 ≠ None) pods.

Definition evictionOf ans (pod : Pod) : apiCall := DeletePod (Namespace pod) (Name pod) None (podDeleteOk ans (Namespace pod) (Name pod)).
Definition deletable ans (pod : Pod) : Prop := podDeleteOk ans (Namespace pod) (Name pod) = true.

Lemma evictionLoop_spec `{K : KeySort} ans nodeName pods nc : ∀ remaining,
  let '(r, err, calls) := deleteLoop ans nodeName pods remaining nc in
  if err then r = false ∧ ∃ gone pod rest, doomed nodeName pods nc = gone ++ pod :: rest ∧ Forall (deletable ans) gone ∧
    ¬ deletable ans pod ∧ calls = evictionOf ans <$> gone ++ [pod]
  else Forall (deletable ans) (doomed nodeName pods nc) ∧ calls = evictionOf ans <$> doomed nodeName pods nc ∧
    (r = true ↔ remaining = true ∨ doomed nodeName pods nc ≠ []).
Proof.
  induction pods as [|pod pods IH]; intros remaining; cbn [deleteLoop].
  { split_and!; [constructor|done|]. cbn. split; [by left|]. by intros [?|?]. }
  unfold doomed. rewrite filter_cons. fold (doomed nodeName pods nc). unfold doomed in IH. cbn zeta in *.
  destruct (decide (NodeName pod = nodeName)) as [En|En].
  2: { rewrite bool_decide_eq_true_2 by done. rewrite decide_False by tauto. apply IH. }
  rewrite bool_decide_eq_false_2 by (intros H; by apply H).
  destruct (decide (DeletionGracePeriodSeconds pod = None)) as [Ed|Ed].
  2: { rewrite bool_decide_eq_true_2 by done. rewrite decide_False by tauto. apply IH. }
  rewrite bool_decide_eq_false_2 by (intros H; by apply H).
  destruct (GetPodDaemonSets (daemonSetStore nc) pod) as [dss [e|]]; cbn [snd].
  2: { rewrite decide_False by tauto. apply IH. }
  rewrite decide_True by done. destruct (podDeleteOk ans (Namespace pod) (Name pod)) eqn:Eok; cbn [negb].
  - specialize (IH true). destruct (deleteLoop _ _ _ _ _) as [[r err] calls]. fold (doomed nodeName pods nc) in *. destruct err.
    + destruct IH as (-> & gone & pod' & rest & -> & Hgone & Hpod & ->). split; [done|]. exists (pod :: gone), pod', rest.
      split_and!; [done|by constructor|done|]. cbn. unfold evictionOf at 2. by rewrite Eok.
    + destruct IH as (Hall & -> & Hr). split_and!; [by constructor| |].
      * cbn. unfold evictionOf at 2. by rewrite Eok.
      * split; [by right|]. intros _. apply Hr. by left.
  - split; [done|]. eexists [], pod, _. split_and!; [done|constructor|unfold deletable; congruence|]. cbn. unfold evictionOf. by rewrite Eok.
Qed.

(** *** Terminating pods *)

(** The pods of the node that are being deleted, and how long after the eviction each may take. *)
Definition dying (nodeName : string) (pods : list Pod) : list Pod :=
  filter (λ pod, NodeName pod = nodeName ∧ DeletionGracePeriodSeconds pod ≠ None) pods.
Definition allowed nc (pod : Pod) : Z := Z.min (default 0 (DeletionGracePeriodSeconds pod) * 10 ^ 9) (maximumGracePeriod nc).

(** The sizes that the code's durations hold. *)
Record terminable nc (elapsed : Z) (pods : list Pod) : Prop := {
  tm_elapsed : 0 <= elapsed < 2 ^ 63;
  tm_maximum : 0 <= maximumGracePeriod nc < 2 ^ 63;
  tm_grace pod seconds : pod ∈ pods → DeletionGracePeriodSeconds pod = Some seconds → 0 <= seconds <= 9223372036;
}.

Lemma terminateLoop_spec ans nodeName elapsed nc pods : terminable nc elapsed pods → ∀ complete next, 0 <= next →
  let overdue := filter (λ pod, allowed nc pod < elapsed) (dying nodeName pods) in
  let waiting := filter (λ pod, ¬ allowed nc pod < elapsed) (dying nodeName pods) in
  let '(c, n, calls) := terminateLoop ans nodeName elapsed pods complete next nc in
  (c = true ↔ complete = true ∧ waiting = [] ∧ Forall (deletable ans) overdue) ∧
  calls = forcefullyDeletePod ans <$> overdue ∧ next <= n ∧ (∀ pod, pod ∈ waiting → allowed nc pod - elapsed <= n) ∧
  (n = next ∨ ∃ pod, pod ∈ waiting ∧ n = allowed nc pod - elapsed).
Proof.
  intros [He Hm Hg]. induction pods as [|pod pods IH]; intros complete next Hnext; cbn zeta; cbn [terminateLoop].
  { cbn. split_and!; [|done|lia|by intros pod ?%elem_of_nil|by left]. split; [|tauto]. intros ->. split_and!; [done..|constructor]. }
  specialize (IH ltac:(intros pod' seconds Hin; apply Hg; by right)). cbn zeta in IH.
  unfold dying in *. rewrite filter_cons.
  destruct (decide (NodeName pod = nodeName)) as [En|En].
  2: { rewrite bool_decide_eq_true_2 by done. rewrite decide_False by tauto. by apply IH. }
  rewrite bool_decide_eq_false_2 by (intros H; by apply H).
  destruct (DeletionGracePeriodSeconds pod) as [seconds|] eqn:Es.
  2: { rewrite decide_False by tauto. by apply IH. }
  rewrite decide_True by done. assert (0 <= seconds <= 9223372036) as Hs by (apply (Hg pod); [by left|done]).
  rewrite (int64_id (seconds * 10 ^ 9)) by lia. rewrite !filter_cons.
  assert ((if maximumGracePeriod nc <? seconds * 10 ^ 9 then maximumGracePeriod nc else seconds * 10 ^ 9) = allowed nc pod) as ->.
  { unfold allowed. rewrite Es. cbn. destruct (Z.ltb_spec (maximumGracePeriod nc) (seconds * 10 ^ 9)); lia. }
  assert (0 <= allowed nc pod < 2 ^ 63) as Ha by (unfold allowed; rewrite Es; cbn; lia).
  rewrite int64_id by lia. destruct (Z.ltb_spec (allowed nc pod - elapsed) 0) as [Hlt|Hge].
  - rewrite (decide_True (P := allowed nc pod < elapsed)), (decide_False (P := ¬ allowed nc pod < elapsed)) by lia. destruct (Z.ltb_spec next 0) as [|_]; [lia|].
    specialize (IH (complete && podDeleteOk ans (Namespace pod) (Name pod)) next Hnext).
    destruct (terminateLoop _ _ _ _ _ _ _) as [[c n] calls]. destruct IH as (Hc & -> & ? & ? & ?). split_and!; [|done..].
    rewrite Hc, Forall_cons. unfold deletable at 2. destruct complete, (podDeleteOk ans (Namespace pod) (Name pod)); cbn; tauto.
  - rewrite (decide_False (P := allowed nc pod < elapsed)), (decide_True (P := ¬ allowed nc pod < elapsed)) by lia.
    set (next' := if next <? allowed nc pod - elapsed then _ else next). assert (next <= next' ∧ allowed nc pod - elapsed <= next' ∧
      (next' = next ∨ next' = allowed nc pod - elapsed)) as (Hn1 & Hn2 & Hn3).
    { subst next'. destruct (Z.ltb_spec next (allowed nc pod - elapsed)); lia. }
    specialize (IH false next' ltac:(lia)). destruct (terminateLoop _ _ _ _ _ _ _) as [[c n] calls].
    destruct IH as (Hc & -> & Hle & Hall & Hwhich). split_and!; [|done|lia| |].
    + rewrite Hc. split; [by intros [? _]|]. by intros (_ & ? & _).
    + intros pod' [->|Hin]%elem_of_cons; [lia|by apply Hall].
    + destruct Hwhich as [->|(pod' & ? & ->)]; [destruct Hn3 as [->| ->]; [by left|right; exists pod; split; [left|done]]|].
      right. exists pod'. split; [by right|done].
Qed.
End more_facts.

(** C20: with room for the cluster's nodes (65536 ranges), every node that has no range of
    addresses gets one, in the order of the list, unless getting it fails; the ranges
    are different from each other and from those of all the nodes that are listed. *)
Theorem cidrs_unique (R : RangeOrder) (ans : apiAnswers) (nodes : list Node) (nc : NodeController) ip :
  clusterCIDR nc = Some ip → Z.of_nat (length nodes) <= 65536 →
  ∃ cidrs, reconcileNodeCIDRs ans nodes nc = Returns (zip_with (assignment ans) (wanting ans nodes) cidrs) ∧
    length cidrs = length (wanting ans nodes) ∧ NoDup cidrs ∧
    ∀ c node, c ∈ cidrs → node ∈ nodes → PodCIDR node ≠ c.
Proof.
  intros Hip Hlen. unfold reconcileNodeCIDRs. rewrite Hip, generateCIDRs_ok. cbn [mbind outcome_bind]. rewrite usedCIDRs.
  destruct (assignLoop_ok ans nodes _ (available_enough ip nodes Hlen)) as (cidrs & -> & ? & ? & Hsub). exists cidrs.
  split_and!; [done..|]. intros c node Hc Hin <-. apply Hsub in Hc. apply elem_of_difference in Hc as [Hall Hused].
  apply Hused. apply elem_of_list_to_set, list_elem_of_fmap_2, list_elem_of_filter. split; [|done].
  intros E. rewrite E in Hall. apply elem_of_list_to_set, list_elem_of_fmap in Hall as (i & Hi & _).
  unfold podCIDR in Hi. destruct ip as [[[ip0 ip1] ip2] ip3]. by destruct (FormatInt ip0).
Qed.

(** An eviction deletes, in the order of the list, the pods of the node that are not
    being deleted already and that no daemon set manages; it stops at the first error
    and then reports it, and reports pods as remaining if it deleted any. *)
Theorem deletePods_spec (R : RangeOrder) (K : KeySort) (ans : apiAnswers) (nodeName : string) (pods : list Pod) (nc : NodeController) :
  listPods ans nodeName = Some pods →
  let '(remaining, err, calls) := deletePods ans nodeName nc in
  if err then remaining = false ∧ ∃ gone pod rest, doomed nodeName pods nc = gone ++ pod :: rest ∧ Forall (deletable ans) gone ∧
    ¬ deletable ans pod ∧ calls = evictionOf ans <$> gone ++ [pod]
  else Forall (deletable ans) (doomed nodeName pods nc) ∧ calls = evictionOf ans <$> doomed nodeName pods nc ∧
    (remaining = true ↔ doomed nodeName pods nc ≠ []).
Proof.
  intros Hl. unfold deletePods. rewrite Hl. pose proof (evictionLoop_spec ans nodeName pods nc false) as H.
  destruct (deleteLoop _ _ _ _ _) as [[r err] calls]. destruct err; [done|]. destruct H as (? & ? & Hr). split_and!; [done..|].
  rewrite Hr. split; [by intros [?|?]|by right].
Qed.

(** C19: the terminator kills the pods of an evicted node that are still there after their
    grace period or after the maximum, whichever is shorter ([allowed]), counted from when the
    node was queued; it is complete when no other is left and every killing succeeds, and
    else waits as long as the last of the others may take.  The times are such that durations
    hold them ([terminable]), and the pods can be listed.  (The comment on the loops
    of the controller says that no pod is killed in less than the maximum.) *)
Theorem terminatePods_spec (R : RangeOrder) (now since : Time) (ans : apiAnswers) (nodeName : string) (pods : list Pod) (nc : NodeController) :
  listPods ans nodeName = Some pods → terminable nc (now - since) pods →
  let overdue := filter (λ pod, allowed nc pod < now - since) (dying nodeName pods) in
  let waiting := filter (λ pod, ¬ allowed nc pod < now - since) (dying nodeName pods) in
  ∃ complete next, terminatePods now ans nodeName since nc = Some (complete, next, forcefullyDeletePod ans <$> overdue) ∧
    (complete = true ↔ waiting = [] ∧ Forall (deletable ans) overdue) ∧
    (∀ pod, pod ∈ waiting → allowed nc pod - (now - since) <= next) ∧
    (next = 0 ∨ ∃ pod, pod ∈ waiting ∧ next = allowed nc pod - (now - since)) ∧ 0 <= next <= maximumGracePeriod nc.
Proof.
  intros Hl Ht overdue waiting. unfold terminatePods. rewrite Hl. destruct Ht as [He Hm Hg].
  replace (Z.max (- 2 ^ 63) (Z.min (2 ^ 63 - 1) (now - since))) with (now - since) by lia.
  pose proof (terminateLoop_spec ans nodeName (now - since) nc pods ltac:(by split) true 0 ltac:(lia)) as H. cbn zeta in H.
  fold overdue waiting in H. destruct (terminateLoop _ _ _ _ _ _ _) as [[c n] calls]. destruct H as (Hc & -> & H0 & Hall & Hwhich).
  exists c, n. split_and!; [done|tauto|done|done|done|].
  destruct Hwhich as [->|(pod & _ & ->)]; [lia|]. unfold allowed. lia.
Qed.

(** ** What the code does against its comments *)

(** A status without the condition [Ready] resets what is known of the node to its creation,
    whatever was saved: the branch of [tryUpdateNodeStatus] for a condition that was
    removed is never taken. *)
Theorem missing_condition_resets (now : Time) (node : Node) (nc : NodeController) : ready node = None →
  let '(nc', _, _, saved) := observeStatus now node nc in
  saved = mkData (node_CreationTimestamp node) (node_CreationTimestamp node) (node_Conditions node) ∧
  nodeStatusMap nc' !! node_Name node = Some saved.
Proof.
  unfold observeStatus, ready. intros E. rewrite E, lookup_insert_eq. cbn [status]. rewrite E. cbn. by rewrite lookup_insert_eq.
Qed.

(** When every get of a node succeeds, the retries end without an error whatever the updates
    answer, and the pass goes on to decide on evictions as if one had succeeded. *)
Theorem exhausted_retries_ignored (now : Time) (ans : apiAnswers) (node : Node) (prev : attempt) (nc : NodeController) :
  lawful ans → (∀ rep, getNode ans (node_Name node) rep ≠ None) →
  let '(_, _, a, _) := updateLoop nodeStatusUpdateRetry 0 now ans node (mkAttempt 0 (at_last prev) None false) nc in at_err a = false.
Proof. intros Hans Hget. by apply (updateLoop_no_err now ans (node_Name node)); [apply lawful_gets|..]. Qed.

(** ** Concrete runs *)
Module Demo.
#[local] Existing Instance canonical_order.
#[local] Existing Instance canonical_sort.

Definition second : Z := 10 ^ 9.

Definition heard (status : string) (heartbeat transition : Z) : list NodeCondition :=
  [mkNodeCondition NodeReady status (heartbeat * second) (transition * second) "" ""; mkNodeCondition NodeOutOfDisk ConditionFalse 0 0 "" ""].
Definition node (conditions : list NodeCondition) : Node := mkNode "n1" 0 "" conditions "v1.2.0" "" ∅ ∅.

Definition answers_with (ok : bool) (nodes : list Node) (pods : list Pod) : apiAnswers :=
  mkAnswers (Some nodes) (λ n _, head (filter (λ node, node_Name node = n) nodes)) (λ _ _, ok)
    (λ n, head (filter (λ node, node_Name node = n) nodes)) (λ _, true) (λ _, true) (λ _, Some pods) (λ _ _, true) (λ _ _, true) None.
Definition answers (nodes : list Node) : apiAnswers := answers_with true nodes [].

Lemma answers_lawful ok nodes pods : NoDup (node_Name <$> nodes) → lawful (answers_with ok nodes pods).
Proof.
  intros Hnd. split; [|by intros nodes' [= <-]]. intros n rep node' E.
  by apply (sight_Some (answers_with ok nodes pods)) in E as [? _].
Qed.

(** Five minutes to eviction, forty seconds of grace. *)
Definition start : NodeController :=
  NewNodeController (300 * second) (40 * second) (60 * second) (Some (10, 244, 0, 0)) false (NewStore (λ pod, Ok (Name pod)))
    (NewStore (λ node, Ok (node_Name node))) (NewStore (λ ds, Ok (ds_Name ds))).

Definition pass (t : Z) (ans : apiAnswers) (nc : NodeController) : NodeController * list apiCall :=
  match monitorNodeStatus (t * second) ans nc with Returns (nc, calls, _) => (nc, calls) | Panics => (nc, []) end.

Definition runs (l : list (Z * apiAnswers)) : list Pass * NodeController :=
  foldl (λ '(h, nc) p, let '(nc, calls) := pass p.1 p.2 nc in (h ++ [mkPass (p.1 * second) p.2 calls], nc)) ([], start) l.
Definition history (l : list (Z * apiAnswers)) : list Pass := (runs l).1.
Definition passes (l : list (Z * apiAnswers)) : NodeController := (runs l).2.

Lemma runs_snoc l t ans : history (l ++ [(t, ans)]) = history l ++ [mkPass (t * second) ans (pass t ans (passes l)).2] ∧
  passes (l ++ [(t, ans)]) = (pass t ans (passes l)).1.
Proof.
  unfold history, passes, runs. rewrite foldl_snoc. destruct (foldl _ _ l) as [h nc]. cbn. by destruct (pass t ans nc).
Qed.

Lemma history_past t l p : Forall (λ p, p.1 <= t) l → p ∈ history l → pass_now p <= t * second.
Proof.
  induction l as [|[t' ans] l IH] using rev_ind; [by intros _ ?%elem_of_nil|]. intros [Hl [Ht _]%Forall_cons]%Forall_app.
  rewrite (proj1 (runs_snoc l t' ans)). intros [?| ->%list_elem_of_singleton]%elem_of_app; [by apply IH|]. cbn in *. unfold second. lia.
Qed.

Lemma passes_run l t ans : run (history l) (passes l) → lawful ans → listNodes ans ≠ None → Forall (λ p, p.1 <= t) l →
  run (history (l ++ [(t, ans)])) (passes (l ++ [(t, ans)])).
Proof.
  intros Hrun Hans Hlist Ht. destruct (runs_snoc l t ans) as [-> ->]. pose proof (λ p, history_past t l p Ht) as Hpast.
  destruct (listNodes ans) as [nodes|] eqn:E; [|done]. destruct (run_is_ok _ _ Hrun) as [Hok Hdata _ Hcidr].
  destruct (monitor_returns (t * second) ans (passes l) (history l) nodes) as (nc' & calls & Em); [done..|].
  unfold pass. rewrite Em. by eapply run_pass.
Qed.

(** The node is heard of at the beginning, and then no more. *)
Definition silence : list (Z * apiAnswers) :=
  [(0, answers [node (heard ConditionTrue 0 0)]); (45, answers [node (heard ConditionTrue 0 0)]); (301, answers [node (heard ConditionUnknown 0 45)])].

Lemma silence_run : run (history silence) (passes silence).
Proof.
  assert (∀ cs, lawful (answers [node cs])) as Hc by (intros cs; apply answers_lawful, NoDup_singleton).
  apply (passes_run (take 2 silence)); [|apply Hc|done|by repeat constructor].
  apply (passes_run (take 1 silence)); [|apply Hc|done|by repeat constructor].
  apply (passes_run []); [by apply run_new|apply Hc|done|constructor].
Qed.

(** The update of the status of a node that seems silent fails, and the node that is read
    again has been heard of. *)
Definition behind : apiAnswers :=
  mkAnswers (Some [node (heard ConditionTrue 0 0)]) (λ n _, if decide (n = "n1") then Some (node (heard ConditionTrue 340 0)) else None)
    (λ _ _, false) (λ _, None) (λ _, true) (λ _, true) (λ _, Some []) (λ _ _, true) (λ _ _, true) None.
(** A kubelet that is heard of at 1000 and 1010 seconds, the second time without the condition. *)
Definition removal : list (Z * apiAnswers) :=
  [(1000, answers [node (heard ConditionTrue 1000 0)]); (1010, answers [node []]); (1020, answers [node (heard ConditionUnknown 0 1010)])].

(** A pod of the node that a user is deleting, with half a minute of grace. *)
Definition pod (grace : option Z) : Pod :=
  mkPod "ns" "web-1" ∅ "n1" PodRunning [] [] 1 None "uid" "1" ∅ "" [] grace.
Definition evict (t : Z) (nc : NodeController) : NodeController :=
  (evictAction (t * second) (answers_with true [] [pod None]) (mkTimedValue "n1" (t * second) (t * second)) nc).2.1.
End Demo.

#[local] Existing Instance canonical_order.
#[local] Existing Instance canonical_sort.

(** The node is evicted twenty seconds after it was heard of, although the timeout is five
    minutes. *)
Example removed_condition_evicts : evicting (Demo.passes Demo.removal) !! "n1" =
  Some (mkTimedValue "n1" (1020 * Demo.second) (1020 * Demo.second)).
Proof. by vm_compute. Qed.

(** Five updates fail, and the node is evicted all the same. *)
Example evicts_after_failed_updates :
  match monitorNodeStatus (400 * Demo.second) (Demo.answers_with false [Demo.node (Demo.heard ConditionFalse 10 10)] [])
    (Demo.passes [(20, Demo.answers [Demo.node (Demo.heard ConditionFalse 10 10)])]) with
  | Returns (nc, calls, _) => length calls = 5%nat ∧ is_Some (evicting nc !! "n1")
  | Panics => False
  end.
Proof. vm_compute. eauto. Qed.

(** A second eviction of the node does not restart the clock of the terminator: a pod that
    has half a minute from 400 seconds on is killed one second later. *)
Example killed_early :
  terminatePods (401 * Demo.second) (Demo.answers_with true [] [Demo.pod (Some 30)]) "n1"
    (default 0 (AddedAt <$> terminating (Demo.evict 400 (Demo.evict 301 Demo.start)) !! "n1")) Demo.start =
  Some (true, 0, [DeletePod "ns" "web-1" (Some 0) true]).
Proof. by vm_compute. Qed.

(** The range of the 257th node of the cluster 10.244.0.0/16 is outside of it. *)
Example range_outside_cluster : podCIDR (10, 244, 0, 0) 256 = "10.245.0.0/24".
Proof. by vm_compute. Qed.

(** A node that got a range since the list is given another one. *)
Example range_overwritten :
  let ans := mkAnswers None (λ _ _, None) (λ _ _, true) (λ _, Some (with_PodCIDR "10.244.7.0/24" (Demo.node []))) (λ _, true) (λ _, true)
    (λ _, None) (λ _ _, true) (λ _ _, true) None in
  @reconcileNodeCIDRs canonical_order ans [Demo.node []] Demo.start =
    Returns [UpdateNode (with_PodCIDR "10.244.0.0/24" (Demo.node [])) true].
Proof. by vm_compute. Qed.

(** ** Witnesses *)
Lemma evictions_justified_witness :
  @run canonical_order canonical_sort (Demo.history Demo.silence) (Demo.passes Demo.silence) ∧
  evicting (Demo.passes Demo.silence) !! "n1" = Some (mkTimedValue "n1" (301 * Demo.second) (301 * Demo.second)) ∧
  ∃ h1 p h2, Demo.history Demo.silence = h1 ++ p :: h2 ∧ pass_now p = 301 * Demo.second ∧
    eviction_due (podEvictionTimeout (Demo.passes Demo.silence)) h1 p "n1".
Proof.
  assert (evicting (Demo.passes Demo.silence) !! "n1" = Some (mkTimedValue "n1" (301 * Demo.second) (301 * Demo.second))) as E by (by vm_compute).
  split; [exact Demo.silence_run|]. split; [exact E|].
  exact (evictions_justified canonical_order canonical_sort _ _ Demo.silence_run "n1" _ E).
Defined.

(** The silent node is listed as it was, but has been heard of: the first update of its status fails, and the
    version that is read then is ready. *)
Lemma monitor_pass_effects_witness :
  ∃ nc' calls, @monitorNodeStatus canonical_order (345 * Demo.second) Demo.behind (Demo.passes Demo.silence) = Returns (nc', calls, false) ∧
    failures "n1" calls = 1%nat ∧ evicting nc' !! "n1" = None ∧ terminating nc' !! "n1" = None.
Proof.
  destruct (monitor_pass_effects canonical_order canonical_sort _ _ (345 * Demo.second) Demo.behind [Demo.node (Demo.heard ConditionTrue 0 0)]
    Demo.silence_run) as (nc' & calls & E & _ & _ & Hr).
  - split; [intros n rep node; cbn; case_decide; [by intros [= <-]|done]|intros nodes [= <-]; apply NoDup_singleton].
  - intros p Hp. transitivity (301 * Demo.second); [|by vm_compute]. apply (Demo.history_past 301 Demo.silence); [by repeat constructor|done].
  - done.
  - exists nc', calls. split; [exact E|].
    assert (calls = (match @monitorNodeStatus canonical_order (345 * Demo.second) Demo.behind (Demo.passes Demo.silence) with
      Returns (_, calls, _) => calls | Panics => [] end)) as Ec by (by rewrite E). clear E.
    assert (failures "n1" calls = 1%nat) as Ef by (rewrite Ec; vm_compute; reflexivity). split; [exact Ef|].
    apply (Hr "n1" (Demo.node (Demo.heard ConditionTrue 340 0)) (mkNodeCondition NodeReady ConditionTrue (340 * Demo.second) 0 "" "")).
    + unfold versions, attempted. cbn [pass_answers pass_calls]. change (sight "n1" Demo.behind) with (Some (Demo.node (Demo.heard ConditionTrue 0 0))).
      cbn [node_Name Demo.node]. rewrite Ef. done.
    + done.
    + done.
    + intros rep _. by vm_compute.
Defined.

(** Two nodes without a range, and one whose range is the cluster's first. *)
Lemma cidrs_unique_witness :
  let named := λ name cidr, mkNode name 0 cidr [] "v1.2.0" "" ∅ ∅ in
  let nodes := [named "n1" ""; named "n2" "10.244.0.0/24"; named "n3" ""] in
  let ans := Demo.answers nodes in
  ∃ cidrs, @reconcileNodeCIDRs canonical_order ans nodes Demo.start = Returns (zip_with (assignment ans) (wanting ans nodes) cidrs) ∧
    length cidrs = 2%nat ∧ NoDup cidrs ∧ ∀ c, c ∈ cidrs → "10.244.0.0/24" ≠ c.
Proof.
  intros named nodes ans. destruct (cidrs_unique canonical_order ans nodes Demo.start (10, 244, 0, 0)) as (cidrs & E & Hl & Hnd & Hfree);
    [done|by vm_compute|].
  exists cidrs. split; [exact E|]. split; [exact Hl|]. split; [exact Hnd|].
  intros c Hc. exact (Hfree c (named "n2" "10.244.0.0/24") Hc ltac:(right; left)).
Defined.

(** Of two pods of the node, one is being deleted. *)
Lemma deletePods_spec_witness :
  let pods := [Demo.pod (Some 30); Demo.pod None] in
  let '(remaining, err, calls) := @deletePods canonical_order canonical_sort (Demo.answers_with true [] pods) "n1" Demo.start in
  err = false ∧ calls = [DeletePod "ns" "web-1" None true] ∧ remaining = true.
Proof.
  intros pods. pose proof (deletePods_spec canonical_order canonical_sort (Demo.answers_with true [] pods) "n1" pods Demo.start eq_refl) as H.
  destruct (deletePods _ _ _) as [[remaining err] calls] eqn:E. assert (err = false) as -> by (vm_compute in E; congruence).
  destruct H as (_ & -> & H). split; [reflexivity|]. split; [by vm_compute|]. apply H. by vm_compute.
Defined.

(** Ninety seconds after the node is queued, with a maximum of five minutes, the pod with
    half a minute is killed and the pod with ten minutes has until the maximum. *)
Lemma terminatePods_spec_witness :
  let nc := NewNodeController (300 * Demo.second) 0 0 None false (podStore Demo.start) (nodeStore Demo.start) (daemonSetStore Demo.start) in
  let pods := [Demo.pod (Some 30); Demo.pod (Some 600)] in
  ∃ complete next, terminatePods (490 * Demo.second) (Demo.answers_with true [] pods) "n1" (400 * Demo.second) nc =
      Some (complete, next, [DeletePod "ns" "web-1" (Some 0) true]) ∧
    complete ≠ true ∧ 210 * Demo.second <= next.
Proof.
  intros nc pods.
  assert (terminable nc (490 * Demo.second - 400 * Demo.second) pods) as Ht.
  { split; [by vm_compute|by vm_compute|]. intros pod seconds [->| ->%list_elem_of_singleton]%elem_of_cons [= <-]; by vm_compute. }
  destruct (terminatePods_spec canonical_order (490 * Demo.second) (400 * Demo.second) (Demo.answers_with true [] pods) "n1" pods nc eq_refl Ht)
    as (complete & next & E & Hc & Hall & _ & _).
  exists complete, next. split; [exact E|]. split.
  - intros Htrue. apply Hc in Htrue as [Htrue _]. revert Htrue. by vm_compute.
  - refine (Hall (Demo.pod (Some 600)) _). apply list_elem_of_filter. split; [by vm_compute|]. right. left.
Defined.

(** A node whose status has lost its conditions. *)
Lemma missing_condition_resets_witness :
  let '(nc, _, _, saved) := observeStatus 5 (Demo.node []) Demo.start in saved = mkData 0 0 [] ∧ nodeStatusMap nc !! "n1" = Some saved.
Proof. exact (missing_condition_resets 5 (Demo.node []) Demo.start eq_refl). Defined.

(** Every update fails, and every get succeeds. *)
Lemma exhausted_retries_ignored_witness :
  let node := Demo.node (Demo.heard ConditionFalse 10 10) in
  let '(_, _, a, _) := updateLoop nodeStatusUpdateRetry 0 (400 * Demo.second) (Demo.answers_with false [node] []) node
    (mkAttempt 0 (mkNodeCondition "" "" 0 0 "" "") None false) Demo.start in at_err a = false.
Proof.
  intros node. refine (exhausted_retries_ignored (400 * Demo.second) (Demo.answers_with false [node] []) node
    (mkAttempt 0 (mkNodeCondition "" "" 0 0 "" "") None false) Demo.start _ _).
  - apply Demo.answers_lawful, NoDup_singleton.
  - intros rep. by vm_compute.
Defined.
