(* ===== verification/Job.v ===== *)
(** * The job controller

    [pkg/controller/job/controller.go], with [GetPodJobs] of
    [pkg/client/cache/listers.go]: a job runs pods, at most [Parallelism] at a time,
    until [Completions] of them have succeeded, or any of them when that is nil.

    A sync runs at one instant [now]; the API server's answers are an argument.  A
    call through a nil pointer or nil interface, or an index out of range, is
    [Panics].  Start-up ([NewJobController], [Run]) is the wiring of informers to the
    handlers, and events that are only recorded are left out. *)

From S2P Require Import Prelude.
From S2P Require Import ThreadSafeStore.
From S2P Require Import Store.
From S2P Require Import WorkQueue.
From S2P Require Import Informer.
From S2P Require Import Labels.
From S2P Require Import Expectations.
From S2P Require Import Pods.
From S2P Require Import Listers.
#[local] Open Scope Z_scope.

(** ** Data *)

Definition JobComplete : string := "Complete".
Definition JobFailed : string := "Failed".

Record JobCondition := mkJobCondition {
  jc_Type : string;
  jc_Status : string;
  jc_LastProbeTime : Time;
  jc_LastTransitionTime : Time;
  jc_Reason : string;
  jc_Message : string;
}.

Record JobStatus := mkJobStatus {
  js_Conditions : list JobCondition;
  js_StartTime : option Time;
  js_CompletionTime : option Time;
  js_Active : Z;
  js_Succeeded : Z;
  js_Failed : Z;
}.

(** [Parallelism], [Completions] and [ActiveDeadlineSeconds] are pointers. *)
Record Job := mkJob {
  job_Namespace : string;
  job_Name : string;
  job_CreationTimestamp : Time;
  job_Parallelism : option Z;
  job_Completions : option Z;
  job_ActiveDeadlineSeconds : option Z;
  job_Selector : option LabelSelector;
  job_Status : JobStatus;
}.

#[export] Instance job_meta : ObjectMeta Job := {|
  GetNamespace := job_Namespace;
  GetName := job_Name;
  GetResourceVersion := λ _, "";
|}.

Definition with_Status (st : JobStatus) (job : Job) : Job :=
  mkJob (job_Namespace job) (job_Name job) (job_CreationTimestamp job) (job_Parallelism job) (job_Completions job)
    (job_ActiveDeadlineSeconds job) (job_Selector job) st.

Inductive apiCall :=
  | CreatePods (namespace jobName : string) (ok : bool)
  | DeletePod (namespace podName : string) (ok : bool)
  | UpdateStatus (job : Job) (ok : bool).

(** What the API server answers: to the i-th creation, to the deletion of a pod, and
    to the update of the status. *)
Record apiAnswers := mkAnswers {
  createOk : nat → bool;
  deleteOk : string → bool;
  updateOk : bool;
}.

Record JobController := mkJobController {
  expectations : ControllerExpectations;
  jobStore : cache Job;
  podStore : cache Pod;
  podStoreSynced : bool;
  queue : Queue string;
}.

Definition with_expectations (r : ControllerExpectations) (s : JobController) : JobController :=
  mkJobController r (jobStore s) (podStore s) (podStoreSynced s) (queue s).
Definition with_queue (q : Queue string) (s : JobController) : JobController :=
  mkJobController (expectations s) (jobStore s) (podStore s) (podStoreSynced s) q.
Definition with_podStore (st : cache Pod) (s : JobController) : JobController :=
  mkJobController (expectations s) (jobStore s) st (podStoreSynced s) (queue s).
Definition with_jobStore (st : cache Job) (s : JobController) : JobController :=
  mkJobController (expectations s) st (podStore s) (podStoreSynced s) (queue s).
Definition with_synced (s : JobController) : JobController :=
  mkJobController (expectations s) (jobStore s) (podStore s) true (queue s).

(** [byCreationTimestamp.Less] *)
Definition byCreationTimestamp_Less (a b : Job) : bool :=
  if job_CreationTimestamp a =? job_CreationTimestamp b then string_lt (job_Name a) (job_Name b)
  else job_CreationTimestamp a <? job_CreationTimestamp b.

(** ** Status *)

Fixpoint isJobFinishedLoop (conditions : list JobCondition) : bool :=
  match conditions with
  | [] => false
  | c :: conditions =>
      if (bool_decide (jc_Type c = JobComplete) || bool_decide (jc_Type c = JobFailed)) &&
         bool_decide (jc_Status c = ConditionTrue)
      then true else isJobFinishedLoop conditions
  end.

Definition isJobFinished (job : Job) : bool := isJobFinishedLoop (js_Conditions (job_Status job)).

Definition filterPods (pods : list Pod) (phase : string) : Z :=
  foldl (λ result pod, if bool_decide (phase = Phase pod) then result + 1 else result) 0 pods.

Definition getStatus (pods : list Pod) : Z * Z := (filterPods pods PodSucceeded, filterPods pods PodFailed).

Definition newCondition (now : Time) (conditionType reason message : string) : JobCondition :=
  mkJobCondition conditionType ConditionTrue now now reason message.

(** [time.Sub] saturates. *)
Definition time_Sub (t u : Time) : Z := Z.max (- 2 ^ 63) (Z.min (2 ^ 63 - 1) (t - u)).

Definition pastActiveDeadline (now : Time) (job : Job) : bool :=
  match job_ActiveDeadlineSeconds job, js_StartTime (job_Status job) with
  | Some seconds, Some start =>
      let duration := time_Sub now start in
      let allowedDuration := int64 (seconds * 10 ^ 9) in
      allowedDuration <=? duration
  | _, _ => false
  end.

Section controller.
Context `{R : RangeOrder} `{K : KeySort} `{jobSort : !Sorts byCreationTimestamp_Less} `{podSort : !Sorts Less}.
Implicit Types (s : JobController) (job : Job) (pod : Pod).

Definition NewJobController : JobController :=
  mkJobController NewControllerExpectations (NewStore (λ o, Ok (keyOf o))) (NewStore (λ o, Ok (keyOf o))) false WorkQueue.New.

(** ** Finding the job of a pod

    The error of [LabelSelectorAsSelector] is dropped, and the selector that comes
    with it is nil. *)
Fixpoint podJobsLoop (pod : Pod) (l jobs : list Job) : outcome (list Job) :=
  match l with
  | [] => Returns jobs
  | job :: l =>
      if bool_decide (job_Namespace job ≠ Namespace pod) then podJobsLoop pod l jobs
      else
        match LabelSelectorAsSelector (job_Selector job) with
        | Err _ => Panics
        | Ok selector =>
            if negb (Labels.Matches selector (pod_Labels pod)) then podJobsLoop pod l jobs
            else podJobsLoop pod l (jobs ++ [job])
        end
  end.

Definition GetPodJobs (store : cache Job) (pod : Pod) : outcome (list Job * option string) :=
  if Nat.eqb (size (pod_Labels pod)) 0 then Returns ([], Some "no jobs found for pod because it has no labels")
  else
    match podJobsLoop pod (Store.List store) [] with
    | Panics => Panics
    | Returns jobs =>
        Returns (jobs, if Nat.eqb (length jobs) 0 then Some "could not find jobs for pod" else None)
    end.

Definition getPodJob pod s : outcome (option Job) :=
  match GetPodJobs (jobStore s) pod with
  | Panics => Panics
  | Returns (_, Some _) => Returns None
  | Returns (jobs, None) =>
      let jobs := if Nat.ltb 1 (length jobs) then sort byCreationTimestamp_Less jobs else jobs in
      match jobs with job :: _ => Returns (Some job) | [] => Panics end
  end.

(** ** Handlers *)

Definition enqueueController (obj : iface Job) s : JobController :=
  match DeletionHandlingMetaNamespaceKeyFunc obj with
  | Err _ => s
  | Ok key => with_queue (WorkQueue.Add key (queue s)).1 s
  end.

(** [UpdateFunc] of the job informer. *)
Definition updateJob (cur : Job) s : JobController :=
  if negb (isJobFinished cur) then enqueueController (IObj cur) s else s.

Definition deletePodOf pod s : outcome JobController :=
  match getPodJob pod s with
  | Panics => Panics
  | Returns None => Returns s
  | Returns (Some job) =>
      match DeletionHandlingMetaNamespaceKeyFunc (IObj job) with
      | Err _ => Returns s
      | Ok jobKey =>
          Returns (enqueueController (IObj job) (with_expectations (DeletionObserved jobKey (expectations s)) s))
      end
  end.

Definition deletePod (obj : iface Pod) s : outcome JobController :=
  match obj with
  | IObj pod => deletePodOf pod s
  | IDeletedFinalStateUnknown _ (Some (IObj pod)) => deletePodOf pod s
  | _ => Returns s
  end.

Definition addPod pod s : outcome JobController :=
  match DeletionTimestamp pod with
  | Some _ => deletePod (IObj pod) s
  | None =>
      match getPodJob pod s with
      | Panics => Panics
      | Returns None => Returns s
      | Returns (Some job) =>
          match DeletionHandlingMetaNamespaceKeyFunc (IObj job) with
          | Err _ => Returns s
          | Ok jobKey =>
              Returns (enqueueController (IObj job) (with_expectations (CreationObserved jobKey (expectations s)) s))
          end
      end
  end.

(** The job of a pod, if there is one, is queued. *)
Definition enqueueJobOf pod s : outcome JobController :=
  match getPodJob pod s with
  | Panics => Panics
  | Returns None => Returns s
  | Returns (Some job) => Returns (enqueueController (IObj job) s)
  end.

(** [same]: the objects are deeply equal. *)
Definition updatePod (same : bool) (oldPod curPod : Pod) s : outcome JobController :=
  if same then Returns s
  else
    match DeletionTimestamp curPod with
    | Some _ => deletePod (IObj curPod) s
    | None =>
        match enqueueJobOf curPod s with
        | Panics => Panics
        | Returns s => if bool_decide (pod_Labels curPod ≠ pod_Labels oldPod) then enqueueJobOf oldPod s else Returns s
        end
    end.

(** ** Syncing *)

(** The goroutines: a call that fails lowers the expectation again. *)
Fixpoint deleteLoop job (jobKey : string) (answers : string → bool) (pods : list Pod) (active : Z)
    (r : ControllerExpectations) : ControllerExpectations * list apiCall * Z :=
  match pods with
  | [] => (r, [], active)
  | pod :: pods =>
      let ok := answers (Name pod) in
      let r := if ok then r else DeletionObserved jobKey r in
      let active := if ok then active else active + 1 in
      let '(r, calls, active) := deleteLoop job jobKey answers pods active r in
      (r, DeletePod (job_Namespace job) (Name pod) ok :: calls, active)
  end.

Fixpoint createLoop job (jobKey : string) (answers : nat → bool) (i n : nat) (active : Z)
    (r : ControllerExpectations) : ControllerExpectations * list apiCall * Z :=
  match n with
  | O => (r, [], active)
  | S n =>
      let ok := answers i in
      let r := if ok then r else CreationObserved jobKey r in
      let active := if ok then active else active - 1 in
      let '(r, calls, active) := createLoop job jobKey answers (S i) n active r in
      (r, CreatePods (job_Namespace job) (job_Name job) ok :: calls, active)
  end.

(** How many pods should be active, when there are fewer than [parallelism]. *)
Definition wantActiveOf job (parallelism active succeeded : Z) : Z :=
  match job_Completions job with
  | None => if 0 <? succeeded then active else parallelism
  | Some completions =>
      let wantActive := int64 (completions - succeeded) in
      if parallelism <? wantActive then parallelism else wantActive
  end.

(** The expectations, the calls, and the number of active pods that is returned. *)
Definition manageJob (now : Time) (answers : apiAnswers) (activePods : list Pod) (succeeded : Z) job
    (r : ControllerExpectations) : outcome (ControllerExpectations * list apiCall * Z) :=
  let active := Z.of_nat (length activePods) in
  match job_Parallelism job with
  | None => Panics
  | Some parallelism =>
      match DeletionHandlingMetaNamespaceKeyFunc (IObj job) with
      | Err _ => Returns (r, [], 0)
      | Ok jobKey =>
          if parallelism <? active then
            let diff := int64 (active - parallelism) in
            let r := (ExpectDeletions now jobKey diff r).1 in
            let activePods := sort Less activePods in
            if Nat.ltb (length activePods) (Z.to_nat diff) || (diff <? 0) then Panics
            else Returns (deleteLoop job jobKey (deleteOk answers) (take (Z.to_nat diff) activePods) (active - diff) r)
          else if active <? parallelism then
            let wantActive := wantActiveOf job parallelism active succeeded in
            let diff := int64 (wantActive - active) in
            let diff := if diff <? 0 then 0 else diff in
            let r := (ExpectCreations now jobKey diff r).1 in
            Returns (createLoop job jobKey (createOk answers) 0 (Z.to_nat diff) (int64 (active + diff)) r)
          else Returns (r, [], active)
      end
  end.

(** [podStore.Pods(namespace).List(selector)], where the selector may be nil: it is
    called for every pod of the namespace. *)
Definition listJobPods (store : cache Pod) (namespace : string) (selector : result string Selector) : outcome (list Pod) :=
  match selector with
  | Ok selector => Returns (listPods store namespace selector)
  | Err _ =>
      if existsb (λ pod, bool_decide (namespace = NamespaceAll) || bool_decide (namespace = Namespace pod)) (Store.List store)
      then Panics else Returns []
  end.

(** Completeness, after the pods were managed. *)
Definition isComplete job (succeeded active : Z) : bool :=
  match job_Completions job with
  | None => (0 <? succeeded) && (active =? 0)
  | Some completions => completions <=? succeeded
  end.

(** The part of [syncJob] that acts: the expectations, the calls, the numbers of active
    and failed pods, and the conditions and completion time. *)
Definition runJob (now : Time) (answers : apiAnswers) (jobNeedsSync : bool) (activePods : list Pod)
    (succeeded failed : Z) job (r : ControllerExpectations) :
    outcome (ControllerExpectations * list apiCall * Z * Z * list JobCondition * option Time) :=
  let active := Z.of_nat (length activePods) in
  let conditions := js_Conditions (job_Status job) in
  let completionTime := js_CompletionTime (job_Status job) in
  if pastActiveDeadline now job then
    let calls := (λ pod, DeletePod (job_Namespace job) (Name pod) (deleteOk answers (Name pod))) <$> activePods in
    Returns (r, calls, 0, failed + active,
      conditions ++ [newCondition now JobFailed "DeadlineExceeded" "Job was active longer than specified deadline"], completionTime)
  else
    match (if jobNeedsSync then manageJob now answers activePods succeeded job r else Returns (r, [], active)) with
    | Panics => Panics
    | Returns (r, calls, active) =>
        if isComplete job succeeded active
        then Returns (r, calls, active, failed, conditions ++ [newCondition now JobComplete "" ""], Some now)
        else Returns (r, calls, active, failed, conditions, completionTime)
    end.

Definition syncJob (now : Time) (answers : apiAnswers) (key : string) s : outcome (JobController * list apiCall) :=
  if negb (podStoreSynced s) then Returns (with_queue (WorkQueue.Add key (queue s)).1 s, [])
  else
    match Store.GetByKey key (jobStore s) with
    | Ok None | Err _ => Returns (with_expectations (DeleteExpectations key (expectations s)) s, [])
    | Ok (Some job) =>
        match DeletionHandlingMetaNamespaceKeyFunc (IObj job) with
        | Err _ => Returns (s, [])
        | Ok jobKey =>
            let jobNeedsSync := SatisfiedExpectations now jobKey (expectations s) in
            match listJobPods (podStore s) (job_Namespace job) (LabelSelectorAsSelector (job_Selector job)) with
            | Panics => Panics
            | Returns podList =>
                let activePods := FilterActivePods podList in
                let '(succeeded, failed) := getStatus podList in
                let st := job_Status job in
                let startTime := match js_StartTime st with None => Some now | t => t end in
                let job := with_Status (mkJobStatus (js_Conditions st) startTime (js_CompletionTime st)
                  (js_Active st) (js_Succeeded st) (js_Failed st)) job in
                if isJobFinished job then Returns (s, [])
                else
                  match runJob now answers jobNeedsSync activePods succeeded failed job (expectations s) with
                  | Panics => Panics
                  | Returns (r, calls, active, failed, conditions, completionTime) =>
                      let s := with_expectations r s in
                      if negb (js_Active st =? active) || negb (js_Succeeded st =? succeeded) || negb (js_Failed st =? failed) ||
                         negb (Nat.eqb (length conditions) (length (js_Conditions st)))
                      then
                        let job := with_Status (mkJobStatus conditions startTime completionTime active succeeded failed) job in
                        let s := if updateOk answers then s else enqueueController (IObj job) s in
                        Returns (s, calls ++ [UpdateStatus job (updateOk answers)])
                      else Returns (s, calls)
                  end
            end
        end
    end.

(** One turn of a worker: [None] when it would wait, or the queue has shut down. *)
Definition processNext (now : Time) (answers : apiAnswers) s : option (outcome (JobController * list apiCall)) :=
  match WorkQueue.Get (queue s) with
  | (q, Got key) => Some
      match syncJob now answers key (with_queue q s) with
      | Panics => Panics
      | Returns (s, calls) => Returns (with_queue (WorkQueue.Done key (queue s)).1 s, calls)
      end
  | _ => None
  end.

(** ** The informers: the store changes first, then the handler runs. *)
Definition observeAdd pod s : outcome JobController := addPod pod (with_podStore (Store.Add pod (podStore s)).1 s).
Definition observeUpdate (same : bool) (old cur : Pod) s : outcome JobController :=
  updatePod same old cur (with_podStore (Store.Update cur (podStore s)).1 s).
Definition observeDelete (obj : iface Pod) s : outcome JobController :=
  match DeletionHandlingMetaNamespaceKeyFunc obj with
  | Err _ => Returns s
  | Ok k => deletePod obj (with_podStore (mkCache (ThreadSafeStore.Delete k (cacheStorage (podStore s))) (keyFunc (podStore s))) s)
  end.
Definition observeJob (cur : Job) s : JobController := updateJob cur (with_jobStore (Store.Update cur (jobStore s)).1 s).
End controller.

(** The same object, but for its status and times. *)
Definition same_spec (job job' : Job) : Prop :=
  job_Namespace job = job_Namespace job' ∧ job_Name job = job_Name job' ∧ job_Selector job = job_Selector job' ∧
  job_Parallelism job = job_Parallelism job' ∧ job_Completions job = job_Completions job'.

(** A controller, and how many pods the server made for a job that it has not seen. *)
Record Cluster := mkCluster { ctl : JobController; unseen : nat }.

(** ** Facts *)
Section facts.
Context `{R : RangeOrder} `{K : KeySort} `{jobSort : !Sorts byCreationTimestamp_Less} `{podSort : !Sorts Less}.
Implicit Types (s : JobController) (job : Job) (pod : Pod) (r : ControllerExpectations).

(** The pods that a job's selector chooses, those of them that run, and those that count
    towards its completions. *)
Definition jobmine job pod : bool :=
  bool_decide (job_Namespace job = Namespace pod) &&
  match LabelSelectorAsSelector (job_Selector job) with Ok selector => Labels.Matches selector (pod_Labels pod) | Err _ => false end.
Definition running job pod : bool := jobmine job pod && IsPodActive pod.
Definition counted job pod : bool := jobmine job pod && (IsPodActive pod || bool_decide (PodSucceeded = Phase pod)).

Lemma filterPods_length pods phase : filterPods pods phase = Z.of_nat (length (filter (λ pod, phase = Phase pod) pods)).
Proof.
  unfold filterPods. induction pods as [|pod pods IH] using rev_ind; [done|].
  rewrite foldl_snoc, filter_app, length_app, IH. destruct (decide (phase = Phase pod)) as [E|E].
  - rewrite bool_decide_eq_true_2, filter_cons_True by done. cbn. lia.
  - rewrite bool_decide_eq_false_2, filter_cons_False by done. cbn. lia.
Qed.

(** What [syncJob] lists and counts. *)
Lemma listed_counts job selector store : job_Namespace job ≠ NamespaceAll →
  LabelSelectorAsSelector (job_Selector job) = Ok selector →
  let pods := listPods store (job_Namespace job) selector in
  length (FilterActivePods pods) = inStore (running job) store ∧
  Z.of_nat (length (FilterActivePods pods)) + filterPods pods PodSucceeded = Z.of_nat (inStore (counted job) store).
Proof.
  intros Hns Hsel pods. unfold pods. rewrite FilterActivePods_filter, filterPods_length, listPods_filter by done.
  assert (∀ pod, jobmine job pod = bool_decide (job_Namespace job = Namespace pod) && Labels.Matches selector (pod_Labels pod)) as Hm.
  { intros pod. unfold jobmine. by rewrite Hsel. }
  assert (∀ P : Pod → bool, length (filter (λ pod, P pod = true) (Store.List store)) = inStore P store) as Hlen.
  { intros P. exact (length_filter_range_values (items (cacheStorage store)) (λ pod, P pod = true)). }
  rewrite !list_filter_filter, <- !Hlen. split.
  - f_equal. apply list_filter_iff. intros pod. unfold running. rewrite Hm, !andb_true_iff. tauto.
  - generalize (Store.List store) as l. intros l. induction l as [|pod l IH]; [done|]. rewrite !filter_cons.
    assert (counted job pod = true ↔ (IsPodActive pod = true ∨ PodSucceeded = Phase pod) ∧ bool_decide (job_Namespace job = Namespace pod) &&
      Labels.Matches selector (pod_Labels pod) = true) as Hc.
    { unfold counted. rewrite Hm, andb_true_iff, orb_true_iff, bool_decide_eq_true. tauto. }
    assert (IsPodActive pod = true → PodSucceeded ≠ Phase pod) as Ha.
    { unfold IsPodActive. rewrite !andb_true_iff, !bool_decide_eq_true. tauto. }
    repeat case_decide; cbn [length]; try lia; exfalso; tauto.
Qed.

(** The active pods and those that have succeeded are different ones. *)
Lemma listed_fits pods : 0 <= filterPods pods PodSucceeded ∧
  filterPods pods PodSucceeded + Z.of_nat (length (FilterActivePods pods)) <= Z.of_nat (length pods).
Proof.
  rewrite FilterActivePods_filter, filterPods_length. induction pods as [|pod pods [_ IH]]; [done|].
  rewrite !filter_cons. assert (IsPodActive pod = true → PodSucceeded ≠ Phase pod).
  { unfold IsPodActive. rewrite !andb_true_iff, !bool_decide_eq_true. tauto. }
  repeat case_decide; cbn [length]; try lia; tauto.
Qed.

(** ** Managing pods *)

Fixpoint createdPods (calls : list apiCall) : nat :=
  match calls with
  | [] => 0
  | CreatePods _ _ true :: calls => S (createdPods calls)
  | _ :: calls => createdPods calls
  end.

Lemma job_createdPods_app c1 c2 : createdPods (c1 ++ c2) = (createdPods c1 + createdPods c2)%nat.
Proof. induction c1 as [|[? ? []|?|?] c1 IH]; cbn; lia. Qed.

Lemma createdPods_le calls : (createdPods calls <= length calls)%nat.
Proof. induction calls as [|[? ? []|?|?] calls IH]; cbn; lia. Qed.

Lemma createdPods_deletions job answers pods :
  createdPods ((λ pod, DeletePod (job_Namespace job) (Name pod) (answers (Name pod))) <$> pods) = 0%nat.
Proof. by induction pods. Qed.

(** The creations that fail are observed at once, and not counted. *)
Lemma job_createLoop_ok job jobKey answers now d n : ∀ i active r a, ce_ok r →
  entry r jobKey = Some (mkExpectations (int64 a) d jobKey now) → (- 2 ^ 63 <= d < 2 ^ 63) →
  let '(r', calls, active') := createLoop job jobKey answers i n active r in
  ce_ok r' ∧ calls = (λ j, CreatePods (job_Namespace job) (job_Name job) (answers j)) <$> seq i n ∧
  (createdPods calls <= n)%nat ∧ active' = active - Z.of_nat (n - createdPods calls) ∧
  (∀ k, k ≠ jobKey → entry r' k = entry r k) ∧
  entry r' jobKey = Some (mkExpectations (int64 (a - Z.of_nat (n - createdPods calls))) d jobKey now).
Proof.
  induction n as [|n IH]; intros i active r a Hr He Hd; cbn [createLoop].
  { cbn. rewrite !Z.sub_0_r. split_and!; done. }
  destruct (CreationObserved_entry jobKey r Hr) as [Hr1 He1].
  specialize (IH (S i) (if answers i then active else active - 1) (if answers i then r else CreationObserved jobKey r)
    (if answers i then a else a - 1)).
  destruct (createLoop _ _ _ _ _ _ _) as [[r' calls] active']. destruct IH as (Hok & -> & Hle & -> & Hother & Hent).
  { by destruct (answers i). }
  { destruct (answers i); [done|]. rewrite He1, decide_True, He by done. cbn. unfold exp_Add. cbn.
    by rewrite int64_add_l, Z.add_0_r, (int64_id d) by lia. }
  { done. }
  split_and!; [done|done| | | |].
  - cbn. destruct (answers i); lia.
  - cbn -[Z.of_nat]. destruct (answers i); lia.
  - intros k Hk. rewrite Hother by done. destruct (answers i); [done|]. by rewrite He1, decide_False.
  - rewrite Hent. do 3 f_equal. cbn -[Z.of_nat]. destruct (answers i); lia.
Qed.

Fixpoint deletedPods (calls : list apiCall) : nat :=
  match calls with
  | [] => 0
  | DeletePod _ _ true :: calls => S (deletedPods calls)
  | _ :: calls => deletedPods calls
  end.

(** The deletions that fail are observed at once, and counted again. *)
Lemma job_deleteLoop_ok job jobKey answers now pods : ∀ active r d, ce_ok r →
  entry r jobKey = Some (mkExpectations 0 (int64 d) jobKey now) →
  let '(r', calls, active') := deleteLoop job jobKey answers pods active r in
  ce_ok r' ∧ calls = (λ pod, DeletePod (job_Namespace job) (Name pod) (answers (Name pod))) <$> pods ∧
  (deletedPods calls <= length pods)%nat ∧ active' = active + Z.of_nat (length pods - deletedPods calls) ∧
  (∀ k, k ≠ jobKey → entry r' k = entry r k) ∧
  entry r' jobKey = Some (mkExpectations 0 (int64 (d - Z.of_nat (length pods - deletedPods calls))) jobKey now).
Proof.
  induction pods as [|pod pods IH]; intros active r d Hr He; cbn [deleteLoop].
  { cbn. rewrite Z.sub_0_r, Z.add_0_r. split_and!; done. }
  destruct (DeletionObserved_entry jobKey r Hr) as [Hr1 He1].
  specialize (IH (if answers (Name pod) then active else active + 1) (if answers (Name pod) then r else DeletionObserved jobKey r)
    (if answers (Name pod) then d else d - 1)).
  destruct (deleteLoop _ _ _ _ _ _) as [[r' calls] active']. destruct IH as (Hok & -> & Hle & -> & Hother & Hent).
  { by destruct (answers (Name pod)). }
  { destruct (answers (Name pod)); [done|]. rewrite He1, decide_True, He by done. cbn. unfold exp_Add. cbn.
    by rewrite int64_add_l. }
  split_and!; [done|done| | | |].
  - cbn. destruct (answers (Name pod)); lia.
  - cbn -[Z.of_nat]. destruct (answers (Name pod)); lia.
  - intros k Hk. rewrite Hother by done. destruct (answers (Name pod)); [done|]. by rewrite He1, decide_False.
  - rewrite Hent. do 3 f_equal. cbn -[Z.of_nat]. destruct (answers (Name pod)); lia.
Qed.

(** The sizes that the code's integers hold. *)
Record fits job (parallelism succeeded : Z) (pods : list Pod) : Prop := {
  fits_parallelism : job_Parallelism job = Some parallelism;
  fits_range : 0 <= parallelism < 2 ^ 63;
  fits_completions c : job_Completions job = Some c → 0 <= c < 2 ^ 63;
  fits_succeeded : 0 <= succeeded;
  fits_pods : succeeded + Z.of_nat (length pods) < 2 ^ 63;
}.

(** The jobs that the API accepts. *)
Record accepted job (parallelism : Z) : Prop := {
  acc_namespace : job_Namespace job ≠ NamespaceAll;
  acc_selector : ∃ selector, LabelSelectorAsSelector (job_Selector job) = Ok selector;
  acc_parallelism : job_Parallelism job = Some parallelism;
  acc_range : 0 <= parallelism < 2 ^ 63;
  acc_completions c : job_Completions job = Some c → 0 <= c < 2 ^ 63;
}.

(** How many pods are missing. *)
Definition missing job (parallelism active succeeded : Z) : Z :=
  Z.max 0 (match job_Completions job with
    | None => if 0 <? succeeded then 0 else parallelism - active
    | Some completions => Z.min parallelism (completions - succeeded) - active
    end).

Lemma missing_computed pods succeeded parallelism job : fits job parallelism succeeded pods →
  let active := Z.of_nat (length pods) in
  active < parallelism →
  let diff := int64 (wantActiveOf job parallelism active succeeded - active) in
  (if diff <? 0 then 0 else diff) = missing job parallelism active succeeded.
Proof.
  intros [_ Hrange Hcomp Hsucc Hpods] active Hlt. unfold missing, wantActiveOf. destruct (job_Completions job) as [c|].
  - specialize (Hcomp c eq_refl). rewrite (int64_id (c - succeeded)) by lia.
    destruct (Z.ltb_spec parallelism (c - succeeded)); rewrite int64_id by lia; zcases; lia.
  - destruct (Z.ltb_spec 0 succeeded); rewrite int64_id by lia; zcases; lia.
Qed.

Lemma manageJob_outcome now answers pods succeeded parallelism job r : ce_ok r → fits job parallelism succeeded pods →
  let active := Z.of_nat (length pods) in
  ∃ r' calls active', manageJob now answers pods succeeded job r = Returns (r', calls, active') ∧ ce_ok r' ∧
    (∀ k, k ≠ keyOf job → entry r' k = entry r k) ∧
    match Z.compare active parallelism with
    | Gt => calls = (λ pod, DeletePod (job_Namespace job) (Name pod) (deleteOk answers (Name pod))) <$>
          take (Z.to_nat (active - parallelism)) (sort Less pods) ∧
        active' = active - Z.of_nat (deletedPods calls) ∧
        entry r' (keyOf job) = Some (mkExpectations 0 (Z.of_nat (deletedPods calls)) (keyOf job) now)
    | Lt => calls = (λ i, CreatePods (job_Namespace job) (job_Name job) (createOk answers i)) <$>
          seq 0 (Z.to_nat (missing job parallelism active succeeded)) ∧
        active' = active + Z.of_nat (createdPods calls) ∧
        entry r' (keyOf job) = Some (mkExpectations (Z.of_nat (createdPods calls)) 0 (keyOf job) now)
    | Eq => r' = r ∧ calls = [] ∧ active' = active
    end.
Proof.
  intros Hr [Hpar Hrange Hcomp Hsucc Hpods] active. unfold manageJob. rewrite Hpar, keyOf_key. fold active.
  destruct (Z.compare_spec active parallelism) as [E|Hlt|Hgt].
  - rewrite E, Z.ltb_irrefl. by exists r, [], parallelism.
  - rewrite (proj2 (Z.ltb_ge _ _)), (proj2 (Z.ltb_lt _ _)) by lia.
    set (n := if int64 _ <? 0 then 0 else _). assert (n = missing job parallelism active succeeded) as Hn by (by apply missing_computed).
    assert (0 <= n < 2 ^ 63) as Hn0.
    { rewrite Hn. unfold missing. destruct (job_Completions job) as [c|]; zcases; lia. }
    clearbody n. subst n. set (n := missing job parallelism active succeeded) in *.
    destruct (Expect_entry now (keyOf job) n 0 r Hr) as [Hr1 He1]. unfold ExpectCreations.
    pose proof (job_createLoop_ok job (keyOf job) (createOk answers) now 0 (Z.to_nat n) 0 (int64 (active + n)) _ n Hr1) as Hl.
    destruct (createLoop _ _ _ _ _ _ _) as [[r' calls] active']. destruct Hl as (Hok & -> & Hle & -> & Hother & Hent).
    { by rewrite He1, decide_True by done. }
    { lia. }
    eexists _, _, _. split; [done|]. split_and!; [done| |done| |].
    + intros k Hk. by rewrite Hother, He1, decide_False by done.
    + rewrite int64_id; [lia|]. unfold n, missing in *. destruct (job_Completions job) as [c|]; zcases; lia.
    + rewrite Hent. do 2 f_equal. rewrite int64_id; lia.
  - rewrite (proj2 (Z.ltb_lt _ _)) by lia. rewrite (int64_id (active - parallelism)) by lia.
    destruct (Expect_entry now (keyOf job) 0 (active - parallelism) r Hr) as [Hr1 He1]. unfold ExpectDeletions.
    assert (Z.to_nat (active - parallelism) <= length (sort Less pods))%nat as Hlen by (rewrite sort_perm; lia).
    rewrite (proj2 (Nat.ltb_ge _ _)), (proj2 (Z.ltb_ge _ _)) by lia. cbn [orb].
    set (doomed := take _ _). assert (length doomed = Z.to_nat (active - parallelism)) as Hd by (by apply length_take_le).
    pose proof (job_deleteLoop_ok job (keyOf job) (deleteOk answers) now doomed (active - (active - parallelism)) _ (active - parallelism) Hr1) as Hl.
    destruct (deleteLoop _ _ _ _ _ _) as [[r' calls] active']. destruct Hl as (Hok & -> & Hle & -> & Hother & Hent).
    { by rewrite He1, decide_True by done. }
    eexists _, _, _. split; [done|]. split_and!; [done| |done|lia|].
    + intros k Hk. by rewrite Hother, He1, decide_False by done.
    + rewrite Hent. do 2 f_equal. rewrite int64_id; lia.
Qed.

(** *** The job of a pod *)

Lemma podJobsLoop_filter pod l : ∀ acc jobs, podJobsLoop pod l acc = Returns jobs →
  jobs = acc ++ filter (λ job, jobmine job pod = true) l.
Proof.
  induction l as [|job l IH]; intros acc jobs; cbn [podJobsLoop].
  { intros [= <-]. by rewrite app_nil_r. }
  assert (jobmine job pod = bool_decide (job_Namespace job = Namespace pod) &&
    match LabelSelectorAsSelector (job_Selector job) with
    | Ok selector => Labels.Matches selector (pod_Labels pod) | Err _ => false end) as Hm by done.
  rewrite filter_cons. destruct (decide (job_Namespace job = Namespace pod)) as [Hns|Hns].
  - rewrite bool_decide_eq_false_2 by (intros H; by apply H). rewrite bool_decide_eq_true_2 in Hm by done.
    destruct (LabelSelectorAsSelector (job_Selector job)) as [sel|err]; [|done]. rewrite Hm.
    destruct (Labels.Matches sel (pod_Labels pod)); cbn; intros ->%IH; [|done]. by rewrite <- app_assoc.
  - rewrite bool_decide_eq_true_2 by done. rewrite bool_decide_eq_false_2 in Hm by done. rewrite Hm. apply IH.
Qed.

(** The store of jobs: each job under its own key. *)
Record stored s : Prop := {
  st_keyFunc : keyFunc (jobStore s) = λ o, Ok (keyOf o);
  st_keys k job : items (cacheStorage (jobStore s)) !! k = Some job → keyOf job = k;
}.

(** The job of a pod is one of the store that selects it, and no other that does is older. *)
Lemma getPodJob_ok pod s job : stored s → getPodJob pod s = Returns (Some job) →
  items (cacheStorage (jobStore s)) !! keyOf job = Some job ∧ jobmine job pod = true ∧
  ∀ job', job' ∈ Store.List (jobStore s) → jobmine job' pod = true → job' = job ∨ byCreationTimestamp_Less job' job = false.
Proof.
  intros Hst. unfold getPodJob, GetPodJobs. destruct (Nat.eqb _ _); [done|].
  destruct (podJobsLoop _ _ _) as [jobs|] eqn:Hloop; [|done]. apply podJobsLoop_filter in Hloop as ->. cbn -[Nat.ltb Nat.eqb].
  set (jobs := filter _ _). destruct (Nat.eqb _ _); [done|].
  assert (∀ job, job ∈ jobs ↔ jobmine job pod = true ∧ job ∈ Store.List (jobStore s)) as Hin
    by (intros job'; exact (list_elem_of_filter (λ job, jobmine job pod = true) _ job')).
  set (sorted := if Nat.ltb _ _ then _ else _).
  assert (sorted ≡ₚ jobs) as Hp by (unfold sorted; case_match; [apply sort_perm|done]).
  destruct sorted as [|job1 l] eqn:Hsorted; [done|]. intros [= ->].
  assert (jobmine job pod = true ∧ job ∈ Store.List (jobStore s)) as [Hm [k Hk]%elem_of_range_values].
  { apply Hin. rewrite <- Hp. left. }
  split_and!; [by rewrite (st_keys s Hst k job Hk)|done|]. intros job' Hl' Hm'.
  assert (job' ∈ job :: l) as [->|Hl]%elem_of_cons by (rewrite Hp; by apply Hin); [by left|right].
  revert Hsorted. subst sorted. case_match eqn:Hlen.
  - intros E. pose proof (sort_sorted (less := byCreationTimestamp_Less) jobs) as Hss. rewrite E in Hss.
    apply StronglySorted_inv in Hss as [_ Hall]. by eapply Forall_forall in Hall.
  - intros E. apply Nat.ltb_ge in Hlen. rewrite E in Hlen. destruct l; [by apply elem_of_nil in Hl|cbn in Hlen; lia].
Qed.

(** *** The handlers *)

(** What the handlers keep. *)
Record handled s s' : Prop := {
  hd_jobStore : jobStore s' = jobStore s;
  hd_podStore : podStore s' = podStore s;
  hd_expectations : ce_ok (expectations s');
}.

(** At most one observation for each job: of a deletion, or of a creation for those in [P]. *)
Definition observes (P : string → Prop) s s' : Prop := ∀ k,
  entry (expectations s') k = entry (expectations s) k ∨
  entry (expectations s') k = exp_Add 0 (-1) <$> entry (expectations s) k ∨
  P k ∧ entry (expectations s') k = exp_Add (-1) 0 <$> entry (expectations s) k.

Definition selecting pod s (k : string) : Prop :=
  ∃ job, items (cacheStorage (jobStore s)) !! k = Some job ∧ jobmine job pod = true.

Lemma enqueueController_eq obj s : ∃ q, enqueueController obj s = with_queue q s.
Proof.
  unfold enqueueController. destruct (DeletionHandlingMetaNamespaceKeyFunc obj); [by eexists|].
  exists (queue s). by destruct s.
Qed.

Lemma handled_with r q s : ce_ok r → handled s (with_queue q (with_expectations r s)).
Proof. done. Qed.

Lemma handled_same P s : ce_ok (expectations s) → handled s s ∧ observes P s s.
Proof. intros Hr. split; [done|]. intros k. by left. Qed.

Lemma job_deletePodOf_ok P pod s s' : ce_ok (expectations s) → deletePodOf pod s = Returns s' →
  handled s s' ∧ observes P s s'.
Proof.
  intros Hr. unfold deletePodOf. destruct (getPodJob pod s) as [[job|]|]; [|intros [= <-]; by apply handled_same|done].
  rewrite keyOf_key. intros [= <-]. destruct (enqueueController_eq (IObj job)
    (with_expectations (DeletionObserved (keyOf job) (expectations s)) s)) as [q ->].
  destruct (DeletionObserved_entry (keyOf job) _ Hr) as [Hr' He]. split; [done|]. intros k. cbn. rewrite He.
  case_decide as Hk; [rewrite Hk; auto|by left].
Qed.

Lemma job_deletePod_ok P obj s s' : ce_ok (expectations s) → deletePod obj s = Returns s' → handled s s' ∧ observes P s s'.
Proof.
  intros Hr. unfold deletePod.
  repeat case_match; try (by apply job_deletePodOf_ok); intros [= <-]; by apply handled_same.
Qed.

Lemma job_addPod_ok pod s s' : stored s → ce_ok (expectations s) → addPod pod s = Returns s' →
  handled s s' ∧ observes (selecting pod s) s s'.
Proof.
  intros Hst Hr. unfold addPod. destruct (DeletionTimestamp pod); [by apply job_deletePod_ok|].
  pose proof (λ job, getPodJob_ok pod s job Hst) as Hjob.
  destruct (getPodJob pod s) as [[job|]|]; [|intros [= <-]; by apply handled_same|done].
  destruct (Hjob job eq_refl) as (Hs & Hm & _). rewrite keyOf_key. intros [= <-].
  destruct (enqueueController_eq (IObj job) (with_expectations (CreationObserved (keyOf job) (expectations s)) s)) as [q ->].
  destruct (CreationObserved_entry (keyOf job) _ Hr) as [Hr' He]. split; [done|]. intros k. cbn. rewrite He.
  case_decide as Hk; [rewrite Hk|by left]. right. right. split; [by exists job|done].
Qed.

Lemma enqueueJobOf_ok P pod s s' : ce_ok (expectations s) → enqueueJobOf pod s = Returns s' →
  handled s s' ∧ observes P s s' ∧ expectations s' = expectations s.
Proof.
  intros Hr. unfold enqueueJobOf. destruct (getPodJob pod s) as [[job|]|]; [| |done]; intros [= <-].
  - destruct (enqueueController_eq (IObj job) s) as [q ->]. split_and!; [done| |done]. intros k. by left.
  - split_and!; [done| |done]. intros k. by left.
Qed.

Lemma job_updatePod_ok P same old cur s s' : ce_ok (expectations s) → updatePod same old cur s = Returns s' →
  handled s s' ∧ observes P s s'.
Proof.
  intros Hr. unfold updatePod. destruct same; [intros [= <-]; by apply handled_same|].
  destruct (DeletionTimestamp cur); [by apply job_deletePod_ok|].
  destruct (enqueueJobOf cur s) as [s1|] eqn:E1; [|done]. apply (enqueueJobOf_ok P) in E1 as ([Hj Hp Hr1] & _ & He1); [|done].
  case_bool_decide.
  - intros ([Hj2 Hp2 Hr2] & _ & He2)%(enqueueJobOf_ok P); [|done]. split; [split; [congruence..|done]|].
    intros k. left. congruence.
  - intros [= <-]. split; [by split|]. intros k. left. congruence.
Qed.

(** *** Syncs *)

(** Only the counters of the job change. *)
Lemma manageJob_frame now answers pods succeeded job r r' calls active : ce_ok r →
  manageJob now answers pods succeeded job r = Returns (r', calls, active) →
  ce_ok r' ∧ ∀ k, k ≠ keyOf job → entry r' k = entry r k.
Proof.
  intros Hr. unfold manageJob. destruct (job_Parallelism job) as [parallelism|]; [|done]. rewrite keyOf_key.
  destruct (parallelism <? _); [|destruct (_ <? parallelism); [|by intros [= <- <- <-]]].
  - set (diff := int64 _). destruct (_ || _); [done|]. unfold ExpectDeletions.
    destruct (Expect_entry now (keyOf job) 0 diff r Hr) as [Hr1 He1].
    pose proof (job_deleteLoop_ok job (keyOf job) (deleteOk answers) now (take (Z.to_nat diff) (sort Less pods))
      (Z.of_nat (length pods) - diff) _ diff Hr1) as Hl. destruct (deleteLoop _ _ _ _ _ _) as [[r1 calls1] active1].
    intros [= <- <- <-]. destruct Hl as (? & _ & _ & _ & Ho & _); [by rewrite He1, decide_True by done|].
    split; [done|]. intros k Hk. by rewrite Ho, He1, decide_False by done.
  - set (diff := if _ <? 0 then _ else _). unfold ExpectCreations.
    destruct (Expect_entry now (keyOf job) diff 0 r Hr) as [Hr1 He1].
    pose proof (job_createLoop_ok job (keyOf job) (createOk answers) now 0 (Z.to_nat diff) 0
      (int64 (Z.of_nat (length pods) + diff)) _ diff Hr1) as Hl. destruct (createLoop _ _ _ _ _ _ _) as [[r1 calls1] active1].
    intros [= <- <- <-]. destruct Hl as (? & _ & _ & _ & Ho & _); [by rewrite He1, decide_True by done|done|].
    split; [done|]. intros k Hk. by rewrite Ho, He1, decide_False by done.
Qed.

(** How many pods a job counts towards: a job without completions starts none once one
    has succeeded. *)
Definition budget job (parallelism : Z) : Z :=
  match job_Completions job with None => parallelism | Some completions => completions end.

(** What a sync of [job], or of another, does to the counters of [job], when it creates [n] pods. *)
Definition creates_well job (parallelism : Z) now (n : nat) s r : Prop :=
  n = 0%nat ∧ entry r (keyOf job) = entry (expectations s) (keyOf job) ∨
  SatisfiedExpectations now (keyOf job) (expectations s) = true ∧
  ∃ e, entry r (keyOf job) = Some e ∧ Z.of_nat n <= add e < 2 ^ 63 ∧
    Z.of_nat (inStore (running job) (podStore s) + n) <= Z.max (Z.of_nat (inStore (running job) (podStore s))) parallelism ∧
    Z.of_nat (inStore (counted job) (podStore s) + n) <=
      Z.max (Z.of_nat (inStore (counted job) (podStore s))) (budget job parallelism).

Lemma manageJob_creates_well job parallelism now answers s pods succeeded r' calls active :
  ce_ok (expectations s) → accepted job parallelism →
  length pods = inStore (running job) (podStore s) →
  Z.of_nat (length pods) + succeeded = Z.of_nat (inStore (counted job) (podStore s)) → 0 <= succeeded →
  Z.of_nat (inStore (counted job) (podStore s)) < 2 ^ 63 →
  SatisfiedExpectations now (keyOf job) (expectations s) = true →
  manageJob now answers pods succeeded job (expectations s) = Returns (r', calls, active) →
  creates_well job parallelism now (createdPods calls) s r'.
Proof.
  intros Hr [_ _ Hpar Hrange Hcomp] Hrun Hcount Hs0 Hfit Hsat Hm. unfold creates_well. rewrite <- Hrun, Nat2Z.inj_add, <- Hcount.
  destruct (manageJob_outcome now answers pods succeeded parallelism job (expectations s)) as (r1 & calls1 & active1 & E & _ & _ & Hout);
    [done|split; [done..|lia]|]. rewrite E in Hm. injection Hm as -> -> ->.
  destruct (Z.compare_spec (Z.of_nat (length pods)) parallelism) as [Heq|Hlt|Hgt].
  - destruct Hout as (-> & -> & _). by left.
  - destruct Hout as (-> & _ & He). right. split; [done|]. eexists. split; [exact He|]. cbn [add].
    set (n := createdPods _) in *.
    assert (Z.of_nat n <= missing job parallelism (Z.of_nat (length pods)) succeeded) as Hn.
    { subst n. pose proof (createdPods_le ((λ i, CreatePods (job_Namespace job) (job_Name job) (createOk answers i)) <$>
        seq 0 (Z.to_nat (missing job parallelism (Z.of_nat (length pods)) succeeded)))) as Hle.
      rewrite length_fmap, length_seq in Hle. unfold missing in *. lia. }
    unfold missing, budget in *. destruct (job_Completions job) as [c|]; [specialize (Hcomp c eq_refl); lia|].
    destruct (Z.ltb_spec 0 succeeded); lia.
  - destruct Hout as (-> & _ & He). right. split; [done|]. eexists. split; [exact He|]. cbn [add].
    rewrite createdPods_deletions. lia.
Qed.

Lemma runJob_frame now answers needs pods succeeded failed job r r' calls active failed' conditions completed : ce_ok r →
  runJob now answers needs pods succeeded failed job r = Returns (r', calls, active, failed', conditions, completed) →
  ce_ok r' ∧ ∀ k, k ≠ keyOf job → entry r' k = entry r k.
Proof.
  intros Hr. unfold runJob. destruct (pastActiveDeadline now job); [by intros [= <- _ _ _ _ _]|].
  destruct needs.
  - destruct (manageJob _ _ _ _ _ _) as [[[r1 calls1] active1]|] eqn:E; [|done].
    apply manageJob_frame in E as [? ?]; [|done]. by destruct (isComplete _ _ _); intros [= <- _ _ _ _ _].
  - by destruct (isComplete _ _ _); intros [= <- _ _ _ _ _].
Qed.

Lemma runJob_creates_well job parallelism now answers s pods succeeded failed r' calls active failed' conditions completed :
  ce_ok (expectations s) → accepted job parallelism →
  length pods = inStore (running job) (podStore s) →
  Z.of_nat (length pods) + succeeded = Z.of_nat (inStore (counted job) (podStore s)) → 0 <= succeeded →
  Z.of_nat (inStore (counted job) (podStore s)) < 2 ^ 63 →
  runJob now answers (SatisfiedExpectations now (keyOf job) (expectations s)) pods succeeded failed job (expectations s) =
    Returns (r', calls, active, failed', conditions, completed) →
  creates_well job parallelism now (createdPods calls) s r'.
Proof.
  intros Hr Hacc Hrun Hcount Hs0 Hfit. unfold runJob. destruct (pastActiveDeadline now job).
  { intros [= <- <- _ _ _ _]. left. split; [apply createdPods_deletions|done]. }
  destruct (SatisfiedExpectations _ _ _) eqn:Hsat.
  - destruct (manageJob _ _ _ _ _ _) as [[[r1 calls1] active1]|] eqn:E; [|done].
    eapply manageJob_creates_well in E; [|done..]. by destruct (isComplete _ _ _); intros [= <- <- _ _ _ _].
  - destruct (isComplete _ _ _); intros [= <- <- _ _ _ _]; by left.
Qed.

(** What counts a job's pods, and its key, do not look at the status. *)
Lemma same_spec_counts job job' : same_spec job job' →
  keyOf job' = keyOf job ∧ running job' = running job ∧ counted job' = counted job ∧ jobmine job' = jobmine job.
Proof.
  unfold running, counted, jobmine, keyOf. destruct job, job'. intros (? & ? & ? & ? & ?). by simplify_eq/=.
Qed.

Lemma job_same_spec_accepted job job' parallelism : same_spec job job' →
  accepted job parallelism → accepted job' parallelism ∧ budget job' parallelism = budget job parallelism.
Proof. destruct job, job'. intros (? & ? & ? & ? & ?) [? ? ? ? ?]. simplify_eq/=. split; [by split|done]. Qed.

Lemma creates_well_same job job' parallelism now n s r : same_spec job job' → accepted job parallelism →
  creates_well job' parallelism now n s r → creates_well job parallelism now n s r.
Proof.
  intros Hspec Hacc. unfold creates_well. destruct (same_spec_counts _ _ Hspec) as (-> & -> & -> & _).
  by destruct (job_same_spec_accepted _ _ _ Hspec Hacc) as [_ ->].
Qed.

Lemma creates_none job parallelism now s : creates_well job parallelism now 0 s (expectations s).
Proof. by left. Qed.

(** The queue and the counters that a sync leaves. *)
Lemma syncJob_ok job job' parallelism now answers k s s' calls : stored s → ce_ok (expectations s) →
  items (cacheStorage (jobStore s)) !! keyOf job = Some job' → same_spec job job' → accepted job parallelism →
  Z.of_nat (inStore (counted job) (podStore s)) < 2 ^ 63 →
  syncJob now answers k s = Returns (s', calls) →
  ∃ q r, s' = with_queue q (with_expectations r s) ∧ ce_ok r ∧
    creates_well job parallelism now (if decide (k = keyOf job) then createdPods calls else 0) s r.
Proof.
  intros Hst Hr Hjob Hspec Hacc Hfit.
  assert (∀ q n, n = 0%nat → ∃ q' r, with_queue q s = with_queue q' (with_expectations r s) ∧ ce_ok r ∧
    creates_well job parallelism now n s r) as Hidle.
  { intros q n ->. exists q, (expectations s). split_and!; [by destruct s|done|apply creates_none]. }
  assert (s = with_queue (queue s) s) as Es by (by destruct s).
  unfold syncJob. destruct (podStoreSynced s); cbn [negb].
  2: { intros [= <- <-]. apply Hidle. by case_decide. }
  unfold GetByKey, ThreadSafeStore.Get. destruct (items _ !! k) as [jobk|] eqn:Hk.
  2: { intros [= <- <-]. destruct (Delete_ok _ k Hr) as [Hr' He]. exists (queue s), (DeleteExpectations k (expectations s)).
       split_and!; [done..|]. rewrite decide_False by congruence. left. by rewrite He, decide_False by congruence. }
  pose proof (st_keys s Hst k jobk Hk) as Hkey. rewrite keyOf_key. rewrite Hkey.
  destruct (listJobPods _ _ _) as [podList|] eqn:Hlist; [|done]. destruct (getStatus podList) as [succeeded failed] eqn:Hstatus.
  set (jobk1 := with_Status _ jobk). destruct (isJobFinished jobk1).
  { intros [= <- <-]. rewrite Es. apply Hidle. by case_decide. }
  destruct (runJob _ _ _ _ _ _ _ _) as [[[[[[r calls1] active] failed'] conditions] completed]|] eqn:Hrun; [|done].
  intros Heq.
  assert (∃ q u, s' = with_queue q (with_expectations r s) ∧ calls = calls1 ++ u ∧ createdPods u = 0%nat) as (q & u & -> & -> & Hu).
  { destruct (negb _ || _ || _ || _); injection Heq as <- <-.
    - destruct (updateOk answers).
      + by exists (queue s), [UpdateStatus (with_Status (mkJobStatus conditions
          match js_StartTime (job_Status jobk) with Some t => Some t | None => Some now end completed active succeeded failed') jobk1) true].
      + unfold enqueueController. rewrite keyOf_key. by eexists _, [_].
    - exists (queue s), []. by rewrite app_nil_r. }
  rewrite job_createdPods_app, Hu, Nat.add_0_r. exists q, r. split; [done|].
  apply (runJob_frame _ _ _ _ _ _ _ _ _ _ _ _ _ _ Hr) in Hrun as Hframe. destruct Hframe as [Hr' Hframe].
  split; [done|]. case_decide as Hkk.
  2: { left. split; [done|]. rewrite Hframe; [done|]. change (keyOf jobk1) with (keyOf jobk). congruence. }
  assert (jobk = job') as -> by congruence. apply (creates_well_same job job'); [done..|].
  assert (same_spec job jobk1) as Hspec1 by done. destruct (same_spec_counts _ _ Hspec1) as (Hkey1 & Hrun1 & Hcount1 & _).
  destruct (job_same_spec_accepted _ _ _ Hspec1 Hacc) as [[Hns [sel Hsel] ? ? ?] _].
  change (job_Selector jobk1) with (job_Selector job') in Hsel. rewrite Hsel in Hlist. injection Hlist as <-. destruct (listed_counts jobk1 sel (podStore s) Hns Hsel) as [Ha Hc].
  unfold getStatus in Hstatus. injection Hstatus as Hsucc _.
  replace k with (keyOf jobk1) in Hrun by congruence.
  apply (runJob_creates_well jobk1 parallelism now answers s _ _ _ _ _ _ _ _ _ Hr
    (proj1 (job_same_spec_accepted _ _ _ Hspec1 Hacc)) Ha) in Hrun; [done|by rewrite <- Hsucc, <- Hc| |by rewrite Hcount1].
  rewrite <- Hsucc, filterPods_length. lia.
Qed.

(** *** The cluster

    One step: a sync of any job, an event of a pod or of a job's status, or what the
    server does on its own.  A sync makes the server create a pod for each creation
    that succeeds; its event comes later, or never when the pod vanishes first.
    Pods come and go; none joins [job] but by its creation, and none that has stopped
    counting towards it does again.  A sync never finds that the expectations of [job]
    have expired. *)
Inductive cstep job : Cluster → Cluster → Prop :=
| step_sync now answers k s s' calls n :
    (∀ e, entry (expectations s) (keyOf job) = Some e → isExpired now e = false) →
    syncJob now answers k s = Returns (s', calls) →
    cstep job (mkCluster s n) (mkCluster s' (n + if decide (k = keyOf job) then createdPods calls else 0))
| step_created s s' pod n : observeAdd pod s = Returns s' → cstep job (mkCluster s (S n)) (mkCluster s' n)
| step_vanished s n : cstep job (mkCluster s (S n)) (mkCluster s n)
| step_other s s' pod n : jobmine job pod = false →
    observeAdd pod s = Returns s' → cstep job (mkCluster s n) (mkCluster s' n)
| step_updated s s' same old cur n :
    items (cacheStorage (podStore s)) !! keyOf cur = Some old →
    (running job cur = true → running job old = true) → (counted job cur = true → counted job old = true) →
    observeUpdate same old cur s = Returns s' → cstep job (mkCluster s n) (mkCluster s' n)
| step_deleted s s' obj n : observeDelete obj s = Returns s' → cstep job (mkCluster s n) (mkCluster s' n)
| step_status s old cur n :
    items (cacheStorage (jobStore s)) !! keyOf cur = Some old → same_spec old cur →
    cstep job (mkCluster s n) (mkCluster (observeJob cur s) n)
| step_queue s q n : cstep job (mkCluster s n) (mkCluster (with_queue q s) n)
| step_synced s n : cstep job (mkCluster s n) (mkCluster (with_synced s) n).

(** The pods of [job] in [P], as far as the controller or the server knows. *)
Definition total (P : Pod → bool) (c : Cluster) : Z := Z.of_nat (inStore P (podStore (ctl c)) + unseen c).

(** The creations that are not observed yet are expected. *)
Definition expected job s (n : nat) : Prop :=
  match entry (expectations s) (keyOf job) with
  | Some e => Z.of_nat n <= add e < 2 ^ 63
  | None => n = 0%nat
  end.

Record cluster_ok job (most most_counted : Z) (c : Cluster) : Prop := {
  cl_stored : stored (ctl c);
  cl_expectations : ce_ok (expectations (ctl c));
  cl_job : ∃ job', items (cacheStorage (jobStore (ctl c))) !! keyOf job = Some job' ∧ same_spec job job';
  cl_pods : keyFunc (podStore (ctl c)) = λ o, Ok (keyOf o);
  cl_expected : expected job (ctl c) (unseen c);
  cl_running : total (running job) c <= most;
  cl_counted : total (counted job) c <= most_counted;
}.

Lemma job_expected_lower job s n m : expected job s n → (m <= n)%nat → expected job s m.
Proof. unfold expected. destruct (entry _ _); lia. Qed.

(** One observation, of a creation only when one was unseen. *)
Lemma expected_observes job P s s1 s' n m : expected job s n → expectations s1 = expectations s → observes P s1 s' →
  (m <= n)%nat → (P (keyOf job) → (m < n)%nat) → expected job s' m.
Proof.
  unfold expected. intros He E Ho Hle Hlt. specialize (Ho (keyOf job)). rewrite E in Ho.
  destruct Ho as [->|[->|[HP ->]]]; destruct (entry (expectations s) (keyOf job)) as [e|]; cbn; try lia.
  - rewrite Z.add_0_r, int64_id; lia.
  - specialize (Hlt HP). rewrite int64_id; lia.
Qed.

(** A handler, after a change of the store of pods. *)
Lemma handler_preserves job most most_counted P s st s' n m : cluster_ok job most most_counted (mkCluster s n) →
  keyFunc st = keyFunc (podStore s) → (m <= n)%nat → (P (keyOf job) → (m < n)%nat) →
  (inStore (running job) st + m <= inStore (running job) (podStore s) + n)%nat →
  (inStore (counted job) st + m <= inStore (counted job) (podStore s) + n)%nat →
  handled (with_podStore st s) s' ∧ observes P (with_podStore st s) s' →
  cluster_ok job most most_counted (mkCluster s' m).
Proof.
  intros [Hst Hr Hj Hk He Hrun Hcount] Hkey Hm HP Hr' Hc' [[Hjs Hps Hok] Ho]. unfold total in *. cbn in *.
  split; cbn; unfold total; cbn; rewrite ?Hps, ?Hjs; cbn; [|done|done|congruence| |lia|lia].
  - split; rewrite Hjs; apply Hst.
  - by eapply expected_observes.
Qed.

Lemma stored_with_podStore st s : stored s → stored (with_podStore st s).
Proof. intros [? ?]. by split. Qed.

Lemma job_sync_preserves job parallelism most most_counted now answers k s s' calls n :
  accepted job parallelism → parallelism <= most → budget job parallelism <= most_counted < 2 ^ 63 →
  cluster_ok job most most_counted (mkCluster s n) →
  (∀ e, entry (expectations s) (keyOf job) = Some e → isExpired now e = false) →
  syncJob now answers k s = Returns (s', calls) →
  cluster_ok job most most_counted (mkCluster s' (n + if decide (k = keyOf job) then createdPods calls else 0)).
Proof.
  intros Hacc Hmost Hbudget [Hst Hr (job' & Hj & Hspec) Hk He Hrun Hcount] Hexp Hsync. unfold total in *. cbn in *.
  destruct (syncJob_ok job job' parallelism now answers k s s' calls) as (q & r & -> & Hr' & Hw); try done; [lia|].
  assert (SatisfiedExpectations now (keyOf job) (expectations s) = true → n = 0%nat) as Hnone.
  { rewrite Satisfied_entry. unfold expected in He. destruct (entry (expectations s) (keyOf job)) as [e|]; [|done]. cbn.
    rewrite (Hexp e eq_refl), orb_false_r. intros [Ha%Z.leb_le _]%andb_prop. lia. }
  unfold creates_well in Hw. set (created := if decide _ then _ else _) in *.
  split; cbn; unfold total; cbn; [by destruct Hst|done|by exists job'|done| | |].
  - unfold expected in *. cbn. destruct Hw as [[-> ->]|(Hsat & e & -> & ? & _)]; [by rewrite Nat.add_0_r|]. rewrite Hnone by done. lia.
  - destruct Hw as [[-> _]|(Hsat & _ & _ & _ & ? & _)]; [lia|]. rewrite Hnone by done. lia.
  - destruct Hw as [[-> _]|(Hsat & _ & _ & _ & _ & ?)]; [lia|]. rewrite Hnone by done. lia.
Qed.

Lemma job_status_preserves job most most_counted s old cur n : cluster_ok job most most_counted (mkCluster s n) →
  items (cacheStorage (jobStore s)) !! keyOf cur = Some old → same_spec old cur →
  cluster_ok job most most_counted (mkCluster (observeJob cur s) n).
Proof.
  intros [[Hkf Hkeys] Hr (job' & Hj & Hspec) Hk He Hrun Hcount] Hold Hsame. cbn in *.
  assert (∀ s1, ∃ q, updateJob cur s1 = with_queue q s1) as Hq.
  { intros s1. unfold updateJob. destruct (negb _); [apply enqueueController_eq|]. exists (queue s1). by destruct s1. }
  unfold observeJob. destruct (Hq (with_jobStore (Store.Update cur (jobStore s)).1 s)) as [q ->].
  unfold Store.Update. rewrite Hkf. cbn. split; cbn; try done.
  - split; cbn; [done|]. intros k job1. setoid_rewrite items_Add. rewrite lookup_insert_Some.
    intros [[<- <-]|[_ ?]]; [done|by apply Hkeys].
  - setoid_rewrite items_Add. setoid_rewrite lookup_insert. destruct (decide (keyOf cur = keyOf job)) as [E|]; [|by exists job'].
    exists cur. split; [done|]. rewrite E, Hj in Hold. injection Hold as <-. unfold same_spec in *. intuition congruence.
Qed.

(** A controller that has just started, with [job] in its store. *)
Definition started job s : Prop :=
  expectations s = NewControllerExpectations ∧ stored s ∧
  (∃ job', items (cacheStorage (jobStore s)) !! keyOf job = Some job' ∧ same_spec job job') ∧
  (keyFunc (podStore s) = λ o, Ok (keyOf o)) ∧ Z.of_nat (inStore (counted job) (podStore s)) < 2 ^ 63.

(** Every step keeps the cluster within the bounds. *)
Lemma job_cstep_preserves job parallelism most most_counted c c' :
  accepted job parallelism → parallelism <= most → budget job parallelism <= most_counted < 2 ^ 63 →
  cluster_ok job most most_counted c → cstep job c c' → cluster_ok job most most_counted c'.
Proof.
  intros Hacc Hmost Hbudget Hok Hstep. destruct Hstep as [now answers k s s' calls n Hexp Hsync|s s' pod n Hs'|s n|s s' pod n Hno Hs'
    |s s' same old cur n Hold Hrun Hcount Hs'|s s' obj n Hs'|s old cur n Hold Hsp|s q n|s n].
  - by eapply job_sync_preserves.
  - pose proof (cl_pods _ _ _ _ Hok) as Hk. cbn in Hk. eapply handler_preserves; [exact Hok|by apply (keyFunc_Add pod)|..]; [lia|intros _; lia|..].
    + pose proof (proj1 (inStore_Add (running job) pod _ Hk)). lia.
    + pose proof (proj1 (inStore_Add (counted job) pod _ Hk)). lia.
    + apply (job_addPod_ok pod); [apply stored_with_podStore, Hok|apply Hok|done].
  - destruct Hok as [? ? ? ? He ? ?]. unfold total in *. cbn in *. split; cbn; unfold total; cbn; try done; try lia.
    eapply job_expected_lower; [exact He|]. lia.
  - pose proof (cl_pods _ _ _ _ Hok) as Hk. cbn in Hk. pose proof (cl_job _ _ _ _ Hok) as (job' & Hj & Hspec). cbn in Hj.
    destruct (same_spec_counts _ _ Hspec) as (_ & _ & _ & Hmine).
    eapply handler_preserves; [exact Hok|by apply (keyFunc_Add pod)|done|..].
    4: { apply (job_addPod_ok pod); [apply stored_with_podStore, Hok|apply Hok|done]. }
    + intros (job1 & Hj1 & Hm). cbn in Hj1. rewrite Hj in Hj1. injection Hj1 as <-. congruence.
    + apply Nat.add_le_mono_r, inStore_Add; [done|]. unfold running. by rewrite Hno.
    + apply Nat.add_le_mono_r, inStore_Add; [done|]. unfold counted. by rewrite Hno.
  - pose proof (cl_pods _ _ _ _ Hok) as Hk. cbn in Hk.
    eapply (handler_preserves _ _ _ (λ _, False)); [exact Hok|by apply (keyFunc_Add cur)|done|done|..].
    3: { eapply job_updatePod_ok; [apply Hok|exact Hs']. }
    + apply Nat.add_le_mono_r, inStore_Add; [done|]. eauto.
    + apply Nat.add_le_mono_r, inStore_Add; [done|]. eauto.
  - unfold observeDelete in Hs'. destruct (DeletionHandlingMetaNamespaceKeyFunc obj) as [k|]; [|by injection Hs' as <-].
    eapply (handler_preserves _ _ _ (λ _, False)); [exact Hok| |done|done|..]; [|..|by eapply job_deletePod_ok; [apply Hok|exact Hs']]; [done|..];
      apply Nat.add_le_mono_r; unfold inStore; cbn; rewrite items_Delete.
    + exact (size_filter_delete_le _ (λ pod, running job pod = true) k).
    + exact (size_filter_delete_le _ (λ pod, counted job pod = true) k).
  - by eapply job_status_preserves.
  - by destruct Hok as [[? ?] ? ? ? ? ? ?].
  - by destruct Hok as [[? ?] ? ? ? ? ? ?].
Qed.

(** *** Selectors that do not convert *)

Definition selector_error job : Prop := ∃ err, LabelSelectorAsSelector (job_Selector job) = Err err.

Lemma podJobsLoop_panics pod l : ∀ acc,
  podJobsLoop pod l acc = Panics ↔ ∃ job, job ∈ l ∧ job_Namespace job = Namespace pod ∧ selector_error job.
Proof.
  unfold selector_error. induction l as [|job l IH]; intros acc; cbn [podJobsLoop].
  { split; [done|]. intros (job & Hin & _). by apply elem_of_nil in Hin. }
  setoid_rewrite elem_of_cons. destruct (decide (job_Namespace job = Namespace pod)) as [Hns|Hns].
  - rewrite bool_decide_eq_false_2 by (intros H; by apply H).
    destruct (LabelSelectorAsSelector (job_Selector job)) as [sel|err] eqn:Hsel.
    2: { split; [intros _; exists job; eauto|done]. }
    assert (∀ acc', podJobsLoop pod l acc' = Panics ↔ ∃ job0, (job0 = job ∨ job0 ∈ l) ∧ job_Namespace job0 = Namespace pod ∧
      ∃ err, LabelSelectorAsSelector (job_Selector job0) = Err err) as IH'.
    { intros acc'. rewrite IH. split; [intros (j & ? & ?); eauto|]. intros (j & [->|?] & ? & err & ?); [congruence|eauto]. }
    destruct (Labels.Matches sel (pod_Labels pod)); apply IH'.
  - rewrite bool_decide_eq_true_2 by done. rewrite IH. split; [intros (j & ? & ?); eauto|].
    intros (j & [->|?] & ?); [tauto|eauto].
Qed.

Lemma getPodJob_panics pod s : getPodJob pod s = Panics ↔ pod_Labels pod ≠ ∅ ∧
  ∃ job, job ∈ Store.List (jobStore s) ∧ job_Namespace job = Namespace pod ∧ selector_error job.
Proof.
  rewrite <- (podJobsLoop_panics pod _ []). unfold getPodJob, GetPodJobs.
  destruct (Nat.eqb_spec (size (pod_Labels pod)) 0) as [E|E].
  { apply map_size_empty_inv in E. naive_solver. }
  assert (pod_Labels pod ≠ ∅) by (intros El; by rewrite El in E).
  destruct (podJobsLoop _ _ _) as [jobs|]; [|naive_solver]. split; [|by intros []].
  destruct (Nat.eqb_spec (length jobs) 0) as [El|El]; [done|]. set (sorted := if Nat.ltb _ _ then _ else _).
  assert (sorted ≡ₚ jobs) as Hp by (unfold sorted; case_match; [apply sort_perm|done]).
  apply Permutation_length in Hp. by destruct sorted.
Qed.

(** *** The status *)

Lemma isJobFinishedLoop_app l l' : isJobFinishedLoop (l ++ l') = isJobFinishedLoop l || isJobFinishedLoop l'.
Proof. induction l as [|c l IH]; cbn; [done|]. by destruct (_ && _). Qed.

(** When the job started, as a sync at [now] has it, and whether its time is up. *)
Definition startTime now job : Time := default now (js_StartTime (job_Status job)).
Definition late now job : bool :=
  match job_ActiveDeadlineSeconds job with
  | Some seconds => int64 (seconds * 10 ^ 9) <=? time_Sub now (startTime now job)
  | None => false
  end.

(** The status that a sync should report: after [created] and [deleted] pods, of those that it listed. *)
Definition reports now job (pods : list Pod) (created deleted : nat) (st : JobStatus) : Prop :=
  let active := Z.of_nat (length (FilterActivePods pods)) in
  js_Succeeded st = filterPods pods PodSucceeded ∧
  js_StartTime st = Some (startTime now job) ∧
  (if late now job then js_Active st = 0 ∧ js_Failed st = filterPods pods PodFailed + active
   else js_Active st = active + Z.of_nat created - Z.of_nat deleted ∧ js_Failed st = filterPods pods PodFailed) ∧
  (isJobFinishedLoop (js_Conditions st) = true ↔ late now job = true ∨
     match job_Completions job with
     | None => 0 < js_Succeeded st ∧ js_Active st = 0
     | Some completions => completions <= js_Succeeded st
     end).

Lemma isComplete_true job succeeded active : isComplete job succeeded active = true ↔
  match job_Completions job with None => 0 < succeeded ∧ active = 0 | Some completions => completions <= succeeded end.
Proof. unfold isComplete. destruct (job_Completions job); rewrite ?andb_true_iff; lia. Qed.

Definition no_update (calls : list apiCall) : Prop := ∀ job ok, UpdateStatus job ok ∉ calls.

Lemma deletes_no_update job answers pods :
  no_update ((λ pod, DeletePod (job_Namespace job) (Name pod) (answers (Name pod))) <$> pods).
Proof. intros job' ok (pod & ? & _)%list_elem_of_fmap. done. Qed.

Lemma creates_no_update job (answers : nat → bool) l : no_update ((λ i, CreatePods (job_Namespace job) (job_Name job) (answers i)) <$> l).
Proof. intros job' ok (i & ? & _)%list_elem_of_fmap. done. Qed.

Lemma deletedPods_creations job (answers : nat → bool) l :
  deletedPods ((λ i, CreatePods (job_Namespace job) (job_Name job) (answers i)) <$> l) = 0%nat.
Proof. induction l as [|i l IH]; cbn; [done|]. by destruct (answers i). Qed.

Lemma deletedPods_app c1 c2 : deletedPods (c1 ++ c2) = (deletedPods c1 + deletedPods c2)%nat.
Proof. induction c1 as [|[?|? ? []|?] c1 IH]; cbn; lia. Qed.

(** The number that [manageJob] returns is that of the pods it leaves. *)
Lemma manageJob_active now answers pods succeeded parallelism job r : ce_ok r → fits job parallelism succeeded pods →
  ∃ r' calls, manageJob now answers pods succeeded job r = Returns (r', calls,
    Z.of_nat (length pods) + Z.of_nat (createdPods calls) - Z.of_nat (deletedPods calls)) ∧ no_update calls ∧ ce_ok r'.
Proof.
  intros Hr Hf. destruct (manageJob_outcome now answers pods succeeded parallelism job r Hr Hf)
    as (r' & calls & active & E & Hok & _ & Hout). exists r', calls. rewrite E.
  destruct (Z.compare_spec (Z.of_nat (length pods)) parallelism).
  - destruct Hout as (_ & -> & ->). cbn. split_and!; [do 2 f_equal; lia| |done]. intros ? ? []%elem_of_nil.
  - destruct Hout as (-> & -> & _). rewrite deletedPods_creations, Z.sub_0_r.
    split_and!; [done|apply creates_no_update|done].
  - destruct Hout as (-> & -> & _). rewrite createdPods_deletions, Z.add_0_r.
    split_and!; [done|apply deletes_no_update|done].
Qed.

(** What [runJob] returns is a status to report. *)
Lemma runJob_reports now answers needs pods parallelism job r : ce_ok r →
  js_StartTime (job_Status job) ≠ None → isJobFinished job = false →
  fits job parallelism (filterPods pods PodSucceeded) (FilterActivePods pods) →
  ∃ r' calls active failed conditions completed,
    runJob now answers needs (FilterActivePods pods) (filterPods pods PodSucceeded) (filterPods pods PodFailed) job r =
      Returns (r', calls, active, failed, conditions, completed) ∧ no_update calls ∧ ce_ok r' ∧
    reports now job pods (createdPods calls) (deletedPods calls)
      (mkJobStatus conditions (js_StartTime (job_Status job)) completed active (filterPods pods PodSucceeded) failed) ∧
    ∃ added, conditions = js_Conditions (job_Status job) ++ added ∧ (added = [] → isJobFinishedLoop conditions = false).
Proof.
  intros Hr Hstart Hfin Hf. unfold runJob, reports, isJobFinished in *.
  assert (pastActiveDeadline now job = late now job) as ->.
  { unfold pastActiveDeadline, late, startTime. by destruct (job_ActiveDeadlineSeconds job), (js_StartTime (job_Status job)). }
  assert (js_StartTime (job_Status job) = Some (startTime now job)) as Hs.
  { unfold startTime. by destruct (js_StartTime (job_Status job)). }
  destruct (late now job) eqn:Hlate.
  - eexists _, _, _, _, _, _. split; [done|]. cbn. rewrite isJobFinishedLoop_app, Hfin.
    split_and!; try done; [apply deletes_no_update|cbn; tauto|by eexists].
  - assert (∃ r' calls, (if needs then manageJob now answers (FilterActivePods pods) (filterPods pods PodSucceeded) job r
      else Returns (r, [], Z.of_nat (length (FilterActivePods pods)))) = Returns (r', calls,
      Z.of_nat (length (FilterActivePods pods)) + Z.of_nat (createdPods calls) - Z.of_nat (deletedPods calls)) ∧
      no_update calls ∧ ce_ok r') as (r' & calls & -> & Hno & Hr').
    { destruct needs; [by eapply manageJob_active|]. exists r, []. cbn. split_and!; [do 2 f_equal; lia| |done].
      intros ? ? []%elem_of_nil. }
    set (active := _ - _). destruct (isComplete job _ _) eqn:Hc; eexists _, _, _, _, _, _;
      (split; [done|]); cbn; rewrite ?isJobFinishedLoop_app, Hfin, <- isComplete_true, Hc; split_and!;
      try done; try (cbn; intuition congruence); [by eexists|].
    exists []. by rewrite app_nil_r.
Qed.
End facts.

(** ** Properties *)

(** C3: however syncs, pod events, status updates and pods that vanish interleave, the
    pods of a job that run never exceed its parallelism, and those that run or have
    succeeded never exceed its completions (its parallelism, without), or what there
    was to begin with: a pod that was created and not observed yet is expected, and
    nothing is created while it is, unless the expectations expire. *)
Theorem job_never_overshoots (R : RangeOrder) (K : KeySort) (jobSort : Sorts byCreationTimestamp_Less) (podSort : Sorts Less)
    (job : Job) (parallelism : Z) (s : JobController) (c : Cluster) :
  accepted job parallelism → started job s → rtc (cstep job) (mkCluster s 0) c →
  total (running job) c <= Z.max (Z.of_nat (inStore (running job) (podStore s))) parallelism ∧
  total (counted job) c <= Z.max (Z.of_nat (inStore (counted job) (podStore s))) (budget job parallelism).
Proof.
  intros Hacc (Hr & Hst & Hj & Hk & Hfit) Hsteps. set (most := Z.max _ parallelism). set (most_counted := Z.max _ (budget _ _)).
  assert (budget job parallelism <= most_counted < 2 ^ 63) as Hb.
  { pose proof (acc_range _ _ Hacc). pose proof (acc_completions _ _ Hacc) as Hc. unfold most_counted, budget.
    destruct (job_Completions job) as [c'|]; [specialize (Hc c' eq_refl)|]; lia. }
  assert (cluster_ok job most most_counted c) as [_ _ _ _ _ ? ?]; [|done].
  revert Hsteps. apply rtc_ind_r; [|intros; eapply job_cstep_preserves; [exact Hacc|lia|exact Hb|done..]].
  split; cbn; unfold total; cbn; rewrite ?Nat.add_0_r; try done; try lia; rewrite ?Hr; [apply New_ce_ok|].
  unfold expected. by rewrite Hr.
Qed.

(** Managing a job's pods moves their number to where it should be: too many are
    deleted down to the parallelism, those first that come first in the order of
    [ActivePods]; too few are filled up to the parallelism, or to the completions
    that remain, and not at all when a job without completions has one.  The creations
    and deletions that succeed are expected, and the number of active pods that is
    returned is what they leave. *)
Theorem manageJob_spec (R : RangeOrder) (podSort : Sorts Less) (now : Time) (answers : apiAnswers) (pods : list Pod)
    (succeeded parallelism : Z) (job : Job) (r : ControllerExpectations) :
  ce_ok r → fits job parallelism succeeded pods →
  let active := Z.of_nat (length pods) in
  ∃ r' calls, manageJob now answers pods succeeded job r =
      Returns (r', calls, active + Z.of_nat (createdPods calls) - Z.of_nat (deletedPods calls)) ∧
    (∀ k, k ≠ keyOf job → entry r' k = entry r k) ∧
    match Z.compare active parallelism with
    | Gt => ∃ doomed kept, doomed ++ kept ≡ₚ pods ∧ Z.of_nat (length kept) = parallelism ∧
        (∀ p q, p ∈ doomed → q ∈ kept → Less q p = false) ∧
        calls = (λ pod, DeletePod (job_Namespace job) (Name pod) (deleteOk answers (Name pod))) <$> doomed ∧
        entry r' (keyOf job) = Some (mkExpectations 0 (Z.of_nat (deletedPods calls)) (keyOf job) now)
    | Lt => ∃ n, calls = (λ i, CreatePods (job_Namespace job) (job_Name job) (createOk answers i)) <$> seq 0 n ∧
        active + Z.of_nat n = match job_Completions job with
          | None => if 0 <? succeeded then active else parallelism
          | Some completions => Z.max active (Z.min parallelism (completions - succeeded))
          end ∧
        entry r' (keyOf job) = Some (mkExpectations (Z.of_nat (createdPods calls)) 0 (keyOf job) now)
    | Eq => r' = r ∧ calls = []
    end.
Proof.
  intros Hr Hf active. destruct (manageJob_outcome now answers pods succeeded parallelism job r Hr Hf)
    as (r' & calls & active' & -> & _ & Hframe & Hout). exists r', calls.
  destruct Hf as [_ Hrange Hcomp Hs0 Hfit]. fold active in Hout. destruct (Z.compare_spec active parallelism) as [E|Hlt|Hgt].
  - destruct Hout as (-> & -> & ->). cbn. split_and!; [do 2 f_equal; lia|done..].
  - destruct Hout as (-> & -> & ?). rewrite deletedPods_creations, Z.sub_0_r. split_and!; [done..|]. eexists. split_and!; [done| |done].
    unfold missing. destruct (job_Completions job) as [c|]; [|destruct (0 <? succeeded)]; lia.
  - destruct Hout as (-> & -> & ?). rewrite createdPods_deletions, Z.add_0_r. split_and!; [done..|].
    set (n := Z.to_nat (active - parallelism)) in *. exists (take n (sort Less pods)), (drop n (sort Less pods)).
    split_and!; [rewrite take_drop; apply sort_perm|rewrite length_drop, (Permutation_length (sort_perm _)); lia| |done..]. intros p q Hp Hq.
    pose proof (sort_sorted (less := Less) pods) as Hs. rewrite <- (take_drop n (sort Less pods)) in Hs.
    exact (StronglySorted_app_1_elem_of _ _ _ p q Hs Hp Hq).
Qed.

(** C15: once the store of pods is synced, a sync of a job that the API accepts and whose selector
    converts reports the job's state.  A job that has finished is left alone.  Else, before the
    deadline, the status that the sync arrives at counts the pods that it saw, the active
    ones plus those it made and less those it deleted; past the deadline no pod counts as
    active and every pod that was active as failed, whether or not its deletion succeeded.
    It is finished exactly when the deadline is past or the job is complete; it is sent
    unless the stored one has the same counts and there is nothing to finish, and the job
    is queued again when it is refused. *)
Theorem syncJob_reports (R : RangeOrder) (K : KeySort) (podSort : Sorts Less) (now : Time) (answers : apiAnswers)
    (s : JobController) (job : Job) (parallelism : Z) (selector : Selector) :
  podStoreSynced s = true → ce_ok (expectations s) → accepted job parallelism →
  LabelSelectorAsSelector (job_Selector job) = Ok selector →
  items (cacheStorage (jobStore s)) !! keyOf job = Some job →
  let pods := listPods (podStore s) (job_Namespace job) selector in
  Z.of_nat (length pods) < 2 ^ 63 →
  if isJobFinished job then syncJob now answers (keyOf job) s = Returns (s, [])
  else ∃ r calls st, reports now job pods (createdPods calls) (deletedPods calls) st ∧ no_update calls ∧
    (syncJob now answers (keyOf job) s = Returns (with_expectations r s, calls) ∧
       js_Active (job_Status job) = js_Active st ∧ js_Succeeded (job_Status job) = js_Succeeded st ∧
       js_Failed (job_Status job) = js_Failed st ∧ isJobFinishedLoop (js_Conditions st) = false ∨
     syncJob now answers (keyOf job) s = Returns
       (if updateOk answers then with_expectations r s else enqueueController (IObj job) (with_expectations r s),
        calls ++ [UpdateStatus (with_Status st job) (updateOk answers)])).
Proof.
  intros Hsync Hr Hacc Hsel Hjob pods Hfit. unfold syncJob, GetByKey, ThreadSafeStore.Get.
  rewrite Hsync, Hjob, keyOf_key, Hsel. cbn -[runJob isJobFinished]. fold pods.
  set (job1 := with_Status _ job). change (isJobFinished job1) with (isJobFinished job).
  destruct (isJobFinished job) eqn:Hfin; [done|].
  destruct (runJob_reports now answers (SatisfiedExpectations now (keyOf job) (expectations s)) pods parallelism job1 (expectations s))
    as (r & calls & active & failed & conditions & completed & -> & Hno & _ & Hrep & added & -> & Hadd); [done| |done| |].
  { cbn. by destruct (js_StartTime (job_Status job)). }
  { pose proof (listed_fits pods). destruct Hacc. split; [done..|lia|lia]. }
  assert (js_StartTime (job_Status job1) = Some (startTime now job)) as Hs.
  { unfold startTime. cbn. by destruct (js_StartTime (job_Status job)). }
  exists r, calls, (mkJobStatus (js_Conditions (job_Status job) ++ added) (js_StartTime (job_Status job1)) completed active
    (filterPods pods PodSucceeded) failed). split; [|split; [exact Hno|]].
  { unfold reports, late in *. by replace (startTime now job1) with (startTime now job) in Hrep by (unfold startTime at 2; by rewrite Hs). }
  cbn. destruct (negb _ || negb _ || negb _ || negb _) eqn:Hsame; [right|left].
  - destruct (updateOk answers); [done|]. by unfold enqueueController; rewrite !keyOf_key.
  - apply orb_false_iff in Hsame as [[[H1 H2]%orb_false_iff H3]%orb_false_iff H4].
    apply negb_false_iff in H1, H2, H3, H4. apply Z.eqb_eq in H1, H2, H3. apply Nat.eqb_eq in H4.
    split_and!; [done..|]. apply Hadd. rewrite length_app in H4. destruct added; [done|cbn in H4; lia].
Qed.

(** A job past its deadline is reported as failed, without active pods, whether or
    not the deletions of its pods succeed; and a finished job is never synced again,
    so that pods whose deletion failed are left running. *)
Theorem deadline_not_retried (R : RangeOrder) (K : KeySort) (podSort : Sorts Less) (now : Time) (answers : apiAnswers)
    (s : JobController) (job : Job) (selector : Selector) :
  podStoreSynced s = true → LabelSelectorAsSelector (job_Selector job) = Ok selector →
  items (cacheStorage (jobStore s)) !! keyOf job = Some job → isJobFinished job = false → late now job = true →
  let active := FilterActivePods (listPods (podStore s) (job_Namespace job) selector) in
  ∃ s' job', syncJob now answers (keyOf job) s = Returns (s',
      ((λ pod, DeletePod (job_Namespace job) (Name pod) (deleteOk answers (Name pod))) <$> active) ++
      [UpdateStatus job' (updateOk answers)]) ∧
    js_Active (job_Status job') = 0 ∧
    ∀ s2 now2 answers2, podStoreSynced s2 = true → items (cacheStorage (jobStore s2)) !! keyOf job = Some job' →
      syncJob now2 answers2 (keyOf job) s2 = Returns (s2, []).
Proof.
  intros Hsync Hsel Hjob Hfin Hlate active. unfold syncJob at 1, GetByKey, ThreadSafeStore.Get.
  rewrite Hsync, Hjob, keyOf_key, Hsel. cbn -[runJob isJobFinished].
  set (job1 := with_Status _ job). change (isJobFinished job1) with (isJobFinished job). rewrite Hfin.
  assert (pastActiveDeadline now job1 = true) as Hpast.
  { rewrite <- Hlate. unfold pastActiveDeadline, late, startTime. cbn.
    by destruct (job_ActiveDeadlineSeconds job), (js_StartTime (job_Status job)). }
  unfold runJob. rewrite Hpast. fold active. rewrite length_app. cbn [length].
  rewrite (proj2 (Nat.eqb_neq _ _)) by (cbn; lia). rewrite orb_true_r.
  eexists _, _. split; [done|]. split; [done|]. intros s2 now2 answers2 Hsync2 Hjob2.
  unfold syncJob, GetByKey, ThreadSafeStore.Get. rewrite Hsync2, Hjob2, keyOf_key. cbn. rewrite Hsel.
  unfold isJobFinished. cbn. by rewrite isJobFinishedLoop_app, orb_true_r.
Qed.

(** A deadline is exact up to 9223372036 seconds, some 292 years, but one that is
    longer, up to twice that, is past at once, because the duration in nanoseconds
    wraps around. *)
Theorem pastActiveDeadline_bounds (now start seconds : Z) (job : Job) :
  job_ActiveDeadlineSeconds job = Some seconds → js_StartTime (job_Status job) = Some start →
  0 <= now - start < 2 ^ 63 - 1 → 0 <= seconds <= 18446744073 →
  pastActiveDeadline now job = (9223372036 <? seconds) || (seconds * 10 ^ 9 <=? now - start).
Proof.
  intros Hs Ht Hrange Hsec. unfold pastActiveDeadline, time_Sub. rewrite Hs, Ht. rewrite Z.min_r, Z.max_r by lia.
  destruct (Z.ltb_spec 9223372036 seconds) as [Hbig|Hsmall]; cbn [orb].
  - apply Z.leb_le. transitivity 0; [|lia]. unfold int64.
    rewrite <- (Z.mod_add _ (-1)), Z.mod_small by lia. lia.
  - by rewrite int64_id by lia.
Qed.

(** C16: a selector that does not convert stops the controller of jobs for all of its
    namespace: the error is dropped and the nil selector called, so that every addition,
    change (a resync that changes nothing is not looked at) and deletion of a labelled pod
    there panics, and every sync of the job once there is a pod. *)
Theorem invalid_selector_panics (R : RangeOrder) (K : KeySort) (jobSort : Sorts byCreationTimestamp_Less) (podSort : Sorts Less)
    (s : JobController) (job : Job) (pod : Pod) :
  job ∈ Store.List (jobStore s) → selector_error job → job_Namespace job = Namespace pod → pod_Labels pod ≠ ∅ →
  addPod pod s = Panics ∧ (∀ old, updatePod false old pod s = Panics) ∧ deletePod (IObj pod) s = Panics ∧
  (podStoreSynced s = true → pod ∈ Store.List (podStore s) → items (cacheStorage (jobStore s)) !! keyOf job = Some job →
   ∀ now answers, syncJob now answers (keyOf job) s = Panics).
Proof.
  intros Hin Herr Hns Hl. assert (getPodJob pod s = Panics) as Hp by (apply getPodJob_panics; eauto).
  assert (deletePod (IObj pod) s = Panics) as Hd by (cbn; unfold deletePodOf; by rewrite Hp).
  split_and!; [..|done|].
  - unfold addPod. rewrite Hp, Hd. by destruct (DeletionTimestamp pod).
  - intros old. unfold updatePod, enqueueJobOf. rewrite Hp, Hd. by destruct (DeletionTimestamp pod).
  - intros Hsync Hpod Hjob now answers. unfold syncJob, GetByKey, ThreadSafeStore.Get. rewrite Hsync, Hjob, keyOf_key.
    cbn. unfold listJobPods. destruct Herr as [err ->]. rewrite (proj2 (existsb_exists _ _)); [done|].
    exists pod. split; [by apply list_elem_of_In|]. by rewrite Hns, (bool_decide_eq_true_2 (Namespace pod = Namespace pod)), orb_true_r.
Qed.

(** ** Witnesses *)
#[local] Existing Instance canonical_order.
#[local] Existing Instance canonical_sort.

Definition canonical_activePods : Sorts Less.
Proof.
  apply merge_Sorts; intros *; rewrite !Less_rank; [apply lexlt_irrefl|apply lexlt_trans|by apply lexlt_split].
Defined.
#[local] Existing Instance canonical_activePods.

Definition canonical_byCreation : Sorts byCreationTimestamp_Less.
Proof. apply merge_Sorts; apply (age_order job_CreationTimestamp job_Name). Defined.
#[local] Existing Instance canonical_byCreation.

Definition fresh_status : JobStatus := mkJobStatus [] None None 0 0 0.

(** Two completions, one pod at a time, within an hour. *)
Definition example_job : Job :=
  mkJob "ns" "pi" 0 (Some 1) (Some 2) (Some 3600) (Some (mkLabelSelector {["app" := "pi"]} [])) fresh_status.

Definition example_start : JobController :=
  with_jobStore (Store.Add example_job (jobStore NewJobController)).1 (with_synced NewJobController).

Definition all_ok : apiAnswers := mkAnswers (λ _, true) (λ _, true) true.
Definition none_ok : apiAnswers := mkAnswers (λ _, false) (λ _, false) true.

Definition example_pod (phase : string) : Pod :=
  mkPod "ns" "pi-1" {["app" := "pi"]} "" phase [] [] 1%Z None "uid" "1" ∅ "" [] None.

Definition synced_start : JobController :=
  match syncJob 0 all_ok "ns/pi" example_start with Returns (s, _) => s | Panics => example_start end.

Definition first_calls : list apiCall :=
  match syncJob 0 all_ok "ns/pi" example_start with Returns (_, calls) => calls | Panics => [] end.

Definition with_pod : JobController :=
  match observeAdd (example_pod "Running") synced_start with Returns s => s | Panics => synced_start end.

Lemma job_example_accepted : accepted example_job 1.
Proof. split; try done; [|intros c [= <-]; done]. eexists. vm_compute. reflexivity. Qed.

Lemma job_example_started : started example_job example_start.
Proof.
  split_and!; [done| |by exists example_job|done|done]. split; [done|]. intros k job.
  change (jobStore example_start) with (Store.Add example_job (jobStore NewJobController)).1.
  unfold Store.Add. cbn [keyFunc NewJobController jobStore NewStore fst cacheStorage].
  rewrite items_Add, lookup_insert_Some. by intros [[<- <-]|[_ ?]].
Qed.

(** A creation, and its event. *)
Lemma job_never_overshoots_witness :
  rtc (cstep example_job) (mkCluster example_start 0) (mkCluster with_pod 0) ∧
  total (running example_job) (mkCluster with_pod 0) = 1 ∧ total (running example_job) (mkCluster with_pod 0) <= 1 ∧
  total (counted example_job) (mkCluster with_pod 0) <= 2.
Proof.
  assert (rtc (cstep example_job) (mkCluster example_start 0) (mkCluster with_pod 0)) as Hsteps.
  { apply (rtc_l _ _ (mkCluster synced_start 1)).
    - assert (first_calls = [CreatePods "ns" "pi" true; UpdateStatus (with_Status (mkJobStatus [] (Some 0) None 1 0 0) example_job) true])
        as E by (vm_compute; reflexivity).
      pose proof (step_sync example_job 0 all_ok "ns/pi" example_start synced_start first_calls 0) as Hs. rewrite E in Hs.
      apply Hs; [by intros e|vm_compute; reflexivity].
    - apply rtc_once. apply (step_created example_job synced_start with_pod (example_pod "Running") 0). vm_compute. reflexivity. }
  split; [exact Hsteps|]. split; [by vm_compute|].
  exact (job_never_overshoots canonical_order canonical_sort canonical_byCreation canonical_activePods example_job 1
    example_start (mkCluster with_pod 0) job_example_accepted job_example_started Hsteps).
Defined.

(** Two running pods where one is wanted. *)
Lemma manageJob_spec_witness :
  let pods := [example_pod "Running"; example_pod "Pending"] in
  fits example_job 1 0 pods ∧
  ∃ r calls, manageJob 0 all_ok pods 0 example_job NewControllerExpectations = Returns (r, calls, 1) ∧
    calls = [DeletePod "ns" "pi-1" true].
Proof.
  intros pods. assert (fits example_job 1 0 pods) as Hf by (split; try done; intros c [= <-]; done). split; [exact Hf|].
  destruct (manageJob_spec canonical_order canonical_activePods 0 all_ok pods 0 1 example_job NewControllerExpectations
    New_ce_ok Hf) as (r & calls & E & _ & doomed & kept & Hp & Hl & _ & Hc & _).
  apply Permutation_length in Hp. rewrite length_app in Hp. destruct doomed as [|p [|? ?]]; cbn in Hp, Hl; try lia.
  assert (calls = [DeletePod "ns" "pi-1" true]) as ->.
  { assert (manageJob 0 all_ok pods 0 example_job NewControllerExpectations = Returns (r, calls, 1)) as E1 by
      (rewrite E, Hc; reflexivity). vm_compute in E1. by injection E1 as _ <-. }
  exists r. eexists. split; [exact E|done].
Defined.

(** The first sync creates a pod, and reports it. *)
Lemma syncJob_reports_witness :
  accepted example_job 1 ∧
  (∃ r calls st, reports 0 example_job [] (createdPods calls) (deletedPods calls) st ∧ no_update calls ∧
    (syncJob 0 all_ok "ns/pi" example_start = Returns (with_expectations r example_start, calls) ∧
       0 = js_Active st ∧ 0 = js_Succeeded st ∧ 0 = js_Failed st ∧ isJobFinishedLoop (js_Conditions st) = false ∨
     syncJob 0 all_ok "ns/pi" example_start = Returns
       (with_expectations r example_start, calls ++ [UpdateStatus (with_Status st example_job) true]))) ∧
  match syncJob 0 all_ok "ns/pi" example_start with
  | Returns (_, calls) => calls = [CreatePods "ns" "pi" true;
      UpdateStatus (with_Status (mkJobStatus [] (Some 0) None 1 0 0) example_job) true]
  | Panics => False
  end.
Proof.
  split; [apply job_example_accepted|]. split; [|by vm_compute].
  destruct (LabelSelectorAsSelector (job_Selector example_job)) as [sel|] eqn:Hsel; [|by vm_compute in Hsel].
  exact (syncJob_reports canonical_order canonical_sort canonical_activePods 0 all_ok example_start example_job 1 sel
    eq_refl New_ce_ok job_example_accepted Hsel eq_refl eq_refl).
Defined.

(** The hour is over, and the server refuses the deletion. *)
Lemma deadline_not_retried_witness :
  let job := with_Status (mkJobStatus [] (Some 0) None 1 0 0) example_job in
  let s := with_jobStore (Store.Update job (jobStore with_pod)).1 with_pod in
  late (4000 * 10 ^ 9) job = true ∧ ∃ s' job',
    syncJob (4000 * 10 ^ 9) none_ok "ns/pi" s = Returns (s', [DeletePod "ns" "pi-1" false; UpdateStatus job' true]) ∧
    js_Active (job_Status job') = 0 ∧
    ∀ s2 now2 answers2, podStoreSynced s2 = true → items (cacheStorage (jobStore s2)) !! "ns/pi" = Some job' →
      syncJob now2 answers2 "ns/pi" s2 = Returns (s2, []).
Proof.
  intros job s. split; [by vm_compute|].
  destruct (LabelSelectorAsSelector (job_Selector job)) as [sel|] eqn:Hsel; [|by vm_compute in Hsel].
  destruct (deadline_not_retried canonical_order canonical_sort canonical_activePods (4000 * 10 ^ 9) none_ok s job sel)
    as (s' & job' & E & Ha & Hrest); [by vm_compute|exact Hsel|by vm_compute|by vm_compute|by vm_compute|].
  exists s', job'. split; [|split; [exact Ha|exact Hrest]]. etransitivity; [exact E|]. do 2 f_equal. vm_compute in Hsel.
  injection Hsel as <-. by vm_compute.
Defined.

Lemma pastActiveDeadline_bounds_witness :
  let job := mkJob "ns" "pi" 0 (Some 1) None (Some 9223372037) None (mkJobStatus [] (Some 0) None 0 0 0) in
  pastActiveDeadline 5 job = (9223372036 <? 9223372037) || (9223372037 * 10 ^ 9 <=? 5 - 0).
Proof. intros job. apply (pastActiveDeadline_bounds 5 0 9223372037 job); [done|done|lia|lia]. Defined.

(** A value with a space passes the API's validation, which does not look at the values. *)
Definition broken_job : Job :=
  mkJob "ns" "broken" 0 (Some 1) None None (Some (mkLabelSelector ∅ [mkExpr "app" LabelSelectorOpIn ["a b"]])) fresh_status.

Lemma invalid_selector_panics_witness :
  let s := with_jobStore (Store.Add broken_job (jobStore with_pod)).1 with_pod in
  selector_error broken_job ∧ addPod (example_pod "Running") s = Panics ∧
  ∀ now answers, syncJob now answers "ns/broken" s = Panics.
Proof.
  intros s. assert (selector_error broken_job) as Herr by (eexists; vm_compute; reflexivity). split; [exact Herr|].
  destruct (invalid_selector_panics canonical_order canonical_sort canonical_byCreation canonical_activePods s broken_job
    (example_pod "Running")) as (Ha & _ & _ & Hs); [|exact Herr|done|done|].
  - apply elem_of_range_values. exists "ns/broken". by vm_compute.
  - split; [exact Ha|]. apply Hs; [by vm_compute| |by vm_compute].
    apply elem_of_range_values. exists "ns/pi-1". by vm_compute.
Defined.
