(* ===== verification/Daemon.v ===== *)
(** * The daemon set controller

    [pkg/controller/daemon/controller.go]: on every node that should run a daemon
    pod of a daemon set it keeps exactly one.  The handlers of pod events find the
    daemon set of a pod and observe what is expected; those of node events queue the
    daemon sets that the node concerns; a worker syncs a daemon set: [manage]
    creates and deletes pods, [updateDaemonSetStatus] counts the nodes.

    The state holds the expectations, the three stores that the informers fill, the
    lookup cache and the work queue.  The answers of the API server are arguments,
    and the calls made to it are returned in order; the goroutines of [manage] only
    differ in the order of calls that commute, and run one after the other.  The
    status is written through the pointer that the store holds, so that a
    sync changes the store of daemon sets.

    The theorems: which nodes should run a daemon pod; what a sync creates, deletes
    and reports; and, through every interleaving of syncs and events, that no node
    gets a second daemon pod of a daemon set that keeps its selector and is not added again. *)

From S2P Require Import Prelude.
From S2P Require Import SetsString.
From S2P Require Import ThreadSafeStore.
From S2P Require Import Store.
From S2P Require Import WorkQueue.
From S2P Require Import Informer.
From S2P Require Import Strconv.
From S2P Require Import Labels.
From S2P Require Import Expectations.
From S2P Require Import Pods.
From S2P Require Import Listers.
From S2P Require Import Nodes.
From S2P Require Import Predicates.
From S2P Require Import Quantity.
#[local] Open Scope Z_scope.

(** ** State *)

Definition BurstReplicas : Z := 500.
Definition StatusUpdateRetries : nat := 1.

(** The calls to the API server, with their outcome. *)
Inductive apiCall : Type :=
| CreatePodsOnNode (nodeName namespace dsName : string) (ok : bool)
| DeletePod (namespace podName : string) (ok : bool)
| UpdateStatus (ds : DaemonSet) (ok : bool).

(** What the API server answers: to the i-th creation, deletion and status update, and to
    the read of the daemon set after the i-th update. *)
Record apiAnswers : Type := mkAnswers {
  createOk : nat → bool;
  deleteOk : nat → bool;
  updateStatusOk : nat → bool;
  getDaemonSet : nat → option DaemonSet;
}.

Record DaemonSetsController : Type := mkDSC {
  burstReplicas : Z;
  expectations : ControllerExpectations;
  dsStore : cache DaemonSet;
  podStore : cache Pod;
  nodeStore : cache Node;
  podStoreSynced : bool;
  lookupCache : lruCache DaemonSet;
  dsQueue : Queue string;
}.

(** [byCreationTimestamp.Less] and [podByCreationTimestamp.Less] *)
Definition byCreationTimestamp_Less (a b : DaemonSet) : bool :=
  if Z.eqb (ds_CreationTimestamp a) (ds_CreationTimestamp b) then string_lt (ds_Name a) (ds_Name b)
  else ds_CreationTimestamp a <? ds_CreationTimestamp b.

Definition podByCreationTimestamp_Less (a b : Pod) : bool :=
  if Z.eqb (CreationTimestamp a) (CreationTimestamp b) then string_lt (Name a) (Name b)
  else CreationTimestamp a <? CreationTimestamp b.

Section controller.
Context `{R : RangeOrder} `{K : KeySort} `{LabelHash} `{Pow10Conv}.
Context `{dsSort : !Sorts byCreationTimestamp_Less} `{podSort : !Sorts podByCreationTimestamp_Less}.
Implicit Types (s : DaemonSetsController) (ds : DaemonSet) (pod : Pod) (node : Node).

Definition NewDaemonSetsController (lookupCacheSize : nat) : DaemonSetsController :=
  mkDSC BurstReplicas NewControllerExpectations (NewStore (λ o, Ok (keyOf o))) (NewStore (λ o, Ok (keyOf o)))
    (NewStore (λ o, Ok (keyOf o))) false (NewMatchingCache lookupCacheSize) WorkQueue.New.

Definition with_expectations r s :=
  mkDSC (burstReplicas s) r (dsStore s) (podStore s) (nodeStore s) (podStoreSynced s) (lookupCache s) (dsQueue s).
Definition with_cache c s :=
  mkDSC (burstReplicas s) (expectations s) (dsStore s) (podStore s) (nodeStore s) (podStoreSynced s) c (dsQueue s).
Definition with_queue q s :=
  mkDSC (burstReplicas s) (expectations s) (dsStore s) (podStore s) (nodeStore s) (podStoreSynced s) (lookupCache s) q.
Definition with_dsStore st s :=
  mkDSC (burstReplicas s) (expectations s) st (podStore s) (nodeStore s) (podStoreSynced s) (lookupCache s) (dsQueue s).
Definition with_podStore st s :=
  mkDSC (burstReplicas s) (expectations s) (dsStore s) st (nodeStore s) (podStoreSynced s) (lookupCache s) (dsQueue s).
Definition with_nodeStore st s :=
  mkDSC (burstReplicas s) (expectations s) (dsStore s) (podStore s) st (podStoreSynced s) (lookupCache s) (dsQueue s).
Definition with_synced s :=
  mkDSC (burstReplicas s) (expectations s) (dsStore s) (podStore s) (nodeStore s) true (lookupCache s) (dsQueue s).

(** ** Queueing *)

Definition enqueueDaemonSet ds s : DaemonSetsController :=
  match DeletionHandlingMetaNamespaceKeyFunc (IObj ds) with
  | Err _ => s
  | Ok key => with_queue (WorkQueue.Add key (dsQueue s)).1 s
  end.

(** [StoreToDaemonSetLister.List], which never fails. *)
Definition listDaemonSets (store : cache DaemonSet) : list DaemonSet :=
  foldl (λ dss c, dss ++ [c]) [] (Store.List store).

Definition enqueueAllDaemonSets s : DaemonSetsController :=
  foldl (λ s ds, enqueueDaemonSet ds s) s (listDaemonSets (dsStore s)).

(** ** Finding the daemon set of a pod *)

Definition isDaemonSetMatch pod ds : bool :=
  if bool_decide (ds_Namespace ds ≠ Namespace pod) then false
  else
    match LabelSelectorAsSelector (ds_Selector ds) with
    | Err _ => false
    | Ok selector => if Labels.Empty selector || negb (Labels.Matches selector (pod_Labels pod)) then false else true
    end.

Definition isCacheValid pod (cachedDS : DaemonSet) s : bool :=
  match Store.Get cachedDS (dsStore s) with
  | Ok (Some _) => if negb (isDaemonSetMatch pod cachedDS) then false else true
  | _ => false
  end.

(** The search of the store, when the cache does not help. *)
Definition searchDaemonSet pod s : DaemonSetsController * option DaemonSet :=
  match GetPodDaemonSets (dsStore s) pod with
  | (_, Some _) => (s, None)
  | (sets, None) =>
      let sets := if Nat.ltb 1 (length sets) then sort byCreationTimestamp_Less sets else sets in
      match sets with
      | ds :: _ => (with_cache (matching_Update pod ds (lookupCache s)) s, Some ds)
      | [] => (s, None)
      end
  end.

Definition getPodDaemonSet pod s : DaemonSetsController * option DaemonSet :=
  let '(c, cached) := GetMatchingObject pod (lookupCache s) in
  let s := with_cache c s in
  match cached with
  | Some ds => if isCacheValid pod ds s then (s, Some ds) else searchDaemonSet pod s
  | None => searchDaemonSet pod s
  end.

(** ** Whether a node should run a daemon pod *)

(** The pods of the node that do not belong to the daemon set. *)
Fixpoint otherPods node ds (l pods : list Pod) s : list Pod * DaemonSetsController :=
  match l with
  | [] => (pods, s)
  | pod :: l =>
      if bool_decide (NodeName pod ≠ node_Name node) then otherPods node ds l pods s
      else
        let '(s, pds) := getPodDaemonSet pod s in
        match pds with
        | Some pds =>
            if bool_decide (ds_Name ds = ds_Name pds) then otherPods node ds l pods s else otherPods node ds l (pods ++ [pod]) s
        | None => otherPods node ds l (pods ++ [pod]) s
        end
  end.

(** The last loop: whether no host port is taken twice. *)
Fixpoint uniqueHostPorts (pods : list Pod) (ports : gset string) : bool :=
  match pods with
  | [] => true
  | pod :: pods =>
      let '(errs, ports) := AccumulateUniqueHostPorts (Containers pod) ports in
      if Nat.ltb 0 (length errs) then false else uniqueHostPorts pods ports
  end.

Definition outOfDisk node : bool :=
  existsb (λ c, bool_decide (nc_Type c = NodeOutOfDisk) && bool_decide (nc_Status c = ConditionTrue)) (node_Conditions node).

(** The pod of the template, on the node. *)
Definition templatePod node ds : Pod :=
  mkPod "" "" ∅ (node_Name node) "" [] [] 0 None "" "" ∅ "" (spec_Containers (ds_Template ds)) None.

Definition nodeShouldRunDaemonPod node ds s : bool * DaemonSetsController :=
  let nodeSelector := SelectorFromSet (spec_NodeSelector (ds_Template ds)) in
  let nodeName := spec_NodeName (ds_Template ds) in
  if negb (Labels.Matches nodeSelector (node_Labels node)) then (false, s)
  else if negb (bool_decide (nodeName = "") || bool_decide (nodeName = node_Name node)) then (false, s)
  else if outOfDisk node then (false, s)
  else
    let '(pods, s) := otherPods node ds (Store.List (podStore s)) [templatePod node ds] s in
    let '(_, notFittingCPU, notFittingMemory) := CheckPodsExceedingFreeResources pods (Allocatable node) in
    if negb (Nat.eqb (length notFittingCPU + length notFittingMemory) 0) then (false, s)
    else (uniqueHostPorts pods ∅, s).

(** ** Handlers *)

(** Of the daemon set informer; [updateDaemonSet] is told whether the selectors are equal.
    [deleteDaemonSet] asserts the type of the object, which a tombstone has not. *)
Definition addDaemonSet ds s : DaemonSetsController := enqueueDaemonSet ds s.

Definition updateDaemonSet (sameSelector : bool) (cur : DaemonSet) s : DaemonSetsController :=
  let s := if negb sameSelector then with_cache (InvalidateAll (lookupCache s)) s else s in
  enqueueDaemonSet cur s.

Definition deleteDaemonSet (obj : iface DaemonSet) s : outcome DaemonSetsController :=
  match obj with
  | IObj ds => Returns (enqueueDaemonSet ds s)
  | _ => Panics
  end.

Definition addPod pod s : DaemonSetsController :=
  match getPodDaemonSet pod s with
  | (s, Some ds) =>
      match DeletionHandlingMetaNamespaceKeyFunc (IObj ds) with
      | Err _ => s
      | Ok dsKey => enqueueDaemonSet ds (with_expectations (CreationObserved dsKey (expectations s)) s)
      end
  | (s, None) => s
  end.

(** [same]: the old and the new object are deeply equal. *)
Definition updatePod (same : bool) (oldPod curPod : Pod) s : DaemonSetsController :=
  if same then s
  else
    let '(s, curDS) := getPodDaemonSet curPod s in
    let s := match curDS with Some ds => enqueueDaemonSet ds s | None => s end in
    if bool_decide (pod_Labels curPod ≠ pod_Labels oldPod) then
      let '(s, oldDS) := getPodDaemonSet oldPod s in
      match oldDS with Some ds => enqueueDaemonSet ds s | None => s end
    else s.

Definition deletePodOf pod s : DaemonSetsController :=
  match getPodDaemonSet pod s with
  | (s, Some ds) =>
      match DeletionHandlingMetaNamespaceKeyFunc (IObj ds) with
      | Err _ => s
      | Ok dsKey => enqueueDaemonSet ds (with_expectations (DeletionObserved dsKey (expectations s)) s)
      end
  | (s, None) => s
  end.

Definition deletePod (obj : iface Pod) s : DaemonSetsController :=
  match obj with
  | IObj pod => deletePodOf pod s
  | IDeletedFinalStateUnknown _ (Some (IObj pod)) => deletePodOf pod s
  | _ => s
  end.

Definition addNode node s : DaemonSetsController :=
  foldl (λ s ds, let '(shouldEnqueue, s) := nodeShouldRunDaemonPod node ds s in if shouldEnqueue then enqueueDaemonSet ds s else s)
    s (listDaemonSets (dsStore s)).

Definition updateNode (oldNode curNode : Node) s : DaemonSetsController :=
  if bool_decide (node_Name oldNode = node_Name curNode) && bool_decide (node_Namespace oldNode = node_Namespace curNode) &&
     bool_decide (node_Labels oldNode = node_Labels curNode)
  then s
  else foldl (λ s ds,
    let '(oldRun, s) := nodeShouldRunDaemonPod oldNode ds s in
    let '(curRun, s) := nodeShouldRunDaemonPod curNode ds s in
    if negb (Bool.eqb oldRun curRun) then enqueueDaemonSet ds s else s) s (listDaemonSets (dsStore s)).

(** ** Syncing *)

Definition getNodesToDaemonPods ds s : result string (gmap string (list Pod)) :=
  match LabelSelectorAsSelector (ds_Selector ds) with
  | Err err => Err err
  | Ok selector => Ok (foldl (λ nodeToDaemonPods pod,
      <[NodeName pod := default [] (nodeToDaemonPods !! NodeName pod) ++ [pod]]> nodeToDaemonPods) ∅
      (listPods (podStore s) (ds_Namespace ds) selector))
  end.

(** An error is logged, and the nil map is used. *)
Definition nodeToDaemonPodsOf ds s : gmap string (list Pod) :=
  match getNodesToDaemonPods ds s with Ok m => m | Err _ => ∅ end.

(** The loop of [manage] over the nodes; their names are different, so that what the sort
    changes in place is not read again. *)
Fixpoint manageLoop ds (nodeToDaemonPods : gmap string (list Pod)) (nodes : list Node)
    (nodesNeedingDaemonPods podsToDelete : list string) s : list string * list string * DaemonSetsController :=
  match nodes with
  | [] => (nodesNeedingDaemonPods, podsToDelete, s)
  | node :: nodes =>
      let '(shouldRun, s) := nodeShouldRunDaemonPod node ds s in
      let daemonPods := default [] (nodeToDaemonPods !! node_Name node) in
      let isRunning := bool_decide (is_Some (nodeToDaemonPods !! node_Name node)) in
      if shouldRun && negb isRunning then
        manageLoop ds nodeToDaemonPods nodes (nodesNeedingDaemonPods ++ [node_Name node]) podsToDelete s
      else if shouldRun && Nat.ltb 1 (length daemonPods) then
        manageLoop ds nodeToDaemonPods nodes nodesNeedingDaemonPods
          (podsToDelete ++ (Name <$> drop 1 (sort podByCreationTimestamp_Less daemonPods))) s
      else if negb shouldRun && isRunning then
        manageLoop ds nodeToDaemonPods nodes nodesNeedingDaemonPods (podsToDelete ++ (Name <$> daemonPods)) s
      else manageLoop ds nodeToDaemonPods nodes nodesNeedingDaemonPods podsToDelete s
  end.

(** The goroutines: a call that fails lowers the expectation again. *)
Fixpoint createLoop ds (dsKey : string) (answers : nat → bool) (i : nat) (names : list string) (r : ControllerExpectations) :
    ControllerExpectations * list apiCall :=
  match names with
  | [] => (r, [])
  | name :: names =>
      let r := if answers i then r else CreationObserved dsKey r in
      let '(r, calls) := createLoop ds dsKey answers (S i) names r in
      (r, CreatePodsOnNode name (ds_Namespace ds) (ds_Name ds) (answers i) :: calls)
  end.

Fixpoint deleteLoop ds (dsKey : string) (answers : nat → bool) (i : nat) (names : list string) (r : ControllerExpectations) :
    ControllerExpectations * list apiCall :=
  match names with
  | [] => (r, [])
  | name :: names =>
      let r := if answers i then r else DeletionObserved dsKey r in
      let '(r, calls) := deleteLoop ds dsKey answers (S i) names r in
      (r, DeletePod (ds_Namespace ds) name (answers i) :: calls)
  end.

(** A wait group panics when its counter is negative. *)
Definition manage (now : Z) (answers : apiAnswers) ds s : outcome (DaemonSetsController * list apiCall) :=
  let '(nodesNeedingDaemonPods, podsToDelete, s) :=
    manageLoop ds (nodeToDaemonPodsOf ds s) (nodeLister_List (nodeStore s)) [] [] s in
  match DeletionHandlingMetaNamespaceKeyFunc (IObj ds) with
  | Err _ => Returns (s, [])
  | Ok dsKey =>
      let createDiff := Z.of_nat (length nodesNeedingDaemonPods) in
      let deleteDiff := Z.of_nat (length podsToDelete) in
      let createDiff := if burstReplicas s <? createDiff then burstReplicas s else createDiff in
      let deleteDiff := if burstReplicas s <? deleteDiff then burstReplicas s else deleteDiff in
      let r := (SetExpectations now dsKey createDiff deleteDiff (expectations s)).1 in
      if (createDiff <? 0) || (deleteDiff <? 0) then Panics
      else
        let '(r, creations) := createLoop ds dsKey (createOk answers) 0 (take (Z.to_nat createDiff) nodesNeedingDaemonPods) r in
        let '(r, deletions) := deleteLoop ds dsKey (deleteOk answers) 0 (take (Z.to_nat deleteDiff) podsToDelete) r in
        Returns (with_expectations r s, creations ++ deletions)
  end.

Definition with_status (status : DaemonSetStatus) ds : DaemonSet :=
  mkDaemonSet (ds_Namespace ds) (ds_Name ds) (ds_CreationTimestamp ds) (ds_Selector ds) (ds_Template ds) status.

(** The loop of [storeDaemonSetStatus], with the retries left; [false] is an error. *)
Fixpoint statusLoop (answers : apiAnswers) (retries i : nat) (status : DaemonSetStatus) ds : list apiCall * bool :=
  let ds := with_status status ds in
  let call := UpdateStatus ds (updateStatusOk answers i) in
  if updateStatusOk answers i then ([call], true)
  else
    match getDaemonSet answers i with
    | None => ([call], false)
    | Some ds =>
        match retries with
        | O => ([call], false)
        | S retries => let '(calls, ok) := statusLoop answers retries (S i) status ds in (call :: calls, ok)
        end
    end.

Definition statusIs (status : DaemonSetStatus) ds : bool :=
  Z.eqb (DesiredNumberScheduled (ds_Status ds)) (DesiredNumberScheduled status) &&
  Z.eqb (CurrentNumberScheduled (ds_Status ds)) (CurrentNumberScheduled status) &&
  Z.eqb (NumberMisscheduled (ds_Status ds)) (NumberMisscheduled status).

(** The calls, whether there was no error, and the object that [ds] points to afterwards. *)
Definition storeDaemonSetStatus (answers : apiAnswers) (status : DaemonSetStatus) ds : list apiCall * bool * DaemonSet :=
  if statusIs status ds then ([], true, ds)
  else (statusLoop answers StatusUpdateRetries 0 status ds, with_status status ds).

(** The counters of [updateDaemonSetStatus]. *)
Fixpoint statusOfNodes ds (nodeToDaemonPods : gmap string (list Pod)) (nodes : list Node) (status : DaemonSetStatus) s :
    DaemonSetStatus * DaemonSetsController :=
  match nodes with
  | [] => (status, s)
  | node :: nodes =>
      let '(shouldRun, s) := nodeShouldRunDaemonPod node ds s in
      let numDaemonPods := length (default [] (nodeToDaemonPods !! node_Name node)) in
      let current := if shouldRun && Nat.ltb 0 numDaemonPods then CurrentNumberScheduled status + 1 else CurrentNumberScheduled status in
      let desired := if shouldRun then DesiredNumberScheduled status + 1 else DesiredNumberScheduled status in
      let missed := if negb shouldRun && Nat.ltb 0 numDaemonPods then NumberMisscheduled status + 1 else NumberMisscheduled status in
      statusOfNodes ds nodeToDaemonPods nodes (mkDaemonSetStatus current missed desired) s
  end.

(** A write to the object that the store holds under [key]. *)
Definition overwrite (key : string) ds (store : cache DaemonSet) : cache DaemonSet :=
  let c := cacheStorage store in
  mkCache (mkThreadSafeMap (<[key := ds]> (items c)) (indexers c) (indices c)) (keyFunc store).

(** [ds] is the object in the store under [key]. *)
Definition updateDaemonSetStatus (answers : apiAnswers) (key : string) ds s : DaemonSetsController * list apiCall :=
  let '(status, s) := statusOfNodes ds (nodeToDaemonPodsOf ds s) (nodeLister_List (nodeStore s)) (mkDaemonSetStatus 0 0 0) s in
  let '(calls, _, ds) := storeDaemonSetStatus answers status ds in
  (with_dsStore (overwrite key ds (dsStore s)) s, calls).

Definition syncDaemonSet (now : Z) (answers : apiAnswers) (key : string) s :
    outcome (DaemonSetsController * list apiCall * option string) :=
  if negb (podStoreSynced s) then Returns (with_queue (WorkQueue.Add key (dsQueue s)).1 s, [], None)
  else
    match Store.GetByKey key (dsStore s) with
    | Err _ => Returns (with_queue (WorkQueue.Add key (dsQueue s)).1 s, [], Some "unable to retrieve ds from store")
    | Ok None => Returns (with_expectations (DeleteExpectations key (expectations s)) s, [], None)
    | Ok (Some ds) =>
        match DeletionHandlingMetaNamespaceKeyFunc (IObj ds) with
        | Err _ => Returns (s, [], Some "couldn't get key for object")
        | Ok dsKey =>
            let dsNeedsSync := SatisfiedExpectations now dsKey (expectations s) in
            '(s, calls) ← (if dsNeedsSync then manage now answers ds s else Returns (s, []));
            let '(s, updates) := updateDaemonSetStatus answers key ds s in
            Returns (s, calls ++ updates, None)
        end
    end.

(** One turn of a worker: [None] when it would wait or quit. *)
Definition processNext (now : Z) (answers : apiAnswers) s : option (outcome (DaemonSetsController * list apiCall)) :=
  match WorkQueue.Get (dsQueue s) with
  | (q, Got key) => Some (
      '(s, calls, _) ← syncDaemonSet now answers key (with_queue q s);
      Returns (with_queue (WorkQueue.Done key (dsQueue s)).1 s, calls))
  | _ => None
  end.

(** ** The informers

    What [processDeltas] does with a delta: the store changes first, then the handler
    runs. *)
Definition observeAdd pod s : DaemonSetsController := addPod pod (with_podStore (Store.Add pod (podStore s)).1 s).
Definition observeUpdate (same : bool) (old cur : Pod) s : DaemonSetsController :=
  updatePod same old cur (with_podStore (Store.Update cur (podStore s)).1 s).
Definition observeDelete (obj : iface Pod) s : DaemonSetsController :=
  match DeletionHandlingMetaNamespaceKeyFunc obj with
  | Err _ => s
  | Ok k => deletePod obj (with_podStore (mkCache (ThreadSafeStore.Delete k (cacheStorage (podStore s))) (keyFunc (podStore s))) s)
  end.
Definition observeNode node s : DaemonSetsController := addNode node (with_nodeStore (Store.Add node (nodeStore s)).1 s).
Definition observeNodeUpdate (old cur : Node) s : DaemonSetsController :=
  updateNode old cur (with_nodeStore (Store.Update cur (nodeStore s)).1 s).
Definition observeDaemonSetAdd (cur : DaemonSet) s : DaemonSetsController :=
  addDaemonSet cur (with_dsStore (Store.Add cur (dsStore s)).1 s).
Definition observeDaemonSet (sameSelector : bool) (cur : DaemonSet) s : DaemonSetsController :=
  updateDaemonSet sameSelector cur (with_dsStore (Store.Update cur (dsStore s)).1 s).
Definition observeDaemonSetDelete (obj : iface DaemonSet) s : outcome DaemonSetsController :=
  match DeletionHandlingMetaNamespaceKeyFunc obj with
  | Err _ => Returns s
  | Ok k => deleteDaemonSet obj (with_dsStore (mkCache (ThreadSafeStore.Delete k (cacheStorage (dsStore s))) (keyFunc (dsStore s))) s)
  end.
End controller.

(** ** The cluster

    The controller, and the pods of one daemon set that the server has created and the
    controller has not heard of. *)
Record Cluster : Type := mkCluster { ctl : DaemonSetsController; pending : list Pod }.

(** ** Facts *)
Section facts.
Context `{R : RangeOrder} `{K : KeySort} `{LabelHash} `{Pow10Conv}.
Context `{dsSort : !Sorts byCreationTimestamp_Less} `{podSort : !Sorts podByCreationTimestamp_Less}.
Implicit Types (s : DaemonSetsController) (ds : DaemonSet) (pod : Pod) (node : Node) (r : ControllerExpectations).

(** *** Finding the daemon set of a pod *)

Lemma isDaemonSetMatch_owns pod ds : isDaemonSetMatch pod ds = true → ds_owns ds pod.
Proof.
  unfold isDaemonSetMatch. case_bool_decide as Hns; [done|].
  destruct (LabelSelectorAsSelector (ds_Selector ds)) as [sel|] eqn:Hs; [|done].
  intros Hm. apply (owned_Matches _ _ pod sel Hs Hns). by destruct (_ || _).
Qed.

(** What the handlers of the daemon set informer keep up: the store has daemon sets under
    their keys, and a cached one that is still stored has the selector it had. *)
Record coherent s : Prop := {
  coh_keyFunc : keyFunc (dsStore s) = λ o, Ok (keyOf o);
  coh_keys k ds : items (cacheStorage (dsStore s)) !! k = Some ds → keyOf ds = k;
  coh_cache h ds' ds : (h, ds') ∈ ll (lookupCache s) → items (cacheStorage (dsStore s)) !! keyOf ds' = Some ds →
    ds_Namespace ds = ds_Namespace ds' ∧ ds_Name ds = ds_Name ds' ∧ ds_Selector ds = ds_Selector ds';
}.

(** Only the lookup cache changes. *)
Definition lookup_only s s' : Prop := s' = with_cache (lookupCache s') s ∧ (coherent s → coherent s').

Lemma lookup_only_refl s : lookup_only s s.
Proof. split; [by destruct s|done]. Qed.

Lemma lookup_only_trans s1 s2 s3 : lookup_only s1 s2 → lookup_only s2 s3 → lookup_only s1 s3.
Proof. intros [E2 H2] [E3 H3]. split; [|auto]. rewrite E3, E2. done. Qed.

Lemma lookup_only_cache s c : (∀ e, e ∈ ll c → e ∈ ll (lookupCache s) ∨
    items (cacheStorage (dsStore s)) !! keyOf e.2 = Some e.2) → lookup_only s (with_cache c s).
Proof.
  intros Hc. split; [done|]. intros [? ? Hold]. split; [done..|]. intros h ds' ds Hin Hds. cbn in Hin, Hds.
  destruct (Hc _ Hin) as [Hin'|E]; [by apply (Hold h)|]. cbn in E. rewrite Hds in E. by injection E as ->.
Qed.

(** The daemon sets whose pods [pod] may be: the stored one under the key of the result. *)
Definition found pod s (r : option DaemonSet) : Prop :=
  match r with
  | Some ds => ∃ ds', items (cacheStorage (dsStore s)) !! keyOf ds = Some ds' ∧ ds_owns ds' pod ∧ ds_Name ds' = ds_Name ds
  | None => is_Some (GetPodDaemonSets (dsStore s) pod).2
  end.

Lemma searchDaemonSet_ok pod s : coherent s →
  let '(s', r) := searchDaemonSet pod s in lookup_only s s' ∧ found pod s r.
Proof.
  intros Hs. unfold searchDaemonSet, found. pose proof (GetPodDaemonSets_ok (dsStore s) pod) as Hg.
  destruct (GetPodDaemonSets (dsStore s) pod) as [sets [err|]]; [split; [apply lookup_only_refl|by eexists]|].
  destruct Hg as [Herr Hin]. specialize (Hin eq_refl). cbn [fst snd] in *.
  pose proof (sort_head byCreationTimestamp_Less sets) as Hhead. set (sorted := if Nat.ltb _ _ then _ else _) in *.
  assert (sorted ≡ₚ sets) as Hp by (unfold sorted; case_match; [apply sort_perm|done]).
  destruct sorted as [|ds l].
  { apply Permutation_nil in Hp as ->. exfalso. assert (is_Some (@None string)) as []; [|done]. apply Herr. do 2 right.
    intros ds Hds Ho. apply (elem_of_nil ds). by apply Hin. }
  destruct (Hhead ds l eq_refl) as [[Hds Ho]%Hin _].
  apply elem_of_range_values in Hds as [k Hk]. pose proof (coh_keys s Hs k ds Hk) as <-.
  split; [|by exists ds]. apply lookup_only_cache. intros e [->|?]%elem_of_lru_Add; [by right|by left].
Qed.

Lemma getPodDaemonSet_ok pod s : coherent s →
  let '(s', r) := getPodDaemonSet pod s in lookup_only s s' ∧ found pod s r.
Proof.
  intros Hs. unfold getPodDaemonSet, GetMatchingObject.
  pose proof (lru_Get_ok (lookupKey pod) (lookupCache s)) as Hl.
  destruct (lru_Get _ _) as [c cached]. destruct Hl as [Hc Hin].
  assert (lookup_only s (with_cache c s)) as Hs' by (apply lookup_only_cache; auto).
  pose proof (searchDaemonSet_ok pod (with_cache c s) (proj2 Hs' Hs)) as Hsearch.
  assert (let '(s', r) := searchDaemonSet pod (with_cache c s) in lookup_only s s' ∧ found pod s r) as Hfound.
  { destruct (searchDaemonSet _ _) as [s' r]. destruct Hsearch as [? ?]. split; [by eapply lookup_only_trans|done]. }
  destruct cached as [ds|]; [|done].
  unfold isCacheValid, Store.Get, GetByKey, ThreadSafeStore.Get. cbn [dsStore with_cache]. rewrite (coh_keyFunc s Hs).
  destruct (items _ !! keyOf ds) as [ds'|] eqn:Hds; [|done].
  destruct (isDaemonSetMatch pod ds) eqn:Hm; [|done]. cbn [negb]. split; [done|]. exists ds'. split; [done|].
  destruct (coh_cache s Hs _ _ _ (Hin ds eq_refl) Hds) as (Hns & Hname & Hsel).
  apply isDaemonSetMatch_owns in Hm. unfold ds_owns in *. by rewrite Hns, Hsel.
Qed.

(** *** Which nodes should run a daemon pod *)

(** Looking for owners whatever the state of the cache: only the cache changes. *)
Lemma otherPods_lookup node ds l : ∀ pods s, coherent s → lookup_only s (otherPods node ds l pods s).2.
Proof.
  induction l as [|pod l IH]; intros pods s Hs; cbn [otherPods]; [apply lookup_only_refl|].
  case_bool_decide; [by apply IH|]. pose proof (getPodDaemonSet_ok pod s Hs) as Hg.
  destruct (getPodDaemonSet pod s) as [s' r]. destruct Hg as [Hl _].
  destruct r; [case_bool_decide|]; (eapply lookup_only_trans; [exact Hl|apply IH, (proj2 Hl Hs)]).
Qed.

Lemma nodeShouldRun_lookup node ds s : coherent s → lookup_only s (nodeShouldRunDaemonPod node ds s).2.
Proof.
  intros Hs. unfold nodeShouldRunDaemonPod. repeat (case_match; [apply lookup_only_refl|]).
  pose proof (otherPods_lookup node ds (Store.List (podStore s)) [templatePod node ds] s Hs) as Hl.
  destruct (otherPods _ _ _ _ _) as [pods s']. cbn in Hl.
  destruct (CheckPodsExceedingFreeResources _ _) as [[fit nc] nm]. by case_match.
Qed.

(** The API accepts no invalid selector, no two daemon sets select one pod, and none selects a
    pod without labels. *)
Record orderly s : Prop := {
  or_coherent : coherent s;
  or_valid ds : ds ∈ Store.List (dsStore s) → selector_valid (ds_Selector ds);
  or_exclusive pod ds ds' : pod ∈ Store.List (podStore s) → ds ∈ Store.List (dsStore s) → ds' ∈ Store.List (dsStore s) →
    ds_owns ds pod → ds_owns ds' pod → ds = ds';
  or_labels pod ds : pod ∈ Store.List (podStore s) → ds ∈ Store.List (dsStore s) → ds_owns ds pod → pod_Labels pod ≠ ∅;
}.

Lemma owns_isDaemonSetMatch pod ds : selector_valid (ds_Selector ds) → ds_owns ds pod → isDaemonSetMatch pod ds = true.
Proof.
  intros Hv Ho. pose proof Ho as [Hns _]. unfold isDaemonSetMatch. rewrite bool_decide_eq_false_2 by auto.
  pose proof (LabelSelectorAsSelector_ok (ds_Selector ds)) as Hok.
  destruct (LabelSelectorAsSelector (ds_Selector ds)) as [sel|] eqn:Hs; [|done].
  by rewrite (proj2 (owned_Matches _ _ pod sel Hs Hns)).
Qed.

(** The pod belongs to a daemon set of that name. *)
Definition claimed s (name : string) pod : bool :=
  existsb (λ ds, isDaemonSetMatch pod ds && bool_decide (ds_Name ds = name)) (Store.List (dsStore s)).

Lemma claimed_true s name pod : orderly s →
  claimed s name pod = true ↔ ∃ ds, ds ∈ Store.List (dsStore s) ∧ ds_owns ds pod ∧ ds_Name ds = name.
Proof.
  intros Hs. unfold claimed. rewrite existsb_exists. setoid_rewrite <- list_elem_of_In.
  setoid_rewrite andb_true_iff. setoid_rewrite bool_decide_eq_true. split.
  - intros (ds & Hin & Hm & Hn). exists ds. split_and!; [done|by apply isDaemonSetMatch_owns|done].
  - intros (ds & Hin & Ho & Hn). exists ds. split_and!; [done|apply owns_isDaemonSetMatch; [by apply (or_valid s)|done]|done].
Qed.

(** The search tells whose pod it is. *)
Lemma getPodDaemonSet_claimed pod name s : orderly s → pod ∈ Store.List (podStore s) →
  match (getPodDaemonSet pod s).2 with
  | Some pds => bool_decide (name = ds_Name pds) = claimed s name pod
  | None => claimed s name pod = false
  end.
Proof.
  intros Hs Hpod. pose proof (getPodDaemonSet_ok pod s (or_coherent s Hs)) as Hg.
  pose proof (claimed_true s name pod Hs) as Hc.
  destruct (getPodDaemonSet pod s) as [s' [pds|]]; destruct Hg as [_ Hf]; cbn in *.
  - destruct Hf as (ds & Hds & Ho & Hn). assert (ds ∈ Store.List (dsStore s)) by (apply elem_of_stored; eauto). apply eq_true_iff_eq.
    rewrite bool_decide_eq_true, Hc. split; [intros ->; by exists ds|].
    intros (ds' & Hds' & Ho' & <-). rewrite <- Hn. f_equal. by apply (or_exclusive s Hs pod).
  - pose proof (GetPodDaemonSets_ok (dsStore s) pod) as [Herr _]. apply Herr in Hf.
    apply not_true_is_false. rewrite Hc. intros (ds & Hds & Ho & _).
    destruct Hf as [E|[(ds' & Hds' & _ & Hno)|Hno]]; [|by apply Hno, (or_valid s)|by apply (Hno ds)].
    by apply (or_labels s Hs pod ds).
Qed.

Lemma claimed_lookup s s' name pod : lookup_only s s' → claimed s' name pod = claimed s name pod.
Proof. by intros [-> _]. Qed.

Lemma orderly_lookup s s' : lookup_only s s' → orderly s → orderly s'.
Proof. intros [E Hc] [Hcoh Hv Hx Hl]. split; [by apply Hc|..]; rewrite E; cbn; [exact Hv|exact Hx|exact Hl]. Qed.

(** The pods of the node that count: not those of daemon sets of that name. *)
Definition others s node ds : list Pod :=
  filter (λ pod, NodeName pod = node_Name node ∧ claimed s (ds_Name ds) pod = false) (Store.List (podStore s)).

Lemma otherPods_eq node ds l : ∀ pods s, orderly s → (∀ pod, pod ∈ l → pod ∈ Store.List (podStore s)) →
  (otherPods node ds l pods s).1 =
    pods ++ filter (λ pod, NodeName pod = node_Name node ∧ claimed s (ds_Name ds) pod = false) l.
Proof.
  induction l as [|pod l IH]; intros pods s Hs Hin; cbn [otherPods]; [by rewrite app_nil_r|].
  assert (∀ pod', pod' ∈ l → pod' ∈ Store.List (podStore s)) as Hin' by (intros pod' ?; apply Hin; by right).
  destruct (decide (NodeName pod = node_Name node)) as [En|En].
  2: { rewrite bool_decide_eq_true_2 by done. rewrite filter_cons_False by tauto. by apply IH. }
  rewrite bool_decide_eq_false_2 by (intros Hne; by apply Hne).
  pose proof (getPodDaemonSet_claimed pod (ds_Name ds) s Hs (Hin pod ltac:(left))) as Hc.
  pose proof (getPodDaemonSet_ok pod s (or_coherent s Hs)) as Hg.
  destruct (getPodDaemonSet pod s) as [s' r]. destruct Hg as [Hl _]. cbn [snd] in Hc.
  assert (∀ pods, (otherPods node ds l pods s').1 =
    pods ++ filter (λ pod, NodeName pod = node_Name node ∧ claimed s (ds_Name ds) pod = false) l) as IH'.
  { intros pods'. rewrite IH; [|by eapply orderly_lookup|by rewrite (proj1 Hl)]. f_equal. apply list_filter_iff.
    intros pod'. by rewrite (claimed_lookup s s'). }
  destruct r as [pds|]; [destruct (bool_decide (ds_Name ds = ds_Name pds))|].
  - rewrite filter_cons_False by (intros [_ ?]; congruence). apply IH'.
  - rewrite filter_cons_True by done. by rewrite IH', <- app_assoc.
  - rewrite filter_cons_True by done. by rewrite IH', <- app_assoc.
Qed.

(** Whether a node should run a daemon pod, by the stores alone. *)
Definition should_run s node ds : bool :=
  let pods := templatePod node ds :: others s node ds in
  let '(_, notFittingCPU, notFittingMemory) := CheckPodsExceedingFreeResources pods (Allocatable node) in
  Labels.Matches (SelectorFromSet (spec_NodeSelector (ds_Template ds))) (node_Labels node) &&
  (bool_decide (spec_NodeName (ds_Template ds) = "") || bool_decide (spec_NodeName (ds_Template ds) = node_Name node)) &&
  negb (outOfDisk node) && Nat.eqb (length notFittingCPU + length notFittingMemory) 0 && uniqueHostPorts pods ∅.

Lemma nodeShouldRun_eq node ds s : orderly s → (nodeShouldRunDaemonPod node ds s).1 = should_run s node ds.
Proof.
  intros Hs. unfold nodeShouldRunDaemonPod, should_run, others.
  pose proof (otherPods_eq node ds (Store.List (podStore s)) [templatePod node ds] s Hs (λ _ H, H)) as Ho. cbn [app] in Ho.
  destruct (otherPods _ _ _ _ _) as [pods s']. cbn [fst] in Ho. subst pods.
  destruct (CheckPodsExceedingFreeResources _ _) as [[fit nc] nm].
  destruct (Labels.Matches _ _); [|done]. destruct (_ || _); [|done]. destruct (outOfDisk node); [done|].
  cbn [negb andb]. by destruct (Nat.eqb _ 0).
Qed.

Lemma should_run_lookup s s' node ds : lookup_only s s' → should_run s' node ds = should_run s node ds.
Proof. by intros [-> _]. Qed.

(** *** Managing pods *)




(** The nodes on which a pod was created, and the pods that were deleted. *)
Definition createdOn (c : apiCall) : option string := match c with CreatePodsOnNode name _ _ true => Some name | _ => None end.
Definition createdNodes : list apiCall → list string := omap createdOn.
Definition deletedPod (c : apiCall) : option string := match c with DeletePod _ name true => Some name | _ => None end.
Definition deletedPods : list apiCall → list string := omap deletedPod.

(** The calls of the two loops. *)
Definition creations ds (answers : nat → bool) (i : nat) (names : list string) : list apiCall :=
  imap (λ j name, CreatePodsOnNode name (ds_Namespace ds) (ds_Name ds) (answers (i + j)%nat)) names.
Definition deletions ds (answers : nat → bool) (i : nat) (names : list string) : list apiCall :=
  imap (λ j name, DeletePod (ds_Namespace ds) name (answers (i + j)%nat)) names.

Lemma imap_shift {A B} (f : nat → A → B) i x (l : list A) :
  imap (λ j, f (i + j)%nat) (x :: l) = f i x :: imap (λ j, f (S i + j)%nat) l.
Proof. rewrite imap_cons, Nat.add_0_r. f_equal. apply imap_ext. intros j y _. cbn. by rewrite Nat.add_succ_r. Qed.

Lemma creations_cons ds answers i name names : creations ds answers i (name :: names) =
  CreatePodsOnNode name (ds_Namespace ds) (ds_Name ds) (answers i) :: creations ds answers (S i) names.
Proof. exact (imap_shift (λ j name, CreatePodsOnNode name (ds_Namespace ds) (ds_Name ds) (answers j)) i name names). Qed.

Lemma deletions_cons ds answers i name names : deletions ds answers i (name :: names) =
  DeletePod (ds_Namespace ds) name (answers i) :: deletions ds answers (S i) names.
Proof. exact (imap_shift (λ j name, DeletePod (ds_Namespace ds) name (answers j)) i name names). Qed.

Lemma created_sublist ds answers names : ∀ i, createdNodes (creations ds answers i names) `sublist_of` names.
Proof.
  induction names as [|name names IH]; intros i; [constructor|]. rewrite creations_cons. unfold createdNodes. cbn.
  destruct (answers i); constructor; apply IH.
Qed.

Lemma deleted_sublist ds answers names : ∀ i, deletedPods (deletions ds answers i names) `sublist_of` names.
Proof.
  induction names as [|name names IH]; intros i; [constructor|]. rewrite deletions_cons. unfold deletedPods. cbn.
  destruct (answers i); constructor; apply IH.
Qed.

Lemma deletions_create_none ds answers names : ∀ i, createdNodes (deletions ds answers i names) = [].
Proof. induction names as [|name names IH]; intros i; [done|]. rewrite deletions_cons. apply IH. Qed.

(** What is expected of the calls: those that fail are observed at once. *)
Lemma ds_createLoop_ok ds dsKey answers now d names : - 2 ^ 63 <= d < 2 ^ 63 → ∀ i r a, ce_ok r →
  entry r dsKey = Some (mkExpectations (int64 (a + Z.of_nat (length names))) d dsKey now) →
  let '(r', calls) := createLoop ds dsKey answers i names r in
  calls = creations ds answers i names ∧ ce_ok r' ∧ (∀ k, k ≠ dsKey → entry r' k = entry r k) ∧
  entry r' dsKey = Some (mkExpectations (int64 (a + Z.of_nat (length (createdNodes calls)))) d dsKey now).
Proof.
  intros Hd. induction names as [|name names IH]; intros i r a Hr He; cbn [createLoop]; [by split_and!|].
  destruct (CreationObserved_entry dsKey r Hr) as [Hr1 He1].
  specialize (IH (S i) (if answers i then r else CreationObserved dsKey r) (if answers i then a + 1 else a)).
  destruct (createLoop _ _ _ _ _ _) as [r' calls]. cbn [length] in He. destruct IH as (-> & Hok & Hoth & Hent).
  { by destruct (answers i). }
  { destruct (answers i); [rewrite He; do 3 f_equal; lia|]. rewrite He1, decide_True, He by done. unfold exp_Add. cbn [fmap option_fmap option_map add del].
    rewrite int64_add_l, Z.add_0_r, (int64_id d) by done. do 3 f_equal. lia. }
  rewrite creations_cons. split_and!; [done|done| |].
  - intros k Hk. rewrite Hoth by done. destruct (answers i); [done|]. by rewrite He1, decide_False.
  - rewrite Hent. unfold createdNodes. cbn [omap list_omap createdOn]. destruct (answers i); [|done]. cbn [length]. do 3 f_equal. lia.
Qed.

Lemma ds_deleteLoop_ok ds dsKey answers now a names : - 2 ^ 63 <= a < 2 ^ 63 → ∀ i r d, ce_ok r →
  entry r dsKey = Some (mkExpectations a (int64 (d + Z.of_nat (length names))) dsKey now) →
  let '(r', calls) := deleteLoop ds dsKey answers i names r in
  calls = deletions ds answers i names ∧ ce_ok r' ∧ (∀ k, k ≠ dsKey → entry r' k = entry r k) ∧
  entry r' dsKey = Some (mkExpectations a (int64 (d + Z.of_nat (length (deletedPods calls)))) dsKey now).
Proof.
  intros Ha. induction names as [|name names IH]; intros i r d Hr He; cbn [deleteLoop]; [by split_and!|].
  destruct (DeletionObserved_entry dsKey r Hr) as [Hr1 He1].
  specialize (IH (S i) (if answers i then r else DeletionObserved dsKey r) (if answers i then d + 1 else d)).
  destruct (deleteLoop _ _ _ _ _ _) as [r' calls]. cbn [length] in He. destruct IH as (-> & Hok & Hoth & Hent).
  { by destruct (answers i). }
  { destruct (answers i); [rewrite He; do 3 f_equal; lia|]. rewrite He1, decide_True, He by done. unfold exp_Add. cbn [fmap option_fmap option_map add del].
    rewrite int64_add_l, Z.add_0_r, (int64_id a) by done. do 3 f_equal. lia. }
  rewrite deletions_cons. split_and!; [done|done| |].
  - intros k Hk. rewrite Hoth by done. destruct (answers i); [done|]. by rewrite He1, decide_False.
  - rewrite Hent. unfold deletedPods. cbn [omap list_omap deletedPod]. destruct (answers i); [|done]. cbn [length]. do 3 f_equal. lia.
Qed.

(** Whatever the cache says, pods are created on nodes that have none, and on each at most one. *)
Lemma manageLoop_lookup ds m nodes : ∀ need del s, coherent s →
  let '(need', _, s') := manageLoop ds m nodes need del s in lookup_only s s' ∧
  ∃ more, need' = need ++ more ∧ more `sublist_of` (node_Name <$> filter (λ node, m !! node_Name node = None) nodes).
Proof.
  induction nodes as [|node nodes IH]; intros need del s Hs; cbn [manageLoop].
  { split; [apply lookup_only_refl|]. exists []. by rewrite app_nil_r. }
  pose proof (nodeShouldRun_lookup node ds s Hs) as Hl. destruct (nodeShouldRunDaemonPod node ds s) as [run s1]. cbn [snd] in Hl.
  assert (∀ need del, let '(need', _, s') := manageLoop ds m nodes need del s1 in lookup_only s s' ∧
    ∃ more, need' = need ++ more ∧ more `sublist_of` (node_Name <$> filter (λ node, m !! node_Name node = None) nodes)) as IH'.
  { intros need' del'. specialize (IH need' del' s1 (proj2 Hl Hs)). destruct (manageLoop _ _ _ _ _ _) as [[need'' del''] s'].
    destruct IH as [Hl' Hmore]. split; [exact (lookup_only_trans _ _ _ Hl Hl')|done]. }
  assert (∀ need del, let '(need', _, s') := manageLoop ds m nodes need del s1 in lookup_only s s' ∧
    ∃ more, need' = need ++ more ∧ more `sublist_of` (node_Name <$> filter (λ node, m !! node_Name node = None) (node :: nodes))) as Hskip.
  { intros need' del'. specialize (IH' need' del'). destruct (manageLoop _ _ _ _ _ _) as [[need'' del''] s'].
    destruct IH' as (Hl' & more & -> & Hsub). split; [done|]. exists more. split; [done|]. rewrite filter_cons.
    case_decide; [rewrite fmap_cons; by constructor|done]. }
  destruct (m !! node_Name node) as [pods|] eqn:Em.
  - rewrite bool_decide_eq_true_2 by eauto. rewrite andb_false_r.
    destruct (run && Nat.ltb _ _); [apply Hskip|]. destruct (negb run && true); apply Hskip.
  - rewrite bool_decide_eq_false_2 by (intros [? ?]; done). destruct run; cbn [andb negb]; [|apply Hskip].
    specialize (IH' (need ++ [node_Name node]) del). destruct (manageLoop _ _ _ _ _ _) as [[need' del'] s'].
    destruct IH' as (Hl' & more & -> & Hsub). split; [done|]. exists (node_Name node :: more). rewrite <- app_assoc. split; [done|].
    rewrite filter_cons_True by done. rewrite fmap_cons. by constructor.
Qed.

(** The calls of [manage], and what it then expects. *)
Definition wanted_calls answers ds (burst : Z) (need del : list string) : list apiCall :=
  creations ds (createOk answers) 0 (take (Z.to_nat burst) need) ++ deletions ds (deleteOk answers) 0 (take (Z.to_nat burst) del).

Lemma createdNodes_wanted answers ds burst need del : createdNodes (wanted_calls answers ds burst need del) =
  createdNodes (creations ds (createOk answers) 0 (take (Z.to_nat burst) need)).
Proof. unfold wanted_calls, createdNodes. rewrite omap_app. fold createdNodes. rewrite deletions_create_none. apply app_nil_r. Qed.

Lemma deletedPods_wanted answers ds burst need del : deletedPods (wanted_calls answers ds burst need del) =
  deletedPods (deletions ds (deleteOk answers) 0 (take (Z.to_nat burst) del)).
Proof.
  unfold wanted_calls, deletedPods. rewrite omap_app. enough (∀ l i, omap deletedPod (creations ds (createOk answers) i l) = []) as -> by done.
  induction l as [|name l IH]; intros i; [done|]. rewrite creations_cons. apply IH.
Qed.

Lemma manage_eq now answers ds s : ce_ok (expectations s) → 0 <= burstReplicas s < 2 ^ 63 →
  let '(need, del, s') := manageLoop ds (nodeToDaemonPodsOf ds s) (nodeLister_List (nodeStore s)) [] [] s in lookup_only s s' →
  let calls := wanted_calls answers ds (burstReplicas s) need del in
  ∃ r, manage now answers ds s = Returns (with_expectations r s', calls) ∧ ce_ok r ∧
    (∀ k, k ≠ keyOf ds → entry r k = entry (expectations s) k) ∧
    entry r (keyOf ds) = Some (mkExpectations (Z.of_nat (length (createdNodes calls))) (Z.of_nat (length (deletedPods calls))) (keyOf ds) now).
Proof.
  intros Hce Hb. unfold manage. destruct (manageLoop _ _ _ _ _ _) as [[need del] s']. intros [E _]. rewrite keyOf_key.
  rewrite E. cbn [burstReplicas expectations with_cache].
  assert (∀ l : list string, take (Z.to_nat (if burstReplicas s <? Z.of_nat (length l) then burstReplicas s else Z.of_nat (length l))) l =
    take (Z.to_nat (burstReplicas s)) l ∧
    (if burstReplicas s <? Z.of_nat (length l) then burstReplicas s else Z.of_nat (length l)) =
      Z.of_nat (length (take (Z.to_nat (burstReplicas s)) l))) as Hmin.
  { intros l. rewrite length_take. destruct (Z.ltb_spec (burstReplicas s) (Z.of_nat (length l))); [split; [done|lia]|].
    split; [rewrite !take_ge by lia; done|lia]. }
  destruct (Hmin need) as [-> ->], (Hmin del) as [-> ->]. rewrite !(proj2 (Z.ltb_ge _ 0)) by lia. cbn [orb].
  set (created := take _ need). set (deleted := take _ del).
  assert (Z.of_nat (length created) < 2 ^ 63 ∧ Z.of_nat (length deleted) < 2 ^ 63) as [Hc Hd] by (unfold created, deleted; rewrite !length_take; lia).
  destruct (Expect_entry now (keyOf ds) (Z.of_nat (length created)) (Z.of_nat (length deleted)) _ Hce) as [Hr He].
  pose proof (ds_createLoop_ok ds (keyOf ds) (createOk answers) now (int64 (Z.of_nat (length deleted))) created) as Hcreate.
  specialize (Hcreate ltac:(rewrite int64_id by lia; lia) 0%nat _ 0 Hr). rewrite He, decide_True in Hcreate by done. specialize (Hcreate eq_refl).
  destruct (createLoop _ _ _ _ _ _) as [r1 calls1]. destruct Hcreate as (-> & Hr1 & Hoth1 & He1).
  set (done_ := createdNodes _) in He1. assert (length done_ <= length created)%nat as Hle1 by apply sublist_length, created_sublist.
  pose proof (ds_deleteLoop_ok ds (keyOf ds) (deleteOk answers) now (int64 (0 + Z.of_nat (length done_))) deleted) as Hdelete.
  specialize (Hdelete ltac:(rewrite int64_id by lia; lia) 0%nat r1 0 Hr1 He1).
  destruct (deleteLoop _ _ _ _ _ _) as [r2 calls2]. destruct Hdelete as (-> & Hr2 & Hoth2 & He2).
  assert (length (deletedPods (deletions ds (deleteOk answers) 0 deleted)) <= length deleted)%nat as Hle2 by apply sublist_length, deleted_sublist.
  exists r2. unfold wanted_calls at 1. split_and!; [done|done| |].
  - intros k Hk. by rewrite Hoth2, Hoth1, He, decide_False.
  - rewrite He2, createdNodes_wanted, deletedPods_wanted. fold created deleted. fold done_. rewrite !int64_id by lia. done.
Qed.

(** *** The pods of a daemon set *)

(** The daemon sets that the API accepts. *)
Record accepted ds : Prop := {
  acc_namespace : ds_Namespace ds ≠ NamespaceAll;
  acc_selector : ¬ selects_all (ds_Selector ds);
  acc_valid : selector_valid (ds_Selector ds);
}.

(** The pods of the daemon set on a node. *)
Definition on_node ds (n : string) pod : bool := isDaemonSetMatch pod ds && bool_decide (NodeName pod = n).
Definition daemonPods s ds (n : string) : list Pod := filter (λ pod, on_node ds n pod = true) (Store.List (podStore s)).

Lemma nodeToDaemonPods_lookup ds s n : accepted ds →
  nodeToDaemonPodsOf ds s !! n = match daemonPods s ds n with [] => None | pods => Some pods end.
Proof.
  intros [Hns Hall Hv]. unfold nodeToDaemonPodsOf, getNodesToDaemonPods, daemonPods.
  pose proof (LabelSelectorAsSelector_ok (ds_Selector ds)) as Hok.
  destruct (LabelSelectorAsSelector (ds_Selector ds)) as [sel|] eqn:Hs; [|done].
  rewrite listPods_filter by done.
  assert (∀ pod, on_node ds n pod = true ↔ (bool_decide (ds_Namespace ds = Namespace pod) && Labels.Matches sel (pod_Labels pod) = true) ∧ NodeName pod = n) as Hm.
  { intros pod. unfold on_node, isDaemonSetMatch. rewrite Hs, !andb_true_iff, !bool_decide_eq_true.
    destruct Hok as (_ & _ & He). rewrite <- He in Hall. apply not_true_is_false in Hall. rewrite Hall. cbn [orb].
    destruct (decide (ds_Namespace ds = Namespace pod)).
    - rewrite bool_decide_eq_false_2 by auto. destruct (Labels.Matches sel (pod_Labels pod)); naive_solver.
    - rewrite bool_decide_eq_true_2 by done. naive_solver. }
  rewrite (list_filter_iff _ _ _ Hm).
  set (l := filter (λ pod, _ && _ = true) _).
  assert (filter (λ pod, (bool_decide (ds_Namespace ds = Namespace pod) && Labels.Matches sel (pod_Labels pod) = true) ∧ NodeName pod = n)
    (Store.List (podStore s)) = filter (λ pod, NodeName pod = n) l) as ->.
  { unfold l. rewrite list_filter_filter. apply list_filter_iff. intros pod. tauto. }
  generalize l as pods. clear l. intros pods. induction pods as [|pod pods IH] using rev_ind; [done|].
  rewrite foldl_snoc, filter_app, filter_cons. destruct (decide (NodeName pod = n)) as [<-|Hne].
  - rewrite lookup_insert_eq, IH. by destruct (filter _ pods).
  - rewrite lookup_insert_ne, IH by done. cbn. by rewrite app_nil_r.
Qed.

(** *** What the handlers keep, and what they observe *)

Record handled s s' : Prop := {
  hd_burst : burstReplicas s' = burstReplicas s;
  hd_dsStore : dsStore s' = dsStore s;
  hd_podStore : podStore s' = podStore s;
  hd_nodeStore : nodeStore s' = nodeStore s;
  hd_coherent : coherent s';
  hd_expectations : ce_ok (expectations s');
}.

Lemma handled_refl s : coherent s → ce_ok (expectations s) → handled s s.
Proof. by split. Qed.

Lemma ds_handled_trans s1 s2 s3 : handled s1 s2 → handled s2 s3 → handled s1 s3.
Proof. intros [] []. split; congruence. Qed.

(** At most one creation or deletion is observed, a creation only of a daemon set with [P]. *)
Definition observes (P : string → Prop) s s' : Prop := ∀ k,
  entry (expectations s') k = entry (expectations s) k ∨
  entry (expectations s') k = exp_Add 0 (-1) <$> entry (expectations s) k ∨
  P k ∧ entry (expectations s') k = exp_Add (-1) 0 <$> entry (expectations s) k.

Lemma observes_none P s s' : expectations s' = expectations s → observes P s s'.
Proof. intros E k. left. by rewrite E. Qed.

Lemma ds_lookup_handled s s' : coherent s → ce_ok (expectations s) → lookup_only s s' →
  handled s s' ∧ expectations s' = expectations s.
Proof. intros Hc Hr [E Hl]. split; [|by rewrite E]. split; [by rewrite E..|by apply Hl|by rewrite E]. Qed.

Lemma ds_enqueue_eq ds s : enqueueDaemonSet ds s = with_queue (WorkQueue.Add (keyOf ds) (dsQueue s)).1 s.
Proof. unfold enqueueDaemonSet. by rewrite keyOf_key. Qed.

Lemma ds_enqueue_handled ds s : coherent s → ce_ok (expectations s) → handled s (enqueueDaemonSet ds s).
Proof. intros [? ? ?] Hr. rewrite ds_enqueue_eq. by split. Qed.

Lemma enqueue_expectations ds s : expectations (enqueueDaemonSet ds s) = expectations s.
Proof. by rewrite ds_enqueue_eq. Qed.

Lemma with_expectations_handled r s : coherent s → ce_ok r → handled s (with_expectations r s).
Proof. intros [? ? ?] Hr. by split. Qed.

Lemma ds_addPod_ok pod s : coherent s → ce_ok (expectations s) → handled s (addPod pod s) ∧
  observes (λ k, ∃ ds, items (cacheStorage (dsStore s)) !! k = Some ds ∧ ds_owns ds pod) s (addPod pod s).
Proof.
  intros Hc Hr. unfold addPod. pose proof (getPodDaemonSet_ok pod s Hc) as Hg.
  destruct (getPodDaemonSet pod s) as [s1 [ds|]]; destruct Hg as [Hl Hf];
    destruct (ds_lookup_handled s s1 Hc Hr Hl) as [Hh E]; [|split; [done|by apply observes_none]].
  destruct Hf as (ds' & Hds & Ho & _). rewrite keyOf_key.
  destruct (CreationObserved_entry (keyOf ds) _ (hd_expectations _ _ Hh)) as [Hr' He]. split.
  - eapply ds_handled_trans; [exact Hh|]. eapply ds_handled_trans; [by apply with_expectations_handled; [apply Hh|exact Hr']|].
    apply ds_enqueue_handled; [apply with_expectations_handled; [apply Hh|exact Hr']|exact Hr'].
  - intros k. rewrite enqueue_expectations. cbn [expectations with_expectations]. rewrite He, E.
    destruct (decide (k = keyOf ds)) as [->|]; [|by left]. right. right. eauto.
Qed.

Lemma ds_deletePodOf_ok pod s : coherent s → ce_ok (expectations s) →
  handled s (deletePodOf pod s) ∧ observes (λ _, False) s (deletePodOf pod s).
Proof.
  intros Hc Hr. unfold deletePodOf. pose proof (getPodDaemonSet_ok pod s Hc) as Hg.
  destruct (getPodDaemonSet pod s) as [s1 [ds|]]; destruct Hg as [Hl _];
    destruct (ds_lookup_handled s s1 Hc Hr Hl) as [Hh E]; [|split; [done|by apply observes_none]].
  rewrite keyOf_key. destruct (DeletionObserved_entry (keyOf ds) _ (hd_expectations _ _ Hh)) as [Hr' He]. split.
  - eapply ds_handled_trans; [exact Hh|]. eapply ds_handled_trans; [by apply with_expectations_handled; [apply Hh|exact Hr']|].
    apply ds_enqueue_handled; [apply with_expectations_handled; [apply Hh|exact Hr']|exact Hr'].
  - intros k. rewrite enqueue_expectations. cbn [expectations with_expectations]. rewrite He, E.
    destruct (decide (k = keyOf ds)) as [->|]; [|by left]. right. by left.
Qed.

Lemma ds_deletePod_ok obj s : coherent s → ce_ok (expectations s) →
  handled s (deletePod obj s) ∧ observes (λ _, False) s (deletePod obj s).
Proof.
  intros Hc Hr. assert (handled s s ∧ observes (λ _, False) s s) by (split; [by apply handled_refl|by apply observes_none]).
  unfold deletePod. repeat case_match; try done; by apply ds_deletePodOf_ok.
Qed.

(** The other handlers observe nothing. *)
Definition quiet s s' : Prop := handled s s' ∧ expectations s' = expectations s.

Lemma quiet_trans s1 s2 s3 : quiet s1 s2 → quiet s2 s3 → quiet s1 s3.
Proof. intros [H1 E1] [H2 E2]. split; [by eapply ds_handled_trans|congruence]. Qed.

Lemma quiet_enqueue ds s s' : quiet s s' → quiet s (enqueueDaemonSet ds s').
Proof.
  intros Hq. eapply quiet_trans; [exact Hq|]. destruct Hq as [Hh _].
  split; [by apply ds_enqueue_handled; apply Hh|apply enqueue_expectations].
Qed.

Lemma quiet_lookup s s' s'' : quiet s s' → (coherent s' → lookup_only s' s'') → quiet s s''.
Proof.
  intros Hq Hl. eapply quiet_trans; [exact Hq|]. destruct Hq as [Hh _].
  apply ds_lookup_handled; [apply Hh..|apply Hl, Hh].
Qed.

Lemma getPodDaemonSet_lookup pod s : coherent s → lookup_only s (getPodDaemonSet pod s).1.
Proof. intros Hs. pose proof (getPodDaemonSet_ok pod s Hs) as H'. destruct (getPodDaemonSet pod s). apply H'. Qed.

Lemma ds_updatePod_ok same old cur s : coherent s → ce_ok (expectations s) → quiet s (updatePod same old cur s).
Proof.
  intros Hc Hr. assert (quiet s s) as Hq by (split; [by apply handled_refl|done]). unfold updatePod. destruct same; [done|].
  pose proof (quiet_lookup _ _ _ Hq (getPodDaemonSet_lookup cur s)) as Hq1.
  destruct (getPodDaemonSet cur s) as [s1 curDS]. cbn [fst] in Hq1.
  assert (quiet s (match curDS with Some ds => enqueueDaemonSet ds s1 | None => s1 end)) as Hq2
    by (destruct curDS; [by apply quiet_enqueue|done]).
  set (s2 := match curDS with Some _ => _ | None => _ end) in *. case_bool_decide; [|done].
  pose proof (quiet_lookup _ _ _ Hq2 (getPodDaemonSet_lookup old s2)) as Hq3.
  destruct (getPodDaemonSet old s2) as [s3 [oldDS|]]; [by apply quiet_enqueue|done].
Qed.

Lemma foldl_quiet {A} (f : DaemonSetsController → A → DaemonSetsController) l s : (∀ s' x, quiet s s' → quiet s (f s' x)) →
  coherent s → ce_ok (expectations s) → quiet s (foldl f s l).
Proof.
  intros Hf Hc Hr. apply foldl_inv; [split; [by apply handled_refl|done]|]. intros s' x _. apply Hf.
Qed.

Lemma addNode_ok node s : coherent s → ce_ok (expectations s) → quiet s (addNode node s).
Proof.
  intros Hc Hr. apply foldl_quiet; [|done..]. intros s' ds Hq. pose proof (quiet_lookup _ _ _ Hq (nodeShouldRun_lookup node ds s')) as Hq1.
  destruct (nodeShouldRunDaemonPod node ds s') as [[] s1]; [by apply quiet_enqueue|done].
Qed.

Lemma updateNode_ok old cur s : coherent s → ce_ok (expectations s) → quiet s (updateNode old cur s).
Proof.
  intros Hc Hr. unfold updateNode. destruct (_ && _); [split; [by apply handled_refl|done]|].
  apply foldl_quiet; [|done..]. intros s' ds Hq. pose proof (quiet_lookup _ _ _ Hq (nodeShouldRun_lookup old ds s')) as Hq1.
  destruct (nodeShouldRunDaemonPod old ds s') as [b1 s1]. cbn [snd] in Hq1.
  pose proof (quiet_lookup _ _ _ Hq1 (nodeShouldRun_lookup cur ds s1)) as Hq2.
  destruct (nodeShouldRunDaemonPod cur ds s1) as [b2 s2]. destruct (negb _); [by apply quiet_enqueue|done].
Qed.

(** *** What one sync changes *)

(** The same object, but for its template, status and times. *)
Definition same_spec ds ds' : Prop :=
  ds_Namespace ds = ds_Namespace ds' ∧ ds_Name ds = ds_Name ds' ∧ ds_Selector ds = ds_Selector ds'.

Lemma same_spec_trans ds1 ds2 ds3 : same_spec ds1 ds2 → same_spec ds2 ds3 → same_spec ds1 ds3.
Proof. unfold same_spec. intuition congruence. Qed.

Lemma ds_same_spec_keyOf ds ds' : same_spec ds ds' → keyOf ds' = keyOf ds.
Proof. destruct ds, ds'. intros (? & ? & ?). by simplify_eq/=. Qed.

Lemma ds_same_spec_accepted ds ds' : same_spec ds ds' → accepted ds → accepted ds'.
Proof. destruct ds, ds'. intros (? & ? & ?) [? ? ?]. by simplify_eq/=. Qed.

Lemma same_spec_on_node ds ds' n : same_spec ds ds' → on_node ds' n = on_node ds n.
Proof. destruct ds, ds'. intros (? & ? & ?). by simplify_eq/=. Qed.

(** The store of daemon sets, but for what [same_spec] forgets. *)
Definition same_sets (st st' : cache DaemonSet) : Prop :=
  keyFunc st' = keyFunc st ∧ ∀ k, option_relation same_spec (λ _, False) (λ _, False)
    (items (cacheStorage st) !! k) (items (cacheStorage st') !! k).

Lemma same_sets_refl st : same_sets st st.
Proof. split; [done|]. intros k. by destruct (items _ !! k). Qed.

Lemma same_sets_Some st st' k ds' : same_sets st st' → items (cacheStorage st') !! k = Some ds' →
  ∃ ds, items (cacheStorage st) !! k = Some ds ∧ same_spec ds ds'.
Proof. intros [_ Hs] E. specialize (Hs k). rewrite E in Hs. destruct (items _ !! k) as [ds|]; [by exists ds|done]. Qed.

Lemma same_sets_Some_l st st' k ds : same_sets st st' → items (cacheStorage st) !! k = Some ds →
  ∃ ds', items (cacheStorage st') !! k = Some ds' ∧ same_spec ds ds'.
Proof. intros [_ Hs] E. specialize (Hs k). rewrite E in Hs. destruct (items (cacheStorage st') !! k) as [ds'|]; [by exists ds'|done]. Qed.

Lemma same_sets_insert st st' k ds ds' : items (cacheStorage st) !! k = Some ds → same_spec ds ds' → keyFunc st' = keyFunc st →
  items (cacheStorage st') = <[k := ds']> (items (cacheStorage st)) → same_sets st st'.
Proof.
  intros E Hs Hk Hi. split; [done|]. intros k'. rewrite Hi. destruct (decide (k' = k)) as [->|Hne].
  - by rewrite lookup_insert_eq, E.
  - rewrite lookup_insert_ne by done. by destruct (items _ !! k').
Qed.

Lemma coherent_same_sets st s : same_sets (dsStore s) st → coherent s → coherent (with_dsStore st s).
Proof.
  intros Hst [Hf Hk Hc]. split; cbn.
  - by rewrite (proj1 Hst).
  - intros k ds (ds0 & E & Hsp)%(same_sets_Some _ _ _ _ Hst). rewrite (ds_same_spec_keyOf _ _ Hsp). by apply Hk.
  - intros h ds' ds Hin (ds0 & E & Hsp)%(same_sets_Some _ _ _ _ Hst). destruct (Hc h ds' ds0 Hin E) as (? & ? & ?).
    unfold same_spec in Hsp. intuition congruence.
Qed.

(** The status update. *)
Lemma statusLoop_creates_none answers retries status : ∀ i ds, createdNodes (statusLoop answers retries i status ds).1 = [].
Proof.
  induction retries as [|retries IH]; intros i ds; cbn [statusLoop]; destruct (updateStatusOk answers i); try done;
    destruct (getDaemonSet answers i) as [ds'|]; try done. specialize (IH (S i) ds').
  by destruct (statusLoop _ _ _ _ _).
Qed.

Lemma statusOfNodes_lookup ds m nodes : ∀ status s, coherent s → lookup_only s (statusOfNodes ds m nodes status s).2.
Proof.
  induction nodes as [|node nodes IH]; intros status s Hs; cbn [statusOfNodes]; [apply lookup_only_refl|].
  pose proof (nodeShouldRun_lookup node ds s Hs) as Hl. destruct (nodeShouldRunDaemonPod node ds s) as [run s1]. cbn [snd] in Hl.
  eapply lookup_only_trans; [exact Hl|]. apply IH, Hl, Hs.
Qed.

(** What a sync keeps. *)
Record synced s s' : Prop := {
  sy_burst : burstReplicas s' = burstReplicas s;
  sy_sets : same_sets (dsStore s) (dsStore s');
  sy_podStore : podStore s' = podStore s;
  sy_nodeStore : nodeStore s' = nodeStore s;
  sy_coherent : coherent s';
  sy_expectations : ce_ok (expectations s');
}.

Lemma handled_synced s s' : handled s s' → synced s s'.
Proof. intros []. split; [done| |done..]. rewrite hd_dsStore0. apply same_sets_refl. Qed.

Lemma updateDaemonSetStatus_ok answers key ds s : coherent s → ce_ok (expectations s) → items (cacheStorage (dsStore s)) !! key = Some ds →
  let '(s', calls) := updateDaemonSetStatus answers key ds s in
  synced s s' ∧ expectations s' = expectations s ∧ createdNodes calls = [].
Proof.
  intros Hc Hr Hds. unfold updateDaemonSetStatus.
  pose proof (statusOfNodes_lookup ds (nodeToDaemonPodsOf ds s) (nodeLister_List (nodeStore s)) (mkDaemonSetStatus 0 0 0) s Hc) as Hl.
  destruct (statusOfNodes _ _ _ _ _) as [status s1]. cbn [snd] in Hl.
  assert (let '(calls, _, ds') := storeDaemonSetStatus answers status ds in same_spec ds ds' ∧ createdNodes calls = []) as Hstore.
  { unfold storeDaemonSetStatus. destruct (statusIs status ds); [done|].
    pose proof (statusLoop_creates_none answers StatusUpdateRetries status 0 ds). by destruct (statusLoop _ _ _ _ _). }
  destruct (storeDaemonSetStatus answers status ds) as [[calls ok] ds']. destruct Hstore as [Hsp Hcalls].
  assert (same_sets (dsStore s1) (overwrite key ds' (dsStore s1))) as Hst.
  { apply (same_sets_insert _ _ key ds ds'); [by rewrite (proj1 Hl)|done..]. }
  destruct Hl as [E Hcoh]. split_and!; [|by rewrite E|done]. assert (dsStore s1 = dsStore s) as Es by (by rewrite E).
  split; cbn; [by rewrite E|rewrite <- Es at 1; exact Hst|by rewrite E..| |by rewrite E].
  apply coherent_same_sets; [done|by apply Hcoh].
Qed.

(** The nodes are stored under their names. *)
Record nodes_ok (st : cache Node) : Prop := {
  no_keyFunc : keyFunc st = λ o, Ok (keyOf o);
  no_names k node : items (cacheStorage st) !! k = Some node → k = node_Name node;
}.

Lemma nodes_ok_NoDup st : nodes_ok st → NoDup (node_Name <$> Store.List st).
Proof.
  intros [_ Hn]. unfold Store.List, ThreadSafeStore.List, range_values.
  assert (node_Name <$> (range_map (items (cacheStorage st))).*2 = (range_map (items (cacheStorage st))).*1) as ->.
  { rewrite <- list_fmap_compose. apply list_fmap_ext. intros i [k node] Hin%list_elem_of_lookup_2%elem_of_range_map.
    cbn. symmetry. by apply Hn. }
  apply NoDup_range_keys.
Qed.

(** The pods of the daemon set on a node, as the controller knows them. *)
Definition running ds (n : string) (st : cache Pod) : nat := inStore (on_node ds n) st.

Lemma length_daemonPods s ds n : length (daemonPods s ds n) = running ds n (podStore s).
Proof. exact (length_filter_range_values (items (cacheStorage (podStore s))) (λ pod, on_node ds n pod = true)). Qed.

(** A sync of another daemon set leaves the counters of [ds] alone, and one of [ds] creates pods
    only when its expectations are satisfied, at most one on each node and none where
    there is one, and expects what it creates. *)
Definition syncs_well ds now (created : list string) s s' : Prop :=
  created = [] ∧ entry (expectations s') (keyOf ds) = entry (expectations s) (keyOf ds) ∨
  SatisfiedExpectations now (keyOf ds) (expectations s) = true ∧ NoDup created ∧
  (∀ n, n ∈ created → running ds n (podStore s) = 0%nat) ∧
  ∃ e, entry (expectations s') (keyOf ds) = Some e ∧ Z.of_nat (length created) <= add e < 2 ^ 63.

Lemma manage_syncs_well now answers ds s s' calls : coherent s → ce_ok (expectations s) → nodes_ok (nodeStore s) →
  0 <= burstReplicas s < 2 ^ 63 → manage now answers ds s = Returns (s', calls) →
  handled s s' ∧ (∀ k, k ≠ keyOf ds → entry (expectations s') k = entry (expectations s) k) ∧
  (accepted ds → SatisfiedExpectations now (keyOf ds) (expectations s) = true → syncs_well ds now (createdNodes calls) s s').
Proof.
  intros Hc Hr Hn Hb. pose proof (manage_eq now answers ds s Hr Hb) as Hm.
  pose proof (manageLoop_lookup ds (nodeToDaemonPodsOf ds s) (nodeLister_List (nodeStore s)) [] [] s Hc) as Hloop.
  destruct (manageLoop _ _ _ _ _ _) as [[need del] s1]. destruct Hloop as (Hl & more & -> & Hsub). cbn [app] in *.
  destruct (Hm Hl) as (r & -> & Hr' & Hoth & Hent). intros [= <- <-].
  set (calls := wanted_calls _ _ _ _ _) in *. destruct (ds_lookup_handled s s1 Hc Hr Hl) as [Hh _].
  split_and!; [|done|].
  { eapply ds_handled_trans; [exact Hh|]. apply with_expectations_handled; [apply Hh|done]. }
  intros Hacc Hsat. right. split; [done|].
  assert (createdNodes calls `sublist_of` node_Name <$> filter (λ node, nodeToDaemonPodsOf ds s !! node_Name node = None)
    (nodeLister_List (nodeStore s))) as Hsub'.
  { unfold calls. rewrite createdNodes_wanted. etrans; [apply created_sublist|]. etrans; [apply sublist_take|done]. }
  rewrite nodeLister_List_eq in Hsub'. split_and!.
  - eapply sublist_NoDup; [exact (nodes_ok_NoDup _ Hn)|]. etrans; [exact Hsub'|]. apply fmap_sublist, sublist_filter.
  - intros n Hin. eapply elem_of_sublist in Hin; [|exact Hsub']. apply list_elem_of_fmap in Hin as (node & -> & [Hno _]%list_elem_of_filter).
    rewrite nodeToDaemonPods_lookup in Hno by done. rewrite <- length_daemonPods. by destruct (daemonPods _ _ _).
  - eexists. split; [exact Hent|]. cbn [add]. split; [lia|]. unfold calls. rewrite createdNodes_wanted.
    assert (length (createdNodes (creations ds (createOk answers) 0 (take (Z.to_nat (burstReplicas s)) more))) <=
      length (take (Z.to_nat (burstReplicas s)) more))%nat as Hle by apply sublist_length, created_sublist.
    rewrite length_take in Hle. lia.
Qed.

Lemma syncDaemonSet_ok ds now answers k s s' calls err : coherent s → ce_ok (expectations s) → nodes_ok (nodeStore s) →
  accepted ds → 0 <= burstReplicas s < 2 ^ 63 → (∀ ds', items (cacheStorage (dsStore s)) !! keyOf ds = Some ds' → same_spec ds ds') →
  syncDaemonSet now answers k s = Returns (s', calls, err) →
  let created := if decide (k = keyOf ds) then createdNodes calls else [] in
  synced s s' ∧ (created = [] ∨ is_Some (items (cacheStorage (dsStore s)) !! keyOf ds)) ∧
  (is_Some (items (cacheStorage (dsStore s)) !! keyOf ds) → syncs_well ds now created s s').
Proof.
  intros Hc Hr Hn Hacc Hb Hsp Hsync created.
  assert (synced s s' ∧ (is_Some (items (cacheStorage (dsStore s)) !! keyOf ds) → syncs_well ds now created s s')) as [H1 H2].
  2: { split_and!; [done| |done]. destruct (items (cacheStorage (dsStore s)) !! keyOf ds) eqn:E; [by right; eexists|left].
       unfold created. case_decide as Hk; [|done]. subst k. unfold syncDaemonSet, GetByKey, ThreadSafeStore.Get in Hsync. rewrite E in Hsync.
       destruct (podStoreSynced s); by injection Hsync as <- <- <-. }
  unfold created. clear created. revert Hsync.
  assert (∀ q, synced s (with_queue q s) ∧ (is_Some (items (cacheStorage (dsStore s)) !! keyOf ds) →
    syncs_well ds now (if decide (k = keyOf ds) then [] else []) s (with_queue q s))) as Hidle.
  { intros q. split; [|intros _; left; by case_decide]. apply handled_synced. split; try done. by split; apply Hc. }
  unfold syncDaemonSet. destruct (podStoreSynced s); cbn [negb]; [|intros [= <- <- <-]; apply Hidle].
  unfold GetByKey, ThreadSafeStore.Get. destruct (items _ !! k) as [ds1|] eqn:Hk.
  2: { intros [= <- <- <-]. destruct (Delete_ok _ k Hr) as [Hr' He]. split.
       - apply handled_synced. by apply with_expectations_handled.
       - intros [ds' Hds]. rewrite decide_False by congruence. left. split; [done|]. cbn. by rewrite He, decide_False by congruence. }
  pose proof (coh_keys s Hc k ds1 Hk) as <-. rewrite keyOf_key.
  assert (∀ s1 calls1, (if SatisfiedExpectations now (keyOf ds1) (expectations s) then manage now answers ds1 s else Returns (s, [])) = Returns (s1, calls1) →
    handled s s1 ∧ syncs_well ds now (if decide (keyOf ds1 = keyOf ds) then createdNodes calls1 else []) s s1) as Hmanage.
  { intros s1 calls1. destruct (SatisfiedExpectations now (keyOf ds1) (expectations s)) eqn:Hsat.
    2: { intros [= <- <-]. split; [by apply handled_refl|left; by case_decide]. }
    intros (Hh & Hoth & Hw)%(manage_syncs_well now answers ds1 s); [|done..]. split; [done|].
    case_decide as Hkey; [|left; split; [done|by apply Hoth]].
    rewrite Hkey in Hk. apply Hsp in Hk as Hsp1. specialize (Hw (ds_same_spec_accepted _ _ Hsp1 Hacc) Hsat).
    unfold syncs_well in *. rewrite Hkey in Hw. destruct Hw as [?|(? & ? & Hno & ?)]; [by left|right].
    split_and!; [by rewrite <- Hkey|done| |done]. intros n Hin. unfold running. rewrite <- (same_spec_on_node _ _ n Hsp1). by apply Hno. }
  destruct (if SatisfiedExpectations _ _ _ then _ else _) as [[s1 calls1]|]; [|done].
  destruct (Hmanage s1 calls1 eq_refl) as [Hh Hw]. cbn [mbind outcome_bind].
  pose proof (updateDaemonSetStatus_ok answers (keyOf ds1) ds1 s1 (hd_coherent _ _ Hh) (hd_expectations _ _ Hh)) as Hst.
  rewrite (hd_dsStore _ _ Hh) in Hst. specialize (Hst Hk).
  destruct (updateDaemonSetStatus _ _ _ _) as [s2 updates]. destruct Hst as (Hs2 & E2 & Hno). intros [= <- <- <-]. split.
  - destruct Hh as [H1 H2 H3 H4 _ _], Hs2 as [H5 H6 H7 H8 ? ?]. split; [congruence|by rewrite H2 in H6|congruence..|done|done].
  - intros _. unfold syncs_well in *. rewrite E2. unfold createdNodes in *. by rewrite omap_app, Hno, app_nil_r.
Qed.

(** *** The cluster

    One step: a sync of any daemon set, a watch event of a pod, of a node or of a daemon set,
    or what the server does on its own.  A sync creates a pod on the server for each
    creation that succeeds, on the node asked for; the event of the creation comes later,
    with the pod as it then is, or never, when the pod vanishes first.  Pods of others, and
    pods that leave, may come and go; no pod of [ds] moves to another node, or joins [ds]
    except by its creation.  A sync never finds that the expectations of [ds] have expired.
    Other daemon sets are added, changed and deleted, their selectors too, but none is added
    under a key for which the lookup cache still has an old one; [ds] is changed in anything
    but its selector, or deleted, and not added again. *)
Inductive dstep ds : Cluster → Cluster → Prop :=
| step_sync now answers k s s' calls err pods pend :
    (∀ e, entry (expectations s) (keyOf ds) = Some e → isExpired now e = false) →
    syncDaemonSet now answers k s = Returns (s', calls, err) →
    NodeName <$> pods = (if decide (k = keyOf ds) then createdNodes calls else []) →
    dstep ds (mkCluster s pend) (mkCluster s' (pend ++ pods))
| step_created s pod pod' pend1 pend2 : NodeName pod' = NodeName pod →
    dstep ds (mkCluster s (pend1 ++ pod :: pend2)) (mkCluster (observeAdd pod' s) (pend1 ++ pend2))
| step_vanished s pod pend1 pend2 :
    dstep ds (mkCluster s (pend1 ++ pod :: pend2)) (mkCluster s (pend1 ++ pend2))
| step_other s pod pend : ¬ ds_owns ds pod → dstep ds (mkCluster s pend) (mkCluster (observeAdd pod s) pend)
| step_updated s same old cur pend : items (cacheStorage (podStore s)) !! keyOf cur = Some old →
    (∀ n, on_node ds n cur = true → on_node ds n old = true) →
    dstep ds (mkCluster s pend) (mkCluster (observeUpdate same old cur s) pend)
| step_deleted s obj pend : dstep ds (mkCluster s pend) (mkCluster (observeDelete obj s) pend)
| step_node s node pend : node_Namespace node = "" → dstep ds (mkCluster s pend) (mkCluster (observeNode node s) pend)
| step_node_updated s old cur pend : node_Namespace cur = "" →
    dstep ds (mkCluster s pend) (mkCluster (observeNodeUpdate old cur s) pend)
| step_node_deleted s k pend :
    dstep ds (mkCluster s pend)
      (mkCluster (with_nodeStore (mkCache (ThreadSafeStore.Delete k (cacheStorage (nodeStore s))) (keyFunc (nodeStore s))) s) pend)
| step_daemon_set s sameSelector old cur pend : items (cacheStorage (dsStore s)) !! keyOf cur = Some old →
    (sameSelector = true ∨ keyOf cur = keyOf ds → same_spec old cur) →
    dstep ds (mkCluster s pend) (mkCluster (observeDaemonSet sameSelector cur s) pend)
| step_daemon_set_added s cur pend : keyOf cur ≠ keyOf ds → (∀ h old, (h, old) ∈ ll (lookupCache s) → keyOf old ≠ keyOf cur) →
    dstep ds (mkCluster s pend) (mkCluster (observeDaemonSetAdd cur s) pend)
| step_daemon_set_deleted s obj s' pend : observeDaemonSetDelete obj s = Returns s' →
    dstep ds (mkCluster s pend) (mkCluster s' pend)
| step_queue s q pend : dstep ds (mkCluster s pend) (mkCluster (with_queue q s) pend)
| step_synced s pend : dstep ds (mkCluster s pend) (mkCluster (with_synced s) pend).

(** The pods of [ds] on a node, as far as the controller or the server knows. *)
Definition total ds (n : string) (c : Cluster) : nat :=
  running ds n (podStore (ctl c)) + length (filter (λ pod, NodeName pod = n) (pending c)).

(** The creations that are not observed yet are expected. *)
Definition expected ds r (n : nat) : Prop :=
  match entry r (keyOf ds) with
  | Some e => Z.of_nat n <= add e < 2 ^ 63
  | None => n = 0%nat
  end.

Record cluster_ok ds (bound : string → nat) (c : Cluster) : Prop := {
  cl_coherent : coherent (ctl c);
  cl_expectations : ce_ok (expectations (ctl c));
  cl_stored ds' : items (cacheStorage (dsStore (ctl c))) !! keyOf ds = Some ds' → same_spec ds ds';
  cl_pods : keyFunc (podStore (ctl c)) = λ o, Ok (keyOf o);
  cl_nodes : nodes_ok (nodeStore (ctl c));
  cl_burst : 0 <= burstReplicas (ctl c) < 2 ^ 63;
  cl_expected : is_Some (items (cacheStorage (dsStore (ctl c))) !! keyOf ds) →
    expected ds (expectations (ctl c)) (length (pending c));
  cl_total n : (total ds n c <= bound n)%nat;
}.

Lemma ds_expected_lower ds r n m : expected ds r n → (m <= n)%nat → expected ds r m.
Proof. unfold expected. destruct (entry _ _); lia. Qed.

Lemma ds_satisfied_none_pending ds now r n : expected ds r n → (∀ e, entry r (keyOf ds) = Some e → isExpired now e = false) →
  SatisfiedExpectations now (keyOf ds) r = true → n = 0%nat.
Proof.
  unfold expected. rewrite Satisfied_entry. intros He Hexp Hs. destruct (entry _ _) as [e|]; [|done]. cbn in Hs.
  rewrite (Hexp e eq_refl), orb_false_r in Hs. apply andb_prop in Hs as [Ha%Z.leb_le _]. lia.
Qed.

(** A handler that observes at most one event, after a change of the stores: of a creation only when the
    pod was pending. *)
Lemma ds_handler_preserves ds bound P s s1 s' pend pend' : cluster_ok ds bound (mkCluster s pend) →
  coherent s1 → expectations s1 = expectations s → dsStore s1 = dsStore s → burstReplicas s1 = burstReplicas s →
  (keyFunc (podStore s1) = λ o, Ok (keyOf o)) → nodes_ok (nodeStore s1) →
  (length pend' <= length pend)%nat → (P (keyOf ds) → (length pend' < length pend)%nat) →
  (∀ n, (total ds n (mkCluster s1 pend') <= total ds n (mkCluster s pend))%nat) →
  handled s1 s' → observes P s1 s' → cluster_ok ds bound (mkCluster s' pend').
Proof.
  intros [Hc Hr Hst Hk Hn Hb He Ht] Hc1 Er Eds Ebu Hk1 Hn1 Hle Hlt Htot [Hb' Hds' Hps' Hns' Hc' Hr'] Hobs. cbn in *.
  split; cbn; [done|done|by rewrite Hds', Eds|by rewrite Hps'|by rewrite Hns'|by rewrite Hb', Ebu| |].
  - rewrite Hds', Eds. intros Hsome. specialize (He Hsome). unfold expected in *. specialize (Hobs (keyOf ds)). rewrite Er in Hobs.
    destruct Hobs as [->|[->|[HP ->]]]; destruct (entry (expectations s) (keyOf ds)) as [e|]; cbn; rewrite ?Z.add_0_r, ?int64_id by lia;
      try specialize (Hlt HP); lia.
  - intros n. specialize (Htot n). specialize (Ht n). unfold total in *. cbn in *. rewrite Hps'. lia.
Qed.

Lemma quiet_preserves ds bound s s1 s' pend : cluster_ok ds bound (mkCluster s pend) →
  coherent s1 → expectations s1 = expectations s → dsStore s1 = dsStore s → burstReplicas s1 = burstReplicas s →
  (keyFunc (podStore s1) = λ o, Ok (keyOf o)) → nodes_ok (nodeStore s1) →
  (∀ n, (running ds n (podStore s1) <= running ds n (podStore s))%nat) → quiet s1 s' → cluster_ok ds bound (mkCluster s' pend).
Proof.
  intros Hok Hc1 Er Eds Ebu Hk1 Hn1 Hrun [Hh E]. eapply (ds_handler_preserves ds bound (λ _, False) s s1); try done.
  - intros n. unfold total. cbn. specialize (Hrun n). lia.
  - by apply observes_none.
Qed.

Lemma ds_coherent_with_podStore st s : coherent s → coherent (with_podStore st s).
Proof. intros [? ? ?]. by split. Qed.

Lemma coherent_with_nodeStore st s : coherent s → coherent (with_nodeStore st s).
Proof. intros [? ? ?]. by split. Qed.

Lemma nodes_ok_Add node st : nodes_ok st → node_Namespace node = "" → nodes_ok (Store.Add node st).1.
Proof.
  intros [Hk Hn] Hns. destruct (keyFunc_Add node st Hk) as [Hk' Hi]. split; [by rewrite Hk'|].
  intros k node'. rewrite Hi. intros [[<- <-]|[_ ?]]%lookup_insert_Some; [|by apply Hn].
  unfold keyOf. cbn. by rewrite Hns.
Qed.

Lemma ds_sync_preserves ds bound now answers k s s' calls err pods pend : accepted ds → (∀ n, (1 <= bound n)%nat) →
  cluster_ok ds bound (mkCluster s pend) →
  (∀ e, entry (expectations s) (keyOf ds) = Some e → isExpired now e = false) →
  syncDaemonSet now answers k s = Returns (s', calls, err) →
  NodeName <$> pods = (if decide (k = keyOf ds) then createdNodes calls else []) →
  cluster_ok ds bound (mkCluster s' (pend ++ pods)).
Proof.
  intros Hacc Hbound [Hc Hr Hst Hk Hn Hb He Ht] Hexp Hsync Hpods. cbn in *.
  destruct (syncDaemonSet_ok ds now answers k s s' calls err Hc Hr Hn Hacc Hb Hst Hsync) as ([Eb Hsets Ep En Hc' Hr'] & Hnone & Hw).
  rewrite <- Hpods in Hnone, Hw.
  split; cbn; [done|done| |by rewrite Ep|by rewrite En|by rewrite Eb|..].
  - intros ds2 (ds1 & Hds1 & Hsp)%(same_sets_Some _ _ _ _ Hsets). exact (same_spec_trans _ _ _ (Hst _ Hds1) Hsp).
  - intros [ds2 (ds1 & Hds1 & _)%(same_sets_Some _ _ _ _ Hsets)]. specialize (He ltac:(eauto)). specialize (Hw ltac:(eauto)).
    unfold expected in *. rewrite length_app. destruct Hw as [[E ->]|(Hsat & _ & _ & e & -> & Hle)].
    + apply fmap_nil_inv in E as ->. by rewrite Nat.add_0_r.
    + rewrite (ds_satisfied_none_pending ds now (expectations s) (length pend)) by done. by rewrite length_fmap in Hle.
  - intros n. specialize (Ht n). unfold total in *. cbn in *. rewrite Ep, filter_app, length_app.
    destruct Hnone as [E|Hsome]; [apply fmap_nil_inv in E as ->; cbn; lia|]. specialize (He Hsome).
    destruct (Hw Hsome) as [[E _]|(Hsat & Hnd & Hno & _)]; [apply fmap_nil_inv in E as ->; cbn; lia|].
    rewrite (nil_length_inv pend) by (by eapply ds_satisfied_none_pending). cbn.
    destruct (filter (λ pod, NodeName pod = n) pods) as [|pod l] eqn:El; [cbn; rewrite Nat.add_0_r; cbn in Ht; lia|].
    assert (length (pod :: l) <= 1)%nat as Hlen.
    { rewrite <- El. clear -Hnd. induction pods as [|p pods IH]; [cbn; lia|]. rewrite fmap_cons in Hnd. apply NoDup_cons in Hnd as [Hp Hnd].
      rewrite filter_cons. case_decide as Hd; [|by apply IH]. subst n. cbn. enough (filter (λ pod, NodeName pod = NodeName p) pods = []) as -> by (cbn; lia).
      destruct (filter _ pods) as [|x l'] eqn:Ef; [done|]. destruct Hp.
      assert (x ∈ filter (λ pod, NodeName pod = NodeName p) pods) as [<- Hx]%list_elem_of_filter by (rewrite Ef; left). by apply list_elem_of_fmap_2. }
    rewrite (Hno n).
    + specialize (Hbound n). lia.
    + assert (pod ∈ filter (λ pod, NodeName pod = n) pods) as [<- Hin]%list_elem_of_filter by (rewrite El; left).
      by apply list_elem_of_fmap_2.
Qed.

(** The pods of a node in the store of pods after an event. *)
Lemma running_Add ds n pod st : (keyFunc st = λ o, Ok (keyOf o)) →
  (running ds n (Store.Add pod st).1 <= running ds n st + (if on_node ds n pod then 1 else 0))%nat ∧
  ((on_node ds n pod = true → ∃ old, items (cacheStorage st) !! keyOf pod = Some old ∧ on_node ds n old = true) →
   (running ds n (Store.Add pod st).1 <= running ds n st)%nat).
Proof.
  intros Hk. destruct (inStore_Add (on_node ds n) pod st Hk) as [H1 H2]. split; [|exact H2]. unfold running.
  destruct (on_node ds n pod) eqn:E; [lia|]. rewrite Nat.add_0_r. apply H2. congruence.
Qed.

Lemma ds_created_preserves ds bound s pod pod' pend1 pend2 : NodeName pod' = NodeName pod →
  cluster_ok ds bound (mkCluster s (pend1 ++ pod :: pend2)) → cluster_ok ds bound (mkCluster (observeAdd pod' s) (pend1 ++ pend2)).
Proof.
  intros Hname Hok. pose proof Hok as [Hc Hr _ Hk Hn _ _ _]. cbn in *. unfold observeAdd.
  set (s1 := with_podStore (Store.Add pod' (podStore s)).1 s).
  destruct (ds_addPod_ok pod' s1 (ds_coherent_with_podStore _ s Hc) Hr) as [Hh Hobs].
  eapply (ds_handler_preserves _ _ _ s s1); [exact Hok|by apply ds_coherent_with_podStore|done..| | | |intros _| |exact Hh|exact Hobs].
  - cbn. by rewrite (proj1 (keyFunc_Add pod' _ Hk)).
  - done.
  - rewrite !length_app. cbn. lia.
  - rewrite !length_app. cbn. lia.
  - intros n. unfold total. cbn. rewrite !filter_app, !length_app, filter_cons.
    destruct (running_Add ds n pod' _ Hk) as [Hle _]. unfold on_node in Hle at 1.
    destruct (decide (NodeName pod = n)) as [En|En]; cbn [length].
    + destruct (isDaemonSetMatch pod' ds && _); lia.
    + rewrite bool_decide_eq_false_2, andb_false_r in Hle by congruence. lia.
Qed.

Lemma ds_other_preserves ds bound s pod pend : ¬ ds_owns ds pod → cluster_ok ds bound (mkCluster s pend) →
  cluster_ok ds bound (mkCluster (observeAdd pod s) pend).
Proof.
  intros Hno Hok. pose proof Hok as [Hc Hr Hst Hk Hn _ _ _]. cbn in *. unfold observeAdd.
  set (s1 := with_podStore (Store.Add pod (podStore s)).1 s).
  destruct (ds_addPod_ok pod s1 (ds_coherent_with_podStore _ s Hc) Hr) as [Hh Hobs].
  eapply (ds_handler_preserves _ _ _ s s1); [exact Hok|by apply ds_coherent_with_podStore|done..| | |done| | |exact Hh|exact Hobs].
  - cbn. by rewrite (proj1 (keyFunc_Add pod _ Hk)).
  - done.
  - intros (ds1 & Hds1 & Ho). destruct Hno. cbn in Hds1. destruct (Hst _ Hds1) as (Hns & _ & Hsel).
    unfold ds_owns in *. by rewrite Hns, Hsel.
  - intros n. unfold total. cbn. apply Nat.add_le_mono_r, running_Add; [done|].
    unfold on_node. intros [Hm%isDaemonSetMatch_owns _]%andb_prop. done.
Qed.

(** Another store of daemon sets, that has [ds] as it was or no longer. *)
Lemma sets_preserve ds bound s st c q pend : coherent (with_cache c (with_dsStore st s)) →
  (∀ ds', items (cacheStorage st) !! keyOf ds = Some ds' → ∃ ds0, items (cacheStorage (dsStore s)) !! keyOf ds = Some ds0 ∧ same_spec ds0 ds') →
  cluster_ok ds bound (mkCluster s pend) → cluster_ok ds bound (mkCluster (with_queue q (with_cache c (with_dsStore st s))) pend).
Proof.
  intros [H1 H2 H3] Hst' [Hc Hr Hst Hk Hn Hb He Ht]. cbn in *. split; cbn; try done.
  - intros ds' (ds0 & Hds0 & Hsp)%Hst'. exact (same_spec_trans _ _ _ (Hst _ Hds0) Hsp).
  - intros [ds' (ds0 & Hds0 & _)%Hst']. apply He. by exists ds0.
Qed.

Lemma daemon_set_preserves ds bound s sameSelector old cur pend : items (cacheStorage (dsStore s)) !! keyOf cur = Some old →
  (sameSelector = true ∨ keyOf cur = keyOf ds → same_spec old cur) →
  cluster_ok ds bound (mkCluster s pend) → cluster_ok ds bound (mkCluster (observeDaemonSet sameSelector cur s) pend).
Proof.
  intros Hold Hsp Hok. pose proof (cl_coherent _ _ _ Hok) as Hc. cbn in Hc.
  unfold observeDaemonSet, updateDaemonSet. rewrite ds_enqueue_eq.
  destruct (keyFunc_Add cur (dsStore s) (coh_keyFunc s Hc)) as [Hf Hi].
  set (st := (Store.Update cur (dsStore s)).1). change (Store.Add cur (dsStore s)).1 with st in Hf, Hi.
  assert (∀ c, coherent (with_cache c (with_dsStore st s)) → ∀ q, cluster_ok ds bound (mkCluster (with_queue q (with_cache c (with_dsStore st s))) pend)) as Hdone.
  { intros c Hc' q. apply sets_preserve; [done| |done]. intros ds'. rewrite Hi. intros [[E <-]|[_ ?]]%lookup_insert_Some; [|by exists ds'].
    exists old. rewrite <- E. auto. }
  destruct sameSelector; cbn [negb].
  - refine (Hdone (lookupCache s) _ _).
    apply (coherent_same_sets st s); [|done]. eapply same_sets_insert; [exact Hold|auto|exact Hf|exact Hi].
  - apply Hdone. destruct Hc as [H1 H2 _]. split; cbn; [by rewrite Hf| |by intros h ds' ds0 ?%elem_of_nil].
    intros k ds'. rewrite Hi. intros [[<- <-]|[_ ?]]%lookup_insert_Some; [done|by apply H2].
Qed.

Lemma daemon_set_added_preserves ds bound s cur pend : keyOf cur ≠ keyOf ds →
  (∀ h old, (h, old) ∈ ll (lookupCache s) → keyOf old ≠ keyOf cur) →
  cluster_ok ds bound (mkCluster s pend) → cluster_ok ds bound (mkCluster (observeDaemonSetAdd cur s) pend).
Proof.
  intros Hne Hno Hok. pose proof (cl_coherent _ _ _ Hok) as Hc. cbn in Hc. unfold observeDaemonSetAdd, addDaemonSet. rewrite ds_enqueue_eq.
  destruct (keyFunc_Add cur (dsStore s) (coh_keyFunc s Hc)) as [Hf Hi]. set (st := (Store.Add cur (dsStore s)).1) in *.
  refine (sets_preserve ds bound s st (lookupCache s) _ pend _ _ Hok).
  - destruct Hc as [H1 H2 H3]. split; cbn; [by rewrite Hf|..].
    + intros k ds'. rewrite Hi. intros [[<- <-]|[_ ?]]%lookup_insert_Some; [done|by apply H2].
    + intros h ds' ds0 Hin. rewrite Hi, lookup_insert_ne by (intros E; by apply (Hno h ds')). by apply (H3 h).
  - intros ds'. rewrite Hi, lookup_insert_ne by done. intros E. by exists ds'.
Qed.

Lemma daemon_set_deleted_preserves ds bound s obj s' pend : observeDaemonSetDelete obj s = Returns s' →
  cluster_ok ds bound (mkCluster s pend) → cluster_ok ds bound (mkCluster s' pend).
Proof.
  intros E Hok. pose proof (cl_coherent _ _ _ Hok) as Hc. cbn in Hc. unfold observeDaemonSetDelete in E.
  destruct (DeletionHandlingMetaNamespaceKeyFunc obj) as [k|]; [|by injection E as <-].
  destruct obj as [cur| | |]; [|done..]. cbn in E. injection E as <-. rewrite ds_enqueue_eq. set (st := mkCache _ _).
  assert (∀ k' ds', items (cacheStorage st) !! k' = Some ds' → items (cacheStorage (dsStore s)) !! k' = Some ds') as Hsub.
  { intros k' ds'. unfold st. cbn. rewrite items_Delete. by intros [_ ?]%lookup_delete_Some. }
  refine (sets_preserve ds bound s st (lookupCache s) _ pend _ _ Hok).
  - destruct Hc as [H1 H2 H3]. split; cbn; [done|intros ?? ?%Hsub; by apply H2|intros h ds' ds0 Hin ?%Hsub; by apply (H3 h)].
  - intros ds' ?%Hsub. by exists ds'.
Qed.

Lemma dstep_preserves ds bound c c' : accepted ds → (∀ n, (1 <= bound n)%nat) → cluster_ok ds bound c → dstep ds c c' → cluster_ok ds bound c'.
Proof.
  intros Hacc Hbound Hok Hstep. destruct Hstep as [now answers k s s' calls err pods pend Hexp Hsync Hpods
    |s pod pod' p1 p2 Hname|s pod p1 p2|s pod pend Hno|s same old cur pend Hold Hm|s obj pend|s node pend Hns|s old cur pend Hns|s k pend
    |s sameSelector old cur pend Hold Hsp|s cur pend Hne Hno|s obj s' pend Hdel|s q pend|s pend].
  - by eapply ds_sync_preserves.
  - by eapply ds_created_preserves.
  - destruct Hok as [? ? ? ? ? ? He Ht]. cbn in *. split; cbn; try done.
    + intros Hsome. eapply ds_expected_lower; [exact (He Hsome)|]. rewrite !length_app. cbn. lia.
    + intros n. specialize (Ht n). unfold total in *. cbn in *. rewrite !filter_app, !length_app, filter_cons in *.
      case_decide; cbn in Ht; lia.
  - by apply ds_other_preserves.
  - pose proof Hok as [Hc Hr _ Hk Hn _ _ _]. cbn in *.
    eapply quiet_preserves; [exact Hok|..|by apply ds_updatePod_ok; [apply ds_coherent_with_podStore|]]; try done.
    + by apply ds_coherent_with_podStore.
    + cbn. by rewrite (proj1 (keyFunc_Add cur _ Hk)).
    + intros n. apply running_Add; [done|]. intros Hc1. exists old. auto.
  - pose proof Hok as [Hc Hr _ Hk Hn _ _ _]. cbn in *. unfold observeDelete.
    destruct (DeletionHandlingMetaNamespaceKeyFunc obj) as [k|]; [|done]. set (s1 := with_podStore _ s).
    destruct (ds_deletePod_ok obj s1 (ds_coherent_with_podStore _ s Hc) Hr) as [Hh Hobs].
    eapply (ds_handler_preserves _ _ (λ _, False) s s1); [exact Hok|by apply ds_coherent_with_podStore|done..| |exact Hh|exact Hobs].
    intros n. unfold total. cbn. apply Nat.add_le_mono_r. unfold running, inStore. cbn. rewrite items_Delete.
    exact (size_filter_delete_le _ (λ pod, on_node ds n pod = true) k).
  - pose proof Hok as [Hc Hr _ Hk Hn _ _ _]. cbn in *.
    eapply quiet_preserves; [exact Hok|..|by apply addNode_ok; [apply coherent_with_nodeStore|]]; try done.
    + by apply coherent_with_nodeStore.
    + by apply nodes_ok_Add.
  - pose proof Hok as [Hc Hr _ Hk Hn _ _ _]. cbn in *.
    eapply quiet_preserves; [exact Hok|..|by apply updateNode_ok; [apply coherent_with_nodeStore|]]; try done.
    + by apply coherent_with_nodeStore.
    + by apply (nodes_ok_Add cur).
  - destruct Hok as [Hc Hr ? ? [Hkf Hnames] ? ? ?]. cbn in *. split; cbn; try done; [by apply coherent_with_nodeStore|].
    split; cbn; [done|]. intros k' node. rewrite items_Delete. intros [_ ?]%lookup_delete_Some. by apply Hnames.
  - by eapply daemon_set_preserves.
  - by apply daemon_set_added_preserves.
  - by eapply daemon_set_deleted_preserves.
  - destruct Hok as [[? ? ?] ? ? ? ? ? ? ?]. by split.
  - destruct Hok as [[? ? ?] ? ? ? ? ? ? ?]. by split.
Qed.

(** *** What the specifications say of a node and of a sync *)













(** The status that is reported: how many nodes should run a daemon pod and do, should not and do, and should. *)
Definition wanted_status s ds : DaemonSetStatus :=
  let nodes := Store.List (nodeStore s) in
  let count (P : Node → bool) := Z.of_nat (length (filter (λ node, P node = true) nodes)) in
  let has node := negb (Nat.eqb (length (daemonPods s ds (node_Name node))) 0) in
  mkDaemonSetStatus (count (λ node, should_run s node ds && has node)) (count (λ node, negb (should_run s node ds) && has node))
    (count (λ node, should_run s node ds)).

Lemma statusOfNodes_eq ds m nodes : ∀ c mi d s, orderly s →
  let has node := negb (Nat.eqb (length (default [] (m !! node_Name node))) 0) in
  let count (P : Node → bool) := Z.of_nat (length (filter (λ node, P node = true) nodes)) in
  (statusOfNodes ds m nodes (mkDaemonSetStatus c mi d) s).1 =
    mkDaemonSetStatus (c + count (λ node, should_run s node ds && has node)) (mi + count (λ node, negb (should_run s node ds) && has node))
      (d + count (λ node, should_run s node ds)).
Proof.
  induction nodes as [|node nodes IH]; intros c mi d s Hs; cbn zeta; cbn [statusOfNodes]; [by rewrite !Z.add_0_r|].
  pose proof (nodeShouldRun_eq node ds s Hs) as Erun. pose proof (nodeShouldRun_lookup node ds s (or_coherent s Hs)) as Hl.
  destruct (nodeShouldRunDaemonPod node ds s) as [run s1]. cbn [fst snd] in Erun, Hl.
  cbn [CurrentNumberScheduled NumberMisscheduled DesiredNumberScheduled]. rewrite IH by (by eapply orderly_lookup).
  rewrite (proj1 Hl). cbn zeta. change (should_run (with_cache (lookupCache s1) s)) with (should_run s).
  rewrite !filter_cons, <- Erun.
  assert (∀ n, Nat.ltb 0 n = negb (Nat.eqb n 0)) as Eb by (by intros []). rewrite Eb.
  destruct run, (Nat.eqb (length (default [] (m !! node_Name node))) 0); cbn [andb negb]; repeat (case_decide; try done); cbn [length];
    f_equal; lia.
Qed.

Lemma wanted_status_eq s ds : accepted ds → orderly s →
  (statusOfNodes ds (nodeToDaemonPodsOf ds s) (nodeLister_List (nodeStore s)) (mkDaemonSetStatus 0 0 0) s).1 = wanted_status s ds.
Proof.
  intros Hacc Hs. rewrite nodeLister_List_eq, statusOfNodes_eq by done. cbn zeta. unfold wanted_status.
  assert (∀ node, length (default [] (nodeToDaemonPodsOf ds s !! node_Name node)) = length (daemonPods s ds (node_Name node))) as E.
  { intros node. rewrite nodeToDaemonPods_lookup by done. by destruct (daemonPods _ _ _). }
  f_equal; rewrite Z.add_0_l; do 2 f_equal; apply list_filter_iff; intros node; by rewrite ?E.
Qed.

Lemma with_status_id status ds : statusIs status ds = true → with_status status ds = ds.
Proof.
  unfold statusIs. rewrite !andb_true_iff, !Z.eqb_eq. destruct ds as [? ? ? ? ? [? ? ?]], status. unfold with_status. cbn.
  intros [[-> ->] ->]. done.
Qed.

Lemma statusIs_refl status ds : statusIs status (with_status status ds) = true.
Proof. unfold statusIs, with_status. cbn. by rewrite !Z.eqb_refl. Qed.

(** A sync of the status of the stored object, and what it leaves in the store. *)
Lemma updateDaemonSetStatus_eq answers key ds s : accepted ds → orderly s →
  let status := wanted_status s ds in
  ∃ c, updateDaemonSetStatus answers key ds s =
    (with_dsStore (overwrite key (with_status status ds) (dsStore s)) (with_cache c s),
     if statusIs status ds then [] else (statusLoop answers StatusUpdateRetries 0 status ds).1) ∧
    lookup_only s (with_cache c s).
Proof.
  intros Hacc Hs status. unfold updateDaemonSetStatus. pose proof (wanted_status_eq s ds Hacc Hs) as Est.
  pose proof (statusOfNodes_lookup ds (nodeToDaemonPodsOf ds s) (nodeLister_List (nodeStore s)) (mkDaemonSetStatus 0 0 0) s (or_coherent s Hs)) as Hl.
  destruct (statusOfNodes _ _ _ _ _) as [status' s1]. cbn [fst snd] in *. subst status'. exists (lookupCache s1).
  rewrite <- (proj1 Hl). split; [|done]. unfold storeDaemonSetStatus. fold status. destruct (statusIs status ds) eqn:E.
  - rewrite with_status_id by done. by rewrite (proj1 Hl).
  - destruct (statusLoop _ _ _ _ _) as [calls ok]. by rewrite (proj1 Hl).
Qed.

(** Another status leaves everything else as it was. *)
Lemma orderly_status key status ds s : orderly s → items (cacheStorage (dsStore s)) !! key = Some ds →
  orderly (with_dsStore (overwrite key (with_status status ds) (dsStore s)) s) ∧
  ∀ name pod, claimed (with_dsStore (overwrite key (with_status status ds) (dsStore s)) s) name pod = claimed s name pod.
Proof.
  intros Hs Hds. set (st := overwrite _ _ _). assert (same_sets (dsStore s) st) as Hst by (by apply (same_sets_insert _ _ key ds (with_status status ds))).
  assert (∀ d, d ∈ Store.List st → ∃ d0, d0 ∈ Store.List (dsStore s) ∧ same_spec d0 d ∧ items (cacheStorage st) !! keyOf d0 = Some d) as Hback.
  { intros d [k Hk]%elem_of_stored. destruct (same_sets_Some _ _ _ _ Hst Hk) as (d0 & Hd0 & Hsp). exists d0.
    split; [apply elem_of_stored; by exists k|]. split; [done|]. by rewrite (coh_keys s (or_coherent s Hs) k d0 Hd0). }
  assert (∀ d0 d pod, same_spec d0 d → ds_owns d pod ↔ ds_owns d0 pod) as Howns.
  { intros d0 d pod (Hns & _ & Hsel). unfold ds_owns. by rewrite Hns, Hsel. }
  assert (orderly (with_dsStore st s)) as Hs'.
  { destruct Hs as [Hc Hv Hx Hl]. split; cbn.
    - by apply coherent_same_sets.
    - intros d (d0 & Hd0 & (_ & _ & <-) & _)%Hback. by apply Hv.
    - intros pod d d' Hpod (d0 & Hd0 & Hsp & Hk)%Hback (d0' & Hd0' & Hsp' & Hk')%Hback Ho Ho'.
      assert (d0 = d0') as <-; [|congruence]. apply (Hx pod); [done..|by apply (Howns d0 d)|by apply (Howns d0' d')].
    - intros pod d Hpod (d0 & Hd0 & Hsp & _)%Hback Ho. apply (Hl pod d0); [done..|by apply (Howns d0 d)]. }
  split; [done|]. intros name pod. apply eq_true_iff_eq. rewrite !claimed_true by done. cbn. split.
  - intros (d & (d0 & Hd0 & Hsp & _)%Hback & Ho & Hn). exists d0. split_and!; [done|by apply (Howns d0 d)|]. destruct Hsp as (_ & -> & _). done.
  - intros (d0 & [k Hk]%elem_of_stored & Ho & Hn). destruct (same_sets_Some_l _ _ _ _ Hst Hk) as (d & Hd & Hsp). exists d.
    split_and!; [apply elem_of_stored; by exists k|by apply (Howns d0 d)|]. destruct Hsp as (_ & <- & _). done.
Qed.

Lemma wanted_status_status key status status' ds s : orderly s → items (cacheStorage (dsStore s)) !! key = Some ds →
  wanted_status (with_dsStore (overwrite key (with_status status ds) (dsStore s)) s) (with_status status' ds) = wanted_status s ds.
Proof.
  intros Hs Hds. destruct (orderly_status key status ds s Hs Hds) as [_ Hcl]. unfold wanted_status. cbn [nodeStore with_dsStore].
  set (s' := with_dsStore _ s) in *.
  assert (∀ node, should_run s' node (with_status status' ds) = should_run s node ds) as Erun.
  { intros node. unfold should_run. change (templatePod node (with_status status' ds)) with (templatePod node ds).
    assert (others s' node (with_status status' ds) = others s node ds) as ->; [|done].
    unfold others. apply list_filter_iff. intros pod. by rewrite Hcl. }
  assert (∀ n, daemonPods s' (with_status status' ds) n = daemonPods s ds n) as Epods by done.
  f_equal; do 2 f_equal; apply list_filter_iff; intros node; by rewrite ?Erun, ?Epods.
Qed.

(** A controller that has just started, with [ds] in its store. *)
Definition started ds s : Prop :=
  expectations s = NewControllerExpectations ∧ coherent s ∧
  (∃ ds', items (cacheStorage (dsStore s)) !! keyOf ds = Some ds' ∧ same_spec ds ds') ∧
  (keyFunc (podStore s) = λ o, Ok (keyOf o)) ∧ nodes_ok (nodeStore s) ∧ 0 <= burstReplicas s < 2 ^ 63.
End facts.

(** ** Properties *)

(** C4: of a daemon set whose selector is valid and not empty, a node never has more than one
    daemon pod, or those it had to begin with, however syncs, events of pods and nodes, pods
    that vanish, and changes, additions and deletions of other daemon sets interleave, and while the
    daemon set itself is changed in anything but its selector, or deleted: a pod that was created
    and not observed yet is expected, and nothing is created while it is.  Excluded
    are that the expectations expire, that pods join the daemon set or move to another node, that another
    daemon set is added while the lookup cache still has an old one under its key, and
    that the daemon set gets another selector or is
    deleted and added again under its name: a sync without the daemon set drops the
    expectations, so that the next one creates a second pod ([recreated_overshoots]). *)
Theorem one_daemon_per_node (R : RangeOrder) (K : KeySort) (L : LabelHash) (P : Pow10Conv)
    (dsSort : Sorts byCreationTimestamp_Less) (podSort : Sorts podByCreationTimestamp_Less)
    (ds : DaemonSet) (s : DaemonSetsController) (c : Cluster) (n : string) :
  accepted ds → started ds s → rtc (dstep ds) (mkCluster s []) c →
  (total ds n c <= Nat.max 1 (running ds n (podStore s)))%nat.
Proof.
  intros Hacc (Hr & Hc & Hst & Hk & Hn & Hb) Hsteps.
  apply (cl_total ds (λ n, Nat.max 1 (running ds n (podStore s)))). revert Hsteps.
  apply rtc_ind_r; [|intros; eapply dstep_preserves; [done|cbn; lia|done..]].
  split; cbn; try done.
  - rewrite Hr. apply New_ce_ok.
  - intros ds1 Hds1. destruct Hst as (ds' & Hds & Hsp). congruence.
  - unfold expected. by rewrite Hr.
  - intros m. unfold total. cbn. lia.
Qed.



(** C14: as long as the selectors of the daemon sets are valid and no two of them select one pod
    ([orderly]), a sync reports how many nodes should run a daemon pod, how many of them do and how many others do,
    only if that is news: by one update and, when it fails and the daemon set can be read
    again, by one more, which puts the same counts into the object that was read; but it
    writes them to the object in the local store first: when every update fails, the next
    sync compares with what was written and does not try again. *)
Theorem updateDaemonSetStatus_spec (R : RangeOrder) (K : KeySort) (L : LabelHash) (P : Pow10Conv)
    (dsSort : Sorts byCreationTimestamp_Less) (podSort : Sorts podByCreationTimestamp_Less)
    (answers : apiAnswers) (key : string) (ds : DaemonSet) (s : DaemonSetsController) :
  orderly s → accepted ds → items (cacheStorage (dsStore s)) !! key = Some ds →
  let status := wanted_status s ds in
  let '(s', calls) := updateDaemonSetStatus answers key ds s in
  calls = (if statusIs status ds then [] else
    UpdateStatus (with_status status ds) (updateStatusOk answers 0) ::
    (if updateStatusOk answers 0 then [] else
     match getDaemonSet answers 0 with
     | Some fresh => [UpdateStatus (with_status status fresh) (updateStatusOk answers 1)]
     | None => []
     end)) ∧
  items (cacheStorage (dsStore s')) !! key = Some (with_status status ds) ∧
  ∀ answers', (updateDaemonSetStatus answers' key (with_status status ds) s').2 = [].
Proof.
  intros Hs Hacc Hds status. destruct (updateDaemonSetStatus_eq answers key ds s Hacc Hs) as (c & E & Hl). fold status in E. rewrite E.
  split_and!.
  - destruct (statusIs status ds); [done|]. unfold StatusUpdateRetries. cbn [statusLoop].
    destruct (updateStatusOk answers 0); [done|]. destruct (getDaemonSet answers 0) as [fresh|]; [|done].
    cbn [statusLoop]. by destruct (updateStatusOk answers 1), (getDaemonSet answers 1).
  - cbn. by rewrite lookup_insert_eq.
  - intros answers'. set (s1 := with_cache c s) in *.
    destruct (orderly_status key status ds s1 (orderly_lookup _ _ Hl Hs) Hds) as [Hs' _].
    destruct (updateDaemonSetStatus_eq answers' key (with_status status ds) (with_dsStore (overwrite key (with_status status ds) (dsStore s)) s1))
      as (c' & -> & _); [by destruct Hacc; split|done|].
    rewrite (wanted_status_status key status status ds s1 (orderly_lookup _ _ Hl Hs) Hds).
    change (wanted_status s1 ds) with status. by rewrite statusIs_refl.
Qed.

(** ** Witnesses *)
#[local] Existing Instance canonical_order.
#[local] Existing Instance canonical_sort.
#[local] Existing Instance small_powers.

(** A hash that always collides. *)
Definition no_hash : LabelHash := {| label_hash := λ _ _, 0 |}.
#[local] Existing Instance no_hash.

Definition canonical_sets : Sorts byCreationTimestamp_Less.
Proof. apply merge_Sorts; apply (age_order ds_CreationTimestamp ds_Name). Defined.
#[local] Existing Instance canonical_sets.

Definition canonical_pods : Sorts podByCreationTimestamp_Less.
Proof. apply merge_Sorts; apply (age_order CreationTimestamp Name). Defined.
#[local] Existing Instance canonical_pods.

(** An agent that takes a tenth of a processor and a port. *)
Definition example_container : Container :=
  mkContainer [mkContainerPort "http" 9100 9100 "TCP"]
    {["cpu" := NewMilliQuantity 100 DecimalSI; "memory" := NewQuantity 1000 BinarySI]}.

Definition example_ds : DaemonSet :=
  mkDaemonSet "ns" "agent" 0 (Some (mkLabelSelector {["app" := "agent"]} [])) (mkPodSpec ∅ "" [example_container])
    (mkDaemonSetStatus 0 0 0).

Definition example_node (name : string) (conditions : list NodeCondition) : Node :=
  mkNode name 0 "" conditions "" "" ∅ {["cpu" := NewQuantity 1 DecimalSI; "memory" := NewQuantity 4000 BinarySI]}.

Definition full_disk : NodeCondition := mkNodeCondition NodeOutOfDisk ConditionTrue 0 0 "" "".

Definition example_pod (name node : string) (created : Time) : Pod :=
  mkPod "ns" name {["app" := "agent"]} node "Running" [] [] created None name "1" ∅ "" [example_container] None.

(** A pod of the node that no daemon set owns, and that takes the port. *)
Definition squatter : Pod :=
  mkPod "ns" "squatter" {["app" := "other"]} "n4" "Running" [] [] 0 None "squatter" "1" ∅ "" [example_container] None.

Definition example_start : DaemonSetsController :=
  with_nodeStore (Store.Add (example_node "n1" []) (nodeStore (NewDaemonSetsController 4))).1
    (with_dsStore (Store.Add example_ds (dsStore (NewDaemonSetsController 4))).1 (with_synced (NewDaemonSetsController 4))).

(** [n1] lacks its pod, [n2] is out of disk and has one, [n3] has two, and on [n4] the port is taken. *)
Definition example_nodes : list Node :=
  [example_node "n2" [full_disk]; example_node "n3" []; example_node "n4" []].
Definition example_pods : list Pod := [example_pod "a" "n2" 1; example_pod "b" "n3" 3; example_pod "c" "n3" 2; squatter].

Definition example_later : DaemonSetsController :=
  with_podStore (foldl (λ st pod, (Store.Add pod st).1) (podStore example_start) example_pods)
    (with_nodeStore (foldl (λ st node, (Store.Add node st).1) (nodeStore example_start) example_nodes) example_start).

Definition all_ok : apiAnswers := mkAnswers (λ _, true) (λ _, true) (λ _, true) (λ _, None).
Definition no_status : apiAnswers := mkAnswers (λ _, true) (λ _, true) (λ _, false) (λ _, Some example_ds).

Lemma ds_example_accepted : accepted example_ds.
Proof.
  split; [done..|]. split; [|by intros e ?%elem_of_nil]. intros k v Hkv. cbn [MatchLabels] in Hkv.
  apply lookup_singleton_Some in Hkv as [<- <-]. split; vm_compute; reflexivity.
Qed.

Lemma ds_example_sets k ds : items (cacheStorage (dsStore example_start)) !! k = Some ds → k = "ns/agent" ∧ ds = example_ds.
Proof.
  change (dsStore example_start) with (Store.Add example_ds (dsStore (NewDaemonSetsController 4))).1. unfold Store.Add.
  cbn [keyFunc NewDaemonSetsController dsStore NewStore fst cacheStorage].
  rewrite items_Add, lookup_insert_Some. by intros [[<- <-]|[_ ?]].
Qed.

Lemma ds_example_orderly nodes pods : (∀ pod, pod ∈ Store.List pods → pod_Labels pod ≠ ∅) →
  orderly (with_podStore pods (with_nodeStore nodes example_start)).
Proof.
  intros Hl. set (s := with_podStore _ _).
  assert (∀ ds, ds ∈ Store.List (dsStore s) → ds = example_ds) as Hi by (by intros ds [k [_ ?]%ds_example_sets]%elem_of_stored).
  split.
  - split; [done|by intros k ds [-> ->]%ds_example_sets|by intros h ds' ds ?%elem_of_nil].
  - intros ds ->%Hi. apply ds_example_accepted.
  - by intros pod ds ds' _ ->%Hi ->%Hi.
  - intros pod ds Hpod _ _. by apply Hl.
Qed.

Lemma later_orderly : orderly example_later.
Proof.
  apply ds_example_orderly. intros pod. change (Store.List _) with (Store.List (podStore example_later)).
  assert (Store.List (podStore example_later) = [squatter; example_pod "c" "n3" 2; example_pod "a" "n2" 1; example_pod "b" "n3" 3]) as ->
    by (vm_compute; reflexivity).
  rewrite !elem_of_cons, elem_of_nil. naive_solver.
Qed.


Lemma ds_example_started : started example_ds example_start.
Proof.
  split_and!; [done|apply or_coherent, (ds_example_orderly (nodeStore example_start) (podStore example_start))| |done| |done|done].
  - intros pod. assert (Store.List (podStore example_start) = []) as -> by (vm_compute; reflexivity). by intros ?%elem_of_nil.
  - exists example_ds. split; [|done]. vm_compute. reflexivity.
  - apply nodes_ok_Add; [|done]. by split.
Qed.

Definition synced_start : DaemonSetsController :=
  match syncDaemonSet 5 all_ok "ns/agent" example_start with Returns (s, _, _) => s | Panics => example_start end.

Definition observed : DaemonSetsController := observeAdd (example_pod "x" "n1" 6) synced_start.

(** A creation, and its event. *)
Lemma one_daemon_per_node_witness :
  rtc (dstep example_ds) (mkCluster example_start []) (mkCluster observed []) ∧
  total example_ds "n1" (mkCluster observed []) = 1%nat ∧
  (total example_ds "n1" (mkCluster observed []) <= 1)%nat.
Proof.
  assert (rtc (dstep example_ds) (mkCluster example_start [])
    (mkCluster observed [])) as Hsteps.
  { apply (rtc_l _ _ (mkCluster synced_start [example_pod "x" "n1" 6])).
    - destruct (syncDaemonSet 5 all_ok "ns/agent" example_start) as [[[s calls] err]|] eqn:E; [|vm_compute in E; done].
      assert (createdNodes match syncDaemonSet 5 all_ok "ns/agent" example_start with Returns (_, calls, _) => calls | Panics => [] end = ["n1"])
        as Hn by (vm_compute; reflexivity).
      unfold synced_start. rewrite E in Hn |- *.
      eapply (step_sync _ 5 all_ok "ns/agent" _ _ _ _ [example_pod "x" "n1" 6] []); [by intros e|exact E|].
      rewrite decide_True by done. by rewrite Hn.
    - apply rtc_once. by apply (step_created _ _ (example_pod "x" "n1" 6) (example_pod "x" "n1" 6) [] []). }
  split; [exact Hsteps|]. split; [by vm_compute|].
  exact (one_daemon_per_node canonical_order canonical_sort no_hash small_powers canonical_sets canonical_pods example_ds example_start
    _ "n1" ds_example_accepted ds_example_started Hsteps).
Defined.



(** Two refused updates, and no third one. *)
Lemma updateDaemonSetStatus_spec_witness :
  orderly example_later ∧ accepted example_ds ∧
  (let counted := with_status (mkDaemonSetStatus 1 1 2) in
   (updateDaemonSetStatus no_status "ns/agent" example_ds example_later).2 =
     [UpdateStatus (counted example_ds) false; UpdateStatus (counted example_ds) false]) ∧
  let s' := (updateDaemonSetStatus no_status "ns/agent" example_ds example_later).1 in
  ∀ answers', (updateDaemonSetStatus answers' "ns/agent" (with_status (mkDaemonSetStatus 1 1 2) example_ds) s').2 = [].
Proof.
  split; [apply later_orderly|]. split; [apply ds_example_accepted|]. split; [by vm_compute|]. intros s'.
  pose proof (updateDaemonSetStatus_spec canonical_order canonical_sort no_hash small_powers canonical_sets canonical_pods no_status "ns/agent"
    example_ds example_later later_orderly ds_example_accepted ltac:(vm_compute; reflexivity)) as Hspec.
  assert (wanted_status example_later example_ds = mkDaemonSetStatus 1 1 2) as E by (vm_compute; reflexivity). cbn zeta in Hspec. rewrite E in Hspec.
  unfold s'. destruct (updateDaemonSetStatus no_status "ns/agent" example_ds example_later) as [s1 calls]. exact (proj2 (proj2 Hspec)).
Defined.

(** A pod is created and not observed; the daemon set is deleted and a sync drops its expectations;
    it is added again, and a sync creates a second pod on the node. *)
Example recreated_overshoots :
  match observeDaemonSetDelete (IObj example_ds) synced_start with
  | Returns s =>
      match syncDaemonSet 6 all_ok "ns/agent" s with
      | Returns (s, [], None) =>
          match syncDaemonSet 7 all_ok "ns/agent" (observeDaemonSetAdd example_ds s) with
          | Returns (_, calls, _) => createdNodes calls = ["n1"]
          | Panics => False
          end
      | _ => False
      end
  | Panics => False
  end.
Proof. by vm_compute. Qed.

(** *** A selector with an error

    A value with a space passes the API's validation, which does not look at the values.  The
    error is logged and no pod is found: a pod is created on every node, and, as its event
    finds no daemon set either, once more whenever the expectations have expired. *)
Definition broken_ds : DaemonSet :=
  mkDaemonSet "ns" "agent" 0 (Some (mkLabelSelector ∅ [mkExpr "app" LabelSelectorOpIn ["a b"]])) (mkPodSpec ∅ "" [])
    (mkDaemonSetStatus 0 0 0).

Definition synced_at (now : Z) (s : DaemonSetsController) : DaemonSetsController * list string :=
  match syncDaemonSet now all_ok "ns/agent" s with Returns (s, calls, _) => (s, createdNodes calls) | Panics => (s, []) end.

Example invalid_selector_creates_again :
  let '(s, created) := synced_at 5 (with_dsStore (Store.Add broken_ds (dsStore example_start)).1 example_start) in
  let s := observeAdd (example_pod "x" "n1" 6) s in
  created = ["n1"] ∧ (synced_at 10 s).2 = [] ∧ (synced_at (6 * 60 * 10 ^ 9) s).2 = ["n1"].
Proof. vm_compute. auto. Qed.

(** *** Daemon sets of the same name

    Only the names are compared: the pod of a daemon set in another namespace takes the port of
    the node, and is not counted. *)
Definition namesake : DaemonSet :=
  mkDaemonSet "other" "agent" 0 (ds_Selector example_ds) (ds_Template example_ds) (ds_Status example_ds).

Definition namesake_pod : Pod :=
  mkPod "other" "y" {["app" := "agent"]} "n1" "Running" [] [] 0 None "y" "1" ∅ "" [example_container] None.

Example namesake_not_counted :
  let s := with_dsStore (Store.Add namesake (dsStore example_start)).1 (observeAdd namesake_pod example_start) in
  (nodeShouldRunDaemonPod (example_node "n1" []) example_ds s).1 = true ∧
  (nodeShouldRunDaemonPod (example_node "n1" []) example_ds (observeAdd namesake_pod example_start)).1 = false.
Proof. vm_compute. auto. Qed.
