(* ===== verification/PodGC.v ===== *)
(** * Pod garbage collection

    [pkg/controller/gc/gc_controller.go]: an informer, whose field selector the API server
    evaluates, keeps the pods that are neither pending, running nor of an unknown phase;
    every twenty seconds [gc] deletes the oldest of them, as many as there are above a
    threshold.  The calls to the API server are returned with their outcome, which only a
    log records; the goroutines that make them commute. *)

From S2P Require Import Prelude.
From S2P Require Import ThreadSafeStore.
From S2P Require Import Store.
From S2P Require Import Informer.
From S2P Require Import Labels.
From S2P Require Import Pods.
From S2P Require Import Listers.
#[local] Open Scope Z_scope.

(** [byCreationTimestamp.Less] *)
Definition byCreationTimestamp_Less (a b : Pod) : bool :=
  if Z.eqb (CreationTimestamp a) (CreationTimestamp b) then string_lt (Name a) (Name b)
  else CreationTimestamp a <? CreationTimestamp b.

Record GCController : Type := mkGC { podStore : cache Pod; threshold : Z }.

(** [New], before the informer has filled the store. *)
Definition New (threshold : Z) : GCController := mkGC (NewStore (λ o, Ok (keyOf o))) threshold.

Section gc.
Context `{R : RangeOrder} `{podSort : !Sorts byCreationTimestamp_Less}.

(** The answers of the API server, to the i-th deletion. *)
Fixpoint deleteLoop (answers : nat → bool) (i : nat) (pods : list Pod) : list (string * string * bool) :=
  match pods with
  | [] => []
  | pod :: pods => (Namespace pod, Name pod, answers i) :: deleteLoop answers (S i) pods
  end.

Definition gc (answers : nat → bool) (gcc : GCController) : list (string * string * bool) :=
  let terminatedPods := listAllPods (podStore gcc) Everything in
  let terminatedPodCount := Z.of_nat (length terminatedPods) in
  let terminatedPods := sort byCreationTimestamp_Less terminatedPods in
  let deleteCount := int64 (terminatedPodCount - threshold gcc) in
  let deleteCount := if terminatedPodCount <? deleteCount then terminatedPodCount else deleteCount in
  deleteLoop answers 0 (take (Z.to_nat deleteCount) terminatedPods).

(** ** Facts *)

Lemma listAllPods_Everything store : listAllPods store Everything = Store.List store.
Proof. unfold listAllPods. change (foldl (λ (pods : list Pod) pod, pods ++ [pod]) [] (Store.List store) = Store.List store). apply foldl_append. Qed.

Lemma deleteLoop_names answers pods : ∀ i, (λ call, call.1) <$> deleteLoop answers i pods = (λ pod, (Namespace pod, Name pod)) <$> pods.
Proof. induction pods as [|pod pods IH]; intros i; [done|]. rewrite fmap_cons, <- (IH (S i)). done. Qed.

(** ** Properties *)

(** A collection deletes each of the oldest terminated pods once, so many that at most the
    threshold is left, and none while there are no more than that; a negative threshold
    is one of zero. *)
Theorem gc_spec (answers : nat → bool) (gcc : GCController) :
  - 2 ^ 62 < threshold gcc < 2 ^ 62 → Z.of_nat (length (Store.List (podStore gcc))) < 2 ^ 62 →
  ∃ doomed kept, doomed ++ kept ≡ₚ Store.List (podStore gcc) ∧
    (λ call, call.1) <$> gc answers gcc = (λ pod, (Namespace pod, Name pod)) <$> doomed ∧
    (∀ p q, p ∈ doomed → q ∈ kept → byCreationTimestamp_Less q p = false) ∧
    Z.of_nat (length kept) = Z.min (Z.of_nat (length (Store.List (podStore gcc)))) (Z.max 0 (threshold gcc)).
Proof.
  intros Ht Hn. unfold gc. rewrite listAllPods_Everything. set (l := Store.List (podStore gcc)) in *.
  set (n := if _ <? _ then _ else _). exists (take (Z.to_nat n) (sort byCreationTimestamp_Less l)),
    (drop (Z.to_nat n) (sort byCreationTimestamp_Less l)).
  pose proof (Permutation_length (sort_perm (less := byCreationTimestamp_Less) l)) as Hl.
  split_and!; [rewrite take_drop; apply sort_perm|apply deleteLoop_names| |].
  - intros p q Hp Hq. pose proof (sort_sorted (less := byCreationTimestamp_Less) l) as Hs.
    rewrite <- (take_drop (Z.to_nat n) (sort _ l)) in Hs. exact (StronglySorted_app_1_elem_of _ _ _ p q Hs Hp Hq).
  - rewrite length_drop, Hl. unfold n. rewrite int64_id by lia. zcases; lia.
Qed.
End gc.

(** ** Witnesses *)
#[local] Existing Instance canonical_order.

Definition canonical_age : Sorts byCreationTimestamp_Less.
Proof. apply merge_Sorts; apply (age_order CreationTimestamp Name). Defined.
#[local] Existing Instance canonical_age.

Definition example_pod (name : string) (created : Time) : Pod :=
  mkPod "ns" name ∅ "n1" "Succeeded" [] [] created None name "1" ∅ "" [] None.

Definition example_gc (threshold : Z) : GCController :=
  mkGC (foldl (λ st pod, (Store.Add pod st).1) (podStore (New threshold)) [example_pod "a" 3; example_pod "b" 1; example_pod "c" 2])
    threshold.

(** Two of three are left. *)
Lemma gc_spec_witness :
  gc (λ _, true) (example_gc 2) = [("ns", "b", true)] ∧
  ∃ doomed kept, doomed ++ kept ≡ₚ Store.List (podStore (example_gc 2)) ∧ Name <$> doomed = ["b"] ∧ length kept = 2%nat.
Proof.
  assert (gc (λ _, true) (example_gc 2) = [("ns", "b", true)]) as E by (vm_compute; reflexivity). split; [exact E|].
  assert (length (Store.List (podStore (example_gc 2))) = 3%nat) as Hl by (vm_compute; reflexivity).
  destruct (gc_spec (λ _, true) (example_gc 2)) as (doomed & kept & Hp & Hc & _ & Hk);
    [change (- 2 ^ 62 < 2 < 2 ^ 62); lia|rewrite Hl; lia|].
  exists doomed, kept. split; [exact Hp|]. split.
  - rewrite E in Hc. apply (f_equal (fmap snd)) in Hc. rewrite <- !list_fmap_compose in Hc. symmetry. exact Hc.
  - rewrite Hl in Hk. change (threshold (example_gc 2)) with 2 in Hk. clear -Hk. lia.
Defined.
