(* ===== verification/MetricsClient.v ===== *)
(** * The metrics of the autoscaler

    [pkg/controller/podautoscaler/metrics/metrics_client.go]: what the pods of a selector
    consume on average, as reported by Heapster, and, for the processor, as a percentage of
    what they request.  [MetricsClient] is the interface that the autoscaler uses;
    [HeapsterMetricsClient] implements it.  The list of pods and the raw answer of
    Heapster are answers of the API server, and the decoding of JSON is an argument.

    The theorems: how the samples of the pods are averaged, and every outcome of
    [GetCPUUtilization], with the pods that it counts in the divisor although it leaves out what
    they request, and the division by zero that follows. *)

From S2P Require Import Prelude.
From S2P Require Import Strconv.
From S2P Require Import Float.
From S2P Require Import IntStr.
From S2P Require Import Quantity.
From S2P Require Import Labels.
From S2P Require Import Pods.
From S2P Require Import Predicates.
#[local] Open Scope Z_scope.

(** ** Data *)

(** [heapster.MetricPoint]; of a [MetricResult] only the points are read. *)
Record MetricPoint : Type := mkPoint { Timestamp : Time; point_Value : Z; FloatValue : option float64 }.

Record intAndFloat : Type := mkIntAndFloat { intValue : Z; floatValue : float64 }.

(** [time.Time{}], the first instant of year 1. *)
Definition zeroTime : Time := - 62135596800 * 10 ^ 9.
Definition Minute : Z := 60 * 10 ^ 9.
Definition heapsterQueryStart : Z := - 5 * Minute.

(** [strings.Join] *)
Fixpoint Join (a : list string) (sep : string) : string :=
  match a with
  | [] => ""
  | [s] => s
  | s :: a => s +:+ sep +:+ Join a sep
  end.

Class MetricsClient : Type := {
  GetCPUUtilization : string → Set_ → outcome (result string (Z * Time));
  GetCustomMetric : string → string → Set_ → result string (float64 * Time);
}.

(** ** Averages *)

Section sums.
Context `{FloatConv}.

Fixpoint newestPoint (points : list MetricPoint) (newest : option MetricPoint) : option MetricPoint :=
  match points with
  | [] => newest
  | p :: points =>
      newestPoint points
        match newest with
        | Some q => if Timestamp q <? Timestamp p then Some p else newest
        | None => Some p
        end
  end.

(** The inner loop: the sums over the interval, and how many values they have. *)
Fixpoint intervalLoop (duration newest : Z) (points : list MetricPoint) (sum : intAndFloat) (intSumCount floatSumCount : Z) :
    intAndFloat * Z * Z :=
  match points with
  | [] => (sum, intSumCount, floatSumCount)
  | p :: points =>
      if newest <? Timestamp p + duration then
        let ints := int64 (intValue sum + int64 (point_Value p)) in
        match FloatValue p with
        | Some f => intervalLoop duration newest points (mkIntAndFloat ints (fadd (floatValue sum) f)) (intSumCount + 1) (floatSumCount + 1)
        | None => intervalLoop duration newest points (mkIntAndFloat ints (floatValue sum)) (intSumCount + 1) floatSumCount
        end
      else intervalLoop duration newest points sum intSumCount floatSumCount
  end.

(** What a pod adds to the sum. *)
Definition addPodAverage (duration : Z) (points : list MetricPoint) (newest : MetricPoint) (sum : intAndFloat) : intAndFloat :=
  let '(intervalSum, intSumCount, floatSumCount) := intervalLoop duration (Timestamp newest) points (mkIntAndFloat 0 (Fin 0)) 0 0 in
  match FloatValue newest with
  | None =>
      if 0 <? intSumCount then
        let average := Z.quot (intValue intervalSum) intSumCount in
        mkIntAndFloat (int64 (intValue sum + average)) (fadd (floatValue sum) (fint average))
      else sum
  | Some _ =>
      if 0 <? floatSumCount then
        let average := fdiv (floatValue intervalSum) (fint floatSumCount) in
        mkIntAndFloat (int64 (intValue sum + int_of_float (ftrunc average))) (fadd (floatValue sum) average)
      else sum
  end.

Fixpoint samplesLoop (duration : Z) (metrics : list (list MetricPoint)) (sum : intAndFloat) (count : Z) (oldest : option Time) :
    intAndFloat * Z * option Time :=
  match metrics with
  | [] => (sum, count, oldest)
  | points :: metrics =>
      match newestPoint points None with
      | None => samplesLoop duration metrics sum count oldest
      | Some newest =>
          let oldest :=
            match oldest with
            | Some t => if Timestamp newest <? t then Some (Timestamp newest) else oldest
            | None => Some (Timestamp newest)
            end in
          samplesLoop duration metrics (addPodAverage duration points newest sum) (count + 1) oldest
      end
  end.

Definition calculateSumFromTimeSample (metrics : list (list MetricPoint)) (duration : Z) : intAndFloat * Z * Time :=
  let '(sum, count, oldest) := samplesLoop duration metrics (mkIntAndFloat 0 (Fin 0)) 0 None in
  (sum, count, match oldest with Some t => t | None => zeroTime end).

Definition averageFunction (metrics : list (list MetricPoint)) : intAndFloat * Z * Time :=
  let '(sum, count, timestamp) := calculateSumFromTimeSample metrics Minute in
  (if 0 <? count then mkIntAndFloat (Z.quot (intValue sum) count) (fdiv (floatValue sum) (fint count)) else mkIntAndFloat 0 (Fin 0),
   count, timestamp).
End sums.

(** ** The client *)

(** What the API server answers to a list of pods, what Heapster answers to a path and a start time, and the
    decoding of that. *)
Record heapster : Type := mkHeapster {
  list_Pods : string → Selector → result string (list Pod);
  ProxyGet : string → Time → result string string;
  unmarshalMetrics : string → result string (list (list MetricPoint));
}.

Section client.
Context `{FloatConv} `{R : RangeOrder} `{K : KeySort} `{P : Pow10Conv}.

Definition getForPods (now : Time) (h : heapster) (name namespace : string) (podNames : list string) : result string (intAndFloat * Time) :=
  let metricPath :=
    "/api/v1/model/namespaces/" +:+ namespace +:+ "/pod-list/" +:+ Join podNames "," +:+ "/metrics/" +:+ name in
  match ProxyGet h metricPath (now + heapsterQueryStart) with
  | Err err => Err ("failed to get pods metrics: " +:+ err)
  | Ok resultRaw =>
      match unmarshalMetrics h resultRaw with
      | Err err => Err ("failed to unmarshall heapster response: " +:+ err)
      | Ok metrics =>
          let '(sum, count, timestamp) := averageFunction metrics in
          if Z.eqb count (Z.of_nat (length podNames)) then Ok (sum, timestamp)
          else Err ("metrics obtained for " +:+ FormatInt count +:+ "/" +:+ FormatInt (Z.of_nat (length podNames)) +:+ " of pods")
      end
  end.

(** The loop over the containers of a pod. *)
Fixpoint requestLoop (containers : list Container) (requestSum : Z) (missing : bool) : Z * bool :=
  match containers with
  | [] => (requestSum, missing)
  | container :: containers =>
      match ctr_Requests container !! ResourceCPU with
      | Some (mkQuantity (Some d) fmt) => requestLoop containers (int64 (requestSum + MilliValue (mkQuantity (Some d) fmt))) missing
      | _ => requestLoop containers requestSum true
      end
  end.

Fixpoint podsLoop (pods : list Pod) (podNames : list string) (requestSum : Z) (missing : bool) : list string * Z * bool :=
  match pods with
  | [] => (podNames, requestSum, missing)
  | pod :: pods =>
      if bool_decide (Phase pod = PodPending) then podsLoop pods podNames requestSum missing
      else
        let '(requestSum, missing) := requestLoop (Containers pod) requestSum missing in
        podsLoop pods (podNames ++ [Name pod]) requestSum missing
  end.

Definition GetCpuConsumptionAndRequestInMillis (now : Time) (h : heapster) (namespace : string) (selector : Set_) :
    result string (Z * Z * Time) :=
  match list_Pods h namespace (SelectorFromSet selector) with
  | Err err => Err ("failed to get pod list: " +:+ err)
  | Ok items =>
      let '(podNames, requestSum, missing) := podsLoop items [] 0 false in
      if Nat.eqb (length podNames) 0 && Nat.ltb 0 (length items) then Err "no running pods"
      else if missing || Z.eqb requestSum 0 then Err "some pods do not have request for cpu"
      else
        let requestAvg := Z.quot requestSum (Z.of_nat (length items)) in
        match getForPods now h "cpu-usage" namespace podNames with
        | Err err => Err err
        | Ok (consumption, timestamp) => Ok (intValue consumption, requestAvg, timestamp)
        end
  end.

(** An integer division by zero panics. *)
Definition heapster_GetCPUUtilization (now : Time) (h : heapster) (namespace : string) (selector : Set_) :
    outcome (result string (Z * Time)) :=
  match GetCpuConsumptionAndRequestInMillis now h namespace selector with
  | Err err => Returns (Err ("failed to get CPU consumption and request: " +:+ err))
  | Ok (avgConsumption, avgRequest, timestamp) =>
      if Z.eqb avgRequest 0 then Panics
      else Returns (Ok (int64 (Z.quot (int64 (avgConsumption * 100)) avgRequest), timestamp))
  end.

Definition heapster_GetCustomMetric (now : Time) (h : heapster) (customMetricName namespace : string) (selector : Set_) :
    result string (float64 * Time) :=
  match list_Pods h namespace (SelectorFromSet selector) with
  | Err err => Err ("failed to get pod list: " +:+ err)
  | Ok items =>
      let podNames := foldl (λ podNames pod, if bool_decide (Phase pod = PodPending) then podNames else podNames ++ [Name pod]) [] items in
      if Nat.eqb (length podNames) 0 && Nat.ltb 0 (length items) then Err "no running pods"
      else
        match getForPods now h ("custom/" +:+ customMetricName) namespace podNames with
        | Err err => Err err
        | Ok (value, timestamp) => Ok (floatValue value, timestamp)
        end
  end.

Definition HeapsterMetricsClient (now : Time) (h : heapster) : MetricsClient := {|
  GetCPUUtilization := heapster_GetCPUUtilization now h;
  GetCustomMetric := heapster_GetCustomMetric now h;
|}.
End client.

(** ** Facts *)

(** The first of the newest points. *)
Lemma newestPoint_ok points : ∀ acc,
  match newestPoint points acc with
  | Some q => (q ∈ points ∨ acc = Some q) ∧ ∀ p, p ∈ points ∨ acc = Some p → Timestamp p <= Timestamp q
  | None => points = [] ∧ acc = None
  end.
Proof.
  induction points as [|p points IH]; intros acc; cbn [newestPoint].
  { destruct acc as [q|]; [|done]. split; [by right|]. intros p [?%elem_of_nil|[= ->]]; [done|lia]. }
  set (acc' := match acc with Some q => _ | None => _ end).
  assert (∃ a, acc' = Some a ∧ (a = p ∨ acc = Some a) ∧ Timestamp p <= Timestamp a ∧ ∀ q, acc = Some q → Timestamp q <= Timestamp a)
    as (a & Ea & Ha & Hp & Hq).
  { unfold acc'. destruct acc as [q|]; [destruct (Z.ltb_spec (Timestamp q) (Timestamp p))|]; eexists; split_and!; eauto; intros; simplify_eq; lia. }
  specialize (IH acc'). destruct (newestPoint points acc') as [q|]; [|destruct IH; congruence]. destruct IH as [Hin Hmax].
  pose proof (Hmax a (or_intror Ea)). split.
  - destruct Hin as [?|E]; [left; by right|]. rewrite Ea in E. injection E as ->. destruct Ha as [->|?]; [left; left|by right].
  - intros r [[->|Hr]%elem_of_cons|Hr]; [lia|apply Hmax; by left|]. specialize (Hq r Hr). lia.
Qed.

(** The newest samples of a pod, and what they average to. *)
Definition recent (points : list MetricPoint) (newest : MetricPoint) : list MetricPoint :=
  filter (λ p, Timestamp newest < Timestamp p + Minute) points.

Definition total_value (points : list MetricPoint) : Z := sumZ (point_Value <$> points).

Definition podAverage (points : list MetricPoint) : option Z :=
  (λ newest, total_value (recent points newest) / Z.of_nat (length (recent points newest))) <$> newestPoint points None.

(** Points with integers only, which do not overflow. *)
Record integral (points : list MetricPoint) : Prop := {
  int_no_float p : p ∈ points → FloatValue p = None;
  int_values p : p ∈ points → 0 <= point_Value p;
  int_total : total_value points < 2 ^ 53;
}.

Lemma total_value_filter (P : MetricPoint → Prop) `{∀ p, Decision (P p)} points : (∀ p, p ∈ points → 0 <= point_Value p) →
  0 <= total_value (filter P points) <= total_value points.
Proof.
  unfold total_value. induction points as [|p points IH]; intros Hv; [done|]. rewrite filter_cons.
  pose proof (Hv p ltac:(left)). specialize (IH ltac:(intros; apply Hv; by right)). case_decide; rewrite ?fmap_cons, ?sumZ_cons; lia.
Qed.

Section facts.
Context `{FloatConv}.

Lemma intervalLoop_eq newest points : integral points → ∀ z f n m, 0 <= z → z + total_value points < 2 ^ 63 →
  intervalLoop Minute (Timestamp newest) points (mkIntAndFloat z f) n m =
    (mkIntAndFloat (z + total_value (recent points newest)) f, n + Z.of_nat (length (recent points newest)), m).
Proof.
  unfold recent, total_value. induction points as [|p points IH]; intros [Hf Hv Ht] z f n m Hz Hb; cbn [intervalLoop].
  { cbn. by rewrite !Z.add_0_r. }
  unfold total_value in Ht. rewrite fmap_cons, sumZ_cons in Ht, Hb. pose proof (Hv p ltac:(left)).
  assert (∀ q, q ∈ points → 0 <= point_Value q) as Hv' by (intros; apply Hv; by right).
  pose proof (total_value_filter (λ _, True) points Hv') as Hpos. unfold total_value in Hpos.
  assert (integral points) as Hi by (split; [intros; apply Hf; by right|done|unfold total_value; lia]).
  rewrite filter_cons. destruct (Z.ltb_spec (Timestamp newest) (Timestamp p + Minute)).
  - rewrite decide_True by done. rewrite (Hf p ltac:(left)). cbn [intValue floatValue].
    rewrite !int64_id by (rewrite ?int64_id; lia). rewrite IH by (done || lia). rewrite fmap_cons, sumZ_cons. cbn [length].
    f_equal. f_equal; [f_equal|]; lia.
  - rewrite decide_False by lia. by rewrite IH by (done || lia).
Qed.

(** Integers below 2^53 add up exactly as floats. *)
Lemma fint_exact z : 0 <= z < 2 ^ 53 → fint z = Fin (z * unit_one).
Proof. intros Hz. unfold fint. by rewrite float_of_int_exact. Qed.

Lemma fadd_exact a b : 0 <= a → 0 <= b → a + b < 2 ^ 53 → fadd (Fin (a * unit_one)) (Fin (b * unit_one)) = Fin ((a + b) * unit_one).
Proof.
  intros Ha Hb Hab. cbn [fadd]. rewrite <- Z.mul_add_distr_r. pose proof unit_one_pos. unfold round_units.
  rewrite (proj2 (Z.ltb_ge _ _)) by nia. by rewrite round_float_exact by lia.
Qed.

Lemma podAverage_bounds points newest : integral points → newestPoint points None = Some newest →
  let avg := total_value (recent points newest) / Z.of_nat (length (recent points newest)) in
  0 < Z.of_nat (length (recent points newest)) ∧ 0 <= avg <= total_value points.
Proof.
  intros [Hf Hv Ht] Hn avg. pose proof (newestPoint_ok points None) as Hok. rewrite Hn in Hok. destruct Hok as [[Hin|?] _]; [|done].
  assert (newest ∈ recent points newest) as Hr by (apply list_elem_of_filter; split; [unfold Minute; lia|done]).
  assert (0 < Z.of_nat (length (recent points newest))) as Hl by (destruct (recent _ _); [by apply elem_of_nil in Hr|cbn; lia]).
  pose proof (total_value_filter (λ p, Timestamp newest < Timestamp p + Minute) points Hv) as Htot. fold (recent points newest) in Htot.
  split; [done|]. unfold avg. split; [apply Z.div_pos; lia|]. apply Z.div_le_upper_bound; nia.
Qed.

Lemma addPodAverage_eq points newest s : integral points → newestPoint points None = Some newest → 0 <= s →
  let avg := total_value (recent points newest) / Z.of_nat (length (recent points newest)) in s + avg < 2 ^ 53 →
  addPodAverage Minute points newest (mkIntAndFloat s (Fin (s * unit_one))) = mkIntAndFloat (s + avg) (Fin ((s + avg) * unit_one)).
Proof.
  intros Hi Hn Hs avg Hb. destruct (podAverage_bounds points newest Hi Hn) as [Hl Hav]. fold avg in Hav. unfold addPodAverage.
  pose proof (int_total _ Hi). rewrite intervalLoop_eq by (done || lia). cbn [intValue floatValue]. rewrite !Z.add_0_l.
  pose proof (newestPoint_ok points None) as Hok. rewrite Hn in Hok. destruct Hok as [[Hin|?] _]; [|done]. rewrite (int_no_float _ Hi _ Hin).
  rewrite (proj2 (Z.ltb_lt _ _)) by done. destruct (total_value_filter (λ p, Timestamp newest < Timestamp p + Minute) points (int_values _ Hi)) as [? _].
  rewrite Z.quot_div_nonneg by (done || lia). fold avg. rewrite int64_id, fint_exact, fadd_exact by lia. done.
Qed.

(** The averages of the pods that have samples, and when their newest ones are from. *)
Definition averages (metrics : list (list MetricPoint)) : list Z := omap podAverage metrics.
Definition newestTimes (metrics : list (list MetricPoint)) : list Time := omap (λ points, Timestamp <$> newestPoint points None) metrics.

Definition earliest (times : list Time) (acc : option Time) : option Time :=
  foldl (λ o t, Some match o with Some t' => if t <? t' then t else t' | None => t end) acc times.

Lemma total_value_nonneg points : integral points → 0 <= total_value points.
Proof. intros Hi. pose proof (total_value_filter (λ _, True) points (int_values _ Hi)). lia. Qed.

Lemma total_values_nonneg metrics : Forall integral metrics → 0 <= sumZ (total_value <$> metrics).
Proof.
  induction 1 as [|points metrics Hi _ IH]; [done|]. rewrite fmap_cons, sumZ_cons. pose proof (total_value_nonneg points Hi). lia.
Qed.

Lemma samplesLoop_eq metrics : Forall integral metrics → ∀ s n oldest, 0 <= s → s + sumZ (total_value <$> metrics) < 2 ^ 53 →
  samplesLoop Minute metrics (mkIntAndFloat s (Fin (s * unit_one))) n oldest =
    (mkIntAndFloat (s + sumZ (averages metrics)) (Fin ((s + sumZ (averages metrics)) * unit_one)),
     n + Z.of_nat (length (averages metrics)), earliest (newestTimes metrics) oldest) ∧
  0 <= sumZ (averages metrics) <= sumZ (total_value <$> metrics).
Proof.
  induction 1 as [|points metrics Hi Hm IH]; intros s n oldest Hs Hb; cbn [samplesLoop]; [cbn; rewrite !Z.add_0_r; split; [done|lia]|].
  rewrite fmap_cons, sumZ_cons in Hb |- *. unfold averages, newestTimes, podAverage. cbn [omap list_omap].
  pose proof (total_value_nonneg points Hi). pose proof (total_values_nonneg metrics Hm).
  destruct (newestPoint points None) as [newest|] eqn:Hn; cbn [fmap option_fmap option_map].
  - destruct (podAverage_bounds points newest Hi Hn) as [_ Hav]. set (avg := total_value (recent points newest) / _) in *.
    rewrite addPodAverage_eq by (done || (fold avg; lia)). fold avg.
    destruct (IH (s + avg) (n + 1) (Some match oldest with Some t' => if Timestamp newest <? t' then Timestamp newest else t' | None => Timestamp newest end))
      as [IH1 IH2]; [lia..|]. unfold averages, podAverage in *. cbn [length].
    rewrite sumZ_cons. split; [|lia].
    replace (match oldest with Some t => if Timestamp newest <? t then Some (Timestamp newest) else oldest | None => Some (Timestamp newest) end)
      with (Some match oldest with Some t' => if Timestamp newest <? t' then Timestamp newest else t' | None => Timestamp newest end)
      by (destruct oldest as [t|]; [destruct (_ <? _)|]; done).
    rewrite IH1, Nat2Z.inj_succ, <- Z.add_1_l, !Z.add_assoc. done.
  - destruct (IH s n oldest) as [IH1 IH2]; [lia..|]. unfold averages, podAverage, newestTimes in *. rewrite IH1. split; [done|lia].
Qed.

Lemma earliest_ok times : ∀ acc,
  match earliest times acc with
  | Some t => (t ∈ times ∨ acc = Some t) ∧ ∀ u, u ∈ times ∨ acc = Some u → t <= u
  | None => times = [] ∧ acc = None
  end.
Proof.
  unfold earliest. induction times as [|t times IH]; intros acc; cbn [foldl].
  { destruct acc as [u|]; [|done]. split; [by right|]. intros v [?%elem_of_nil|[= ->]]; [done|lia]. }
  set (a := match acc with Some t' => if t <? t' then t else t' | None => t end). specialize (IH (Some a)).
  assert (a <= t ∧ (a = t ∨ acc = Some a) ∧ ∀ u, acc = Some u → a <= u) as (Hat & Ha & Hacc).
  { unfold a. destruct acc as [u|]; [destruct (Z.ltb_spec t u)|]; split_and!; eauto; intros; simplify_eq; lia. }
  destruct (foldl _ _ times) as [v|]; [|by destruct IH]. destruct IH as [Hin Hmin]. pose proof (Hmin a (or_intror eq_refl)). split.
  - destruct Hin as [?|[= <-]]; [left; by right|]. destruct Ha as [->|?]; [left; left|by right].
  - intros u [[->|Hu]%elem_of_cons|Hu]; [lia|apply Hmin; by left|]. specialize (Hacc u Hu). lia.
Qed.

(** ** Requests *)

Section requests.
Context `{P : Pow10Conv}.

(** A container that does not say what it requests. *)
Definition unrequested (container : Container) : bool :=
  match Amount (Cpu (ctr_Requests container)) with Some _ => false | None => true end.

Lemma requestLoop_eq containers : ∀ z missing,
  requestLoop containers (int64 z) missing =
    (int64 (z + sumZ ((λ ctr, MilliValue (Cpu (ctr_Requests ctr))) <$> containers)), missing || existsb unrequested containers).
Proof.
  induction containers as [|c containers IH]; intros z missing; cbn [requestLoop existsb]; [by rewrite Z.add_0_r, orb_false_r|].
  rewrite fmap_cons, sumZ_cons. unfold unrequested at 1, Cpu at 1 3.
  destruct (ctr_Requests c !! ResourceCPU) as [[[d|] fmt]|]; cbn [default from_option id Amount].
  - rewrite int64_add_l, IH. by rewrite Z.add_assoc.
  - rewrite IH, orb_true_r. done.
  - rewrite IH, orb_true_r. done.
Qed.

Definition notPending (pods : list Pod) : list Pod := filter (λ pod, Phase pod ≠ PodPending) pods.

Lemma podsLoop_eq pods : ∀ names z missing,
  podsLoop pods names (int64 z) missing =
    (names ++ (Name <$> notPending pods), int64 (z + totalCPU (notPending pods)),
     missing || existsb (λ pod, existsb unrequested (Containers pod)) (notPending pods)).
Proof.
  unfold notPending. induction pods as [|pod pods IH]; intros names z missing; cbn [podsLoop].
  { cbn. by rewrite app_nil_r, Z.add_0_r, orb_false_r. }
  rewrite filter_cons. case_bool_decide as Hp.
  - rewrite decide_False by tauto. apply IH.
  - rewrite decide_True by done. rewrite requestLoop_eq, IH. unfold totalCPU, requestedCPU, sums.
    rewrite !fmap_cons, sumZ_cons, <- app_assoc, Z.add_assoc. cbn [existsb]. by rewrite orb_assoc.
Qed.
End requests.
End facts.

(** ** Properties *)

(** Of each pod that has samples, the average over the last minute of them counts once, as an
    integer and as a float alike, and the average of these is what the client takes, with
    the time of the oldest of the newest samples. *)
Theorem averageFunction_spec (F : FloatConv) (metrics : list (list MetricPoint)) :
  Forall integral metrics → sumZ (total_value <$> metrics) < 2 ^ 53 →
  let '(sum, _, _) := calculateSumFromTimeSample metrics Minute in
  let '(average, count, timestamp) := averageFunction metrics in
  floatValue sum = fint (intValue sum) ∧
  count = Z.of_nat (length (averages metrics)) ∧
  intValue average = sumZ (averages metrics) / count ∧
  (newestTimes metrics = [] → timestamp = zeroTime) ∧
  (newestTimes metrics ≠ [] → timestamp ∈ newestTimes metrics) ∧
  ∀ t, t ∈ newestTimes metrics → timestamp <= t.
Proof.
  intros Hi Hb. unfold averageFunction, calculateSumFromTimeSample.
  destruct (samplesLoop_eq metrics Hi 0 0 None) as [E Hs]; [lia..|]. rewrite Z.mul_0_l in E. rewrite E. clear E. rewrite !Z.add_0_l.
  cbn [intValue floatValue]. split; [by rewrite fint_exact by lia|].
  pose proof (earliest_ok (newestTimes metrics) None) as Ht. split; [done|]. split.
  - destruct (Z.ltb_spec 0 (Z.of_nat (length (averages metrics)))); cbn [intValue].
    + apply Z.quot_div_nonneg; lia.
    + destruct (averages metrics); [done|cbn in *; lia].
  - destruct (earliest _ _) as [t|]; [|destruct Ht as [-> _]; split_and!; [done..|by intros t ?%elem_of_nil]].
    destruct Ht as [[Hin|?] Hmin]; [|done]. split_and!; [|done|by auto]. intros E. rewrite E in Hin. by apply elem_of_nil in Hin.
Qed.

(** C24: the utilization is what the pods consume on average in per cent of what they request, but
    the requests of the pods that are not pending are divided by the number of all pods:
    pods that are pending make it larger; and when the quotient is zero, the division by it
    panics. *)
Theorem GetCPUUtilization_spec (F : FloatConv) (R : RangeOrder) (K : KeySort) (P : Pow10Conv)
    (now : Time) (h : heapster) (namespace : string) (selector : Set_) (pods : list Pod) :
  list_Pods h namespace (SelectorFromSet selector) = Ok pods →
  Forall moderate (notPending pods) → totalCPU (notPending pods) < 2 ^ 63 →
  let running := notPending pods in
  let request := totalCPU running / Z.of_nat (length pods) in
  match heapster_GetCPUUtilization now h namespace selector with
  | Panics => 0 < totalCPU running < Z.of_nat (length pods)
  | Returns (Err _) =>
      pods = [] ∨ running = [] ∨ (∃ pod ctr, pod ∈ running ∧ ctr ∈ Containers pod ∧ Cpu (ctr_Requests ctr) = mkQuantity None (format (Cpu (ctr_Requests ctr)))) ∨
      totalCPU running = 0 ∨ ∃ err, getForPods now h "cpu-usage" namespace (Name <$> running) = Err err
  | Returns (Ok (utilization, timestamp)) =>
      ∃ consumption, getForPods now h "cpu-usage" namespace (Name <$> running) = Ok (consumption, timestamp) ∧
        (0 <= intValue consumption < 2 ^ 56 →
         utilization = intValue consumption * 100 / request ∧
         intValue consumption * 100 / (totalCPU running / Z.of_nat (length running)) <= utilization)
  end.
Proof.
  intros Hpods Hm Hb running request. unfold heapster_GetCPUUtilization, GetCpuConsumptionAndRequestInMillis. rewrite Hpods.
  pose proof (podsLoop_eq pods [] 0 false) as E. rewrite (int64_id 0) in E by lia. rewrite E. clear E. fold running. rewrite Z.add_0_l. cbn [app orb].
  pose proof (total_nonneg running Hm) as [Hpos _]. rewrite int64_id by (unfold running in *; lia). rewrite length_fmap.
  assert (length running <= length pods)%nat as Hle by apply length_filter.
  destruct (Nat.eqb_spec (length running) 0) as [E|E]; cbn [andb].
  { apply nil_length_inv in E. destruct (Nat.ltb 0 (length pods)) eqn:Hl; [right; by left|].
    destruct pods; [|done]. rewrite E. cbn. by left. }
  destruct (existsb _ running) eqn:Hmiss; cbn [orb].
  { right. right. left. apply existsb_exists in Hmiss as (pod & Hpod%list_elem_of_In & (ctr & Hctr%list_elem_of_In & Hu)%existsb_exists).
    exists pod, ctr. split_and!; [done..|]. unfold unrequested in Hu. destruct (Cpu _) as [[d|] fmt]; [done|]. done. }
  destruct (Z.eqb_spec (totalCPU running) 0) as [Ez|Ez]; [right; right; right; by left|].
  destruct (getForPods _ _ _ _ _) as [[consumption timestamp]|err] eqn:Hg; [|right; right; right; right; by exists err].
  rewrite Z.quot_div_nonneg by lia. fold request. destruct (Z.eqb_spec request 0) as [Er|Er].
  { apply Z.div_small_iff in Er; lia. }
  exists consumption. split; [done|]. intros Hc. assert (0 < request) as Hr by (pose proof (Z.div_pos (totalCPU running) (Z.of_nat (length pods))); lia).
  rewrite (int64_id (_ * 100)), Z.quot_div_nonneg by lia.
  assert (0 <= intValue consumption * 100 / request <= intValue consumption * 100).
  { split; [apply Z.div_pos; lia|]. apply Z.div_le_upper_bound; nia. }
  rewrite int64_id by lia. split; [done|]. apply Z.div_le_compat_l; [lia|]. split; [done|]. apply Z.div_le_compat_l; lia.
Qed.

(** ** Witnesses *)
#[local] Existing Instance canonical_order.
#[local] Existing Instance canonical_sort.
#[local] Existing Instance small_powers.
#[local] Existing Instance whole_floats.

(** Two pods, the first with a sample that is out of date. *)
Definition example_points : list (list MetricPoint) :=
  [[mkPoint 0 900 None; mkPoint (70 * 10 ^ 9) 40 None; mkPoint (90 * 10 ^ 9) 60 None]; []; [mkPoint (80 * 10 ^ 9) 30 None]].

Lemma example_integral : Forall integral example_points.
Proof.
  unfold example_points. rewrite !Forall_cons, Forall_nil.
  split_and!; [..|done]; (split; [intros p|intros p|vm_compute; reflexivity]); rewrite ?elem_of_cons, elem_of_nil; intros Hp;
    repeat (destruct Hp as [->|Hp]; [done|]); by destruct Hp.
Qed.

Lemma averageFunction_spec_witness :
  Forall integral example_points ∧
  let '(average, count, timestamp) := averageFunction example_points in
  count = 2 ∧ intValue average = 40 ∧ timestamp ∈ newestTimes example_points.
Proof.
  split; [apply example_integral|].
  pose proof (averageFunction_spec whole_floats example_points example_integral ltac:(vm_compute; reflexivity)) as Hs.
  assert (averages example_points = [50; 30]) as Ea by (vm_compute; reflexivity).
  assert (newestTimes example_points = [90 * 10 ^ 9; 80 * 10 ^ 9]) as Et by (vm_compute; reflexivity).
  destruct (calculateSumFromTimeSample _ _) as [[sum ?] ?], (averageFunction example_points) as [[average count] timestamp].
  destruct Hs as (_ & -> & -> & _ & Hin & _). rewrite Ea, Et in *. split_and!; [done|done|]. by apply Hin.
Defined.

Definition example_pod (name phase : string) (millis : Z) : Pod :=
  mkPod "ns" name ∅ "n1" phase [] [] 0 None name "1" ∅ "" [mkContainer [] {["cpu" := NewMilliQuantity millis DecimalSI]}] None.

(** A running pod that consumes 50 of the 100 that it requests, and one that is pending. *)
Definition example_heapster (millis : Z) : heapster :=
  mkHeapster (λ _ _, Ok [example_pod "a" PodRunning millis; example_pod "b" PodPending millis])
    (λ _ _, Ok "{}") (λ _, Ok [[mkPoint 5 50 None]]).

(** The utilization of 50 per cent is reported as one of 100. *)
Lemma GetCPUUtilization_spec_witness :
  heapster_GetCPUUtilization 0 (example_heapster 100) "ns" ∅ = Returns (Ok (100, 5)) ∧
  50 = 50 * 100 / (100 / 1) ∧ 50 * 100 / (100 / 1) <= 100.
Proof.
  assert (notPending [example_pod "a" PodRunning 100; example_pod "b" PodPending 100] = [example_pod "a" PodRunning 100]) as En by done.
  assert (totalCPU [example_pod "a" PodRunning 100] = 100) as Ec by (vm_compute; reflexivity).
  assert (Forall moderate [example_pod "a" PodRunning 100]) as Hm by (repeat constructor; vm_compute; congruence).
  pose proof (GetCPUUtilization_spec whole_floats canonical_order canonical_sort small_powers 0 (example_heapster 100) "ns" ∅ _ eq_refl) as Hs.
  rewrite En, Ec in Hs. specialize (Hs Hm ltac:(lia)). cbn zeta in Hs.
  assert (heapster_GetCPUUtilization 0 (example_heapster 100) "ns" ∅ = Returns (Ok (100, 5))) as E by (vm_compute; reflexivity).
  rewrite E in Hs. split; [exact E|]. split; [done|]. destruct Hs as (c & Hg & Hu).
  assert (getForPods 0 (example_heapster 100) "cpu-usage" "ns" (Name <$> [example_pod "a" PodRunning 100]) =
    Ok (mkIntAndFloat 50 (fint 50), 5)) as Eg by (vm_compute; reflexivity).
  rewrite Eg in Hg. injection Hg as <-. cbn [intValue length] in Hu. destruct (Hu ltac:(lia)) as [_ Hle]. exact Hle.
Defined.

(** A thousandth of a processor, divided by two pods. *)
Example utilization_panics : heapster_GetCPUUtilization 0 (example_heapster 1) "ns" ∅ = Panics.
Proof. vm_compute. reflexivity. Qed.
