(* ===== verification/Autoscaler.v ===== *)
(** * The horizontal pod autoscaler

    [pkg/controller/podautoscaler/horizontal.go]: for each event about an autoscaler, and at
    each resync, [reconcileAutoscaler] reads the scale of its target, computes from the
    metrics how many replicas there should be, updates the scale, unless the last change is
    too recent, and the status of the autoscaler.  The metrics come from the interface
    [MetricsClient], which answers a question the same way throughout one reconciliation;
    the codec of the annotations, JSON, is an argument, and so are the clock and the answers
    of the API server.  The status is written to the object of the local store, which is
    returned, with the calls made.

    The theorems: a reconciliation keeps within the bounds and the windows; how the
    arithmetic in float64 relates to the exact one, with the replica that it may
    add and the tolerance that it does not treat alike in both directions. *)

From S2P Require Import Prelude.
From S2P Require Import Strconv.
From S2P Require Import Float.
From S2P Require Import IntStr.
From S2P Require Import Quantity.
From S2P Require Import Labels.
From S2P Require Import Pods.
From S2P Require Import MetricsClient.
#[local] Open Scope Z_scope.

(** ** Data *)

Definition tolerance : float64 := fconst 1 10.
Definition defaultTargetCPUUtilizationPercentage : Z := 80.
Definition HpaCustomMetricsTargetAnnotationName : string := "alpha/target.custom-metrics.podautoscaler.kubernetes.io".
Definition HpaCustomMetricsStatusAnnotationName : string := "alpha/status.custom-metrics.podautoscaler.kubernetes.io".
Definition downscaleForbiddenWindow : Z := 5 * Minute.
Definition upscaleForbiddenWindow : Z := 3 * Minute.

Record Scale : Type := mkScale { scale_Spec_Replicas : Z; scale_Status_Replicas : Z; scale_Selector : Set_ }.

Record HorizontalPodAutoscalerStatus : Type := mkStatus {
  ObservedGeneration : option Z;
  LastScaleTime : option Time;
  CurrentReplicas : Z;
  DesiredReplicas : Z;
  CurrentCPUUtilizationPercentage : option Z;
}.

(** [CPUUtilization] holds the target percentage. *)
Record HorizontalPodAutoscaler : Type := mkHPA {
  hpa_Namespace : string;
  hpa_Name : string;
  hpa_Annotations : gmap string string;
  ScaleRef_Kind : string;
  ScaleRef_Name : string;
  MinReplicas : option Z;
  MaxReplicas : Z;
  CPUUtilization : option Z;
  hpa_Status : HorizontalPodAutoscalerStatus;
}.

Record CustomMetricTarget : Type := mkTarget { target_Name : string; TargetValue : Quantity }.
Record CustomMetricCurrentStatus : Type := mkCurrent { current_Name : string; CurrentValue : Quantity }.

(** [json.Unmarshal] and [json.Marshal] of the lists in the annotations. *)
Class AnnotationCodec : Type := {
  unmarshalTargets : string → result string (list CustomMetricTarget);
  marshalStatus : list CustomMetricCurrentStatus → result string string;
}.

(** The calls to the API server, with their outcome. *)
Inductive apiCall : Type :=
| UpdateScale (kind name : string) (replicas : Z) (ok : bool)
| UpdateStatus (hpa : HorizontalPodAutoscaler) (ok : bool).

(** What the API server answers. *)
Record apiAnswers : Type := mkAnswers {
  getScale : result string Scale;
  updateScale : option string;
  updateStatusErr : option string;
}.

(** ** Printing with three decimals *)

Definition pad3 (s : string) : string := String.substring 0 (3 - String.length s) "000" +:+ s.

(** [fmt.Sprintf] with the verb [%.3f] *)
Definition Sprintf3 (f : float64) : string :=
  match f with
  | NaN => "NaN"
  | Inf negative => if negative then "-Inf" else "+Inf"
  | Fin x =>
      let thousandths := round_even (Z.abs x * 1000) unit_one in
      (if x <? 0 then "-" else "") +:+ FormatInt (thousandths / 1000) +:+ "." +:+ pad3 (FormatInt (thousandths mod 1000))
  end.

Section controller.
Context `{FloatConv} `{Pow10Conv} `{MetricsClient} `{AnnotationCodec}.
Implicit Types (hpa : HorizontalPodAutoscaler) (scale : Scale).

(** ** Replicas *)

(** What both computations do with the ratio of usage and target. *)
Definition replicasFor (usageRatio : float64) (currentReplicas : Z) : Z :=
  if flt tolerance (fabs (fsub (fint 1) usageRatio)) then int_of_float (fceil (fmul usageRatio (fint currentReplicas)))
  else currentReplicas.

Definition computeReplicasForCPUUtilization hpa scale : outcome (result string (Z * option Z * Time)) :=
  let targetUtilization := default defaultTargetCPUUtilizationPercentage (CPUUtilization hpa) in
  let currentReplicas := scale_Status_Replicas scale in
  match GetCPUUtilization (hpa_Namespace hpa) (scale_Selector scale) with
  | Panics => Panics
  | Returns (Err err) => Returns (Err ("failed to get CPU utilization: " +:+ err))
  | Returns (Ok (currentUtilization, timestamp)) =>
      let usageRatio := fdiv (fint currentUtilization) (fint targetUtilization) in
      Returns (Ok (replicasFor usageRatio currentReplicas, Some currentUtilization, timestamp))
  end.

(** The loop over the targets, with the results so far. *)
Fixpoint customMetricsLoop hpa scale (targets : list CustomMetricTarget) (replicas : Z) (metric : string) (timestamp : Time)
    (items : list CustomMetricCurrentStatus) : outcome (result string (Z * string * Time * list CustomMetricCurrentStatus)) :=
  match targets with
  | [] => Returns (Ok (replicas, metric, timestamp, items))
  | target :: targets =>
      match GetCustomMetric (target_Name target) (hpa_Namespace hpa) (scale_Selector scale) with
      | Err err => Returns (Err ("failed to get custom metric value: " +:+ err))
      | Ok (value, currentTimestamp) =>
          let floatTarget := fdiv (fint (MilliValue (TargetValue target))) (fint 1000) in
          let usageRatio := fdiv value floatTarget in
          let replicaCountProposal := replicasFor usageRatio (scale_Status_Replicas scale) in
          let '(timestamp, replicas, metric) :=
            if replicas <? replicaCountProposal then (currentTimestamp, replicaCountProposal, "Custom metric " +:+ target_Name target)
            else (timestamp, replicas, metric) in
          match ParseQuantity (Sprintf3 value) with
          | Panics => Panics
          | Returns (Err _) => Returns (Err "failed to set custom metric value")
          | Returns (Ok quantity) =>
              customMetricsLoop hpa scale targets replicas metric timestamp (items ++ [mkCurrent (target_Name target) quantity])
          end
      end
  end.

(** The results: replicas, metric, status and timestamp. *)
Definition computeReplicasForCustomMetrics hpa scale (cmAnnotation : string) : outcome (result string (Z * string * string * Time)) :=
  if bool_decide (cmAnnotation = "") then Returns (Ok (0, "", "", zeroTime))
  else
    match unmarshalTargets cmAnnotation with
    | Err err => Returns (Err ("failed to parse custom metrics annotation: " +:+ err))
    | Ok [] => Returns (Err "no custom metrics in annotation")
    | Ok targetList =>
        match customMetricsLoop hpa scale targetList 0 "" zeroTime [] with
        | Panics => Panics
        | Returns (Err err) => Returns (Err err)
        | Returns (Ok (replicas, metric, timestamp, statusList)) =>
            match marshalStatus statusList with
            | Err err => Returns (Err ("failed to serialize custom metric status: " +:+ err))
            | Ok byteStatusList => Returns (Ok (replicas, metric, byteStatusList, timestamp))
            end
        end
    end.

(** ** Reconciling *)

Definition shouldScale hpa (currentReplicas desiredReplicas : Z) (timestamp : Time) : bool :=
  if negb (Z.eqb desiredReplicas currentReplicas) then
    if (desiredReplicas <? currentReplicas) &&
       match LastScaleTime (hpa_Status hpa) with None => true | Some t => t + downscaleForbiddenWindow <? timestamp end
    then true
    else (currentReplicas <? desiredReplicas) &&
      match LastScaleTime (hpa_Status hpa) with None => true | Some t => t + upscaleForbiddenWindow <? timestamp end
  else false.

Definition reference hpa : string := ScaleRef_Kind hpa +:+ "/" +:+ hpa_Namespace hpa +:+ "/" +:+ ScaleRef_Name hpa.

(** What a reconciliation decides. *)
Record plan : Type := mkPlan { plan_Replicas : Z; plan_Timestamp : Time; plan_CPU : option Z; plan_Status : string }.

(** The larger of what the two metrics ask for. *)
Definition pickReplicas (now : Time) (cpuDesiredReplicas cmDesiredReplicas : Z) (cpuTimestamp cmTimestamp : Time) : Z * Time :=
  let desiredReplicas := 0 in
  let timestamp := now in
  let '(desiredReplicas, timestamp) :=
    if desiredReplicas <? cpuDesiredReplicas then (cpuDesiredReplicas, cpuTimestamp) else (desiredReplicas, timestamp) in
  if desiredReplicas <? cmDesiredReplicas then (cmDesiredReplicas, cmTimestamp) else (desiredReplicas, timestamp).

Definition boundReplicas hpa (desiredReplicas : Z) : Z :=
  let desiredReplicas :=
    match MinReplicas hpa with Some m => if desiredReplicas <? m then m else desiredReplicas | None => desiredReplicas end in
  let desiredReplicas := if Z.eqb desiredReplicas 0 then 1 else desiredReplicas in
  if MaxReplicas hpa <? desiredReplicas then MaxReplicas hpa else desiredReplicas.

(** The part that computes [desiredReplicas]; an error is that of the metrics. *)
Definition desire (now : Time) hpa scale : outcome (result string plan) :=
  let currentReplicas := scale_Status_Replicas scale in
  if MaxReplicas hpa <? currentReplicas then Returns (Ok (mkPlan (MaxReplicas hpa) now None ""))
  else if match MinReplicas hpa with Some m => currentReplicas <? m | None => false end then
    Returns (Ok (mkPlan (default 0 (MinReplicas hpa)) now None ""))
  else if Z.eqb currentReplicas 0 then Returns (Ok (mkPlan 1 now None ""))
  else
    let cmAnnotation := hpa_Annotations hpa !! HpaCustomMetricsTargetAnnotationName in
    let cmAnnotationFound := bool_decide (is_Some cmAnnotation) in
    cpu ← (if bool_decide (is_Some (CPUUtilization hpa)) || negb cmAnnotationFound then computeReplicasForCPUUtilization hpa scale
           else Returns (Ok (0, None, zeroTime)));
    match cpu with
    | Err err => Returns (Err ("failed to compute desired number of replicas based on CPU utilization for " +:+ reference hpa +:+ ": " +:+ err))
    | Ok (cpuDesiredReplicas, cpuCurrentUtilization, cpuTimestamp) =>
        cm ← (match cmAnnotation with
              | Some annotation => computeReplicasForCustomMetrics hpa scale annotation
              | None => Returns (Ok (0, "", "", zeroTime))
              end);
        match cm with
        | Err err => Returns (Err ("failed to compute desired number of replicas based on Custom Metrics for " +:+ reference hpa +:+ ": " +:+ err))
        | Ok (cmDesiredReplicas, _, cmStatus, cmTimestamp) =>
            let '(desiredReplicas, timestamp) := pickReplicas now cpuDesiredReplicas cmDesiredReplicas cpuTimestamp cmTimestamp in
            Returns (Ok (mkPlan (boundReplicas hpa desiredReplicas) timestamp cpuCurrentUtilization cmStatus))
        end
    end.

(** The map of annotations is not nil when there is a status to write: it has the targets, or a status. *)
Definition updateStatus (now : Time) (answers : apiAnswers) hpa (currentReplicas desiredReplicas : Z) (cpuCurrentUtilization : option Z)
    (cmStatus : string) (rescale : bool) : HorizontalPodAutoscaler * list apiCall * option string :=
  let lastScaleTime := if rescale then Some now else LastScaleTime (hpa_Status hpa) in
  let annotations :=
    if bool_decide (cmStatus ≠ "") then <[HpaCustomMetricsStatusAnnotationName := cmStatus]> (hpa_Annotations hpa)
    else hpa_Annotations hpa in
  let hpa := mkHPA (hpa_Namespace hpa) (hpa_Name hpa) annotations (ScaleRef_Kind hpa) (ScaleRef_Name hpa) (MinReplicas hpa)
    (MaxReplicas hpa) (CPUUtilization hpa) (mkStatus None lastScaleTime currentReplicas desiredReplicas cpuCurrentUtilization) in
  match updateStatusErr answers with
  | Some err => (hpa, [UpdateStatus hpa false], Some ("failed to update status for " +:+ hpa_Name hpa +:+ ": " +:+ err))
  | None => (hpa, [UpdateStatus hpa true], None)
  end.

(** Its error is logged. *)
Definition updateCurrentReplicasInStatus (now : Time) (answers : apiAnswers) hpa (currentReplicas : Z) :
    HorizontalPodAutoscaler * list apiCall :=
  (updateStatus now answers hpa currentReplicas (DesiredReplicas (hpa_Status hpa)) (CurrentCPUUtilizationPercentage (hpa_Status hpa))
    (default "" (hpa_Annotations hpa !! HpaCustomMetricsStatusAnnotationName)) false).1.

(** The clock is read when the scale has been read, and again for the status. *)
Definition reconcileAutoscaler (now later : Time) (answers : apiAnswers) hpa :
    outcome (HorizontalPodAutoscaler * list apiCall * option string) :=
  match getScale answers with
  | Err err => Returns (hpa, [], Some ("failed to query scale subresource for " +:+ reference hpa +:+ ": " +:+ err))
  | Ok scale =>
      let currentReplicas := scale_Status_Replicas scale in
      d ← desire now hpa scale;
      match d with
      | Err err => Returns (updateCurrentReplicasInStatus later answers hpa currentReplicas, Some err)
      | Ok (mkPlan desiredReplicas timestamp cpuCurrentUtilization cmStatus) =>
          if shouldScale hpa currentReplicas desiredReplicas timestamp then
            match updateScale answers with
            | Some err =>
                Returns (hpa, [UpdateScale (ScaleRef_Kind hpa) (ScaleRef_Name hpa) desiredReplicas false],
                  Some ("failed to rescale " +:+ reference hpa +:+ ": " +:+ err))
            | None =>
                let '(hpa', calls, err) := updateStatus later answers hpa currentReplicas desiredReplicas cpuCurrentUtilization cmStatus true in
                Returns (hpa', UpdateScale (ScaleRef_Kind hpa) (ScaleRef_Name hpa) desiredReplicas true :: calls, err)
            end
          else Returns (updateStatus later answers hpa currentReplicas currentReplicas cpuCurrentUtilization cmStatus false)
      end
  end.
End controller.

Example Sprintf3_rounds : Sprintf3 (fconst 5 1000) = "0.005".
Proof. vm_compute. reflexivity. Qed.

(** ** Facts *)

(** The least integer that is not below [n / d]. *)
Definition ceiling (n d : Z) : Z := - (- n / d).

Lemma ceiling_ok n d : 0 < d → (ceiling n d - 1) * d < n <= ceiling n d * d.
Proof.
  intros Hd. unfold ceiling. pose proof (Z.div_mod (- n) d ltac:(lia)). pose proof (Z.mod_pos_bound (- n) d Hd). nia.
Qed.

Lemma fdiv_near u t : 0 <= u < 2 ^ 20 → 0 < t < 2 ^ 10 →
  ∃ x, fdiv (fint u) (fint t) = Fin x ∧ Z.abs x <= 2 ^ 20 * unit_one ∧ 2 ^ 33 * Z.abs (x * t - u * unit_one) <= t * unit_one.
Proof.
  intros Hu Ht. pose proof unit_one_pos as HU. rewrite !fint_exact by lia. unfold fdiv. rewrite (proj2 (Z.eqb_neq _ _)) by nia.
  rewrite Z.sgn_pos, Z.abs_eq, Z.mul_1_r by nia. unfold float_div.
  destruct (round_units_near (u * unit_one) (t * unit_one) (2 ^ 20) 33) as (x & -> & Hx); [nia|rewrite Z.abs_eq by nia; nia|lia|lia|done|].
  exists x. split; [done|]. set (U := unit_one) in *. clearbody U.
  replace (x * (t * U) - u * U * U) with ((x * t - u * U) * U) in Hx by ring.
  rewrite Z.abs_mul, (Z.abs_eq U) in Hx by lia.
  assert (2 ^ 33 * Z.abs (x * t - u * U) <= t * U) as Hx' by (set (a := Z.abs _) in *; clearbody a; clear -Hx HU Ht; nia).
  split; [|done]. assert (Z.abs (x * t) <= t * (2 ^ 20 * U)) as Hxt.
  { assert (u * U <= (2 ^ 20 - 1) * U) by (clear -Hu HU; nia). assert (2 ^ 20 * U <= t * (2 ^ 20 * U)) by (clear -Ht HU; nia).
    assert (u * U + U <= t * (u * U + U)) by (clear -Ht Hu HU; nia). assert (0 <= u * U) by (clear -Hu HU; nia).
    assert (t * (u * U + U) <= t * (2 ^ 20 * U)) by (clear -Ht Hu HU; nia). clear Hx. lia. }
  rewrite Z.abs_mul, (Z.abs_eq t) in Hxt by lia. clear -Hxt Ht. nia.
Qed.

Lemma fsub_near x : Z.abs x <= 2 ^ 20 * unit_one →
  ∃ y, fsub (fint 1) (Fin x) = Fin y ∧ 2 ^ 32 * Z.abs (y - (unit_one - x)) <= unit_one.
Proof.
  intros Hx. pose proof unit_one_pos as HU. rewrite fint_exact by lia. unfold fsub. cbn [fneg fadd]. rewrite Z.mul_1_l.
  destruct (round_units_near (unit_one + - x) unit_one (2 ^ 21) 32) as (y & -> & Hy); [lia..|lia|lia|done|].
  exists y. split; [done|]. replace (y * unit_one - (unit_one + - x) * unit_one) with ((y - (unit_one - x)) * unit_one) in Hy by ring.
  rewrite Z.abs_mul, (Z.abs_eq unit_one) in Hy by lia. set (a := Z.abs _) in *. nia.
Qed.

Lemma fmul_near x r : Z.abs x <= 2 ^ 20 * unit_one → 0 <= r < 2 ^ 20 →
  ∃ z, fmul (Fin x) (fint r) = Fin z ∧ 2 ^ 12 * Z.abs (z - x * r) <= unit_one.
Proof.
  intros Hx Hr. pose proof unit_one_pos as HU. rewrite fint_exact by lia. cbn [fmul]. unfold float_mul.
  destruct (round_units_near (x * (r * unit_one)) (unit_one * unit_one) (2 ^ 41) 12) as (z & -> & Hz); [nia| |lia|lia|done|].
  - rewrite !Z.abs_mul, (Z.abs_eq r), (Z.abs_eq unit_one) by lia. set (a := Z.abs x) in *.
    transitivity (2 ^ 20 * unit_one * (2 ^ 20 * unit_one)); [apply Z.mul_le_mono_nonneg; nia|lia].
  - exists z. split; [done|].
    replace (z * (unit_one * unit_one) - x * (r * unit_one) * unit_one) with ((z - x * r) * (unit_one * unit_one)) in Hz by ring.
    rewrite Z.abs_mul, (Z.abs_eq (unit_one * unit_one)) in Hz by nia. set (a := Z.abs _) in *.
    apply (Z.mul_le_mono_pos_r _ _ (unit_one * unit_one)); nia.
Qed.

Lemma tolerance_near : ∃ e, tolerance = Fin e ∧ 2 ^ 50 * Z.abs (10 * e - unit_one) <= unit_one.
Proof. eexists. split; [vm_compute; reflexivity|vm_compute; congruence]. Qed.

(** Away from the tolerance the comparison is the exact one. *)
Lemma tolerance_ok u t : 0 <= u < 2 ^ 20 → 0 < t < 2 ^ 10 →
  let beyond := flt tolerance (fabs (fsub (fint 1) (fdiv (fint u) (fint t)))) in
  (10 * Z.abs (u - t) < t → beyond = false) ∧ (t < 10 * Z.abs (u - t) → beyond = true).
Proof.
  intros Hu Ht. pose proof unit_one_pos as HU. destruct (fdiv_near u t Hu Ht) as (x & -> & Hxb & Hx).
  destruct (fsub_near x Hxb) as (y & -> & Hy). destruct tolerance_near as (e & -> & He). cbn [fabs flt].
  set (U := unit_one) in *. clearbody U. assert (2 ^ 32 * Z.abs (t * y - t * U + x * t) <= t * U) as Hy'.
  { replace (t * y - t * U + x * t) with (t * (y - (U - x))) by ring. rewrite Z.abs_mul, (Z.abs_eq t) by lia. clear -Hy Ht. nia. }
  assert (2 ^ 50 * Z.abs (10 * (t * e) - t * U) <= t * U) as He'.
  { replace (10 * (t * e) - t * U) with (t * (10 * e - U)) by ring. rewrite Z.abs_mul, (Z.abs_eq t) by lia. clear -He Ht. nia. }
  assert (t * Z.abs y = Z.abs (t * y)) as Hab by (rewrite Z.abs_mul; lia).
  assert (t * U <= 2 ^ 10 * U) as HtU by (clear -Ht HU; nia). cbn zeta. split; intros Hd.
  - apply Z.ltb_ge. assert (10 * (Z.abs (u - t) * U) <= t * U - U) as Hd' by (clear -Hd HU; nia).
    assert (Z.abs (u - t) * U = Z.abs (u * U - t * U)) as Hut by (rewrite <- Z.mul_sub_distr_r, Z.abs_mul; lia).
    apply (Z.mul_le_mono_pos_l _ _ t); [lia|]. rewrite Hab. rewrite Hut in Hd'. clear Hd Hab Hut Hy He Hxb. lia.
  - apply Z.ltb_lt. assert (t * U + U <= 10 * (Z.abs (u - t) * U)) as Hd' by (clear -Hd HU; nia).
    assert (Z.abs (u - t) * U = Z.abs (u * U - t * U)) as Hut by (rewrite <- Z.mul_sub_distr_r, Z.abs_mul; lia).
    apply (Z.mul_lt_mono_pos_l t); [lia|]. rewrite Hab. rewrite Hut in Hd'. clear Hd Hab Hut Hy He Hxb. lia.
Qed.

Lemma replicas_ceil u t r : 0 <= u < 2 ^ 20 → 0 < t < 2 ^ 10 → 0 <= r < 2 ^ 20 →
  ∃ c, fceil (fmul (fdiv (fint u) (fint t)) (fint r)) = Some c ∧
    ceiling (u * r) t <= c <= ceiling (u * r) t + 1 ∧ ((u * r) mod t ≠ 0 → c = ceiling (u * r) t).
Proof.
  intros Hu Ht Hr. pose proof unit_one_pos as HU. destruct (fdiv_near u t Hu Ht) as (x & -> & Hxb & Hx).
  destruct (fmul_near x r Hxb Hr) as (z & -> & Hz). cbn [fceil]. exists (ceiling z unit_one). split; [done|].
  set (U := unit_one) in *. clearbody U. pose proof (ceiling_ok z U HU) as Hc. set (c := ceiling z U) in *. clearbody c.
  pose proof (ceiling_ok (u * r) t ltac:(lia)) as HC. set (C := ceiling (u * r) t) in *. clearbody C. set (N := u * r) in *.
  assert (2 ^ 12 * Z.abs (t * z - t * x * r) <= t * U) as Hz'.
  { replace (t * z - t * x * r) with (t * (z - x * r)) by ring. rewrite Z.abs_mul, (Z.abs_eq t) by lia. clear -Hz Ht. nia. }
  assert (2 ^ 33 * Z.abs (t * x * r - N * U) <= 2 ^ 20 * (t * U)) as Hx'.
  { unfold N. replace (t * x * r - u * r * U) with (r * (x * t - u * U)) by ring. rewrite Z.abs_mul, (Z.abs_eq r) by lia.
    set (a := Z.abs _) in *. assert (0 <= a) by apply Z.abs_nonneg. clearbody a. clear -Hx Hr Ht HU H. nia. }
  assert (t * U < 2 ^ 10 * U) as HtU by (clear -Ht HU; nia). clearbody N. assert (Z.abs (t * z - N * U) < U) as Hnear by (clear Hxb Hx Hz; lia).
  clear Hx Hz Hz' Hx' HtU Hxb.
  assert (N <= t * c) as Hlow.
  { assert (t * z <= t * (c * U)) by (clear -Hc Ht; nia). assert (N * U < (t * c + 1) * U) by lia. clear -H0 HU. nia. }
  assert (t * (c - 1) <= N) as Hup.
  { assert (t * ((c - 1) * U) < t * z) by (clear -Hc Ht; nia). assert (t * (c - 1) * U < (N + 1) * U) by lia. clear -H0 HU. nia. }
  clear Hnear Hc. split; [clear -HC Hlow Hup Ht; nia|]. intros Hmod.
  assert (t * (c - 1) ≠ N) by (intros E; rewrite <- E, Z.mul_comm, Z.mod_mul in Hmod; lia). clear -HC Hlow Hup Ht H. nia.
Qed.

(** The bounds that the API server accepts. *)
Definition lower (hpa : HorizontalPodAutoscaler) : Z := default 1 (MinReplicas hpa).
Record valid_spec (hpa : HorizontalPodAutoscaler) : Prop := {
  vs_lower : 1 <= lower hpa;
  vs_upper : lower hpa <= MaxReplicas hpa;
}.

(** The window after a change of size in which it is not changed that way. *)
Definition window (from to : Z) : Z := if to <? from then downscaleForbiddenWindow else upscaleForbiddenWindow.

Lemma shouldScale_true hpa from to timestamp :
  shouldScale hpa from to timestamp = true ↔
    to ≠ from ∧ ∀ t, LastScaleTime (hpa_Status hpa) = Some t → t + window from to < timestamp.
Proof.
  unfold shouldScale, window. destruct (Z.eqb_spec to from) as [->|Hne]; cbn [negb]; [naive_solver|].
  destruct (Z.ltb_spec to from), (Z.ltb_spec from to); try lia; cbn [andb]; destruct (LastScaleTime (hpa_Status hpa)) as [t|];
    cbn [andb]; rewrite ?orb_false_r; zcases; naive_solver lia.
Qed.

Section facts.
Context `{F : FloatConv} `{P : Pow10Conv} `{M : MetricsClient} `{C : AnnotationCodec}.

Lemma pickReplicas_nonneg now cpu cm t t' : 0 <= (pickReplicas now cpu cm t t').1.
Proof. unfold pickReplicas. zcases; cbn; zcases; cbn; lia. Qed.

Lemma boundReplicas_ok hpa n : valid_spec hpa → 0 <= n → lower hpa <= boundReplicas hpa n <= MaxReplicas hpa.
Proof.
  intros [Hlo Hup] Hn. unfold boundReplicas, lower in *. destruct (MinReplicas hpa) as [m|]; cbn [default from_option id] in *; zcases; lia.
Qed.

Lemma desire_bounds now hpa scale p : valid_spec hpa → desire now hpa scale = Returns (Ok p) →
  lower hpa <= plan_Replicas p <= MaxReplicas hpa.
Proof.
  intros Hv. pose proof Hv as [Hlo Hup]. unfold desire. destruct (Z.ltb_spec (MaxReplicas hpa) (scale_Status_Replicas scale)).
  { intros [= <-]. cbn. lia. }
  destruct (match MinReplicas hpa with Some m => _ | None => _ end) eqn:Emin.
  { intros [= <-]. cbn [plan_Replicas]. unfold lower in *. destruct (MinReplicas hpa); [|done]. cbn in *. lia. }
  destruct (Z.eqb_spec (scale_Status_Replicas scale) 0).
  { intros [= <-]. cbn [plan_Replicas]. unfold lower in *. destruct (MinReplicas hpa); cbn in *; [apply Z.ltb_ge in Emin|]; lia. }
  match goal with |- (?o ≫= _) = _ → _ => destruct o as [[[[cpu ?] t]|?]|] end; cbn [mbind outcome_bind]; try done.
  match goal with |- (?o ≫= _) = _ → _ => destruct o as [[[[[cm ?] ?] t']|?]|] end; cbn [mbind outcome_bind]; try done.
  pose proof (pickReplicas_nonneg now cpu cm t t'). destruct (pickReplicas now cpu cm t t') as [n' timestamp]. intros [= <-].
  by apply boundReplicas_ok.
Qed.
End facts.

(** ** Reconciling in turn *)

(** A change of size that the API server accepted. *)
Record rescale : Type := mkRescale { decided : Time; made : Time; from : Z; to : Z }.

(** The change that a reconciliation makes. *)
Definition rescaled `{FloatConv} `{Pow10Conv} `{MetricsClient} `{AnnotationCodec} (now later : Time) (answers : apiAnswers)
    (hpa : HorizontalPodAutoscaler) : list rescale :=
  match getScale answers with
  | Err _ => []
  | Ok scale =>
      match desire now hpa scale with
      | Returns (Ok p) =>
          if shouldScale hpa (scale_Status_Replicas scale) (plan_Replicas p) (plan_Timestamp p) then
            match updateScale answers with
            | None => [mkRescale (plan_Timestamp p) later (scale_Status_Replicas scale) (plan_Replicas p)]
            | Some _ => []
            end
          else []
      | _ => []
      end
  end.

(** Reconciliations with any metrics and any answers, and changes of the autoscaler that leave its status alone,
    from a start on. *)
Inductive runs `{FloatConv} `{Pow10Conv} `{AnnotationCodec} (start : HorizontalPodAutoscaler) :
    HorizontalPodAutoscaler → list rescale → Prop :=
| runs_start : runs start start []
| runs_reconcile (M : MetricsClient) now later answers hpa hpa' calls err trace :
    runs start hpa trace → reconcileAutoscaler now later answers hpa = Returns (hpa', calls, err) →
    runs start hpa' (trace ++ rescaled now later answers hpa)
| runs_edit hpa hpa' trace :
    runs start hpa trace → hpa_Status hpa' = hpa_Status hpa → runs start hpa' trace.

Section run_facts.
Context `{F : FloatConv} `{P : Pow10Conv} `{C : AnnotationCodec}.

Lemma updateStatus_time now answers hpa cur des cpu cm b :
  LastScaleTime (hpa_Status (updateStatus now answers hpa cur des cpu cm b).1.1) =
    if b then Some now else LastScaleTime (hpa_Status hpa).
Proof. unfold updateStatus. by destruct (updateStatusErr answers). Qed.

(** A reconciliation, with what it writes to the status. *)
Lemma reconcile_eq (M : MetricsClient) now later answers hpa hpa' calls err :
  reconcileAutoscaler now later answers hpa = Returns (hpa', calls, err) →
  LastScaleTime (hpa_Status hpa') =
    match rescaled now later answers hpa with [] => LastScaleTime (hpa_Status hpa) | r :: _ => Some (made r) end ∧
  ∀ kind name n ok, UpdateScale kind name n ok ∈ calls →
    ∃ scale p, getScale answers = Ok scale ∧ desire now hpa scale = Returns (Ok p) ∧
      n = plan_Replicas p ∧ kind = ScaleRef_Kind hpa ∧ name = ScaleRef_Name hpa ∧
      shouldScale hpa (scale_Status_Replicas scale) n (plan_Timestamp p) = true ∧
      (ok = true ↔ rescaled now later answers hpa = [mkRescale (plan_Timestamp p) later (scale_Status_Replicas scale) n]).
Proof.
  assert (∀ now cur des cpu cm b kind name n ok, UpdateScale kind name n ok ∉ (updateStatus now answers hpa cur des cpu cm b).1.2) as Hno.
  { intros *. unfold updateStatus. destruct (updateStatusErr answers); cbn; by intros ?%list_elem_of_singleton. }
  unfold reconcileAutoscaler, rescaled. destruct (getScale answers) as [scale|]; [|intros [= <- <- <-]; split; [done|by intros * ?%elem_of_nil]].
  destruct (desire now hpa scale) as [[[n ts cpu cm]|]|] eqn:Ed; cbn [mbind outcome_bind]; [| |done].
  2: { intros E. pose proof (updateStatus_time later answers hpa (scale_Status_Replicas scale) (DesiredReplicas (hpa_Status hpa))
      (CurrentCPUUtilizationPercentage (hpa_Status hpa)) (default "" (hpa_Annotations hpa !! HpaCustomMetricsStatusAnnotationName)) false) as Ht.
    unfold updateCurrentReplicasInStatus in E. split; [|intros * Hin; exfalso; eapply Hno].
    - destruct (updateStatus _ _ _ _ _ _ _ _) as [[h l] er]. cbn in *. by injection E as <- <- <-.
    - destruct (updateStatus later answers hpa (scale_Status_Replicas scale) (DesiredReplicas (hpa_Status hpa)) _ _ false) as [[h l] er] eqn:Eu.
      cbn in E. injection E as <- <- <-. rewrite Eu. exact Hin. }
  cbn [plan_Replicas plan_Timestamp]. destruct (shouldScale _ _ _ _) eqn:Es.
  - destruct (updateScale answers) as [e|].
    + intros [= <- <- <-]. split; [done|]. intros kind name m ok [= -> -> -> ->]%list_elem_of_singleton. exists scale, (mkPlan n ts cpu cm). split_and!; try done; split; by intros [=].
    + pose proof (updateStatus_time later answers hpa (scale_Status_Replicas scale) n cpu cm true) as Ht.
      pose proof (Hno later (scale_Status_Replicas scale) n cpu cm true) as Hn. destruct (updateStatus _ _ _ _ _ _ _ _) as [[h l] er].
      intros [= <- <- <-]. cbn in *. split; [done|]. intros kind name m ok [[= -> -> -> ->]|Hin]%elem_of_cons; [|by apply Hn in Hin].
      exists scale, (mkPlan n ts cpu cm). split_and!; done.
  - intros E. pose proof (updateStatus_time later answers hpa (scale_Status_Replicas scale) (scale_Status_Replicas scale) cpu cm false) as Ht.
    pose proof (Hno later (scale_Status_Replicas scale) (scale_Status_Replicas scale) cpu cm false) as Hn. destruct (updateStatus _ _ _ _ _ _ _ _) as [[h l] er].
    injection E as <- <- <-. cbn in *. split; [done|]. intros * Hin. by apply Hn in Hin.
Qed.
End run_facts.

(** ** What can panic *)

Lemma pad3_digits n : 0 <= n < 1000 → String.length (pad3 (FormatInt n)) = 3%nat ∧ all_digits (pad3 (FormatInt n)) = true.
Proof.
  intros Hn. assert (forallb (λ n, Nat.eqb (String.length (pad3 (FormatInt (Z.of_nat n)))) 3 && all_digits (pad3 (FormatInt (Z.of_nat n))))
    (seq 0 1000) = true) as Hall by (vm_compute; reflexivity).
  assert (In (Z.to_nat n) (seq 0 1000)) as Hin by (apply in_seq; lia).
  rewrite forallb_forall in Hall. specialize (Hall _ Hin).
  rewrite Z2Nat.id in Hall by lia. apply andb_prop in Hall as [->%Nat.eqb_eq ->]. done.
Qed.

(** What is printed with three decimals is parsed as a quantity, or is refused: NaN and the infinities. *)
Lemma Sprintf3_parses `{Pow10Conv} f : ∃ r, ParseQuantity (Sprintf3 f) = Returns r.
Proof.
  destruct f as [x|negative|]; [|destruct negative; eexists; vm_compute; reflexivity|eexists; vm_compute; reflexivity].
  unfold Sprintf3. assert (0 <= round_even (Z.abs x * 1000) unit_one) as Hr.
  { pose proof unit_one_pos as HU. pose proof (round_even_bound (Z.abs x * 1000) unit_one HU) as Hb.
    set (U := unit_one) in *. clearbody U. set (q := round_even _ _) in *. clearbody q. clear -HU Hb. nia. }
  set (t := round_even _ _) in *. clearbody t. destruct (FormatInt_digits (t / 1000)) as (Hne & Hd & _); [by apply Z.div_pos|].
  destruct (pad3_digits (t mod 1000)) as [Hlen Hd3]; [by apply Z.mod_pos_bound|].
  set (sign := if x <? 0 then "-" else "").
  destruct (ParseQuantity_ok sign (FormatInt (t / 1000)) (Some (pad3 (FormatInt (t mod 1000)))) "" 10 0 DecimalSI) as (d & E & _).
  - unfold sign. destruct (x <? 0); set_solver.
  - cbn. unfold all_digits in *. by rewrite all_bytes_app, Hd, Hd3.
  - intros E. by destruct (FormatInt (t / 1000)).
  - change (Z.of_nat (String.length (pad3 (FormatInt (t mod 1000)))) < 2 ^ 29). by rewrite Hlen.
  - done.
  - by vm_compute.
  - unfold InfDec.number in E. rewrite str_app_nil_r in E. eauto.
Qed.

Section panics.
Context `{FloatConv} `{Pow10Conv} `{MetricsClient} `{AnnotationCodec}.

Lemma customMetricsLoop_returns hpa scale targets : ∀ replicas metric timestamp items,
  ∃ r, customMetricsLoop hpa scale targets replicas metric timestamp items = Returns r.
Proof.
  induction targets as [|target targets IH]; intros *; cbn [customMetricsLoop]; [eauto|].
  destruct (GetCustomMetric _ _ _) as [[value t]|]; [|eauto]. destruct (Sprintf3_parses value) as [r ->].
  destruct (if _ <? _ then _ else _) as [[? ?] ?]. destruct r; eauto.
Qed.

Lemma computeReplicasForCustomMetrics_returns hpa scale annotation :
  ∃ r, computeReplicasForCustomMetrics hpa scale annotation = Returns r.
Proof.
  unfold computeReplicasForCustomMetrics. destruct (bool_decide _); [eauto|]. destruct (unmarshalTargets _) as [[|target targets]|]; [eauto| |eauto].
  destruct (customMetricsLoop_returns hpa scale (target :: targets) 0 "" zeroTime []) as [[[[[? ?] ?] ?]|] ->]; [|eauto].
  destruct (marshalStatus _); eauto.
Qed.

Lemma desire_panics now hpa scale : desire now hpa scale = Panics →
  GetCPUUtilization (hpa_Namespace hpa) (scale_Selector scale) = Panics.
Proof.
  unfold desire. destruct (_ <? _); [done|]. destruct (match MinReplicas hpa with Some _ => _ | None => _ end); [done|].
  destruct (Z.eqb _ _); [done|]. set (cm := match _ !! _ with Some _ => _ | None => _ end).
  assert (∃ r, cm = Returns r) as [r ->].
  { unfold cm. destruct (_ !! _); [apply computeReplicasForCustomMetrics_returns|eauto]. }
  assert (∀ t, computeReplicasForCPUUtilization hpa scale = t → t = Panics →
    GetCPUUtilization (hpa_Namespace hpa) (scale_Selector scale) = Panics) as Hcpu.
  { unfold computeReplicasForCPUUtilization. destruct (GetCPUUtilization _ _) as [[[u t]|]|]; by intros ? <-. }
  destruct (if _ || _ then _ else _) as [[[[n u] t]|]|] eqn:E; cbn [mbind outcome_bind]; [|done|].
  - destruct r as [[[[? ?] ?] ?]|]; [|done]. by destruct (pickReplicas _ _ _ _ _).
  - intros _. destruct (_ || _); [|done]. by apply (Hcpu _ E).
Qed.
End panics.

(** ** Properties *)

(** C21: for an autoscaler whose bounds are those that the API accepts (the minimum is positive and at most the
    maximum), the only size that a reconciliation writes is one within the bounds of the autoscaler that
    differs from the current one, to the scale that the autoscaler refers to, and not before the window
    since the last change is over; it panics only if the metrics client does when it is
    asked for the utilization: nothing that is computed from the metrics panics, whatever they
    are, not even for a custom metric that is not a number. *)
Theorem reconcile_safe (F : FloatConv) (P : Pow10Conv) (M : MetricsClient) (C : AnnotationCodec)
    (now later : Time) (answers : apiAnswers) (hpa : HorizontalPodAutoscaler) : valid_spec hpa →
  match reconcileAutoscaler now later answers hpa with
  | Panics => ∃ scale, getScale answers = Ok scale ∧ GetCPUUtilization (hpa_Namespace hpa) (scale_Selector scale) = Panics
  | Returns (_, calls, _) =>
      ∀ kind name n ok, UpdateScale kind name n ok ∈ calls →
        ∃ scale p, getScale answers = Ok scale ∧ desire now hpa scale = Returns (Ok p) ∧ n = plan_Replicas p ∧
          kind = ScaleRef_Kind hpa ∧ name = ScaleRef_Name hpa ∧ lower hpa <= n <= MaxReplicas hpa ∧ n ≠ scale_Status_Replicas scale ∧
          ∀ t, LastScaleTime (hpa_Status hpa) = Some t → t + window (scale_Status_Replicas scale) n < plan_Timestamp p
  end.
Proof.
  intros Hv. destruct (reconcileAutoscaler now later answers hpa) as [[[hpa' calls] err]|] eqn:E.
  - apply reconcile_eq in E as [_ Hcalls]. intros kind name n ok Hin.
    destruct (Hcalls kind name n ok Hin) as (scale & p & Hs & Hd & -> & -> & -> & [Hne Hw]%shouldScale_true & _).
    pose proof (desire_bounds now hpa scale p Hv Hd). exists scale, p. split_and!; try done; lia.
  - unfold reconcileAutoscaler in E. destruct (getScale answers) as [scale|]; [|done]. exists scale. split; [done|].
    pose proof (desire_panics now hpa scale) as Hp.
    destruct (desire now hpa scale) as [[[n ts cpu cm]|]|]; cbn [mbind outcome_bind] in E; [|done|by apply Hp].
    destruct (shouldScale _ _ _ _); [|done]. destruct (updateScale answers); [done|]. by destruct (updateStatus _ _ _ _ _ _ _ _) as [[? ?] ?].
Qed.

(** C22: however often it reconciles, and whatever the metrics and the API server answer in
    between, a change of size is decided only when the window after the one before it is
    over, as long as the object that it writes the time of a change to is kept. *)
Theorem rescales_apart (F : FloatConv) (P : Pow10Conv) (C : AnnotationCodec) (start hpa : HorizontalPodAutoscaler) (trace : list rescale) :
  runs start hpa trace → ∀ i a b, trace !! i = Some a → trace !! S i = Some b → made a + window (from b) (to b) < decided b.
Proof.
  assert (runs start hpa trace → (∀ a, last trace = Some a → LastScaleTime (hpa_Status hpa) = Some (made a)) ∧
    ∀ i a b, trace !! i = Some a → trace !! S i = Some b → made a + window (from b) (to b) < decided b) as Hinv; [|by intros [_ ?]%Hinv].
  induction 1 as [|M now later answers hpa hpa' calls err trace _ [IHt IH] E|hpa hpa' trace _ [IHt IH] E]; [split; [done|]; intros i a b Ha; by rewrite lookup_nil in Ha| |rewrite E; by split].
  apply reconcile_eq in E as [Ht _]. unfold rescaled in *. destruct (getScale answers) as [scale|]; [|by rewrite app_nil_r, Ht].
  destruct (desire now hpa scale) as [[p|]|]; [|by rewrite app_nil_r, Ht..].
  destruct (shouldScale _ _ _ _) eqn:Es; [|by rewrite app_nil_r, Ht]. destruct (updateScale answers); [by rewrite app_nil_r, Ht|].
  split; [intros a; rewrite last_snoc; intros [= <-]; exact Ht|]. intros i a b Ha Hb.
  apply lookup_snoc_Some in Hb as [[Hi Hb]|[Hi <-]].
  - apply (IH i); [|done]. rewrite lookup_app_l in Ha by lia. done.
  - apply shouldScale_true in Es as [_ Hw]. rewrite lookup_app_l in Ha by lia. apply Hw, IHt. rewrite last_lookup.
    by replace (pred (length trace)) with i by lia.
Qed.

(** C23: within ten per cent of the target the size stays; further away it becomes the exact number of
    replicas that brings the usage to the target, or, when that is a whole number, possibly
    one more, because the ratio is a float64. *)
Theorem computeReplicasForCPUUtilization_spec (F : FloatConv) (M : MetricsClient) (hpa : HorizontalPodAutoscaler) (scale : Scale)
    (u : Z) (timestamp : Time) :
  let t := default 80 (CPUUtilization hpa) in
  let r := scale_Status_Replicas scale in
  GetCPUUtilization (hpa_Namespace hpa) (scale_Selector scale) = Returns (Ok (u, timestamp)) →
  0 <= u < 2 ^ 20 → 0 < t < 2 ^ 10 → 0 <= r < 2 ^ 20 →
  ∃ n, computeReplicasForCPUUtilization hpa scale = Returns (Ok (n, Some u, timestamp)) ∧
    (10 * Z.abs (u - t) < t → n = r) ∧
    (t < 10 * Z.abs (u - t) → ceiling (u * r) t <= n <= ceiling (u * r) t + 1 ∧ ((u * r) mod t ≠ 0 → n = ceiling (u * r) t)).
Proof.
  intros t r Hget Hu Ht Hr. unfold computeReplicasForCPUUtilization. rewrite Hget. eexists. split; [done|].
  change (default defaultTargetCPUUtilizationPercentage (CPUUtilization hpa)) with t. fold r. unfold replicasFor.
  destruct (tolerance_ok u t Hu Ht) as [Hin Hout]. split; intros Hd; [by rewrite Hin|]. rewrite Hout by done.
  destruct (replicas_ceil u t r Hu Ht Hr) as (c & -> & Hc & Heq). rewrite int_of_float_exact; [exact (conj Hc Heq)|].
  pose proof (ceiling_ok (u * r) t ltac:(lia)) as HC. set (k := ceiling (u * r) t) in *. clearbody k.
  assert (0 <= u * r <= 2 ^ 20 * 2 ^ 20) by (clear -Hu Hr; nia). clear -HC Hc H Ht. nia.
Qed.

(** ** Witnesses *)
#[local] Existing Instance whole_floats.
#[local] Existing Instance small_powers.

(** A client that reports one utilization, and no annotations. *)
Definition reports (utilization : Z) (timestamp : Time) : MetricsClient :=
  {| GetCPUUtilization _ _ := Returns (Ok (utilization, timestamp)); GetCustomMetric _ _ _ := Err "unknown metric" |}.

Definition no_codec : AnnotationCodec := {| unmarshalTargets _ := Ok []; marshalStatus _ := Ok "" |}.
#[local] Existing Instance no_codec.

Definition example_hpa : HorizontalPodAutoscaler :=
  mkHPA "ns" "web" ∅ "ReplicaSet" "web" (Some 2) 10 (Some 80) (mkStatus None None 0 0 None).

Definition scaled (replicas : Z) : apiAnswers := mkAnswers (Ok (mkScale replicas replicas ∅)) None None.

(** Twelve replicas are two too many. *)
Lemma reconcile_safe_witness :
  valid_spec example_hpa ∧
  ∃ hpa', @reconcileAutoscaler whole_floats small_powers (reports 120 5) no_codec 6 7 (scaled 12) example_hpa =
    Returns (hpa', [UpdateScale "ReplicaSet" "web" 10 true; UpdateStatus hpa' true], None) ∧
    lower example_hpa <= 10 <= MaxReplicas example_hpa.
Proof.
  assert (valid_spec example_hpa) as Hv by (split; cbn; lia). split; [exact Hv|]. eexists. split; [reflexivity|].
  pose proof (reconcile_safe whole_floats small_powers (reports 120 5) no_codec 6 7 (scaled 12) example_hpa Hv) as Hs.
  destruct (Hs "ReplicaSet" "web" 10 true ltac:(left)) as (_ & _ & _ & _ & _ & _ & _ & Hb & _). exact Hb.
Defined.

(** Down to the maximum at once, and four minutes later, when replicas are lost, up to the minimum. *)
Definition after (M : MetricsClient) (now later replicas : Z) (hpa : HorizontalPodAutoscaler) : HorizontalPodAutoscaler :=
  match reconcileAutoscaler now later (scaled replicas) hpa with Returns (hpa', _, _) => hpa' | Panics => hpa end.

Lemma runs_after (M : MetricsClient) now later replicas hpa r trace :
  runs example_hpa hpa trace → rescaled now later (scaled replicas) hpa = [r] →
  runs example_hpa (after M now later replicas hpa) (trace ++ [r]).
Proof.
  intros Hr E. unfold after. pose proof (runs_reconcile example_hpa M now later (scaled replicas) hpa) as Hstep. rewrite E in Hstep.
  destruct (reconcileAutoscaler now later (scaled replicas) hpa) as [[[hpa' calls] err]|] eqn:Er; [by eapply Hstep|].
  unfold rescaled in E. unfold reconcileAutoscaler in Er. cbn [getScale scaled] in *.
  destruct (desire now hpa _) as [[[n ts cpu cm]|]|]; cbn [mbind outcome_bind] in Er; [|done..]. cbn [plan_Replicas plan_Timestamp] in E.
  destruct (shouldScale _ _ _ _); [|done]. by destruct (updateScale _).
Qed.

Lemma rescales_apart_witness :
  let hpa := after (reports 120 5) 6 7 12 example_hpa in
  let hpa' := after (reports 120 5) (240 * 10 ^ 9) (241 * 10 ^ 9) 1 hpa in
  runs example_hpa hpa' [mkRescale 6 7 12 10; mkRescale (240 * 10 ^ 9) (241 * 10 ^ 9) 1 2] ∧
  7 + window 1 2 < 240 * 10 ^ 9.
Proof.
  intros hpa hpa'.
  assert (runs example_hpa hpa' [mkRescale 6 7 12 10; mkRescale (240 * 10 ^ 9) (241 * 10 ^ 9) 1 2]) as Hr.
  { assert (runs example_hpa hpa [mkRescale 6 7 12 10]) as Hr.
    - apply (runs_after (reports 120 5) 6 7 12 example_hpa _ []); [apply runs_start|reflexivity].
    - apply (runs_after (reports 120 5) (240 * 10 ^ 9) (241 * 10 ^ 9) 1 hpa _ [_] Hr). reflexivity. }
  split; [exact Hr|].
  exact (rescales_apart whole_floats small_powers no_codec example_hpa hpa' _ Hr 0%nat _ _ eq_refl eq_refl).
Defined.

(** A whole number of replicas, and one more. *)
Lemma computeReplicasForCPUUtilization_spec_witness :
  let hpa := mkHPA "ns" "web" ∅ "ReplicaSet" "web" (Some 2) 100 (Some 50) (mkStatus None None 0 0 None) in
  ∃ n, @computeReplicasForCPUUtilization whole_floats (reports 7 5) hpa (mkScale 50 50 ∅) = Returns (Ok (n, Some 7, 5)) ∧
    7 <= n <= 8 ∧ n = 8.
Proof.
  intros hpa.
  destruct (computeReplicasForCPUUtilization_spec whole_floats (reports 7 5) hpa (mkScale 50 50 ∅) 7 5 eq_refl) as (n & E & _ & Hn);
    [cbn; lia..|].
  exists n. split; [exact E|]. destruct (Hn ltac:(cbn; lia)) as [Hb _]. split; [exact Hb|].
  vm_compute in E. by injection E as <-.
Defined.

(** Exactly ten per cent above the target is beyond the tolerance, and ten per cent below it is not. *)
Example tolerance_asymmetric :
  let beyond usage target := flt tolerance (fabs (fsub (fint 1) (fdiv (fint usage) (fint target)))) in
  beyond 88 80 = true ∧ beyond 72 80 = false.
Proof. vm_compute. auto. Qed.

(** An annotation without targets and no target for the processor: no metric is asked, and ten replicas become two. *)
Example empty_annotation_scales_down :
  let hpa := mkHPA "ns" "web" {[HpaCustomMetricsTargetAnnotationName := ""]} "ReplicaSet" "web" (Some 2) 10 None (mkStatus None None 0 0 None) in
  (λ r, r.1.2) <$> @reconcileAutoscaler whole_floats small_powers (reports 500 5) no_codec 6 7
    (mkAnswers (Ok (mkScale 10 10 ∅)) None (Some "conflict")) hpa =
  Returns [UpdateScale "ReplicaSet" "web" 2 true;
    UpdateStatus (mkHPA "ns" "web" (hpa_Annotations hpa) "ReplicaSet" "web" (Some 2) 10 None (mkStatus None (Some 7) 10 2 None)) false].
Proof. vm_compute. reflexivity. Qed.
